(* ===== verification/_CoqProject ===== *)
-Q . S2P
Prelude.v
GoRuntime.v
GoFloat.v
FloatRounding.v
GoText.v
GoSlices.v
Nodes.v
Snapshots.v
HeapBuild.v
Traversal.v
PgQuery.v
TreeProto.v
Statements.v
ConvertedTree.v
ParseMemory.v
ViewMemory.v
TraversalMemory.v
WalkMemory.v
Errors.v
RuleContract.v
Observability.v
Engine.v
EngineMemory.v
EngineState.v
EngineProps.v
BuiltinRules.v
Prometheus.v
Slog.v
Pgx.v
PgxGuard.v
PgxPrepared.v
PgxEngine.v
ListLRU.v
Sizeprobe.v
Prog.v
ConcurrentEngine.v
ConcurrentGuard.v
ConcurrentSinks.v
ConcurrentSystem.v
Benchcharts.v
ChartDocument.v
ChartBars.v
BenchchartsProps.v
BenchchartsExamples.v
Examples.v
Witnesses.v
BoundaryWitnesses.v
ConcurrentExamples.v
SnapshotExamples.v
ParseMemoryExamples.v
MemoryExamples.v
