(* ===== verification/Prelude.v ===== *)
(** * postgres-sqlguard: a verification library

    postgres-sqlguard is a Go library that validates SQL before it is sent to
    PostgreSQL.  An [Engine] parses the whole input with PostgreSQL's own parser,
    converts the parse tree to a parser-neutral one, visits the top-level statements
    and the statements of their WITH clauses, asks every registered rule about each of
    them, and returns nil, a [Violation], a [ParseError] or the context's error.  It
    tells optional metrics and logger sinks one bounded event per validation.  This
    library models that program, file by file, as executable definitions, and proves
    what makes it correct.

    ** The parts, and how they depend on each other

    The language and its library:
    - [Prelude] (this file): Go computations as a state monad with panics
      ([outcome], [M], [recover], [for_range]), recursion on a measure ([knot]), lists,
      strings, hints.
    - [GoRuntime]: interface values with the reflective nil test, error values and
      errors.As, strings.IndexByte.  [GoFloat]: float64 as IEEE binary64 numbers, and
      their decimal formatting.  [FloatRounding]: the order of the rounded
      results, as rationals.  [GoText]: UTF-8, xml.EscapeText, the %q verb.
      [GoSlices]: 64-bit differences, slices.Sort, slices.SortFunc, filepath.Join.

    The library under verification:
    - [Nodes] (internal/parser/node.go, parser.go): the tree, a tagged union written as
      the Go struct, its accessors, its well-formedness and height.  [Snapshots] (the same
      files): the structs and backing arrays in a store, the accessors on it, and clients
      that write to whatever the accessors hand out.  [HeapBuild]: make, append and the
      loops that build slices on that store or range over them.
    - [Traversal] (internal/parser/traversal.go): [StatementSequence] and its
      specification by pre-orders and reachability through WITH clauses.
      [TraversalMemory]: the same on the store, with the slice that it builds.
    - [PgQuery] (internal/parser/pgquery.go, backend_cgo.go, backend_nocgo.go): the
      conversion from protobuf messages and [Parse].  Protobuf reflection and the two
      PostgreSQL parsers are classes ([ProtoReflect], [PgQuery]); the conversion relies
      on [ProtoReflectLaws].  [ConvertedTree]: the tree of nodes against the tree of
      messages.  [ParseMemory]: the conversion and [Parse] again, on the store, reading the
      backend's byte slices where they are (the class [ProtoMemory]).  [TreeProto]: an instance of both classes, with the trees of a few SQL
      texts.
    - [Statements] (statement.go): the public view of a statement and [Walk].  [ViewMemory]:
      its accessors that return slices, on the store.  [WalkMemory]: the walk on the store,
      with a visitor that writes to whatever it was given.
    - [Errors] (errors.go), [RuleContract] (rule.go), [Observability]
      (observability.go): public errors, the rule contract, events.
    - [Engine] (engine.go, prepared.go): contexts, rules and sinks are records of
      functions over the application's state; every call of them, and every parse, is
      kept in a trace.  The specification is the protocol of a validation:
      [evaluation], [prepared_protocol], [prepare_failure], [validate_protocol] say which
      calls can happen in which order and which [verdict] they lead to.
    - [EngineMemory]: the engine again, on the store: [Parse] builds the tree there, rules get
      pointers into it, and contexts, rules and sinks are clients that write to it.
    - [EngineState]: what a validation leaves of the application's state, and what a nil
      verdict says whatever the context does.  [EngineProps]: the theorems on the engine
      (its refinement of the protocol and the precedence of cancellation are in
      [Engine]).
    - [BuiltinRules] (pkg/rules): the six rules, what each looks for ([violates]), and the
      documented policies under any reading of ALTER TABLE ([documented]).
    - [Prometheus], [Slog] (pkg/observability): the two sinks.  client_golang is the
      class [PrometheusClient] with [PrometheusLaws]; a log handler is a record.
    - [Pgx], [PgxGuard] (example/pgx), [PgxPrepared] (example/pgx-prepared): the guards in
      front of the driver, the second with a cache.  golang-lru is the class [LRU] with
      [LRULaws]; what the cache needs of a validator is the class [PreparedContract].
      The failed row that both packages declare is the type [Row] of [Pgx].
    - [PgxEngine]: the engine is an instance of that contract, and the end-to-end
      theorems.  [ListLRU]: an instance of [LRU].

    The same under concurrency:
    - [Prog]: computations as trees of calls, which can be run at once ([denote], the
      sequential model), along a list of states ([follow]), or in a [pool], interleaved
      call by call with others and with any other change of the shared state.
    - [ConcurrentEngine] (engine.go): the engine's methods as such trees, proved to denote
      the sequential ones; pools of validations.
    - [ConcurrentGuard] (example/pgx-prepared): requests to one caching guard as a state
      machine ([guard_step]) over the shared cache; its reachable states; the sequential
      guard is one of its executions.
    - [ConcurrentSinks]: what interleaved validations leave in the two sinks.
    - [ConcurrentSystem]: the engine and the guard composed.

    The programs next to the library:
    - [Sizeprobe] (internal/testutil/cmd/sizeprobe): its main function.
    - [Benchcharts] (internal/testutil/cmd/benchcharts): the chart generator, from the
      validation of a dataset to the text of each chart and the files it writes.  The
      operating system, the JSON decoder and the order of a map range are classes ([OS],
      [Json], [MapRange] with [MapRangeLaws]).  [ChartDocument]: a reader of the SVG it
      writes.  [ChartBars]: the geometry of the bars it draws and the labels below them.  [BenchchartsProps]: its theorems.

    [Examples], [Witnesses], [BoundaryWitnesses], [BenchchartsExamples],
    [ConcurrentExamples], [SnapshotExamples], [ParseMemoryExamples] and [MemoryExamples]
    evaluate the definitions and apply every
    theorem with hypotheses, on one example application and on the committed benchmark
    dataset, for which the model's charts are the committed files byte for byte.

    ** What the theorems show

    Parsing fails closed, converts totally, and yields well-formed trees that are the
    backend's without the wrapper messages; a tree shares no memory with the backend, and no
    client of the accessors can change it; the public accessors hand out slices of their own;
    no visitor can lead a walk astray, and a validation in memory follows the protocol on the
    trees that were parsed whatever rules, contexts and sinks write, again and again;
    the statement sequence is the concatenation of pre-orders and visits exactly what is
    reachable through WITH clauses; [Walk] is a pre-order that ends at a nil node.  Every
    run of the engine follows the protocol; a validation that returns emits one event;
    sinks, even panicking ones, change no verdict; cancellation wins over parser results
    and over an invalid prepared value; the first rejected pair decides; [NewEngine]
    accepts exactly the documented configurations.  Each built-in rule rejects exactly what
    it looks for, and an engine of such rules accepts every input that adheres to the
    documented policies in the visited statements, and nothing that breaks one, with one
    exception: the documents promise that every ALTER TABLE can be denied, and the rule does
    not look at ALTER TABLE ... RENAME and SET SCHEMA.  Where theorems speak of compliance
    ([compliant], [violates]) they mean what the rules look for.  The sinks count and log each verdict once.  The
    guards pass to the driver only SQL that was just validated, and the cache changes no
    verdict.

    All of this survives concurrency: interleaved validations each follow the protocol,
    return what they would return alone, and end, each after a bounded number of calls of its
    own; interleaved requests to the caching guard reach the driver only with compliant SQL,
    each is answered by its own fifth action, and neither the cache nor the other requests
    change its answer.  The sinks count and log
    each of the interleaved verdicts once.

    The chart generator accepts exactly the publishable datasets, sorts the cases without
    overflow, prints numbers that read back as the measurements rounded, writes documents
    that nest and in which no text of the dataset becomes markup, lists the cases in their
    order, draws bars that reach from inside the plot area to its axis, up to the tenth of a
    unit that printing costs, and, up to 61 cases, side by side between its sides, and leaves
    nothing else on the disk.  The size probe ends without a panic exactly when its queries comply.

    ** Measures and termination

    [appendStatement], [walkNode] and [convertMessage] recurse on sub-trees found by
    look-up.  They are tied by [knot] on the height of their argument, which is enough
    because every recursive call is on a lower tree; [knot_unfold] gives back the
    recursive equation of the source, so no statement on trees mentions fuel.
    On the store the traversal and the walk run on a stack of [depth] frames and panic when
    it is used up; every theorem on them holds for any stack deeper than the trees are high.
    Loops over slices are folds, or [for_range] where the body can return; on the store they
    are [range_fold] and [range_slice].  Concurrent executions are bounded by what their
    requests can still do ([validate_bound], [remaining]).

    ** Not modelled

    Integers of the tree are Z with their 64-bit range in [wf_value]; lengths are
    unbounded.  Concurrent code interleaves at the calls of contexts, rules, sinks, the
    validator, the cache and the driver; the code between them touches no shared state, and
    one such call is one atomic step.
    Float arithmetic rounds every operation, as on a machine without fused multiply-add; the
    language lets compilers fuse [92 + groupWidth*(i+0.5)] and [390 - value/maximum*298] in
    the chart generator, and where they do coordinates can differ in their last printed
    digit.  The decoding of the
    dataset, the parsing of the flags, the file system and the table of printable runes are
    parameters.  Left out: the bodies of pg_query_go, go-pgquery, protobuf, client_golang,
    golang-lru and pgx (parameters); the doc.go files (comments only); tests and examples
    that only call the API.  In memory, a validation is not interleaved with others: the
    concurrent executions are those of trees as values, which the theorems on memory support.
    Beyond this nothing of the program that computes is left to model: the lines
    without a definition are comments, imports, and declarations of interfaces and empty
    structs. *)
From stdpp Require Import base gmap strings list.

(** ** Go computations

    A Go call either returns or panics; the state it may touch is threaded
    explicitly.  [Panic] carries the panic value as text. *)
Inductive outcome (A : Type) : Type :=
| Ret (a : A)
| Panic (v : string).
Arguments Ret {A} _.
Arguments Panic {A} _.

(** A Go computation over the state [S]. *)
Definition M (S A : Type) : Type := S -> outcome A * S.

#[export] Instance M_ret {S} : MRet (M S) := fun A a s => (Ret a, s).

#[export] Instance M_bind {S} : MBind (M S) := fun A B k m s =>
  match m s with
  | (Ret a, s') => k a s'
  | (Panic v, s') => (Panic v, s')
  end.

(** A panicking computation. *)
Definition panic {S A} (v : string) : M S A := fun s => (Panic v, s).

(** [defer func() { _ = recover() }()]: the panic ends here, the state it left
    stays. *)
Definition recover {S} (m : M S unit) : M S unit := fun s =>
  match m s with
  | (Ret a, s') => (Ret a, s')
  | (Panic _, s') => (Ret tt, s')
  end.

(** A Go [for range] loop whose body may [return v] from the enclosing function:
    [Some v] is that early return, [None] is the end of the iteration. *)
Fixpoint for_range {S X R} (l : list X) (body : X -> M S (option R)) : M S (option R) :=
  match l with
  | [] => mret None
  | x :: l' =>
      r ← body x;
      match r with
      | Some v => mret (Some v)
      | None => for_range l' body
      end
  end.

(** Two computations are the same when they agree on every start state. *)
#[export] Instance M_equiv {S A} : Equiv (M S A) := fun m1 m2 => forall s, m1 s = m2 s.

(** ** Recursion on a measure

    Go functions recurse on trees whose sub-trees are found by look-up, which
    is not structural.  [knot] unrolls an open-recursive body [F] as often as
    the measure of the argument allows; [knot_unfold] shows that the result
    satisfies the recursive equation, so the measure never shows. *)
Fixpoint unroll {A B} (F : (A -> B) -> A -> B) (bot : A -> B) (fuel : nat) : A -> B :=
  match fuel with
  | O => bot
  | S fuel' => F (unroll F bot fuel')
  end.

Definition knot {A B} (mu : A -> nat) (bot : A -> B) (F : (A -> B) -> A -> B) (a : A) : B :=
  unroll F bot (S (mu a)) a.

(** [F] calls its recursive argument only below the measure. *)
Class Guarded {A B} (mu : A -> nat) (R : B -> B -> Prop) (F : (A -> B) -> A -> B) : Prop :=
  guarded_calls : forall f g a,
    (forall a', mu a' < mu a -> R (f a') (g a')) -> R (F f a) (F g a).

(** The first element of a list on which [f] is defined. *)
Definition find_first {X Y} (f : X -> option Y) : list X -> option Y :=
  fix go l :=
    match l with
    | [] => None
    | x :: l' => match f x with Some y => Some y | None => go l' end
    end.

(** ** Laws of Go computations *)
#[export] Instance M_equiv_equivalence {S A} : Equivalence (≡@{M S A}).
Proof.
  split.
  - by intros m s.
  - intros m1 m2 H s. by rewrite H.
  - intros m1 m2 m3 H1 H2 s. by rewrite H1.
Qed.

#[export] Instance M_bind_proper {S A B} :
  Proper (pointwise_relation A (≡) ==> (≡@{M S A}) ==> (≡@{M S B})) (@mbind (M S) _ A B).
Proof.
  intros k1 k2 Hk m1 m2 Hm s. unfold mbind, M_bind. rewrite Hm.
  destruct (m2 s) as [[a|v] s']; [apply Hk | done].
Qed.

Lemma M_ret_bind {S A B} (a : A) (k : A -> M S B) : (mret a ≫= k) ≡ k a.
Proof. by intros s. Qed.

Lemma M_bind_ret {S A} (m : M S A) : (m ≫= mret) ≡ m.
Proof. intros s. unfold mbind, M_bind. by destruct (m s) as [[a|v] s']. Qed.

Lemma M_bind_assoc {S A B C} (m : M S A) (k : A -> M S B) (h : B -> M S C) :
  ((m ≫= k) ≫= h) ≡ (m ≫= fun a => k a ≫= h).
Proof. intros s. unfold mbind, M_bind. by destruct (m s) as [[a|v] s']. Qed.

(** Inversion of a bind that returned. *)
Lemma M_bind_Ret {S A B} (m : M S A) (k : A -> M S B) s b s' :
  (m ≫= k) s = (Ret b, s') <-> exists a s1, m s = (Ret a, s1) /\ k a s1 = (Ret b, s').
Proof.
  unfold mbind, M_bind. split.
  - destruct (m s) as [[a|v] s1]; [by eauto | done].
  - intros (a & s1 & -> & Hk). done.
Qed.

(** Running a bind whose first part is known. *)
Lemma bind_Ret {S A B} (m : M S A) (k : A -> M S B) s a s1 :
  m s = (Ret a, s1) -> (m ≫= k) s = k a s1.
Proof. unfold mbind, M_bind. by intros ->. Qed.

Lemma bind_Panic {S A B} (m : M S A) (k : A -> M S B) s v s1 :
  m s = (Panic v, s1) -> (m ≫= k) s = (Panic v, s1).
Proof. unfold mbind, M_bind. by intros ->. Qed.

(** ** Loops *)
#[export] Instance for_range_proper {S X R} (l : list X) :
  Proper (pointwise_relation X (≡) ==> (≡@{M S (option R)})) (for_range l).
Proof.
  intros f g H. induction l as [|x l IH]; [done|]. cbn.
  apply M_bind_proper; [|apply H]. intros [v|]; [done | apply IH].
Qed.

(** A loop depends on its body only at the elements it visits. *)
Lemma for_range_ext {S X R} (l : list X) (f g : X -> M S (option R)) :
  (forall x, x ∈ l -> f x ≡ g x) -> for_range l f ≡ for_range l g.
Proof.
  induction l as [|x l IH]; intros H; [done|]. cbn.
  apply M_bind_proper; [|apply H; left].
  intros [v|]; [done | apply IH]. intros y Hy. apply H. by right.
Qed.

Lemma for_range_app {S X R} (l1 l2 : list X) (f : X -> M S (option R)) :
  for_range (l1 ++ l2) f ≡
  (r ← for_range l1 f; match r with Some v => mret (Some v) | None => for_range l2 f end).
Proof.
  induction l1 as [|x l1 IH]; cbn; [by rewrite M_ret_bind|].
  rewrite M_bind_assoc. apply M_bind_proper; [|done].
  intros [v|]; [by rewrite M_ret_bind | apply IH].
Qed.

(** Two nested loops are one loop over the pairs. *)
Lemma for_range_flat_map {S X Y R} (l : list X) (g : X -> list Y) (f : Y -> M S (option R)) :
  for_range l (fun x => for_range (g x) f) ≡ for_range (flat_map g l) f.
Proof.
  induction l as [|x l IH]; [done|]. cbn. rewrite for_range_app.
  apply M_bind_proper; [|done]. intros [v|]; [done | apply IH].
Qed.

Lemma for_range_map {S X Y R} (l : list X) (h : X -> Y) (f : Y -> M S (option R)) :
  for_range (map h l) f ≡ for_range l (fun x => f (h x)).
Proof.
  induction l as [|x l IH]; [done|]. cbn.
  apply M_bind_proper; [|done]. intros [v|]; [done | apply IH].
Qed.

(** A loop that runs to its end has run its body on every element. *)
Lemma for_range_None {S X R} (l : list X) (f : X -> M S (option R)) s s' :
  for_range l f s = (Ret None, s') -> Forall (fun x => exists s1 s2, f x s1 = (Ret None, s2)) l.
Proof.
  revert s. induction l as [|x l IH]; intros s; [constructor|]. cbn.
  intros ([r|] & s1 & Hx & Hl)%M_bind_Ret; [done|]. constructor; eauto.
Qed.

(** ** The recursive equation of [knot] *)
Lemma unroll_stable {A B} (mu : A -> nat) (R : B -> B -> Prop) `{!Equivalence R} bot F
    `{!Guarded mu R F} n m a :
  mu a < n -> mu a < m -> R (unroll F bot n a) (unroll F bot m a).
Proof.
  revert m a. induction n as [|n IH]; intros [|m] a Hn Hm; try lia. cbn.
  apply (guarded_calls (R:=R)). intros a' Ha. apply IH; lia.
Qed.

Lemma knot_unfold {A B} (mu : A -> nat) (R : B -> B -> Prop) `{!Equivalence R} bot F
    `{!Guarded mu R F} a :
  R (knot mu bot F a) (F (knot mu bot F) a).
Proof.
  unfold knot at 1. cbn. apply (guarded_calls (R:=R)). intros a' Ha.
  apply (unroll_stable mu R bot F); lia.
Qed.

(** ** Lists *)
Lemma find_first_None {X Y} (f : X -> option Y) l :
  find_first f l = None <-> Forall (fun x => f x = None) l.
Proof.
  induction l as [|x l IH]; cbn.
  - split; [constructor|done].
  - rewrite Forall_cons, <- IH. destruct (f x); naive_solver.
Qed.

Lemma find_first_Some {X Y} (f : X -> option Y) l y :
  find_first f l = Some y <->
  exists l1 x l2, l = l1 ++ x :: l2 /\ Forall (fun z => f z = None) l1 /\ f x = Some y.
Proof.
  split.
  - induction l as [|x l IH]; cbn; [done|].
    destruct (f x) eqn:Hx; intros Heq.
    + simplify_eq. by exists [], x, l.
    + destruct (IH Heq) as (l1 & z & l2 & -> & H1 & H2).
      exists (x :: l1), z, l2. auto.
  - intros (l1 & x & l2 & -> & H1 & H2).
    induction H1 as [|z l1 Hz _ IH]; cbn; [by rewrite H2 | by rewrite Hz].
Qed.

Lemma find_first_app {X Y} (f : X -> option Y) l1 l2 :
  find_first f (l1 ++ l2) =
  match find_first f l1 with Some y => Some y | None => find_first f l2 end.
Proof. induction l1 as [|x l1 IH]; cbn; [done|]. by destruct (f x). Qed.

Lemma foldl_flat_map {X Y} (g : X -> list Y) (l : list X) (acc : list Y) :
  foldl (fun acc x => acc ++ g x) acc l = acc ++ flat_map g l.
Proof.
  revert acc. induction l as [|x l IH]; intros acc; cbn.
  - by rewrite app_nil_r.
  - by rewrite IH, app_assoc.
Qed.

Lemma elem_of_flat_map {X Y} (g : X -> list Y) (l : list X) (y : Y) :
  y ∈ flat_map g l <-> exists x, x ∈ l /\ y ∈ g x.
Proof.
  rewrite list_elem_of_In, in_flat_map.
  split; intros (x & H); exists x; by rewrite !list_elem_of_In in *.
Qed.

Lemma elem_of_concat {Y} (ls : list (list Y)) (y : Y) : y ∈ concat ls <-> exists l, l ∈ ls /\ y ∈ l.
Proof.
  rewrite list_elem_of_In, in_concat. split; intros (l & H); exists l; by rewrite !list_elem_of_In in *.
Qed.

(** Distinct images: the function is injective on the list. *)
Lemma NoDup_fmap_inj_on {X Y} (f : X -> Y) (l : list X) (x y : X) :
  NoDup (f <$> l) -> x ∈ l -> y ∈ l -> f x = f y -> x = y.
Proof.
  induction l as [|z l IH]; cbn; intros Hnd Hx Hy Hf; [by apply not_elem_of_nil in Hx|].
  apply NoDup_cons in Hnd as [Hz Hnd].
  apply elem_of_cons in Hx as [->|Hx], Hy as [->|Hy]; [done | | | by apply IH].
  - destruct Hz. rewrite Hf. by apply list_elem_of_fmap_2.
  - destruct Hz. rewrite <- Hf. by apply list_elem_of_fmap_2.
Qed.

Lemma foldl_ext_in {X Y} (f g : Y -> X -> Y) (l : list X) (acc : Y) :
  (forall y x, x ∈ l -> f y x = g y x) -> foldl f acc l = foldl g acc l.
Proof.
  revert acc. induction l as [|x l IH]; intros acc H; cbn; [done|].
  rewrite H by left. apply IH. intros y z Hz. apply H. by right.
Qed.

(** ** Strings of bytes *)
Fixpoint string_forallb (f : Ascii.ascii -> bool) (s : string) : bool :=
  match s with EmptyString => true | String c s' => f c && string_forallb f s' end.

Lemma append_nil_l s : ("" +:+ s = s)%string.
Proof. done. Qed.

Lemma append_cons c s t : (String c s +:+ t = String c (s +:+ t))%string.
Proof. done. Qed.

Lemma append_nil_r s : (s +:+ "" = s)%string.
Proof. induction s as [|c s IH]; [done|]. by rewrite append_cons, IH. Qed.

Lemma append_assoc s t u : ((s +:+ t) +:+ u = s +:+ t +:+ u)%string.
Proof. induction s as [|c s IH]; [done|]. by rewrite !append_cons, IH. Qed.

Lemma string_forallb_app f s t :
  string_forallb f (s +:+ t)%string = string_forallb f s && string_forallb f t.
Proof. induction s as [|c s IH]; [done|]. rewrite append_cons. cbn. by rewrite IH, andb_assoc. Qed.

Lemma string_forallb_impl (f g : Ascii.ascii -> bool) s :
  (forall c, f c = true -> g c = true) -> string_forallb f s = true -> string_forallb g s = true.
Proof.
  intros H. induction s as [|c s IH]; [done|]. cbn. intros [Hc Hs]%andb_prop.
  by rewrite (H _ Hc), IH.
Qed.

(** ** Automation

    [go] holds the facts that close the side conditions of the components' proofs:
    which calls a part of a protocol can make, which interface values are live.
    The rewriting database [trace] computes the views of a trace. *)
Create HintDb go.
Create Rewrite HintDb trace.
#[export] Hint Resolve M_ret_bind M_bind_ret : go.
