(* ===== verification/GoRuntime.v ===== *)
(** * The parts of the Go runtime and standard library the code relies on

    Interface values and the [reflect] test for typed nils, the [errors]
    package over the error values of every package of the repository, and
    [strings.IndexByte]. *)
From stdpp Require Import base strings list.
From S2P Require Import Prelude.

(** ** Interface values *)

(** [reflect.Kind]. *)
Inductive RKind : Set :=
| RInvalid | RBool | RInt | RUint | RUintptr | RFloat | RComplex | RArray | RChan
| RFunc | RInterface | RMap | RPointer | RSlice | RString | RStruct | RUnsafePointer.

(** A non-nil interface value: the kind of its dynamic type, whether the
    dynamic value is nil (meaningful for the nillable kinds) and the methods it
    dispatches to. *)
Record dynamic (A : Type) : Type := Dynamic {
  dyn_kind : RKind;
  dyn_nil : bool;
  dyn_impl : A
}.
Arguments Dynamic {A} _ _ _.
Arguments dyn_kind {A} _.
Arguments dyn_nil {A} _.
Arguments dyn_impl {A} _.

(** A value of an interface type; [None] is the nil interface. *)
Abbreviation iface A := (option (dynamic A)).

(** The kinds a Go value of which can be nil and that [reflect.Value.IsNil]
    accepts among those the code lists. *)
Definition nillable (k : RKind) : bool :=
  match k with
  | RChan | RFunc | RInterface | RMap | RPointer | RSlice => true
  | _ => false
  end.

(** The interface value dispatches to a live implementation: neither the nil
    interface nor a typed nil. *)
Definition live {A} (v : iface A) : Prop :=
  exists d, v = Some d /\ (nillable (dyn_kind d) = true -> dyn_nil d = false).

(** ** Error values

    One constructor per concrete error type that the repository creates or
    inspects; [ForeignError] is an error of code outside the repository, named by
    what identifies it ([context.Canceled], a driver error). *)

(** [parser.Error], [sqlguard.Violation] and [sqlguard.ParseError]. *)
Record ParserError : Set := { pe_category : string }.
Record Violation : Set := { v_ruleID : string }.
Record ParseError : Set := { p_category : string }.

Inductive goerror : Set :=
| ErrorString (variable text : string)        (** the package variable holding errors.New(text) *)
| FmtError (text : string)                    (** fmt.Errorf without a wrapping verb *)
| WrapError (text : string) (inner : goerror) (** fmt.Errorf with %w *)
| JoinError (inner : list goerror)            (** errors.Join *)
| ParserErrorPtr (e : option ParserError)     (** a *parser.Error, maybe a nil pointer *)
| ViolationPtr (e : option Violation)         (** a *sqlguard.Violation *)
| ParseErrorPtr (e : option ParseError)       (** a *sqlguard.ParseError *)
| ForeignError (name : string).

(** [errors.As]: the first error of the tree, in depth-first order, that the
    target's type accepts. *)
Fixpoint errors_As_tree {T} (target : goerror -> option T) (err : goerror) : option T :=
  match target err with
  | Some t => Some t
  | None =>
      match err with
      | WrapError _ inner => errors_As_tree target inner
      | JoinError inner => find_first (errors_As_tree target) inner
      | _ => None
      end
  end.

Definition errors_As {T} (target : goerror -> option T) (err : option goerror) : option T :=
  match err with
  | None => None
  | Some err => errors_As_tree target err
  end.

(** The targets the code passes: pointer types, so a match may be a nil
    pointer. *)
Definition as_ParserError (e : goerror) : option (option ParserError) :=
  match e with ParserErrorPtr p => Some p | _ => None end.
Definition as_Violation (e : goerror) : option (option Violation) :=
  match e with ViolationPtr p => Some p | _ => None end.
Definition as_ParseError (e : goerror) : option (option ParseError) :=
  match e with ParseErrorPtr p => Some p | _ => None end.

(** The errors reachable by unwrapping, the error itself included. *)
Inductive reachable : goerror -> goerror -> Prop :=
| reach_self e : reachable e e
| reach_wrap text inner e : reachable inner e -> reachable (WrapError text inner) e
| reach_join es inner e : inner ∈ es -> reachable inner e -> reachable (JoinError es) e.

(** ** [strings.IndexByte] *)
Fixpoint IndexByte_from (i : Z) (s : string) (c : Ascii.ascii) : Z :=
  match s with
  | EmptyString => -1
  | String a s' => if decide (a = c) then i else IndexByte_from (i + 1) s' c
  end.

Definition IndexByte (s : string) (c : Ascii.ascii) : Z := IndexByte_from 0 s c.

(** ** Lemmas *)
Fixpoint string_elems (s : string) : list Ascii.ascii :=
  match s with EmptyString => [] | String a s' => a :: string_elems s' end.

#[export] Instance RKind_eq_dec : EqDecision RKind.
Proof. solve_decision. Defined.

Lemma IndexByte_from_found i s c : (0 <= i)%Z -> (0 <= IndexByte_from i s c)%Z <-> c ∈ string_elems s.
Proof.
  revert i. induction s as [|a s IH]; intros i Hi; cbn.
  - split; [lia|]. intros H. by apply not_elem_of_nil in H.
  - rewrite elem_of_cons. case_decide as Hac.
    + subst a. split; [by left | lia].
    + rewrite IH by lia. naive_solver.
Qed.

Lemma IndexByte_found s c : (0 <= IndexByte s c)%Z <-> c ∈ string_elems s.
Proof. by apply IndexByte_from_found. Qed.

(** What [errors.As] finds is an error the target accepts, reachable by
    unwrapping. *)
Lemma errors_As_tree_sound {T} (target : goerror -> option T) :
  forall err t, errors_As_tree target err = Some t ->
  exists e, reachable err e /\ target e = Some t.
Proof.
  fix IH 1. intros err t.
  destruct err as [v x|x|x inner|es|p|p|p|x]; cbn;
    destruct (target _) as [t'|] eqn:Ht; intros H; simplify_eq;
    try (eexists; split; [constructor | exact Ht]).
  - destruct (IH _ _ H) as (e & He & Het). exists e. split; [by constructor | done].
  - enough (exists inner e, inner ∈ es /\ reachable inner e /\ target e = Some t)
      as (inner & e & Hin & He & Het) by (exists e; split; [by econstructor | done]).
    clear Ht. revert H. induction es as [|e es IHes]; cbn; [done|].
    destruct (errors_As_tree target e) as [t'|] eqn:He; intros H; simplify_eq.
    + destruct (IH _ _ He) as (e' & Hr & Ht). exists e, e'. split; [by left | done].
    + destruct (IHes H) as (inner & e' & Hin & Hr & Ht). exists inner, e'.
      split; [by right | done].
Qed.

(** The reflective nil test of the code, on a value that is not the nil
    interface. *)
Lemma reflect_nil_live {A} (d : dynamic A) :
  (if nillable (dyn_kind d) then dyn_nil d else false) = false <-> live (Some d).
Proof.
  unfold live. split.
  - intros H. exists d. split; [done|]. by destruct (nillable (dyn_kind d)).
  - intros (d' & [= <-] & H). destruct (nillable (dyn_kind d)); auto.
Qed.

Lemma not_live_nil {A} : ~ live (None : iface A).
Proof. by intros (? & ? & _). Qed.

#[export] Hint Resolve reflect_nil_live not_live_nil : go.
