(* ===== verification/GoFloat.v ===== *)
(** * float64 arithmetic and its decimal formatting

    A float64 is an IEEE datum of the Standard Library's [SpecFloat] at precision 53, and
    every operation rounds its own result.  The language also lets a compiler fuse a
    multiplication with the addition or subtraction that follows it, without the rounding
    between them, and compilers for machines with such an instruction (arm64 among them) do.
    This is the arithmetic of a target without it.  The built-in [max], [math.Min], [math.IsInf] and [math.IsNaN] are written out, and so is
    the fixed-point verb of package fmt (%.nf): the exact decimal expansion of the
    binary value, rounded half to even. *)
From Stdlib Require Import SpecFloat Ascii String.
From stdpp Require Import base strings list.
From S2P Require Import Prelude.

Local Open Scope Z_scope.

Abbreviation float64 := spec_float.

Definition prec : Z := 53.
Definition emax : Z := 1024.

(** ** Arithmetic *)
Definition fadd : float64 -> float64 -> float64 := SFadd prec emax.
Definition fsub : float64 -> float64 -> float64 := SFsub prec emax.
Definition fmul : float64 -> float64 -> float64 := SFmul prec emax.
Definition fdiv : float64 -> float64 -> float64 := SFdiv prec emax.

(** The conversion [float64(z)] of an integer. *)
Definition of_int (z : Z) : float64 := binary_normalize prec emax z 0 false.

(** The value of a constant written [num/den] in decimal: the nearest float64, since
    both integers are exact and the quotient is correctly rounded. *)
Definition constant (num den : Z) : float64 := fdiv (of_int num) (of_int den).

(** [x < y] and [x == y]. *)
Definition flt (x y : float64) : bool := SFltb x y.
Definition feq (x y : float64) : bool := SFeqb x y.

Definition IsNaN (x : float64) : bool := negb (feq x x).

(** [math.IsInf(f, 0)]. *)
Definition IsInf (x : float64) : bool :=
  match x with S754_infinity _ => true | _ => false end.

Definition signbit (x : float64) : bool :=
  match x with
  | S754_zero s | S754_infinity s | S754_finite s _ _ => s
  | S754_nan => false
  end.

(** The built-in [max] on two operands: NaN wins, and +0 is larger than -0. *)
Definition fmax (x y : float64) : float64 :=
  if IsNaN x then x
  else if IsNaN y then y
  else if feq x y then (if signbit x then y else x)
  else if flt x y then y else x.

(** [math.Min]. *)
Definition math_Min (x y : float64) : float64 :=
  match x, y with
  | S754_infinity true, _ | _, S754_infinity true => S754_infinity true
  | S754_nan, _ | _, S754_nan => S754_nan
  | S754_zero sx, S754_zero _ => if sx then x else y
  | _, _ => if flt x y then x else y
  end.

(** ** Decimal digits *)
Definition digit (z : Z) : Ascii.ascii := Ascii.ascii_of_nat (Z.to_nat (48 + z)).

(** The last [k] decimal digits of [n], before [acc]. *)
Fixpoint fixed_digits (k : nat) (n : Z) (acc : string) : string :=
  match k with
  | O => acc
  | S k' => fixed_digits k' (n / 10) (String (digit (n mod 10)) acc)
  end.

(** The number of decimal digits of [n]: one more than the number of times [n] can be
    divided by ten, which its bit length bounds. *)
Fixpoint digit_count (fuel : nat) (n : Z) : nat :=
  match fuel with
  | O => 1
  | S fuel' => if n <? 10 then 1 else S (digit_count fuel' (n / 10))
  end.

Definition count_of (n : Z) : nat := digit_count (Z.to_nat (Z.log2 n)) n.

Definition decimal (n : Z) : string := fixed_digits (count_of n) n "".

(** ** The verb %.pf *)

(** [num / den] rounded to the nearest integer, ties to even. *)
Definition half_even (num den : Z) : Z :=
  let q := num / den in
  match 2 * (num mod den) ?= den with
  | Lt => q
  | Gt => q + 1
  | Eq => if Z.even q then q else q + 1
  end.

(** [m * 2^e * 10^p] as a fraction. *)
Definition scaled_num (m : positive) (e : Z) (p : nat) : Z :=
  Z.pos m * 10 ^ Z.of_nat p * (if 0 <=? e then 2 ^ e else 1).
Definition scaled_den (e : Z) : Z := if 0 <=? e then 1 else 2 ^ (- e).

(** The magnitude in units of [10^-p]. *)
Definition scaled (x : float64) (p : nat) : Z :=
  match x with
  | S754_finite _ m e => half_even (scaled_num m e p) (scaled_den e)
  | _ => 0
  end.

(** The integer part, and the [p] digits of the fraction after a point. *)
Definition fixed_point (n : Z) (p : nat) : string :=
  (decimal (n / 10 ^ Z.of_nat p) +:+
   match p with O => "" | S _ => "." +:+ (fixed_digits p n "") end)%string.

Definition FormatFixed (p : nat) (x : float64) : string :=
  match x with
  | S754_nan => "NaN"
  | S754_infinity s => if s then "-Inf" else "+Inf"
  | S754_zero s | S754_finite s _ _ =>
      ((if s then "-" else "") +:+ fixed_point (scaled x p) p)%string
  end.

(** ** Reading a fixed-point text back

    The digits as one integer and the number of those after the point. *)
Definition digit_of (c : Ascii.ascii) : option Z :=
  let z := Z.of_nat (Ascii.nat_of_ascii c) - 48 in
  if (0 <=? z) && (z <? 10) then Some z else None.

Fixpoint read_digits (s : string) (n : Z) (places : nat) (point : bool) : option (Z * nat) :=
  match s with
  | EmptyString => Some (n, places)
  | String c s' =>
      match digit_of c with
      | Some d => read_digits s' (10 * n + d) (if point then S places else places) point
      | None => if negb point && Ascii.eqb c "."%char then read_digits s' n places true else None
      end
  end.

Definition read_fixed (s : string) : option (bool * (Z * nat)) :=
  match s with
  | String c s' =>
      if Ascii.eqb c "-"%char then option_map (pair true) (read_digits s' 0 0 false)
      else option_map (pair false) (read_digits s 0 0 false)
  | EmptyString => None
  end.

(** ** Lemmas: digits *)
Lemma digit_of_digit d : 0 <= d < 10 -> digit_of (digit d) = Some d.
Proof.
  intros Hd. assert (d ∈ seqZ 0 10) as Hin by (apply elem_of_seqZ; lia).
  clear Hd. revert d Hin. apply Forall_forall. vm_compute. repeat constructor.
Qed.

(** A byte of a formatted number: a digit, the point, a sign, or a letter of NaN or
    Inf. *)
Definition numeric (c : Ascii.ascii) : bool :=
  existsb (Ascii.eqb c) (String.list_ascii_of_string "0123456789.+-NaInf").

Lemma numeric_digit n : numeric (digit (n mod 10)) = true.
Proof.
  assert (n mod 10 ∈ seqZ 0 10) as Hin.
  { apply elem_of_seqZ. pose proof (Z.mod_pos_bound n 10). lia. }
  revert Hin. generalize (n mod 10). apply Forall_forall. vm_compute. repeat constructor.
Qed.

Lemma read_fixed_digits k n acc v places point :
  0 <= n ->
  read_digits (fixed_digits k n acc) v places point =
  read_digits acc (v * 10 ^ Z.of_nat k + n mod 10 ^ Z.of_nat k)
    (if point then k + places else places)%nat point.
Proof.
  revert n acc. induction k as [|k IH]; intros n acc Hn; cbn [fixed_digits].
  - cbn [Z.of_nat]. rewrite Z.pow_0_r, Z.mod_1_r, Z.mul_1_r, Z.add_0_r. by destruct point.
  - pose proof (Z.mod_pos_bound n 10 ltac:(lia)) as Hd.
    rewrite IH by (apply Z.div_pos; lia). cbn [read_digits]. rewrite digit_of_digit by done.
    f_equal; [|by destruct point].
    rewrite Nat2Z.inj_succ, Z.pow_succ_r by lia.
    rewrite (Z.rem_mul_r n 10 (10 ^ Z.of_nat k)) by lia. ring.
Qed.

Lemma digit_count_enough fuel n :
  0 <= n < 2 ^ (Z.of_nat fuel + 1) -> n < 10 ^ Z.of_nat (digit_count fuel n).
Proof.
  revert n. induction fuel as [|fuel IH]; intros n Hn; cbn [digit_count].
  - cbn in *. lia.
  - destruct (Z.ltb_spec n 10) as [Hlt|Hge]; [by rewrite Z.pow_1_r|].
    rewrite Nat2Z.inj_succ, Z.pow_succ_r by lia.
    assert (n / 10 < 10 ^ Z.of_nat (digit_count fuel (n / 10))) as Hq.
    { apply IH. split; [apply Z.div_pos; lia|].
      apply Z.div_lt_upper_bound; [lia|].
      replace (Z.of_nat (S fuel) + 1) with (Z.succ (Z.of_nat fuel + 1)) in Hn by lia.
      rewrite Z.pow_succ_r in Hn by lia. lia. }
    pose proof (Z.div_mod n 10 ltac:(lia)). pose proof (Z.mod_pos_bound n 10). lia.
Qed.

Lemma count_of_enough n : 0 <= n -> n < 10 ^ Z.of_nat (count_of n).
Proof.
  intros Hn. apply digit_count_enough. split; [done|].
  rewrite Z2Nat.id by apply Z.log2_nonneg. rewrite Z.add_1_r.
  destruct (Z.eq_dec n 0) as [->|]; [done|]. apply Z.log2_spec. lia.
Qed.

Lemma read_decimal n acc places :
  0 <= n -> read_digits (fixed_digits (count_of n) n acc) 0 places false = read_digits acc n places false.
Proof.
  intros Hn. rewrite read_fixed_digits by done. f_equal.
  rewrite Z.mod_small; [lia|]. split; [done | by apply count_of_enough].
Qed.

Lemma fixed_digits_app k n acc : fixed_digits k n acc = (fixed_digits k n "" +:+ acc)%string.
Proof.
  revert n acc. induction k as [|k IH]; intros n acc; cbn [fixed_digits]; [done|].
  rewrite IH. rewrite (IH _ (String _ "")). by rewrite append_assoc.
Qed.

Lemma numeric_fixed_digits k n acc :
  string_forallb numeric acc = true -> string_forallb numeric (fixed_digits k n acc) = true.
Proof.
  revert n acc. induction k as [|k IH]; intros n acc Hacc; cbn [fixed_digits]; [done|].
  apply IH. cbn [string_forallb]. by rewrite numeric_digit.
Qed.

Lemma read_fixed_digit c s :
  numeric c = true -> c <> "-"%char -> read_fixed (String c s) = option_map (pair false) (read_digits (String c s) 0 0 false).
Proof. intros _ H. cbn. by rewrite (proj2 (Ascii.eqb_neq _ _) H). Qed.

(** ** Lemmas: formatting *)
Lemma half_even_spec num den :
  0 < den ->
  2 * Z.abs (half_even num den * den - num) <= den /\ (2 * Z.abs (half_even num den * den - num) = den -> Z.even (half_even num den) = true).
Proof.
  intros Hden. unfold half_even.
  pose proof (Z.div_mod num den ltac:(lia)) as Hdm. pose proof (Z.mod_pos_bound num den Hden).
  set (q := num / den) in *. set (r := num mod den) in *.
  destruct (Z.compare_spec (2 * r) den) as [Heq|Hlt|Hgt].
  - destruct (Z.even q) eqn:Hq.
    + split; [nia | done].
    + split; [nia|]. intros _. rewrite Z.add_1_r, Z.even_succ. by rewrite <- Z.negb_even, Hq.
  - split; nia.
  - split; nia.
Qed.

Lemma half_even_nonneg num den : 0 < den -> 0 <= num -> 0 <= half_even num den.
Proof. intros Hd Hn. destruct (half_even_spec num den Hd) as [H _]. nia. Qed.

Lemma scaled_den_pos e : 0 < scaled_den e.
Proof.
  unfold scaled_den. destruct (Z.leb_spec 0 e); [lia|]. apply Z.pow_pos_nonneg; lia.
Qed.

Lemma scaled_num_nonneg m e p : 0 <= scaled_num m e p.
Proof.
  unfold scaled_num. destruct (Z.leb_spec 0 e); [|lia].
  apply Z.mul_nonneg_nonneg; [lia|]. apply Z.pow_nonneg. lia.
Qed.

Lemma scaled_nonneg x p : 0 <= scaled x p.
Proof.
  destruct x; cbn; try lia. apply half_even_nonneg; [apply scaled_den_pos | apply scaled_num_nonneg].
Qed.

Lemma fixed_digits_nonempty k n acc : acc <> ""%string -> fixed_digits k n acc <> ""%string.
Proof. revert n acc. induction k as [|k IH]; intros n acc H; cbn [fixed_digits]; [done|]. by apply IH. Qed.

Lemma fixed_point_nonempty n p : fixed_point n p <> ""%string.
Proof.
  unfold fixed_point, decimal, count_of. set (q := n / _).
  destruct (digit_count (Z.to_nat (Z.log2 q)) q) as [|k] eqn:Hk.
  - destruct (Z.to_nat (Z.log2 q)); cbn in Hk; [done|]. by destruct (q <? 10).
  - cbn [fixed_digits].
    pose proof (fixed_digits_nonempty k (q / 10) (String (digit (q mod 10)) "") ltac:(done)) as H.
    by destruct (fixed_digits k _ _).
Qed.

Lemma read_fixed_point n p : 0 <= n -> read_digits (fixed_point n p) 0 0 false = Some (n, p).
Proof.
  intros Hn. unfold fixed_point, decimal.
  assert (0 <= n / 10 ^ Z.of_nat p) by (apply Z.div_pos; [done | apply Z.pow_pos_nonneg; lia]).
  rewrite <- fixed_digits_app, read_decimal by done. destruct p as [|p].
  - cbn. by rewrite Z.div_1_r.
  - rewrite append_cons. cbn [read_digits]. 
    change (digit_of ".") with (@None Z). cbn [negb andb Ascii.eqb].
    rewrite append_nil_l, read_fixed_digits by done. cbn [read_digits].
    rewrite Nat.add_0_r. f_equal. f_equal.
    pose proof (Z.div_mod n (10 ^ Z.of_nat (S p))) as Hdm. lia.
Qed.

(** Formatting a finite value and reading the text back gives the sign and the integer
    [n] of units [10^-p] nearest to the exact binary value, ties to even. *)
Theorem FormatFixed_reads_back p s m e :
  let n := scaled (S754_finite s m e) p in
  read_fixed (FormatFixed p (S754_finite s m e)) = Some (s, (n, p)) /\
  2 * Z.abs (n * scaled_den e - scaled_num m e p) <= scaled_den e /\
  (2 * Z.abs (n * scaled_den e - scaled_num m e p) = scaled_den e -> Z.even n = true).
Proof.
  intros n. split; [|apply half_even_spec, scaled_den_pos].
  assert (0 <= n) as Hn by apply scaled_nonneg.
  unfold FormatFixed. fold n. destruct s.
  - pose proof (read_fixed_point n p Hn) as Hr. rewrite append_cons, append_nil_l.
    unfold read_fixed. cbn [Ascii.eqb Bool.eqb]. by rewrite Hr.
  - rewrite append_nil_l. pose proof (read_fixed_point n p Hn) as Hr.
    unfold read_fixed. destruct (fixed_point n p) as [|c t] eqn:Ht.
    + by destruct (fixed_point_nonempty n p).
    + destruct (Ascii.eqb_spec c "-"%char) as [->|]; [|by rewrite Hr].
      cbn in Hr. done.
Qed.

(** A formatted number holds only digits, signs, points and the letters of NaN and
    Inf. *)
Lemma FormatFixed_numeric p x : string_forallb numeric (FormatFixed p x) = true.
Proof.
  assert (forall n, string_forallb numeric (fixed_point n p) = true) as Hp.
  { intros n. unfold fixed_point, decimal. rewrite string_forallb_app, numeric_fixed_digits by done.
    destruct p as [|p]; [done|]. rewrite append_cons, append_nil_l. cbn [string_forallb andb].
    change (numeric ".") with true. by apply numeric_fixed_digits. }
  unfold FormatFixed. destruct x as [s|s| |s m e]; try (by destruct s); [| done |];
    rewrite string_forallb_app, Hp; by destruct s.
Qed.
