(* ===== verification/FloatRounding.v ===== *)
(** * The rounding of float64 operations

    What the operations of GoFloat.v do to order: the result of a multiplication, a
    division or a subtraction lies between any two float64 numbers between which the exact
    result lies.  The values are rationals. *)
From Stdlib Require Import SpecFloat Ascii String QArith Qround Qpower Lqa.
From stdpp Require Import base strings list.
From S2P Require Import Prelude.
From S2P Require Import GoFloat.

Local Open Scope Z_scope.

(** ** Values *)
Definition val (m e : Z) : Q := inject_Z m * Qpower 2 e.

Lemma power2_pos e : (0 < Qpower 2 e)%Q.
Proof. by apply Qpower_0_lt. Qed.

Lemma val_le m n e : (val m e <= val n e)%Q <-> m <= n.
Proof.
  unfold val. rewrite Zle_Qle. pose proof (power2_pos e). split; intros H'.
  - by eapply Qmult_le_r.
  - by apply Qmult_le_r.
Qed.

Lemma val_lt m n e : (val m e < val n e)%Q <-> m < n.
Proof.
  unfold val. rewrite Zlt_Qlt. pose proof (power2_pos e). split; intros H'.
  - by eapply Qmult_lt_r.
  - by apply Qmult_lt_r.
Qed.

Lemma val_shift m e k : 0 <= k -> (val m (e + k) == val (m * 2 ^ k) e)%Q.
Proof.
  intros Hk. unfold val. rewrite Qpower_plus by done. rewrite inject_Z_mult, Zpower_Qpower by done.
  change (inject_Z 2) with 2%Q. ring.
Qed.

Lemma val_down m e e' : e <= e' -> (val m e' == val (m * 2 ^ (e' - e)) e)%Q.
Proof. intros H. rewrite <- val_shift by lia. by replace (e + (e' - e)) with e' by lia. Qed.

Lemma val_nonneg m e : 0 <= m -> (0 <= val m e)%Q.
Proof. intros Hm. apply Qmult_le_0_compat; [rewrite Zle_Qle in Hm; exact Hm | apply Qlt_le_weak, power2_pos]. Qed.

(** ** Numbers of 53 bits

    A number with the smallest exponent it can have: 53 bits, or fewer at the smallest
    exponent of all. *)
Definition emin : Z := -1074.

Definition normal (m e : Z) : Prop := 0 <= m < 2 ^ 53 /\ emin <= e /\ (2 ^ 52 <= m \/ e = emin).

(** There is no number of 53 bits between two successive ones. *)
Lemma gap m e mf ef :
  0 <= m -> (2 ^ 52 <= m \/ e = emin) -> mf < 2 ^ 53 -> emin <= ef ->
  (val mf ef < val (m + 1) e)%Q -> (val mf ef <= val m e)%Q.
Proof.
  intros Hm Hn Hmf Hef Hlt. destruct (Z.le_gt_cases e ef) as [He|He].
  - rewrite (val_down mf e ef) in Hlt |- * by done. rewrite val_lt in Hlt. apply val_le. lia.
  - destruct Hn as [Hn| ->]; [|lia]. rewrite (val_down m ef e) by lia. apply val_le.
    replace (e - ef) with (Z.succ (e - ef - 1)) by lia. rewrite Z.pow_succ_r by lia.
    assert (0 < 2 ^ (e - ef - 1)) by (apply Z.pow_pos_nonneg; lia). nia.
Qed.

(** ** Digits *)
Lemma digits2_pos_bounds p : 2 ^ (Z.pos (digits2_pos p) - 1) <= Z.pos p < 2 ^ Z.pos (digits2_pos p).
Proof.
  assert (forall n, 2 ^ Z.pos (Pos.succ n) = 2 * 2 ^ Z.pos n) as Hs.
  { intros n. rewrite Pos2Z.inj_succ, Z.pow_succ_r; lia. }
  induction p as [p IH|p IH|]; cbn [digits2_pos]; [| |done].
  all: rewrite Hs; replace (Z.pos (Pos.succ (digits2_pos p)) - 1) with (Z.succ (Z.pos (digits2_pos p) - 1)) by lia.
  all: rewrite Z.pow_succ_r by lia; lia.
Qed.

Lemma Zdigits2_bounds m : 0 < m -> 2 ^ (Zdigits2 m - 1) <= m < 2 ^ Zdigits2 m.
Proof. destruct m as [|p|p]; try lia. intros _. apply digits2_pos_bounds. Qed.

Lemma Zdigits2_nonneg m : 0 <= Zdigits2 m.
Proof. destruct m; cbn; lia. Qed.

(** The digits are at least those of any power of two below. *)
Lemma Zdigits2_ge m k : 0 <= k -> 2 ^ k <= m -> k + 1 <= Zdigits2 m.
Proof.
  intros Hk Hm. assert (0 < 2 ^ k) by (apply Z.pow_pos_nonneg; lia).
  destruct (Zdigits2_bounds m) as [_ Hlt]; [lia|].
  enough (k < Zdigits2 m) by lia. apply (Z.pow_lt_mono_r_iff 2); [lia | apply Zdigits2_nonneg | lia].
Qed.

(** ** Truncation

    [q] is the number whose first digits are [m], at the exponent [e]. *)
Definition first_digits (q : Q) (m e : Z) (l : location) : Prop :=
  match l with
  | loc_Exact => (q == val m e)%Q
  | loc_Inexact _ => (val m e < q /\ q < val (m + 1) e)%Q
  end.

Lemma first_digits_below q m e l : first_digits q m e l -> (val m e <= q /\ q < val (m + 1) e)%Q.
Proof.
  destruct l as [|c]; cbn.
  - intros Hq. rewrite Hq. split; [lra|]. apply val_lt. lia.
  - intros [H1 H2]. lra.
Qed.

Lemma shr_1_spec q mrs e :
  0 <= shr_m mrs -> first_digits q (shr_m mrs) e (loc_of_shr_record mrs) ->
  shr_m (shr_1 mrs) = shr_m mrs / 2 /\
  first_digits q (shr_m (shr_1 mrs)) (e + 1) (loc_of_shr_record (shr_1 mrs)).
Proof.
  destruct mrs as [m r s]. cbn [shr_m]. intros Hm Hq.
  assert (forall k, (val k (e + 1) == val (2 * k) e)%Q) as Hval.
  { intros k. rewrite val_shift by lia. by rewrite Z.mul_comm. }
  destruct m as [|[p|p|]|]; try lia; cbn [shr_1 shr_m]; (split; [lia || (by rewrite <- Z.div2_div)|]).
  - destruct r, s; cbn in *; rewrite ?Hval; try exact Hq;
      (split; [apply Hq | eapply Qlt_trans; [apply Hq|]; apply val_lt; lia]).
  - apply first_digits_below in Hq as [H1 H2].
    assert (val (2 * Z.pos p) e < val (Z.pos p~1) e)%Q by (apply val_lt; lia).
    assert (val (Z.pos p~1 + 1) e == val (2 * (Z.pos p + 1)) e)%Q as Heq by (by replace (Z.pos p~1 + 1) with (2 * (Z.pos p + 1)) by lia).
    destruct r, s; cbn; rewrite !Hval; split; lra.
  - assert (val (Z.pos p~0 + 1) e < val (2 * (Z.pos p + 1)) e)%Q by (apply val_lt; lia).
    change (Z.pos p~0) with (2 * Z.pos p) in *.
    destruct r, s; cbn in *; rewrite ?Hval; try exact Hq; split; lra.
  - apply first_digits_below in Hq as [H1 H2].
    assert (val (2 * 0) e < val 1 e)%Q by (apply val_lt; lia).
    assert (val (1 + 1) e == val (2 * (0 + 1)) e)%Q as Heq by done.
    destruct r, s; cbn; rewrite !Hval; split; lra.
Qed.

(** What one step keeps, all steps keep. *)
Lemma iter_pos_ind {A} (f : A -> A) (I : Z -> A -> Prop) p i x :
  (forall i x, I i x -> I (i + 1) (f x)) -> I i x -> I (i + Z.pos p) (SpecFloat.iter_pos f p x).
Proof.
  intros Hf. revert i x. induction p as [p IH|p IH|]; intros i x Hx; cbn [SpecFloat.iter_pos].
  - replace (i + Z.pos p~1) with (i + 1 + Z.pos p + Z.pos p) by lia. by apply IH, IH, Hf.
  - replace (i + Z.pos p~0) with (i + Z.pos p + Z.pos p) by lia. by apply IH, IH.
  - by apply Hf.
Qed.

Lemma shr_spec q m e l n mrs e' :
  0 <= m -> 0 <= n -> first_digits q m e l -> shr (shr_record_of_loc m l) e n = (mrs, e') ->
  e' = e + n /\ shr_m mrs = m / 2 ^ n /\ first_digits q (shr_m mrs) e' (loc_of_shr_record mrs).
Proof.
  intros Hm Hn Hq. assert (shr_m (shr_record_of_loc m l) = m /\ loc_of_shr_record (shr_record_of_loc m l) = l) as [Hrm Hrl]
    by (by destruct l as [|[]]).
  destruct n as [|p|]; [| |lia]; cbn [shr]; intros [= <- <-].
  - rewrite Hrm, Hrl, Z.pow_0_r, Z.div_1_r, Z.add_0_r. by split_and!.
  - split; [done|].
    pose proof (iter_pos_ind shr_1 (fun i r => 0 <= i /\ shr_m r = m / 2 ^ i /\ first_digits q (shr_m r) (e + i) (loc_of_shr_record r))
      p 0 (shr_record_of_loc m l)) as H.
    rewrite Z.add_0_l in H. apply H.
    + intros i r (Hi & Hr & Hf). split; [lia|].
      apply shr_1_spec in Hf as [Hr' Hf']; [|rewrite Hr; apply Z.div_pos; [done | apply Z.pow_pos_nonneg; lia]].
      rewrite Z.add_assoc. split; [|done].
      rewrite Hr', Hr, Z.div_div, Z.pow_add_r, Z.pow_1_r by (try apply Z.pow_nonzero; lia). done.
    + split; [done|]. rewrite Hrm, Hrl, Z.pow_0_r, Z.div_1_r, Z.add_0_r. by split_and!.
Qed.

Lemma fexp_eq e : fexp prec emax e = Z.max (e - 53) emin.
Proof. done. Qed.

(** Truncation to 53 bits. *)
Lemma shr_fexp_spec q m e l mrs e' :
  0 <= m -> e <= fexp prec emax (Zdigits2 m + e) -> first_digits q m e l ->
  shr_fexp prec emax m e l = (mrs, e') ->
  normal (shr_m mrs) e' /\ first_digits q (shr_m mrs) e' (loc_of_shr_record mrs).
Proof.
  intros Hm He Hq Hs. unfold shr_fexp in Hs. set (n := fexp prec emax (Zdigits2 m + e) - e) in Hs.
  assert (0 <= n) as Hn by (unfold n; lia).
  apply (shr_spec q) in Hs as (-> & Hr & Hf); [|done..]. split; [|done]. rewrite Hr. clear Hr Hf.
  assert (n = Z.max (Zdigits2 m + e - 53) emin - e) as Hne by done. clearbody n.
  rewrite fexp_eq in *. pose proof (Zdigits2_nonneg m).
  assert (0 < 2 ^ n) by (apply Z.pow_pos_nonneg; lia).
  split; [|split; [lia|]].
  - split; [apply Z.div_pos; lia|]. apply Z.div_lt_upper_bound; [lia|].
    destruct (Z.eq_dec m 0) as [->|]; [lia|]. rewrite Z.mul_comm, <- Z.pow_add_r by lia.
    eapply Z.lt_le_trans; [apply Zdigits2_bounds; lia|]. apply Z.pow_le_mono_r; lia.
  - destruct (Z.le_gt_cases (Zdigits2 m + e - 53) emin) as [Hle|Hgt]; [right; lia|left].
    assert (n = Zdigits2 m - 53) as -> by lia.
    destruct (Z.eq_dec m 0) as [->|]; [cbn in *; lia|].
    apply Z.div_le_lower_bound; [lia|]. rewrite <- Z.pow_add_r by lia.
    replace (Zdigits2 m - 53 + 52) with (Zdigits2 m - 1) by lia. apply Zdigits2_bounds. lia.
Qed.

(** ** Rounding

    The finite numbers, with their values. *)
Definition denotes (x : float64) (v : Q) : Prop :=
  match x with
  | S754_zero false => (v == 0)%Q
  | S754_finite false m e => normal (Z.pos m) e /\ e <= 971 /\ (v == val (Z.pos m) e)%Q
  | _ => False
  end.

(** A number of 53 bits that is not too large. *)
Definition representable (f : Q) : Prop :=
  exists m e, 0 <= m < 2 ^ 53 /\ emin <= e <= 971 /\ (f == val m e)%Q.

(** [x] is [q] rounded: no representable number lies between. *)
Definition rounded (q : Q) (x : float64) : Prop :=
  x = S754_infinity false /\ (forall f, representable f -> f < q)%Q \/
  exists v, denotes x v /\ (forall f, representable f -> (q <= f)%Q -> (v <= f)%Q) /\
    (forall f, representable f -> (f <= q)%Q -> (f <= v)%Q).

Lemma truncate_lower q m e l f :
  normal m e -> first_digits q m e l -> representable f -> (f <= q)%Q -> (f <= val m e)%Q.
Proof.
  intros (Hm & He & Hn) Hq (mf & ef & Hmf & Hef & Hf) Hle.
  apply first_digits_below in Hq as [_ Hlt]. rewrite Hf in Hle |- *.
  eapply gap; [lia | done | lia | lia | by eapply Qle_lt_trans].
Qed.

Lemma truncate_upper q m e c f :
  normal m e -> first_digits q m e (loc_Inexact c) -> representable f -> (q <= f)%Q -> (val (m + 1) e <= f)%Q.
Proof.
  intros (Hm & He & Hn) [Hq _] (mf & ef & Hmf & Hef & Hf) Hle. rewrite Hf in Hle |- *.
  apply Qnot_lt_le. intros Hlt. apply gap in Hlt; [|lia|done|lia|lia].
  apply (Qlt_not_le _ _ Hq). by eapply Qle_trans.
Qed.

Lemma round_nearest_even_cases m l :
  round_nearest_even m l = m \/ (exists c, l = loc_Inexact c) /\ round_nearest_even m l = m + 1.
Proof. destruct l as [|[]]; cbn; try destruct (Z.even m); eauto. Qed.

(** The rounding of all operations. *)
Lemma binary_round_aux_rounded q m e l :
  0 <= m -> e <= fexp prec emax (Zdigits2 m + e) -> first_digits q m e l ->
  rounded q (binary_round_aux prec emax false m e l).
Proof.
  intros Hm He Hq. unfold binary_round_aux.
  destruct (shr_fexp prec emax m e l) as [mrs1 e1] eqn:H1.
  apply (shr_fexp_spec q) in H1 as [Hn1 Hq1]; [|done..].
  set (m1 := shr_m mrs1) in *. set (l1 := loc_of_shr_record mrs1) in *. set (m2 := round_nearest_even m1 l1).
  assert (0 <= m2 /\ (forall f, representable f -> f <= q -> f <= val m2 e1)%Q /\
    (forall f, representable f -> q <= f -> val m2 e1 <= f)%Q /\ e1 <= fexp prec emax (Zdigits2 m2 + e1)) as (Hm2 & Hlow & Hup & He1).
  { unfold m2. pose proof (proj1 (first_digits_below _ _ _ _ Hq1)) as Hge. destruct Hn1 as (Hm1 & Hemin & Hn).
    assert (forall m', m1 <= m' -> e1 <= fexp prec emax (Zdigits2 m' + e1)) as Hfe.
    { intros m' Hm'. rewrite fexp_eq. destruct Hn as [Hn|Hn]; [|lia].
      pose proof (Zdigits2_ge m' 52). lia. }
    destruct (round_nearest_even_cases m1 l1) as [->|[[c Hc] ->]]; (split; [lia|]).
    - split_and!; [| |by apply Hfe].
      + intros f Hf Hle. by eapply truncate_lower.
      + intros f Hf Hle. by eapply Qle_trans.
    - split_and!; [| |apply Hfe; lia].
      + intros f Hf Hle. eapply Qle_trans; [by eapply truncate_lower|]. apply val_le. lia.
      + intros f Hf Hle. rewrite Hc in Hq1. by eapply truncate_upper. }
  destruct (shr_fexp prec emax m2 e1 loc_Exact) as [mrs3 e3] eqn:H3.
  apply (shr_fexp_spec (val m2 e1)) in H3 as [Hn3 Hq3]; [|done..].
  assert (forall f, representable f -> f <= q -> f <= val (shr_m mrs3) e3)%Q as Hlow3.
  { intros f Hf Hle. eapply truncate_lower; [done..|]. by apply Hlow. }
  assert (forall f, representable f -> q <= f -> val (shr_m mrs3) e3 <= f)%Q as Hup3.
  { intros f Hf Hle. eapply Qle_trans; [|by apply Hup]. by apply first_digits_below in Hq3 as []. }
  destruct (shr_m mrs3) as [|p|p] eqn:Hp; [| |by destruct Hn3; lia].
  - right. exists (val 0 e3). split; [|done]. cbn. unfold val. change (inject_Z 0) with 0%Q. ring.
  - destruct (Z.leb_spec e3 (emax - prec)) as [Hle|Hgt].
    + right. exists (val (Z.pos p) e3). split; [|done]. cbn. by split_and!.
    + left. split; [done|]. intros f Hf. apply Qnot_le_lt. intros Hle. apply (Hup3 _ Hf) in Hle.
      destruct Hf as (mf & ef & Hmf & Hef & Hf). rewrite Hf in Hle.
      destruct Hn3 as (_ & _ & [Hn|Hn]); [|unfold emax, prec, emin in *; lia].
      rewrite (val_down (Z.pos p) ef e3) in Hle by (unfold emax, prec in *; lia). apply val_le in Hle.
      replace (e3 - ef) with (Z.succ (e3 - ef - 1)) in Hle by lia.
      rewrite Z.pow_succ_r in Hle by (unfold emax, prec in *; lia).
      assert (0 < 2 ^ (e3 - ef - 1)) by (apply Z.pow_pos_nonneg; unfold emax, prec in *; lia). nia.
Qed.

Lemma denotes_representable x v : denotes x v -> representable v.
Proof.
  destruct x as [s|s| |[] m e]; try done.
  - destruct s; [done|]. intros Hv. exists 0, 0. unfold emin. split_and!; [lia..|]. exact Hv.
  - intros ((Hm & He & _) & Hle & Hv). exists (Z.pos m), e. split_and!; (done || lia).
Qed.

Lemma denotes_nonneg x v : denotes x v -> (0 <= v)%Q.
Proof.
  destruct x as [s|s| |[] m e]; try done.
  - destruct s; [done|]. cbn [denotes]. intros ->. lra.
  - intros (_ & _ & ->). by apply val_nonneg.
Qed.

Lemma denotes_rounded q x v : denotes x v -> (v == q)%Q -> rounded q x.
Proof.
  intros Hx Hv. right. exists v. split; [done|]. split; intros f _ Hf; lra.
Qed.

#[export] Instance rounded_proper : Proper (Qeq ==> eq ==> iff) rounded.
Proof.
  intros q q' Hq x _ <-. unfold rounded. by setoid_rewrite Hq.
Qed.

#[export] Instance representable_proper : Proper (Qeq ==> iff) representable.
Proof. intros q q' Hq. unfold representable. by setoid_rewrite Hq. Qed.

Lemma integer_representable z : 0 <= z < 2 ^ 53 -> representable (inject_Z z).
Proof.
  intros Hz. exists z, 0. unfold emin. split_and!; try lia. unfold val. change (Qpower 2 0) with 1%Q. ring.
Qed.

(** A rounded result stays below a representable bound. *)
Lemma rounded_le q x f : rounded q x -> representable f -> (q <= f)%Q -> exists v, denotes x v /\ (v <= f)%Q.
Proof.
  intros [[-> Hf]|(v & Hx & Hup & Hlow)] Hr Hq; [specialize (Hf f Hr); lra|]. eauto.
Qed.

Lemma denotes_unique x v w : denotes x v -> denotes x w -> (v == w)%Q.
Proof.
  destruct x as [[]|[]| |[] m e]; cbn [denotes]; try done.
  - intros -> ->. done.
  - by intros (_ & _ & ->) (_ & _ & ->).
Qed.

Lemma rounded_ge q x f v : rounded q x -> denotes x v -> representable f -> (f <= q)%Q -> (f <= v)%Q.
Proof.
  intros [[-> _]|(v' & Hx & _ & Hlow)] Hv Hr Hq; [done|].
  rewrite (denotes_unique _ _ _ Hv Hx). by apply Hlow.
Qed.

(** ** The operations *)
Lemma val_mult m e n f : (val m e * val n f == val (m * n) (e + f))%Q.
Proof. unfold val. rewrite Qpower_plus by done. rewrite inject_Z_mult. ring. Qed.

Lemma val_pos m e : 0 < m -> (0 < val m e)%Q.
Proof.
  intros Hm. eapply Qle_lt_trans; [|by apply (val_lt 0 m e)]. by apply val_nonneg.
Qed.

Lemma normal_exponent m e : 0 < m -> normal m e -> e <= Z.max (Zdigits2 m + e - 53) emin.
Proof. intros Hm (_ & He & [Hn| ->]); [|lia]. pose proof (Zdigits2_ge m 52). lia. Qed.

Lemma fexp_mono a b : a <= b -> fexp prec emax a <= fexp prec emax b.
Proof. rewrite !fexp_eq. lia. Qed.

Lemma fmul_rounded x y vx vy : denotes x vx -> denotes y vy -> rounded (vx * vy) (fmul x y).
Proof.
  destruct x as [[]|[]| |[] m1 e1]; try done; destruct y as [[]|[]| |[] m2 e2]; try done; cbn [denotes].
  1-3: intros; apply (denotes_rounded _ _ 0); [done|]; try destruct H as (_ & _ & ->); try destruct H0 as (_ & _ & ->);
    rewrite ?H, ?H0; ring.
  intros (Hn1 & _ & ->) (Hn2 & _ & ->). rewrite val_mult.
  change (Z.pos m1 * Z.pos m2) with (Z.pos (m1 * m2)). apply binary_round_aux_rounded; [done| |done].
  rewrite fexp_eq.
  pose proof (Zdigits2_bounds (Z.pos m1) eq_refl) as [H1 _]. pose proof (Zdigits2_bounds (Z.pos m2) eq_refl) as [H2 _].
  pose proof (Zdigits2_ge (Z.pos (m1 * m2)) (Zdigits2 (Z.pos m1) - 1 + (Zdigits2 (Z.pos m2) - 1))) as Hd.
  assert (1 <= Zdigits2 (Z.pos m1) /\ 1 <= Zdigits2 (Z.pos m2)) as [] by (cbn; lia).
  rewrite Z.pow_add_r in Hd by lia. specialize (Hd ltac:(lia) ltac:(rewrite Pos2Z.inj_mul; apply Z.mul_le_mono_nonneg; try apply Z.pow_nonneg; lia)).
  apply normal_exponent in Hn1 as He1, Hn2 as He2; [|done..]. 
  destruct Hn1 as (_ & ? & _), Hn2 as (_ & ? & _). unfold emin in *. lia.
Qed.

Lemma new_location_spec q m e n r :
  0 < n -> 0 <= r < n -> (q * inject_Z n == val (m * n + r) e)%Q -> first_digits q m e (new_location n r).
Proof.
  intros Hn Hr Hq. assert (0 < inject_Z n)%Q as Hn' by (by rewrite Zlt_Qlt in Hn).
  assert (forall k, val (k * n) e == val k e * inject_Z n)%Q as Hk.
  { intros k. unfold val. rewrite inject_Z_mult. ring. }
  destruct (Z.eq_dec r 0) as [->|Hr0].
  - assert (new_location n 0 = loc_Exact) as -> by (unfold new_location; by destruct (IntDef.Z.even n)).
    rewrite Z.add_0_r, Hk in Hq. cbn [first_digits]. by apply Qmult_inj_r in Hq; [|lra].
  - assert (exists c, new_location n r = loc_Inexact c) as [c ->].
    { apply Z.eqb_neq in Hr0. unfold new_location, new_location_even, new_location_odd.
      change (IntDef.Z.eqb r 0 = false) in Hr0. destruct (IntDef.Z.even n); rewrite Hr0; eauto. }
    cbn [first_digits]. split; apply (Qmult_lt_r _ _ (inject_Z n)); try done; rewrite <- Hk, Hq; apply val_lt; lia.
Qed.

Lemma fdiv_rounded x y vx vy :
  denotes x vx -> denotes y vy -> (0 < vy)%Q -> rounded (vx / vy) (fdiv x y).
Proof.
  intros Hx Hy Hpos. destruct y as [[]|[]| |[] m2 e2]; try done; cbn [denotes] in Hy; [lra|].
  destruct Hy as (_ & _ & Hvy). rewrite Hvy in Hpos |- *.
  destruct x as [[]|[]| |[] m1 e1]; try done; cbn [denotes] in Hx.
  { apply (denotes_rounded _ _ 0); [done|]. rewrite Hx. unfold Qdiv. ring. }
  destruct Hx as (_ & _ & ->). unfold fdiv, SFdiv, SFdiv_core_binary.
  set (d1 := Zdigits2 (Z.pos m1)). set (d2 := Zdigits2 (Z.pos m2)).
  set (e' := Z.min (fexp prec emax (d1 + e1 - (d2 + e2))) (e1 - e2)). set (s := e1 - e2 - e').
  assert (0 <= s) as Hs by lia.
  assert (0 < d1 /\ 0 < d2) as [Hd1 Hd2] by (unfold d1, d2; cbn; lia).
  assert (match s with 0 => Z.pos m1 | Z.pos _ => Z.shiftl (Z.pos m1) s | Z.neg _ => 0 end = Z.pos m1 * 2 ^ s) as ->.
  { destruct s as [|p|p]; [by rewrite Z.mul_1_r | by apply Z.shiftl_mul_pow2 | lia]. }
  pose proof (Z_div_mod (Z.pos m1 * 2 ^ s) (Z.pos m2) eq_refl) as Hdm.
  destruct (Z.div_eucl _ _) as [q r]. destruct Hdm as [Hdm Hr]. cbn [xorb].
  assert (0 < 2 ^ s) by (apply Z.pow_pos_nonneg; lia). assert (0 <= q) as Hq by nia.
  apply binary_round_aux_rounded; [done| |].
  - etrans; [apply Z.le_min_l|]. apply fexp_mono. fold e'. fold d1 d2 in Hr.
    enough (d1 + s - d2 <= Zdigits2 q) by lia.
    destruct (Z.le_gt_cases (d1 + s - d2) 0) as [Hle|Hgt]; [pose proof (Zdigits2_nonneg q); lia|].
    replace (d1 + s - d2) with (d1 + s - d2 - 1 + 1) by lia. apply Zdigits2_ge; [lia|].
    pose proof (Zdigits2_bounds (Z.pos m1) eq_refl) as [H1 _]. pose proof (Zdigits2_bounds (Z.pos m2) eq_refl) as [_ H2].
    fold d1 in H1. fold d2 in H2.
    assert (q = Z.pos m1 * 2 ^ s / Z.pos m2) as -> by (apply (Z.div_unique _ _ q r); lia).
    apply Z.div_le_lower_bound; [done|].
    transitivity (2 ^ d2 * 2 ^ (d1 + s - d2 - 1)); [apply Z.mul_le_mono_nonneg_r; [apply Z.pow_nonneg|]; lia|].
    rewrite <- Z.pow_add_r by lia.
    replace (d2 + (d1 + s - d2 - 1)) with (d1 - 1 + s) by lia.
    rewrite Z.pow_add_r by lia. apply Z.mul_le_mono_nonneg_r; lia.
  - apply new_location_spec; [done|lia|]. rewrite <- (Z.mul_comm (Z.pos m2)), <- Hdm, <- val_shift by done.
    replace (e' + s) with (e1 - e2) by lia.
    assert (val (Z.pos m2) e2 == inject_Z (Z.pos m2) * Qpower 2 e2)%Q as Hm2 by done.
    assert (val (Z.pos m1) e1 == val (Z.pos m1) (e1 - e2) * Qpower 2 e2)%Q as Hm1.
    { unfold val. rewrite <- Qmult_assoc, <- Qpower_plus by done. by replace (e1 - e2 + e2) with e1 by lia. }
    rewrite Hm1, Hm2. field. split; [|done]. pose proof (power2_pos e2). lra.
Qed.

Lemma shl_align_spec m e e1 :
  let '(m', e') := shl_align m e e1 in
  e' = Z.min e e1 /\ (val (Z.pos m') e' == val (Z.pos m) e)%Q /\ Zdigits2 (Z.pos m') + e' = Zdigits2 (Z.pos m) + e.
Proof.
  unfold shl_align. destruct (e1 - e) as [|p|p] eqn:Hd; try (split_and!; [lia | done..]).
  assert (Z.pos (Pos.iter xO m p) = Z.pos m * 2 ^ Z.pos p /\
    Zdigits2 (Z.pos (Pos.iter xO m p)) = Zdigits2 (Z.pos m) + Z.pos p) as [Hm Hz].
  { clear Hd. induction p as [|p [IHm IHz]] using Pos.peano_ind; [cbn; lia|].
    rewrite Pos.iter_succ, Pos2Z.inj_succ, Z.pow_succ_r by lia. cbn [Zdigits2 digits2_pos] in *. lia. }
  split_and!; [lia| |lia]. rewrite Hm, <- val_shift by lia. by replace (e1 + Z.pos p) with e by lia.
Qed.

Lemma val_zero e : (val 0 e == 0)%Q.
Proof. unfold val. change (inject_Z 0) with 0%Q. ring. Qed.

Lemma val_minus m n e : (val m e - val n e == val (m - n) e)%Q.
Proof. unfold val. unfold Z.sub. rewrite inject_Z_plus, inject_Z_opp. ring. Qed.

Lemma fsub_rounded x y vx vy :
  denotes x vx -> denotes y vy -> (vy <= vx)%Q -> rounded (vx - vy) (fsub x y).
Proof.
  intros Hx Hy Hle. destruct y as [[]|[]| |[] m2 e2]; try done; cbn [denotes] in Hy.
  { apply (denotes_rounded _ _ vx); [|rewrite Hy; ring]. destruct x as [[]|[]| |[] m1 e1]; done. }
  destruct Hy as (_ & _ & Hvy). destruct x as [[]|[]| |[] m1 e1]; try done; cbn [denotes] in Hx.
  { pose proof (val_pos (Z.pos m2) e2 eq_refl). lra. }
  destruct Hx as (_ & _ & Hvx). rewrite Hvx, Hvy in *. unfold fsub, SFsub. cbn [cond_Zopp].
  set (ez := Z.min e1 e2).
  pose proof (shl_align_spec m1 e1 ez) as H1. pose proof (shl_align_spec m2 e2 ez) as H2.
  destruct (shl_align m1 e1 ez) as [n1 f1]. destruct (shl_align m2 e2 ez) as [n2 f2]. cbn [fst].
  destruct H1 as (-> & Hv1 & _). destruct H2 as (-> & Hv2 & _).
  replace (Z.min e1 ez) with ez in Hv1 by lia. replace (Z.min e2 ez) with ez in Hv2 by lia.
  rewrite <- Hv1, <- Hv2, val_minus. rewrite <- Hv1, <- Hv2, val_le in Hle.
  change (IntDef.Z.sub (Z.pos n1) (Z.pos n2)) with (Z.pos n1 - Z.pos n2).
  destruct (Z.pos n1 - Z.pos n2) as [|m|m] eqn:Hm; [| |lia]; cbn [binary_normalize].
  - apply (denotes_rounded _ _ 0); [done|]. by rewrite val_zero.
  - unfold binary_round. set (f := fexp prec emax (Z.pos (digits2_pos m) + ez)).
    pose proof (shl_align_spec m ez f) as H3.
    change (IntDef.Z.add (Z.pos (digits2_pos m)) ez) with (Z.pos (digits2_pos m) + ez). fold f.
    destruct (shl_align m ez f) as [n3 f3]. destruct H3 as (-> & Hv3 & Hd). rewrite <- Hv3.
    apply binary_round_aux_rounded; [done| |done]. rewrite Hd. change (Zdigits2 (Z.pos m)) with (Z.pos (digits2_pos m)). fold f. lia.
Qed.

(** ** Comparisons *)
Lemma exponent_order m1 e1 m2 e2 :
  normal m1 e1 -> normal m2 e2 -> e1 < e2 -> (val m1 e1 < val m2 e2)%Q.
Proof.
  intros (Hm1 & He1 & _) (Hm2 & He2 & [Hn|Hn]) He; [|lia]. rewrite (val_down m2 e1 e2) by lia. apply val_lt.
  replace (e2 - e1) with (Z.succ (e2 - e1 - 1)) by lia. rewrite Z.pow_succ_r by lia.
  assert (0 < 2 ^ (e2 - e1 - 1)) by (apply Z.pow_pos_nonneg; lia). nia.
Qed.

Lemma SFcompare_spec x y vx vy : denotes x vx -> denotes y vy -> SFcompare x y = Some (vx ?= vy)%Q.
Proof.
  intros Hx Hy. destruct x as [[]|[]| |[] m1 e1]; try done; destruct y as [[]|[]| |[] m2 e2]; try done;
    cbn [denotes SFcompare] in *.
  - f_equal. symmetry. apply Qeq_alt. lra.
  - f_equal. symmetry. apply Qlt_alt. destruct Hy as (_ & _ & ->). rewrite Hx. by apply val_pos.
  - f_equal. symmetry. apply Qgt_alt. destruct Hx as (_ & _ & ->). rewrite Hy. by apply val_pos.
  - destruct Hx as (Hn1 & _ & ->), Hy as (Hn2 & _ & ->). f_equal. symmetry.
    change (IntDef.Z.compare e1 e2) with (e1 ?= e2). destruct (Z.compare_spec e1 e2) as [->|Hlt|Hgt].
    + change (PosDef.Pos.compare_cont Eq m1 m2) with (Z.pos m1 ?= Z.pos m2).
      destruct (Z.compare_spec (Z.pos m1) (Z.pos m2)) as [->|H|H].
      * by apply Qeq_alt.
      * by apply Qlt_alt, val_lt.
      * by apply Qgt_alt, val_lt.
    + by apply Qlt_alt, exponent_order.
    + by apply Qgt_alt, exponent_order.
Qed.

(** The built-in max of two numbers is the larger one. *)
Lemma fmax_spec x y vx vy :
  denotes x vx -> denotes y vy -> exists v, denotes (fmax x y) v /\ (vx <= v)%Q /\ (vy <= v)%Q.
Proof.
  intros Hx Hy. unfold fmax, IsNaN, feq, flt, SFeqb, SFltb.
  rewrite (SFcompare_spec x x vx vx), (SFcompare_spec y y vy vy), (SFcompare_spec x y vx vy) by done.
  assert (forall v, (v ?= v)%Q = Eq) as Hrefl by (intros v; by apply Qeq_alt). rewrite !Hrefl. cbn [negb].
  destruct (vx ?= vy)%Q eqn:Hc.
  - apply Qeq_alt in Hc. destruct (signbit x); [exists vy | exists vx]; (split; [done | split; lra]).
  - apply Qlt_alt in Hc. exists vy. split; [done | split; lra].
  - apply Qgt_alt in Hc. exists vx. split; [done | split; lra].
Qed.

(** ** Printing *)
Lemma val_scaled m e z : (val (Z.pos m) e <= inject_Z z)%Q <-> scaled_num m e 0 <= z * scaled_den e.
Proof.
  unfold scaled_num, scaled_den. change (10 ^ Z.of_nat 0) with 1. rewrite Z.mul_1_r.
  assert (inject_Z z == val z 0)%Q as -> by (unfold val; change (Qpower 2 0) with 1%Q; ring).
  destruct (Z.leb_spec 0 e).
  - rewrite (val_down _ 0 e), val_le, Z.sub_0_r by done. by rewrite Z.mul_1_r.
  - rewrite (val_down z e 0), val_le, Z.sub_0_l by lia. by rewrite Z.mul_1_r.
Qed.

Lemma val_scaled_ge m e z : (inject_Z z <= val (Z.pos m) e)%Q <-> z * scaled_den e <= scaled_num m e 0.
Proof.
  unfold scaled_num, scaled_den. change (10 ^ Z.of_nat 0) with 1. rewrite Z.mul_1_r.
  assert (inject_Z z == val z 0)%Q as -> by (unfold val; change (Qpower 2 0) with 1%Q; ring).
  destruct (Z.leb_spec 0 e).
  - rewrite (val_down _ 0 e), val_le, Z.sub_0_r by done. by rewrite Z.mul_1_r.
  - rewrite (val_down z e 0), val_le, Z.sub_0_l by lia. by rewrite Z.mul_1_r.
Qed.

Lemma scaled_num_places m e p : scaled_num m e p = scaled_num m e 0 * 10 ^ Z.of_nat p.
Proof. unfold scaled_num. change (10 ^ Z.of_nat 0) with 1. ring. Qed.

(** The text of a number between two integers reads as a number between them. *)
Lemma FormatFixed_between p x v a b :
  denotes x v -> (inject_Z a <= v)%Q -> (v <= inject_Z b)%Q ->
  exists n, read_fixed (FormatFixed p x) = Some (false, (n, p)) /\ a * 10 ^ Z.of_nat p <= n <= b * 10 ^ Z.of_nat p.
Proof.
  intros Hx Ha Hb. assert (0 < 10 ^ Z.of_nat p) as Hp by (apply Z.pow_pos_nonneg; lia).
  destruct x as [[]|[]| |[] m e]; try done.
  - cbn [denotes] in Hx. rewrite Hx in Ha, Hb.
    change 0%Q with (inject_Z 0) in Ha, Hb. rewrite <- Zle_Qle in Ha, Hb.
    exists 0. split; [|nia]. pose proof (read_fixed_point 0 p ltac:(lia)) as Hr.
    unfold FormatFixed. cbn [scaled]. change (String.append "" (fixed_point 0 p)) with (fixed_point 0 p).
    unfold read_fixed. destruct (fixed_point 0 p) as [|c t] eqn:Ht; [by destruct (fixed_point_nonempty 0 p)|].
    destruct (Ascii.eqb_spec c "-"%char) as [->|]; [by cbn in Hr | by rewrite Hr].
  - destruct Hx as (_ & _ & Hv). rewrite Hv in Ha, Hb. apply val_scaled_ge in Ha. apply val_scaled in Hb.
    destruct (FormatFixed_reads_back p false m e) as (Hread & Hn & _).
    set (n := scaled (S754_finite false m e) p) in *. exists n. split; [done|].
    rewrite scaled_num_places in Hn. pose proof (scaled_den_pos e).
    assert (a * 10 ^ Z.of_nat p * scaled_den e <= scaled_num m e 0 * 10 ^ Z.of_nat p <= b * 10 ^ Z.of_nat p * scaled_den e) by nia.
    split; nia.
Qed.

(** The printed number is the nearest: it is at most half a unit away. *)
Lemma scaled_val m e : (val (Z.pos m) e * inject_Z (scaled_den e) == inject_Z (scaled_num m e 0))%Q.
Proof.
  unfold scaled_num, scaled_den, val. change (10 ^ Z.of_nat 0) with 1. rewrite Z.mul_1_r.
  destruct (Z.leb_spec 0 e).
  - rewrite inject_Z_mult, (Zpower_Qpower 2 e) by done. change (inject_Z 2) with 2%Q. ring.
  - rewrite Z.mul_1_r, (Zpower_Qpower 2 (- e)) by lia. change (inject_Z 2) with 2%Q.
    rewrite <- Qmult_assoc, <- Qpower_plus by done. replace (e + - e) with 0 by lia. change (Qpower 2 0) with 1%Q. ring.
Qed.

Lemma FormatFixed_nearest p x v :
  denotes x v ->
  exists n, read_fixed (FormatFixed p x) = Some (false, (n, p)) /\
    (inject_Z (2 * n - 1) <= 2 * v * inject_Z (10 ^ Z.of_nat p) <= inject_Z (2 * n + 1))%Q.
Proof.
  intros Hx. destruct x as [[]|[]| |[] m e]; try done.
  - cbn [denotes] in Hx.
    destruct (FormatFixed_between p (S754_zero false) v 0 0) as (n & Hr & Hn); [done | rewrite Hx; done..|].
    exists n. assert (n = 0) as -> by lia. split; [done|]. rewrite Hx. split; ring_simplify; by vm_compute.
  - destruct Hx as (_ & _ & Hv). destruct (FormatFixed_reads_back p false m e) as (Hread & Hn & _).
    set (n := scaled (S754_finite false m e) p) in *. exists n. split; [done|]. clearbody n.
    rewrite scaled_num_places in Hn. pose proof (scaled_den_pos e) as Hd. pose proof (scaled_val m e) as Hval.
    rewrite Zlt_Qlt in Hd. set (d := scaled_den e) in *. set (k := scaled_num m e 0) in *. set (t := 10 ^ Z.of_nat p) in *.
    assert ((2 * n - 1) * d <= 2 * (k * t) <= (2 * n + 1) * d) as [Hlo Hhi] by lia.
    rewrite Zle_Qle, !inject_Z_mult in Hlo, Hhi. change (inject_Z 2) with 2%Q in *. rewrite <- Hval, <- Hv in Hlo, Hhi.
    split; apply (Qmult_le_r _ _ (inject_Z d)); try exact Hd.
    + eapply Qle_trans; [exact Hlo|]. apply Qle_lteq. right. ring.
    + eapply Qle_trans; [|exact Hhi]. apply Qle_lteq. right. ring.
Qed.

(** A rounded result below 2^48 is at most a sixteenth away. *)
Lemma rounded_near q x :
  rounded q x -> (0 <= q)%Q -> (q <= inject_Z (2 ^ 48))%Q -> exists v, denotes x v /\ (q - (1 # 16) <= v <= q + (1 # 16))%Q.
Proof.
  intros Hq H0 H1. set (z := Qfloor (16 * q)).
  pose proof (Qfloor_le (16 * q)) as Hlo. pose proof (Qlt_floor (16 * q)) as Hhi. fold z in Hlo, Hhi.
  assert (forall k, val k (-4) == inject_Z k * (1 # 16))%Q as Hval by (intros k; unfold val; reflexivity).
  assert (0 <= z < 2 ^ 53 - 1) as Hz.
  { split.
    - apply Z.lt_succ_r. rewrite Zlt_Qlt. unfold Z.succ. eapply Qle_lt_trans; [|exact Hhi]. change (inject_Z 0) with 0%Q. lra.
    - rewrite Zlt_Qlt. change (inject_Z (2 ^ 48)) with (281474976710656 # 1)%Q in H1.
      change (inject_Z (2 ^ 53 - 1)) with (9007199254740991 # 1)%Q. lra. }
  assert (forall k, z <= k <= z + 1 -> representable (val k (-4))) as Hrep.
  { intros k Hk. exists k, (-4). unfold emin. split_and!; [lia..|reflexivity]. }
  rewrite inject_Z_plus in Hhi. change (inject_Z 1) with 1%Q in Hhi.
  destruct (rounded_le _ _ _ Hq (Hrep (z + 1) ltac:(lia))) as (v & Hv & Hup).
  { rewrite Hval, inject_Z_plus. change (inject_Z 1) with 1%Q. lra. }
  pose proof (rounded_ge _ _ _ _ Hq Hv (Hrep z ltac:(lia)) ltac:(rewrite Hval; lra)) as Hlow.
  rewrite Hval in Hup, Hlow. rewrite inject_Z_plus in Hup. change (inject_Z 1) with 1%Q in Hup.
  exists v. split; [done|]. split; lra.
Qed.
