(* ===== verification/GoText.v ===== *)
(** * Text: UTF-8, XML escaping, quoting

    [utf8.DecodeRune], [xml.EscapeText], [strconv.Quote] and a reader of escaped text,
    on strings of bytes as Go has them.  The printable runes beyond ASCII are a
    parameter of [Quote] (a table of the unicode package). *)
From Stdlib Require Import Ascii String.
From stdpp Require Import base strings list.
From S2P Require Import Prelude.

Local Open Scope Z_scope.

(** ** Bytes *)
Definition byte_of (c : ascii) : Z := Z.of_nat (nat_of_ascii c).
Definition of_byte (z : Z) : ascii := ascii_of_nat (Z.to_nat z).

Definition between (lo hi z : Z) : bool := (lo <=? z) && (z <=? hi).

(** The first [n] bytes, and the rest. *)
Fixpoint take_bytes (n : nat) (s : string) : string :=
  match n, s with
  | S n', String c s' => String c (take_bytes n' s')
  | _, _ => ""
  end.

Fixpoint drop_bytes (n : nat) (s : string) : string :=
  match n, s with
  | S n', String _ s' => drop_bytes n' s'
  | _, _ => s
  end.

(** ** utf8.DecodeRune *)
Definition RuneError : Z := 65533.

(** The length of the encoding that a first byte announces and the range of its second
    byte; [None] is a byte that begins no encoding. *)
Definition lead (b : Z) : option (nat * Z * Z) :=
  if between 194 223 b then Some (2%nat, 128, 191)
  else if b =? 224 then Some (3%nat, 160, 191)
  else if b =? 237 then Some (3%nat, 128, 159)
  else if between 225 239 b then Some (3%nat, 128, 191)
  else if b =? 240 then Some (4%nat, 144, 191)
  else if between 241 243 b then Some (4%nat, 128, 191)
  else if b =? 244 then Some (4%nat, 128, 143)
  else None.

(** The value of a continuation byte. *)
Definition continuation (lo hi : Z) (c : ascii) : option Z :=
  if between lo hi (byte_of c) then Some (Z.land (byte_of c) 63) else None.

(** The continuation bytes after a first byte with the value bits [acc]. *)
Fixpoint continuations (k : nat) (lo hi acc : Z) (s : string) : option Z :=
  match k with
  | O => Some acc
  | S k' =>
      match s with
      | EmptyString => None
      | String c s' =>
          match continuation lo hi c with
          | None => None
          | Some v => continuations k' 128 191 (Z.lor (Z.shiftl acc 6) v) s'
          end
      end
  end.

(** The rune at the head of a non-empty string and its width; an invalid encoding is
    one byte wide. *)
Definition DecodeRune (c : ascii) (s : string) : Z * nat :=
  let b := byte_of c in
  if b <? 128 then (b, 1%nat)
  else
    match lead b with
    | None => (RuneError, 1%nat)
    | Some (n, lo, hi) =>
        match continuations (n - 1) lo hi (Z.land b (2 ^ (7 - Z.of_nat n) - 1)) s with
        | None => (RuneError, 1%nat)
        | Some r => (r, n)
        end
    end.

(** ** xml.EscapeText *)

(** [isInCharacterRange]: the Char production of XML. *)
Definition isInCharacterRange (r : Z) : bool :=
  (r =? 9) || (r =? 10) || (r =? 13) || between 32 55295 r || between 57344 65533 r ||
  between 65536 1114111 r.

(** The escapes of the characters that have one. *)
Definition entities : list (ascii * string) :=
  [("034"%char, "&#34;"); ("'"%char, "&#39;"); ("&"%char, "&amp;"); ("<"%char, "&lt;");
   (">"%char, "&gt;"); ("009"%char, "&#x9;"); ("010"%char, "&#xA;"); ("013"%char, "&#xD;")]%string.

Definition entity_of (c : ascii) : option string :=
  find_first (fun '(c', e) => if Ascii.eqb c c' then Some e else None) entities.

(** U+FFFD in UTF-8. *)
Definition escFFFD : string := String "239" (String "191" (String "189" "")).

(** The output for one rune: its escape, the replacement character, or its bytes. *)
Definition escape_rune (c : ascii) (s : string) : string * nat :=
  let '(r, width) := DecodeRune c s in
  match (if r <? 128 then entity_of (of_byte r) else None) with
  | Some esc => (esc, width)
  | None =>
      if negb (isInCharacterRange r) || ((r =? RuneError) && Nat.eqb width 1)
      then (escFFFD, width)
      else (String c (take_bytes (width - 1) s), width)
  end.

(** [skip] counts the bytes of the current rune that are still to be passed. *)
Fixpoint escape_from (skip : nat) (s : string) : string :=
  match s with
  | EmptyString => ""
  | String c s' =>
      match skip with
      | S skip' => escape_from skip' s'
      | O => let '(out, width) := escape_rune c s' in (out +:+ escape_from (width - 1) s')%string
      end
  end.

Definition EscapeText (s : string) : string := escape_from 0 s.

(** ** Reading escaped text

    What a reader of the XML sees: the escapes above, and every other byte as itself. *)
Fixpoint strip (p s : string) : bool :=
  match p, s with
  | EmptyString, _ => true
  | String a p', String b s' => Ascii.eqb a b && strip p' s'
  | _, _ => false
  end.

Definition entity_at (s : string) : option (ascii * nat) :=
  find_first (fun '(c, e) => if strip e s then Some (c, String.length e) else None) entities.

Fixpoint unescape_from (skip : nat) (s : string) : string :=
  match s with
  | EmptyString => ""
  | String c s' =>
      match skip with
      | S skip' => unescape_from skip' s'
      | O =>
          match entity_at s with
          | Some (c', n) => String c' (unescape_from (n - 1) s')
          | None => String c (unescape_from 0 s')
          end
      end
  end.

Definition unescape (s : string) : string := unescape_from 0 s.

(** The text with every byte of an invalid encoding, and every character that XML
    excludes, replaced by U+FFFD. *)
Definition keeps (c : ascii) (s : string) : bool :=
  let '(r, width) := DecodeRune c s in
  isInCharacterRange r && negb ((r =? RuneError) && Nat.eqb width 1).

Fixpoint sanitize_from (skip : nat) (s : string) : string :=
  match s with
  | EmptyString => ""
  | String c s' =>
      match skip with
      | S skip' => sanitize_from skip' s'
      | O =>
          let '(_, width) := DecodeRune c s' in
          ((if keeps c s' then String c (take_bytes (width - 1) s') else escFFFD) +:+
           sanitize_from (width - 1) s')%string
      end
  end.

Definition sanitize (s : string) : string := sanitize_from 0 s.

(** Text in which nothing needs to be replaced. *)
Fixpoint valid_from (skip : nat) (s : string) : bool :=
  match s with
  | EmptyString => true
  | String c s' =>
      match skip with
      | S skip' => valid_from skip' s'
      | O => keeps c s' && valid_from (snd (DecodeRune c s') - 1) s'
      end
  end.

Definition valid_text (s : string) : bool := valid_from 0 s.

(** ** strconv.Quote *)

(** The printable runes beyond Latin-1, a table of the standard library. *)
Class Unicode : Type := { isPrint_table : Z -> bool }.

Section quote.
Context `{!Unicode}.

Definition IsPrint (r : Z) : bool :=
  if r <=? 255 then between 32 126 r || (between 161 255 r && negb (r =? 173))
  else isPrint_table r.

Definition hex_digit (z : Z) : ascii := of_byte (if z <? 10 then 48 + z else 87 + z).

(** The [k] low hexadecimal digits of [z]. *)
Fixpoint hex (k : nat) (z : Z) (acc : string) : string :=
  match k with
  | O => acc
  | S k' => hex k' (Z.shiftr z 4) (String (hex_digit (Z.land z 15)) acc)
  end.

(** The escapes with a letter of their own. *)
Definition letter_escape (r : Z) : option ascii :=
  find_first (fun '(z, c) => if r =? z then Some c else None)
    [(7, "a"); (8, "b"); (12, "f"); (10, "n"); (13, "r"); (9, "t"); (11, "v")]%char.

Definition backslash : ascii := "092".
Definition quotation : ascii := "034".

(** [appendEscapedRune], given the bytes that encode the rune. *)
Definition quote_rune (r : Z) (bytes : string) : string :=
  if (r =? byte_of quotation) || (r =? byte_of backslash) then String backslash bytes
  else if IsPrint r then bytes
  else
    match letter_escape r with
    | Some c => String backslash (String c "")
    | None =>
        if (r <? 32) || (r =? 127) then String backslash (String "x" (hex 2 r ""))
        else if r <? 65536 then String backslash (String "u" (hex 4 r ""))
        else String backslash (String "U" (hex 8 r ""))
    end.

Fixpoint quote_from (skip : nat) (s : string) : string :=
  match s with
  | EmptyString => ""
  | String c s' =>
      match skip with
      | S skip' => quote_from skip' s'
      | O =>
          let '(r, width) := DecodeRune c s' in
          let out :=
            if (r =? RuneError) && Nat.eqb width 1
            then String backslash (String "x" (hex 2 (byte_of c) ""))
            else quote_rune r (String c (take_bytes (width - 1) s')) in
          (out +:+ quote_from (width - 1) s')%string
      end
  end.

Definition Quote (s : string) : string :=
  String quotation (quote_from 0 s +:+ String quotation "")%string.
End quote.

(** ** Lemmas: decoding *)
Lemma all_bytes (P : ascii -> bool) :
  forallb (fun n => P (ascii_of_nat n)) (seq 0 256) = true -> forall c, P c = true.
Proof.
  intros H c. rewrite forallb_forall in H. rewrite <- (ascii_nat_embedding c). apply H.
  apply in_seq. pose proof (nat_ascii_bounded c). lia.
Qed.

Lemma of_byte_of c : of_byte (byte_of c) = c.
Proof. unfold of_byte, byte_of. by rewrite Nat2Z.id, ascii_nat_embedding. Qed.

Lemma byte_of_range c : 0 <= byte_of c < 256.
Proof. unfold byte_of. pose proof (nat_ascii_bounded c). lia. Qed.

(** A byte of a multi-byte encoding. *)
Definition high (c : ascii) : bool := 128 <=? byte_of c.

Lemma continuation_spec lo hi c v :
  128 <= lo -> hi <= 191 -> continuation lo hi c = Some v ->
  high c = true /\ 0 <= v < 64 /\ (144 <= lo -> 16 <= v).
Proof.
  intros Hlo Hhi. unfold continuation, between, high.
  destruct (_ && _) eqn:Hb; intros [= <-]. apply andb_prop in Hb as [H1 H2].
  split; [lia|]. split; [change 63 with (Z.ones 6); rewrite Z.land_ones by lia; by apply Z.mod_pos_bound|]. intros H3.
  assert (implb ((144 <=? byte_of c) && (byte_of c <=? 191)) (16 <=? Z.land (byte_of c) 63) = true) as H.
  { clear H1 H2. revert c. apply all_bytes. by vm_compute. }
  destruct (144 <=? byte_of c) eqn:?; [|lia]. destruct (byte_of c <=? 191) eqn:?; [|lia]. cbn in H. lia.
Qed.

(** The first byte of an encoding, and what makes its value large enough. *)
Lemma lead_spec c n lo hi :
  lead (byte_of c) = Some (n, lo, hi) ->
  high c = true /\ 128 <= lo /\ hi <= 191 /\ (2 <= n <= 4)%nat /\
  (2 <= Z.land (byte_of c) (2 ^ (7 - Z.of_nat n) - 1) \/
   (3 <= n)%nat /\ (1 <= Z.land (byte_of c) (2 ^ (7 - Z.of_nat n) - 1) \/ 144 <= lo)).
Proof.
  pose (P := fun c => match lead (byte_of c) with
    | None => true
    | Some (n, lo, hi) =>
        high c && (128 <=? lo) && (hi <=? 191) && (2 <=? Z.of_nat n) && (Z.of_nat n <=? 4) &&
        ((2 <=? Z.land (byte_of c) (2 ^ (7 - Z.of_nat n) - 1)) ||
         (3 <=? Z.of_nat n) &&
         ((1 <=? Z.land (byte_of c) (2 ^ (7 - Z.of_nat n) - 1)) || (144 <=? lo)))
    end).
  assert (P c = true) as HP by (revert c; apply all_bytes; by vm_compute).
  intros Hl. unfold P in HP. rewrite Hl in HP.
  set (v := Z.land _ _) in *. destruct (high c); [|done]. cbn [andb] in HP. split; [done|]. lia.
Qed.

Lemma lor_shift acc v : 0 <= acc -> 0 <= v < 64 -> Z.lor (Z.shiftl acc 6) v = acc * 64 + v.
Proof.
  intros Ha Hv. assert (Z.land (Z.shiftl acc 6) v = 0) as Hl.
  { apply Z.bits_inj'. intros n Hn. rewrite Z.land_spec, Z.bits_0.
    destruct (Z.lt_ge_cases n 6) as [Hlt|Hge]; [by rewrite Z.shiftl_spec_low|].
    rewrite <- (Z.mod_small v (2 ^ 6)) by (cbn; lia). rewrite Z.mod_pow2_bits_high by lia.
    apply andb_false_r. }
  pose proof (Z.add_lor_land (Z.shiftl acc 6) v) as H. rewrite Hl in H.
  rewrite Z.shiftl_mul_pow2 in * by lia. change (2 ^ 6) with 64 in *. lia.
Qed.

Lemma continuations_spec k lo hi acc s r :
  128 <= lo -> hi <= 191 -> 0 <= acc -> continuations k lo hi acc s = Some r ->
  (k <= String.length s)%nat /\ string_forallb high (take_bytes k s) = true /\
  acc * 64 ^ Z.of_nat k <= r /\
  (144 <= lo -> (1 <= k)%nat -> 16 * 64 ^ Z.of_nat (k - 1) <= r).
Proof.
  revert lo hi acc s.
  induction k as [|k IH]; intros lo hi acc s Hlo Hhi Hacc; cbn [continuations take_bytes string_forallb].
  - intros [= <-]. split_and!; [lia | done | lia | lia].
  - destruct s as [|c s]; [done|]. destruct (continuation lo hi c) as [v|] eqn:Hc; [|done].
    apply continuation_spec in Hc as (Hh & Hv & Hv'); [|done..].
    rewrite lor_shift by done. intros H.
    apply IH in H as (Hlen & Hall & Hge & _); [|lia..].
    rewrite Nat2Z.inj_succ, Z.pow_succ_r by lia. replace (S k - 1)%nat with k by lia.
    cbn [String.length take_bytes string_forallb].
    assert (0 < 64 ^ Z.of_nat k) by (apply Z.pow_pos_nonneg; lia).
    split_and!; [lia | by rewrite Hh | nia |]. intros Hlo' _. specialize (Hv' Hlo'). nia.
Qed.

(** An ASCII byte is its own rune; any other valid encoding has at least two bytes, all of
    them high, and a rune beyond ASCII; what is left is an invalid byte. *)
Lemma DecodeRune_spec c s :
  let '(r, width) := DecodeRune c s in
  (r = byte_of c /\ width = 1%nat /\ high c = false) \/
  (128 <= r /\ high c = true /\ (1 <= width)%nat /\ (width - 1 <= String.length s)%nat /\
   string_forallb high (take_bytes (width - 1) s) = true).
Proof.
  unfold DecodeRune. destruct (byte_of c <? 128) eqn:Hc.
  - left. split_and!; [done..|]. unfold high. lia.
  - assert (high c = true) as Hh by (unfold high; lia).
    destruct (lead (byte_of c)) as [[[n lo] hi]|] eqn:Hl;
      [|right; split_and!; [done | done | lia | cbn; lia | done]].
    apply lead_spec in Hl as (_ & Hlo & Hhi & Hn & Hbig).
    set (acc := Z.land _ _) in *.
    assert (0 <= acc) as Hacc by (apply Z.land_nonneg; pose proof (byte_of_range c); lia).
    destruct (continuations (n - 1) lo hi acc s) as [r|] eqn:Hr;
      [|right; split_and!; [done | done | lia | cbn; lia | done]].
    apply continuations_spec in Hr as (Hlen & Hall & Hge & Hge'); [|done..].
    right. split_and!; [|done|lia|done|done].
    assert (n = 2 \/ n = 3 \/ n = 4)%nat as [->|[->| ->]] by lia; cbn in Hge, Hge'; lia.
Qed.

(** ** Lemmas: escaping *)
Lemma take_drop_bytes n s : (take_bytes n s +:+ drop_bytes n s)%string = s.
Proof.
  revert s. induction n as [|n IH]; intros [|c s]; [done..|]. cbn [take_bytes drop_bytes].
  by rewrite append_cons, IH.
Qed.

Lemma entity_at_plain c s : c <> "&"%char -> entity_at (String c s) = None.
Proof.
  intros Hc. assert (Ascii.eqb "&" c = false) as H.
  { apply Ascii.eqb_neq. congruence. }
  unfold entity_at, entities. cbn [find_first strip]. by rewrite H.
Qed.

Lemma unescape_plain u t :
  string_forallb (fun c => negb (Ascii.eqb c "&")) u = true ->
  unescape (u +:+ t) = (u +:+ unescape t)%string.
Proof.
  unfold unescape. induction u as [|c u IH]; [done|]. cbn [string_forallb].
  intros [Hc Hu]%andb_prop. rewrite !append_cons. cbn [unescape_from].
  rewrite entity_at_plain; [by rewrite IH|]. intros ->. done.
Qed.

(** The escape of a character is read as that character. *)
Lemma unescape_entity c e t :
  entity_of c = Some e ->
  unescape (e +:+ t) = String c (unescape t) /\ isInCharacterRange (byte_of c) = true /\
  byte_of c < 128.
Proof.
  unfold entity_of, entities. cbn [find_first].
  repeat (match goal with |- context [Ascii.eqb c ?d] => destruct (Ascii.eqb_spec c d) as [->|] end;
    [intros [= <-]; by vm_compute|]). done.
Qed.

Lemma high_plain u :
  string_forallb high u = true -> string_forallb (fun c => negb (Ascii.eqb c "&")) u = true.
Proof.
  apply string_forallb_impl. intros c Hc.
  destruct (Ascii.eqb_spec c "&") as [->|]; [by vm_compute in Hc | done].
Qed.

(** The output for one rune is read as that rune, or as U+FFFD. *)
Lemma unescape_rune c s t :
  unescape (fst (escape_rune c s) +:+ t) =
  ((if keeps c s then String c (take_bytes (snd (DecodeRune c s) - 1) s) else escFFFD) +:+
   unescape t)%string.
Proof.
  pose proof (DecodeRune_spec c s) as Hd. unfold escape_rune, keeps.
  destruct (DecodeRune c s) as [r width]. cbn [snd].
  destruct Hd as [(-> & -> & Hc)|(Hr & Hc & Hw & Hlen & Hall)].
  - assert ((byte_of c <? 128) = true) as -> by (unfold high in Hc; lia).
    rewrite of_byte_of. assert ((byte_of c =? RuneError) = false) as ->
      by (pose proof (byte_of_range c); unfold RuneError; lia).
    destruct (entity_of c) as [e|] eqn:He.
    + apply (unescape_entity _ _ t) in He as (He & Hin & _). cbn [fst]. by rewrite He, Hin.
    + cbn [andb negb orb]. rewrite orb_false_r, andb_true_r.
      destruct (isInCharacterRange (byte_of c)); cbn [negb fst];
        [|by rewrite unescape_plain by done].
      change (take_bytes (1 - 1) s) with ""%string. rewrite unescape_plain; [done|].
      cbn. rewrite andb_true_r. apply negb_true_iff, Ascii.eqb_neq. intros ->. done.
  - assert ((r <? 128) = false) as -> by lia.
    rewrite <- (negb_involutive (isInCharacterRange r)) at 2. rewrite <- negb_orb.
    destruct (_ || _); cbn [negb fst]; rewrite unescape_plain; try done.
    apply high_plain. cbn [string_forallb]. by rewrite Hc.
Qed.

Lemma escape_rune_width c s : snd (escape_rune c s) = snd (DecodeRune c s).
Proof.
  unfold escape_rune. destruct (DecodeRune c s) as [r width].
  destruct (if r <? 128 then _ else _); [done|]. by destruct (_ || _).
Qed.

(** Reading escaped text gives the text back, with what XML excludes replaced. *)
Theorem unescape_EscapeText s : unescape (EscapeText s) = sanitize s.
Proof.
  unfold EscapeText, sanitize. generalize 0%nat as skip.
  induction s as [|c s IH]; intros [|skip]; [done|done| |apply IH].
  cbn [escape_from sanitize_from].
  pose proof (unescape_rune c s) as Hr. pose proof (escape_rune_width c s) as Hw.
  destruct (escape_rune c s) as [out width], (DecodeRune c s) as [r width'].
  cbn [fst snd] in *. subst width'. by rewrite Hr, IH.
Qed.

(** Text that XML admits is not changed. *)
Lemma sanitize_from_valid skip s :
  (skip <= String.length s)%nat -> valid_from skip s = true ->
  sanitize_from skip s = drop_bytes skip s.
Proof.
  revert skip. induction s as [|c s IH]; intros [|skip] Hlen; cbn; [done|done| |].
  - intros [Hk Hv]%andb_prop. pose proof (DecodeRune_spec c s) as Hd.
    destruct (DecodeRune c s) as [r width]. cbn [snd] in *. rewrite Hk, append_cons.
    rewrite IH; [by rewrite take_drop_bytes | | done]. destruct Hd as [(_ & -> & _)|]; [cbn; lia | tauto].
  - intros Hv. apply IH; [cbn in Hlen; lia | done].
Qed.

Lemma sanitize_valid s : valid_text s = true -> sanitize s = s.
Proof. intros H. unfold sanitize. rewrite sanitize_from_valid; [done | lia | done]. Qed.

(** The characters of markup do not occur in escaped text. *)
Definition inert (c : ascii) : bool :=
  negb (existsb (Ascii.eqb c) ["<"%char; ">"%char; "034"%char; "'"%char]).

Lemma high_inert u : string_forallb high u = true -> string_forallb inert u = true.
Proof.
  apply string_forallb_impl. intros c Hc.
  assert (implb (high c) (inert c) = true) as H by (revert c Hc; intros c _; revert c; apply all_bytes; by vm_compute).
  by rewrite Hc in H.
Qed.

Lemma entity_inert c e : entity_of c = Some e -> string_forallb inert e = true.
Proof.
  unfold entity_of, entities. cbn [find_first].
  repeat (match goal with |- context [Ascii.eqb c ?d] => destruct (Ascii.eqb c d) end;
    [intros [= <-]; by vm_compute|]). done.
Qed.

Lemma entity_of_None_inert c : entity_of c = None -> inert c = true.
Proof.
  intros H. assert (match entity_of c with None => inert c | Some _ => true end = true) as Hb
    by (clear H; revert c; apply all_bytes; by vm_compute).
  by rewrite H in Hb.
Qed.

Lemma escape_rune_inert c s : string_forallb inert (fst (escape_rune c s)) = true.
Proof.
  pose proof (DecodeRune_spec c s) as Hd. unfold escape_rune.
  destruct (DecodeRune c s) as [r width].
  destruct (if r <? 128 then _ else _) as [e|] eqn:He.
  - cbn [fst]. destruct (r <? 128); [by eapply entity_inert | done].
  - destruct (_ || _); [done|]. cbn [fst string_forallb].
    destruct Hd as [(-> & -> & Hc)|(Hr & Hc & _ & _ & Hall)].
    + assert ((byte_of c <? 128) = true) as Hlt by (unfold high in Hc; lia).
      rewrite Hlt, of_byte_of in He. by rewrite (entity_of_None_inert _ He).
    + rewrite (high_inert _ Hall), andb_true_r.
      by pose proof (high_inert (String c "") ltac:(cbn; by rewrite Hc)) as [? _]%andb_prop.
Qed.

Theorem EscapeText_inert s : string_forallb inert (EscapeText s) = true.
Proof.
  unfold EscapeText. generalize 0%nat as skip.
  induction s as [|c s IH]; intros [|skip]; [done|done| |apply IH].
  cbn [escape_from]. pose proof (escape_rune_inert c s) as Hr.
  destruct (escape_rune c s) as [out width]. cbn [fst] in Hr.
  by rewrite string_forallb_app, Hr, IH.
Qed.
