(* ===== verification/GoSlices.v ===== *)
(** * slices.SortFunc, slices.Sort and filepath.Join

    [SortFunc] is the insertion sort that package slices runs on short slices.  Longer
    ones are sorted by other methods; [SortFunc_unique] says that it does not matter when
    no two elements compare as equal. *)
From Stdlib Require Import Ascii String.
From stdpp Require Import base strings list sorting.
From S2P Require Import Prelude.

Local Open Scope Z_scope.

(** The language's [int]: 64 bits, subtraction wraps around. *)
Definition int_min : Z := - 2 ^ 63.
Definition int_max : Z := 2 ^ 63 - 1.
Definition wrap (z : Z) : Z := (z - int_min) mod 2 ^ 64 + int_min.
Definition int_sub (x y : Z) : Z := wrap (x - y).
Definition is_int (z : Z) : Prop := int_min <= z <= int_max.

(** ** Sorting *)
Section sort.
Context {A : Type} (cmp : A -> A -> Z).

(** The inner loop: the sorted prefix is held last element first; [x] moves towards the
    front while it compares below its neighbour. *)
Fixpoint insert_last (x : A) (prefix : list A) : list A :=
  match prefix with
  | [] => [x]
  | y :: prefix' => if cmp x y <? 0 then y :: insert_last x prefix' else x :: prefix
  end.

Definition SortFunc (l : list A) : list A :=
  reverse (foldl (fun prefix x => insert_last x prefix) [] l).

Lemma insert_last_perm x prefix : insert_last x prefix ≡ₚ x :: prefix.
Proof.
  induction prefix as [|y prefix IH]; cbn; [done|]. destruct (cmp x y <? 0); [|done].
  rewrite IH. constructor.
Qed.

Lemma SortFunc_perm l : SortFunc l ≡ₚ l.
Proof.
  unfold SortFunc. rewrite reverse_Permutation.
  enough (forall acc, foldl (fun p x => insert_last x p) acc l ≡ₚ acc ++ l) as H by apply H.
  induction l as [|x l IH]; intros acc; cbn; [by rewrite app_nil_r|].
  rewrite IH, insert_last_perm. by rewrite <- Permutation_middle.
Qed.

(** On the elements [P], [cmp] decides the order [below]. *)
Context (P : A -> Prop) (below : A -> A -> Prop) `{!Transitive below}.
Hypothesis cmp_below : forall x y, P x -> P y -> if cmp x y <? 0 then below x y else below y x.

Lemma insert_last_sorted x prefix :
  P x -> Forall P prefix -> StronglySorted (flip below) prefix ->
  StronglySorted (flip below) (insert_last x prefix).
Proof.
  intros Hx HP Hs. induction Hs as [|y prefix Hs IH Hy]; cbn; [by repeat constructor|].
  inversion_clear HP as [|? ? HPy HP']. pose proof (cmp_below x y Hx HPy) as Hxy.
  destruct (cmp x y <? 0).
  - constructor; [by apply IH|]. apply Forall_forall. intros z Hz.
    rewrite insert_last_perm in Hz. apply elem_of_cons in Hz as [->|Hz]; [done|].
    exact (proj1 (Forall_forall _ _) Hy z Hz).
  - constructor; [by constructor|]. constructor; [done|].
    eapply Forall_impl; [exact Hy|]. cbn. intros z Hz. unfold flip in *. by etrans.
Qed.

Lemma StronglySorted_reverse (R : A -> A -> Prop) (l : list A) :
  StronglySorted (flip R) l -> StronglySorted R (reverse l).
Proof.
  induction 1 as [|x l Hs IH Hx]; [constructor|]. rewrite reverse_cons.
  apply StronglySorted_app_2; [| done | by repeat constructor].
  intros y z Hy Hz. apply list_elem_of_singleton in Hz as ->. rewrite elem_of_reverse in Hy.
  exact (proj1 (Forall_forall _ _) Hx y Hy).
Qed.

Lemma SortFunc_sorted l : Forall P l -> StronglySorted below (SortFunc l).
Proof.
  intros HP. apply StronglySorted_reverse.
  enough (forall acc, Forall P acc -> StronglySorted (flip below) acc ->
    StronglySorted (flip below) (foldl (fun p x => insert_last x p) acc l)) as H
    by (apply H; constructor).
  induction HP as [|x l Hx HP IH]; intros acc Hacc Hs; cbn; [done|].
  apply IH; [by rewrite insert_last_perm; constructor | by apply insert_last_sorted].
Qed.

(** When no two elements are equivalent, every sorted permutation is the result: neither
    the sorting method nor the order of the input shows. *)
Lemma SortFunc_unique l l' :
  Forall P l -> (forall x y, x ∈ l -> y ∈ l -> below x y -> below y x -> x = y) ->
  l' ≡ₚ l -> StronglySorted below l' -> l' = SortFunc l.
Proof.
  intros HP Hanti Hperm Hs. apply (StronglySorted_unique_strong below).
  - intros x y Hx Hy. rewrite Hperm in Hx. rewrite SortFunc_perm in Hy. by apply Hanti.
  - done.
  - by apply SortFunc_sorted.
  - by rewrite SortFunc_perm.
Qed.
End sort.

(** [slices.Sort] on strings, by [cmp.Compare]: byte order. *)
Definition string_cmp (x y : string) : Z :=
  match String.compare x y with Lt => -1 | Eq => 0 | Gt => 1 end.

Definition Sort (l : list string) : list string := SortFunc string_cmp l.

(** ** filepath.Join, on Unix *)

(** The path elements between slashes. *)
Fixpoint split_slash (s cur : string) : list string :=
  match s with
  | EmptyString => [String.rev cur]
  | String c s' =>
      if Ascii.eqb c "/" then String.rev cur :: split_slash s' ""
      else split_slash s' (String c cur)
  end.

(** The elements kept by [Clean], last first: empty ones and dots are dropped, a pair of
    dots removes the element before it; at the root there is none to remove. *)
Definition clean_step (rooted : bool) (kept : list string) (e : string) : list string :=
  if (String.eqb e "" || String.eqb e ".")%string then kept
  else if String.eqb e ".." then
    match kept with
    | k :: kept' => if String.eqb k ".." then e :: kept else kept'
    | [] => if rooted then [] else [e]
    end
  else e :: kept.

Definition Clean (path : string) : string :=
  let rooted := match path with String c _ => Ascii.eqb c "/" | EmptyString => false end in
  let kept := reverse (foldl (clean_step rooted) [] (split_slash path "")) in
  let out := ((if rooted then "/" else "") +:+ String.concat "/" kept)%string in
  if String.eqb out "" then "."%string else out.

(** [filepath.Join] of two elements: empty ones are ignored. *)
Definition filepath_Join (dir name : string) : string :=
  if String.eqb dir "" then (if String.eqb name "" then "" else Clean name)%string
  else Clean (dir +:+ String "/" name)%string.

(** ** Sorting strings does not depend on the order they come in *)
Lemma string_cmp_le x y : if string_cmp x y <? 0 then String.le x y else String.le y x.
Proof.
  unfold string_cmp, String.le, String.leb. rewrite (String.compare_antisym x y).
  by destruct (String.compare y x).
Qed.

Lemma Sort_perm l l' : l ≡ₚ l' -> Sort l = Sort l'.
Proof.
  intros Hperm.
  apply (SortFunc_unique string_cmp (fun _ => True) String.le).
  - intros x y _ _. apply string_cmp_le.
  - by apply Forall_true.
  - intros x y _ _ H1 H2. exact (anti_symm (R:=(=)) String.le x y H1 H2).
  - unfold Sort. by rewrite SortFunc_perm.
  - apply (SortFunc_sorted string_cmp (fun _ => True) String.le).
    + intros x y _ _. apply string_cmp_le.
    + by apply Forall_true.
Qed.
