(* ===== verification/Nodes.v ===== *)
(** * The parser-neutral tree: internal/parser/node.go and parser.go

    [Value] keeps every payload of the Go struct beside its tag, as the source
    does; [wf_value] says that only the tagged payload is set. *)
From stdpp Require Import base strings list.
From Stdlib Require Import SpecFloat.
From S2P Require Import Prelude.
From S2P Require Import GoFloat.

(** A Go pointer to an immutable value: [None] is nil. *)
Abbreviation ptr A := (option A).


Inductive ValueKind : Set :=
| ValueInvalid | ValueBool | ValueInt | ValueUint | ValueFloat | ValueString
| ValueBytes | ValueEnum | ValueNode | ValueList.

#[export] Instance ValueKind_eq_dec : EqDecision ValueKind.
Proof. solve_decision. Defined.

(** [Node], [Field] and [Value]. *)
Inductive Node : Set :=
| MkNode (kind : string) (fields : list Field)
with Field : Set :=
| MkField (name : string) (value : Value)
with Value : Set :=
| MkValue (kind : ValueKind) (boolValue : bool) (intValue uintValue : Z)
    (floatValue : float64) (stringValue : string) (bytesValue : list Byte.byte)
    (nodeValue : ptr Node) (listValue : list Value).

(** The fields of the structs. *)
Definition node_kind (n : Node) : string := let '(MkNode k _) := n in k.
Definition node_fields (n : Node) : list Field := let '(MkNode _ fs) := n in fs.
Definition kind_of (v : Value) : ValueKind := let '(MkValue k _ _ _ _ _ _ _ _) := v in k.
Definition boolValue (v : Value) : bool := let '(MkValue _ x _ _ _ _ _ _ _) := v in x.
Definition intValue (v : Value) : Z := let '(MkValue _ _ x _ _ _ _ _ _) := v in x.
Definition uintValue (v : Value) : Z := let '(MkValue _ _ _ x _ _ _ _ _) := v in x.
Definition floatValue (v : Value) : float64 := let '(MkValue _ _ _ _ x _ _ _ _) := v in x.
Definition stringValue (v : Value) : string := let '(MkValue _ _ _ _ _ x _ _ _) := v in x.
Definition bytesValue (v : Value) : list Byte.byte := let '(MkValue _ _ _ _ _ _ x _ _) := v in x.
Definition nodeValue (v : Value) : ptr Node := let '(MkValue _ _ _ _ _ _ _ x _) := v in x.
Definition listValue (v : Value) : list Value := let '(MkValue _ _ _ _ _ _ _ _ x) := v in x.

(** [Field.Name] and [Field.Value]. *)
Definition Field_Name (f : Field) : string := let '(MkField n _) := f in n.
Definition Field_Value (f : Field) : Value := let '(MkField _ v) := f in v.

(** The composite literals [Value{}] and [Value{kind: ..., x: ...}]. *)
Definition zeroValue : Value := MkValue ValueInvalid false 0 0 (S754_zero false) "" [] None [].
Definition litBool b : Value := MkValue ValueBool b 0 0 (S754_zero false) "" [] None [].
Definition litInt i : Value := MkValue ValueInt false i 0 (S754_zero false) "" [] None [].
Definition litUint u : Value := MkValue ValueUint false 0 u (S754_zero false) "" [] None [].
Definition litFloat f : Value := MkValue ValueFloat false 0 0 f "" [] None [].
Definition litString s : Value := MkValue ValueString false 0 0 (S754_zero false) s [] None [].
Definition litBytes b : Value := MkValue ValueBytes false 0 0 (S754_zero false) "" b None [].
Definition litEnum s : Value := MkValue ValueEnum false 0 0 (S754_zero false) s [] None [].
Definition litNode n : Value := MkValue ValueNode false 0 0 (S754_zero false) "" [] n [].
Definition litList l : Value := MkValue ValueList false 0 0 (S754_zero false) "" [] None l.

(** [Kind] of a *Node. *)
Definition Node_Kind (n : ptr Node) : string :=
  match n with
  | None => ""
  | Some n => node_kind n
  end.

(** [Field] of a *Node: the loop over the fields returns the first of that name. *)
Definition Node_Field (n : ptr Node) (name : string) : Value * bool :=
  match n with
  | None => (zeroValue, false)
  | Some n =>
      (fix scan (fields : list Field) : Value * bool :=
         match fields with
         | [] => (zeroValue, false)
         | field :: fields' =>
             if decide (Field_Name field = name) then (Field_Value field, true)
             else scan fields'
         end) (node_fields n)
  end.

(** [Fields] of a *Node: a fresh slice with the same elements. *)
Definition Node_Fields (n : ptr Node) : list Field :=
  match n with
  | None => []
  | Some n => node_fields n
  end.

(** The accessors of [Value]: the payload and whether the tag selects it. *)
Definition Value_Kind (v : Value) : ValueKind := kind_of v.
Definition Value_Bool (v : Value) : bool * bool := (boolValue v, bool_decide (kind_of v = ValueBool)).
Definition Value_Int (v : Value) : Z * bool := (intValue v, bool_decide (kind_of v = ValueInt)).
Definition Value_Uint (v : Value) : Z * bool := (uintValue v, bool_decide (kind_of v = ValueUint)).
Definition Value_Float (v : Value) : float64 * bool := (floatValue v, bool_decide (kind_of v = ValueFloat)).
Definition Value_String (v : Value) : string * bool := (stringValue v, bool_decide (kind_of v = ValueString)).
Definition Value_Bytes (v : Value) : list Byte.byte * bool :=
  if bool_decide (kind_of v <> ValueBytes) then ([], false) else (bytesValue v, true).
Definition Value_Enum (v : Value) : string * bool := (stringValue v, bool_decide (kind_of v = ValueEnum)).
Definition Value_Node (v : Value) : ptr Node * bool := (nodeValue v, bool_decide (kind_of v = ValueNode)).
Definition Value_List (v : Value) : list Value * bool :=
  if bool_decide (kind_of v <> ValueList) then ([], false) else (listValue v, true).

(** parser.go: [Result], [Statements]. *)
Record Result : Set := MkResult { result_statements : list (ptr Node) }.

Definition Statements (r : ptr Result) : list (ptr Node) :=
  match r with
  | None => []
  | Some r => result_statements r
  end.

(** ** Well-formedness: the tagged union is used as one. *)
Definition payload_of (k : ValueKind) (v : Value) : Value :=
  match k with
  | ValueInvalid => zeroValue
  | ValueBool => litBool (boolValue v)
  | ValueInt => litInt (intValue v)
  | ValueUint => litUint (uintValue v)
  | ValueFloat => litFloat (floatValue v)
  | ValueString => litString (stringValue v)
  | ValueBytes => litBytes (bytesValue v)
  | ValueEnum => litEnum (stringValue v)
  | ValueNode => litNode (nodeValue v)
  | ValueList => litList (listValue v)
  end.

(** Every payload but the tagged one is zero, recursively; integers fit their
    64 bits. *)
Inductive wf_node : Node -> Prop :=
| WfNode k fs : Forall (fun f => wf_value (Field_Value f)) fs -> wf_node (MkNode k fs)
with wf_value : Value -> Prop :=
| WfValue v :
    v = payload_of (kind_of v) v ->
    (- 2 ^ 63 <= intValue v < 2 ^ 63)%Z ->
    (0 <= uintValue v < 2 ^ 64)%Z ->
    (forall n, nodeValue v = Some n -> wf_node n) ->
    Forall wf_value (listValue v) ->
    wf_value v.

(** ** Height of a tree, the measure of the recursive functions. *)
Fixpoint node_height (n : Node) : nat :=
  match n with
  | MkNode _ fs => S (max_list (map (fun f => match f with MkField _ v => value_height v end) fs))
  end
with value_height (v : Value) : nat :=
  match v with
  | MkValue _ _ _ _ _ _ _ n l =>
      S (max match n with Some n => node_height n | None => 0 end
             (max_list (map value_height l)))
  end.

Definition ptr_height (n : ptr Node) : nat :=
  match n with Some n => node_height n | None => 0 end.

(** The look-ups are abstractions: [cbn] must not open them. *)
Arguments Node_Field : simpl never.
Arguments Value_Node : simpl never.
Arguments Value_List : simpl never.

(** ** Lemmas *)
Lemma max_list_elem (x : nat) l : x ∈ l -> x <= max_list l.
Proof. induction 1; cbn; lia. Qed.

Lemma field_height n f :
  f ∈ Node_Fields (Some n) -> value_height (Field_Value f) < node_height n.
Proof.
  destruct n as [k fs]. cbn. intros H.
  enough (value_height (Field_Value f) <= max_list (map (fun f => match f with MkField _ v => value_height v end) fs))
    by lia.
  apply max_list_elem, list_elem_of_fmap. exists f. by destruct f.
Qed.

Lemma nodeValue_height v n : nodeValue v = Some n -> node_height n < value_height v.
Proof. destruct v. cbn. intros ->. lia. Qed.

Lemma listValue_height v x : x ∈ listValue v -> value_height x < value_height v.
Proof.
  destruct v. cbn. intros H.
  enough (value_height x <= max_list (map value_height listValue0)) by lia.
  apply max_list_elem, list_elem_of_fmap. by exists x.
Qed.

Lemma Node_Field_elem n name v :
  Node_Field n name = (v, true) -> exists m, n = Some m /\ MkField name v ∈ Node_Fields n.
Proof.
  unfold Node_Field. destruct n as [[k fs]|]; cbn; [|done]. intros H.
  exists (MkNode k fs). split; [done|].
  induction fs as [|[fn fv] fs IH]; cbn in *; [done|].
  case_decide; simplify_eq; [by left | right; auto].
Qed.

Lemma Node_Field_height n name v :
  Node_Field n name = (v, true) -> value_height v < ptr_height n.
Proof.
  intros H. destruct (Node_Field_elem _ _ _ H) as (m & -> & Hin).
  exact (field_height m _ Hin).
Qed.

Lemma Node_Field_false n name v : Node_Field n name = (v, false) -> v = zeroValue.
Proof.
  unfold Node_Field. destruct n as [[k fs]|]; cbn; [|by intros [= <-]].
  induction fs as [|[fn fv] fs IH]; cbn; [by intros [= <-]|].
  case_decide; [done | exact IH].
Qed.

Lemma Value_Node_true v n : Value_Node v = (n, true) -> nodeValue v = n /\ kind_of v = ValueNode.
Proof. unfold Value_Node. intros [= <- ?]. split; [done|]. by eapply bool_decide_eq_true. Qed.

Lemma Value_Node_height v n : Value_Node v = (n, true) -> ptr_height n < value_height v.
Proof.
  intros [H _]%Value_Node_true. destruct n as [n|]; [by apply nodeValue_height|].
  destruct v. cbn. lia.
Qed.

Lemma Value_List_true v l : Value_List v = (l, true) -> listValue v = l /\ kind_of v = ValueList.
Proof.
  unfold Value_List. case_bool_decide as H; intros [= <-]. split; [done|].
  destruct (decide (kind_of v = ValueList)); [done|contradiction].
Qed.

Lemma Value_List_height v l x : Value_List v = (l, true) -> x ∈ l -> value_height x < value_height v.
Proof. intros [<- _]%Value_List_true. apply listValue_height. Qed.
