(* ===== verification/Snapshots.v ===== *)
(** * Slices and snapshots: internal/parser/node.go and parser.go with a store

    Nodes.v takes trees as values.  In Go they are structs and backing arrays in memory,
    and a caller that gets a slice can write to its array.  Here the accessors work on a
    store; clients call them, write to every array they were given, and allocate.  The
    theorems say that no client can change a tree, so that Nodes.v describes what every
    caller sees at every moment. *)
From stdpp Require Import base gmap sets strings list relations.
From S2P Require Import Prelude.
From S2P Require Import GoFloat.
From S2P Require Import Nodes.

Abbreviation loc := nat.

(** A non-nil slice from the start of an array; [None] is the nil slice. *)
Record slice : Set := { s_array : loc; s_len : nat }.

(** The structs, with slices and pointers in place of lists and trees. *)
Record hvalue : Set := HValue {
  h_kind : ValueKind; h_bool : bool; h_int : Z; h_uint : Z; h_float : float64; h_string : string;
  h_bytes : option slice; h_node : option loc; h_list : option slice
}.

Record hfield : Set := { hf_name : string; hf_value : hvalue }.

Definition zero_hvalue : hvalue :=
  HValue ValueInvalid false 0 0 (SpecFloat.S754_zero false) "" None None None.

(** What is stored at a location. *)
Inductive cell : Set :=
| CNode (kind : string) (fields : option slice)
| CResult (statements : option slice)
| CFields (l : list hfield)
| CBytes (l : list Byte.byte)
| CValues (l : list hvalue)
| CNodes (l : list (option loc)).

Abbreviation store := (gmap loc cell).

(** Arrays of one element type. *)
Class Elem (T : Type) : Type := {
  array : list T -> cell;
  elements_of : cell -> option (list T);
  zero_elem : T;
  elements_array l : elements_of (array l) = Some l
}.

#[export, refine] Instance elem_field : Elem hfield := {|
  array := CFields;
  elements_of c := match c with CFields l => Some l | _ => None end;
  zero_elem := {| hf_name := ""; hf_value := zero_hvalue |}
|}.
Proof. done. Defined.

#[export, refine] Instance elem_byte : Elem Byte.byte := {|
  array := CBytes;
  elements_of c := match c with CBytes l => Some l | _ => None end;
  zero_elem := Byte.x00
|}.
Proof. done. Defined.

#[export, refine] Instance elem_value : Elem hvalue := {|
  array := CValues;
  elements_of c := match c with CValues l => Some l | _ => None end;
  zero_elem := zero_hvalue
|}.
Proof. done. Defined.

#[export, refine] Instance elem_node : Elem (option loc) := {|
  array := CNodes;
  elements_of c := match c with CNodes l => Some l | _ => None end;
  zero_elem := None
|}.
Proof. done. Defined.

(** The elements of a slice. *)
Definition read `{Elem T} (h : store) (s : option slice) : list T :=
  match s with
  | None => []
  | Some s =>
      match h !! s_array s with
      | Some c => match elements_of c with Some l => take (s_len s) l | None => [] end
      | None => []
      end
  end.

Section accessors.
(** The allocator's size classes: the capacity given to an array of some length. *)
Context (round_up : nat -> nat).

(** [append([]T(nil), xs...)]: nil when there is nothing to append, and otherwise a fresh
    array with the elements, up to its capacity filled with zero values. *)
Definition append_nil `{Elem T} (xs : list T) (h : store) : option slice * store :=
  match xs with
  | [] => (None, h)
  | _ =>
      let a := fresh (dom h) in
      (Some {| s_array := a; s_len := length xs |},
       <[a := array (xs ++ replicate (round_up (length xs) - length xs) zero_elem)]> h)
  end.

(** [Fields] of a *Node. *)
Definition hFields (n : option loc) (h : store) : option slice * store :=
  match n with
  | None => (None, h)
  | Some l =>
      match h !! l with
      | Some (CNode _ fields) => append_nil (T:=hfield) (read h fields) h
      | _ => (None, h)
      end
  end.

(** [Bytes] and [List] of a Value. *)
Definition hBytes (v : hvalue) (h : store) : option slice * bool * store :=
  if bool_decide (h_kind v <> ValueBytes) then (None, false, h)
  else let '(s, h') := append_nil (T:=Byte.byte) (read h (h_bytes v)) h in (s, true, h').

Definition hList (v : hvalue) (h : store) : option slice * bool * store :=
  if bool_decide (h_kind v <> ValueList) then (None, false, h)
  else let '(s, h') := append_nil (T:=hvalue) (read h (h_list v)) h in (s, true, h').

(** [Statements] of a *Result. *)
Definition hStatements (r : option loc) (h : store) : option slice * store :=
  match r with
  | None => (None, h)
  | Some l =>
      match h !! l with
      | Some (CResult statements) => append_nil (T:=option loc) (read h statements) h
      | _ => (None, h)
      end
  end.

(** [Field] of a *Node: the value struct is copied, its arrays are shared. *)
Definition hField (n : option loc) (name : string) (h : store) : hvalue * bool :=
  match n with
  | None => (zero_hvalue, false)
  | Some l =>
      match h !! l with
      | Some (CNode _ fields) =>
          match find_first (fun f => if decide (hf_name f = name) then Some (hf_value f) else None)
                  (read h fields) with
          | Some v => (v, true)
          | None => (zero_hvalue, false)
          end
      | _ => (zero_hvalue, false)
      end
  end.

(** [Node] of a Value. *)
Definition hNode (v : hvalue) : option loc * bool := (h_node v, bool_decide (h_kind v = ValueNode)).

(** ** Clients

    The store, and the arrays that clients can write to. *)
Record client : Type := { c_store : store; c_owned : gset loc }.

Definition own (s : option slice) (owned : gset loc) : gset loc :=
  match s with None => owned | Some s => {[s_array s]} ∪ owned end.

(** Clients call accessors on any pointer and any value, write whatever they like to the
    arrays they were given, and allocate arrays of their own. *)
Inductive client_step (c : client) : client -> Prop :=
| client_Fields n s h :
    hFields n (c_store c) = (s, h) -> client_step c {| c_store := h; c_owned := own s (c_owned c) |}
| client_Bytes v s b h :
    hBytes v (c_store c) = (s, b, h) -> client_step c {| c_store := h; c_owned := own s (c_owned c) |}
| client_List v s b h :
    hList v (c_store c) = (s, b, h) -> client_step c {| c_store := h; c_owned := own s (c_owned c) |}
| client_Statements r s h :
    hStatements r (c_store c) = (s, h) -> client_step c {| c_store := h; c_owned := own s (c_owned c) |}
| client_write l x :
    l ∈ c_owned c -> client_step c {| c_store := <[l := x]> (c_store c); c_owned := c_owned c |}
| client_alloc l x :
    l ∉ dom (c_store c) -> client_step c {| c_store := <[l := x]> (c_store c); c_owned := {[l]} ∪ c_owned c |}.
End accessors.

(** ** Which trees the store holds *)

(** The slice has these elements, in an array that exists. *)
Definition holds `{Elem T} (h : store) (s : option slice) (xs : list T) : Prop :=
  match s with
  | None => xs = []
  | Some s => exists l, h !! s_array s = Some (array l) /\ s_len s <= length l /\ xs = take (s_len s) l
  end.

Inductive node_at (h : store) : loc -> Node -> Prop :=
| NodeAt l kind fs hfs fields :
    h !! l = Some (CNode kind fs) -> holds h fs hfs -> Forall2 (field_at h) hfs fields ->
    node_at h l (MkNode kind fields)
with field_at (h : store) : hfield -> Field -> Prop :=
| FieldAt name hv v : value_at h hv v -> field_at h {| hf_name := name; hf_value := hv |} (MkField name v)
with value_at (h : store) : hvalue -> Value -> Prop :=
| ValueAt k b i u f s bs bytes n node l hvs list_ :
    holds h bs bytes -> ptr_at h n node -> holds h l hvs -> Forall2 (value_at h) hvs list_ ->
    value_at h (HValue k b i u f s bs n l) (MkValue k b i u f s bytes node list_)
with ptr_at (h : store) : option loc -> ptr Node -> Prop :=
| NilAt : ptr_at h None None
| PtrAt l n : node_at h l n -> ptr_at h (Some l) (Some n).

(** A result and its statements. *)
Definition result_at (h : store) (l : loc) (r : Result) : Prop :=
  exists s ps, h !! l = Some (CResult s) /\ holds h s ps /\ Forall2 (ptr_at h) ps (result_statements r).

(** ** Lemmas *)
Lemma holds_mono `{Elem T} (h h' : store) s (xs : list T) : h ⊆ h' -> holds h s xs -> holds h' s xs.
Proof.
  intros Hsub. destruct s as [s|]; [|done]. intros (l & Hl & Hlen). exists l.
  split; [by eapply lookup_weaken | done].
Qed.

Lemma holds_read `{Elem T} (h : store) s (xs : list T) : holds h s xs -> read h s = xs.
Proof.
  destruct s as [s|]; cbn; [|done]. intros (l & -> & _ & ->). by rewrite elements_array.
Qed.

Section mono.
Context (h h' : store) (Hsub : h ⊆ h').

Lemma node_at_mono : forall l n, node_at h l n -> node_at h' l n
with field_at_mono : forall hf f, field_at h hf f -> field_at h' hf f
with value_at_mono : forall hv v, value_at h hv v -> value_at h' hv v
with ptr_at_mono : forall p n, ptr_at h p n -> ptr_at h' p n.
Proof.
  - intros l n [l' kind fs hfs fields Hl Hfs Hall].
    apply (NodeAt h' l' kind fs hfs fields); [by eapply lookup_weaken | by eapply holds_mono |].
    clear Hfs. induction Hall as [|hf f hfs fields Hf _ IH]; constructor; [by apply field_at_mono | done].
  - intros hf f [name hv v Hv]. constructor. by apply value_at_mono.
  - intros hv v [k b i u f s bs bytes p node l hvs list_ Hb Hp Hl Hall].
    apply (ValueAt h' k b i u f s bs bytes p node l hvs list_);
      [by eapply holds_mono | by apply ptr_at_mono | by eapply holds_mono |].
    clear Hl. induction Hall as [|x y xs ys Hx _ IH]; constructor; [by apply value_at_mono | done].
  - intros p n [|l n' Hn]; constructor. by apply node_at_mono.
Qed.

Lemma ptrs_at_mono ps ns : Forall2 (ptr_at h) ps ns -> Forall2 (ptr_at h') ps ns.
Proof. intros H. eapply Forall2_impl; [exact H|]. apply ptr_at_mono. Qed.

Lemma result_at_mono l r : result_at h l r -> result_at h' l r.
Proof.
  intros (s & ps & Hl & Hs & Hall). exists s, ps.
  split; [by eapply lookup_weaken|]. split; [by eapply holds_mono | by eapply ptrs_at_mono].
Qed.
End mono.

Section clients.
Context (round_up : nat -> nat).

(** A snapshot is new, holds the elements, and leaves everything else alone. *)
Lemma append_nil_spec `{Elem T} (xs : list T) h s h' :
  append_nil round_up xs h = (s, h') ->
  h ⊆ h' /\ holds h' s xs /\ (forall sl, s = Some sl -> s_array sl ∉ dom h).
Proof.
  unfold append_nil. destruct xs as [|x xs]; intros Heq; injection Heq as <- <-; [done|].
  assert (fresh (dom h) ∉ dom h) as Hfresh by apply is_fresh. split_and!.
  - apply insert_subseteq. by apply not_elem_of_dom.
  - eexists. cbn [s_array s_len]. rewrite lookup_insert_eq. split; [done|].
    split; [cbn; rewrite length_app; lia|]. exact (eq_sym (take_app_length (x :: xs) _)).
  - by intros sl [= <-].
Qed.

(** What an accessor does: nothing, or a snapshot in a new array. *)
Definition snapshot (h : store) (s : option slice) (h' : store) : Prop :=
  h ⊆ h' /\ forall sl, s = Some sl -> (s_array sl ∉ dom h) /\ s_array sl ∈ dom h'.

Lemma snapshot_none h : snapshot h None h.
Proof. by split. Qed.

Lemma snapshot_append_nil `{Elem T} (xs : list T) h s h' : append_nil round_up xs h = (s, h') -> snapshot h s h'.
Proof.
  intros (Hsub & Hs & Hnew)%append_nil_spec. split; [done|]. intros sl ->. split; [by apply Hnew|].
  destruct Hs as (l & Hl & _). apply elem_of_dom. by eexists.
Qed.

Lemma hFields_spec n h s h' : hFields round_up n h = (s, h') -> snapshot h s h'.
Proof.
  unfold hFields. destruct n as [l|]; [|intros [= <- <-]; apply snapshot_none].
  destruct (h !! l) as [[]|]; try (intros [= <- <-]; apply snapshot_none). apply snapshot_append_nil.
Qed.

Lemma hBytes_spec v h s b h' : hBytes round_up v h = (s, b, h') -> snapshot h s h'.
Proof.
  unfold hBytes. case_bool_decide; [intros [= <- <- <-]; apply snapshot_none|].
  destruct (append_nil _ _ _) as [s' h1] eqn:Ha. intros [= <- <- <-]. exact (snapshot_append_nil _ _ _ _ Ha).
Qed.

Lemma hList_spec v h s b h' : hList round_up v h = (s, b, h') -> snapshot h s h'.
Proof.
  unfold hList. case_bool_decide; [intros [= <- <- <-]; apply snapshot_none|].
  destruct (append_nil _ _ _) as [s' h1] eqn:Ha. intros [= <- <- <-]. exact (snapshot_append_nil _ _ _ _ Ha).
Qed.

Lemma hStatements_spec r h s h' : hStatements round_up r h = (s, h') -> snapshot h s h'.
Proof.
  unfold hStatements. destruct r as [l|]; [|intros [= <- <-]; apply snapshot_none].
  destruct (h !! l) as [[]|]; try (intros [= <- <-]; apply snapshot_none). apply snapshot_append_nil.
Qed.

(** What clients cannot change: a part of the store that they own nothing of. *)
Definition protected (h0 : store) (c : client) : Prop := h0 ⊆ c_store c /\ c_owned c ## dom h0.

Lemma protected_snapshot h0 c s h :
  protected h0 c -> snapshot (c_store c) s h -> protected h0 {| c_store := h; c_owned := own s (c_owned c) |}.
Proof.
  intros [Hsub Hdis] [Hh Hnew]. split; cbn; [by etrans|].
  destruct s as [sl|]; cbn; [|done]. destruct (Hnew sl eq_refl).
  pose proof (subseteq_dom _ _ Hsub). set_solver.
Qed.

(** Every step of a client is a snapshot that it owns, or a write to what it owns, or an
    allocation. *)
Lemma client_step_cases c c' :
  client_step round_up c c' ->
  (exists s h, snapshot (c_store c) s h /\ c' = {| c_store := h; c_owned := own s (c_owned c) |}) \/
  (exists l x, (l ∈ c_owned c) /\ c' = {| c_store := <[l := x]> (c_store c); c_owned := c_owned c |}) \/
  (exists l x, (l ∉ dom (c_store c)) /\ c' = {| c_store := <[l := x]> (c_store c); c_owned := {[l]} ∪ c_owned c |}).
Proof.
  intros [n s h Hc|v s b h Hc|v s b h Hc|r s h Hc|l x Hl|l x Hl]; [left..|right; left|right; right]; eexists _, _;
    (split; [|reflexivity]);
    first [exact (hFields_spec _ _ _ _ Hc) | exact (hBytes_spec _ _ _ _ _ Hc) | exact (hList_spec _ _ _ _ _ Hc)
          | exact (hStatements_spec _ _ _ _ Hc) | exact Hl].
Qed.

Lemma client_step_protected h0 c c' :
  protected h0 c -> client_step round_up c c' -> protected h0 c'.
Proof.
  intros Hp [(s & h & Hs & ->)|[(l & x & Hl & ->)|(l & x & Hl & ->)]]%client_step_cases; [by apply protected_snapshot| |];
    destruct Hp as [Hsub Hdis]; pose proof (subseteq_dom _ _ Hsub); (split; cbn; [|set_solver]);
    (apply insert_subseteq_r; [|done]); apply not_elem_of_dom; set_solver.
Qed.

(** Clients own only what exists. *)
Lemma client_step_owned c c' :
  c_owned c ⊆ dom (c_store c) -> client_step round_up c c' -> c_owned c' ⊆ dom (c_store c').
Proof.
  intros Ho [(s & h & [Hsub Hnew] & ->)|[(l & x & Hl & ->)|(l & x & Hl & ->)]]%client_step_cases; cbn.
  - pose proof (subseteq_dom _ _ Hsub). destruct s as [sl|]; cbn; [destruct (Hnew sl eq_refl)|]; set_solver.
  - rewrite dom_insert_L. set_solver.
  - rewrite dom_insert_L. set_solver.
Qed.

Lemma clients_protected h0 c c' :
  protected h0 c -> rtc (client_step round_up) c c' -> protected h0 c'.
Proof. intros Hp Hr. revert Hp. induction Hr; intros Hp; [done|]. eauto using client_step_protected. Qed.

(** The scan of [Field] finds what the scan of Nodes.v finds. *)
Lemma scan_field h hfs fields name :
  Forall2 (field_at h) hfs fields ->
  match find_first (fun f => if decide (hf_name f = name) then Some (hf_value f) else None) hfs with
  | Some v => exists v', Node_Field (Some (MkNode "" fields)) name = (v', true) /\ value_at h v v'
  | None => Node_Field (Some (MkNode "" fields)) name = (zeroValue, false)
  end.
Proof.
  induction 1 as [|hf f hfs fields [n hv v Hv] _ IH]; cbn; [done|].
  destruct (decide (n = name)) as [Heq|Hne].
  - exists v. split; [|done]. unfold Node_Field. cbn. by rewrite decide_True.
  - unfold Node_Field in *. cbn. by rewrite decide_False.
Qed.

(** [Field] and [Node] find what they find in Nodes.v. *)
Lemma hField_at h p n name :
  ptr_at h p n ->
  (hField p name h).2 = (Node_Field n name).2 /\
  ((hField p name h).2 = true -> value_at h (hField p name h).1 (Node_Field n name).1).
Proof.
  intros [|l node [l' kind fs hfs fields Hl Hfs Hall]]; [done|].
  unfold hField. rewrite Hl, (holds_read _ _ _ Hfs). pose proof (scan_field h hfs fields name Hall) as Hscan.
  change (Node_Field (Some (MkNode "" fields)) name) with (Node_Field (Some (MkNode kind fields)) name) in Hscan.
  destruct (find_first _ hfs) as [x|]; [destruct Hscan as (v0 & -> & Hv0) | rewrite Hscan]; by split.
Qed.

Lemma hNode_at h hv v :
  value_at h hv v -> (hNode hv).2 = (Value_Node v).2 /\ ptr_at h (hNode hv).1 (Value_Node v).1.
Proof. by intros []. Qed.
End clients.

(** ** Properties *)
Section properties.
Context (round_up : nat -> nat).

(** No client can change a tree: whatever accessors it calls, whatever it writes to the
    slices it was given, up to their capacity, and whatever it allocates, every node and
    result that the store held before is held unchanged. *)
Theorem clients_cannot_mutate h0 c c' :
  protected h0 c -> rtc (client_step round_up) c c' ->
  (forall l n, node_at h0 l n -> node_at (c_store c') l n) /\
  (forall v v', value_at h0 v v' -> value_at (c_store c') v v') /\
  (forall l r, result_at h0 l r -> result_at (c_store c') l r).
Proof.
  intros Hp Hr. destruct (clients_protected round_up h0 c c' Hp Hr) as [Hsub _]. split_and!.
  - intros l n. by apply node_at_mono.
  - intros v v'. by apply value_at_mono.
  - intros l r. by apply result_at_mono.
Qed.

(** The accessors on the store refine those of Nodes.v: on a node, a value or a result
    that is held, each returns a new slice, or the shared value, with exactly the elements
    of the tree, and the same flag. *)
Theorem accessors_refine h l n v v' r lr name :
  node_at h l n -> value_at h v v' -> result_at h lr r ->
  (let '(s, h') := hFields round_up (Some l) h in
   exists xs, holds h' s xs /\ Forall2 (field_at h') xs (Node_Fields (Some n))) /\
  (let '(s, b, h') := hBytes round_up v h in holds h' s (Value_Bytes v').1 /\ b = (Value_Bytes v').2) /\
  (let '(s, b, h') := hList round_up v h in
   exists xs, holds h' s xs /\ Forall2 (value_at h') xs (Value_List v').1 /\ b = (Value_List v').2) /\
  (let '(s, h') := hStatements round_up (Some lr) h in
   exists xs, holds h' s xs /\ Forall2 (ptr_at h') xs (Statements (Some r))) /\
  (let '(x, b) := hField (Some l) name h in
   b = (Node_Field (Some n) name).2 /\ (b = true -> value_at h x (Node_Field (Some n) name).1)).
Proof.
  intros Hn Hv Hr. split_and!.
  - destruct Hn as [l kind fs hfs fields Hl Hfs Hall]. unfold hFields. rewrite Hl.
    rewrite (holds_read _ _ _ Hfs). destruct (append_nil _ _ _) as [s h'] eqn:Ha.
    apply append_nil_spec in Ha as (Hsub & Hs & _). exists hfs. split; [done|].
    eapply Forall2_impl; [exact Hall|]. by apply field_at_mono.
  - destruct Hv as [k b i u f s bs bytes p node l' hvs list_ Hb _ _ _]. unfold hBytes, Value_Bytes.
    cbn [h_kind h_bytes kind_of bytesValue]. case_bool_decide; [by split|].
    rewrite (holds_read _ _ _ Hb). destruct (append_nil _ _ _) as [s' h'] eqn:Ha.
    by apply append_nil_spec in Ha as (_ & Hs & _).
  - destruct Hv as [k b i u f s bs bytes p node l' hvs list_ _ _ Hl' Hall]. unfold hList, Value_List.
    cbn [h_kind h_list kind_of listValue]. case_bool_decide; [exists []; by repeat constructor|].
    rewrite (holds_read _ _ _ Hl'). destruct (append_nil _ _ _) as [s' h'] eqn:Ha.
    apply append_nil_spec in Ha as (Hsub & Hs & _). exists hvs. split_and!; [done| |done].
    eapply Forall2_impl; [exact Hall|]. by apply value_at_mono.
  - destruct Hr as (s & ps & Hl & Hs & Hall). unfold hStatements. rewrite Hl.
    rewrite (holds_read _ _ _ Hs). destruct (append_nil _ _ _) as [s' h'] eqn:Ha.
    apply append_nil_spec in Ha as (Hsub & Hs' & _). exists ps. destruct r. split; [done|].
    by eapply ptrs_at_mono.
  - destruct (hField_at h (Some l) (Some n) name) as [? ?]; [by constructor|]. by destruct (hField _ _ _).
Qed.
End properties.
