(* ===== verification/HeapBuild.v ===== *)
(** * Slices in the store: building them and looping over them

    [make([]T, 0, n)], [append], and the loop that converts elements one by one and
    appends what they give: the pattern of internal/parser/pgquery.go and of [Children] in
    statement.go.  The range loops read each element when its turn comes, from the store as
    it is then: the pattern of traversal.go and of the walk in statement.go. *)
From stdpp Require Import base gmap sets strings list.
From S2P Require Import Prelude.
From S2P Require Import Snapshots.

Section build.
Context (round_up : nat -> nat).

(** [make([]T, 0, n)]. *)
Definition make_slice (T : Type) `{Elem T} (n : nat) : M store (option slice) := fun h =>
  let a := fresh (dom h) in
  (Ret (Some {| s_array := a; s_len := 0 |}), <[a := array (replicate n zero_elem)]> h).

(** [append(s, x)]: in place up to the capacity, and otherwise in a new array. *)
Definition append_one `{Elem T} (s : option slice) (x : T) : M store (option slice) := fun h =>
  match s with
  | None => let '(s', h') := append_nil round_up [x] h in (Ret s', h')
  | Some sl =>
      match h !! s_array sl ≫= elements_of with
      | None => (Ret s, h)
      | Some l =>
          if s_len sl <? length l then
            (Ret (Some {| s_array := s_array sl; s_len := S (s_len sl) |}),
             <[s_array sl := array (<[s_len sl := x]> l)]> h)
          else let '(s', h') := append_nil round_up (take (s_len sl) l ++ [x]) h in (Ret s', h')
      end
  end.

(** [new(T)] with these contents: a fresh cell. *)
Definition new_cell (c : cell) : M store (option loc) := fun h =>
  let l := fresh (dom h) in (Ret (Some l), <[l := c]> h).

(** [for _, x := range xs { if t, ok := f(x); ok { s = append(s, t) } }; return s]. *)
Fixpoint build `{Elem T} {X} (f : X -> M store (option T)) (xs : list X) (s : option slice) : M store (option slice) :=
  match xs with
  | [] => mret s
  | x :: xs' =>
      t ← f x;
      match t with
      | Some t => s' ← append_one s t; build f xs' s'
      | None => build f xs' s
      end
  end.

End build.

(** ** Loops over slices *)
Definition element `{Elem T} (h : store) (s : option slice) (i : nat) : option T :=
  match s with
  | None => None
  | Some s =>
      if i <? s_len s then
        match h !! s_array s ≫= elements_of with Some l => l !! i | None => None end
      else None
  end.

Definition slice_len (s : option slice) : nat := match s with Some s => s_len s | None => 0 end.

Section range.
Context `{Elem T} {St : Type} (mem : St -> store).

(** [for _, x := range s { acc = body(acc, x) }] from the index [i], [k] elements. *)
Fixpoint fold_from {A} (s : option slice) (i k : nat) (body : A -> T -> M St A) (acc : A) : M St A :=
  match k with
  | O => mret acc
  | S k' => fun st =>
      match element (mem st) s i with
      | None => (Panic "index out of range", st)
      | Some x => (acc' ← body acc x; fold_from s (S i) k' body acc') st
      end
  end.

Definition range_fold {A} (s : option slice) (body : A -> T -> M St A) (acc : A) : M St A :=
  fold_from s 0 (slice_len s) body acc.

(** The same with a body that may return from the enclosing function. *)
Fixpoint range_from {R} (s : option slice) (i k : nat) (body : T -> M St (option R)) : M St (option R) :=
  match k with
  | O => mret None
  | S k' => fun st =>
      match element (mem st) s i with
      | None => (Panic "index out of range", st)
      | Some x => (r ← body x; match r with Some v => mret (Some v) | None => range_from s (S i) k' body end) st
      end
  end.

Definition range_slice {R} (s : option slice) (body : T -> M St (option R)) : M St (option R) :=
  range_from s 0 (slice_len s) body.
End range.

(** ** Lemmas: loops *)
Lemma element_holds `{Elem T} (h : store) s (xs : list T) i : holds h s xs -> element h s i = xs !! i.
Proof.
  destruct s as [s|]; cbn [holds element]; [|by intros ->]. intros (l & -> & Hlen & ->). cbn [mbind option_bind].
  rewrite elements_array. destruct (Nat.ltb_spec i (s_len s)).
  - by rewrite lookup_take_lt.
  - rewrite lookup_take_ge by lia. done.
Qed.

Lemma slice_len_holds `{Elem T} (h : store) s (xs : list T) : holds h s xs -> slice_len s = length xs.
Proof.
  destruct s as [s|]; cbn; [|by intros ->]. intros (l & _ & Hlen & ->). rewrite length_take. lia.
Qed.

(** The next iteration, when the array is still there. *)
Lemma element_next `{Elem T} (hb h : store) s (xs : list T) i x rest :
  holds hb s xs -> hb ⊆ h -> drop i xs = x :: rest -> element h s i = Some x /\ drop (S i) xs = rest.
Proof.
  intros Hs Hsub Hd. rewrite (element_holds h s xs) by (by eapply holds_mono). split.
  - rewrite <- (Nat.add_0_r i), <- lookup_drop, Hd. done.
  - rewrite <- (Nat.add_1_r i), <- drop_drop, Hd. done.
Qed.

(** A loop whose body keeps the array. *)
Lemma range_fold_run `{Elem T} {St A} (mem : St -> store) (P : list T -> A -> St -> Prop) hb s xs
    (body : A -> T -> M St A) acc st :
  holds hb s xs -> (forall rest acc st, P rest acc st -> hb ⊆ mem st) ->
  (forall x rest acc st, x ∈ xs -> P (x :: rest) acc st -> exists acc' st', body acc x st = (Ret acc', st') /\ P rest acc' st') ->
  P xs acc st -> exists acc' st', range_fold mem s body acc st = (Ret acc', st') /\ P [] acc' st'.
Proof.
  intros Hs Hsub Hbody HP. unfold range_fold. rewrite (slice_len_holds hb s xs Hs).
  assert (forall rest i acc st, drop i xs = rest -> P rest acc st -> exists acc' st',
    fold_from mem s i (length rest) body acc st = (Ret acc', st') /\ P [] acc' st') as Hfrom; [|by apply (Hfrom xs 0)].
  clear acc st HP. induction rest as [|x rest IH]; intros i acc st Hd HP; cbn [length fold_from]; [by eauto|].
  destruct (element_next hb (mem st) s xs i x rest) as [-> Hd']; [done | by eapply Hsub | done |].
  destruct (Hbody x rest acc st) as (acc1 & st1 & Hrun & HP1); [|done|].
  { rewrite <- (take_drop i xs), Hd. apply elem_of_app. right. left. }
  rewrite (bind_Ret _ _ _ _ _ Hrun). by apply IH.
Qed.

(** ** Lemmas: stores *)
Lemma difference_mono (h1 h2 k1 k2 : store) : h1 ⊆ h2 -> k2 ⊆ k1 -> h1 ∖ k1 ⊆ h2 ∖ k2.
Proof.
  intros Hh Hk. apply map_subseteq_spec. intros i x.
  rewrite !lookup_difference_Some. intros [Hx Hn]. split; [by eapply lookup_weaken|].
  destruct (k2 !! i) eqn:Hi; [|done]. eapply lookup_weaken in Hi; [|exact Hk]. congruence.
Qed.

(** What is new after [h2] is new after [h1], and not at a place that [h2] has. *)
Lemma difference_later (h0 h1 h2 : store) a :
  h0 ⊆ h1 -> h1 ⊆ h2 -> is_Some (h1 !! a) -> h2 ∖ h1 ⊆ delete a h2 ∖ h0.
Proof.
  intros H01 H12 [c Ha]. apply map_subseteq_spec. intros i x.
  rewrite !lookup_difference_Some. intros [Hx Hn].
  assert (i <> a) by congruence. split; [by rewrite lookup_delete_ne|].
  destruct (h0 !! i) eqn:Hi; [|done]. eapply lookup_weaken in Hi; [|exact H01]. congruence.
Qed.

Lemma insert_take_replicate {T} (xs : list T) (x z : T) k :
  (<[length xs := x]> (xs ++ replicate (S k) z)) = (xs ++ [x]) ++ replicate k z.
Proof.
  rewrite insert_app_r_alt by lia. rewrite Nat.sub_diag. cbn. by rewrite <- app_assoc.
Qed.

(** An element and what it stands for, if anything. *)
Definition both_options {A B} (R : A -> B -> Prop) (a : option A) (b : option B) : Prop :=
  match a, b with Some a, Some b => R a b | None, None => True | _, _ => False end.

(** A computation that only adds to the store, whose result holds in what it added. *)
Definition adds {A B} (R : store -> A -> B -> Prop) (m : M store A) (b : B) (h : store) : Prop :=
  exists x h', m h = (Ret x, h') /\ h ⊆ h' /\ R (h' ∖ h) x b.

(** A slice in a new array holds in what was added. *)
Lemma holds_new `{Elem T} (h h' : store) s (xs : list T) :
  holds h' s xs -> (forall sl, s = Some sl -> s_array sl ∉ dom h) -> holds (h' ∖ h) s xs.
Proof.
  destruct s as [sl|]; [|done]. intros (l & Hl & Hlen) Hnew. exists l. split; [|done].
  apply lookup_difference_Some. split; [done|]. apply not_elem_of_dom. by apply Hnew.
Qed.

(** [make] with a capacity: an empty slice of a new array. *)
Lemma make_slice_spec T `{Elem T} n h :
  exists s h', make_slice T n h = (Ret s, h') /\ h ⊆ h' /\ holds (h' ∖ h) s ([] : list T).
Proof.
  eexists _, _. split; [done|]. assert (fresh (dom h) ∉ dom h) as Hf by apply is_fresh.
  split; [apply insert_subseteq; by apply not_elem_of_dom|].
  exists (replicate n zero_elem). cbn [s_array s_len]. split; [|split; [lia | done]].
  apply lookup_difference_Some. split; [by apply lookup_insert_eq | by apply not_elem_of_dom].
Qed.

Section built.
Context (round_up : nat -> nat).
#[local] Abbreviation append_one := (append_one round_up).
#[local] Abbreviation build := (build round_up).

(** Appending to a slice that was built since [h0]. *)
Lemma append_one_built `{Elem T} (h0 h : store) s (ts : list T) t :
  h0 ⊆ h -> holds (h ∖ h0) s ts ->
  exists s' h', append_one s t h = (Ret s', h') /\ h0 ⊆ h' /\ holds (h' ∖ h0) s' (ts ++ [t]).
Proof.
  assert (forall xs, h0 ⊆ h -> exists s' h', (let '(s', h') := append_nil round_up xs h in (Ret s', h')) = (Ret s', h') /\
    h0 ⊆ h' /\ holds (h' ∖ h0) s' xs) as Hnew.
  { intros xs H0. destruct (append_nil round_up xs h) as [s' h'] eqn:Ha. exists s', h'. split; [done|].
    apply append_nil_spec in Ha as (Hsub & Hs & Hn). split; [by etrans|].
    eapply holds_mono; [|by apply (holds_new h)]. by apply difference_mono. }
  intros H0 Hs. unfold HeapBuild.append_one. destruct s as [sl|]; [|cbn in Hs; subst ts; by apply Hnew].
  destruct Hs as (l & [Hl H0l]%lookup_difference_Some & Hlen & ->). rewrite Hl. cbn [mbind option_bind].
  rewrite elements_array. destruct (Nat.ltb_spec (s_len sl) (length l)); [|by apply Hnew].
  eexists _, _. split; [done|]. split; [apply insert_subseteq_r; done|].
  exists (<[s_len sl := t]> l). cbn [s_array s_len]. split_and!.
  - apply lookup_difference_Some. by rewrite lookup_insert_eq.
  - rewrite length_insert. lia.
  - rewrite (take_S_r _ _ t) by (by apply list_lookup_insert_eq). by rewrite take_insert_ge.
Qed.

Section loop.
Context `{Elem T} {X V : Type} (R : store -> T -> V -> Prop) (f : X -> M store (option T)) (g : X -> option V).
Context (R_mono : forall h h' t v, h ⊆ h' -> R h t v -> R h' t v).
Context (h0 : store).

(** The slice under construction: its array is new, has the elements so far and room for
    [k] more, and everything else that was added supports the elements. *)
Definition building (a : loc) (k : nat) (vs : list V) (s : option slice) (h : store) : Prop :=
  exists ts, s = Some {| s_array := a; s_len := length ts |} /\
    (a ∉ dom h0) /\ h0 ⊆ h /\ h !! a = Some (array (ts ++ replicate k zero_elem)) /\
    Forall2 (R (delete a h ∖ h0)) ts vs.

Lemma Forall2_R_mono h h' ts vs : h ⊆ h' -> Forall2 (R h) ts vs -> Forall2 (R h') ts vs.
Proof. intros Hh Hall. eapply Forall2_impl; [exact Hall|]. intros t v. by apply R_mono. Qed.

Lemma building_append a k vs s h t v :
  building a (S k) vs s h -> R (delete a h ∖ h0) t v ->
  exists s' h', append_one s t h = (Ret s', h') /\ building a k (vs ++ [v]) s' h' /\ delete a h = delete a h'.
Proof.
  intros (ts & -> & Ha & Hh & Hcell & Hall) Ht. unfold append_one. cbn [s_array s_len].
  rewrite Hcell. cbn [mbind option_bind]. rewrite elements_array, length_app, length_replicate.
  rewrite (proj2 (Nat.ltb_lt _ _)) by lia. eexists _, _. split; [done|].
  assert (delete a h = delete a (<[a:=array (<[length ts:=t]> (ts ++ replicate (S k) zero_elem))]> h)) as Hd
    by (symmetry; apply delete_insert_eq).
  split; [|done]. exists (ts ++ [t]). split_and!.
  - rewrite length_app. cbn. by rewrite Nat.add_1_r.
  - done.
  - apply insert_subseteq_r; [by apply not_elem_of_dom | done].
  - by rewrite lookup_insert_eq, insert_take_replicate.
  - rewrite <- Hd. apply Forall2_app; [done|]. by constructor.
Qed.

Lemma building_keeps a k vs s h h' :
  building a k vs s h -> h ⊆ h' -> building a k vs s h'.
Proof.
  intros (ts & -> & Ha & Hh & Hcell & Hall) Hsub. exists ts. split_and!; [done|done|by etrans| |].
  - by eapply lookup_weaken.
  - eapply Forall2_R_mono; [|exact Hall]. apply difference_mono; [by apply delete_mono | done].
Qed.

Lemma build_loop xs a k vs s h :
  (forall x h, x ∈ xs -> h0 ⊆ h -> adds (fun d => both_options (R d)) (f x) (g x) h) ->
  building a (length xs + k) vs s h ->
  exists s' h' k', build f xs s h = (Ret s', h') /\ building a k' (vs ++ omap g xs) s' h' /\ delete a h ⊆ delete a h'.
Proof.
  revert k vs s h. induction xs as [|x xs IH]; intros k vs s h Hf Hb.
  - exists s, h, k. cbn. by rewrite app_nil_r.
  - assert (h0 ⊆ h /\ is_Some (h !! a)) as [Hh0 Ha] by (destruct Hb as (? & ? & ? & ? & ? & ?); eauto).
    destruct (Hf x h) as (t & h1 & Hrun & Hsub & HR); [left | done|].
    pose proof (building_keeps _ _ _ _ _ _ Hb Hsub) as Hb1.
    assert (forall y h, y ∈ xs -> h0 ⊆ h -> adds (fun d => both_options (R d)) (f y) (g y) h) as Hf'
      by (intros y h' Hy; apply Hf; by right).
    cbn [build]. rewrite (bind_Ret _ _ _ _ _ Hrun). cbn [omap list_omap].
    destruct t as [t|], (g x) as [v|] eqn:Hgx; try done; cbn [both_options] in HR.
    + destruct (building_append a (length xs + k) vs s h1 t v) as (s2 & h2 & Happ & Hb2 & Hd).
      { exact Hb1. }
      { eapply R_mono; [|exact HR]. by apply difference_later. }
      rewrite (bind_Ret _ _ _ _ _ Happ).
      destruct (IH k _ _ _ Hf' Hb2) as (s' & h' & k' & Hrun' & Hb' & Hd'). exists s', h', k'.
      split; [done|]. split; [by rewrite <- app_assoc in Hb'|].
      etrans; [|exact Hd']. rewrite <- Hd. by apply delete_mono.
    + destruct (IH (S k) vs s h1 Hf') as (s' & h' & k' & Hrun' & Hb' & Hd').
      { by rewrite Nat.add_succ_r. }
      exists s', h', k'. split; [done|]. split; [done|]. etrans; [|exact Hd']. by apply delete_mono.
Qed.
End loop.

(** [make] and the loop: a new slice that holds the elements. *)
Lemma make_build `{Elem T} {X V} (R : store -> T -> V -> Prop) (f : X -> M store (option T)) (g : X -> option V) xs h :
  (forall h h' t v, h ⊆ h' -> R h t v -> R h' t v) ->
  (forall x h', x ∈ xs -> h ⊆ h' -> adds (fun d => both_options (R d)) (f x) (g x) h') ->
  adds (fun d s vs => exists ts, holds d s ts /\ Forall2 (R d) ts vs)
    (s ← make_slice T (length xs); build f xs s) (omap g xs) h.
Proof.
  intros Hmono Hf. unfold adds at 1. set (a := fresh (dom h)).
  set (h1 := <[a := array (replicate (length xs) (zero_elem (T:=T)))]> h).
  assert (a ∉ dom h) as Ha by apply is_fresh.
  rewrite (bind_Ret _ _ h (Some {| s_array := a; s_len := 0 |}) h1) by done.
  destruct (build_loop R f g Hmono h xs a 0 [] (Some {| s_array := a; s_len := 0 |}) h1 Hf)
    as (s & h' & k' & Hrun & (ts & -> & _ & Hsub & Hcell & Hall) & _).
  { exists []. split_and!; [done | done | | | constructor].
    - apply insert_subseteq. by apply not_elem_of_dom.
    - unfold h1. rewrite lookup_insert_eq, Nat.add_0_r. done. }
  eexists _, h'. split; [exact Hrun|]. split; [done|]. exists ts. split.
  - exists (ts ++ replicate k' zero_elem). cbn [s_array s_len].
    split; [|split; [rewrite length_app; lia | by rewrite take_app_length]].
    apply lookup_difference_Some. split; [done|]. by apply not_elem_of_dom.
  - eapply Forall2_impl; [exact Hall|]. intros t v. apply Hmono.
    apply difference_mono; [apply delete_subseteq | done].
Qed.
End built.

(** ** Computations that add to the store *)
Lemma adds_ret {A B} (R : store -> A -> B -> Prop) x b h : R (h ∖ h) x b -> adds R (mret x) b h.
Proof. intros HR. exists x, h. by split_and!. Qed.

(** A pure function of what was added. *)
Lemma adds_map {A B A' B'} (R : store -> A -> B -> Prop) (R' : store -> A' -> B' -> Prop) (m : M store A)
    (k : A -> A') b b' h :
  adds R m b h -> (forall d x, R d x b -> R' d (k x) b') -> adds R' (x ← m; mret (k x)) b' h.
Proof.
  intros (x & h' & Hrun & Hsub & HR) Hk. exists (k x), h'. rewrite (bind_Ret _ _ _ _ _ Hrun). split_and!; auto.
Qed.

(** A new cell on what was added. *)
Lemma adds_cell {A B B'} (R : store -> A -> B -> Prop) (R' : store -> option loc -> B' -> Prop) (m : M store A)
    (c : A -> cell) b b' h :
  (forall d d' x, d ⊆ d' -> R d x b -> R d' x b) -> adds R m b h ->
  (forall d l x, R d x b -> d !! l = Some (c x) -> R' d (Some l) b') ->
  adds R' (x ← m; new_cell (c x)) b' h.
Proof.
  intros Hmono (x & h' & Hrun & Hsub & HR) Hk. set (l := fresh (dom h')).
  assert (l ∉ dom h') as Hl by apply is_fresh.
  assert (h' ⊆ <[l := c x]> h') as Hsub' by (apply insert_subseteq; by apply not_elem_of_dom).
  exists (Some l), (<[l := c x]> h'). rewrite (bind_Ret _ _ _ _ _ Hrun). split_and!; [done | by etrans |].
  eapply Hk with (x := x).
  - eapply Hmono; [|exact HR]. by apply difference_mono.
  - apply lookup_difference_Some. split; [by apply lookup_insert_eq|]. apply not_elem_of_dom.
    pose proof (subseteq_dom _ _ Hsub). set_solver.
Qed.
