(* ===== verification/Traversal.v ===== *)
(** * The statement traversal: internal/parser/traversal.go

    [appendStatement] is the recursion of the source, tied by [knot] on the
    height of the statement.  [preorder] and [cte_of] are the specification:
    root first, then the statements of its CTEs in declaration order, at every
    nesting depth. *)
From stdpp Require Import base strings list relations.
From S2P Require Import Prelude.
From S2P Require Import Nodes.

(** [nodeField]. *)
Definition nodeField (node : ptr Node) (name : string) : ptr Node :=
  let '(value, ok) := Node_Field node name in
  if negb ok then None
  else
    let '(child, ok) := Value_Node value in
    if negb ok then None else child.

(** The body of [appendStatement], its recursive call a parameter. *)
Definition appendStatementF (appendStatement : list (ptr Node) * ptr Node -> list (ptr Node))
    (args : list (ptr Node) * ptr Node) : list (ptr Node) :=
  let '(sequence, statement) := args in
  match statement with
  | None => sequence
  | Some _ =>
      let sequence := sequence ++ [statement] in
      match nodeField statement "with_clause" with
      | None => sequence
      | Some withClause =>
          let '(ctes, ok) := Node_Field (Some withClause) "ctes" in
          if negb ok then sequence
          else
            let '(cteValues, ok) := Value_List ctes in
            if negb ok then sequence
            else
              foldl (fun sequence cteValue =>
                  let '(cte, ok) := Value_Node cteValue in
                  if negb ok then sequence
                  else appendStatement (sequence, nodeField cte "ctequery"))
                sequence cteValues
      end
  end.

(** [appendStatement]. *)
Definition appendStatement : list (ptr Node) * ptr Node -> list (ptr Node) :=
  knot (fun args => ptr_height args.2) fst appendStatementF.

(** [StatementSequence]. *)
Definition StatementSequence (result : ptr Result) : list (ptr Node) :=
  match result with
  | None => []
  | Some result =>
      foldl (fun sequence statement => appendStatement (sequence, statement))
        [] (result_statements result)
  end.

(** ** Specification *)

(** The values of the CTE list of a statement, none when there is no WITH. *)
Definition cte_values (statement : Node) : list Value :=
  match nodeField (Some statement) "with_clause" with
  | None => []
  | Some withClause =>
      match Node_Field (Some withClause) "ctes" with
      | (ctes, true) => (Value_List ctes).1
      | (_, false) => []
      end
  end.

(** The query of a CTE declaration. *)
Definition cte_query (cteValue : Value) : ptr Node :=
  match Value_Node cteValue with
  | (cte, true) => nodeField cte "ctequery"
  | (_, false) => None
  end.

(** The statements a statement declares in its WITH clause, in order. *)
Definition cte_statements (statement : Node) : list Node := omap cte_query (cte_values statement).

(** [child] is a statement of [parent]'s WITH clause. *)
Definition cte_of (parent child : Node) : Prop := child ∈ cte_statements parent.

(** The statements of a tree of CTEs: the root, then those of each CTE. *)
Inductive preorder : Node -> list Node -> Prop :=
| Preorder n ls : Forall2 preorder (cte_statements n) ls -> preorder n (n :: concat ls).

Arguments nodeField : simpl never.
Arguments appendStatement : simpl never.

(** ** Lemmas *)
Lemma nodeField_height n name m : nodeField n name = Some m -> node_height m < ptr_height n.
Proof.
  unfold nodeField. destruct (Node_Field n name) as [v []] eqn:Hf; cbn; [|done].
  destruct (Value_Node v) as [c []] eqn:Hn; cbn; [|done]. intros ->.
  pose proof (Node_Field_height _ _ _ Hf). pose proof (Value_Node_height _ _ Hn). cbn in *. lia.
Qed.

Lemma cte_values_height n x : x ∈ cte_values n -> value_height x < node_height n.
Proof.
  unfold cte_values. intros Hx.
  destruct (nodeField (Some n) "with_clause") as [w|] eqn:Hw; [|by apply not_elem_of_nil in Hx].
  apply nodeField_height in Hw. cbn in Hw.
  destruct (Node_Field (Some w) "ctes") as [v []] eqn:Hf; [|by apply not_elem_of_nil in Hx].
  apply Node_Field_height in Hf. cbn in Hf.
  destruct (Value_List v) as [l []] eqn:Hl; cbn in Hx.
  - pose proof (Value_List_height _ _ _ Hl Hx). lia.
  - unfold Value_List in Hl. case_bool_decide; simplify_eq. by apply not_elem_of_nil in Hx.
Qed.

Lemma cte_query_height x m : cte_query x = Some m -> node_height m < value_height x.
Proof.
  unfold cte_query. destruct (Value_Node x) as [c []] eqn:Hn; [|done]. intros Hq.
  apply nodeField_height in Hq. pose proof (Value_Node_height _ _ Hn). lia.
Qed.

Lemma cte_of_height p c : cte_of p c -> node_height c < node_height p.
Proof.
  unfold cte_of, cte_statements. intros (x & Hx & Hq)%list_elem_of_omap.
  pose proof (cte_values_height _ _ Hx). pose proof (cte_query_height _ _ Hq). lia.
Qed.

(** The recursion body, with the look-ups of the WITH clause folded into
    [cte_values] and [cte_query]. *)
Lemma appendStatementF_spec rec seq n :
  (forall s, rec (s, None) = s) ->
  appendStatementF rec (seq, Some n) =
  foldl (fun s x => rec (s, cte_query x)) (seq ++ [Some n]) (cte_values n).
Proof.
  intros Hnil. unfold appendStatementF, cte_values.
  destruct (nodeField (Some n) "with_clause") as [w|]; [|done].
  destruct (Node_Field (Some w) "ctes") as [v []]; cbn; [|done].
  unfold Value_List. case_bool_decide; cbn; [done|].
  apply foldl_ext_in. intros s x _. unfold cte_query.
  destruct (Value_Node x) as [c []]; cbn; [done | by rewrite Hnil].
Qed.

#[export] Instance appendStatement_guarded :
  Guarded (fun args => ptr_height args.2) eq appendStatementF.
Proof.
  intros f g [seq [n|]] H; [|done]. cbn in H. unfold appendStatementF.
  destruct (nodeField (Some n) "with_clause") as [w|] eqn:Hw; [|done].
  destruct (Node_Field (Some w) "ctes") as [v []] eqn:Hf; cbn; [|done].
  destruct (Value_List v) as [l []] eqn:Hl; cbn; [|done].
  apply foldl_ext_in. intros s x Hx.
  destruct (Value_Node x) as [c []] eqn:Hn; cbn; [|done].
  apply H. cbn. apply nodeField_height in Hw. apply Node_Field_height in Hf.
  pose proof (Value_List_height _ _ _ Hl Hx). pose proof (Value_Node_height _ _ Hn).
  destruct (nodeField c "ctequery") as [q|] eqn:Hq; cbn in *; [|lia].
  apply nodeField_height in Hq. lia.
Qed.

Lemma appendStatement_unfold seq n :
  appendStatement (seq, n) = appendStatementF appendStatement (seq, n).
Proof. exact (knot_unfold _ eq _ _ _). Qed.

Lemma appendStatement_nil seq : appendStatement (seq, None) = seq.
Proof. by rewrite appendStatement_unfold. Qed.

Lemma appendStatement_node seq n :
  appendStatement (seq, Some n) =
  foldl (fun s x => appendStatement (s, cte_query x)) (seq ++ [Some n]) (cte_values n).
Proof.
  rewrite appendStatement_unfold. apply appendStatementF_spec, appendStatement_nil.
Qed.

(** Appending never looks at what is already in the sequence. *)
Lemma appendStatement_acc seq n : appendStatement (seq, n) = seq ++ appendStatement ([], n).
Proof.
  revert seq. induction (Nat.lt_wf_0_projected ptr_height n) as [n _ IH]; intros seq.
  destruct n as [n|]; [|by rewrite !appendStatement_nil, app_nil_r].
  rewrite !appendStatement_node.
  enough (forall s, foldl (fun s x => appendStatement (s, cte_query x)) s (cte_values n) =
            s ++ flat_map (fun x => appendStatement ([], cte_query x)) (cte_values n)) as Hall.
  { rewrite !Hall. by rewrite <- !app_assoc. }
  intros s. rewrite <- foldl_flat_map. apply foldl_ext_in. intros s' x Hx.
  destruct (cte_query x) as [q|] eqn:Hq.
  - apply IH. cbn. pose proof (cte_values_height _ _ Hx).
    pose proof (cte_query_height _ _ Hq). lia.
  - by rewrite !appendStatement_nil, app_nil_r.
Qed.

(** The statements of one tree, root first. *)
Lemma appendStatement_root n :
  appendStatement ([], Some n) =
  Some n :: flat_map (fun m => appendStatement ([], Some m)) (cte_statements n).
Proof.
  rewrite appendStatement_node. cbn.
  rewrite (foldl_ext_in _ (fun s x => s ++ appendStatement ([], cte_query x)))
    by (intros; apply appendStatement_acc).
  rewrite foldl_flat_map. cbn. f_equal. unfold cte_statements.
  induction (cte_values n) as [|x l IH]; [done|]. cbn. rewrite IH.
  destruct (cte_query x) as [q|]; cbn; [done | by rewrite appendStatement_nil].
Qed.

(** The loop over the top-level statements concatenates their trees. *)
Lemma StatementSequence_flat_map r :
  StatementSequence (Some r) =
  flat_map (fun n => appendStatement ([], Some n)) (omap id (result_statements r)).
Proof.
  cbn. rewrite (foldl_ext_in _ (fun s x => s ++ appendStatement ([], x)))
    by (intros; apply appendStatement_acc).
  rewrite foldl_flat_map. cbn.
  induction (result_statements r) as [|[n|] l IH]; cbn; [done| |]; rewrite IH; [done|].
  by rewrite appendStatement_nil.
Qed.

(** [appendStatement] computes the pre-order of a tree. *)
Lemma appendStatement_preorder n :
  exists l, preorder n l /\ appendStatement ([], Some n) = map Some l.
Proof.
  induction (Nat.lt_wf_0_projected node_height n) as [n _ IH].
  assert (exists ls, Forall2 preorder (cte_statements n) ls /\
    flat_map (fun m => appendStatement ([], Some m)) (cte_statements n) = map Some (concat ls))
    as (ls & Hls & Heq).
  { assert (forall m, m ∈ cte_statements n -> node_height m < node_height n) as Hlt
      by (intros m Hm; by apply cte_of_height).
    induction (cte_statements n) as [|m l IHl]; [by exists []|].
    destruct IHl as (ls & Hls & Heq); [intros m' Hm'; apply Hlt; by right|].
    destruct (IH m) as (lm & Hlm & Heqm); [apply Hlt; by left|].
    exists (lm :: ls). split; [by constructor|].
    cbn. by rewrite Heq, Heqm, map_app. }
  exists (n :: concat ls). split; [by constructor|].
  by rewrite appendStatement_root, Heq.
Qed.

(** Membership in the concatenation of the sub-trees. *)
Lemma Forall2_concat_elem {X Y} (R : X -> list Y -> Prop) (Q : X -> Y -> Prop) xs ls y :
  Forall2 R xs ls ->
  (forall x l, x ∈ xs -> R x l -> y ∈ l <-> Q x y) ->
  y ∈ concat ls <-> exists x, x ∈ xs /\ Q x y.
Proof.
  induction 1 as [|x l xs ls Hx _ IH]; intros HQ; cbn.
  - split; [by intros ?%not_elem_of_nil | by intros (? & ?%not_elem_of_nil & _)].
  - rewrite elem_of_app, (HQ x l) by (by left || done).
    rewrite IH by (intros; apply HQ; [by right | done]). set_solver.
Qed.

(** A pre-order lists exactly what is reachable through WITH clauses. *)
Lemma preorder_elem n l m : preorder n l -> m ∈ l <-> rtc cte_of n m.
Proof.
  revert l. induction (Nat.lt_wf_0_projected node_height n) as [n _ IH].
  intros l Hpre. inversion Hpre as [? ls Hls]; subst. rewrite elem_of_cons.
  rewrite (Forall2_concat_elem _ (fun c m => rtc cte_of c m) _ _ m Hls)
    by (intros c l Hc; apply IH; by apply cte_of_height).
  split.
  - intros [->|(c & Hc & Hr)]; [done | by eapply rtc_l].
  - intros [->|(c & Hc & Hr)]%rtc_inv; [by left | right; eauto].
Qed.

(** The pre-order of a tree is unique. *)
Lemma preorder_fun n l1 l2 : preorder n l1 -> preorder n l2 -> l1 = l2.
Proof.
  revert l1 l2. induction (Nat.lt_wf_0_projected node_height n) as [n _ IH].
  intros l1 l2 H1 H2. inversion H1 as [? ls1 Hls1]; inversion H2 as [? ls2 Hls2]; subst.
  f_equal. f_equal.
  assert (forall m, m ∈ cte_statements n -> node_height m < node_height n) as Hlt
    by (intros m Hm; by apply cte_of_height).
  clear H1 H2. revert ls2 Hls2.
  induction Hls1 as [|m l ms ls Hm _ IHls]; intros ls2 Hls2; inversion Hls2; subst; [done|].
  f_equal; [eapply IH; eauto; apply Hlt; by left|].
  apply IHls; [intros m' Hm'; apply Hlt; by right | done].
Qed.

(** What the sequence visits. *)
Lemma StatementSequence_elem r m :
  Some m ∈ StatementSequence (Some r) <->
  exists top, Some top ∈ result_statements r /\ rtc cte_of top m.
Proof.
  rewrite StatementSequence_flat_map, elem_of_flat_map.
  split; intros (top & Htop & Hm); exists top.
  - apply list_elem_of_omap in Htop as ([n|] & Hn & [= ->]). split; [done|].
    destruct (appendStatement_preorder top) as (l & Hl & Heq). rewrite Heq in Hm.
    apply list_elem_of_fmap in Hm as (y & [= ->] & Hy). by eapply preorder_elem.
  - split; [apply list_elem_of_omap; by exists (Some top)|].
    destruct (appendStatement_preorder top) as (l & Hl & Heq). rewrite Heq.
    apply list_elem_of_fmap. exists m. split; [done|]. by eapply preorder_elem.
Qed.

(** C21: the statement sequence is the concatenation, in input order, of the
    pre-orders of the top-level statements (nil entries apart), and holds no nil
    pointer. *)
Theorem StatementSequence_preorder r :
  exists ls, Forall2 preorder (omap id (result_statements r)) ls /\
    StatementSequence (Some r) = map Some (concat ls).
Proof.
  rewrite StatementSequence_flat_map.
  induction (omap id (result_statements r)) as [|n l (ls & Hls & IH)]; [by exists []|].
  destruct (appendStatement_preorder n) as (ln & Hln & Heq).
  exists (ln :: ls). split; [by constructor|]. cbn. by rewrite Heq, IH, map_app.
Qed.

(** C20: a statement is visited exactly when it is a top-level statement or is
    reachable from one through WITH clauses, at any nesting depth. *)
Theorem StatementSequence_complete r m :
  Some m ∈ StatementSequence (Some r) <->
  exists top, Some top ∈ result_statements r /\ rtc cte_of top m.
Proof. apply StatementSequence_elem. Qed.

(** [appendStatement] terminates: unrolling its recursion more often than the
    statement is high gives one and the same result, and that result satisfies
    the recursive equation of the source. *)
Theorem appendStatement_terminates fuel seq n :
  ptr_height n < fuel ->
  unroll appendStatementF fst fuel (seq, n) = appendStatement (seq, n) /\
  appendStatement (seq, n) = appendStatementF appendStatement (seq, n).
Proof.
  intros H. split; [|apply appendStatement_unfold].
  apply (unroll_stable (fun args => ptr_height args.2) eq fst appendStatementF); cbn; lia.
Qed.
