(* ===== verification/PgQuery.v ===== *)
(** * The parser boundary: internal/parser/pgquery.go and the backends

    protobuf reflection and the two PostgreSQL parsers are code outside the
    repository: classes [ProtoReflect] and [PgQuery] hold their operations, and
    [ProtoReflectLaws] what the conversion relies on. *)
From stdpp Require Import base strings list.
From S2P Require Import Prelude.
From S2P Require Import GoFloat.
From S2P Require Import GoRuntime.
From S2P Require Import Nodes.

(** [protoreflect.Kind]. *)
Inductive ProtoKind : Set :=
| BoolKind | EnumKind | Int32Kind | Sint32Kind | Uint32Kind | Int64Kind | Sint64Kind
| Uint64Kind | Sfixed32Kind | Fixed32Kind | FloatKind | Sfixed64Kind | Fixed64Kind
| DoubleKind | StringKind | BytesKind | MessageKind | GroupKind | OtherKind (n : Z).

(** The operations of google.golang.org/protobuf/reflect/protoreflect that
    pgquery.go calls.  [msg_rank] is not one of them: it names the height of a
    message, which is finite because messages are trees. *)
Class ProtoReflect : Type := {
  Message : Type;
  MessageDescriptor : Type;
  OneofDescriptor : Type;
  FieldDescriptor : Type;
  PValue : Type;
  IsValid : Message -> bool;
  Descriptor : Message -> MessageDescriptor;
  WhichOneof : Message -> OneofDescriptor -> option FieldDescriptor;
  Has : Message -> FieldDescriptor -> bool;
  Get : Message -> FieldDescriptor -> PValue;
  FullName : MessageDescriptor -> string;
  Name : MessageDescriptor -> string;
  Oneof0 : MessageDescriptor -> OneofDescriptor;      (** Oneofs().Get(0) *)
  Fields : MessageDescriptor -> list FieldDescriptor;
  fd_Name : FieldDescriptor -> string;
  fd_IsList : FieldDescriptor -> bool;
  fd_Kind : FieldDescriptor -> ProtoKind;
  fd_EnumName : FieldDescriptor -> Z -> option string; (** Enum().Values().ByNumber, then Name *)
  pv_Bool : PValue -> bool;
  pv_Int : PValue -> Z;
  pv_Uint : PValue -> Z;
  pv_Float : PValue -> float64;
  pv_String : PValue -> string;
  pv_Bytes : PValue -> list Byte.byte;
  pv_Enum : PValue -> Z;
  pv_Message : PValue -> Message;
  pv_List : PValue -> list PValue;
  msg_rank : Message -> nat
}.

(** A field whose kind is a message kind. *)
Definition is_message_kind (k : ProtoKind) : bool :=
  match k with MessageKind | GroupKind => true | _ => false end.

(** What the code relies on: a message's sub-messages are smaller (a message is
    a finite tree), and the integer accessors return int64 and uint64 values. *)
Class ProtoReflectLaws `(PR : ProtoReflect) : Prop := {
  rank_field m fd :
    IsValid m = true -> fd ∈ Fields (Descriptor m) -> Has m fd = true ->
    is_message_kind (fd_Kind fd) = true -> fd_IsList fd = false ->
    msg_rank (pv_Message (Get m fd)) < msg_rank m;
  rank_list m fd v :
    IsValid m = true -> fd ∈ Fields (Descriptor m) -> Has m fd = true ->
    is_message_kind (fd_Kind fd) = true -> fd_IsList fd = true ->
    v ∈ pv_List (Get m fd) -> msg_rank (pv_Message v) < msg_rank m;
  rank_oneof m fd :
    IsValid m = true -> WhichOneof m (Oneof0 (Descriptor m)) = Some fd ->
    msg_rank (pv_Message (Get m fd)) < msg_rank m;
  int_range v : (- 2 ^ 63 <= pv_Int v < 2 ^ 63)%Z;
  uint_range v : (0 <= pv_Uint v < 2 ^ 64)%Z
}.

Definition pgQueryNodeName : string := "pg_query.Node".

(** ** Conversion *)
Section Conversion.
Context `{PR : ProtoReflect}.

(** [convertSingularValue]; the recursive call to [convertMessage] is a
    parameter. *)
Definition convertSingularValue (convertMessage : Message -> ptr Node)
    (descriptor : FieldDescriptor) (source : PValue) : Value :=
  match fd_Kind descriptor with
  | BoolKind => litBool (pv_Bool source)
  | Int32Kind | Sint32Kind | Sfixed32Kind | Int64Kind | Sint64Kind | Sfixed64Kind =>
      litInt (pv_Int source)
  | Uint32Kind | Fixed32Kind | Uint64Kind | Fixed64Kind => litUint (pv_Uint source)
  | FloatKind | DoubleKind => litFloat (pv_Float source)
  | StringKind => litString (pv_String source)
  | BytesKind => litBytes (pv_Bytes source)
  | EnumKind =>
      match fd_EnumName descriptor (pv_Enum source) with
      | None => litEnum ""
      | Some name => litEnum name
      end
  | MessageKind | GroupKind => litNode (convertMessage (pv_Message source))
  | OtherKind _ => zeroValue
  end.

(** [convertValue]. *)
Definition convertValue (convertMessage : Message -> ptr Node)
    (descriptor : FieldDescriptor) (source : PValue) : Value :=
  if fd_IsList descriptor then
    litList (map (convertSingularValue convertMessage descriptor) (pv_List source))
  else convertSingularValue convertMessage descriptor source.

(** The body of [convertMessage]. *)
Definition convertMessageF (convertMessage : Message -> ptr Node) (source : Message) : ptr Node :=
  if negb (IsValid source) then None
  else
    let descriptor := Descriptor source in
    if decide (FullName descriptor = pgQueryNodeName) then
      match WhichOneof source (Oneof0 descriptor) with
      | None => None
      | Some field => convertMessage (pv_Message (Get source field))
      end
    else
      Some (MkNode (Name descriptor)
        (foldl (fun fields field =>
            if negb (Has source field) then fields
            else fields ++ [MkField (fd_Name field)
                              (convertValue convertMessage field (Get source field))])
          [] (Fields descriptor))).

(** [convertMessage]. *)
Definition convertMessage : Message -> ptr Node := knot msg_rank (fun _ => None) convertMessageF.
End Conversion.

(** ** The backends and [Parse] *)

(** pg_query_go v6 and go-pgquery: both return the pg_query parse tree or an
    error carrying a diagnostic. *)
Class PgQuery `{PR : ProtoReflect} : Type := {
  PGNode : Type;
  RawStmt : Type;
  ParseResult : Type;
  PGError : Type;
  ProtoReflectOf : PGNode -> Message;
  GetStmt : RawStmt -> ptr PGNode;
  GetStmts : ParseResult -> list RawStmt;
  pg_query_Parse : string -> ParseResult + PGError;
  wasm_query_Parse : string -> ParseResult + PGError
}.

(** The build context selects the backend. *)
Inductive Build : Set := cgo | nocgo.

(** parser.go: [FailureSyntax]. *)
Definition FailureSyntax : string := "syntax".

(** [Error] and [Category] of a *parser.Error. *)
Definition ParserError_Error (_ : ptr ParserError) : string := "postgresql parsing failed".
Definition ParserError_Category (e : ptr ParserError) : string :=
  match e with
  | None => ""
  | Some e => pe_category e
  end.

Section Parse.
Context `{PQ : PgQuery} (build : Build).

(** [parseBackend] of backend_cgo.go and backend_nocgo.go. *)
Definition parseBackend (sql : string) : ParseResult + PGError :=
  match build with
  | cgo => pg_query_Parse sql
  | nocgo => wasm_query_Parse sql
  end.

(** [convertPGNode]. *)
Definition convertPGNode (source : ptr PGNode) : ptr Node :=
  match source with
  | None => None
  | Some source => convertMessage (ProtoReflectOf source)
  end.

(** [Parse]: a result or an error, the other nil. *)
Definition Parse (sql : string) : ptr Result * option goerror :=
  if decide (0 <= IndexByte sql Ascii.zero)%Z then
    (None, Some (ParserErrorPtr (Some {| pe_category := FailureSyntax |})))
  else
    match parseBackend sql with
    | inr _ => (None, Some (ParserErrorPtr (Some {| pe_category := FailureSyntax |})))
    | inl tree =>
        let statements :=
          foldl (fun statements rawStatement =>
              let statement := convertPGNode (GetStmt rawStatement) in
              match statement with
              | Some _ => statements ++ [statement]
              | None => statements
              end)
            [] (GetStmts tree) in
        (Some {| result_statements := statements |}, None)
    end.
End Parse.

Arguments convertMessage : simpl never.

(** ** Lemmas on the conversion *)
Section ConversionFacts.
Context `{PRL : ProtoReflectLaws}.

(** The fields of a converted message, as a list comprehension. *)
Definition converted_fields (m : Message) : list Field :=
  map (fun fd => MkField (fd_Name fd) (convertValue convertMessage fd (Get m fd)))
    (filter (fun fd => Has m fd = true) (Fields (Descriptor m))).

Lemma convert_fields_foldl rec m (l : list FieldDescriptor) acc :
  foldl (fun fields field =>
      if negb (Has m field) then fields
      else fields ++ [MkField (fd_Name field) (convertValue rec field (Get m field))]) acc l =
  acc ++ map (fun fd => MkField (fd_Name fd) (convertValue rec fd (Get m fd)))
    (filter (fun fd => Has m fd = true) l).
Proof.
  revert acc. induction l as [|fd l IH]; intros acc; [by rewrite app_nil_r|].
  cbn [foldl]. rewrite IH, filter_cons. destruct (Has m fd); cbn; [|done].
  by rewrite <- app_assoc.
Qed.

Lemma convertSingularValue_ext f g fd v :
  (is_message_kind (fd_Kind fd) = true -> f (pv_Message v) = g (pv_Message v)) ->
  convertSingularValue f fd v = convertSingularValue g fd v.
Proof.
  unfold convertSingularValue. intros H. destruct (fd_Kind fd); try done; by rewrite H.
Qed.

#[export] Instance convertMessage_guarded : Guarded msg_rank eq convertMessageF.
Proof.
  intros f g m H. unfold convertMessageF. destruct (IsValid m) eqn:Hv; cbn; [|done].
  case_decide.
  - destruct (WhichOneof _ _) as [fd|] eqn:Hw; [|done]. apply H. by apply rank_oneof.
  - rewrite !convert_fields_foldl. cbn. do 2 f_equal.
    apply map_ext_in. intros fd [Hh Hin]%list_elem_of_In%list_elem_of_filter.
    f_equal. unfold convertValue. destruct (fd_IsList fd) eqn:Hl.
    + f_equal. apply map_ext_in. intros v Hvin%list_elem_of_In.
      apply convertSingularValue_ext. intros Hk. apply H. by eapply rank_list.
    + apply convertSingularValue_ext. intros Hk. apply H. by apply rank_field.
Qed.

Lemma convertMessage_unfold m : convertMessage m = convertMessageF convertMessage m.
Proof. exact (knot_unfold msg_rank eq _ _ m). Qed.

Lemma convertMessage_node m :
  IsValid m = true -> FullName (Descriptor m) <> pgQueryNodeName ->
  convertMessage m = Some (MkNode (Name (Descriptor m)) (converted_fields m)).
Proof.
  intros Hv Hn. rewrite convertMessage_unfold. unfold convertMessageF.
  rewrite Hv, decide_False by done. cbn. by rewrite convert_fields_foldl.
Qed.

Lemma convertMessage_wrapper m :
  IsValid m = true -> FullName (Descriptor m) = pgQueryNodeName ->
  convertMessage m =
  match WhichOneof m (Oneof0 (Descriptor m)) with
  | None => None
  | Some fd => convertMessage (pv_Message (Get m fd))
  end.
Proof.
  intros Hv Hn. rewrite convertMessage_unfold. unfold convertMessageF.
  by rewrite Hv, decide_True.
Qed.

Lemma convertSingularValue_wf f fd v :
  (is_message_kind (fd_Kind fd) = true -> forall n, f (pv_Message v) = Some n -> wf_node n) ->
  wf_value (convertSingularValue f fd v).
Proof.
  intros Hf. unfold convertSingularValue.
  pose proof (int_range v). pose proof (uint_range v).
  destruct (fd_Kind fd); try destruct (fd_EnumName _ _);
    (constructor; cbn; [done|lia|lia| |done]); intros node Hnode; first [discriminate | by apply Hf].
Qed.

Lemma convertMessage_wf m n : convertMessage m = Some n -> wf_node n.
Proof.
  revert n. induction (Nat.lt_wf_0_projected msg_rank m) as [m _ IH]. intros n.
  rewrite convertMessage_unfold. unfold convertMessageF.
  destruct (IsValid m) eqn:Hv; cbn; [|done]. case_decide as Hn.
  - destruct (WhichOneof _ _) as [fd|] eqn:Hw; [|done]. apply IH. by apply rank_oneof.
  - rewrite convert_fields_foldl. cbn. intros [= <-]. constructor.
    apply Forall_fmap, Forall_forall. intros fd [Hh Hin]%list_elem_of_filter. cbn.
    unfold convertValue. destruct (fd_IsList fd) eqn:Hl.
    + constructor; cbn; try done; try lia.
      apply Forall_fmap, Forall_forall. intros v Hvin.
      apply convertSingularValue_wf. intros Hk. apply IH. by eapply rank_list.
    + apply convertSingularValue_wf. intros Hk. apply IH. by apply rank_field.
Qed.

(** Looking a name up in a list of fields with distinct names. *)
Lemma Node_Field_first k fs name v :
  NoDup (map Field_Name fs) -> MkField name v ∈ fs ->
  Node_Field (Some (MkNode k fs)) name = (v, true).
Proof.
  unfold Node_Field. cbn. induction fs as [|[fn fv] fs IH]; cbn.
  - by intros _ ?%not_elem_of_nil.
  - intros [Hnin Hnd]%NoDup_cons Hin. case_decide as Hname.
    + subst fn. apply elem_of_cons in Hin as [[= ->]|Hin]; [done|].
      destruct Hnin. apply list_elem_of_fmap. by exists (MkField name v).
    + apply elem_of_cons in Hin as [[= -> ->]|Hin]; [done|]. by apply IH.
Qed.

Lemma Node_Field_absent k fs name :
  name ∉ map Field_Name fs -> Node_Field (Some (MkNode k fs)) name = (zeroValue, false).
Proof.
  unfold Node_Field. cbn. induction fs as [|[fn fv] fs IH]; cbn; [done|].
  rewrite not_elem_of_cons. intros [Hne Hnin]. rewrite decide_False by done. by apply IH.
Qed.

(** What a converted message holds under the name of a field. *)
Lemma convertMessage_field m fd :
  IsValid m = true -> FullName (Descriptor m) <> pgQueryNodeName ->
  NoDup (map fd_Name (Fields (Descriptor m))) -> fd ∈ Fields (Descriptor m) ->
  Node_Kind (convertMessage m) = Name (Descriptor m) /\
  Node_Field (convertMessage m) (fd_Name fd) =
    (if Has m fd then (convertValue convertMessage fd (Get m fd), true) else (zeroValue, false)).
Proof.
  intros Hv Hn Hnd Hin. rewrite convertMessage_node by done. split; [done|].
  assert (forall l, map Field_Name (map (fun fd => MkField (fd_Name fd)
            (convertValue convertMessage fd (Get m fd))) l) = map fd_Name l) as Hnames
    by (intros l; rewrite map_map; by apply map_ext).
  unfold converted_fields. destruct (Has m fd) eqn:Hh.
  - apply Node_Field_first.
    + rewrite Hnames. eapply sublist_NoDup; [exact Hnd|].
      apply fmap_sublist, sublist_filter.
    + apply list_elem_of_fmap. exists fd. split; [done|]. by apply list_elem_of_filter.
  - apply Node_Field_absent. rewrite Hnames. intros (fd' & Hname & Hf)%list_elem_of_fmap.
    apply list_elem_of_filter in Hf as [Hh' Hin'].
    enough (fd' = fd) by congruence.
    apply list_elem_of_lookup in Hin as [i Hi], Hin' as [j Hj].
    enough (i = j) by congruence.
    eapply NoDup_lookup; [exact Hnd| |]; rewrite list_lookup_fmap; [by rewrite Hi|].
    rewrite Hj. cbn. by rewrite Hname.
Qed.
End ConversionFacts.

(** ** Lemmas on [Parse] *)
Section ParseFacts.
Context `{PQ : PgQuery} (build : Build).

(** The loop of [Parse] keeps the non-nil conversions, in order. *)
Lemma Parse_statements (l : list RawStmt) acc :
  foldl (fun statements rawStatement =>
      match convertPGNode (GetStmt rawStatement) with
      | Some _ => statements ++ [convertPGNode (GetStmt rawStatement)]
      | None => statements
      end) acc l =
  acc ++ map Some (omap (fun raw => convertPGNode (GetStmt raw)) l).
Proof.
  revert acc. induction l as [|raw l IH]; intros acc; cbn; [by rewrite app_nil_r|].
  rewrite IH. destruct (convertPGNode (GetStmt raw)); cbn; [by rewrite <- app_assoc | done].
Qed.

Lemma Parse_spec sql :
  Parse build sql =
  match parseBackend build sql with
  | inl tree =>
      if decide (Ascii.zero ∈ string_elems sql)
      then (None, Some (ParserErrorPtr (Some {| pe_category := FailureSyntax |})))
      else (Some {| result_statements :=
                      map Some (omap (fun raw => convertPGNode (GetStmt raw)) (GetStmts tree)) |},
            None)
  | inr _ => (None, Some (ParserErrorPtr (Some {| pe_category := FailureSyntax |})))
  end.
Proof.
  unfold Parse. case_decide as Hi.
  - apply IndexByte_found in Hi. destruct (parseBackend build sql); [by rewrite decide_True | done].
  - destruct (parseBackend build sql) as [tree|e]; [|done].
    rewrite decide_False by (by rewrite <- IndexByte_found).
    do 2 f_equal. f_equal. exact (Parse_statements _ []).
Qed.

(** A successful parse, its statements non-nil conversions. *)
Lemma Parse_success sql r err :
  Parse build sql = (Some r, err) ->
  err = None /\ (Ascii.zero ∉ string_elems sql) /\
  exists tree, parseBackend build sql = inl tree /\
    result_statements r = map Some (omap (fun raw => convertPGNode (GetStmt raw)) (GetStmts tree)).
Proof.
  rewrite Parse_spec. destruct (parseBackend build sql) as [tree|e]; [|done].
  case_decide; [done|]. intros [= <- <-]. eauto.
Qed.
End ParseFacts.

(** ** Properties *)

(** The conversion terminates: unrolling [convertMessage] more often than the
    message is high gives one and the same node, and that node satisfies the
    recursive equation of the source. *)
Theorem convertMessage_terminates `{PRL : ProtoReflectLaws} fuel m :
  msg_rank m < fuel ->
  unroll convertMessageF (fun _ => None) fuel m = convertMessage m /\
  convertMessage m = convertMessageF convertMessage m.
Proof.
  intros H. split; [|apply convertMessage_unfold].
  apply (unroll_stable msg_rank eq (fun _ => None) convertMessageF); cbn; lia.
Qed.

(** A converted message carries exactly the populated fields: looking up a
    field by its name gives the converted value when the message has the field
    and nothing otherwise; its kind is the message's name. *)
Theorem convertMessage_lookup `{PRL : ProtoReflectLaws} m fd :
  IsValid m = true -> FullName (Descriptor m) <> pgQueryNodeName ->
  NoDup (map fd_Name (Fields (Descriptor m))) -> fd ∈ Fields (Descriptor m) ->
  Node_Kind (convertMessage m) = Name (Descriptor m) /\
  Node_Field (convertMessage m) (fd_Name fd) =
    (if Has m fd then (convertValue convertMessage fd (Get m fd), true) else (zeroValue, false)).
Proof. apply convertMessage_field. Qed.

(** C29: every statement that [Parse] returns is a non-nil, well-formed tree: each
    value sets the payload its kind names and no other, and integers are in
    range. *)
Theorem Parse_well_formed `{PRL : ProtoReflectLaws} `{PQ : !PgQuery (PR:=PR)} build sql r err :
  Parse build sql = (Some r, err) ->
  Forall (fun s => exists n, s = Some n /\ wf_node n) (result_statements r).
Proof.
  intros (_ & _ & tree & _ & ->)%Parse_success.
  apply Forall_fmap, Forall_forall. intros n (raw & _ & Hraw)%list_elem_of_omap.
  exists n. split; [done|]. unfold convertPGNode in Hraw.
  destruct (GetStmt raw); [by eapply convertMessage_wf | done].
Qed.

(** C22: [Parse] fails closed: it returns statements, in input order and without
    the empty ones, only for an input without a NUL byte that the backend
    accepts; in every other case it returns no result and the one syntax error,
    which is independent of the backend's diagnostic. *)
Theorem Parse_fails_closed `{PQ : PgQuery} build sql :
  (exists tree, (Ascii.zero ∉ string_elems sql) /\ parseBackend build sql = inl tree /\
     Parse build sql =
       (Some {| result_statements :=
                  map Some (omap (fun raw => convertPGNode (GetStmt raw)) (GetStmts tree)) |}, None)) \/
  ((Ascii.zero ∈ string_elems sql \/ exists e, parseBackend build sql = inr e) /\
   Parse build sql = (None, Some (ParserErrorPtr (Some {| pe_category := FailureSyntax |})))).
Proof.
  rewrite Parse_spec. destruct (parseBackend build sql) as [tree|e]; [case_decide|]; eauto 10.
Qed.
