(* ===== verification/TreeProto.v ===== *)
(** * A concrete parser for the examples

    Messages as finite trees give one instance of the reflection interface, for
    which the laws hold; a table from a few SQL texts to the trees PostgreSQL's
    parser produces for them gives one instance of the parser interface.  The
    witnesses of the properties are evaluated on it. *)
From stdpp Require Import base strings list.
From S2P Require Import Prelude.
From S2P Require Import GoFloat.
From S2P Require Import GoRuntime.
From S2P Require Import Nodes.
From S2P Require Import PgQuery.
Local Open Scope string_scope.

(** ** Messages as trees *)
Record tfield : Type := TField {
  tf_name : string; tf_list : bool; tf_kind : ProtoKind; tf_enum : Z -> option string
}.
Record tdesc : Type := TDesc { td_full : string; td_name : string; td_fields : list tfield }.

Inductive tmsg : Type :=
| TNil
| TMsg (d : tdesc) (vals : list (string * tval))
with tval : Type :=
| TBool (b : bool) | TInt (z : Z) | TUint (z : Z) | TFloat (f : float64) | TStr (s : string)
| TBytes (b : list Byte.byte) | TEnum (z : Z) | TSub (m : tmsg) | TList (l : list tval).

Fixpoint tmsg_rank (m : tmsg) : nat :=
  match m with
  | TNil => 0
  | TMsg _ vals => S (max_list (map (fun p => tval_rank p.2) vals))
  end
with tval_rank (v : tval) : nat :=
  match v with
  | TSub m => tmsg_rank m
  | TList l => max_list (map tval_rank l)
  | _ => 0
  end.

Definition tlookup (vals : list (string * tval)) (name : string) : option tval :=
  find_first (fun p => if decide (p.1 = name) then Some p.2 else None) vals.

Definition tget (m : tmsg) (fd : tfield) : option tval :=
  match m with TNil => None | TMsg _ vals => tlookup vals (tf_name fd) end.

Definition tdescriptor (m : tmsg) : tdesc :=
  match m with TNil => TDesc "" "" [] | TMsg d _ => d end.

Definition thas (m : tmsg) (fd : tfield) : bool :=
  match tget m fd with Some _ => true | None => false end.

Definition tmessage (v : tval) : tmsg := match v with TSub m => m | _ => TNil end.

Definition wrap_int64 (z : Z) : Z := ((z + 2 ^ 63) mod 2 ^ 64 - 2 ^ 63)%Z.

#[export] Instance tree_proto : ProtoReflect := {|
  Message := tmsg;
  MessageDescriptor := tdesc;
  OneofDescriptor := list tfield;
  FieldDescriptor := tfield;
  PValue := tval;
  IsValid m := match m with TNil => false | TMsg _ _ => true end;
  Descriptor := tdescriptor;
  WhichOneof m o := find_first (fun fd => if thas m fd then Some fd else None) o;
  Has := thas;
  Get m fd := match tget m fd with Some v => v | None => TSub TNil end;
  FullName := td_full;
  Name := td_name;
  Oneof0 := td_fields;
  Fields := td_fields;
  fd_Name := tf_name;
  fd_IsList := tf_list;
  fd_Kind := tf_kind;
  fd_EnumName := tf_enum;
  pv_Bool v := match v with TBool b => b | _ => false end;
  pv_Int v := match v with TInt z => wrap_int64 z | _ => 0%Z end;
  pv_Uint v := match v with TUint z => (z mod 2 ^ 64)%Z | _ => 0%Z end;
  pv_Float v := match v with TFloat f => f | _ => SpecFloat.S754_zero false end;
  pv_String v := match v with TStr s => s | _ => "" end;
  pv_Bytes v := match v with TBytes b => b | _ => [] end;
  pv_Enum v := match v with TEnum z => z | _ => 0%Z end;
  pv_Message := tmessage;
  pv_List v := match v with TList l => l | _ => [] end;
  msg_rank := tmsg_rank
|}.

(** ** Trees of the PostgreSQL grammar *)
Definition msg_field (name : string) : tfield := TField name false MessageKind (fun _ => None).
Definition list_field (name : string) : tfield := TField name true MessageKind (fun _ => None).
Definition text_field (name : string) : tfield := TField name false StringKind (fun _ => None).
Definition int_field (name : string) : tfield := TField name false Int32Kind (fun _ => None).

Definition object_type (z : Z) : option string :=
  if decide (z = 42)%Z then Some "OBJECT_TABLE"
  else if decide (z = 52)%Z then Some "OBJECT_VIEW" else None.
Definition object_field (name : string) : tfield := TField name false EnumKind object_type.

Definition nodeDesc : tdesc := TDesc "pg_query.Node" "Node"
  (map msg_field ["select_stmt"; "insert_stmt"; "update_stmt"; "delete_stmt"; "drop_stmt";
                  "rename_stmt"; "explain_stmt"; "common_table_expr"; "res_target"; "a_const"]).
Definition selectDesc : tdesc := TDesc "pg_query.SelectStmt" "SelectStmt"
  [list_field "distinct_clause"; list_field "target_list"; msg_field "where_clause"; msg_field "with_clause"].
Definition updateDesc : tdesc := TDesc "pg_query.UpdateStmt" "UpdateStmt"
  [list_field "target_list"; msg_field "where_clause"; msg_field "with_clause"].
Definition deleteDesc : tdesc := TDesc "pg_query.DeleteStmt" "DeleteStmt"
  [msg_field "where_clause"; msg_field "with_clause"].
Definition explainDesc : tdesc := TDesc "pg_query.ExplainStmt" "ExplainStmt" [msg_field "query"].
Definition dropDesc : tdesc := TDesc "pg_query.DropStmt" "DropStmt" [object_field "remove_type"].
Definition renameDesc : tdesc := TDesc "pg_query.RenameStmt" "RenameStmt"
  [object_field "rename_type"; text_field "newname"].
Definition withDesc : tdesc := TDesc "pg_query.WithClause" "WithClause" [list_field "ctes"].
Definition cteDesc : tdesc := TDesc "pg_query.CommonTableExpr" "CommonTableExpr"
  [text_field "ctename"; msg_field "ctequery"].
Definition targetDesc : tdesc := TDesc "pg_query.ResTarget" "ResTarget"
  [text_field "name"; int_field "location"].
Definition constDesc : tdesc := TDesc "pg_query.A_Const" "A_Const" [int_field "location"].

(** A pg_query.Node around a message, and the empty one. *)
Definition wrap (oneof : string) (m : tmsg) : tmsg := TMsg nodeDesc [(oneof, TSub m)].
Definition emptyNode : tmsg := TMsg nodeDesc [].

Definition target (name : string) : tmsg := wrap "res_target" (TMsg targetDesc [("name", TStr name)]).
Definition const : tmsg := wrap "a_const" (TMsg constDesc [("location", TInt 7)]).
Definition with_ctes (ctes : list (string * tmsg)) : tval :=
  TSub (TMsg withDesc [("ctes", TList (map (fun c =>
    TSub (wrap "common_table_expr" (TMsg cteDesc [("ctename", TStr c.1); ("ctequery", TSub c.2)]))) ctes))]).

Definition update_all : tmsg := wrap "update_stmt" (TMsg updateDesc [("target_list", TList [TSub (target "a")])]).
Definition update_where : tmsg :=
  wrap "update_stmt" (TMsg updateDesc [("target_list", TList [TSub (target "a")]); ("where_clause", TSub const)]).
Definition delete_all : tmsg := wrap "delete_stmt" (TMsg deleteDesc []).
Definition select_msg (vals : list (string * tval)) : tmsg := TMsg selectDesc (vals ++ [("target_list", TList [TSub (target "a")])]).
Definition select_one : tmsg := wrap "select_stmt" (select_msg []).
Definition select_with (ctes : list (string * tmsg)) : tmsg :=
  wrap "select_stmt" (select_msg [("with_clause", with_ctes ctes)]).
(** libpg_query represents the bare DISTINCT as a list of one empty node. *)
Definition select_distinct : tmsg := wrap "select_stmt" (select_msg [("distinct_clause", TList [TSub emptyNode])]).
Definition select_where : tmsg := wrap "select_stmt" (select_msg [("where_clause", TSub const)]).
Definition delete_where : tmsg := wrap "delete_stmt" (TMsg deleteDesc [("where_clause", TSub const)]).
Definition explain (m : tmsg) : tmsg := wrap "explain_stmt" (TMsg explainDesc [("query", TSub m)]).
Definition drop_object (z : Z) : tmsg := wrap "drop_stmt" (TMsg dropDesc [("remove_type", TEnum z)]).
Definition rename_table : tmsg :=
  wrap "rename_stmt" (TMsg renameDesc [("rename_type", TEnum 42); ("newname", TStr "b")]).

(** The example inputs. *)
Definition sql_table : list (string * list tmsg) := [
  ("", []);
  ("SELECT a FROM t", [select_one]);
  ("UPDATE t SET a = 1", [update_all]);
  ("SELECT a FROM t; UPDATE t SET a = 1 WHERE 7", [select_one; update_where]);
  ("WITH x AS (UPDATE t SET a = 1 RETURNING a) SELECT a FROM x", [select_with [("x", update_all)]]);
  ("WITH x AS (WITH y AS (DELETE FROM t RETURNING a) SELECT a FROM y) SELECT a FROM x",
    [select_with [("x", select_with [("y", delete_all)])]]);
  ("SELECT DISTINCT a FROM t", [select_distinct]);
  ("EXPLAIN ANALYZE WITH x AS (UPDATE t SET a = 1 RETURNING a) SELECT a FROM x",
    [explain (select_with [("x", update_all)])]);
  ("DROP TABLE t", [drop_object 42]);
  ("DROP VIEW t", [drop_object 52]);
  ("ALTER TABLE a RENAME TO b", [rename_table]);
  ("SELECT account_id FROM accounts WHERE active", [select_where]);
  ("UPDATE accounts SET active = false WHERE account_id = 42", [update_where]);
  ("DELETE FROM sessions WHERE expired", [delete_where])
].

(** The example parser: an unknown text is a syntax error whose diagnostic quotes
    the text. *)
Definition example_parse (sql : string) : list tmsg + string :=
  match find_first (fun p => if decide (p.1 = sql) then Some p.2 else None) sql_table with
  | Some trees => inl trees
  | None => inr ("syntax error at or near " ++ sql)
  end.

#[export] Instance tree_pg : PgQuery := {|
  PGNode := tmsg;
  RawStmt := tmsg;
  ParseResult := list tmsg;
  PGError := string;
  ProtoReflectOf m := m;
  GetStmt raw := Some raw;
  GetStmts trees := trees;
  pg_query_Parse := example_parse;
  wasm_query_Parse := example_parse
|}.

(** ** The laws hold *)
Lemma tget_rank m fd v : tget m fd = Some v -> tval_rank v < tmsg_rank m.
Proof.
  destruct m as [|d vals]; cbn; [done|]. unfold tlookup.
  intros (l1 & [n w] & l2 & -> & _ & H)%find_first_Some. cbn in H. case_decide; simplify_eq.
  apply Nat.lt_succ_r, max_list_elem, list_elem_of_fmap.
  eexists (_, v). split; [done|]. apply elem_of_app. right. left.
Qed.

Lemma tmessage_rank v : tmsg_rank (tmessage v) <= tval_rank v.
Proof. destruct v; cbn; lia. Qed.

Lemma thas_get m fd : thas m fd = true -> exists v, tget m fd = Some v.
Proof. unfold thas. destruct (tget m fd); eauto. done. Qed.

#[export] Instance tree_proto_laws : ProtoReflectLaws tree_proto.
Proof.
  split.
  - intros m fd _ _ (v & Hv)%thas_get _ _. cbn. rewrite Hv.
    pose proof (tget_rank _ _ _ Hv). pose proof (tmessage_rank v). lia.
  - intros m fd w _ _ (v & Hv)%thas_get _ _. cbn. rewrite Hv. intros Hw.
    destruct v; try (by apply not_elem_of_nil in Hw).
    pose proof (tget_rank _ _ _ Hv). pose proof (tmessage_rank w). cbn in *.
    enough (tval_rank w <= max_list (map tval_rank l)) by lia.
    apply max_list_elem, list_elem_of_fmap. by exists w.
  - intros m fd _ (l1 & fd' & l2 & _ & _ & Hf)%find_first_Some. cbn.
    destruct (thas m fd') eqn:Hh; simplify_eq. apply thas_get in Hh as (v & Hv). rewrite Hv.
    pose proof (tget_rank _ _ _ Hv). pose proof (tmessage_rank v). lia.
  - intros v. cbn. destruct v; try lia. unfold wrap_int64.
    pose proof (Z.mod_pos_bound (z + 2 ^ 63) (2 ^ 64)). lia.
  - intros v. cbn. destruct v; try lia. by apply Z.mod_pos_bound.
Qed.
