(* ===== verification/Statements.v ===== *)
(** * The public view of a parsed statement: statement.go

    [View] is the public [Node] struct, a possibly nil parser node; [Walk] is
    the traversal offered to rules.  [node_slots] is its specification: the
    positions of a tree that hold a node pointer, in structural pre-order. *)
From stdpp Require Import base strings list sets relations.
From S2P Require Import Prelude.
From S2P Require Import GoFloat.
From S2P Require Import Nodes.

(** [Node] and [Statement]. *)
Record View : Set := MkView { view_node : ptr Node }.
Record Statement : Set := MkStatement { statement_root : View }.

(** [newStatement]. *)
Definition newStatement (root : ptr Node) : Statement := {| statement_root := {| view_node := root |} |}.

(** [Node.Kind], [Statement.Kind] and [Statement.Root]. *)
Definition View_Kind (n : View) : string := Node_Kind (view_node n).
Definition Statement_Kind (s : Statement) : string := View_Kind (statement_root s).
Definition Root (s : Statement) : View := statement_root s.

(** [Node.value]. *)
Definition View_value (n : View) (name : string) : Value * bool :=
  match view_node n with
  | None => (zeroValue, false)
  | Some _ => Node_Field (view_node n) name
  end.

(** [Node.Child]. *)
Definition Child (n : View) (name : string) : View * bool :=
  let '(value, ok) := View_value n name in
  if negb ok then ({| view_node := None |}, false)
  else
    let '(child, ok) := Value_Node value in
    if negb ok then ({| view_node := None |}, false)
    else ({| view_node := child |}, true).

(** [Node.Children]. *)
Definition Children (n : View) (name : string) : list View :=
  let '(value, ok) := View_value n name in
  if negb ok then []
  else
    let '(values, ok) := Value_List value in
    if negb ok then []
    else
      foldl (fun children item =>
          let '(child, isNode) := Value_Node item in
          if isNode then children ++ [ {| view_node := child |} ] else children)
        [] values.

(** The typed accessors [Bool], [Int], [Uint], [Float], [String], [Bytes] and
    [Enum]. *)
Definition View_Bool (n : View) (name : string) : bool * bool :=
  let '(value, ok) := View_value n name in
  if negb ok then (false, false) else Value_Bool value.
Definition View_Int (n : View) (name : string) : Z * bool :=
  let '(value, ok) := View_value n name in
  if negb ok then (0%Z, false) else Value_Int value.
Definition View_Uint (n : View) (name : string) : Z * bool :=
  let '(value, ok) := View_value n name in
  if negb ok then (0%Z, false) else Value_Uint value.
Definition View_Float (n : View) (name : string) : float64 * bool :=
  let '(value, ok) := View_value n name in
  if negb ok then (SpecFloat.S754_zero false, false) else Value_Float value.
Definition View_String (n : View) (name : string) : string * bool :=
  let '(value, ok) := View_value n name in
  if negb ok then (""%string, false) else Value_String value.
Definition View_Bytes (n : View) (name : string) : list Byte.byte * bool :=
  let '(value, ok) := View_value n name in
  if negb ok then ([], false) else Value_Bytes value.
Definition View_Enum (n : View) (name : string) : string * bool :=
  let '(value, ok) := View_value n name in
  if negb ok then (""%string, false) else Value_Enum value.

(** ** [Walk] *)
Section Walk.
Context {S : Type}.

(** The body of [walkNode], its recursive call a parameter. *)
Definition walkNodeF (visit : View -> M S bool) (walkNode : ptr Node -> M S bool)
    (node : ptr Node) : M S bool :=
  match node with
  | None => mret false
  | Some _ =>
      continue ← visit {| view_node := node |};
      if negb continue then mret false
      else
        r ← for_range (Node_Fields node) (fun field =>
              let value := Field_Value field in
              let '(child, ok) := Value_Node value in
              if ok then
                continue ← walkNode child;
                if negb continue then mret (Some false) else mret None
              else
                let '(values, ok) := Value_List value in
                if negb ok then mret None
                else
                  for_range values (fun item =>
                    let '(child, isNode) := Value_Node item in
                    if isNode then
                      continue ← walkNode child;
                      if negb continue then mret (Some false) else mret None
                    else mret None));
        match r with
        | Some b => mret b
        | None => mret true
        end
  end.

(** [walkNode]. *)
Definition walkNode (node : ptr Node) (visit : View -> M S bool) : M S bool :=
  knot ptr_height (fun _ => mret false) (walkNodeF visit) node.

(** [Node.Walk] and [Statement.Walk]; the visitor is a func value, maybe nil. *)
Definition View_Walk (n : View) (visit : option (View -> M S bool)) : M S unit :=
  match view_node n, visit with
  | Some _, Some visit => _ ← walkNode (view_node n) visit; mret tt
  | _, _ => mret tt
  end.

Definition Statement_Walk (s : Statement) (visit : option (View -> M S bool)) : M S unit :=
  View_Walk (statement_root s) visit.
End Walk.
Arguments walkNode : simpl never.

(** ** Specification of [Walk] *)

(** The positions of a tree that hold a node pointer, in structural pre-order:
    the root, then the node fields and the node items of the list fields; lists
    inside lists are not positions. *)
Fixpoint node_slots (n : Node) : list (ptr Node) :=
  match n with
  | MkNode _ fs => Some n :: flat_map (fun f => match f with MkField _ v => value_slots v end) fs
  end
with value_slots (v : Value) : list (ptr Node) :=
  match v with
  | MkValue ValueNode _ _ _ _ _ _ (Some c) _ => node_slots c
  | MkValue ValueNode _ _ _ _ _ _ None _ => [None]
  | MkValue ValueList _ _ _ _ _ _ _ l => flat_map item_slots l
  | _ => []
  end
with item_slots (v : Value) : list (ptr Node) :=
  match v with
  | MkValue ValueNode _ _ _ _ _ _ (Some c) _ => node_slots c
  | MkValue ValueNode _ _ _ _ _ _ None _ => [None]
  | _ => []
  end.

Definition slots (n : ptr Node) : list (ptr Node) :=
  match n with Some n => node_slots n | None => [None] end.

(** Visiting one position: a nil pointer ends the walk, and so does a visitor
    that returns false. *)
Definition visit_slot {S} (visit : View -> M S bool) (slot : ptr Node) : M S (option bool) :=
  match slot with
  | None => mret (Some false)
  | Some n =>
      continue ← visit {| view_node := Some n |};
      if continue : bool then mret None else mret (Some false)
  end.

(** A visitor that records what it visits and continues as [keep] says. *)
Definition recorder (keep : View -> bool) (v : View) : M (list View) bool :=
  fun log => (Ret (keep v), log ++ [v]).

(** The part of a list of positions that such a visitor sees: up to the first
    node it refuses, that node included, or the first nil pointer. *)
Fixpoint visited (keep : View -> bool) (l : list (ptr Node)) : list View :=
  match l with
  | [] => []
  | None :: _ => []
  | Some n :: l' =>
      let v := {| view_node := Some n |} in
      if keep v then v :: visited keep l' else [v]
  end.

(** [c] is a node that a field of [n], or an item of a list field, holds. *)
Inductive node_child (n c : Node) : Prop :=
| child_field fd :
    fd ∈ Node_Fields (Some n) -> Value_Node (Field_Value fd) = (Some c, true) -> node_child n c
| child_item fd l x :
    fd ∈ Node_Fields (Some n) -> Value_List (Field_Value fd) = (l, true) -> x ∈ l ->
    Value_Node x = (Some c, true) -> node_child n c.

(** ** Lemmas *)
Section WalkFacts.
Context {S : Type} (visit : View -> M S bool).

#[export] Instance walkNode_guarded : Guarded ptr_height (≡) (walkNodeF visit).
Proof.
  intros f g [n|] H; [|done]. cbn. apply M_bind_proper; [|done]. intros [|]; cbn; [|done].
  apply M_bind_proper; [done|]. apply for_range_ext. intros fd Hfd.
  pose proof (field_height _ _ Hfd) as Hh. cbn.
  destruct (Value_Node (Field_Value fd)) as [c []] eqn:Hn.
  - apply M_bind_proper; [done|]. apply H. apply Value_Node_height in Hn. cbn in *. lia.
  - destruct (Value_List (Field_Value fd)) as [l []] eqn:Hl; cbn; [|done].
    apply for_range_ext. intros x Hx. pose proof (Value_List_height _ _ _ Hl Hx).
    destruct (Value_Node x) as [c' []] eqn:Hx'; [|done].
    apply M_bind_proper; [done|]. apply H. apply Value_Node_height in Hx'. cbn in *. lia.
Qed.

Lemma walkNode_unfold n :
  walkNode n visit ≡ walkNodeF visit (fun n => walkNode n visit) n.
Proof. exact (knot_unfold ptr_height (≡) _ (walkNodeF visit) n). Qed.

(** A walk over positions ends early only with false. *)
Lemma for_range_slots_false l :
  (continue ← (r ← for_range l (visit_slot visit); mret (default true r));
   if negb continue then mret (Some false) else mret None)
  ≡ for_range l (visit_slot visit).
Proof.
  induction l as [|[n|] l IH]; cbn; [done| |done].
  rewrite !M_bind_assoc. apply M_bind_proper; [|done]. intros [|]; [|done].
  rewrite !M_ret_bind, <- M_bind_assoc. exact IH.
Qed.

(** The two ways a value is walked, as a walk over its positions. *)
Lemma value_slots_node v c : Value_Node v = (c, true) -> value_slots v = slots c /\ item_slots v = slots c.
Proof. destruct v as [[] b i u f s bs [n|] l]; cbv; intros [= <-]; done. Qed.

Lemma value_slots_list v c l :
  Value_Node v = (c, false) -> Value_List v = (l, true) -> value_slots v = flat_map item_slots l.
Proof. destruct v as [[] b i u f s bs [n|] vs]; cbv; intros ? [= <-]; done. Qed.

Lemma value_slots_scalar v c l :
  Value_Node v = (c, false) -> Value_List v = (l, false) -> value_slots v = [].
Proof. destruct v as [[] b i u f s bs [n|] vs]; cbv; done. Qed.

Lemma item_slots_scalar v c : Value_Node v = (c, false) -> item_slots v = [].
Proof. destruct v as [[] b i u f s bs [n|] vs]; cbv; done. Qed.

Lemma walkNode_slots n :
  walkNode n visit ≡ (r ← for_range (slots n) (visit_slot visit); mret (default true r)).
Proof.
  induction (Nat.lt_wf_0_projected ptr_height n) as [n _ IH]. rewrite walkNode_unfold.
  destruct n as [n|]; cbn; [|done]. destruct n as [k fs] eqn:Hnode. cbn.
  rewrite !M_bind_assoc. apply M_bind_proper; [|done]. intros [|]; cbn; [|done].
  rewrite M_ret_bind. rewrite <- for_range_flat_map.
  apply M_bind_proper; [by intros [b|]|].
  apply for_range_ext. intros fd Hfd.
  pose proof (field_height (MkNode k fs) fd Hfd) as Hh.
  transitivity (for_range (value_slots (Field_Value fd)) (visit_slot visit)); [|by destruct fd].
  destruct (Value_Node (Field_Value fd)) as [c []] eqn:Hn.
  - destruct (value_slots_node _ _ Hn) as [-> _]. rewrite <- for_range_slots_false.
    apply M_bind_proper; [done|]. apply IH. apply Value_Node_height in Hn. cbn in *. lia.
  - destruct (Value_List (Field_Value fd)) as [l []] eqn:Hl; cbn.
    + rewrite (value_slots_list _ _ _ Hn Hl), <- for_range_flat_map.
      apply for_range_ext. intros x Hx. pose proof (Value_List_height _ _ _ Hl Hx).
      destruct (Value_Node x) as [c' []] eqn:Hx'; [|by rewrite (item_slots_scalar _ _ Hx')].
      destruct (value_slots_node _ _ Hx') as [_ ->]. rewrite <- for_range_slots_false.
      apply M_bind_proper; [done|]. apply IH. apply Value_Node_height in Hx'. cbn in *. lia.
    + by rewrite (value_slots_scalar _ _ _ Hn Hl).
Qed.
End WalkFacts.

(** The recording visitor over a list of positions. *)
Lemma for_range_recorder keep l log :
  exists r, for_range l (visit_slot (recorder keep)) log = (Ret r, log ++ visited keep l).
Proof.
  revert log. induction l as [|[n|] l IH]; intros log; cbn.
  - exists None. by rewrite app_nil_r.
  - unfold mbind, M_bind, recorder, mret, M_ret. cbn. destruct (keep _).
    + destruct (IH (log ++ [ {| view_node := Some n |} ])) as (r & Hr). exists r.
      fold (@recorder keep). rewrite Hr. by rewrite <- app_assoc.
    + by exists (Some false).
  - exists (Some false). by rewrite app_nil_r.
Qed.

Lemma visited_all keep l :
  (forall v, keep v = true) ->
  visited keep (map Some l) = map (fun n => {| view_node := Some n |}) l.
Proof. intros H. induction l as [|n l IH]; cbn; [done|]. by rewrite H, IH. Qed.

Lemma visited_prefix keep l : exists k, visited keep l = map MkView (take k l).
Proof.
  induction l as [|[n|] l (k & IH)]; cbn; [by exists 0| |by exists 0].
  destruct (keep _); [exists (S k); cbn; by rewrite IH | by exists 1].
Qed.

(** The positions of a value, by the accessors. *)
Lemma value_slots_elem v m :
  Some m ∈ value_slots v <->
  (exists c, Value_Node v = (Some c, true) /\ Some m ∈ node_slots c) \/
  (exists l x c, Value_List v = (l, true) /\ x ∈ l /\ Value_Node x = (Some c, true) /\ Some m ∈ node_slots c).
Proof.
  assert (forall x, Some m ∈ item_slots x <-> exists c, Value_Node x = (Some c, true) /\ Some m ∈ node_slots c)
    as Hitem.
  { intros x. destruct (Value_Node x) as [[c|] []] eqn:Hx.
    1,3: destruct (value_slots_node _ _ Hx) as [_ ->]; cbn; set_solver.
    all: rewrite (item_slots_scalar _ _ Hx); set_solver. }
  destruct (Value_Node v) as [c []] eqn:Hv.
  - destruct (value_slots_node _ _ Hv) as [-> _].
    assert (forall l, Value_List v <> (l, true)) as Hl.
    { intros l [_ Hk]%Value_List_true. apply Value_Node_true in Hv as [_ Hk']. congruence. }
    destruct c as [c|]; cbn; split; naive_solver (set_solver).
  - destruct (Value_List v) as [l []] eqn:Hl.
    + rewrite (value_slots_list _ _ _ Hv Hl), elem_of_flat_map. setoid_rewrite Hitem. naive_solver.
    + rewrite (value_slots_scalar _ _ _ Hv Hl). set_solver.
Qed.

(** The positions of a tree hold exactly the root and its descendants. *)
Lemma node_slots_elem n m : Some m ∈ node_slots n <-> rtc node_child n m.
Proof.
  revert n. enough (forall h n, node_height n < h -> Some m ∈ node_slots n <-> rtc node_child n m) by eauto.
  induction h as [|h IH]; intros n Hh; [lia|].
  assert (Some m ∈ node_slots n <-> m = n \/ exists c, node_child n c /\ Some m ∈ node_slots c) as ->.
  { destruct n as [k fs]. cbn [node_slots]. rewrite elem_of_cons, elem_of_flat_map.
    split; (intros [Heq|H]; [left; congruence | right]).
    - destruct H as ([fn v] & Hf & [(c & Hc & Hm)|(l & x & c & Hl & Hx & Hc & Hm)]%value_slots_elem);
        exists c; (split; [|done]); [by eapply (child_field _ _ (MkField fn v)) |
          by eapply (child_item _ _ (MkField fn v))].
    - destruct H as (c & [[fn v] Hf Hc|[fn v] l x Hf Hl Hx Hc] & Hm);
        exists (MkField fn v); (split; [done|]); apply value_slots_elem; [by left; eauto | right; by eauto 10]. }
  assert (forall c, node_child n c -> node_height c < node_height n) as Hlt.
  { intros c [fd Hf Hc|fd l x Hf Hl Hx Hc]; apply field_height in Hf;
      apply Value_Node_height in Hc; [|pose proof (Value_List_height _ _ _ Hl Hx)]; cbn in *; lia. }
  split.
  - intros [->|(c & Hc & Hm)]; [done|]. eapply rtc_l; [done|]. apply IH; [|done].
    specialize (Hlt _ Hc). lia.
  - intros [->|(c & Hc & Hm)]%rtc_inv; [by left|]. right. exists c. split; [done|].
    apply IH; [|done]. specialize (Hlt _ Hc). lia.
Qed.

(** ** Properties *)

(** C31: [Walk] calls the visitor at the node positions of the tree in structural
    pre-order and stops at the first position where the visitor returns false or
    that holds a nil pointer; on a nil node or with a nil visitor it does
    nothing.  This holds for every visitor, whatever state it keeps and whether or
    not it panics. *)
Theorem Walk_preorder {S} (n : View) (visit : option (View -> M S bool)) :
  View_Walk n visit ≡
  match view_node n, visit with
  | Some node, Some visit => _ ← for_range (node_slots node) (visit_slot visit); mret tt
  | _, _ => mret tt
  end.
Proof.
  destruct n as [[n|]], visit as [visit|]; try done. cbn.
  rewrite walkNode_slots, M_bind_assoc. apply M_bind_proper; [|done].
  intros r. by rewrite M_ret_bind.
Qed.

(** On a tree without nil node pointers, a visitor that never stops sees the
    root and every descendant, and nothing else. *)
Theorem Walk_complete (n m : Node) :
  (None ∉ node_slots n) ->
  exists log : list View,
    View_Walk {| view_node := Some n |} (Some (recorder (fun _ => true))) [] = (Ret tt, log) /\
    (MkView (Some m) ∈ log <-> rtc node_child n m).
Proof.
  intros Hnil. assert (exists l, node_slots n = map Some l) as (l & Hl).
  { induction (node_slots n) as [|[x|] xs IH]; [by exists []| |by destruct Hnil; left].
    destruct IH as (l & ->); [set_solver | by exists (x :: l)]. }
  exists (visited (fun _ => true) (node_slots n)). split.
  - destruct (for_range_recorder (fun _ => true) (node_slots n) []) as (r & Hr).
    pose proof (walkNode_slots (recorder (fun _ => true)) (Some n) []) as Hw. cbn in *.
    unfold mbind, M_bind in *. cbn in *. rewrite Hr in Hw. by rewrite Hw.
  - rewrite <- node_slots_elem, Hl, visited_all by done.
    rewrite !list_elem_of_fmap. split; intros (x & Hx & Hin); exists x; naive_solver.
Qed.

(** A nil node pointer inside the tree ends the whole walk, although the
    visitor never returned false: what follows it, whatever it is, is not
    visited. *)
Theorem Walk_stops_at_nil n l1 rest :
  node_slots n = map Some l1 ++ None :: rest ->
  View_Walk {| view_node := Some n |} (Some (recorder (fun _ => true))) [] =
    (Ret tt, map (fun n => {| view_node := Some n |}) l1).
Proof.
  intros Hl. destruct (for_range_recorder (fun _ => true) (node_slots n) []) as (r & Hr).
  pose proof (walkNode_slots (recorder (fun _ => true)) (Some n) []) as Hw. cbn in *.
  unfold mbind, M_bind in *. cbn in *. rewrite Hr in Hw. rewrite Hw. cbn. f_equal.
  rewrite Hl. clear. induction l1 as [|n l IH]; cbn; [done | by rewrite IH].
Qed.

(** The kind of a named field, [ValueInvalid] when the node has none. *)
Definition field_kind (n : View) (name : string) : ValueKind :=
  let '(value, ok) := View_value n name in if ok then kind_of value else ValueInvalid.

Lemma View_value_wf n name :
  wf_node n -> wf_value (View_value {| view_node := Some n |} name).1.
Proof.
  intros [k fs Hfs]. unfold View_value. cbn.
  destruct (Node_Field _ name) as [v []] eqn:Hf; cbn.
  - apply Node_Field_elem in Hf as (m & [= <-] & Hin).
    exact (proj1 (Forall_forall _ _) Hfs _ Hin).
  - apply Node_Field_false in Hf as ->. constructor; cbn; [done|lia|lia|done|done].
Qed.

(** On a well-formed tree each typed accessor succeeds exactly for the fields
    of its kind and returns its type's zero value otherwise, so no payload of
    another kind is ever observed. *)
Theorem accessors_exclusive n name :
  wf_node n ->
  let view := {| view_node := Some n |} in
  let k := field_kind view name in
  let v := (View_value view name).1 in
  View_Bool view name = (if decide (k = ValueBool) then (boolValue v, true) else (false, false)) /\
  View_Int view name = (if decide (k = ValueInt) then (intValue v, true) else (0%Z, false)) /\
  View_Uint view name = (if decide (k = ValueUint) then (uintValue v, true) else (0%Z, false)) /\
  View_Float view name =
    (if decide (k = ValueFloat) then (floatValue v, true) else (SpecFloat.S754_zero false, false)) /\
  (View_String view name).2 = bool_decide (k = ValueString) /\
  (View_Enum view name).2 = bool_decide (k = ValueEnum) /\
  View_Bytes view name = (if decide (k = ValueBytes) then (bytesValue v, true) else ([], false)) /\
  Child view name = (if decide (k = ValueNode) then ({| view_node := nodeValue v |}, true)
                     else ({| view_node := None |}, false)) /\
  (k <> ValueList -> Children view name = []).
Proof.
  intros Hwf view k v. pose proof (View_value_wf n name Hwf) as Hv. subst v k view.
  unfold field_kind, View_Bool, View_Int, View_Uint, View_Float, View_String, View_Enum,
    View_Bytes, Child, Children.
  destruct (View_value _ name) as [v []]; cbn in *; [|naive_solver].
  inversion Hv as [? Hp _ _ _ _]; subst. clear Hv.
  destruct v as [[] b i u f s bs nd l]; cbv in Hp; inversion Hp; subst; repeat split; done.
Qed.
