(* ===== verification/ConvertedTree.v ===== *)
(** * The converted tree as a whole (internal/parser/pgquery.go)

    PgQuery.v says what one converted message holds.  Here the whole tree of nodes is
    compared with the whole tree of protobuf messages: pg_query.Node wrappers are looked
    through, everything else has a node, and nothing else has. *)
From stdpp Require Import base strings list relations.
From S2P Require Import Prelude.
From S2P Require Import GoRuntime.
From S2P Require Import Nodes.
From S2P Require Import PgQuery.
From S2P Require Import Statements.

Section ConvertedTree.
Context `{PRL : ProtoReflectLaws}.
Implicit Types (m h : Message) (n c : Node).

(** ** Specification *)
Definition wrapper m : Prop := FullName (Descriptor m) = pgQueryNodeName.

(** [h] is in a populated message field of [m]. *)
Inductive holds_message m h : Prop :=
| holds_field fd :
    fd ∈ Fields (Descriptor m) -> Has m fd = true -> is_message_kind (fd_Kind fd) = true ->
    fd_IsList fd = false -> h = pv_Message (Get m fd) -> holds_message m h
| holds_item fd v :
    fd ∈ Fields (Descriptor m) -> Has m fd = true -> is_message_kind (fd_Kind fd) = true ->
    fd_IsList fd = true -> v ∈ pv_List (Get m fd) -> h = pv_Message v -> holds_message m h.

(** Looking through wrappers. *)
Inductive unwraps m : Message -> Prop :=
| unwraps_self : IsValid m = true -> ~ wrapper m -> unwraps m m
| unwraps_member fd m' :
    IsValid m = true -> wrapper m -> WhichOneof m (Oneof0 (Descriptor m)) = Some fd ->
    unwraps (pv_Message (Get m fd)) m' -> unwraps m m'.

(** [m'] is a concrete message that [m] holds, maybe in wrappers. *)
Definition message_child m m' : Prop := exists h, holds_message m h /\ unwraps h m'.

(** The node of a concrete message. *)
Definition node_of m : Node := MkNode (Name (Descriptor m)) (converted_fields m).

(** ** Lemmas *)
Lemma unwraps_concrete m m' : unwraps m m' -> IsValid m' = true /\ ~ wrapper m'.
Proof. by induction 1. Qed.

Lemma convertMessage_unwraps m n : convertMessage m = Some n <-> exists m', unwraps m m' /\ n = node_of m'.
Proof.
  split.
  - revert n. induction (Nat.lt_wf_0_projected msg_rank m) as [m _ IH]. intros n Hn.
    destruct (IsValid m) eqn:Hv; [|by rewrite convertMessage_unfold in Hn; unfold convertMessageF in Hn; rewrite Hv in Hn].
    destruct (decide (FullName (Descriptor m) = pgQueryNodeName)) as [Hw|Hw].
    + rewrite convertMessage_wrapper in Hn by done.
      destruct (WhichOneof _ _) as [fd|] eqn:Hfd; [|done].
      destruct (IH _ (rank_oneof _ _ Hv Hfd) n Hn) as (m' & Hm' & ->).
      exists m'. split; [by eapply unwraps_member | done].
    + rewrite convertMessage_node in Hn by done. injection Hn as <-. exists m. split; [by constructor | done].
  - intros (m' & Hm & ->). induction Hm as [m Hv Hw|m fd m' Hv Hw Hfd _ IH]; [by apply convertMessage_node|].
    by rewrite convertMessage_wrapper, Hfd.
Qed.

Lemma Value_Node_singular fd v c :
  Value_Node (convertSingularValue convertMessage fd v) = (Some c, true) <->
  is_message_kind (fd_Kind fd) = true /\ convertMessage (pv_Message v) = Some c.
Proof.
  unfold convertSingularValue, Value_Node.
  destruct (fd_Kind fd); try destruct (fd_EnumName _ _); cbn; naive_solver congruence.
Qed.

Lemma Value_List_singular fd v l : Value_List (convertSingularValue convertMessage fd v) <> (l, true).
Proof.
  unfold convertSingularValue, Value_List. by destruct (fd_Kind fd); try destruct (fd_EnumName _ _).
Qed.

(** One step down the node tree is one step down the message tree. *)
Lemma node_of_child m c : node_child (node_of m) c <-> exists m', message_child m m' /\ c = node_of m'.
Proof.
  assert (forall f, f ∈ Node_Fields (Some (node_of m)) <->
    exists fd, fd ∈ Fields (Descriptor m) /\ Has m fd = true /\
      f = MkField (fd_Name fd) (convertValue convertMessage fd (Get m fd))) as Hfields.
  { intros f. unfold node_of, converted_fields. cbn. rewrite list_elem_of_fmap.
    split; [intros (fd & -> & [Hh Hin]%list_elem_of_filter) | intros (fd & Hin & Hh & ->)].
    - by exists fd.
    - exists fd. split; [done|]. by apply list_elem_of_filter. }
  split.
  - intros [f Hf Hc|f l x Hf Hl Hx Hc]; apply Hfields in Hf as (fd & Hin & Hh & ->);
      unfold convertValue in *; cbn [Field_Value] in *; destruct (fd_IsList fd) eqn:Hlist.
    + done.
    + apply Value_Node_singular in Hc as [Hk (m' & Hm' & ->)%convertMessage_unwraps].
      exists m'. split; [|done]. eexists. split; [by eapply holds_field | done].
    + injection Hl as <-. apply list_elem_of_fmap in Hx as (v & -> & Hv).
      apply Value_Node_singular in Hc as [Hk (m' & Hm' & ->)%convertMessage_unwraps].
      exists m'. split; [|done]. eexists. split; [by eapply holds_item | done].
    + by apply Value_List_singular in Hl.
  - intros (m' & (h & Hh & Hu) & ->).
    assert (convertMessage h = Some (node_of m')) as Hc by (apply convertMessage_unwraps; eauto).
    destruct Hh as [fd Hin Hhas Hk Hlist ->|fd v Hin Hhas Hk Hlist Hv ->].
    + eapply child_field; [apply Hfields; by exists fd|]. cbn. unfold convertValue. rewrite Hlist.
      by apply Value_Node_singular.
    + eapply (child_item _ _ _ (map (convertSingularValue convertMessage fd) (pv_List (Get m fd)))
        (convertSingularValue convertMessage fd v)); [apply Hfields; by exists fd | | |].
      * cbn. unfold convertValue. by rewrite Hlist.
      * by apply list_elem_of_fmap_2.
      * by apply Value_Node_singular.
Qed.

Lemma node_of_descendant m c :
  rtc node_child (node_of m) c <-> exists m', rtc message_child m m' /\ c = node_of m'.
Proof.
  split.
  - intros H. remember (node_of m) as n eqn:Hn. revert m Hn. induction H as [n|n d c Hd _ IH]; intros m ->.
    + by exists m.
    + apply node_of_child in Hd as (m1 & Hm1 & ->). destruct (IH m1 eq_refl) as (m' & Hm' & ->).
      exists m'. split; [by eapply rtc_l | done].
  - intros (m' & H & ->). induction H as [m|m m1 m' Hm _ IH]; [done|].
    eapply rtc_l; [|exact IH]. apply node_of_child. eauto.
Qed.

Lemma message_descendant_concrete m m' :
  IsValid m = true /\ ~ wrapper m -> rtc message_child m m' -> IsValid m' = true /\ ~ wrapper m'.
Proof. intros H. induction 1 as [|m m1 m' (h & _ & Hu) _ IH]; [done|]. apply IH. by eapply unwraps_concrete. Qed.
End ConvertedTree.

(** ** Properties *)

(** C23: The trees that [Parse] returns are the backend's trees without the wrappers: a node
    is in one of them exactly when it is the node of a concrete message that is held,
    directly or through others and through any wrappers, by a statement of the backend; no
    such message is a wrapper, and its node has its name and its populated fields. *)
Theorem Parse_tree_exact `{PRL : ProtoReflectLaws} `{PQ : !PgQuery (PR:=PR)} build sql r err c :
  Parse build sql = (Some r, err) ->
  exists tree, parseBackend build sql = inl tree /\
  ((exists n, Some n ∈ result_statements r /\ rtc node_child n c) <->
   exists raw source m m',
     raw ∈ GetStmts tree /\ GetStmt raw = Some source /\ unwraps (ProtoReflectOf source) m /\
     rtc message_child m m' /\ IsValid m' = true /\ ~ wrapper m' /\
     c = MkNode (Name (Descriptor m')) (converted_fields m')).
Proof.
  intros (_ & _ & tree & Htree & Hstmts)%Parse_success. exists tree. split; [done|]. rewrite Hstmts. split.
  - intros (n & (n' & [= <-] & (raw & Hraw & Hc)%list_elem_of_omap)%list_elem_of_fmap & Hdesc).
    unfold convertPGNode in Hc. destruct (GetStmt raw) as [source|] eqn:Hs; [|done].
    apply convertMessage_unwraps in Hc as (m & Hm & ->).
    apply node_of_descendant in Hdesc as (m' & Hm' & ->). exists raw, source, m, m'.
    destruct (message_descendant_concrete _ _ (unwraps_concrete _ _ Hm) Hm'). by split_and!.
  - intros (raw & source & m & m' & Hraw & Hs & Hm & Hm' & _ & _ & ->). exists (node_of m). split.
    + apply list_elem_of_fmap. exists (node_of m). split; [done|]. apply list_elem_of_omap. exists raw.
      split; [done|]. unfold convertPGNode. rewrite Hs. apply convertMessage_unwraps. eauto.
    + apply node_of_descendant. eauto.
Qed.
