(* ===== verification/ParseMemory.v ===== *)
(** * The conversion in the store (internal/parser/pgquery.go)

    PgQuery.v says which tree the conversion gives.  Here it builds that tree in memory:
    it allocates nodes and backing arrays, and reads the backend's byte slices where they
    are.  The tree turns out to share no memory with the backend, so that it outlives the
    parse tree and every later use of the backend's memory. *)
From stdpp Require Import base gmap sets strings list relations.
From S2P Require Import Prelude.
From S2P Require Import GoRuntime.
From S2P Require Import GoFloat.
From S2P Require Import Nodes.
From S2P Require Import Snapshots.
From S2P Require Import HeapBuild.
From S2P Require Import PgQuery.
From S2P Require Import Statements.
From S2P Require Import ConvertedTree.

(** Where the backend keeps the bytes of a value: [source.Bytes()]. *)
Class ProtoMemory `{PR : ProtoReflect} : Type := { pv_BytesSlice : PValue -> option slice }.

Definition hzero : float64 := SpecFloat.S754_zero false.

Section conversion.
Context `{PM : ProtoMemory} (round_up : nat -> nat).

(** [append([]byte(nil), b...)] of a slice in memory. *)
Definition copy_bytes (b : option slice) : M store (option slice) := fun h =>
  let '(s, h') := append_nil round_up (T:=Byte.byte) (read h b) h in (Ret s, h').

(** [convertSingularValue]. *)
Definition hconvertSingularValue (convertMessage : Message -> M store (option loc))
    (descriptor : FieldDescriptor) (source : PValue) : M store hvalue :=
  match fd_Kind descriptor with
  | BoolKind => mret (HValue ValueBool (pv_Bool source) 0 0 hzero "" None None None)
  | Int32Kind | Sint32Kind | Sfixed32Kind | Int64Kind | Sint64Kind | Sfixed64Kind =>
      mret (HValue ValueInt false (pv_Int source) 0 hzero "" None None None)
  | Uint32Kind | Fixed32Kind | Uint64Kind | Fixed64Kind =>
      mret (HValue ValueUint false 0 (pv_Uint source) hzero "" None None None)
  | FloatKind | DoubleKind => mret (HValue ValueFloat false 0 0 (pv_Float source) "" None None None)
  | StringKind => mret (HValue ValueString false 0 0 hzero (pv_String source) None None None)
  | BytesKind =>
      bytes ← copy_bytes (pv_BytesSlice source);
      mret (HValue ValueBytes false 0 0 hzero "" bytes None None)
  | EnumKind =>
      match fd_EnumName descriptor (pv_Enum source) with
      | None => mret (HValue ValueEnum false 0 0 hzero "" None None None)
      | Some name => mret (HValue ValueEnum false 0 0 hzero name None None None)
      end
  | MessageKind | GroupKind =>
      node ← convertMessage (pv_Message source);
      mret (HValue ValueNode false 0 0 hzero "" None node None)
  | OtherKind _ => mret zero_hvalue
  end.

(** [convertValue]. *)
Definition hconvertValue (convertMessage : Message -> M store (option loc))
    (descriptor : FieldDescriptor) (source : PValue) : M store hvalue :=
  if fd_IsList descriptor then
    let list_ := pv_List source in
    values ← make_slice hvalue (length list_);
    values ← build round_up (fun item => v ← hconvertSingularValue convertMessage descriptor item; mret (Some v))
               list_ values;
    mret (HValue ValueList false 0 0 hzero "" None None values)
  else hconvertSingularValue convertMessage descriptor source.

(** The body of the loop over the descriptors. *)
Definition hconvertField (convertMessage : Message -> M store (option loc)) (source : Message)
    (field : FieldDescriptor) : M store (option hfield) :=
  if negb (Has source field) then mret None
  else
    v ← hconvertValue convertMessage field (Get source field);
    mret (Some {| hf_name := fd_Name field; hf_value := v |}).

(** The body of [convertMessage]. *)
Definition hconvertMessageF (convertMessage : Message -> M store (option loc)) (source : Message) :
    M store (option loc) :=
  if negb (IsValid source) then mret None
  else
    let descriptor := Descriptor source in
    if decide (FullName descriptor = pgQueryNodeName) then
      match WhichOneof source (Oneof0 descriptor) with
      | None => mret None
      | Some field => convertMessage (pv_Message (Get source field))
      end
    else
      fields ← make_slice hfield (length (Fields descriptor));
      fields ← build round_up (hconvertField convertMessage source) (Fields descriptor) fields;
      new_cell (CNode (Name descriptor) fields).

(** [convertMessage]. *)
Definition hconvertMessage : Message -> M store (option loc) :=
  knot msg_rank (fun _ => mret None) hconvertMessageF.
End conversion.

Arguments hconvertMessage {PR PM} round_up : simpl never.

Section parse.
Context `{PQ : PgQuery} `{PM : !ProtoMemory} (round_up : nat -> nat) (build_ : Build).

(** [convertPGNode]. *)
Definition hconvertPGNode (source : ptr PGNode) : M store (option loc) :=
  match source with
  | None => mret None
  | Some source => hconvertMessage round_up (ProtoReflectOf source)
  end.

(** The body of the loop of [Parse]: a nil statement is not appended. *)
Definition hconvertStatement (rawStatement : RawStmt) : M store (option (option loc)) :=
  statement ← hconvertPGNode (GetStmt rawStatement);
  match statement with
  | Some l => mret (Some (Some l))
  | None => mret None
  end.

(** [Parse]. *)
Definition hParse (sql : string) : M store (option loc * option goerror) :=
  if decide (0 <= IndexByte sql Ascii.zero)%Z then
    mret (None, Some (ParserErrorPtr (Some {| pe_category := FailureSyntax |})))
  else
    match parseBackend build_ sql with
    | inr _ => mret (None, Some (ParserErrorPtr (Some {| pe_category := FailureSyntax |})))
    | inl tree =>
        statements ← make_slice (option loc) (length (GetStmts tree));
        statements ← build round_up hconvertStatement (GetStmts tree) statements;
        result ← new_cell (CResult statements);
        mret (result, None)
    end.
End parse.

(** ** What the backend's memory must hold *)
Section memory.
Context `{PM : ProtoMemory}.

(** [m'] is in a populated field of [m], or the member of the wrapper [m]. *)
Inductive part_of (m m' : Message) : Prop :=
| part_held : holds_message m m' -> part_of m m'
| part_member fd : IsValid m = true -> WhichOneof m (Oneof0 (Descriptor m)) = Some fd -> m' = pv_Message (Get m fd) -> part_of m m'.

(** [v] is a byte string in a populated field of [m]. *)
Inductive holds_bytes (m : Message) (v : PValue) : Prop :=
| bytes_field fd :
    fd ∈ Fields (Descriptor m) -> Has m fd = true -> fd_Kind fd = BytesKind -> fd_IsList fd = false ->
    v = Get m fd -> holds_bytes m v
| bytes_item fd :
    fd ∈ Fields (Descriptor m) -> Has m fd = true -> fd_Kind fd = BytesKind -> fd_IsList fd = true ->
    v ∈ pv_List (Get m fd) -> holds_bytes m v.

(** The bytes of the whole message are in memory. *)
Definition backed (h : store) (m : Message) : Prop :=
  forall m' v, rtc part_of m m' -> holds_bytes m' v -> holds h (pv_BytesSlice v) (pv_Bytes v).

Lemma backed_part h m m' : backed h m -> part_of m m' -> backed h m'.
Proof. intros Hb Hp m'' v Hm''. apply Hb. by eapply rtc_l. Qed.

Lemma backed_mono h h' m : h ⊆ h' -> backed h m -> backed h' m.
Proof. intros Hsub Hb m' v Hm Hv. eapply holds_mono; [exact Hsub | by eapply Hb]. Qed.
End memory.

(** ** Lemmas *)
Section facts.
Context `{PRL : ProtoReflectLaws} `{PM : !ProtoMemory} (round_up : nat -> nat).

Lemma adds_copy s (bs : list Byte.byte) h : holds h s bs -> adds holds (copy_bytes round_up s) bs h.
Proof.
  intros Hs. unfold adds, copy_bytes. cbv beta. rewrite (holds_read _ _ _ Hs).
  destruct (append_nil round_up bs h) as [s' h'] eqn:Ha. exists s', h'.
  apply append_nil_spec in Ha as (Hsub & Hh & Hnew). split_and!; [done..|]. by apply holds_new.
Qed.

Lemma scalar_at d k b i u f s : value_at d (HValue k b i u f s None None None) (MkValue k b i u f s [] None []).
Proof. apply (ValueAt d k b i u f s None [] None None None [] []); by constructor. Qed.

Lemma field_at_mono' h h' hf f : h ⊆ h' -> field_at h hf f -> field_at h' hf f.
Proof. intros H. by apply field_at_mono. Qed.

Lemma value_at_mono' h h' hv v : h ⊆ h' -> value_at h hv v -> value_at h' hv v.
Proof. intros H. by apply value_at_mono. Qed.

Lemma ptr_at_mono' h h' p n : h ⊆ h' -> ptr_at h p n -> ptr_at h' p n.
Proof. intros H. by apply ptr_at_mono. Qed.

Lemma adds_singular fd v h :
  (is_message_kind (fd_Kind fd) = true ->
     adds ptr_at (hconvertMessage round_up (pv_Message v)) (convertMessage (pv_Message v)) h) ->
  (fd_Kind fd = BytesKind -> holds h (pv_BytesSlice v) (pv_Bytes v)) ->
  adds value_at (hconvertSingularValue round_up (hconvertMessage round_up) fd v)
    (convertSingularValue convertMessage fd v) h.
Proof.
  intros Hm Hb. unfold hconvertSingularValue, convertSingularValue.
  destruct (fd_Kind fd); 
    try match goal with |- context [fd_EnumName ?a ?b] => destruct (fd_EnumName a b) end; try (apply adds_ret, scalar_at).
  - eapply adds_map; [by apply adds_copy, Hb|]. cbv beta. intros d s Hs.
    apply (ValueAt d ValueBytes false 0 0 hzero "" s (pv_Bytes v) None None None [] []); [exact Hs | constructor | done | constructor].
  - eapply adds_map; [by apply Hm|]. cbv beta. intros d n Hn.
    apply (ValueAt d ValueNode false 0 0 hzero "" None [] n (convertMessage (pv_Message v)) None [] []);
      [done | exact Hn | done | constructor].
  - eapply adds_map; [by apply Hm|]. cbv beta. intros d n Hn.
    apply (ValueAt d ValueNode false 0 0 hzero "" None [] n (convertMessage (pv_Message v)) None [] []);
      [done | exact Hn | done | constructor].
Qed.

(** ** The recursive equation *)
Lemma build_proper `{Elem T} {X} (f g : X -> M store (option T)) xs s :
  (forall x, x ∈ xs -> f x ≡ g x) -> build round_up f xs s ≡ build round_up g xs s.
Proof.
  revert s. induction xs as [|x xs IH]; intros s Hfg; [done|]. cbn [build].
  apply M_bind_proper; [|apply Hfg; left]. intros [t|].
  - apply M_bind_proper; [|done]. intros s'. apply IH. intros y Hy. apply Hfg. by right.
  - apply IH. intros y Hy. apply Hfg. by right.
Qed.

Lemma hconvertSingularValue_proper f g fd v :
  (is_message_kind (fd_Kind fd) = true -> f (pv_Message v) ≡ g (pv_Message v)) ->
  hconvertSingularValue round_up f fd v ≡ hconvertSingularValue round_up g fd v.
Proof.
  unfold hconvertSingularValue. intros H. destruct (fd_Kind fd); try done; (apply M_bind_proper; [done | by apply H]).
Qed.

#[export] Instance hconvertMessage_guarded : Guarded msg_rank (≡) (hconvertMessageF round_up).
Proof.
  intros f g m H. unfold hconvertMessageF. destruct (IsValid m) eqn:Hv; cbn [negb]; [|done]. case_decide.
  - destruct (WhichOneof _ _) as [fd|] eqn:Hw; [|done]. apply H. by apply rank_oneof.
  - apply M_bind_proper; [|done]. intros fields. apply M_bind_proper; [done|].
    apply build_proper. intros fd Hin. unfold hconvertField. destruct (Has m fd) eqn:Hh; cbn [negb]; [|done].
    apply M_bind_proper; [done|]. unfold hconvertValue. destruct (fd_IsList fd) eqn:Hl.
    + apply M_bind_proper; [|done]. intros values. apply M_bind_proper; [done|].
      apply build_proper. intros v Hvin. apply M_bind_proper; [done|].
      apply hconvertSingularValue_proper. intros Hk. apply H. by eapply rank_list.
    + apply hconvertSingularValue_proper. intros Hk. apply H. by apply rank_field.
Qed.

Lemma hconvertMessage_unfold m :
  hconvertMessage round_up m ≡ hconvertMessageF round_up (hconvertMessage round_up) m.
Proof. exact (knot_unfold msg_rank (≡) _ _ m). Qed.

(** ** The conversion adds the converted tree *)
Lemma adds_proper {A B} (R : store -> A -> B -> Prop) (m m' : M store A) b h :
  m ≡ m' -> adds R m' b h -> adds R m b h.
Proof. intros Hm (x & h' & Hrun & H). exists x, h'. by rewrite (Hm h). Qed.

Lemma omap_Some_map {A B} (f : A -> B) l : omap (fun x => Some (f x)) l = map f l.
Proof. induction l as [|x l IH]; [done|]. cbn. by rewrite IH. Qed.

Lemma map_Some_omap {A B} (f : A -> option B) l : map Some (omap f l) = omap (fun x => Some <$> f x) l.
Proof. induction l as [|x l IH]; [done|]. cbn. destruct (f x); cbn; [f_equal|]; exact IH. Qed.

Lemma converted_fields_omap m :
  converted_fields m =
  omap (fun fd => if Has m fd then Some (MkField (fd_Name fd) (convertValue convertMessage fd (Get m fd))) else None)
    (Fields (Descriptor m)).
Proof.
  unfold converted_fields. set (field := fun fd => MkField _ _).
  induction (Fields (Descriptor m)) as [|fd l IH]; [done|]. cbn [omap list_omap].
  destruct (Has m fd) eqn:Hh.
  - rewrite filter_cons_True by done. cbn [map]. by rewrite IH.
  - rewrite filter_cons_False by congruence. exact IH.
Qed.

Lemma adds_value m fd mem h :
  IsValid m = true -> fd ∈ Fields (Descriptor m) -> Has m fd = true -> backed mem m -> mem ⊆ h ->
  (forall m' h', msg_rank m' < msg_rank m -> backed mem m' -> mem ⊆ h' ->
     adds ptr_at (hconvertMessage round_up m') (convertMessage m') h') ->
  adds value_at (hconvertValue round_up (hconvertMessage round_up) fd (Get m fd))
    (convertValue convertMessage fd (Get m fd)) h.
Proof.
  intros Hv Hin Hh Hb Hsub IH. unfold hconvertValue, convertValue. destruct (fd_IsList fd) eqn:Hl.
  - eapply adds_map.
    + eapply (make_build round_up value_at _ (fun v => Some (convertSingularValue convertMessage fd v)));
        [intros *; apply value_at_mono'|]. intros v h' Hvin Hh'.
      eapply (adds_map value_at); [|cbv beta; intros d x Hx; exact Hx]. apply adds_singular.
      * intros Hk. apply IH; [by eapply rank_list | | by etrans].
        eapply backed_part; [exact Hb|]. apply part_held. by eapply holds_item.
      * intros Hk. eapply holds_mono; [etrans; [exact Hsub | exact Hh']|]. apply (Hb m); [done|].
        by eapply bytes_item.
    + cbv beta. intros d s (ts & Hs & Hall). rewrite omap_Some_map in Hall.
      apply (ValueAt d ValueList false 0 0 hzero "" None [] None None s ts _); [done | constructor | done | done].
  - apply adds_singular.
    + intros Hk. apply IH; [by apply rank_field | | done].
      eapply backed_part; [exact Hb|]. apply part_held. by eapply holds_field.
    + intros Hk. eapply holds_mono; [exact Hsub|]. apply (Hb m); [done|]. by eapply bytes_field.
Qed.

Lemma adds_message mem m h :
  backed mem m -> mem ⊆ h -> adds ptr_at (hconvertMessage round_up m) (convertMessage m) h.
Proof.
  revert h. induction (Nat.lt_wf_0_projected msg_rank m) as [m _ IH]. intros h Hb Hsub.
  eapply adds_proper; [apply hconvertMessage_unfold|]. rewrite convertMessage_unfold.
  unfold hconvertMessageF, convertMessageF. destruct (IsValid m) eqn:Hv; cbn [negb]; [|apply adds_ret; constructor].
  case_decide.
  - destruct (WhichOneof _ _) as [fd|] eqn:Hw; [|apply adds_ret; constructor].
    apply IH; [by apply rank_oneof | | done]. eapply backed_part; [exact Hb|]. by eapply part_member.
  - rewrite convert_fields_foldl. cbn [app].
    change (map _ (filter _ _)) with (converted_fields m). rewrite converted_fields_omap.
    eapply adds_proper; [apply symmetry, M_bind_assoc|].
    eapply adds_cell; [| eapply (make_build round_up field_at _ (fun fd => if Has m fd then
        Some (MkField (fd_Name fd) (convertValue convertMessage fd (Get m fd))) else None));
        [intros *; apply field_at_mono'|] |].
    + cbv beta. intros d d' s Hd (ts & Hs & Hall). exists ts. split; [by eapply holds_mono|].
      eapply Forall2_impl; [exact Hall|]. intros *. by apply field_at_mono'.
    + intros fd h' Hin Hh'. unfold hconvertField. cbv beta.
      destruct (Has m fd) eqn:Hh; cbn [negb]; [|apply adds_ret; exact I].
      eapply (adds_map value_at); [eapply (adds_value m fd mem); [done..| by etrans | intros m' h'' Hm'; by apply IH]|].
      cbv beta. intros d x Hx. cbn [both_options]. by constructor.
    + cbv beta. intros d l s (ts & Hs & Hall) Hl. constructor. by eapply NodeAt.
Qed.
End facts.

(** ** Parse *)
Section parsed.
Context `{PRL : ProtoReflectLaws} `{PQ : !PgQuery (PR:=PR)} `{PM : !ProtoMemory} (round_up : nat -> nat) (build_ : Build).

(** The parse tree of the input is in memory. *)
Definition tree_backed (h : store) (sql : string) : Prop :=
  forall tree raw source, parseBackend build_ sql = inl tree -> raw ∈ GetStmts tree -> GetStmt raw = Some source ->
    backed h (ProtoReflectOf source).

(** A result pointer and the result it stands for. *)
Definition result_ptr_at (h : store) (p : option loc) (r : ptr Result) : Prop :=
  match p, r with
  | None, None => True
  | Some l, Some r => result_at h l r
  | _, _ => False
  end.

Lemma adds_statement mem raw h :
  (forall source, GetStmt raw = Some source -> backed mem (ProtoReflectOf source)) -> mem ⊆ h ->
  adds (fun d => both_options (ptr_at d)) (hconvertStatement round_up raw)
    (Some <$> convertPGNode (GetStmt raw)) h.
Proof.
  intros Hb Hsub. unfold hconvertStatement, hconvertPGNode, convertPGNode.
  destruct (GetStmt raw) as [source|]; [|apply adds_ret; exact I].
  destruct (adds_message round_up mem (ProtoReflectOf source) h) as (p & h' & Hrun & Hh & Hp); [by apply Hb | done |].
  exists (option_map Some p), h'. rewrite (bind_Ret _ _ _ _ _ Hrun). split; [by destruct p|]. split; [done|].
  inversion Hp as [Hp'|l n Hn Hp' Hc]; subst; cbn; [done | by constructor].
Qed.

Lemma adds_Parse sql h :
  tree_backed h sql ->
  adds (fun d p r => result_ptr_at d p.1 r.1 /\ p.2 = r.2) (hParse round_up build_ sql) (Parse build_ sql) h.
Proof.
  intros Hb. rewrite Parse_spec. unfold hParse.
  assert (adds (fun d p r => result_ptr_at d p.1 r.1 /\ p.2 = r.2)
    (mret (None, Some (ParserErrorPtr (Some {| pe_category := FailureSyntax |}))) : M store (option loc * option goerror))
    ((None, Some (ParserErrorPtr (Some {| pe_category := FailureSyntax |}))) : ptr Result * option goerror) h) as Hfail
    by (apply adds_ret; split; [exact I | done]).
  destruct (parseBackend build_ sql) as [tree|err] eqn:Htree.
  - destruct (decide (Ascii.zero ∈ string_elems sql)) as [Hz|Hz].
    + by rewrite decide_True by (by apply IndexByte_found).
    + rewrite decide_False by (by rewrite IndexByte_found).
      eapply adds_proper; [apply symmetry, M_bind_assoc|].
      eapply adds_proper; [apply symmetry, M_bind_assoc|].
      eapply (adds_map result_ptr_at _ _ (fun result => (result, None)) (Some _)); [|cbv beta; intros d x Hx; split; [exact Hx | done]].
      eapply adds_cell; [| eapply (make_build round_up ptr_at _ (fun raw => Some <$> convertPGNode (GetStmt raw)));
        [intros *; apply ptr_at_mono'|] |].
      * cbv beta. intros d d' s Hd (ts & Hs & Hall). exists ts. split; [by eapply holds_mono|].
        eapply Forall2_impl; [exact Hall|]. intros *. by apply ptr_at_mono'.
      * intros raw h' Hin Hh'. eapply adds_statement; [|exact Hh']. intros source Hs. by eapply Hb.
      * cbv beta. intros d l s (ts & Hs & Hall) Hl. cbn. exists s, ts. split; [done|]. split; [done|]. cbn.
        by rewrite map_Some_omap.
  - destruct (decide (0 <= IndexByte sql Ascii.zero)%Z); exact Hfail.
Qed.

(** [Parse] builds its result in memory of its own: run on a store that holds the
    backend's parse tree, it returns the error that Parse in PgQuery.v returns and a pointer
    to the result that it returns; it changes no cell that was there, and the result, its
    nodes, its strings of bytes and all its backing arrays are in cells that it added. *)
Theorem parse_detached sql h :
  tree_backed h sql ->
  exists p h', hParse round_up build_ sql h = (Ret (p, (Parse build_ sql).2), h') /\ h ⊆ h' /\
    result_ptr_at (h' ∖ h) p (Parse build_ sql).1.
Proof.
  intros Hb. destruct (adds_Parse sql h Hb) as ([p err] & h' & Hrun & Hsub & Hp & Herr). cbn in Hp, Herr.
  exists p, h'. by rewrite <- Herr.
Qed.

(** C14: Parsed trees never change: after [Parse] returned a result, whatever clients do
    with the accessors, with every array they are given, with memory they allocate, and with
    every cell that existed before the parse, the backend's included, the result stays the
    one that was parsed. *)
Theorem parsed_tree_immutable sql h l err h' c c' :
  tree_backed h sql -> hParse round_up build_ sql h = (Ret (Some l, err), h') ->
  c_store c = h' -> c_owned c ⊆ dom h -> rtc (client_step round_up) c c' ->
  exists r, Parse build_ sql = (Some r, err) /\ result_at (c_store c') l r.
Proof.
  intros Hb Hrun Hc Hown Hsteps. destruct (adds_Parse sql h Hb) as ([p err'] & h1 & Hrun' & Hsub & Hp & Herr).
  rewrite Hrun in Hrun'. injection Hrun' as <- <- <-. cbn in Hp, Herr.
  destruct (Parse build_ sql) as [[r|] err'] eqn:HP; [|done]. exists r. split; [by rewrite Herr|].
  assert (protected (h' ∖ h) c) as Hprot.
  { split; [rewrite Hc; apply map_subseteq_spec; intros i x; rewrite lookup_difference_Some; by intros []|]. rewrite dom_difference_L. set_solver. }
  destruct (clients_protected round_up _ _ _ Hprot Hsteps) as [Hle _]. cbn in Hp.
  destruct Hp as (s & ps & Hl & Hs & Hall). exists s, ps.
  split; [by eapply lookup_weaken|]. split; [by eapply holds_mono | by eapply ptrs_at_mono].
Qed.
End parsed.
