(* ===== verification/ViewMemory.v ===== *)
(** * The public view in the store (statement.go)

    Rules and applications see trees through the accessors of statement.go.  Those that
    return slices are modelled on the store, where the slices are arrays of their own. *)
From stdpp Require Import base gmap sets strings list.
From S2P Require Import Prelude.
From S2P Require Import Nodes.
From S2P Require Import Snapshots.
From S2P Require Import HeapBuild.
From S2P Require Import Statements.

(** A public [Node] is the pointer it wraps. *)
Definition hView_value (n : option loc) (name : string) (h : store) : hvalue * bool :=
  match n with
  | None => (zero_hvalue, false)
  | Some _ => hField n name h
  end.

(** [Child]. *)
Definition hChild (n : option loc) (name : string) (h : store) : option loc * bool :=
  let '(value, ok) := hView_value n name h in
  if negb ok then (None, false)
  else if bool_decide (h_kind value <> ValueNode) then (None, false)
  else (h_node value, true).

Section views.
Context (round_up : nat -> nat).

(** The body of the loop of [Children]. *)
Definition child_item (item : hvalue) : M store (option (option loc)) :=
  mret (if bool_decide (h_kind item = ValueNode) then Some (h_node item) else None).

(** [Children].  The loop ranges over the private copy that [List] made. *)
Definition hChildren (n : option loc) (name : string) : M store (option slice) := fun h =>
  let '(value, ok) := hView_value n name h in
  if negb ok then (Ret None, h)
  else
    let '(values, ok, h1) := hList round_up value h in
    if negb ok then (Ret None, h1)
    else
      (children ← make_slice (option loc) (length (read (T:=hvalue) h1 values));
       build round_up child_item (read h1 values) children) h1.

(** [Bytes]. *)
Definition hView_Bytes (n : option loc) (name : string) : M store (option slice * bool) := fun h =>
  let '(value, ok) := hView_value n name h in
  if negb ok then (Ret (None, false), h)
  else let '(s, ok, h') := hBytes round_up value h in (Ret (s, ok), h').

(** ** Lemmas *)
Lemma hView_value_spec h p n name :
  ptr_at h p n ->
  (hView_value p name h).2 = (View_value {| view_node := n |} name).2 /\
  ((hView_value p name h).2 = true ->
    value_at h (hView_value p name h).1 (View_value {| view_node := n |} name).1).
Proof.
  intros [|l node Hn]; [done|]. cbn [hView_value View_value view_node].
  destruct Hn as [l kind fs hfs fields Hl Hfs Hall]. unfold hField. rewrite Hl, (holds_read _ _ _ Hfs).
  pose proof (scan_field h hfs fields name Hall) as Hscan. unfold View_value. cbn [view_node].
  change (Node_Field (Some (MkNode "" fields)) name) with (Node_Field (Some (MkNode kind fields)) name) in Hscan.
  destruct (find_first _ hfs) as [v|]; [|by rewrite Hscan].
  destruct Hscan as (v' & -> & Hv). by split.
Qed.

Lemma Children_omap n name :
  Children n name =
  let '(value, ok) := View_value n name in
  if negb ok then []
  else omap (fun item => if (Value_Node item).2 then Some {| view_node := (Value_Node item).1 |} else None)
         (Value_List value).1.
Proof.
  unfold Children. destruct (View_value n name) as [v []]; cbn [negb]; [|done].
  unfold Value_List. case_bool_decide; cbn [negb fst]; [done|].
  enough (forall l acc, foldl (fun children item =>
    let '(child, isNode) := Value_Node item in if isNode then children ++ [ {| view_node := child |} ] else children) acc l =
    acc ++ omap (fun item => if (Value_Node item).2 then Some {| view_node := (Value_Node item).1 |} else None) l) as H'
    by apply H'.
  induction l as [|x l IH]; intros acc; cbn; [by rewrite app_nil_r|]. rewrite IH.
  destruct (Value_Node x) as [c []]; cbn; [by rewrite <- app_assoc | done].
Qed.

Lemma child_items h hvs vs :
  Forall2 (value_at h) hvs vs ->
  Forall2 (fun t v => ptr_at h t (view_node v))
    (omap (fun item => if bool_decide (h_kind item = ValueNode) then Some (h_node item) else None) hvs)
    (omap (fun item => if (Value_Node item).2 then Some {| view_node := (Value_Node item).1 |} else None) vs).
Proof.
  induction 1 as [|hv v hvs vs Hv _ IH]; [constructor|]. cbn [omap list_omap].
  destruct Hv as [k b i u f s bs bytes p node l' hvs' list_ _ Hp _ _].
  change (Value_Node (MkValue k b i u f s bytes node list_)) with (node, bool_decide (k = ValueNode)).
  cbn [h_kind h_node fst snd]. destruct (bool_decide (k = ValueNode)); [|exact IH].
  apply Forall2_cons. by split.
Qed.

(** ** Properties *)

(** C30: The accessors of statement.go on the store refine those of Statements.v: they change
    no cell, [Child] gives a pointer to the same child, and [Children] and [Bytes] give
    slices whose arrays they made, with the same elements. *)
Theorem views_refine h p n name :
  ptr_at h p n ->
  ((hChild p name h).2 = (Child {| view_node := n |} name).2 /\
   ptr_at h (hChild p name h).1 (view_node (Child {| view_node := n |} name).1)) /\
  adds (fun d s children => exists ts, holds d s ts /\ Forall2 (fun t v => ptr_at h t (view_node v)) ts children)
    (hChildren p name) (Children {| view_node := n |} name) h /\
  adds (fun d x y => holds d x.1 y.1 /\ x.2 = y.2) (hView_Bytes p name) (View_Bytes {| view_node := n |} name) h.
Proof.
  intros Hp. destruct (hView_value_spec h p n name Hp) as [Hok Hv].
  rewrite Children_omap. unfold hChild, Child, hChildren, hView_Bytes, View_Bytes.
  destruct (hView_value p name h) as [hv ok] eqn:Hhv, (View_value {| view_node := n |} name) as [v ok'] eqn:Hvv.
  cbn [fst snd] in *. subst ok'. destruct ok; cbn [negb].
  2: { split_and!; [done | constructor | |].
       - exists None, h. rewrite Hhv. split_and!; [done..|]. exists []. by split.
       - exists (None, false), h. rewrite Hhv. by split_and!. }
  specialize (Hv eq_refl).
  destruct Hv as [k b i u f s bs bytes q node l hvs list_ Hbs Hq Hl Hall]. split_and!.
  - cbn. by destruct k.
  - cbn [h_kind h_node Value_Node kind_of nodeValue]. unfold Value_Node. cbn. destruct k; cbn; by try constructor.
  - unfold adds. rewrite Hhv. cbn [negb]. unfold hList, Value_List. cbn [h_kind h_list kind_of listValue].
    case_bool_decide as Hk; cbn [negb fst].
    { exists None, h. split_and!; [done..|]. exists []. split; [done|]. by constructor. }
    rewrite (holds_read _ _ _ Hl). destruct (append_nil round_up hvs h) as [s' h1] eqn:Ha. cbn [negb].
    apply append_nil_spec in Ha as (Hsub & Hs' & _). rewrite (holds_read _ _ _ Hs').
    destruct (make_build round_up (fun _ t v => t = v) child_item
      (fun item => if bool_decide (h_kind item = ValueNode) then Some (h_node item) else None) hvs h1)
      as (sl & h2 & Hrun & Hsub' & ts & Hts & Heq).
    + by intros.
    + intros item h' _ _. apply adds_ret. by destruct (bool_decide (h_kind item = ValueNode)).
    + exists sl, h2. split; [exact Hrun|]. split; [by etrans|]. exists ts. split.
      * eapply holds_mono; [|exact Hts]. by apply difference_mono.
      * apply list_eq_Forall2 in Heq as ->. by apply child_items.
  - unfold adds. rewrite Hhv. cbn [negb]. unfold hBytes, Value_Bytes. cbn [h_kind h_bytes kind_of bytesValue].
    case_bool_decide; [by exists (None, false), h; split_and!|].
    rewrite (holds_read _ _ _ Hbs). destruct (append_nil round_up bytes h) as [s' h1] eqn:Ha.
    exists (s', true), h1. apply append_nil_spec in Ha as (Hsub & Hs' & Hnew). split_and!; [done..| |done].
    cbn [fst]. by apply holds_new.
Qed.
End views.
