(* ===== verification/TraversalMemory.v ===== *)
(** * The statement traversal in the store (internal/parser/traversal.go)

    Traversal.v says which statements are visited.  Here the traversal builds its slice in
    memory: the sequence grows by [append] while the loops over the CTEs read their
    snapshots.  The slice that it returns shares nothing with the result it was made from,
    so that consumers cannot mutate the result. *)
From stdpp Require Import base gmap sets strings list relations.
From S2P Require Import Prelude.
From S2P Require Import Nodes.
From S2P Require Import Snapshots.
From S2P Require Import HeapBuild.
From S2P Require Import Traversal.

(** [nodeField]. *)
Definition hnodeField (node : option loc) (name : string) (h : store) : option loc :=
  let '(value, ok) := hField node name h in
  if negb ok then None
  else
    let '(child, ok) := hNode value in
    if negb ok then None else child.

Section traversal.
Context (round_up : nat -> nat).

(** The loop over the CTEs, and what precedes it once the statement is appended. *)
Definition happendCTEs (appendStatement : option slice * option loc -> M store (option slice))
    (statement : option loc) (sequence : option slice) : M store (option slice) := fun h =>
  match hnodeField statement "with_clause" h with
  | None => (Ret sequence, h)
  | Some withClause =>
      let '(ctes, ok) := hField (Some withClause) "ctes" h in
      if negb ok then (Ret sequence, h)
      else
        let '(cteValues, ok, h) := hList round_up ctes h in
        if negb ok then (Ret sequence, h)
        else
          range_fold id cteValues (fun sequence cteValue => (fun h =>
            let '(cte, ok) := hNode cteValue in
            if negb ok then (Ret sequence, h)
            else appendStatement (sequence, hnodeField cte "ctequery" h) h) : M store (option slice)) sequence h
  end.

(** The body of [appendStatement], its recursive call a parameter. *)
Definition happendStatementF (appendStatement : option slice * option loc -> M store (option slice))
    (args : option slice * option loc) : M store (option slice) :=
  let '(sequence, statement) := args in
  match statement with
  | None => mret sequence
  | Some _ =>
      sequence ← append_one round_up sequence statement;
      happendCTEs appendStatement statement sequence
  end.

(** [appendStatement], on a stack of [depth] frames. *)
Definition happendStatement (depth : nat) : option slice * option loc -> M store (option slice) :=
  unroll happendStatementF (fun _ => panic "stack overflow") depth.

(** [StatementSequence]. *)
Definition hStatementSequence (depth : nat) (result : option loc) : M store (option slice) := fun h =>
  match result with
  | None => (Ret None, h)
  | Some l =>
      match h !! l with
      | Some (CResult statements) =>
          (sequence ← make_slice (option loc) (slice_len statements);
           range_fold id statements (fun sequence statement => happendStatement depth (sequence, statement))
             sequence) h
      | _ => (Panic "invalid memory address", h)
      end
  end.
End traversal.

(** ** Lemmas *)

(** The slice has these pointers to trees of [ht], in memory that was added to [h0]. *)
Definition sequence_at (ht h0 h : store) (s : option slice) (ns : list (ptr Node)) : Prop :=
  h0 ⊆ h /\ exists ps, holds (h ∖ h0) s ps /\ Forall2 (ptr_at ht) ps ns.

Lemma sequence_at_grows ht h0 h h' s ns : h ⊆ h' -> sequence_at ht h0 h s ns -> sequence_at ht h0 h' s ns.
Proof.
  intros Hsub (H0 & ps & Hs & Hall). split; [by etrans|]. exists ps. split; [|done].
  eapply holds_mono; [|exact Hs]. by apply difference_mono.
Qed.

(** A sequence made since [h1] was made since [h0]. *)
Lemma sequence_at_base ht h0 h1 h s ns : h0 ⊆ h1 -> sequence_at ht h1 h s ns -> sequence_at ht h0 h s ns.
Proof.
  intros H01 (H1 & ps & Hs & Hall). split; [by etrans|]. exists ps. split; [|done].
  eapply holds_mono; [|exact Hs]. by apply difference_mono.
Qed.

(** What is added beside the sequence counts as old from then on. *)
Lemma sequence_at_frame ht h0 h h' s ns :
  h ⊆ h' -> sequence_at ht h0 h s ns -> sequence_at ht (h0 ∪ h' ∖ h) h' s ns.
Proof.
  intros Hsub (H0 & ps & Hs & Hall). split.
  - apply map_union_least; [by etrans | by apply map_subseteq_difference_l].
  - exists ps. split; [|done]. destruct s as [sl|]; [|done]. destruct Hs as (l & [Hl H0l]%lookup_difference_Some & Hlen).
    exists l. split; [|done]. apply lookup_difference_Some. split; [by eapply lookup_weaken|].
    apply lookup_union_None. split; [done|]. apply lookup_difference_None. right. by eexists.
Qed.

(** On a larger store the accessors find what they find on the store of the tree. *)
Lemma hField_grows ht h p n name : ptr_at ht p n -> ht ⊆ h -> hField p name h = hField p name ht.
Proof.
  intros [|l node [l' kind fs hfs fields Hl Hfs _]] Hsub; [done|]. unfold hField.
  rewrite Hl, (lookup_weaken _ _ _ _ Hl Hsub). by rewrite (holds_read _ _ _ Hfs), (holds_read _ _ _ (holds_mono _ _ _ _ Hsub Hfs)).
Qed.

Lemma hnodeField_grows ht h p n name : ptr_at ht p n -> ht ⊆ h -> hnodeField p name h = hnodeField p name ht.
Proof. intros Hp Hsub. unfold hnodeField. by rewrite (hField_grows ht h p n). Qed.

(** [List] makes a new array with the items of the tree. *)
Lemma hList_at round_up ht h hv v :
  value_at ht hv v -> ht ⊆ h ->
  exists s h' hvs, hList round_up hv h = (s, (Value_List v).2, h') /\ h ⊆ h' /\ holds (h' ∖ h) s hvs /\
    Forall2 (value_at ht) hvs (Value_List v).1.
Proof.
  intros [k b i u f s bs bytes p node l hvs list_ _ _ Hl Hall] Hsub. unfold hList, Value_List.
  cbn [h_kind h_list kind_of listValue]. case_bool_decide; [by exists None, h, []|].
  rewrite (holds_read _ _ _ (holds_mono _ _ _ _ Hsub Hl)).
  destruct (append_nil round_up hvs h) as [s' h'] eqn:Ha. apply append_nil_spec in Ha as (? & ? & ?).
  exists s', h', hvs. split_and!; [done | done | by apply holds_new | done].
Qed.

Lemma hnodeField_at h p n name : ptr_at h p n -> ptr_at h (hnodeField p name h) (nodeField n name).
Proof.
  intros Hp. destruct (hField_at h p n name Hp) as [Hok Hv]. unfold hnodeField, nodeField.
  destruct (hField p name h) as [hv ok], (Node_Field n name) as [v ok']. cbn [fst snd] in *. subst ok'.
  destruct ok; cbn [negb]; [|constructor]. destruct (hNode_at h hv v (Hv eq_refl)) as [Hk Hc].
  destruct (hNode hv) as [c b], (Value_Node v) as [c' b']. cbn [fst snd] in *. subst b'.
  by destruct b; cbn [negb]; [|constructor].
Qed.

(** Growing the sequence by one tree: the induction is over the height of the tree, for
    every choice of the memory that is kept. *)
Section grows.
Context (round_up : nat -> nat) (ht : store).

Definition appends (run : option slice * option loc -> M store (option slice)) (p : option loc) (n : ptr Node) : Prop :=
  forall h0 h s ns, ht ⊆ h0 -> sequence_at ht h0 h s ns ->
    exists s' h', run (s, p) h = (Ret s', h') /\ sequence_at ht h0 h' s' (appendStatement (ns, n)).

Lemma append_sequence h0 h s ns p n :
  sequence_at ht h0 h s ns -> ptr_at ht p n ->
  exists s' h', append_one round_up s p h = (Ret s', h') /\ sequence_at ht h0 h' s' (ns ++ [n]).
Proof.
  intros (H0 & ps & Hs & Hall) Hp. destruct (append_one_built round_up h0 h s ps p H0 Hs) as (s' & h' & Hrun & H0' & Hs').
  exists s', h'. split; [done|]. split; [done|]. exists (ps ++ [p]). split; [done|]. apply Forall2_app; auto.
Qed.

Lemma append_ctes run p n h0 h s ns :
  (forall q c, ptr_at ht q (Some c) -> node_height c < node_height n -> appends run q (Some c)) ->
  (forall h s, run (s, None) h = (Ret s, h)) ->
  ht ⊆ h0 -> ptr_at ht p (Some n) -> sequence_at ht h0 h s ns ->
  exists s' h', happendCTEs round_up run p s h = (Ret s', h') /\
    sequence_at ht h0 h' s' (foldl (fun s x => appendStatement (s, cte_query x)) ns (cte_values n)).
Proof.
  intros Hrec Hnil Ht Hp Hs. assert (ht ⊆ h) as Hth by (etrans; [exact Ht | apply Hs]).
  pose proof (cte_values_height n) as Hheight. unfold happendCTEs, cte_values in *.
  rewrite (hnodeField_grows ht h _ _ _ Hp Hth). pose proof (hnodeField_at ht p _ "with_clause" Hp) as Hw.
  destruct Hw as [|w wn Hw]; [by exists s, h|]. apply PtrAt in Hw.
  rewrite (hField_grows ht h _ _ _ Hw Hth). destruct (hField_at ht _ _ "ctes" Hw) as [Hok Hv].
  destruct (hField (Some w) "ctes" ht) as [hv ok], (Node_Field (Some wn) "ctes") as [v ok']. cbn [fst snd] in *.
  subst ok'. destruct ok; cbn [negb]; [|by exists s, h].
  destruct (hList_at round_up ht h hv v (Hv eq_refl) Hth) as (sl & h1 & hvs & -> & Hsub & Hsl & Hall).
  pose proof (sequence_at_grows _ _ _ _ _ _ Hsub Hs) as Hs1.
  destruct (Value_List v) as [l []] eqn:Hl; cbn [negb fst snd] in *; [|].
  2: { exists s, h1. split; [done|]. unfold Value_List in Hl. case_bool_decide; by injection Hl as <-. }
  clear Hv Hl. set (h0' := h0 ∪ h1 ∖ h).
  assert (sequence_at ht h0' h1 s ns) as Hs' by by apply sequence_at_frame.
  assert (h1 ∖ h ⊆ h0') as Hnew.
  { apply map_union_subseteq_r, map_disjoint_spec. intros a c c' Ha [_ Hn]%lookup_difference_Some.
    destruct Hs as [Hs _]. by rewrite (lookup_weaken _ _ _ _ Ha Hs) in Hn. }
  assert (ht ⊆ h0') as Ht' by (etrans; [exact Ht | apply map_union_subseteq_l]).
  set (step := fun s x => appendStatement (s, cte_query x)).
  destruct (range_fold_run id (fun rest s h => exists ns' vs, sequence_at ht h0' h s ns' /\
      Forall2 (value_at ht) rest vs /\ Forall (fun v => v ∈ l) vs /\ foldl step ns' vs = foldl step ns l)
    (h1 ∖ h) sl hvs (fun sequence cteValue => (fun h =>
        let '(cte, ok) := hNode cteValue in
        if negb ok then (Ret sequence, h)
        else run (sequence, hnodeField cte "ctequery" h) h) : M store (option slice)) s h1 Hsl)
    as (s' & h' & Hrun & ns' & vs & Hs2 & Hvs & _ & Hfold).
  - intros rest s' h' (ns' & vs & [Hh _] & _). etrans; [exact Hnew | exact Hh].
  - intros x rest s' h' _ (ns' & [|v' vs] & Hs2 & Hvs & Hin & Hfold); [by inversion Hvs|].
    apply Forall2_cons in Hvs as [Hx Hvs]. apply Forall_cons in Hin as [Hv' Hin].
    cbn [foldl] in Hfold. destruct (hNode_at ht x v' Hx) as [Hk Hc].
    enough (exists s2 h2, (let '(cte, ok) := hNode x in if negb ok then (Ret s', h') else run (s', hnodeField cte "ctequery" h') h') = (Ret s2, h2)
      /\ sequence_at ht h0' h2 s2 (step ns' v')) as (s2 & h2 & Hrun2 & Hs3) by (exists s2, h2; split; [done|]; by exists (step ns' v'), vs).
    pose proof (Hheight _ Hv') as Hlt. unfold step. unfold cte_query in *.
    destruct (hNode x) as [c ok] eqn:Hnx, (Value_Node v') as [c' ok'] eqn:Hnv. cbn [fst snd] in *. subst ok'.
    destruct ok; cbn [negb]; [|rewrite appendStatement_nil; by exists s', h'].
    assert (ht ⊆ h') as Hth' by (etrans; [exact Ht' | apply Hs2]).
    rewrite (hnodeField_grows ht h' _ _ _ Hc Hth'). pose proof (hnodeField_at ht c c' "ctequery" Hc) as Hq.
    pose proof (cte_query_height v') as Hqh. unfold cte_query in Hqh. rewrite Hnv in Hqh.
    destruct Hq as [|q qn Hq]; [rewrite Hnil, appendStatement_nil; by exists s', h'|].
    apply (Hrec (Some q) qn); [by constructor | specialize (Hqh qn eq_refl); lia | done | done].
  - exists ns, l. split_and!; [done | done | by apply Forall_forall | done].
  - apply Forall2_nil_inv_l in Hvs as ->. cbn in Hfold. subst ns'.
    exists s', h'. split; [exact Hrun|]. eapply sequence_at_base; [|exact Hs2]. apply map_union_subseteq_l.
Qed.

Lemma append_statement depth p n :
  ptr_at ht p n -> ptr_height n < depth -> appends (happendStatement round_up depth) p n.
Proof.
  revert p n. induction depth as [|depth IH]; intros p n Hp Hlt; [lia|]. intros h0 h s ns Ht Hs.
  unfold happendStatement. cbn [unroll]. fold (happendStatement round_up depth).
  destruct Hp as [|p n Hp]; [rewrite appendStatement_nil; by exists s, h|]. apply PtrAt in Hp.
  rewrite appendStatement_node. unfold happendStatementF.
  destruct (append_sequence h0 h s ns (Some p) (Some n) Hs Hp) as (s1 & h1 & Hrun & Hs1).
  rewrite (bind_Ret _ _ _ _ _ Hrun). cbn [ptr_height] in Hlt.
  apply append_ctes; [| |done..].
  - intros q c Hq Hc. apply IH; [done | cbn; lia].
  - intros h' s'. destruct depth; [destruct n; cbn in Hlt; lia | done].
Qed.
End grows.

(** [StatementSequence] on a store that holds the trees of [ht]. *)
Lemma hStatementSequence_run round_up depth ht h l r :
  result_at ht l r -> ht ⊆ h -> Forall (fun n => ptr_height n < depth) (result_statements r) ->
  exists s h' ps, hStatementSequence round_up depth (Some l) h = (Ret s, h') /\ h ⊆ h' /\
    holds (h' ∖ h) s ps /\ Forall2 (ptr_at ht) ps (StatementSequence (Some r)).
Proof.
  intros (st & ps & Hl & Hst & Hall) Ht Hdepth. unfold hStatementSequence. rewrite (lookup_weaken _ _ _ _ Hl Ht).
  destruct (make_slice_spec (option loc) (slice_len st) h) as (s0 & h0 & Hrun & Hsub & Hs0).
  rewrite (bind_Ret _ _ _ _ _ Hrun).
  destruct (range_fold_run id (fun rest s h1 => exists ns vs, sequence_at ht h h1 s ns /\
      Forall2 (ptr_at ht) rest vs /\ Forall (fun v => v ∈ result_statements r) vs /\
      foldl (fun s n => appendStatement (s, n)) ns vs = StatementSequence (Some r))
    ht st ps (fun sequence statement => happendStatement round_up depth (sequence, statement)) s0 h0 Hst)
    as (s & h' & Hrun' & ns & vs & Hs & Hvs & _ & Hfold).
  - intros rest s h1 (ns & vs & [Hh _] & _). by etrans.
  - intros p rest s h1 _ (ns & [|v vs] & Hs & Hvs & Hin & Hfold); [by inversion Hvs|].
    apply Forall2_cons in Hvs as [Hp Hvs]. apply Forall_cons in Hin as [Hv Hin]. cbn [foldl] in Hfold.
    rewrite Forall_forall in Hdepth.
    destruct (append_statement round_up ht depth p v Hp (Hdepth _ Hv) h h1 s ns) as (s2 & h2 & Hrun2 & Hs2); [done..|].
    exists s2, h2. split; [done|]. by exists (appendStatement (ns, v)), vs.
  - exists [], (result_statements r). split_and!; [|done | by apply Forall_forall | done].
    split; [done|]. by exists [].
  - apply Forall2_nil_inv_l in Hvs as ->. cbn in Hfold. subst ns. destruct Hs as (Hh & qs & Hqs & Hq).
    by exists s, h', qs.
Qed.

(** The statements of a sequence are no higher than the statements of the result. *)
Lemma StatementSequence_heights depth r :
  Forall (fun n => ptr_height n < depth) (result_statements r) ->
  Forall (fun n => ptr_height n < depth) (StatementSequence (Some r)).
Proof.
  intros Hall. rewrite Forall_forall in Hall |- *. intros [n|] Hn.
  - apply StatementSequence_elem in Hn as (top & Htop & Hr). specialize (Hall _ Htop). cbn [ptr_height] in *.
    enough (node_height n <= node_height top) by lia. clear Htop Hall.
    induction Hr as [|x y z Hxy _ IH]; [done|]. pose proof (cte_of_height _ _ Hxy). lia.
  - rewrite StatementSequence_flat_map in Hn. apply elem_of_flat_map in Hn as (m & _ & Hm).
    destruct (appendStatement_preorder m) as (l & _ & Heq). rewrite Heq in Hm. by apply list_elem_of_fmap in Hm as (y & ? & _).
Qed.

(** ** Properties *)

(** The slice that [StatementSequence] returns is the consumer's: run on a store that holds
    a result, with a stack deeper than its statements are high, the traversal returns, it
    changes no cell that was there, and its slice, in an array that it made, points to
    exactly the statements of Traversal.v in their order; and whatever a consumer does with
    that slice, the result stays. *)
Theorem sequence_detached round_up depth h l r :
  result_at h l r -> Forall (fun n => ptr_height n < depth) (result_statements r) ->
  exists s h' ps, hStatementSequence round_up depth (Some l) h = (Ret s, h') /\ h ⊆ h' /\
    holds (h' ∖ h) s ps /\ Forall2 (ptr_at h) ps (StatementSequence (Some r)) /\
    forall c, rtc (client_step round_up) {| c_store := h'; c_owned := own s ∅ |} c -> result_at (c_store c) l r.
Proof.
  intros Hr Hdepth. destruct (hStatementSequence_run round_up depth h h l r Hr ltac:(done) Hdepth)
    as (s & h' & ps & Hrun & Hsub & Hs & Hall).
  exists s, h', ps. split_and!; [done..|]. intros c Hc.
  assert (protected h {| c_store := h'; c_owned := own s ∅ |}) as Hp.
  { split; cbn; [done|]. destruct s as [sl|]; cbn; [|set_solver].
    destruct Hs as (xs & [_ Hn]%lookup_difference_Some & _). apply not_elem_of_dom in Hn. set_solver. }
  destruct (clients_protected round_up _ _ _ Hp Hc) as [Hle _]. by eapply result_at_mono.
Qed.
