(* ===== verification/WalkMemory.v ===== *)
(** * The walk in the store (statement.go)

    The visitor of a walk is code of a rule or an application.  It gets pointers into the
    tree, calls the accessors, writes to every array it was ever given and allocates, while
    the walk is under way; the walk itself reads snapshots that it makes as it goes.  The
    theorem says that no visitor can lead the walk astray: it is called on the positions of
    the tree in pre-order, each time with the tree as it was at the beginning. *)
From stdpp Require Import base gmap sets strings list relations.
From S2P Require Import Prelude.
From S2P Require Import Nodes.
From S2P Require Import Snapshots.
From S2P Require Import HeapBuild.
From S2P Require Import Statements.
From S2P Require Import TraversalMemory.

(** The memory and the arrays that the visitor may write to, and the visitor's own
    variables. *)
Record world (V : Type) : Type := World { w_client : client; w_vars : V }.
Arguments World {V} _ _.
Arguments w_client {V} _.
Arguments w_vars {V} _.

Definition memory {V} (w : world V) : store := c_store (w_client w).
Definition owned {V} (w : world V) : gset loc := c_owned (w_client w).

(** The walk changes the memory: what it allocates does not belong to the visitor. *)
Definition with_memory {V} (w : world V) (h : store) : world V :=
  {| w_client := {| c_store := h; c_owned := owned w |}; w_vars := w_vars w |}.

Section walk.
Context (round_up : nat -> nat) {V : Type} (visit : option loc -> M (world V) bool).

(** [node.Fields()] and [value.List()] of the walk. *)
Definition walk_Fields (node : option loc) : M (world V) (option slice) := fun w =>
  let '(s, h) := hFields round_up node (memory w) in (Ret s, with_memory w h).

Definition walk_List (value : hvalue) : M (world V) (option slice * bool) := fun w =>
  let '(s, ok, h) := hList round_up value (memory w) in (Ret (s, ok), with_memory w h).

(** The walk of a node found in a field or in a list: false ends the loops. *)
Definition hwalkChild (walkNode : option loc -> M (world V) bool) (child : option loc) :
    M (world V) (option bool) :=
  continue ← walkNode child;
  if negb continue then mret (Some false) else mret None.

Definition hwalkItem (walkNode : option loc -> M (world V) bool) (item : hvalue) : M (world V) (option bool) :=
  let '(child, isNode) := hNode item in
  if isNode then hwalkChild walkNode child else mret None.

Definition hwalkField (walkNode : option loc -> M (world V) bool) (field : hfield) : M (world V) (option bool) :=
  let value := hf_value field in
  let '(child, ok) := hNode value in
  if ok then hwalkChild walkNode child
  else
    r ← walk_List value;
    let '(values, ok) := r in
    if negb ok then mret None
    else range_slice memory values (hwalkItem walkNode).

(** The body of [walkNode], its recursive call a parameter. *)
Definition hwalkNodeF (walkNode : option loc -> M (world V) bool) (node : option loc) : M (world V) bool :=
  match node with
  | None => mret false
  | Some _ =>
      continue ← visit node;
      if negb continue then mret false
      else
        fields ← walk_Fields node;
        r ← range_slice memory fields (hwalkField walkNode);
        match r with
        | Some b => mret b
        | None => mret true
        end
  end.

(** [walkNode], on a stack of [depth] frames. *)
Definition hwalkNode (depth : nat) : option loc -> M (world V) bool :=
  unroll hwalkNodeF (fun _ => panic "stack overflow") depth.
End walk.

(** [Walk]. *)
Definition hView_Walk (round_up : nat -> nat) {V} (depth : nat) (n : option loc)
    (visit : option (option loc -> M (world V) bool)) : M (world V) unit :=
  match n, visit with
  | Some _, Some visit => _ ← hwalkNode round_up visit depth n; mret tt
  | _, _ => mret tt
  end.

(** ** Specification *)
Section specification.
Context {V : Type} (ht : store) (visit : option loc -> M (world V) bool).

(** Between two calls of the visitor the walk only adds cells that are not the visitor's. *)
Definition pauses (w w' : world V) : Prop :=
  memory w ⊆ memory w' /\ owned w' = owned w /\ w_vars w' = w_vars w.

(** The calls of a walk over these positions: on each in turn, with the tree in place, until
    the visitor says false or panics or a nil pointer is met. *)
Inductive walked : list (ptr Node) -> world V -> outcome bool -> world V -> Prop :=
| walked_end w w' : pauses w w' -> walked [] w (Ret true) w'
| walked_nil ns w w' : pauses w w' -> walked (None :: ns) w (Ret false) w'
| walked_stop n ns p w w1 o w' :
    pauses w w1 -> ht ⊆ memory w1 -> ptr_at ht p (Some n) ->
    visit p w1 = (o, w') -> o <> Ret true -> walked (Some n :: ns) w o w'
| walked_on n ns p w w1 w2 o w' :
    pauses w w1 -> ht ⊆ memory w1 -> ptr_at ht p (Some n) ->
    visit p w1 = (Ret true, w2) -> walked ns w2 o w' -> walked (Some n :: ns) w o w'.
End specification.

(** What a visitor can do to the memory: what clients can do. *)
Definition is_client (round_up : nat -> nat) {V} (visit : option loc -> M (world V) bool) : Prop :=
  forall p w o w', visit p w = (o, w') -> rtc (client_step round_up) (w_client w) (w_client w').

(** ** Lemmas: the calls of a walk *)
Section calls.
Context {V : Type} (ht : store) (visit : option loc -> M (world V) bool).
#[local] Abbreviation walked := (walked ht visit).

Lemma pauses_refl (w : world V) : pauses w w.
Proof. by split. Qed.

Lemma pauses_trans (w1 w2 w3 : world V) : pauses w1 w2 -> pauses w2 w3 -> pauses w1 w3.
Proof. intros (H1 & H2 & H3) (H4 & H5 & H6). split; [by etrans | split; congruence]. Qed.

Lemma walked_pauses ns w w1 o w' : pauses w w1 -> walked ns w1 o w' -> walked ns w o w'.
Proof.
  intros Hp Hw. inversion Hw; subst.
  - apply walked_end. by eapply pauses_trans.
  - apply walked_nil. by eapply pauses_trans.
  - eapply walked_stop; [by eapply pauses_trans | done..].
  - eapply walked_on; [by eapply pauses_trans | done..].
Qed.

Lemma walked_app ns ns' w w1 o w' :
  walked ns w (Ret true) w1 -> walked ns' w1 o w' -> walked (ns ++ ns') w o w'.
Proof.
  remember (Ret true) as t eqn:Ht. intros Hw Hw'. induction Hw as [w w1 Hp| | |]; try done; cbn [app].
  - by eapply walked_pauses.
  - eapply walked_on; [done..|]. by apply IHHw.
Qed.

Lemma walked_early ns ns' w o w' : walked ns w o w' -> o <> Ret true -> walked (ns ++ ns') w o w'.
Proof.
  intros Hw Ho. induction Hw; cbn [app]; [done | by constructor | by eapply walked_stop |].
  eapply walked_on; [done..|]. by apply IHHw.
Qed.

(** The outcome of a loop that walks these positions. *)
Definition loops (ns : list (ptr Node)) (w : world V) (o : outcome (option bool)) (w' : world V) : Prop :=
  exists o', walked ns w o' w' /\
    o = match o' with Ret true => Ret None | Ret false => Ret (Some false) | Panic v => Panic v end.

Lemma loops_app ns ns' w w1 o w' :
  loops ns w (Ret None) w1 -> loops ns' w1 o w' -> loops (ns ++ ns') w o w'.
Proof.
  intros ([[|]|] & Hw & Ho) (o' & Hw' & ->); try done. exists o'. split; [by eapply walked_app | done].
Qed.

Lemma loops_early ns ns' w o w' : loops ns w o w' -> o <> Ret None -> loops (ns ++ ns') w o w'.
Proof. intros (o' & Hw & ->) Ho. exists o'. split; [|done]. apply walked_early; [done|]. by intros ->. Qed.
End calls.

(** ** Lemmas: the memory of the walk *)
Section memory.
Context {V : Type}.

(** The visitor cannot write to [h], and owns only what exists. *)
Definition guarded (h : store) (w : world V) : Prop :=
  protected h (w_client w) /\ owned w ⊆ dom (memory w).

Lemma guarded_weaken h h' w : h ⊆ h' -> guarded h' w -> guarded h w.
Proof.
  intros Hsub [[Hs Hd] Ho]. pose proof (subseteq_dom _ _ Hsub). split; [|done]. split; [by etrans | set_solver].
Qed.

Lemma guarded_clients round_up h w w' :
  rtc (client_step round_up) (w_client w) (w_client w') -> guarded h w -> guarded h w'.
Proof.
  intros Hv [Hp Ho]. split; [by eapply clients_protected|]. unfold owned, memory in *.
  clear Hp. induction Hv as [|c c1 c' Hstep _ IH]; [done|]. apply IH. by eapply client_step_owned.
Qed.

(** What the walk adds is out of the visitor's reach. *)
Lemma guarded_snapshot h w h1 :
  guarded h w -> memory w ⊆ h1 ->
  exists h', h ⊆ h' /\ h1 ∖ memory w ⊆ h' /\ guarded h' (with_memory w h1) /\ pauses w (with_memory w h1).
Proof.
  intros [[Hs Hd] Ho] Hsub. unfold memory, owned in *. exists (h ∪ h1 ∖ c_store (w_client w)).
  pose proof (subseteq_dom _ _ Hsub). pose proof (subseteq_dom _ _ Hs). split_and!.
  - apply map_union_subseteq_l.
  - apply map_union_subseteq_r, map_disjoint_spec. intros a x y Ha [_ Hn]%lookup_difference_Some.
    by rewrite (lookup_weaken _ _ _ _ Ha Hs) in Hn.
  - split; [split|]; cbn.
    + apply map_union_least; [by etrans | by apply map_subseteq_difference_l].
    + rewrite dom_union_L, dom_difference_L. set_solver.
    + set_solver.
  - by split.
Qed.
End memory.

(** [Fields] makes a new array with the fields of the tree. *)
Lemma hFields_at round_up ht h p n :
  ptr_at ht p (Some n) -> ht ⊆ h ->
  exists s h' hfs, hFields round_up p h = (s, h') /\ h ⊆ h' /\ holds (h' ∖ h) s hfs /\
    Forall2 (field_at ht) hfs (Node_Fields (Some n)).
Proof.
  intros Hp Hsub. inversion Hp as [|l' n' [l kind fs hfs fields Hl Hfs Hall]]; subst. unfold hFields.
  rewrite (lookup_weaken _ _ _ _ Hl Hsub), (holds_read _ _ _ (holds_mono _ _ _ _ Hsub Hfs)).
  destruct (append_nil round_up hfs h) as [s' h'] eqn:Ha. apply append_nil_spec in Ha as (? & ? & ?).
  exists s', h', hfs. split_and!; [done | done | by apply holds_new | done].
Qed.

(** ** Lemmas: the walk makes these calls *)
Section walks.
Context (round_up : nat -> nat) {V : Type} (visit : option loc -> M (world V) bool).
Context (Hvisit : is_client round_up visit) (ht : store).

(** A computation that walks these positions whatever memory is out of reach. *)
Definition walks_to {A} (calls : world V -> outcome A -> world V -> Prop) (m : M (world V) A) : Prop :=
  forall h w, ht ⊆ h -> guarded h w -> exists o w', m w = (o, w') /\ calls w o w' /\ guarded h w'.

Lemma walks_range `{Elem T} {X} (R : T -> X -> Prop) (g : X -> list (ptr Node)) hb s ts xs body h w :
  holds hb s ts -> hb ⊆ h -> ht ⊆ h -> Forall2 R ts xs ->
  (forall t x, x ∈ xs -> R t x -> walks_to (loops ht visit (g x)) (body t)) ->
  guarded h w ->
  exists o w', range_slice memory s body w = (o, w') /\ loops ht visit (flat_map g xs) w o w' /\ guarded h w'.
Proof.
  intros Hs Hb Ht HR Hbody Hw. unfold range_slice. rewrite (slice_len_holds hb s ts Hs).
  enough (forall rest i xs' w, drop i ts = rest -> Forall2 R rest xs' -> xs' ⊆ xs -> guarded h w ->
    exists o w', range_from memory s i (length rest) body w = (o, w') /\ loops ht visit (flat_map g xs') w o w' /\ guarded h w')
    as Hfrom by (by apply (Hfrom ts 0)).
  clear HR Hw w. induction rest as [|t rest IH]; intros i xs' w Hd HR Hin Hw; cbn [length range_from].
  - apply Forall2_nil_inv_l in HR as ->. exists (Ret None), w. split_and!; [done | | done].
    exists (Ret true). split; [|done]. apply walked_end, pauses_refl.
  - apply Forall2_cons_inv_l in HR as (x & xs1 & Hx & HR & ->). cbn [flat_map].
    assert (hb ⊆ memory w) as Hbw by (etrans; [exact Hb | apply Hw]).
    destruct (element_next hb (memory w) s ts i t rest Hs Hbw Hd) as [-> Hd'].
    destruct (Hbody t x) with (h := h) (w := w) as (o & w1 & Hrun & Hl & Hw1); [apply Hin; left | done..|].
    unfold mbind, M_bind. rewrite Hrun. destruct o as [[b|]|v].
    + exists (Ret (Some b)), w1. split_and!; [done | | done]. by eapply loops_early.
    + destruct (IH (S i) xs1 w1) as (o & w2 & Hrun2 & Hl2 & Hw2); [done | done | set_solver | done|].
      exists o, w2. split_and!; [done | | done]. by eapply loops_app.
    + exists (Panic v), w1. split_and!; [done | | done]. by eapply loops_early.
Qed.

Lemma walks_child walkNode p n :
  walks_to (walked ht visit (slots n)) (walkNode p) -> walks_to (loops ht visit (slots n)) (hwalkChild walkNode p).
Proof.
  intros Hwalk h w Ht Hw. destruct (Hwalk h w Ht Hw) as (o & w' & Hrun & Hcalls & Hw').
  unfold hwalkChild, mbind, M_bind. rewrite Hrun.
  destruct o as [[|]|v]; cbn; eexists _, w'; (split_and!; [done | by eexists | done]).
Qed.

Lemma walks_item walkNode item v :
  value_at ht item v ->
  (forall p n, ptr_at ht p n -> ptr_height n < value_height v -> walks_to (walked ht visit (slots n)) (walkNode p)) ->
  walks_to (loops ht visit (item_slots v)) (hwalkItem walkNode item).
Proof.
  intros Hv Hwalk. unfold hwalkItem. destruct (hNode_at ht item v Hv) as [Hok Hp].
  destruct (hNode item) as [p ok], (Value_Node v) as [n ok'] eqn:Hn. cbn [fst snd] in *. subst ok'. destruct ok.
  - destruct (value_slots_node _ _ Hn) as [_ ->]. apply walks_child, Hwalk; [done|]. by apply Value_Node_height.
  - rewrite (item_slots_scalar _ _ Hn). intros h w _ Hw. exists (Ret None), w. split_and!; [done | | done].
    exists (Ret true). split; [|done]. apply walked_end, pauses_refl.
Qed.

Lemma walks_field walkNode hf f :
  field_at ht hf f ->
  (forall p n, ptr_at ht p n -> ptr_height n < value_height (Field_Value f) -> walks_to (walked ht visit (slots n)) (walkNode p)) ->
  walks_to (loops ht visit (value_slots (Field_Value f))) (hwalkField round_up walkNode hf).
Proof.
  intros [name hv v Hv] Hwalk h w Ht Hw. cbn [Field_Value] in *. unfold hwalkField. cbn [hf_value].
  destruct (hNode_at ht hv v Hv) as [Hok Hp].
  destruct (hNode hv) as [p ok], (Value_Node v) as [n ok'] eqn:Hn. cbn [fst snd] in *. subst ok'. destruct ok.
  { destruct (value_slots_node _ _ Hn) as [-> _]. eapply walks_child; [|done..].
    apply Hwalk; [done|]. by apply Value_Node_height. }
  assert (ht ⊆ memory w) as Htw by (etrans; [exact Ht | apply Hw]).
  destruct (hList_at round_up ht (memory w) hv v Hv Htw) as (s & h1 & hvs & Hrun & Hsub & Hs & Hall).
  destruct (guarded_snapshot h w h1 Hw Hsub) as (h' & Hh & Hnew & Hw1 & Hpause).
  rewrite (bind_Ret _ _ w (s, (Value_List v).2) (with_memory w h1)) by (unfold walk_List; by rewrite Hrun).
  destruct (Value_List v) as [l okl] eqn:Hl. cbn [fst snd] in *. destruct okl; cbn [negb].
  - rewrite (value_slots_list _ _ _ Hn Hl).
    destruct (walks_range (value_at ht) item_slots (h1 ∖ memory w) s hvs l (hwalkItem walkNode) h' (with_memory w h1))
      as (o & w' & Hloop & (o' & Hcalls & Ho) & Hw'); [done | done | by transitivity h | done | | done |].
    + intros t x Hx Ht'. apply walks_item; [done|]. intros q m Hq Hm. apply Hwalk; [done|].
      pose proof (Value_List_height _ _ _ Hl Hx). lia.
    + exists o, w'. split_and!; [done | | by eapply guarded_weaken]. exists o'. split; [|done]. by eapply walked_pauses.
  - rewrite (value_slots_scalar _ _ _ Hn Hl). exists (Ret None), (with_memory w h1).
    split_and!; [done | | by eapply guarded_weaken]. exists (Ret true). split; [|done]. by apply walked_end.
Qed.

Lemma walks_node depth p n :
  ptr_at ht p n -> ptr_height n < depth -> walks_to (walked ht visit (slots n)) (hwalkNode round_up visit depth p).
Proof.
  revert p n. induction depth as [|depth IH]; intros p n Hp Hlt; [lia|]. intros h w Ht Hw.
  unfold hwalkNode. cbn [unroll]. fold (hwalkNode round_up visit depth).
  destruct Hp as [|l n Hl]. { exists (Ret false), w. split_and!; [done | | done]. apply walked_nil, pauses_refl. }
  apply PtrAt in Hl as Hp. cbn [hwalkNodeF slots]. unfold mbind at 1, M_bind at 1.
  assert (ht ⊆ memory w) as Htw by (etrans; [exact Ht | apply Hw]).
  destruct (visit (Some l) w) as [o w1] eqn:Hv. pose proof (guarded_clients round_up h w w1 (Hvisit _ _ _ _ Hv) Hw) as Hw1.
  assert (node_slots n = Some n :: flat_map (fun f => value_slots (Field_Value f)) (Node_Fields (Some n))) as ->.
  { destruct n as [k fs]. cbn [node_slots Node_Fields]. f_equal. apply flat_map_ext. by intros [name v]. }
  destruct o as [[|]|v]; cbn [negb].
  2: { exists (Ret false), w1. split_and!; [done | | done]. eapply walked_stop; [apply pauses_refl | done..]. }
  2: { exists (Panic v), w1. split_and!; [done | | done]. eapply walked_stop; [apply pauses_refl | done..]. }
  assert (ht ⊆ memory w1) as Htw1 by (etrans; [exact Ht | apply Hw1]).
  destruct (hFields_at round_up ht (memory w1) (Some l) n Hp Htw1) as (s & h1 & hfs & Hrun & Hsub & Hs & Hall).
  destruct (guarded_snapshot h w1 h1 Hw1 Hsub) as (h' & Hh & Hnew & Hw2 & Hpause).
  rewrite (bind_Ret _ _ w1 s (with_memory w1 h1)) by (unfold walk_Fields; by rewrite Hrun).
  destruct (walks_range (field_at ht) (fun f => value_slots (Field_Value f)) (h1 ∖ memory w1) s hfs (Node_Fields (Some n))
    (hwalkField round_up (hwalkNode round_up visit depth)) h' (with_memory w1 h1))
    as (o & w' & Hloop & (o' & Hcalls & ->) & Hw'); [done | done | by transitivity h | done | | done |].
  - intros hf f Hf Hhf. apply walks_field; [done|]. intros q m Hq Hm. apply IH; [done|].
    pose proof (field_height _ _ Hf). cbn [ptr_height] in Hlt. lia.
  - exists o', w'. split_and!; [| | by eapply guarded_weaken].
    + unfold mbind, M_bind. rewrite Hloop. by destruct o' as [[|]|].
    + eapply walked_on; [apply pauses_refl | done..|]. by eapply walked_pauses.
Qed.
End walks.

(** ** Properties *)

(** C15: No visitor can lead a walk astray: whatever it does with the accessors, with the arrays
    it was ever given and with memory it allocates, before the walk and at each call, the
    walk over a held tree calls it on the node positions of the tree in pre-order, each
    time with the whole tree in place, until it returns false, panics, or a nil pointer is
    met; and the walk never runs out of a stack deeper than the tree is high. *)
Theorem walk_unperturbed round_up {V} depth visit p n (w : world V) ht :
  is_client round_up visit -> ptr_at ht p (Some n) -> node_height n < depth ->
  protected ht (w_client w) -> owned w ⊆ dom (memory w) ->
  exists o w', walked ht visit (node_slots n) w o w' /\ ht ⊆ memory w' /\
    hView_Walk round_up depth p (Some visit) w =
      (match o with Ret _ => Ret tt | Panic v => Panic v end, w').
Proof.
  intros Hvisit Hp Hlt Hprot Hown.
  destruct (walks_node round_up visit Hvisit ht depth p (Some n) Hp Hlt ht w) as (o & w' & Hrun & Hcalls & Hw'); [done | done|].
  exists o, w'. split_and!; [done | apply Hw' |]. inversion Hp; subst. unfold hView_Walk, mbind, M_bind.
  rewrite Hrun. by destruct o.
Qed.
