(* ===== verification/Errors.v ===== *)
(** * Public errors: errors.go *)
From stdpp Require Import base strings list.
From S2P Require Import Prelude.
From S2P Require Import GoRuntime.
From S2P Require Import Nodes.
From S2P Require Import PgQuery.
Local Open Scope string_scope.

Definition ErrInvalidPrepared : goerror :=
  ErrorString "ErrInvalidPrepared" "sqlguard: invalid prepared value".

Definition violationMessage : string := "sql validation rejected by rule".
Definition parseErrorMessage : string := "sql validation parsing failed".
Definition ParseErrorUnknown : string := "unknown".
Definition ParseErrorSyntax : string := "syntax".

(** [newViolation] and the methods of *Violation, which accept a nil receiver. *)
Definition newViolation (ruleID : string) : ptr Violation := Some {| v_ruleID := ruleID |}.
Definition Violation_Error (_ : ptr Violation) : string := violationMessage.
Definition Violation_RuleID (e : ptr Violation) : string :=
  match e with
  | None => ""
  | Some e => v_ruleID e
  end.

(** [newParseError] and the methods of *ParseError. *)
Definition newParseError (category : string) : ptr ParseError := Some {| p_category := category |}.
Definition ParseError_Error (_ : ptr ParseError) : string := parseErrorMessage.
Definition ParseError_Category (e : ptr ParseError) : string :=
  match e with
  | None => ""
  | Some e => p_category e
  end.

(** [translateParserError]. *)
Definition translateParserError (source : option goerror) : option goerror :=
  match source with
  | None => None
  | Some _ =>
      let category :=
        match errors_As as_ParserError source with
        | Some parserError =>
            if decide (ParserError_Category parserError = FailureSyntax)
            then ParseErrorSyntax else ParseErrorUnknown
        | None => ParseErrorUnknown
        end in
      Some (ParseErrorPtr (newParseError category))
  end.

(** The text of an error, as [Error] returns it. *)
Fixpoint error_text (e : goerror) : string :=
  match e with
  | ErrorString _ text | FmtError text | WrapError text _ => text
  | JoinError es => String.concat (String (Ascii.ascii_of_nat 10) "") (map error_text es)
  | ParserErrorPtr p => ParserError_Error p
  | ViolationPtr p => Violation_Error p
  | ParseErrorPtr p => ParseError_Error p
  | ForeignError name => name
  end.

(** ** Properties *)

(** C32: [translateParserError] reduces every non-nil source error to one of two
    public errors: a [ParseError] with category "syntax" when the source's tree
    holds a parser error whose category is the syntax category and that
    [errors.As] finds first, and with category "unknown" otherwise.  The result
    wraps nothing and its text is constant; nil stays nil. *)
Theorem translateParserError_bounded source :
  match translateParserError source with
  | None => source = None
  | Some e =>
      (exists err, source = Some err) /\
      (forall e', reachable e e' -> e' = e) /\
      error_text e = parseErrorMessage /\
      ((e = ParseErrorPtr (Some {| p_category := ParseErrorSyntax |}) /\
        exists p, errors_As as_ParserError source = Some (Some p) /\ pe_category p = FailureSyntax) \/
       (e = ParseErrorPtr (Some {| p_category := ParseErrorUnknown |}) /\
        forall p, errors_As as_ParserError source = Some (Some p) -> pe_category p <> FailureSyntax))
  end.
Proof.
  destruct source as [err|]; [|done]. unfold translateParserError.
  split; [by eauto|]. split; [by inversion 1|]. split; [done|].
  destruct (errors_As as_ParserError (Some err)) as [[p|]|]; cbn; [case_decide| |];
    naive_solver.
Qed.
