(* ===== verification/RuleContract.v ===== *)
(** * The rule contract: rule.go *)
From stdpp Require Import base strings list.
From Stdlib Require Import Ascii.
From S2P Require Import Prelude.
From S2P Require Import GoRuntime.

Definition maxRuleIDLength : nat := 64.

(** [RuleResult], [Allow], [Reject] and [Rejected]. *)
Record RuleResult : Set := MkRuleResult { allowed : bool }.

Definition Allow : RuleResult := {| allowed := true |}.
Definition Reject : RuleResult := {| allowed := false |}.
Definition Rejected (r : RuleResult) : bool := negb (allowed r).

(** A Go byte comparison. *)
Definition byte_between (lo hi c : Ascii.ascii) : bool :=
  (Ascii.N_of_ascii lo <=? Ascii.N_of_ascii c)%N && (Ascii.N_of_ascii c <=? Ascii.N_of_ascii hi)%N.

(** [isASCIIAlphaNumeric]. *)
Definition isASCIIAlphaNumeric (character : Ascii.ascii) : bool :=
  byte_between "a"%char "z"%char character || byte_between "A"%char "Z"%char character || byte_between "0"%char "9"%char character.

(** The loop of [validRuleID], from a given index on. *)
Fixpoint validRuleID_loop (index : nat) (ruleID : string) : bool :=
  match ruleID with
  | EmptyString => true
  | String character rest =>
      if isASCIIAlphaNumeric character then validRuleID_loop (S index) rest
      else if (0 <? index) &&
              (bool_decide (character = "."%char) || bool_decide (character = "-"%char)
               || bool_decide (character = "_"%char))
      then validRuleID_loop (S index) rest
      else false
  end.

(** [validRuleID]. *)
Definition validRuleID (ruleID : string) : bool :=
  if (String.length ruleID =? 0) || (maxRuleIDLength <? String.length ruleID) then false
  else validRuleID_loop 0 ruleID.

(** ** Specification *)

(** A character allowed after the first one: a letter, a digit or one of the
    three separators. *)
Definition separator (c : Ascii.ascii) : Prop := c = "."%char \/ c = "-"%char \/ c = "_"%char.

Definition alphanumeric (c : Ascii.ascii) : Prop :=
  (97 <= Ascii.nat_of_ascii c <= 122) \/ (65 <= Ascii.nat_of_ascii c <= 90) \/
  (48 <= Ascii.nat_of_ascii c <= 57).

(** The documented identifiers: 1 to 64 characters, the first alphanumeric, the
    others alphanumeric or separators. *)
Definition rule_identifier (s : string) : Prop :=
  exists c rest, s = String c rest /\ String.length s <= 64 /\ alphanumeric c /\
    Forall (fun c => alphanumeric c \/ separator c) (string_elems rest).

(** ** Lemmas *)
Lemma isASCIIAlphaNumeric_spec c : isASCIIAlphaNumeric c = true <-> alphanumeric c.
Proof.
  unfold isASCIIAlphaNumeric, alphanumeric, byte_between, Ascii.nat_of_ascii.
  rewrite !orb_true_iff, !andb_true_iff, !N.leb_le.
  change (Ascii.N_of_ascii "a"%char) with 97%N. change (Ascii.N_of_ascii "z"%char) with 122%N.
  change (Ascii.N_of_ascii "A"%char) with 65%N. change (Ascii.N_of_ascii "Z"%char) with 90%N.
  change (Ascii.N_of_ascii "0"%char) with 48%N. change (Ascii.N_of_ascii "9"%char) with 57%N.
  lia.
Qed.

Lemma validRuleID_loop_spec i s :
  0 < i -> validRuleID_loop i s = true <-> Forall (fun c => alphanumeric c \/ separator c) (string_elems s).
Proof.
  revert i. induction s as [|c s IH]; intros i Hi; cbn; [by split|].
  rewrite Forall_cons, <- isASCIIAlphaNumeric_spec. unfold separator.
  destruct (isASCIIAlphaNumeric c); [rewrite IH by lia; tauto|].
  destruct i as [|i]; [lia|]. cbn. rewrite <- (IH (S (S i))) by lia.
  repeat case_bool_decide; cbn; intuition congruence.
Qed.

Lemma validRuleID_iff s : validRuleID s = true <-> rule_identifier s.
Proof.
  unfold validRuleID, rule_identifier, maxRuleIDLength. destruct s as [|c s]; cbn [String.length].
  - split; [done|]. by intros (? & ? & ? & _).
  - destruct (Nat.ltb_spec 64 (S (String.length s))); cbn.
    + split; [done|]. intros (c' & r & Heq & Hlen & _). cbn in Hlen. lia.
    + split.
      * destruct (isASCIIAlphaNumeric c) eqn:Hc; [|done]. intros Hl.
        exists c, s. rewrite <- isASCIIAlphaNumeric_spec, <- (validRuleID_loop_spec 1) by lia. done.
      * intros (c' & r & [= <- <-] & _ & Hc & Hr).
        apply isASCIIAlphaNumeric_spec in Hc. rewrite Hc. apply validRuleID_loop_spec; [lia|done].
Qed.

(** ** Properties *)

(** [validRuleID] accepts exactly the documented identifiers: 1 to 64 ASCII
    characters, the first a letter or digit, the others letters, digits, dots,
    dashes or underscores. *)
Theorem validRuleID_correct s : validRuleID s = true <-> rule_identifier s.
Proof. apply validRuleID_iff. Qed.
