(* ===== verification/Observability.v ===== *)
(** * Validation events: observability.go *)
From stdpp Require Import base strings list.
From S2P Require Import Prelude.
From S2P Require Import GoRuntime.
Local Open Scope string_scope.

Definition ValidationModeEnforce : string := "enforce".
Definition ValidationOutcomeAllowed : string := "allowed".
Definition ValidationOutcomePolicyViolation : string := "policy_violation".
Definition ValidationOutcomeParserFailure : string := "parser_failure".
Definition ValidationOutcomeCanceled : string := "canceled".
Definition ValidationOutcomeInvalidPrepared : string := "invalid_prepared".

(** [ValidationEvent]. *)
Record ValidationEvent : Set := MkEvent {
  event_mode : string; event_outcome : string; event_ruleID : string
}.

(** The methods [Mode], [Outcome] and [RuleID] of an event. *)
Definition Event_Mode (e : ValidationEvent) : string := event_mode e.
Definition Event_Outcome (e : ValidationEvent) : string := event_outcome e.
Definition Event_RuleID (e : ValidationEvent) : string := event_ruleID e.

(** [newValidationEvent]. *)
Definition newValidationEvent (mode outcome ruleID : string) : ValidationEvent :=
  let ruleID := if decide (outcome <> ValidationOutcomePolicyViolation) then "" else ruleID in
  {| event_mode := mode; event_outcome := outcome; event_ruleID := ruleID |}.

#[export] Instance ValidationEvent_eq_dec : EqDecision ValidationEvent.
Proof. solve_decision. Defined.
