(* ===== verification/Engine.v ===== *)
(** * The validation engine: engine.go, prepared.go, validator.go

    Contexts, rules and sinks are code of the application: records of functions
    over the application's own state [U].  Every call the engine makes to them,
    and every parse, is also appended to a trace with its result, so that a
    theorem can speak of what was called, how often and in which order. *)
From stdpp Require Import base strings list gmap.
From S2P Require Import Prelude.
From S2P Require Import GoRuntime.
From S2P Require Import Nodes.
From S2P Require Import Traversal.
From S2P Require Import PgQuery.
From S2P Require Import Statements.
From S2P Require Import Errors.
From S2P Require Import RuleContract.
From S2P Require Import Observability.
Local Open Scope string_scope.

(** ** The world *)

(** A call that left the engine, with what it returned. *)
Inductive Call : Set :=
| CErr (result : outcome (option goerror))       (** ctx.Err() *)
| CParse (sql : string)                          (** parser.Parse(sql) *)
| CID (result : outcome string)                  (** rule.ID() *)
| CEvaluate (ruleID : string) (statement : Statement) (result : outcome RuleResult)
| CRecord (event : ValidationEvent)              (** metrics.RecordValidation(event) *)
| CLog (event : ValidationEvent).                (** logger.LogValidation(event) *)

Record World (U : Type) : Type := MkWorld { user : U; trace : list Call }.
Arguments MkWorld {U} _ _.
Arguments user {U} _.
Arguments trace {U} _.

(** A call of application code. *)
Definition call {U A} (record : outcome A -> Call) (f : U -> outcome A * U) : M (World U) A :=
  fun w => let '(r, u) := f (user w) in (r, {| user := u; trace := trace w ++ [record r] |}).

(** ** The interfaces of the application *)
Record Context (U : Type) : Type := { Err : U -> outcome (option goerror) * U }.
Arguments Err {U} _ _.

Record Rule (U : Type) : Type := {
  ID : U -> outcome string * U;
  Evaluate : Context U -> Statement -> U -> outcome RuleResult * U
}.
Arguments ID {U} _ _.
Arguments Evaluate {U} _ _ _ _.

Record Metrics (U : Type) : Type := { RecordValidation : ValidationEvent -> U -> outcome (option goerror) * U }.
Arguments RecordValidation {U} _ _ _.

Record Logger (U : Type) : Type := { LogValidation : ValidationEvent -> U -> outcome (option goerror) * U }.
Arguments LogValidation {U} _ _ _.

Record EngineOptions (U : Type) : Type := {
  opt_metrics : iface (Metrics U);
  opt_logger : iface (Logger U)
}.
Arguments opt_metrics {U} _.
Arguments opt_logger {U} _.

(** A method call on an interface value; on the nil interface it panics. *)
Definition invoke {S A B} (v : iface A) (m : A -> M S B) : M S B :=
  match v with
  | None => panic "nil pointer dereference"
  | Some d => m (dyn_impl d)
  end.

(** ** State *)
Record registeredRule (U : Type) : Type := { reg_ruleID : string; reg_rule : iface (Rule U) }.
Arguments reg_ruleID {U} _.
Arguments reg_rule {U} _.

Record Engine (U : Type) : Type := {
  engine_rules : list (registeredRule U);
  engine_metrics : iface (Metrics U);
  engine_logger : iface (Logger U)
}.
Arguments engine_rules {U} _.
Arguments engine_metrics {U} _.
Arguments engine_logger {U} _.

(** prepared.go: [Prepared]; its zero value has a nil result. *)
Record Prepared : Set := MkPrepared { prepared_result : ptr Result }.

Definition errNilRule : goerror := ErrorString "errNilRule" "sqlguard: rule must not be nil".
Definition errInvalidRuleID : goerror := ErrorString "errInvalidRuleID" "sqlguard: rule identifier is invalid".
Definition errNilMetrics : goerror := ErrorString "errNilMetrics" "sqlguard: metrics must not be nil".
Definition errNilLogger : goerror := ErrorString "errNilLogger" "sqlguard: logger must not be nil".

(** ** Construction *)

(** [isTypedNil] and [isNilRule]. *)
Definition isTypedNil {A} (value : iface A) : bool :=
  match value with
  | None => false
  | Some reflected => if nillable (dyn_kind reflected) then dyn_nil reflected else false
  end.

Definition isNilRule {U} (rule : iface (Rule U)) : bool :=
  match rule with
  | None => true
  | Some _ => isTypedNil rule
  end.

Section Construction.
Context {U : Type}.

(** [validateRules]: the loop, with the identifiers read so far and the set of
    those seen. *)
Fixpoint validateRules_loop (rules : list (iface (Rule U))) (ruleIDs : list string)
    (seenRuleIDs : gset string) : M (World U) (list string * option goerror) :=
  match rules with
  | [] => mret (ruleIDs, None)
  | rule :: rules' =>
      if isNilRule rule then mret ([], Some errNilRule)
      else
        ruleID ← invoke rule (fun r => call CID (ID r));
        if negb (validRuleID ruleID) then mret ([], Some errInvalidRuleID)
        else if decide (ruleID ∈ seenRuleIDs) then
          mret ([], Some (FmtError ("sqlguard: duplicate rule identifier: " ++ ruleID)))
        else validateRules_loop rules' (ruleIDs ++ [ruleID]) ({[ruleID]} ∪ seenRuleIDs)
  end.

Definition validateRules (rules : list (iface (Rule U))) : M (World U) (list string * option goerror) :=
  validateRules_loop rules [] ∅.

(** The loop of [NewEngine] that pairs each rule with ruleIDs[index]. *)
Fixpoint register_loop (ruleIDs : list string) (index : nat) (rules : list (iface (Rule U)))
    (registrations : list (registeredRule U)) : M (World U) (list (registeredRule U)) :=
  match rules with
  | [] => mret registrations
  | rule :: rules' =>
      match ruleIDs !! index with
      | None => panic "index out of range"
      | Some ruleID =>
          register_loop ruleIDs (S index) rules'
            (registrations ++ [ {| reg_ruleID := ruleID; reg_rule := rule |} ])
      end
  end.

(** [NewEngine]. *)
Definition NewEngine (options : EngineOptions U) (rules : list (iface (Rule U))) :
    M (World U) (ptr (Engine U) * option goerror) :=
  if isTypedNil (opt_metrics options) then mret (None, Some errNilMetrics)
  else if isTypedNil (opt_logger options) then mret (None, Some errNilLogger)
  else
    validated ← validateRules rules;
    let '(ruleIDs, err) := validated in
    match err with
    | Some err => mret (None, Some err)
    | None =>
        registrations ← register_loop ruleIDs 0 rules [];
        mret (Some {| engine_rules := registrations;
                      engine_metrics := opt_metrics options;
                      engine_logger := opt_logger options |}, None)
    end.
End Construction.

(** ** Validation *)
Section Validation.
Context {U : Type} `{PQ : PgQuery} (build : Build).

(** [isolateObservabilityFailure]. *)
Definition isolateObservabilityFailure (sink : M (World U) (option goerror)) : M (World U) unit :=
  recover (_ ← sink; mret tt).

(** [finishValidation]. *)
Definition finishValidation (e : Engine U) (outcome ruleID : string) (result : option goerror) :
    M (World U) (option goerror) :=
  let event := newValidationEvent ValidationModeEnforce outcome ruleID in
  _ ← match engine_metrics e with
      | None => mret tt
      | Some _ => isolateObservabilityFailure
                    (invoke (engine_metrics e) (fun m => call (fun _ => CRecord event) (RecordValidation m event)))
      end;
  _ ← match engine_logger e with
      | None => mret tt
      | Some _ => isolateObservabilityFailure
                    (invoke (engine_logger e) (fun l => call (fun _ => CLog event) (LogValidation l event)))
      end;
  mret result.

(** [Prepare]. *)
Definition Prepare (e : Engine U) (ctx : Context U) (sql : string) :
    M (World U) (Prepared * option goerror) :=
  err ← call CErr (Err ctx);
  match err with
  | Some err =>
      r ← finishValidation e ValidationOutcomeCanceled "" (Some err);
      mret ({| prepared_result := None |}, r)
  | None =>
      parsed ← call (fun _ => CParse sql) (fun u => (Ret (Parse build sql), u));
      let '(result, parseErr) := parsed in
      err ← call CErr (Err ctx);
      match err with
      | Some err =>
          r ← finishValidation e ValidationOutcomeCanceled "" (Some err);
          mret ({| prepared_result := None |}, r)
      | None =>
          match parseErr with
          | Some _ =>
              r ← finishValidation e ValidationOutcomeParserFailure "" (translateParserError parseErr);
              mret ({| prepared_result := None |}, r)
          | None => mret ({| prepared_result := result |}, None)
          end
      end
  end.

(** The body of the loops of [ValidatePrepared]: one rule on one statement. *)
Definition evaluateRule (e : Engine U) (ctx : Context U) (statement : Statement)
    (registration : registeredRule U) : M (World U) (option (option goerror)) :=
  err ← call CErr (Err ctx);
  match err with
  | Some err =>
      r ← finishValidation e ValidationOutcomeCanceled "" (Some err);
      mret (Some r)
  | None =>
      result ← invoke (reg_rule registration)
                 (fun rule => call (CEvaluate (reg_ruleID registration) statement) (Evaluate rule ctx statement));
      if Rejected result then
        r ← finishValidation e ValidationOutcomePolicyViolation (reg_ruleID registration)
              (Some (ViolationPtr (newViolation (reg_ruleID registration))));
        mret (Some r)
      else mret None
  end.

(** [ValidatePrepared]. *)
Definition ValidatePrepared (e : Engine U) (ctx : Context U) (prepared : Prepared) :
    M (World U) (option goerror) :=
  err ← call CErr (Err ctx);
  match err with
  | Some err => finishValidation e ValidationOutcomeCanceled "" (Some err)
  | None =>
      match prepared_result prepared with
      | None => finishValidation e ValidationOutcomeInvalidPrepared "" (Some ErrInvalidPrepared)
      | Some result =>
          returned ← for_range (StatementSequence (Some result)) (fun root =>
                       let statement := newStatement root in
                       for_range (engine_rules e) (evaluateRule e ctx statement));
          match returned with
          | Some r => mret r
          | None => finishValidation e ValidationOutcomeAllowed "" None
          end
      end
  end.

(** [Validate]. *)
Definition Validate (e : Engine U) (ctx : Context U) (sql : string) : M (World U) (option goerror) :=
  prepared ← Prepare e ctx sql;
  let '(prepared, err) := prepared in
  match err with
  | Some err => mret (Some err)
  | None => ValidatePrepared e ctx prepared
  end.
End Validation.
Arguments finishValidation : simpl never.
Arguments call : simpl never.

(** ** Specification

    The protocol of a validation: what is called, in which order, and how the
    results of the calls determine the verdict. *)
Inductive verdict : Set :=
| VAllowed
| VRejected (ruleID : string)
| VParserFailure
| VCanceled (err : goerror)
| VInvalidPrepared
| VPanicked (v : string).     (** the context or a rule panicked *)

(** What the caller receives. *)
Definition verdict_result (v : verdict) : outcome (option goerror) :=
  match v with
  | VAllowed => Ret None
  | VRejected ruleID => Ret (Some (ViolationPtr (Some {| v_ruleID := ruleID |})))
  | VParserFailure => Ret (Some (ParseErrorPtr (Some {| p_category := ParseErrorSyntax |})))
  | VCanceled err => Ret (Some err)
  | VInvalidPrepared => Ret (Some ErrInvalidPrepared)
  | VPanicked v => Panic v
  end.

(** The terminal event of a verdict; a panic of the application's code has
    none. *)
Definition verdict_event (v : verdict) : option ValidationEvent :=
  let event outcome ruleID := Some {| event_mode := "enforce"; event_outcome := outcome; event_ruleID := ruleID |} in
  match v with
  | VAllowed => event "allowed" ""
  | VRejected ruleID => event "policy_violation" ruleID
  | VParserFailure => event "parser_failure" ""
  | VCanceled _ => event "canceled" ""
  | VInvalidPrepared => event "invalid_prepared" ""
  | VPanicked _ => None
  end.

(** Each enabled sink receives the event once, the metrics first. *)
Definition emits {U} (e : Engine U) (event : ValidationEvent) : list Call :=
  match engine_metrics e with None => [] | Some _ => [CRecord event] end ++
  match engine_logger e with None => [] | Some _ => [CLog event] end.

Definition verdict_emits {U} (e : Engine U) (v : verdict) : list Call :=
  match verdict_event v with None => [] | Some event => emits e event end.

(** The statement-rule pairs of a prepared input, in evaluation order: by
    statement, then in registration order. *)
Definition pairs {U} (e : Engine U) (result : Result) : list (Statement * registeredRule U) :=
  flat_map (fun root => map (pair (newStatement root)) (engine_rules e)) (StatementSequence (Some result)).

(** Evaluating a list of pairs: before every rule the context is asked; the
    first rejection, cancellation or panic ends it. *)
Inductive evaluation : list (Statement * string) -> list Call -> verdict -> Prop :=
| eval_done : evaluation [] [] VAllowed
| eval_canceled s id ps err :
    evaluation ((s, id) :: ps) [CErr (Ret (Some err))] (VCanceled err)
| eval_context_panic s id ps v :
    evaluation ((s, id) :: ps) [CErr (Panic v)] (VPanicked v)
| eval_rule_panic s id ps v :
    evaluation ((s, id) :: ps) [CErr (Ret None); CEvaluate id s (Panic v)] (VPanicked v)
| eval_rejected s id ps r :
    allowed r = false ->
    evaluation ((s, id) :: ps) [CErr (Ret None); CEvaluate id s (Ret r)] (VRejected id)
| eval_allowed s id ps r t v :
    allowed r = true -> evaluation ps t v ->
    evaluation ((s, id) :: ps) (CErr (Ret None) :: CEvaluate id s (Ret r) :: t) v.

(** [ValidatePrepared] up to its terminal event. *)
Inductive prepared_protocol (ps : option (list (Statement * string))) : list Call -> verdict -> Prop :=
| pp_canceled err : prepared_protocol ps [CErr (Ret (Some err))] (VCanceled err)
| pp_context_panic v : prepared_protocol ps [CErr (Panic v)] (VPanicked v)
| pp_invalid : ps = None -> prepared_protocol ps [CErr (Ret None)] VInvalidPrepared
| pp_evaluation l t v : ps = Some l -> evaluation l t v -> prepared_protocol ps (CErr (Ret None) :: t) v.

(** [Prepare] up to its terminal event, when it fails. *)
Inductive prepare_failure (sql : string) (parsed : bool) : list Call -> verdict -> Prop :=
| pf_canceled err : prepare_failure sql parsed [CErr (Ret (Some err))] (VCanceled err)
| pf_context_panic v : prepare_failure sql parsed [CErr (Panic v)] (VPanicked v)
| pf_canceled_after err :
    prepare_failure sql parsed [CErr (Ret None); CParse sql; CErr (Ret (Some err))] (VCanceled err)
| pf_context_panic_after v :
    prepare_failure sql parsed [CErr (Ret None); CParse sql; CErr (Panic v)] (VPanicked v)
| pf_parser_failure :
    parsed = false ->
    prepare_failure sql parsed [CErr (Ret None); CParse sql; CErr (Ret None)] VParserFailure.

(** The calls of a successful [Prepare]. *)
Definition prepare_success (sql : string) : list Call := [CErr (Ret None); CParse sql; CErr (Ret None)].

(** The parser accepts the input. *)
Definition parses `{PQ : PgQuery} (build : Build) (sql : string) : bool :=
  match (Parse build sql).2 with None => true | Some _ => false end.

(** [Validate] up to its terminal event. *)
Inductive validate_protocol `{PQ : PgQuery} (build : Build) {U} (e : Engine U) (sql : string) :
    list Call -> verdict -> Prop :=
| vp_not_prepared t v :
    prepare_failure sql (parses build sql) t v -> validate_protocol build e sql t v
| vp_prepared r t v :
    Parse build sql = (Some r, None) ->
    prepared_protocol (Some (map (fun p => (p.1, reg_ruleID p.2)) (pairs e r))) t v ->
    validate_protocol build e sql (prepare_success sql ++ t) v.

(** What [NewEngine] guarantees of an engine: the rules dispatch, their
    identifiers are valid and distinct, and the sinks are not typed nils. *)
Record engine_wf {U} (e : Engine U) : Prop := {
  wf_live : Forall (fun r => live (reg_rule r)) (engine_rules e);
  wf_ids : Forall (fun r => rule_identifier (reg_ruleID r)) (engine_rules e);
  wf_distinct : NoDup (map reg_ruleID (engine_rules e));
  wf_metrics : engine_metrics e = None \/ live (engine_metrics e);
  wf_logger : engine_logger e = None \/ live (engine_logger e)
}.

Definition named {U} (p : Statement * registeredRule U) : Statement * string := (p.1, reg_ruleID p.2).

(** ** Lemmas *)
Lemma call_run {U A} (record : outcome A -> Call) (f : U -> outcome A * U) w :
  call record f w = ((f (user w)).1, {| user := (f (user w)).2; trace := trace w ++ [record (f (user w)).1] |}).
Proof. unfold call. by destruct (f (user w)). Qed.

(** A call of application code, then the rest. *)
Lemma bind_call {U A B} (record : outcome A -> Call) (f : U -> outcome A * U) (k : A -> M (World U) B) w :
  (call record f ≫= k) w =
  match f (user w) with
  | (Ret a, u) => k a {| user := u; trace := trace w ++ [record (Ret a)] |}
  | (Panic v, u) => (Panic v, {| user := u; trace := trace w ++ [record (Panic v)] |})
  end.
Proof. unfold mbind, M_bind, call. by destruct (f (user w)) as [[a|v] u]. Qed.

(** Runs the pending [finishValidation] of the goal, which ends with verdict [v]. *)
Ltac finish_with lem v u :=
  let Hf := fresh "Hf" in
  match goal with
  | |- context [(finishValidation ?e ?o ?id ?res ≫= ?k) ?w] =>
      destruct (lem e v o id res w eq_refl eq_refl) as (u & Hf);
      rewrite (bind_Ret _ k _ _ _ Hf); clear Hf
  | |- context [finishValidation ?e ?o ?id ?res ?w] =>
      destruct (lem e v o id res w eq_refl eq_refl) as (u & Hf);
      rewrite Hf; clear Hf
  end; cbn.

Section EngineFacts.
Context {U : Type} `{PQ : PgQuery} (build : Build).
Implicit Types (e : Engine U) (w : World U) (ctx : Context U).

(** A contained sink call: it returns, and its call is in the trace. *)
Lemma isolate_run (ev : Call) (f : U -> outcome (option goerror) * U) w :
  exists u, isolateObservabilityFailure (call (fun _ => ev) f) w = (Ret tt, {| user := u; trace := trace w ++ [ev] |}).
Proof.
  unfold isolateObservabilityFailure, recover, mbind, M_bind. rewrite call_run.
  destruct (f (user w)) as [[r|v] u]; cbn; eauto.
Qed.

Lemma finishValidation_run e o id res w :
  exists u, finishValidation e o id res w =
    (Ret res, {| user := u; trace := trace w ++ emits e (newValidationEvent ValidationModeEnforce o id) |}).
Proof.
  unfold finishValidation, emits.
  destruct (engine_metrics e) as [m|], (engine_logger e) as [l|]; unfold mbind, M_bind, mret, M_ret; cbn.
  - edestruct (isolate_run (CRecord (newValidationEvent ValidationModeEnforce o id))) as (u1 & ->).
    edestruct (isolate_run (CLog (newValidationEvent ValidationModeEnforce o id))) as (u2 & ->).
    exists u2. cbn. by rewrite <- app_assoc.
  - edestruct (isolate_run (CRecord (newValidationEvent ValidationModeEnforce o id))) as (u1 & ->). by exists u1.
  - edestruct (isolate_run (CLog (newValidationEvent ValidationModeEnforce o id))) as (u2 & ->). by exists u2.
  - exists (user w). rewrite app_nil_r. by destruct w.
Qed.

(** Finishing with a verdict. *)
Lemma finish_verdict e v o id res w :
  verdict_result v = Ret res ->
  verdict_event v = Some (newValidationEvent ValidationModeEnforce o id) ->
  exists u, finishValidation e o id res w =
    (verdict_result v, {| user := u; trace := trace w ++ verdict_emits e v |}).
Proof.
  intros Hr Hv. unfold verdict_emits. rewrite Hr, Hv. apply finishValidation_run.
Qed.

(** What a loop over pairs returns for a verdict: nothing when all were allowed,
    an early return otherwise. *)
Definition loop_result (v : verdict) : outcome (option (option goerror)) :=
  match v with
  | VAllowed => Ret None
  | _ => match verdict_result v with Ret r => Ret (Some r) | Panic v => Panic v end
  end.

(** One rule on one statement: either it is allowed and nothing is emitted, or
    its verdict ends the evaluation of any list of pairs it heads. *)
Lemma evaluateRule_run e ctx s r w :
  live (reg_rule r) ->
  (exists res u, allowed res = true /\
     evaluateRule e ctx s r w =
       (Ret None, {| user := u; trace := trace w ++ [CErr (Ret None); CEvaluate (reg_ruleID r) s (Ret res)] |})) \/
  (exists t v u, v <> VAllowed /\ (forall ps, evaluation ((s, reg_ruleID r) :: ps) t v) /\
     evaluateRule e ctx s r w = (loop_result v, {| user := u; trace := trace w ++ t ++ verdict_emits e v |})).
Proof.
  intros (d & Hd & _). unfold evaluateRule. rewrite bind_call.
  destruct (Err ctx (user w)) as [[[err|]|v] u1]; cbv beta iota.
  - right. finish_with finish_verdict (VCanceled err) u2.
    eexists _, (VCanceled err), u2. split; [done|]. split; [constructor|]. by rewrite app_assoc.
  - rewrite Hd. cbn [invoke dyn_impl]. rewrite bind_call. cbn [user trace].
    destruct (Evaluate (dyn_impl d) ctx s u1) as [[[[]]|v] u2]; cbv beta iota; cbn [Rejected allowed negb].
    + left. exists Allow, u2. by rewrite <- app_assoc.
    + right. finish_with finish_verdict (VRejected (reg_ruleID r)) u3.
      eexists _, (VRejected (reg_ruleID r)), u3. split; [done|].
      split; [intros ps; by apply (eval_rejected _ _ _ Reject)|]. by rewrite <- !app_assoc.
    + right. eexists _, (VPanicked v), u2. split; [done|]. split; [intros ps; apply eval_rule_panic|].
      by rewrite app_nil_r, <- !app_assoc.
  - right. eexists _, (VPanicked v), u1. split; [done|]. split; [intros ps; apply eval_context_panic|]. by rewrite app_nil_r.
Qed.

Lemma evaluate_pairs_run e ctx l w :
  Forall (fun p => live (reg_rule p.2)) l ->
  exists t v u, evaluation (map named l) t v /\
    for_range l (fun p => evaluateRule e ctx p.1 p.2) w =
      (loop_result v, {| user := u; trace := trace w ++ t ++
         match v with VAllowed => [] | _ => verdict_emits e v end |}).
Proof.
  intros Hl. revert w. induction Hl as [|[s r] l Hr _ IH]; intros w.
  - exists [], VAllowed, (user w). split; [constructor|]. cbn. rewrite app_nil_r. by destruct w.
  - cbn [for_range fst snd]. unfold mbind, M_bind.
    destruct (evaluateRule_run e ctx s r w Hr) as [(res & u & Hres & ->)|(t & v & u & Hv & Ht & ->)]; cbn.
    + edestruct IH as (t & v & u' & Ht & ->). cbn.
      exists (CErr (Ret None) :: CEvaluate (reg_ruleID r) s (Ret res) :: t), v, u'.
      split; [by constructor|]. by rewrite <- !app_assoc.
    + exists t, v, u. split; [apply Ht|]. by destruct v.
Qed.

(** The nested loops of [ValidatePrepared] are one loop over the pairs. *)
Lemma loops_flatten e ctx (roots : list (ptr Node)) :
  for_range roots (fun root => for_range (engine_rules e) (evaluateRule e ctx (newStatement root))) ≡
  for_range (flat_map (fun root => map (pair (newStatement root)) (engine_rules e)) roots)
    (fun p => evaluateRule e ctx p.1 p.2).
Proof.
  rewrite <- for_range_flat_map. apply for_range_ext. intros root _. by rewrite for_range_map.
Qed.

Lemma ValidatePrepared_run e ctx p w :
  Forall (fun r => live (reg_rule r)) (engine_rules e) ->
  exists t v u,
    prepared_protocol (map named ∘ pairs e <$> prepared_result p) t v /\
    ValidatePrepared e ctx p w =
      (verdict_result v, {| user := u; trace := trace w ++ t ++ verdict_emits e v |}).
Proof.
  intros Hlive. unfold ValidatePrepared. rewrite bind_call.
  destruct (Err ctx (user w)) as [[[err|]|v] u1]; cbv beta iota.
  - finish_with finish_verdict (VCanceled err) u2.
    eexists _, (VCanceled err), u2. split; [constructor|]. by rewrite <- app_assoc.
  - destruct (prepared_result p) as [r|].
    + match goal with |- context [(for_range ?l ?f ≫= ?k) ?w1] =>
        assert (Forall (fun p => live (reg_rule p.2)) (pairs e r)) as Hp;
        [|destruct (evaluate_pairs_run e ctx (pairs e r) w1 Hp) as (t & v & u & Ht & Hrun);
          unfold pairs in Hrun; rewrite <- (loops_flatten e ctx (StatementSequence (Some r)) w1) in Hrun]
      end.
      { apply Forall_forall. intros [s reg] (root & _ & Hin)%elem_of_flat_map.
        apply list_elem_of_fmap in Hin as (reg' & [= -> ->] & Hreg).
        by apply (proj1 (Forall_forall _ _) Hlive). }
      destruct v; [rewrite (bind_Ret _ _ _ _ _ Hrun)|..];
        try (finish_with finish_verdict VAllowed u2;
             eexists _, VAllowed, u2; split; [by eapply pp_evaluation|]; cbn; by rewrite app_nil_r, <- !app_assoc).
      all: eexists _, _, u; (split; [by eapply pp_evaluation|]).
      all: first [rewrite (bind_Ret _ _ _ _ _ Hrun) | rewrite (bind_Panic _ _ _ _ _ Hrun)].
      all: cbn; by rewrite <- app_assoc.
    + finish_with finish_verdict VInvalidPrepared u2.
      eexists _, VInvalidPrepared, u2. split; [by constructor|]. by rewrite <- app_assoc.
  - eexists _, (VPanicked v), u1. split; [constructor|]. by rewrite app_nil_r.
Qed.

(** What a failing [Prepare] returns for a verdict. *)
Definition prepare_result (v : verdict) : outcome (Prepared * option goerror) :=
  match verdict_result v with
  | Ret err => Ret ({| prepared_result := None |}, err)
  | Panic v => Panic v
  end.

Lemma Parse_shape sql :
  (exists r, Parse build sql = (Some r, None)) \/
  Parse build sql = (None, Some (ParserErrorPtr (Some {| pe_category := FailureSyntax |}))).
Proof. rewrite Parse_spec. destruct (parseBackend build sql); [case_decide|]; eauto. Qed.

Lemma Prepare_run e ctx sql w :
  (exists r u, Parse build sql = (Some r, None) /\
     Prepare build e ctx sql w =
       (Ret ({| prepared_result := Some r |}, None), {| user := u; trace := trace w ++ prepare_success sql |})) \/
  (exists t v u, prepare_failure sql (parses build sql) t v /\
     Prepare build e ctx sql w =
       (prepare_result v, {| user := u; trace := trace w ++ t ++ verdict_emits e v |})).
Proof.
  unfold Prepare, prepare_result. rewrite bind_call.
  destruct (Err ctx (user w)) as [[[err|]|v] u1]; cbv beta iota.
  - right. finish_with finish_verdict (VCanceled err) u2.
    eexists _, (VCanceled err), u2. split; [constructor|]. by rewrite <- app_assoc.
  - rewrite bind_call. cbn [user trace]. unfold parses.
    destruct (Parse_shape sql) as [(r & HP)| HP]; rewrite HP; cbv beta iota;
      rewrite bind_call; cbn [user trace];
      destruct (Err ctx u1) as [[[err|]|v] u2]; cbv beta iota.
    1, 4: right; finish_with finish_verdict (VCanceled err) u3;
      eexists _, (VCanceled err), u3; (split; [apply pf_canceled_after|]); by rewrite <- !app_assoc.
    + left. eexists r, u2. split; [done|]. unfold mret, M_ret. by rewrite <- !app_assoc.
    + right. eexists _, (VPanicked v), u2. split; [apply pf_context_panic_after|].
      by rewrite app_nil_r, <- !app_assoc.
    + right. finish_with finish_verdict VParserFailure u3.
      eexists _, VParserFailure, u3. split; [by apply pf_parser_failure|]. by rewrite <- !app_assoc.
    + right. eexists _, (VPanicked v), u2. split; [apply pf_context_panic_after|].
      by rewrite app_nil_r, <- !app_assoc.
  - right. eexists _, (VPanicked v), u1. split; [constructor|]. by rewrite app_nil_r.
Qed.

Lemma prepare_failure_verdict sql b t v :
  prepare_failure sql b t v -> verdict_result v <> Ret None.
Proof. by destruct 1. Qed.

Lemma Validate_run e ctx sql w :
  Forall (fun r => live (reg_rule r)) (engine_rules e) ->
  exists t v u,
    validate_protocol build e sql t v /\
    Validate build e ctx sql w =
      (verdict_result v, {| user := u; trace := trace w ++ t ++ verdict_emits e v |}).
Proof.
  intros Hlive. unfold Validate.
  destruct (Prepare_run e ctx sql w) as [(r & u & HP & Hrun)|(t & v & u & Ht & Hrun)].
  - rewrite (bind_Ret _ _ _ _ _ Hrun). cbv beta iota.
    edestruct (ValidatePrepared_run e ctx {| prepared_result := Some r |}) as (t & v & u' & Ht & ->); [done|].
    eexists _, v, u'. split; [by eapply vp_prepared|]. cbn [trace]. by rewrite <- !app_assoc.
  - eexists t, v, u. split; [by apply vp_not_prepared|].
    unfold prepare_result in Hrun. pose proof (prepare_failure_verdict _ _ _ _ Ht).
    destruct (verdict_result v) as [[err|]|pv]; [|done|].
    + by rewrite (bind_Ret _ _ _ _ _ Hrun).
    + by rewrite (bind_Panic _ _ _ _ _ Hrun).
Qed.
End EngineFacts.

(** Runs the pending [finishValidation] of the goal to a state [u] of the sinks'
    making. *)
Ltac run_finish u :=
  let Hf := fresh "Hf" in
  match goal with
  | |- context [(finishValidation ?e ?o ?id ?res ≫= ?k) ?w] =>
      destruct (finishValidation_run e o id res w) as (u & Hf); rewrite ?(bind_Ret _ k _ _ _ Hf), ?Hf; clear Hf
  | |- context [finishValidation ?e ?o ?id ?res ?w] =>
      destruct (finishValidation_run e o id res w) as (u & Hf); rewrite Hf; clear Hf
  end.

(** ** Properties *)

(** C4: for a well-formed engine every run of [Validate] follows the protocol:
    its calls are those of a failed preparation, or of a preparation followed by
    the evaluation of the statement-rule pairs of the parsed input; then every
    enabled sink receives the event of the verdict, and the caller receives the
    verdict's result. *)
Theorem Validate_refines_protocol {U} `{PQ : PgQuery} build (e : Engine U) ctx sql w :
  engine_wf e ->
  exists t v u,
    validate_protocol build e sql t v /\
    Validate build e ctx sql w =
      (verdict_result v, {| user := u; trace := trace w ++ t ++ verdict_emits e v |}).
Proof. intros Hwf. apply Validate_run, Hwf. Qed.

(** C18: the context wins: if it is done when [Validate] starts, nothing is parsed;
    if it is done after the parse, its error is returned whatever the parser
    said; and [ValidatePrepared] asks it before it looks at the prepared value.
    In each case the context's own error is returned and "canceled" is emitted. *)
Theorem cancellation_wins {U} `{PQ : PgQuery} build (e : Engine U) ctx sql prepared w err u1 u2 :
  let event := {| event_mode := "enforce"; event_outcome := "canceled"; event_ruleID := "" |} in
  (Err ctx (user w) = (Ret (Some err), u1) -> exists u',
    Validate build e ctx sql w =
      (Ret (Some err), {| user := u'; trace := trace w ++ [CErr (Ret (Some err))] ++ emits e event |}) /\
    ValidatePrepared e ctx prepared w =
      (Ret (Some err), {| user := u'; trace := trace w ++ [CErr (Ret (Some err))] ++ emits e event |})) /\
  (Err ctx (user w) = (Ret None, u1) -> Err ctx u1 = (Ret (Some err), u2) -> exists u',
    Validate build e ctx sql w =
      (Ret (Some err), {| user := u';
         trace := trace w ++ [CErr (Ret None); CParse sql; CErr (Ret (Some err))] ++ emits e event |})).
Proof.
  intros event. unfold Validate, Prepare, ValidatePrepared. split.
  - intros H1. rewrite M_bind_assoc, !bind_call, H1. cbv beta iota. rewrite M_bind_assoc.
    run_finish u3.
    exists u3. cbn. by rewrite <- app_assoc.
  - intros H1 H2. rewrite M_bind_assoc, bind_call, H1. cbv beta iota. rewrite M_bind_assoc, bind_call. cbn [user trace].
    destruct (Parse build sql) as [res perr]. cbv beta iota. rewrite M_bind_assoc, bind_call. cbn [user trace].
    rewrite H2. cbv beta iota. rewrite M_bind_assoc.
    run_finish u3.
    exists u3. cbn. by rewrite <- !app_assoc.
Qed.
