(* ===== verification/EngineMemory.v ===== *)
(** * The engine in memory (engine.go over the store)

    Engine.v hands trees to the rules.  In Go the engine hands them pointers into a shared
    tree, and the contexts, rules and sinks are code that may keep every slice it was given
    and write to it.  Here [Validate] runs on the store: [Parse] builds the tree in it,
    [StatementSequence] and the loop over its slice read it, and all application code is a
    client.  The run still follows the protocol of Engine.v, with the trees that were
    parsed: no rule can show another rule, or a later validation of the same prepared
    value, anything else. *)
From stdpp Require Import base gmap sets strings list relations.
From S2P Require Import Prelude.
From S2P Require Import GoRuntime.
From S2P Require Import GoFloat.
From S2P Require Import Nodes.
From S2P Require Import Snapshots.
From S2P Require Import HeapBuild.
From S2P Require Import Traversal.
From S2P Require Import PgQuery.
From S2P Require Import Statements.
From S2P Require Import ParseMemory.
From S2P Require Import TraversalMemory.
From S2P Require Import WalkMemory.
From S2P Require Import Errors.
From S2P Require Import RuleContract.
From S2P Require Import Observability.
From S2P Require Import Engine.

(** ** Reading a tree

    The tree that a pointer stands for at some moment, down to some depth. *)
Fixpoint read_node (depth : nat) (h : store) (p : option loc) : ptr Node :=
  match depth, p with
  | S depth', Some l =>
      match h !! l with
      | Some (CNode kind fields) =>
          Some (MkNode kind (map (fun f => MkField (hf_name f) (read_value depth' h (hf_value f))) (read h fields)))
      | _ => None
      end
  | _, _ => None
  end
with read_value (depth : nat) (h : store) (v : hvalue) : Value :=
  match depth with
  | O => zeroValue
  | S depth' =>
      MkValue (h_kind v) (h_bool v) (h_int v) (h_uint v) (h_float v) (h_string v) (read h (h_bytes v))
        (read_node depth' h (h_node v)) (map (read_value depth' h) (read h (h_list v)))
  end.

(** ** The engine over pointers *)
Section engine.
Context {V : Type}.
#[local] Abbreviation W := (world V).

(** A rule gets the pointer of the statement's root. *)
Record hRule : Type := {
  hID : W -> outcome string * W;
  hEvaluate : Context W -> option loc -> W -> outcome RuleResult * W
}.

Record hregisteredRule : Type := { hreg_ruleID : string; hreg_rule : iface hRule }.

Record hEngine : Type := {
  hengine_rules : list hregisteredRule;
  hengine_metrics : iface (Metrics W);
  hengine_logger : iface (Logger W)
}.

(** The sinks are those of an engine of Engine.v. *)
Definition sinks (e : hEngine) : Engine W := {|
  engine_rules := [];
  engine_metrics := hengine_metrics e;
  engine_logger := hengine_logger e
|}.

Context `{PQ : PgQuery} `{PM : !ProtoMemory} (round_up : nat -> nat) (depth : nat) (build_ : Build).

(** What the engine itself does to the memory. *)
Definition engine_memory {A} (m : M store A) : W -> outcome A * W := fun w =>
  let '(o, h) := m (memory w) in (o, with_memory w h).

Definition silently {A} (m : M store A) : M (World W) A := fun w =>
  let '(o, u) := engine_memory m (user w) in (o, {| user := u; trace := trace w |}).

(** [Prepare]. *)
Definition hPrepare (e : hEngine) (ctx : Context W) (sql : string) : M (World W) (option loc * option goerror) :=
  err ← call CErr (Err ctx);
  match err with
  | Some err =>
      r ← finishValidation (sinks e) ValidationOutcomeCanceled "" (Some err);
      mret (None, r)
  | None =>
      parsed ← call (fun _ => CParse sql) (engine_memory (hParse round_up build_ sql));
      let '(result, parseErr) := parsed in
      err ← call CErr (Err ctx);
      match err with
      | Some err =>
          r ← finishValidation (sinks e) ValidationOutcomeCanceled "" (Some err);
          mret (None, r)
      | None =>
          match parseErr with
          | Some _ =>
              r ← finishValidation (sinks e) ValidationOutcomeParserFailure "" (translateParserError parseErr);
              mret (None, r)
          | None => mret (result, None)
          end
      end
  end.

(** The body of the loops of [ValidatePrepared].  The call of the rule is recorded with the
    tree that the pointer stands for when it is made. *)
Definition hevaluateRule (e : hEngine) (ctx : Context W) (root : option loc) (registration : hregisteredRule) :
    M (World W) (option (option goerror)) :=
  err ← call CErr (Err ctx);
  match err with
  | Some err =>
      r ← finishValidation (sinks e) ValidationOutcomeCanceled "" (Some err);
      mret (Some r)
  | None =>
      result ← invoke (hreg_rule registration) (fun rule w =>
                 call (CEvaluate (hreg_ruleID registration) (newStatement (read_node depth (memory (user w)) root)))
                   (hEvaluate rule ctx root) w);
      if Rejected result then
        r ← finishValidation (sinks e) ValidationOutcomePolicyViolation (hreg_ruleID registration)
              (Some (ViolationPtr (newViolation (hreg_ruleID registration))));
        mret (Some r)
      else mret None
  end.

(** [ValidatePrepared]. *)
Definition hValidatePrepared (e : hEngine) (ctx : Context W) (prepared : option loc) :
    M (World W) (option goerror) :=
  err ← call CErr (Err ctx);
  match err with
  | Some err => finishValidation (sinks e) ValidationOutcomeCanceled "" (Some err)
  | None =>
      match prepared with
      | None => finishValidation (sinks e) ValidationOutcomeInvalidPrepared "" (Some ErrInvalidPrepared)
      | Some _ =>
          sequence ← silently (hStatementSequence round_up depth prepared);
          returned ← range_slice (fun w => memory (user w)) sequence (fun root =>
                       for_range (hengine_rules e) (hevaluateRule e ctx root));
          match returned with
          | Some r => mret r
          | None => finishValidation (sinks e) ValidationOutcomeAllowed "" None
          end
      end
  end.

(** [Validate]. *)
Definition hValidate (e : hEngine) (ctx : Context W) (sql : string) : M (World W) (option goerror) :=
  prepared ← hPrepare e ctx sql;
  let '(prepared, err) := prepared in
  match err with
  | Some err => mret (Some err)
  | None => hValidatePrepared e ctx prepared
  end.
End engine.

Arguments hRule V : clear implicits.
Arguments hregisteredRule V : clear implicits.
Arguments hEngine V : clear implicits.

(** ** Specification *)
Section specification.
Context {V : Type} (round_up : nat -> nat).

(** Application code does to the memory what clients can do. *)
Definition client_code {A} (f : world V -> outcome A * world V) : Prop :=
  forall w o w', f w = (o, w') -> rtc (client_step round_up) (w_client w) (w_client w').

Record client_engine (e : hEngine V) (ctx : Context (world V)) : Prop := {
  ce_context : client_code (Err ctx);
  ce_rules : Forall (fun r => live (hreg_rule r) /\ forall d, hreg_rule r = Some d ->
    forall p, client_code (hEvaluate (dyn_impl d) ctx p)) (hengine_rules e);
  ce_metrics : forall d, hengine_metrics e = Some d -> forall ev, client_code (RecordValidation (dyn_impl d) ev);
  ce_logger : forall d, hengine_logger e = Some d -> forall ev, client_code (LogValidation (dyn_impl d) ev)
}.

(** The rule on one pointer, as a rule of Engine.v that does not look at its statement. *)
Definition at_pointer (p : option loc) (r : hregisteredRule V) : registeredRule (world V) := {|
  reg_ruleID := hreg_ruleID r;
  reg_rule := match hreg_rule r with
    | None => None
    | Some d => Some {| dyn_kind := dyn_kind d; dyn_nil := dyn_nil d;
        dyn_impl := {| ID := hID (dyn_impl d); Evaluate := fun ctx _ => hEvaluate (dyn_impl d) ctx p |} |}
    end
|}.

(** The engine of Engine.v with the same identifiers and sinks. *)
Definition abstract (e : hEngine V) : Engine (world V) := {|
  engine_rules := map (at_pointer None) (hengine_rules e);
  engine_metrics := hengine_metrics e;
  engine_logger := hengine_logger e
|}.
End specification.

(** ** Lemmas: reading a tree *)
Lemma Forall2_map_eq {A B} (f : A -> B) xs ys : Forall2 (fun x y => f x = y) xs ys -> map f xs = ys.
Proof. induction 1; cbn; congruence. Qed.

Lemma read_at depth h :
  (forall p n, ptr_at h p n -> ptr_height n <= depth -> read_node depth h p = n) /\
  (forall hv v, value_at h hv v -> value_height v <= depth -> read_value depth h hv = v).
Proof.
  induction depth as [|depth [IHn IHv]]; split.
  - intros p [n|] Hp Hd; [destruct n; cbn in Hd; lia|]. by inversion Hp.
  - intros hv v Hv Hd. destruct v; cbn in Hd; lia.
  - intros p n [|l node [l' kind fs hfs fields Hl Hfs Hall]] Hd; [done|]. cbn [read_node]. rewrite Hl.
    rewrite (holds_read _ _ _ Hfs). do 2 f_equal. apply Forall2_map_eq.
    assert (forall f, f ∈ fields -> value_height (Field_Value f) <= depth) as Hheight.
    { intros f Hf. pose proof (field_height (MkNode kind fields) f Hf). cbn [ptr_height] in Hd. lia. }
    clear Hd Hfs Hl. induction Hall as [|hf f hfs fields Hf _ IH]; constructor.
    + destruct Hf as [name hv v Hv]. cbn. f_equal. apply IHv; [done|]. apply (Hheight (MkField name v)). left.
    + apply IH. intros f' Hf'. apply Hheight. by right.
  - intros hv v Hv Hd. destruct Hv as [k b i u f s bs bytes p node l hvs list_ Hbs Hp Hl Hall]. cbn [read_value h_kind].
    pose proof (nodeValue_height (MkValue k b i u f s bytes node list_)) as Hnode.
    pose proof (listValue_height (MkValue k b i u f s bytes node list_)) as Hlist. cbn [nodeValue listValue] in *.
    cbn [h_bool h_int h_uint h_float h_string h_bytes h_node h_list].
    rewrite (holds_read _ _ _ Hbs), (holds_read _ _ _ Hl). f_equal.
    + apply IHn; [done|]. destruct node as [n|]; cbn [ptr_height]; [|lia]. specialize (Hnode n eq_refl). lia.
    + assert (forall x, x ∈ list_ -> value_height x <= depth) as Hx by (intros x Hx; specialize (Hlist x Hx); lia).
      apply Forall2_map_eq. clear Hnode Hlist Hl Hd. induction Hall as [|x y xs ys Hxy _ IH]; constructor.
      * apply IHv; [done|]. apply Hx. left.
      * apply IH. intros y' Hy'. apply Hx. by right.
Qed.

(** ** Lemmas: what the code of a validation keeps *)
Section keeps.
Context {U : Type} (I : U -> Prop).

Definition keeps {A} (m : M (World U) A) : Prop := forall w o w', m w = (o, w') -> I (user w) -> I (user w').

Lemma keeps_ret {A} (a : A) : keeps (mret a).
Proof. by intros w o w' [= <- <-]. Qed.

Lemma keeps_bind {A B} (m : M (World U) A) (k : A -> M (World U) B) :
  keeps m -> (forall a, keeps (k a)) -> keeps (m ≫= k).
Proof.
  intros Hm Hk w o w'. unfold mbind, M_bind. destruct (m w) as [[a|v] w1] eqn:Hrun.
  - intros Hk' Hw. eapply Hk; [exact Hk'|]. by eapply Hm.
  - intros [= <- <-] Hw. by eapply Hm.
Qed.

Lemma keeps_call {A} (record : outcome A -> Call) (f : U -> outcome A * U) :
  (forall u o u', f u = (o, u') -> I u -> I u') -> keeps (call record f).
Proof. intros Hf w o w'. rewrite call_run. intros [= <- <-]. cbn. eapply Hf, surjective_pairing. Qed.

Lemma keeps_sink (sink : M (World U) (option goerror)) : keeps sink -> keeps (isolateObservabilityFailure sink).
Proof.
  intros Hs w o w'. unfold isolateObservabilityFailure, recover, mbind, M_bind.
  destruct (sink w) as [[a|v] w1] eqn:Hrun; intros [= <- <-]; by eapply Hs.
Qed.

Lemma keeps_finish (e : Engine U) o id res :
  (forall d, engine_metrics e = Some d -> forall ev u r u', RecordValidation (dyn_impl d) ev u = (r, u') -> I u -> I u') ->
  (forall d, engine_logger e = Some d -> forall ev u r u', LogValidation (dyn_impl d) ev u = (r, u') -> I u -> I u') ->
  keeps (finishValidation e o id res).
Proof.
  intros Hm Hl. unfold finishValidation.
  apply keeps_bind; [|intros _; apply keeps_bind; [|intros _; apply keeps_ret]].
  - destruct (engine_metrics e) as [d|]; [|apply keeps_ret]. apply keeps_sink, keeps_call. by apply Hm.
  - destruct (engine_logger e) as [d|]; [|apply keeps_ret]. apply keeps_sink, keeps_call. by apply Hl.
Qed.

Lemma keeps_for_range {X R} (l : list X) (f : X -> M (World U) (option R)) :
  (forall x, x ∈ l -> keeps (f x)) -> keeps (for_range l f).
Proof.
  induction l as [|x l IH]; intros Hf; cbn [for_range]; [apply keeps_ret|].
  apply keeps_bind; [apply Hf; left|]. intros [v|]; [apply keeps_ret | apply IH; intros y Hy; apply Hf; by right].
Qed.

(** Loops whose bodies agree as long as [I] holds. *)
Lemma for_range_keeps {X R} (l : list X) (f g : X -> M (World U) (option R)) w :
  (forall x w, x ∈ l -> I (user w) -> f x w = g x w) -> (forall x, x ∈ l -> keeps (g x)) -> I (user w) ->
  for_range l f w = for_range l g w.
Proof.
  revert w. induction l as [|x l IH]; intros w Hfg Hg Hw; [done|]. cbn [for_range]. unfold mbind, M_bind.
  rewrite (Hfg x w) by (done || left). destruct (g x w) as [[[v|]|v] w1] eqn:Hrun; [done| |done].
  apply IH; [intros y w' Hy; apply Hfg; by right | intros y Hy; apply Hg; by right |].
  eapply Hg; [left | exact Hrun | done].
Qed.
End keeps.

(** ** Lemmas: evaluations in parts *)
Lemma allowed_or_not v : v = VAllowed \/ v <> VAllowed.
Proof. destruct v; by (left + right). Qed.

Lemma evaluation_app ps t ps' t' v :
  evaluation ps t VAllowed -> evaluation ps' t' v -> evaluation (ps ++ ps') (t ++ t') v.
Proof.
  remember VAllowed as a eqn:Ha. intros H H'. induction H; try done; cbn [app]. constructor; [done|]. by apply IHevaluation.
Qed.

Lemma evaluation_early ps t ps' v : evaluation ps t v -> v <> VAllowed -> evaluation (ps ++ ps') t v.
Proof. intros H Hv. induction H; cbn [app]; try done; constructor; auto. Qed.

(** ** Lemmas: the engine in memory *)
Section engine.
Context {V : Type} (round_up : nat -> nat) (e : hEngine V) (ctx : Context (world V)) (Hclients : client_engine round_up e ctx).

Lemma code_guarded {A} h (f : world V -> outcome A * world V) :
  client_code round_up f -> forall u o u', f u = (o, u') -> guarded h u -> guarded h u'.
Proof. intros Hf u o u' Hrun. eapply guarded_clients, Hf, Hrun. Qed.

Lemma rule_live r : r ∈ hengine_rules e -> live (hreg_rule r).
Proof. intros Hr. by apply (proj1 (Forall_forall _ _) (ce_rules _ _ _ Hclients) r Hr). Qed.

Lemma finish_guarded h o id res : keeps (guarded h) (finishValidation (sinks e) o id res).
Proof.
  apply keeps_finish; intros d Hd ev; apply code_guarded;
    [by apply (ce_metrics _ _ _ Hclients) | by apply (ce_logger _ _ _ Hclients)].
Qed.

Lemma evaluateRule_guarded h p s r :
  r ∈ hengine_rules e -> keeps (guarded h) (evaluateRule (sinks e) ctx s (at_pointer p r)).
Proof.
  intros Hr. destruct (proj1 (Forall_forall _ _) (ce_rules _ _ _ Hclients) r Hr) as [_ Hcode].
  unfold evaluateRule. apply keeps_bind; [apply keeps_call, code_guarded, (ce_context _ _ _ Hclients)|]. intros [err|].
  - apply keeps_bind; [apply finish_guarded | intros; apply keeps_ret].
  - apply keeps_bind.
    + cbn [at_pointer reg_rule]. destruct (hreg_rule r) as [d|] eqn:Hd; [|by intros w o w' [= <- <-]].
      apply keeps_call, code_guarded. cbn. by apply Hcode.
    + intros result. destruct (Rejected result); [|apply keeps_ret].
      apply keeps_bind; [apply finish_guarded | intros; apply keeps_ret].
Qed.

(** While the tree is in place a rule of the engine in memory is a rule of Engine.v. *)
Lemma hevaluateRule_eq depth h p n r w :
  ptr_at h p n -> ptr_height n <= depth -> guarded h (user w) ->
  hevaluateRule depth e ctx p r w = evaluateRule (sinks e) ctx (newStatement n) (at_pointer p r) w.
Proof.
  intros Hp Hn Hw. unfold hevaluateRule, evaluateRule. rewrite !bind_call.
  destruct (Err ctx (user w)) as [[[err|]|v] u1] eqn:Herr; [done| |done].
  assert (guarded h u1) as [[Hsub _] _] by (eapply code_guarded; [apply (ce_context _ _ _ Hclients) | exact Herr | done]).
  cbn [at_pointer reg_rule reg_ruleID]. destruct (hreg_rule r) as [d|]; cbn [invoke dyn_impl]; [|done].
  unfold mbind, M_bind. cbn [user]. unfold memory.
  by rewrite (proj1 (read_at depth (c_store (w_client u1))) p n) by (done || by eapply ptr_at_mono).
Qed.

(** The rules on one statement. *)
Lemma rules_run depth h p n w :
  ptr_at h p n -> ptr_height n <= depth -> guarded h (user w) ->
  exists t v w', evaluation (map (fun r => (newStatement n, hreg_ruleID r)) (hengine_rules e)) t v /\
    for_range (hengine_rules e) (hevaluateRule depth e ctx p) w = (loop_result v, w') /\ guarded h (user w') /\
    trace w' = trace w ++ t ++ match v with VAllowed => [] | _ => verdict_emits (sinks e) v end.
Proof.
  intros Hp Hn Hw.
  rewrite (for_range_keeps (guarded h) _ _ (fun r => evaluateRule (sinks e) ctx (newStatement n) (at_pointer p r)));
    [|intros; by eapply hevaluateRule_eq | intros; by apply evaluateRule_guarded | done].
  destruct (evaluate_pairs_run (sinks e) ctx (map (fun r => (newStatement n, at_pointer p r)) (hengine_rules e)) w)
    as (t & v & u & Ht & Hrun).
  { apply Forall_fmap, Forall_forall. intros r Hr. destruct (rule_live r Hr) as (d & Hd & Hl). cbn. rewrite Hd. by eexists. }
  assert (for_range (hengine_rules e) (fun r => evaluateRule (sinks e) ctx (newStatement n) (at_pointer p r)) w =
    (loop_result v, {| user := u; trace := trace w ++ t ++ match v with VAllowed => [] | _ => verdict_emits (sinks e) v end |})) as Hr
    by (rewrite <- Hrun; symmetry; exact (for_range_map (hengine_rules e) (fun r => (newStatement n, at_pointer p r)) _ w)).
  exists t, v, {| user := u; trace := trace w ++ t ++ match v with VAllowed => [] | _ => verdict_emits (sinks e) v end |}.
  split_and!; [by rewrite map_map in Ht | done | | done].
  eapply (keeps_for_range (guarded h)); [|exact Hr | done]. intros r Hin. by apply evaluateRule_guarded.
Qed.

(** The pairs of statements and rules, in evaluation order. *)
Definition hpairs (ns : list (ptr Node)) : list (Statement * string) :=
  flat_map (fun n => map (fun r => (newStatement n, hreg_ruleID r)) (hengine_rules e)) ns.

Lemma hpairs_abstract r : map named (pairs (abstract e) r) = hpairs (StatementSequence (Some r)).
Proof.
  unfold pairs, hpairs, abstract. cbn [engine_rules]. induction (StatementSequence (Some r)) as [|n ns IH]; [done|].
  cbn [flat_map]. rewrite map_app, IH. f_equal. by rewrite !map_map.
Qed.

(** The loop over the slice of the sequence. *)
Lemma sequence_run depth ht hb h s ps ns w :
  holds hb s ps -> hb ⊆ h -> ht ⊆ h -> Forall2 (ptr_at ht) ps ns -> Forall (fun n => ptr_height n <= depth) ns ->
  guarded h (user w) ->
  exists t v w', evaluation (hpairs ns) t v /\
    range_slice (fun w => memory (user w)) s (fun root => for_range (hengine_rules e) (hevaluateRule depth e ctx root)) w =
      (loop_result v, w') /\ guarded h (user w') /\
    trace w' = trace w ++ t ++ match v with VAllowed => [] | _ => verdict_emits (sinks e) v end.
Proof.
  intros Hs Hb Ht HR Hdepth Hw. unfold range_slice. rewrite (slice_len_holds hb s ps Hs).
  enough (forall rest i ns w, drop i ps = rest -> Forall2 (ptr_at ht) rest ns -> Forall (fun n => ptr_height n <= depth) ns ->
    guarded h (user w) -> exists t v w', evaluation (hpairs ns) t v /\
    range_from (fun w => memory (user w)) s i (length rest)
      (fun root => for_range (hengine_rules e) (hevaluateRule depth e ctx root)) w = (loop_result v, w') /\
    guarded h (user w') /\ trace w' = trace w ++ t ++ match v with VAllowed => [] | _ => verdict_emits (sinks e) v end)
    as Hfrom by (by apply (Hfrom ps 0)).
  clear HR Hdepth Hw w ns. induction rest as [|p rest IH]; intros i ns w Hd HR Hdepth Hw; cbn [length range_from].
  - apply Forall2_nil_inv_l in HR as ->. exists [], VAllowed, w. split_and!; [constructor | done | done | by rewrite !app_nil_r].
  - apply Forall2_cons_inv_l in HR as (n & ns1 & Hp & HR & ->). apply Forall_cons in Hdepth as [Hn Hdepth].
    assert (hb ⊆ memory (user w)) as Hbw by (etrans; [exact Hb | apply Hw]).
    destruct (element_next hb (memory (user w)) s ps i p rest Hs Hbw Hd) as [-> Hd'].
    destruct (rules_run depth h p n w) as (t & v & w1 & Ht1 & Hrun & Hw1 & Htr); [by eapply ptr_at_mono | done..|].
    unfold mbind, M_bind. rewrite Hrun. unfold hpairs in *. cbn [flat_map]. destruct (allowed_or_not v) as [->|Hv].
    + destruct (IH (S i) ns1 w1) as (t2 & v2 & w2 & Ht2 & Hrun2 & Hw2 & Htr2); [done..|].
      exists (t ++ t2), v2, w2. split_and!; [by eapply evaluation_app | done | done |].
      rewrite Htr2, Htr, app_nil_r. by rewrite <- !app_assoc.
    + exists t, v, w1. split_and!; [by apply evaluation_early | by destruct v | done | done].
Qed.

(** Finishing with a verdict, the memory still guarded. *)
Lemma finish_run h v o id res w :
  verdict_result v = Ret res -> verdict_event v = Some (newValidationEvent ValidationModeEnforce o id) -> guarded h (user w) ->
  exists w', finishValidation (sinks e) o id res w = (Ret res, w') /\ guarded h (user w') /\
    trace w' = trace w ++ verdict_emits (sinks e) v.
Proof.
  intros Hr Hv Hw. destruct (finish_verdict (sinks e) v o id res w Hr Hv) as (u & Hrun). rewrite Hr in Hrun.
  eexists. split; [exact Hrun|]. split; [|done]. by eapply finish_guarded.
Qed.

(** A call of the context. *)
Lemma context_run h w :
  guarded h (user w) ->
  exists o w1, call CErr (Err ctx) w = (o, w1) /\ guarded h (user w1) /\ trace w1 = trace w ++ [CErr o].
Proof.
  intros Hw. rewrite call_run. eexists _, _. split; [done|]. split; [|done]. cbn [user].
  eapply code_guarded; [apply (ce_context _ _ _ Hclients) | apply surjective_pairing | done].
Qed.

Lemma hValidatePrepared_run depth ht h l r w :
  result_at ht l r -> ht ⊆ h -> Forall (fun n => ptr_height n < depth) (result_statements r) -> guarded h (user w) ->
  exists t v w', prepared_protocol (Some (hpairs (StatementSequence (Some r)))) t v /\
    hValidatePrepared round_up depth e ctx (Some l) w = (verdict_result v, w') /\ guarded h (user w') /\
    trace w' = trace w ++ t ++ verdict_emits (sinks e) v.
Proof.
  intros Hr Ht Hdepth Hw. unfold hValidatePrepared.
  destruct (context_run h w Hw) as ([[err|]|v] & w1 & Hcall & Hw1 & Htr1);
    [rewrite (bind_Ret _ _ _ _ _ Hcall) | rewrite (bind_Ret _ _ _ _ _ Hcall) | rewrite (bind_Panic _ _ _ _ _ Hcall)].
  - destruct (finish_run h (VCanceled err) ValidationOutcomeCanceled "" (Some err) w1) as (w2 & -> & Hw2 & Htr2); [done..|].
    exists [CErr (Ret (Some err))], (VCanceled err), w2. split_and!; [constructor | done | done |].
    by rewrite Htr2, Htr1, <- app_assoc.
  - assert (ht ⊆ memory (user w1)) as Htw by (etrans; [exact Ht | apply Hw1]).
    destruct (hStatementSequence_run round_up depth ht (memory (user w1)) l r Hr Htw Hdepth) as (s & h1 & ps & Hrun & Hsub & Hs & Hall).
    destruct (guarded_snapshot h (user w1) h1 Hw1 Hsub) as (h' & Hh & Hnew & Hw2 & _).
    rewrite (bind_Ret _ _ w1 s {| user := with_memory (user w1) h1; trace := trace w1 |})
      by (unfold silently, engine_memory; by rewrite Hrun).
    apply StatementSequence_heights in Hdepth.
    destruct (sequence_run depth ht (h1 ∖ memory (user w1)) h' s ps (StatementSequence (Some r))
      {| user := with_memory (user w1) h1; trace := trace w1 |}) as (t & v & w3 & Hev & Hloop & Hw3 & Htr3);
      [done | done | by transitivity h | done | | done |].
    { eapply Forall_impl; [exact Hdepth|]. cbn. lia. }
    cbn [trace] in Htr3. destruct (allowed_or_not v) as [->|Hv].
    + rewrite (bind_Ret _ _ _ _ _ Hloop).
      destruct (finish_run h' VAllowed ValidationOutcomeAllowed "" None w3) as (w4 & -> & Hw4 & Htr4); [done..|].
      exists (CErr (Ret None) :: t), VAllowed, w4. split_and!; [by eapply pp_evaluation | done | by eapply guarded_weaken |].
      rewrite Htr4, Htr3, Htr1, app_nil_r. by rewrite <- !app_assoc.
    + exists (CErr (Ret None) :: t), v, w3. split_and!; [by eapply pp_evaluation | | by eapply guarded_weaken |].
      * unfold mbind, M_bind. rewrite Hloop. by destruct v.
      * rewrite Htr3, Htr1, <- app_assoc. by destruct v.
  - exists [CErr (Panic v)], (VPanicked v), w1. split_and!; [constructor | done | done |].
    by rewrite Htr1, app_nil_r.
Qed.
End engine.

(** ** Lemmas: the whole validation *)
Section validation.
Context `{PRL : ProtoReflectLaws} `{PQ : !PgQuery (PR:=PR)} `{PM : !ProtoMemory}.
Context {V : Type} (round_up : nat -> nat) (depth : nat) (build_ : Build).
Context (e : hEngine V) (ctx : Context (world V)) (Hclients : client_engine round_up e ctx).

Lemma tree_backed_mono h h' sql : h ⊆ h' -> tree_backed build_ h sql -> tree_backed build_ h' sql.
Proof. intros Hsub Hb tree raw source Ht Hr Hs. eapply backed_mono; [exact Hsub | by eapply Hb]. Qed.

(** The parse: the trees that it makes are out of the visitors' reach. *)
Lemma parse_run h sql (w : World (world V)) :
  tree_backed build_ h sql -> guarded h (user w) ->
  exists p h' w', call (fun _ => CParse sql) (engine_memory (hParse round_up build_ sql)) w =
      (Ret (p, (Parse build_ sql).2), w') /\
    h ⊆ h' /\ result_ptr_at h' p (Parse build_ sql).1 /\ guarded h' (user w') /\ trace w' = trace w ++ [CParse sql].
Proof.
  intros Hb Hw. assert (h ⊆ memory (user w)) as Hsub by apply Hw.
  destruct (adds_Parse round_up build_ sql (memory (user w))) as ([p err] & h1 & Hrun & Hsub1 & Hp & Herr);
    [by eapply tree_backed_mono|]. cbn [fst snd] in *.
  destruct (guarded_snapshot h (user w) h1 Hw Hsub1) as (h' & Hh & Hnew & Hw1 & _).
  exists p, h'. rewrite call_run. unfold engine_memory. rewrite Hrun, <- Herr. cbn [fst snd].
  eexists. split_and!; [done | done | | done | done].
  destruct p as [l|], (Parse build_ sql).1 as [r|]; cbn in Hp |- *; try done. by eapply result_at_mono.
Qed.

Lemma hPrepare_run h sql w :
  tree_backed build_ h sql -> guarded h (user w) ->
  (exists l r h' w', Parse build_ sql = (Some r, None) /\ h ⊆ h' /\ result_at h' l r /\
     hPrepare round_up build_ e ctx sql w = (Ret (Some l, None), w') /\ guarded h' (user w') /\
     trace w' = trace w ++ prepare_success sql) \/
  (exists t v w', prepare_failure sql (parses build_ sql) t v /\
     hPrepare round_up build_ e ctx sql w =
       (match verdict_result v with Ret err => Ret (None, err) | Panic v => Panic v end, w') /\
     guarded h (user w') /\ trace w' = trace w ++ t ++ verdict_emits (sinks e) v).
Proof.
  intros Hb Hw. unfold hPrepare.
  destruct (context_run round_up e ctx Hclients h w Hw) as ([[err|]|v] & w1 & Hcall & Hw1 & Htr1);
    [rewrite (bind_Ret _ _ _ _ _ Hcall) | rewrite (bind_Ret _ _ _ _ _ Hcall) | rewrite (bind_Panic _ _ _ _ _ Hcall)].
  - right. destruct (finish_run round_up e ctx Hclients h (VCanceled err) ValidationOutcomeCanceled "" (Some err) w1)
      as (w2 & Hf & Hw2 & Htr2); [done..|]. rewrite (bind_Ret _ _ _ _ _ Hf).
    exists [CErr (Ret (Some err))], (VCanceled err), w2. split_and!; [constructor | done | done |].
    by rewrite Htr2, Htr1, <- app_assoc.
  - destruct (parse_run h sql w1 Hb Hw1) as (p & h' & w2 & Hparse & Hh & Hp & Hw2 & Htr2).
    rewrite (bind_Ret _ _ _ _ _ Hparse). unfold parses.
    destruct (context_run round_up e ctx Hclients h' w2 Hw2) as ([[err|]|v] & w3 & Hcall3 & Hw3 & Htr3);
      [rewrite (bind_Ret _ _ _ _ _ Hcall3) | rewrite (bind_Ret _ _ _ _ _ Hcall3) | rewrite (bind_Panic _ _ _ _ _ Hcall3)].
    + right. destruct (finish_run round_up e ctx Hclients h' (VCanceled err) ValidationOutcomeCanceled "" (Some err) w3)
        as (w4 & Hf & Hw4 & Htr4); [done..|]. rewrite (bind_Ret _ _ _ _ _ Hf).
      eexists _, (VCanceled err), w4. split_and!; [apply pf_canceled_after | done | by eapply guarded_weaken |].
      rewrite Htr4, Htr3, Htr2, Htr1. by rewrite <- !app_assoc.
    + destruct (Parse_shape build_ sql) as [(r & HP)|HP]; rewrite HP in *; cbn [fst snd] in *.
      * left. destruct p as [l|]; [|done]. exists l, r, h', w3. split_and!; [done | done | done | done | done |].
        rewrite Htr3, Htr2, Htr1. unfold prepare_success. by rewrite <- !app_assoc.
      * right. destruct (finish_run round_up e ctx Hclients h' VParserFailure ValidationOutcomeParserFailure ""
          (translateParserError (Some (ParserErrorPtr (Some {| pe_category := FailureSyntax |})))) w3)
          as (w4 & Hf & Hw4 & Htr4); [done..|]. rewrite (bind_Ret _ _ _ _ _ Hf).
        eexists _, VParserFailure, w4. split_and!; [by apply pf_parser_failure | done | by eapply guarded_weaken |].
        rewrite Htr4, Htr3, Htr2, Htr1. by rewrite <- !app_assoc.
    + right. eexists _, (VPanicked v), w3. split_and!; [apply pf_context_panic_after | done | by eapply guarded_weaken |].
      rewrite Htr3, Htr2, Htr1, app_nil_r. by rewrite <- !app_assoc.
  - right. exists [CErr (Panic v)], (VPanicked v), w1. split_and!; [constructor | done | done |].
    by rewrite Htr1, app_nil_r.
Qed.
End validation.

(** ** Properties *)

(** C13: Validation in memory follows the protocol whatever the application's code writes: when
    the context, the rules and the sinks call the accessors, write to every array they were
    ever given and allocate, [Validate] on the store returns the verdict of the protocol of
    Engine.v, every rule is called on the trees that were parsed, in order, and nothing of
    the memory that was out of their reach has changed. *)
Theorem Validate_memory_refines `{PRL : ProtoReflectLaws} `{PQ : !PgQuery (PR:=PR)} `{PM : !ProtoMemory}
    {V} round_up depth build_ (e : hEngine V) ctx sql h w :
  client_engine round_up e ctx -> tree_backed build_ h sql ->
  (forall r, Parse build_ sql = (Some r, None) -> Forall (fun n => ptr_height n < depth) (result_statements r)) ->
  protected h (w_client (user w)) -> owned (user w) ⊆ dom (memory (user w)) ->
  exists t v w', validate_protocol build_ (abstract e) sql t v /\
    hValidate round_up depth build_ e ctx sql w = (verdict_result v, w') /\
    trace w' = trace w ++ t ++ verdict_emits (abstract e) v /\ h ⊆ memory (user w').
Proof.
  intros Hclients Hb Hdepth Hprot Hown. unfold hValidate.
  destruct (hPrepare_run round_up build_ e ctx Hclients h sql w) as
    [(l & r & h' & w1 & HP & Hh & Hr & Hrun & Hw1 & Htr1)|(t & v & w1 & Ht & Hrun & Hw1 & Htr1)]; [done | done | |].
  - rewrite (bind_Ret _ _ _ _ _ Hrun).
    destruct (hValidatePrepared_run round_up e ctx Hclients depth h' h' l r w1) as (t & v & w2 & Ht & Hrun2 & Hw2 & Htr2);
      [done | done | by apply Hdepth | done |].
    exists (prepare_success sql ++ t), v, w2. split_and!; [| exact Hrun2 | | etrans; [exact Hh | apply Hw2]].
    + eapply vp_prepared; [exact HP|]. by rewrite <- hpairs_abstract in Ht.
    + rewrite Htr2, Htr1, <- !app_assoc. done.
  - exists t, v, w1. split_and!; [by apply vp_not_prepared | | done | apply Hw1].
    pose proof (prepare_failure_verdict _ _ _ _ Ht) as Hv. unfold mbind, M_bind. rewrite Hrun.
    by destruct (verdict_result v) as [[err|]|pv].
Qed.

(** C16: A prepared value can be validated again and again: on a held result
    [ValidatePrepared] follows its protocol, and whatever the application's code wrote
    meanwhile, the result is held afterwards as before, out of the reach of that code. *)
Theorem prepared_reusable {V} round_up depth (e : hEngine V) ctx h l r w :
  client_engine round_up e ctx -> result_at h l r ->
  Forall (fun n => ptr_height n < depth) (result_statements r) ->
  protected h (w_client (user w)) -> owned (user w) ⊆ dom (memory (user w)) ->
  exists t v w',
    prepared_protocol (Some (map named (pairs (abstract e) r))) t v /\
    hValidatePrepared round_up depth e ctx (Some l) w = (verdict_result v, w') /\
    trace w' = trace w ++ t ++ verdict_emits (abstract e) v /\
    result_at (memory (user w')) l r /\ protected h (w_client (user w')) /\ owned (user w') ⊆ dom (memory (user w')).
Proof.
  intros Hclients Hr Hdepth Hprot Hown.
  destruct (hValidatePrepared_run round_up e ctx Hclients depth h h l r w) as (t & v & w' & Ht & Hrun & [Hp Ho] & Htr);
    [done | done | done | done |].
  exists t, v, w'. rewrite hpairs_abstract. split_and!; [done..| | done | done].
  eapply result_at_mono; [apply Hp | done].
Qed.
