(* ===== verification/EngineState.v ===== *)
(** * The application's state after a validation

    The context and the rules of an application may change its state, and the
    sinks do.  Whatever reflexive and transitive relation the calls of the context
    and of the rules respect also holds between the start of a validation and the
    one moment at which the sinks run; after that nothing else runs. *)
From stdpp Require Import base strings list.
From S2P Require Import Prelude.
From S2P Require Import GoRuntime.
From S2P Require Import Nodes.
From S2P Require Import Traversal.
From S2P Require Import PgQuery.
From S2P Require Import Statements.
From S2P Require Import Errors.
From S2P Require Import RuleContract.
From S2P Require Import Observability.
From S2P Require Import Engine.

(** What the enabled sinks make of the application's state: metrics, then
    logger. *)
Definition sinks_final {U} (e : Engine U) (ev : ValidationEvent) (u : U) : U :=
  let u := match engine_metrics e with None => u | Some m => (RecordValidation (dyn_impl m) ev u).2 end in
  match engine_logger e with None => u | Some l => (LogValidation (dyn_impl l) ev u).2 end.

Lemma isolate_user {U} (ev : Call) (f : U -> outcome (option goerror) * U) w :
  user (isolateObservabilityFailure (call (fun _ => ev) f) w).2 = (f (user w)).2.
Proof.
  unfold isolateObservabilityFailure, recover, mbind, M_bind. rewrite call_run.
  by destruct (f (user w)) as [[r|v] u].
Qed.

Lemma finishValidation_user {U} (e : Engine U) o id res w :
  user (finishValidation e o id res w).2 = sinks_final e (newValidationEvent ValidationModeEnforce o id) (user w).
Proof.
  unfold finishValidation, sinks_final, mbind, M_bind, mret, M_ret.
  set (ev := newValidationEvent ValidationModeEnforce o id).
  assert (forall c (f : U -> outcome (option goerror) * U) w', exists w1,
    isolateObservabilityFailure (call (fun _ => c) f) w' = (Ret tt, w1) /\ user w1 = (f (user w')).2) as Hiso.
  { intros c f w'. pose proof (isolate_user c f w') as Hu.
    destruct (isolate_run c f w') as (u & Hrun). rewrite Hrun in *. eauto. }
  destruct (engine_metrics e) as [m|], (engine_logger e) as [l|]; cbn.
  - destruct (Hiso (CRecord ev) (RecordValidation (dyn_impl m) ev) w) as (w1 & -> & <-).
    by destruct (Hiso (CLog ev) (LogValidation (dyn_impl l) ev) w1) as (w2 & -> & <-).
  - by destruct (Hiso (CRecord ev) (RecordValidation (dyn_impl m) ev) w) as (w1 & -> & <-).
  - by destruct (Hiso (CLog ev) (LogValidation (dyn_impl l) ev) w) as (w1 & -> & <-).
  - done.
Qed.

Section FinalState.
Context {U : Type} `{PQ : PgQuery} (build : Build) (e : Engine U) (ctx : Context U).
Context (R : U -> U -> Prop) `{!PreOrder R}.
Context (ctx_respects : forall u, R u (Err ctx u).2).
Context (rules_respect : Forall (fun r => forall d, reg_rule r = Some d ->
  forall s u, R u (Evaluate (dyn_impl d) ctx s u).2) (engine_rules e)).

(** A part of a validation: when it goes on, the state is related to the start;
    when it ends the validation, the sinks ran once, last. *)
Definition part {A} (goes_on : A -> bool) (m : M (World U) A) : Prop :=
  forall w a w', m w = (Ret a, w') ->
  if goes_on a then R (user w) (user w')
  else exists u ev t, R (user w) u /\ user w' = sinks_final e ev u /\ trace w' = t ++ emits e ev.

Lemma part_ret {A} (goes_on : A -> bool) a : goes_on a = true -> part goes_on (mret a).
Proof. intros Ha w b w' [= <- <-]. by rewrite Ha. Qed.

Lemma part_call {A} (record : outcome A -> Call) (f : U -> outcome A * U) :
  (forall u, R u (f u).2) -> part (fun _ => true) (call record f).
Proof.
  intros Hf w a w'. rewrite call_run. intros [= _ <-]. cbn. apply Hf.
Qed.

Lemma part_bind {A B} (goes_on : A -> bool) (goes_on' : B -> bool) (m : M (World U) A) (k : A -> M (World U) B) :
  part goes_on m ->
  (forall a, goes_on a = true -> part goes_on' (k a)) ->
  (forall a, goes_on a = false -> forall w, exists b, k a w = (Ret b, w) /\ goes_on' b = false) ->
  part goes_on' (m ≫= k).
Proof.
  intros Hm Hgo Hend w b w' (a & w1 & H1 & H2)%M_bind_Ret.
  specialize (Hm _ _ _ H1). destruct (goes_on a) eqn:Ha.
  - specialize (Hgo a Ha _ _ _ H2). destruct (goes_on' b); [by etrans|].
    destruct Hgo as (u & ev & t & HR & Hu). exists u, ev, t. split; [by etrans|done].
  - destruct (Hend a Ha w1) as (b' & Hk & Hb). rewrite Hk in H2. injection H2 as -> ->. by rewrite Hb.
Qed.

(** After a call that goes on. *)
Lemma part_call_bind {A B} (record : outcome A -> Call) (f : U -> outcome A * U) (goes_on : B -> bool)
    (k : A -> M (World U) B) :
  (forall u, R u (f u).2) -> (forall a, part goes_on (k a)) -> part goes_on (call record f ≫= k).
Proof. intros Hf Hk. apply (part_bind (fun _ => true)); [by apply part_call | auto | done]. Qed.

Lemma part_finish o id res : part (fun _ => false) (finishValidation e o id res).
Proof.
  intros w a w' Hw. pose proof (finishValidation_user e o id res w) as Hu. rewrite Hw in Hu. cbn in Hu.
  destruct (finishValidation_run e o id res w) as (u & Hrun). rewrite Hrun in Hw. injection Hw as _ <-.
  by exists (user w), (newValidationEvent ValidationModeEnforce o id), (trace w).
Qed.

Lemma part_finish_bind {B} o id res (goes_on : B -> bool) (k : option goerror -> B) :
  (forall r, goes_on (k r) = false) -> part goes_on (r ← finishValidation e o id res; mret (k r)).
Proof.
  intros Hk. apply (part_bind (fun _ => false)); [apply part_finish | done |]. intros r _ w. by exists (k r).
Qed.

Definition loop_goes_on (r : option (option goerror)) : bool := match r with None => true | Some _ => false end.

Lemma part_evaluateRule s r :
  r ∈ engine_rules e -> part loop_goes_on (evaluateRule e ctx s r).
Proof.
  intros Hr. unfold evaluateRule. apply part_call_bind; [done|]. intros [err|]; [by apply part_finish_bind|].
  destruct (reg_rule r) as [d|] eqn:Hd; [|by intros w a w' [=]]. cbn [invoke].
  apply part_call_bind; [by apply (proj1 (Forall_forall _ _) rules_respect r)|].
  intros res. destruct (Rejected res); [by apply part_finish_bind | by apply part_ret].
Qed.

Lemma part_for_range {X} (body : X -> M (World U) (option (option goerror))) l :
  (forall x, x ∈ l -> part loop_goes_on (body x)) -> part loop_goes_on (for_range l body).
Proof.
  induction l as [|x l IH]; intros Hb; [by apply part_ret|]. cbn.
  apply (part_bind loop_goes_on); [apply Hb; by left| |].
  - intros [?|] ?; [done|]. apply IH. intros y Hy. apply Hb. by right.
  - intros [r|] ? w; [by exists (Some r) | done].
Qed.

Lemma part_ValidatePrepared p : part (fun _ => false) (ValidatePrepared e ctx p).
Proof.
  unfold ValidatePrepared. apply part_call_bind; [done|]. intros [err|]; [apply part_finish|].
  destruct (prepared_result p) as [r|]; [|apply part_finish].
  apply (part_bind loop_goes_on).
  - apply part_for_range. intros root _. apply part_for_range. intros reg. apply part_evaluateRule.
  - intros [?|] ?; [done | apply part_finish].
  - intros [r'|] ? w; [by exists r' | done].
Qed.

Lemma part_Prepare sql :
  part (fun p => match p.2 with None => true | Some _ => false end) (Prepare build e ctx sql).
Proof.
  unfold Prepare. apply part_call_bind; [done|].
  assert (forall o id err, part (fun p => match p.2 with None => true | Some _ => false end)
    (r ← finishValidation e o id (Some err); mret ({| prepared_result := None |}, r))) as Hfin.
  { intros o id err w a w' (r & w1 & H1 & H2)%M_bind_Ret. pose proof (part_finish _ _ _ _ _ _ H1) as Hu.
    destruct (finishValidation_run e o id (Some err) w) as (u & Hrun). rewrite Hrun in H1. simplify_eq.
    unfold mret, M_ret in H2. by simplify_eq. }
  intros [err|]; [apply Hfin|].
  apply part_call_bind; [done|]. intros [res perr]. apply part_call_bind; [done|].
  intros [err|]; [apply Hfin|]. destruct perr as [perr|]; [|by apply part_ret].
  cbn [translateParserError]. apply Hfin.
Qed.

Lemma part_Validate sql : part (fun _ => false) (Validate build e ctx sql).
Proof.
  unfold Validate. eapply part_bind; [apply part_Prepare| |].
  - intros [p [err|]] ?; [done|]. apply part_ValidatePrepared.
  - intros [p [err|]] ? w; [by exists (Some err) | done].
Qed.

(** The state a validation ends in, with the event that its result reports. *)
Lemma Validate_final sql w err w' :
  Forall (fun r => live (reg_rule r)) (engine_rules e) ->
  (engine_metrics e <> None \/ engine_logger e <> None) ->
  Validate build e ctx sql w = (Ret err, w') ->
  exists u ev v, R (user w) u /\ user w' = sinks_final e ev u /\ verdict_result v = Ret err /\ verdict_event v = Some ev.
Proof.
  intros Hlive Hsink Hrun. pose proof (part_Validate sql _ _ _ Hrun) as (u & ev & t & HR & Hu & Ht).
  destruct (Validate_run build e ctx sql w Hlive) as (t' & v & u' & _ & Hrun'). rewrite Hrun in Hrun'.
  injection Hrun' as Hv Hw. exists u, ev, v. split; [done|]. split; [done|]. split; [done|].
  assert (exists ev', verdict_event v = Some ev') as (ev' & Hev') by (destruct v; [eauto..|done]).
  rewrite Hev'. f_equal. rewrite Hw in Ht. cbn [trace] in Ht. unfold verdict_emits in Ht. rewrite Hev' in Ht.
  rewrite app_assoc in Ht. apply app_inj_2 in Ht as [_ He].
  - unfold emits in He. destruct (engine_metrics e), (engine_logger e); simplify_eq/=; [done..|naive_solver].
  - unfold emits. by destruct (engine_metrics e), (engine_logger e).
Qed.
End FinalState.

(** ** What a nil verdict says, whatever the context and the rules do *)
Section Accepted.
Context {U : Type} `{PQ : PgQuery} (build : Build) (e : Engine U) (ctx : Context U).

Lemma finishValidation_result o id res w r w' :
  finishValidation e o id res w = (Ret r, w') -> r = res.
Proof. destruct (finishValidation_run e o id res w) as (u & ->). by intros [= <- _]. Qed.

Lemma evaluateRule_None s reg w w' :
  evaluateRule e ctx s reg w = (Ret None, w') ->
  exists d u1 u2, reg_rule reg = Some d /\ Evaluate (dyn_impl d) ctx s u1 = (Ret {| allowed := true |}, u2).
Proof.
  unfold evaluateRule. rewrite bind_call.
  destruct (Err ctx (user w)) as [[[err|]|v] u]; cbv beta iota; [|..|done].
  - by intros (r & w1 & _ & [=])%M_bind_Ret.
  - destruct (reg_rule reg) as [d|]; [|done]. cbn [invoke]. rewrite bind_call. cbn [user trace].
    destruct (Evaluate (dyn_impl d) ctx s u) as [[[[]]|v] u2] eqn:Hev; cbv beta iota; cbn [Rejected allowed negb]; [|..|done].
    + eauto 10.
    + by intros (r & w1 & _ & [=])%M_bind_Ret.
Qed.

(** [ValidatePrepared] returns nil only for a usable value all of whose
    statement-rule pairs were allowed by a call of the rule. *)
Lemma ValidatePrepared_None p w w' :
  ValidatePrepared e ctx p w = (Ret None, w') ->
  exists r, prepared_result p = Some r /\
    forall root reg, root ∈ StatementSequence (Some r) -> reg ∈ engine_rules e ->
    exists d u1 u2, reg_rule reg = Some d /\
      Evaluate (dyn_impl d) ctx (newStatement root) u1 = (Ret {| allowed := true |}, u2).
Proof.
  unfold ValidatePrepared. rewrite bind_call.
  destruct (Err ctx (user w)) as [[[err|]|v] u]; cbv beta iota; [by intros ?%finishValidation_result| |done].
  destruct (prepared_result p) as [r|]; [|by intros ?%finishValidation_result].
  intros ([res|] & w1 & Hloop & Hret)%M_bind_Ret.
  - exfalso. injection Hret as -> ->. revert Hloop. generalize (StatementSequence (Some r)). intros l.
    match goal with |- for_range l ?f ?w0 = _ -> _ => generalize w0 end.
    assert (forall s regs w w', for_range regs (evaluateRule e ctx s) w = (Ret (Some None), w') -> False) as Hin.
    { intros s regs. induction regs as [|reg regs IH]; [done|]. cbn. intros w2 w3 (o & w4 & H1 & H2)%M_bind_Ret.
      destruct o as [o|]; [|by eapply IH]. injection H2 as -> ->. revert H1. unfold evaluateRule.
      rewrite bind_call. destruct (Err ctx (user w2)) as [[[err|]|v] u2]; cbv beta iota; [| |done].
      - intros (r' & w5 & ->%finishValidation_result & [=])%M_bind_Ret.
      - intros (res & w5 & _ & H)%M_bind_Ret. destruct (Rejected res); [|done].
        apply M_bind_Ret in H as (r' & w6 & ->%finishValidation_result & [=]). }
    induction l as [|root l IH]; [done|]. cbn. intros w0 (o & w2 & H1 & H2)%M_bind_Ret.
    destruct o as [o|]; [|by eapply IH]. injection H2 as -> ->. by eapply Hin.
  - exists r. split; [done|]. intros root reg Hroot Hreg. apply for_range_None in Hloop.
    apply (proj1 (Forall_forall _ _)) with (x := root) in Hloop as (w2 & w3 & Hrules); [|done].
    apply for_range_None in Hrules.
    apply (proj1 (Forall_forall _ _)) with (x := reg) in Hrules as (w4 & w5 & Hev); [|done].
    by eapply evaluateRule_None.
Qed.

Lemma Prepare_None sql p w w' :
  Prepare build e ctx sql w = (Ret (p, None), w') -> Parse build sql = (prepared_result p, None) /\ prepared_result p <> None.
Proof.
  destruct (Prepare_run build e ctx sql w) as [(r & u & HP & ->)|(t & v & u & Ht & ->)].
  - by intros [= <- <-].
  - intros [= Hv _]. pose proof (prepare_failure_verdict _ _ _ _ Ht) as Hne. unfold prepare_result in Hv.
    destruct (verdict_result v) as [[err|]|pv]; [done|done|done].
Qed.
End Accepted.
