(* ===== verification/EngineProps.v ===== *)
(** * Theorems on the engine

    The refinement of the protocol of Engine.v by the code, and what follows
    from it: completeness of the evaluation, exactly-once emission, isolation of
    the sinks, first-rejection semantics, precedence of cancellation, and the
    invariant and acceptance condition of [NewEngine]. *)
From stdpp Require Import base strings list gmap.
From S2P Require Import Prelude.
From S2P Require Import GoRuntime.
From S2P Require Import Nodes.
From S2P Require Import Traversal.
From S2P Require Import PgQuery.
From S2P Require Import Statements.
From S2P Require Import Errors.
From S2P Require Import RuleContract.
From S2P Require Import Observability.
From S2P Require Import Engine.

(** ** Views of a trace *)

(** The rule evaluations of a trace, with their results. *)
Definition evaluation_of (c : Call) : option (Statement * string * outcome RuleResult) :=
  match c with CEvaluate id s r => Some (s, id, r) | _ => None end.
Definition evaluations (t : list Call) := omap evaluation_of t.

(** The calls of the sinks. *)
Definition is_sink (c : Call) : bool :=
  match c with CRecord _ | CLog _ => true | _ => false end.
Definition sink_calls (t : list Call) : list Call := filter (fun c => is_sink c = true) t.
Definition other_calls (t : list Call) : list Call := filter (fun c => is_sink c = false) t.

Definition is_parse (c : Call) : bool := match c with CParse _ => true | _ => false end.
Definition is_evaluate (c : Call) : bool := match c with CEvaluate _ _ _ => true | _ => false end.

Definition all_allowed (ps : list (Statement * string)) : list (Statement * string * outcome RuleResult) :=
  map (fun p => (p, Ret Allow)) ps.

(** ** Lemmas on the protocol *)
Lemma allowed_eq r : allowed r = true -> r = Allow.
Proof. destruct r as [[]]; [done|discriminate]. Qed.

Lemma sink_calls_app t1 t2 : sink_calls (t1 ++ t2) = sink_calls t1 ++ sink_calls t2.
Proof. apply filter_app. Qed.

Lemma other_calls_app t1 t2 : other_calls (t1 ++ t2) = other_calls t1 ++ other_calls t2.
Proof. apply filter_app. Qed.

Lemma sink_calls_none t : Forall (fun c => is_sink c = false) t -> sink_calls t = [].
Proof.
  induction 1 as [|c t Hc _ IH]; [done|]. unfold sink_calls in *.
  rewrite filter_cons_False; [exact IH | by rewrite Hc].
Qed.

Lemma evaluation_calls ps t v :
  evaluation ps t v -> Forall (fun c => is_sink c = false /\ is_parse c = false) t.
Proof. induction 1; repeat constructor; done. Qed.

Lemma prepared_calls ps t v :
  prepared_protocol ps t v -> Forall (fun c => is_sink c = false /\ is_parse c = false) t.
Proof.
  destruct 1; repeat constructor. by eapply evaluation_calls.
Qed.

Lemma prepare_calls sql b t v :
  prepare_failure sql b t v -> Forall (fun c => is_sink c = false /\ is_evaluate c = false) t.
Proof. destruct 1; repeat constructor. Qed.

Lemma emits_sinks {U} (e : Engine U) ev : Forall (fun c => is_sink c = true) (emits e ev).
Proof. unfold emits. destruct (engine_metrics e), (engine_logger e); repeat constructor. Qed.

Lemma sink_calls_emits {U} (e : Engine U) ev : sink_calls (emits e ev) = emits e ev.
Proof. unfold emits. by destruct (engine_metrics e), (engine_logger e). Qed.

Lemma other_calls_emits {U} (e : Engine U) ev : other_calls (emits e ev) = [].
Proof. unfold emits. by destruct (engine_metrics e), (engine_logger e). Qed.

Lemma evaluations_app t1 t2 : evaluations (t1 ++ t2) = evaluations t1 ++ evaluations t2.
Proof. apply omap_app. Qed.

Lemma evaluations_emits {U} (e : Engine U) ev : evaluations (emits e ev) = [].
Proof. unfold emits. by destruct (engine_metrics e), (engine_logger e). Qed.

Lemma evaluation_allowed ps t : evaluation ps t VAllowed -> evaluations t = all_allowed ps.
Proof.
  remember VAllowed as v eqn:Hv. induction 1 as [| | | | |s id ps r t v Hr _ IH]; try done.
  subst v. rewrite (allowed_eq r Hr). cbn. f_equal. by apply IH.
Qed.

Lemma evaluation_rejects ps t id :
  evaluation ps t (VRejected id) ->
  exists ps1 s ps2, ps = ps1 ++ (s, id) :: ps2 /\
    evaluations t = all_allowed ps1 ++ [(s, id, Ret Reject)].
Proof.
  remember (VRejected id) as v eqn:Hv.
  induction 1 as [| | | |s id' ps r Hr|s id' ps r t v Hr _ IH]; simplify_eq.
  - exists [], s, ps. destruct r as [[]]; [done|]. done.
  - destruct (IH eq_refl) as (ps1 & s' & ps2 & -> & Heq).
    exists ((s, id') :: ps1), s', ps2. split; [done|].
    rewrite (allowed_eq r Hr). cbn. f_equal. exact Heq.
Qed.

Lemma named_pairs_id {U} (e : Engine U) r s id :
  (s, id) ∈ map named (pairs e r) -> id ∈ map reg_ruleID (engine_rules e).
Proof.
  intros ([s' reg] & [= -> ->] & Hin)%list_elem_of_fmap.
  apply elem_of_flat_map in Hin as (root & _ & Hin).
  apply list_elem_of_fmap in Hin as (reg' & [= -> ->] & Hreg).
  apply list_elem_of_fmap. by exists reg'.
Qed.

Lemma validate_calls `{PQ : PgQuery} build {U} (e : Engine U) sql t v :
  validate_protocol build e sql t v -> Forall (fun c => is_sink c = false) t.
Proof.
  destruct 1 as [t v Ht|r t v _ Ht].
  - eapply Forall_impl; [by eapply prepare_calls|]. naive_solver.
  - apply Forall_app. split; [repeat constructor|].
    eapply Forall_impl; [by eapply prepared_calls|]. naive_solver.
Qed.

Lemma verdict_Allowed_inv v : verdict_result v = Ret None -> v = VAllowed.
Proof. by destruct v. Qed.

Lemma validate_rejected_id `{PQ : PgQuery} build {U} (e : Engine U) sql t id :
  validate_protocol build e sql t (VRejected id) -> id ∈ map reg_ruleID (engine_rules e).
Proof.
  inversion 1 as [? ? Ht|r t' ? HP Ht]; subst; [by inversion Ht|].
  inversion Ht as [| | |l ? ? [= <-] Hev]; subst.
  apply evaluation_rejects in Hev as (ps1 & s & ps2 & Heq & _).
  apply (named_pairs_id e r s). unfold named. rewrite Heq. apply elem_of_app. right. left.
Qed.

#[export] Hint Rewrite sink_calls_app other_calls_app evaluations_app : trace.
#[export] Hint Rewrite @sink_calls_emits @other_calls_emits @evaluations_emits app_nil_r : trace.
#[export] Hint Resolve evaluation_calls prepared_calls prepare_calls validate_calls emits_sinks allowed_eq : go.

(** ** Properties *)

(** Every run of [ValidatePrepared] follows its protocol for any prepared
    value, the zero value included: one context check before anything else, the
    invalid value refused next, then the evaluation of the pairs; it parses
    nothing. *)
Theorem ValidatePrepared_refines_protocol {U} (e : Engine U) ctx p w :
  engine_wf e ->
  exists t v u,
    prepared_protocol (map named ∘ pairs e <$> prepared_result p) t v /\
    Forall (fun c => is_parse c = false) t /\
    ValidatePrepared e ctx p w =
      (verdict_result v, {| user := u; trace := trace w ++ t ++ verdict_emits e v |}).
Proof.
  intros Hwf. destruct (ValidatePrepared_run e ctx p w (wf_live _ Hwf)) as (t & v & u & Ht & Hrun).
  exists t, v, u. split; [done|]. split; [|done].
  eapply Forall_impl; [by eapply prepared_calls|]. naive_solver.
Qed.

(** When [Validate] returns nil, the input was parsed and every statement of
    its sequence was evaluated against every registered rule, exactly once and in
    order, and every one of these evaluations allowed the statement. *)
Theorem Validate_allowed_complete {U} `{PQ : PgQuery} build (e : Engine U) ctx sql w w' :
  engine_wf e ->
  Validate build e ctx sql w = (Ret None, w') ->
  exists r t, Parse build sql = (Some r, None) /\ trace w' = trace w ++ t /\
    evaluations t = all_allowed (map named (pairs e r)).
Proof.
  intros Hwf. destruct (Validate_run build e ctx sql w (wf_live _ Hwf)) as (t & v & u & Ht & ->).
  intros [= ->%verdict_Allowed_inv <-].
  inversion Ht as [? ? Hf|r t' ? HP Hp]; subst; [by inversion Hf|].
  inversion Hp as [| | |l ? ? [= <-] Hev]; subst.
  exists r. eexists. split; [done|]. split; [done|].
  unfold verdict_emits. cbn [verdict_event]. autorewrite with trace. exact (evaluation_allowed _ _ Hev).
Qed.

(** ** Exactly one terminal event *)

(** The events that the engine can emit. *)
Definition terminal_event {U} (e : Engine U) (ev : ValidationEvent) : Prop :=
  event_mode ev = ValidationModeEnforce /\
  ((event_outcome ev = ValidationOutcomePolicyViolation /\ event_ruleID ev ∈ map reg_ruleID (engine_rules e)) \/
   (event_outcome ev ∈ [ValidationOutcomeAllowed; ValidationOutcomeParserFailure;
                        ValidationOutcomeCanceled; ValidationOutcomeInvalidPrepared] /\
    event_ruleID ev = ""%string)).

(** The verdict that an event and a result both report. *)
Definition reports (v : verdict) (r : option goerror) (ev : ValidationEvent) : Prop :=
  verdict_result v = Ret r /\ verdict_event v = Some ev.

Lemma verdict_returned v r : verdict_result v = Ret r -> exists ev, reports v r ev.
Proof. unfold reports. destruct v; cbn; intros [= <-]; eauto. Qed.

Lemma sink_calls_verdict {U} (e : Engine U) t v :
  Forall (fun c => is_sink c = false) t -> sink_calls (t ++ verdict_emits e v) = verdict_emits e v.
Proof.
  intros Ht. rewrite sink_calls_app, (sink_calls_none t Ht). cbn. unfold verdict_emits.
  destruct (verdict_event v); [apply sink_calls_emits | done].
Qed.

(** C6: a validation that returns has made exactly one terminal emission: each
    enabled sink received one event, the metrics before the logger and both the
    same one, its mode, outcome and rule identifier are those of the bounded
    vocabulary, and the event and the returned error report the same verdict.  A
    validation that panics, in the context or in a rule, has emitted nothing. *)
Theorem Validate_emits_once {U} `{PQ : PgQuery} build (e : Engine U) ctx sql w :
  engine_wf e ->
  let '(r, w') := Validate build e ctx sql w in
  exists t, trace w' = trace w ++ t /\
    match r with
    | Ret err => exists v ev, reports v err ev /\ terminal_event e ev /\ sink_calls t = emits e ev
    | Panic _ => sink_calls t = []
    end.
Proof.
  intros Hwf. destruct (Validate_run build e ctx sql w (wf_live _ Hwf)) as (t & v & u & Ht & ->).
  eexists. split; [done|]. rewrite sink_calls_verdict by (eauto with go).
  destruct (verdict_result v) as [err|pv] eqn:Hv; [|by destruct v].
  destruct (verdict_returned v err Hv) as (ev & _ & Hev).
  exists v, ev. split; [done|]. unfold verdict_emits. rewrite Hev. split; [|done].
  destruct v; cbn in Hev; simplify_eq; (split; [done|]); try (right; split; [set_solver|done]).
  left. split; [done|]. by eapply validate_rejected_id.
Qed.

(** ** Isolation of the sinks *)

(** Same result, and the same calls of everything but the sinks. *)
Definition agree {U A} (r1 r2 : outcome A * World U) : Prop :=
  r1.1 = r2.1 /\ other_calls (trace r1.2) = other_calls (trace r2.2).

(** Either the two runs are the same and the validation goes on, or both end. *)
Definition agree_step {U A} (goes_on : A -> Prop) (r1 r2 : outcome A * World U) : Prop :=
  (r1 = r2 /\ exists a, r1.1 = Ret a /\ goes_on a) \/
  (agree r1 r2 /\ forall a, r1.1 = Ret a -> ~ goes_on a).

Section Isolation.
Context {U : Type} `{PQ : PgQuery} (build : Build).
Context (e1 e2 : Engine U) (same_rules : engine_rules e1 = engine_rules e2).

Lemma finishValidation_agree o id res w :
  agree (finishValidation e1 o id res w) (finishValidation e2 o id res w).
Proof.
  destruct (finishValidation_run e1 o id res w) as (u1 & ->).
  destruct (finishValidation_run e2 o id res w) as (u2 & ->).
  split; [done|]. cbn. by autorewrite with trace.
Qed.

(** The result of [finishValidation], passed on. *)
Lemma finish_agree {A} (k : option goerror -> A) o id res w :
  agree ((r ← finishValidation e1 o id res; mret (k r)) w) ((r ← finishValidation e2 o id res; mret (k r)) w).
Proof.
  destruct (finishValidation_agree o id res w) as [Hr Ht].
  destruct (finishValidation_run e1 o id res w) as (u1 & H1).
  destruct (finishValidation_run e2 o id res w) as (u2 & H2).
  rewrite (bind_Ret _ _ _ _ _ H1), (bind_Ret _ _ _ _ _ H2). rewrite H1, H2 in *. done.
Qed.

Lemma finish_agree_result {A} (k : option goerror -> A) (goes_on : A -> Prop) o id res w :
  ~ goes_on (k res) ->
  agree_step goes_on ((r ← finishValidation e1 o id res; mret (k r)) w)
    ((r ← finishValidation e2 o id res; mret (k r)) w).
Proof.
  intros Hk. right. split; [apply finish_agree|]. intros a.
  destruct (finishValidation_run e1 o id res w) as (u1 & H1).
  rewrite (bind_Ret _ _ _ _ _ H1). by intros [= <-].
Qed.

Lemma panic_agree {A} (goes_on : A -> Prop) v w :
  agree_step goes_on (Panic v, w) (Panic v, w) (U:=U).
Proof. right. by split. Qed.

Lemma evaluateRule_agree ctx s r w :
  agree_step (fun x => x = None) (evaluateRule e1 ctx s r w) (evaluateRule e2 ctx s r w).
Proof.
  unfold evaluateRule. rewrite !bind_call.
  destruct (Err ctx (user w)) as [[[err|]|v] u]; cbv beta iota; [by apply (finish_agree_result Some)| |apply panic_agree].
  destruct (reg_rule r) as [d|]; [|apply panic_agree]. cbn [invoke]. rewrite !bind_call.
  destruct (Evaluate _ _ _ _) as [[res|v] u']; cbv beta iota; [|apply panic_agree].
  destruct (Rejected res); [by apply (finish_agree_result Some)|]. left. split; [done|]. by exists None.
Qed.

(** A step, then the rest. *)
Lemma agree_step_bind {A B} (P : A -> Prop) (Q : B -> Prop) (m1 m2 : M (World U) A) (k1 k2 : A -> M (World U) B) w :
  agree_step P (m1 w) (m2 w) ->
  (forall a w', P a -> agree_step Q (k1 a w') (k2 a w')) ->
  (forall a w1 w2, ~ P a -> agree (Ret a, w1) (Ret a, w2) -> agree_step Q (k1 a w1) (k2 a w2)) ->
  agree_step Q ((m1 ≫= k1) w) ((m2 ≫= k2) w).
Proof.
  intros Hm Hgo Hend. unfold mbind, M_bind.
  destruct (m1 w) as [o1 w1], (m2 w) as [o2 w2].
  destruct Hm as [([= -> ->] & a & Ha & HP)|([Ho Ht] & Hn)]; cbn in *; subst.
  - by apply Hgo.
  - destruct o2 as [a|v]; [apply Hend; [by apply Hn|done]|]. right. done.
Qed.

Lemma rules_agree ctx s l w :
  agree_step (fun x => x = None) (for_range l (evaluateRule e1 ctx s) w) (for_range l (evaluateRule e2 ctx s) w).
Proof.
  revert w. induction l as [|r l IH]; intros w; [left; split; [done|]; by exists None|]. cbn.
  eapply agree_step_bind; [apply evaluateRule_agree| |].
  - intros a w' ->. apply IH.
  - intros [a|] w1 w2 Ha [_ Ht]; [|done]. right. split; [done|]. by intros ? [= <-].
Qed.

Lemma statements_agree ctx l w :
  agree_step (fun x => x = None)
    (for_range l (fun root => for_range (engine_rules e1) (evaluateRule e1 ctx (newStatement root))) w)
    (for_range l (fun root => for_range (engine_rules e2) (evaluateRule e2 ctx (newStatement root))) w).
Proof.
  rewrite <- same_rules. revert w. induction l as [|r l IH]; intros w; [left; split; [done|]; by exists None|].
  cbn. eapply agree_step_bind; [apply rules_agree| |].
  - intros a w' ->. apply IH.
  - intros [a|] w1 w2 Ha [_ Ht]; [|done]. right. split; [done|]. by intros ? [= <-].
Qed.

Lemma ValidatePrepared_agree ctx p w :
  agree (ValidatePrepared e1 ctx p w) (ValidatePrepared e2 ctx p w).
Proof.
  enough (agree_step (fun _ => False) (ValidatePrepared e1 ctx p w) (ValidatePrepared e2 ctx p w)) as [(_ & a & _ & [])|[H _]]
    by exact H.
  unfold ValidatePrepared. rewrite !bind_call.
  assert (forall o id res w, agree_step (fun _ => False) (finishValidation e1 o id res w) (finishValidation e2 o id res w)) as Hf.
  { intros o id res w'. right. split; [apply finishValidation_agree | auto]. }
  destruct (Err ctx (user w)) as [[[err|]|v] u]; cbv beta iota; [apply Hf| |apply panic_agree].
  destruct (prepared_result p) as [r|]; [|apply Hf].
  eapply agree_step_bind; [apply statements_agree| |].
  - intros a w' ->. apply Hf.
  - intros [a|] w1 w2 Ha [_ Ht]; [|done]. right. split; [done|]. auto.
Qed.

Lemma Prepare_agree ctx sql w :
  agree_step (fun p => p.2 = None) (Prepare build e1 ctx sql w) (Prepare build e2 ctx sql w).
Proof.
  unfold Prepare. rewrite !bind_call.
  destruct (Err ctx (user w)) as [[[err|]|v] u]; cbv beta iota;
    [by apply (finish_agree_result (pair {| prepared_result := None |}))| |apply panic_agree].
  rewrite !bind_call. cbv beta iota.
  destruct (Parse_shape build sql) as [(r & ->)| ->]; cbv beta iota; rewrite !bind_call; cbn [user trace];
    (destruct (Err ctx u) as [[[err|]|v] u']; cbv beta iota;
     [by apply (finish_agree_result (pair {| prepared_result := None |}))| |apply panic_agree]).
  - left. split; [done|]. by eexists.
  - by apply (finish_agree_result (pair {| prepared_result := None |})).
Qed.

Lemma Validate_agree ctx sql w : agree (Validate build e1 ctx sql w) (Validate build e2 ctx sql w).
Proof.
  enough (agree_step (fun _ => False) (Validate build e1 ctx sql w) (Validate build e2 ctx sql w)) as [(_ & a & _ & [])|[H _]]
    by exact H.
  unfold Validate. eapply agree_step_bind; [apply Prepare_agree| |].
  - intros [p err] w' Hp. cbn in Hp. subst. right. split; [apply ValidatePrepared_agree | auto].
  - intros [p [err|]] w1 w2 Hp [_ Ht]; [|done]. right. split; [done|]. auto.
Qed.
End Isolation.

(** C9: the sinks are isolated: two engines with the same rules give the same
    result, panics included, and make the same calls to the context, the parser
    and the rules, whatever their sinks are: enabled or not, failing, panicking or
    changing the application's state. *)
Theorem sinks_isolated {U} `{PQ : PgQuery} build (e1 e2 : Engine U) ctx sql prepared w :
  engine_rules e1 = engine_rules e2 ->
  agree (Validate build e1 ctx sql w) (Validate build e2 ctx sql w) /\
  agree (ValidatePrepared e1 ctx prepared w) (ValidatePrepared e2 ctx prepared w).
Proof. intros He. split; [by apply Validate_agree | by apply ValidatePrepared_agree]. Qed.

(** ** First rejection wins *)

(** The context is never done. *)
Definition never_done {U} (ctx : Context U) : Prop := forall u, exists u', Err ctx u = (Ret None, u').

(** The rule answers by the predicate [rejects] on statements, whatever the
    application's state. *)
Definition decides {U} (ctx : Context U) (r : registeredRule U) (rejects : Statement -> bool) : Prop :=
  exists d, reg_rule r = Some d /\
    forall s u, exists u', Evaluate (dyn_impl d) ctx s u = (Ret {| allowed := negb (rejects s) |}, u').

(** The pair's rejection, when the rule rejects. *)
Definition rejection {U} (rejects : registeredRule U -> Statement -> bool) (p : Statement * registeredRule U) : option goerror :=
  if rejects p.2 p.1 then Some (ViolationPtr (Some {| v_ruleID := reg_ruleID p.2 |})) else None.

Section FirstRejection.
Context {U : Type} `{PQ : PgQuery} (build : Build) (e : Engine U) (ctx : Context U).
Context (rejects : registeredRule U -> Statement -> bool).
Context (Hctx : never_done ctx) (Hrules : Forall (fun r => decides ctx r (rejects r)) (engine_rules e)).

Lemma evaluateRule_decided s r w :
  decides ctx r (rejects r) ->
  exists w', evaluateRule e ctx s r w = (Ret (Some <$> rejection rejects (s, r)), w').
Proof.
  intros (d & Hd & Hdec). unfold evaluateRule, rejection. cbn [fst snd].
  destruct (Hctx (user w)) as (u1 & H1). destruct (Hdec s u1) as (u2 & H2).
  rewrite bind_call, H1, Hd. cbv beta iota. cbn [invoke]. rewrite bind_call. cbn [user trace].
  rewrite H2. cbv beta iota. unfold Rejected. cbn [allowed]. rewrite negb_involutive.
  destruct (rejects r s); [|by eexists]. finish_with (@finish_verdict U) (VRejected (reg_ruleID r)) u3. by eexists.
Qed.

Lemma first_rejection_loop l w :
  Forall (fun p => decides ctx p.2 (rejects p.2)) l ->
  exists w', for_range l (fun p => evaluateRule e ctx p.1 p.2) w =
    (Ret (Some <$> find_first (rejection rejects) l), w').
Proof.
  intros Hl. revert w. induction Hl as [|[s r] l Hdec _ IH]; intros w; [by eexists|].
  cbn [for_range fst snd find_first] in *.
  destruct (evaluateRule_decided s r w Hdec) as (w1 & Hrun).
  rewrite (bind_Ret _ _ _ _ _ Hrun). destruct (rejection rejects (s, r)); cbn; [by eexists | apply IH].
Qed.

Lemma ValidatePrepared_first r w :
  exists w', ValidatePrepared e ctx {| prepared_result := Some r |} w =
    (Ret (find_first (rejection rejects) (pairs e r)), w').
Proof.
  unfold ValidatePrepared. rewrite bind_call. destruct (Hctx (user w)) as (u1 & ->). cbv beta iota. cbn [prepared_result].
  match goal with |- context [(for_range ?l ?f ≫= ?k) ?w1] =>
    assert (Forall (fun p => decides ctx p.2 (rejects p.2)) (pairs e r)) as Hp;
    [|destruct (first_rejection_loop (pairs e r) w1 Hp) as (w' & Hrun);
      unfold pairs in Hrun; rewrite <- (loops_flatten e ctx (StatementSequence (Some r)) w1) in Hrun;
      rewrite (bind_Ret _ _ _ _ _ Hrun)]
  end.
  { apply Forall_forall. intros [s reg] (root & _ & Hin)%elem_of_flat_map.
    apply list_elem_of_fmap in Hin as (reg' & [= -> ->] & Hreg).
    by apply (proj1 (Forall_forall _ _) Hrules). }
  unfold pairs. destruct (find_first _ _) as [err|]; cbn; [by eexists|].
  run_finish u3. by eexists.
Qed.

Lemma Validate_first sql w :
  (Validate build e ctx sql w).1 =
  Ret match Parse build sql with
      | (Some r, None) => find_first (rejection rejects) (pairs e r)
      | _ => Some (ParseErrorPtr (Some {| p_category := ParseErrorSyntax |}))
      end.
Proof.
  unfold Validate, Prepare. rewrite M_bind_assoc, bind_call.
  destruct (Hctx (user w)) as (u1 & ->). cbv beta iota.
  rewrite M_bind_assoc, bind_call. cbn [user trace].
  destruct (Parse_shape build sql) as [(r & ->)| ->]; cbv beta iota;
    rewrite M_bind_assoc, bind_call; cbn [user trace];
    destruct (Hctx u1) as (u2 & ->); cbv beta iota.
  - rewrite M_ret_bind. cbv beta iota.
    match goal with |- context [ValidatePrepared e ctx _ ?w1] =>
      destruct (ValidatePrepared_first r w1) as (w' & ->) end. done.
  - rewrite M_bind_assoc.
    run_finish u3.
    done.
Qed.
End FirstRejection.

(** C8: when the context is never done and each rule decides by a predicate, the
    verdict is a function of the input: a syntax error when it does not parse,
    otherwise the violation of the first statement-rule pair that is rejected, in
    statement order and then registration order, and nil when there is none.
    With no rules every input that parses is accepted. *)
Theorem Validate_first_rejection {U} `{PQ : PgQuery} build (e : Engine U) ctx rejects sql w :
  never_done ctx ->
  Forall (fun r => decides ctx r (rejects r)) (engine_rules e) ->
  (Validate build e ctx sql w).1 =
  Ret match Parse build sql with
      | (Some r, None) => find_first (rejection rejects) (pairs e r)
      | _ => Some (ParseErrorPtr (Some {| p_category := ParseErrorSyntax |}))
      end.
Proof. intros Hctx Hrules. by apply Validate_first. Qed.

(** The phases are separate: [Prepare] parses at most once and evaluates no
    rule; it returns nil exactly with a usable prepared value, the parse of its
    input, without emitting anything, and otherwise the zero value and one
    terminal emission. *)
Theorem Prepare_phase {U} `{PQ : PgQuery} build (e : Engine U) ctx sql w :
  let '(r, w') := Prepare build e ctx sql w in
  exists t, trace w' = trace w ++ t /\
    Forall (fun c => is_evaluate c = false) t /\ length (filter (fun c => is_parse c = true) t) <= 1 /\
    match r with
    | Ret (p, None) => Parse build sql = (prepared_result p, None) /\ prepared_result p <> None /\ sink_calls t = []
    | Ret (p, Some err) => prepared_result p = None /\
        exists v ev, reports v (Some err) ev /\ sink_calls t = emits e ev
    | Panic _ => sink_calls t = []
    end.
Proof.
  destruct (Prepare_run build e ctx sql w) as [(r & u & HP & ->)|(t & v & u & Ht & ->)].
  - eexists. split; [done|]. split; [repeat constructor|]. split; [exact (Nat.le_refl 1)|]. cbn. by rewrite HP.
  - eexists. split; [done|]. pose proof (prepare_failure_verdict _ _ _ _ Ht) as Hv.
    assert (Forall (fun c => is_sink c = false) t) as Hs
      by (eapply Forall_impl; [by eapply prepare_calls|]; by intros ? []).
    rewrite sink_calls_verdict by done. unfold verdict_emits. split; [|split].
    + apply Forall_app. split; [eapply Forall_impl; [by eapply prepare_calls|]; by intros ? []|].
      destruct (verdict_event v); [|constructor].
      unfold emits. destruct (engine_metrics e), (engine_logger e); repeat constructor.
    + rewrite filter_app, length_app.
      assert (forall ev, filter (fun c => is_parse c = true) (emits e ev) = []) as Hf
        by (intros; unfold emits; by destruct (engine_metrics e), (engine_logger e)).
      enough (length (filter (fun c => is_parse c = true) t) <= 1) as Hle
        by (destruct (verdict_event v); [rewrite Hf|]; cbn; lia).
      destruct Ht; first [exact (Nat.le_refl 1) | exact (Nat.le_0_l 1)].
    + unfold prepare_result. destruct (verdict_result v) as [[err|]|pv] eqn:Hr; [| done |by destruct v].
      split; [done|]. destruct (verdict_returned v _ Hr) as (ev & Hrep).
      exists v, ev. split; [done|]. by rewrite (proj2 Hrep).
Qed.

(** ** Construction *)

Definition registered {U} (id : string) (rule : iface (Rule U)) : registeredRule U :=
  {| reg_ruleID := id; reg_rule := rule |}.

Section ConstructionFacts.
Context {U : Type}.
Implicit Types (rules : list (iface (Rule U))) (w : World U).

Lemma isTypedNil_live {A} (v : iface A) : isTypedNil v = false <-> v = None \/ live v.
Proof.
  destruct v as [d|]; [|split; [by left | done]].
  rewrite <- reflect_nil_live. split; [by right | by intros [?|?]].
Qed.

Lemma isNilRule_live (rule : iface (Rule U)) : isNilRule rule = false <-> live rule.
Proof. destruct rule as [d|]; [apply reflect_nil_live | split; [done | intros []%not_live_nil]]. Qed.

(** What the loop of [validateRules] has established when it returns without an
    error. *)
Lemma validateRules_loop_ok rules ids seen w ids' w' :
  (forall x, x ∈ seen <-> x ∈ ids) -> NoDup ids ->
  validateRules_loop rules ids seen w = (Ret (ids', None), w') ->
  exists new, ids' = ids ++ new /\ length new = length rules /\ NoDup ids' /\
    Forall rule_identifier new /\ Forall live rules /\
    trace w' = trace w ++ map (fun id => CID (Ret id)) new.
Proof.
  revert ids seen w. induction rules as [|rule rules IH]; cbn; intros ids seen w Hseen Hnd.
  - intros [= -> <-]. exists []. rewrite !app_nil_r. done.
  - destruct (isNilRule rule) eqn:Hnil; [done|]. apply isNilRule_live in Hnil.
    destruct rule as [d|]; [|by destruct Hnil as (? & ? & _)]. cbn [invoke].
    rewrite bind_call. destruct (ID _ _) as [[id|v] u]; [|done]. cbv beta iota.
    destruct (validRuleID id) eqn:Hv; cbn; [|done]. apply validRuleID_iff in Hv.
    case_decide as Hin; [done|]. rewrite Hseen in Hin.
    intros H. apply IH in H as (new & -> & Hlen & Hnd' & Hids & Hlive & Htr).
    + exists (id :: new). rewrite <- app_assoc in *. cbn in *. rewrite Htr. cbn. rewrite <- app_assoc.
      repeat split; try done; [lia | by constructor | by constructor].
    + intros x. rewrite elem_of_union, elem_of_singleton, elem_of_app, Hseen, list_elem_of_singleton. tauto.
    + apply NoDup_app. split; [done|]. split; [|by apply NoDup_singleton].
      intros x Hx ->%list_elem_of_singleton. done.
Qed.

Lemma register_loop_run ids index rules regs w :
  index + length rules = length ids ->
  register_loop ids index rules regs w = (Ret (regs ++ zip_with registered (drop index ids) rules), w).
Proof.
  revert index regs. induction rules as [|rule rules IH]; cbn; intros index regs Hlen.
  - rewrite drop_ge by lia. by rewrite app_nil_r.
  - destruct (lookup_lt_is_Some_2 ids index) as (id & Hid); [lia|]. rewrite Hid, IH by lia.
    erewrite (drop_S ids id index) by done. cbn. by rewrite <- app_assoc.
Qed.

(** The rules answer their identifiers [ids]; a nil rule is not asked. *)
Definition identified (rule : iface (Rule U)) (id : string) : Prop :=
  forall d, rule = Some d -> live rule -> forall u, exists u', ID (dyn_impl d) u = (Ret id, u').

Definition acceptable rules (seen ids : list string) : Prop :=
  Forall live rules /\ Forall rule_identifier ids /\ NoDup ids /\ Forall (fun id => id ∉ seen) ids.

Lemma acceptable_cons rule rules id ids seen :
  acceptable (rule :: rules) seen (id :: ids) <->
  live rule /\ validRuleID id = true /\ (id ∉ seen) /\ acceptable rules (seen ++ [id]) ids.
Proof.
  unfold acceptable. rewrite !Forall_cons, NoDup_cons, validRuleID_iff.
  assert (Forall (fun x => x ∉ seen ++ [id]) ids <-> (id ∉ ids) /\ Forall (fun x => x ∉ seen) ids) as Heq; [|tauto].
  rewrite !Forall_forall. setoid_rewrite not_elem_of_app. setoid_rewrite list_elem_of_singleton.
  split; [intros H; split; [by intros Hx; destruct (H _ Hx)|by intros x Hx; destruct (H _ Hx)]|].
  intros [Hn H] x Hx. split; [auto|]. by intros ->.
Qed.

Lemma validateRules_loop_run rules rids ids seen w :
  Forall2 identified rules rids -> (forall x, x ∈ seen <-> x ∈ ids) ->
  exists w', (acceptable rules ids rids /\ validateRules_loop rules ids seen w = (Ret (ids ++ rids, None), w')) \/
    (~ acceptable rules ids rids /\
     exists err, validateRules_loop rules ids seen w = (Ret ([], Some err), w')).
Proof.
  intros Hids. revert ids seen w.
  induction Hids as [|rule id rules rids Hid _ IH]; cbn; intros ids seen w Hseen.
  - exists w. left. rewrite app_nil_r. repeat split; constructor.
  - pose proof (acceptable_cons rule rules id rids ids) as Hcons.
    destruct (isNilRule rule) eqn:Hnil.
    + eexists. right. split; [|by eexists]. rewrite Hcons, <- isNilRule_live, Hnil. by intros ([=] & _).
    + apply isNilRule_live in Hnil as Hlive.
      destruct rule as [d|]; [|by destruct Hlive as (? & ? & _)]. cbn [invoke]. rewrite bind_call.
      destruct (Hid d eq_refl Hlive (user w)) as (u & ->). cbv beta iota.
      destruct (validRuleID id) eqn:Hv; cbn; [|eexists; right; split; [rewrite Hcons; by intros (_ & [=] & _)|by eexists]].
      case_decide as Hin; rewrite Hseen in Hin;
        [eexists; right; split; [rewrite Hcons; by intros (_ & _ & ? & _)|by eexists]|].
      match goal with |- context [validateRules_loop rules ?i ?s ?w1] =>
        destruct (IH i s w1) as (w' & Hcase) end.
      { intros x. rewrite elem_of_union, elem_of_singleton, elem_of_app, Hseen, list_elem_of_singleton. tauto. }
      rewrite <- app_assoc in Hcase. cbn in Hcase. exists w'. tauto.
Qed.

Lemma registered_proj ids rules :
  length ids = length rules ->
  map reg_rule (zip_with registered ids rules) = rules /\ map reg_ruleID (zip_with registered ids rules) = ids.
Proof.
  revert rules. induction ids as [|id ids IH]; intros [|rule rules] [=]; [done|]. cbn.
  destruct (IH rules) as [-> ->]; [done|]. done.
Qed.
End ConstructionFacts.

(** The engine holds the sinks and the rules it was given, in their order. *)
Definition built_from {U} (options : EngineOptions U) (rules : list (iface (Rule U))) (e : Engine U) : Prop :=
  map reg_rule (engine_rules e) = rules /\
  engine_metrics e = opt_metrics options /\ engine_logger e = opt_logger options.

(** The engine that [NewEngine] returns. *)
Lemma NewEngine_ok {U} (options : EngineOptions U) rules w e err w' :
  NewEngine options rules w = (Ret (Some e, err), w') ->
  err = None /\ engine_wf e /\
  map reg_rule (engine_rules e) = rules /\
  engine_metrics e = opt_metrics options /\ engine_logger e = opt_logger options /\
  trace w' = trace w ++ map (fun r => CID (Ret (reg_ruleID r))) (engine_rules e).
Proof.
  unfold NewEngine.
  destruct (isTypedNil (opt_metrics options)) eqn:Hm; [done|].
  destruct (isTypedNil (opt_logger options)) eqn:Hl; [done|].
  apply isTypedNil_live in Hm, Hl.
  intros ([ids [verr|]] & w1 & Hval & Hrest)%M_bind_Ret; [done|].
  apply validateRules_loop_ok in Hval as (new & -> & Hlen & Hnd & Hids & Hlive & Htr); [|set_solver|constructor].
  cbn in *. unfold mbind, M_bind in Hrest. rewrite register_loop_run in Hrest by lia. cbn in Hrest.
  injection Hrest as <- <- <-.
  destruct (registered_proj new rules Hlen) as [Hr Hi].
  split; [done|]. repeat split; cbn; try done.
  - rewrite <- Hr in Hlive. exact (proj1 (List.Forall_map _ _ _) Hlive).
  - rewrite <- Hi in Hids. exact (proj1 (List.Forall_map _ _ _) Hids).
  - change (drop 0 new) with new. by rewrite Hi.
  - rewrite Htr. change (drop 0 new) with new. rewrite <- Hi at 1. by rewrite map_map.
Qed.

(** The engine that [NewEngine] returns is well formed, never comes with an
    error, and holds the given sinks and the given rules in their order, each
    under the identifier it answered in the one [ID] call made to it. *)
Theorem NewEngine_well_formed {U} (options : EngineOptions U) rules w e err w' :
  NewEngine options rules w = (Ret (Some e, err), w') ->
  err = None /\ engine_wf e /\ built_from options rules e /\
  trace w' = trace w ++ map (fun r => CID (Ret (reg_ruleID r))) (engine_rules e).
Proof.
  intros (Herr & Hwf & Hr & Hm & Hl & Ht)%NewEngine_ok. split; [done|]. split; [done|]. split; [by split|]. done.
Qed.

(** What [NewEngine] accepts. *)
Lemma NewEngine_decides {U} (options : EngineOptions U) rules ids w :
  Forall2 identified rules ids ->
  exists e err, (NewEngine options rules w).1 = Ret (e, err) /\
    (err = None <-> e <> None) /\
    (err = None <->
       isTypedNil (opt_metrics options) = false /\ isTypedNil (opt_logger options) = false /\
       Forall live rules /\ Forall rule_identifier ids /\ NoDup ids).
Proof.
  intros Hids. unfold NewEngine.
  assert (forall (err : goerror) (P : Prop), ~ P ->
    (Some err = None <-> (None : ptr (Engine U)) <> None) /\ (Some err = None <-> P)) as Hrefused
    by (intros; split; split; done).
  destruct (isTypedNil (opt_metrics options));
    [eexists None, (Some _); split; [done|]; apply Hrefused; by intros [[=] _]|].
  destruct (isTypedNil (opt_logger options));
    [eexists None, (Some _); split; [done|]; apply Hrefused; by intros (_ & [=] & _)|].
  destruct (validateRules_loop_run rules ids [] ∅ w Hids) as (w' & Hcase); [set_solver|].
  assert (acceptable rules [] ids <-> Forall live rules /\ Forall rule_identifier ids /\ NoDup ids) as Hacc.
  { unfold acceptable. assert (Forall (fun id => id ∉ []) ids) by (apply Forall_forall; set_solver). tauto. }
  destruct Hcase as [[Ha Hrun]|[Ha (err & Hrun)]]; unfold validateRules; rewrite (bind_Ret _ _ _ _ _ Hrun); cbv beta iota.
  - unfold mbind, M_bind. apply Forall2_length in Hids. rewrite register_loop_run by (cbn; lia). cbn.
    eexists (Some _), None. split; [done|]. split; [done|]. tauto.
  - eexists None, (Some err). split; [done|]. apply Hrefused. tauto.
Qed.

(** C25: [NewEngine] accepts exactly the documented configurations: no sink is a
    typed nil, no rule is nil or a typed nil, and the identifiers are valid and
    distinct.  Any other configuration gives an error and no engine. *)
Theorem NewEngine_accepts {U} (options : EngineOptions U) rules ids w :
  Forall2 identified rules ids ->
  exists e err, (NewEngine options rules w).1 = Ret (e, err) /\
    (err = None <-> e <> None) /\
    (err = None <->
       isTypedNil (opt_metrics options) = false /\ isTypedNil (opt_logger options) = false /\
       Forall live rules /\ Forall rule_identifier ids /\ NoDup ids).
Proof. apply NewEngine_decides. Qed.
