(* ===== verification/BuiltinRules.v ===== *)
(** * The built-in rules: pkg/rules

    Each rule type of the package is a value [Rule] for any application state:
    its [Evaluate] ignores the context and depends on the statement alone.
    [violates] states on the parsed tree what each rule looks for.  For five of the six
    rules that is the documented policy.  For [DenyAlterTable] it is narrower: the README,
    the validation guide and the specification promise that every ALTER TABLE is rejected,
    while the rule knows only AlterTableStmt and AlterTableMoveAllStmt, and PostgreSQL
    parses ALTER TABLE ... RENAME and ... SET SCHEMA as RenameStmt and
    AlterObjectSchemaStmt.  [documented] is the promise, for any reading of what an ALTER
    TABLE is. *)
From stdpp Require Import base strings list gmap relations.
From S2P Require Import Prelude.
From S2P Require Import GoRuntime.
From S2P Require Import Nodes.
From S2P Require Import Traversal.
From S2P Require Import PgQuery.
From S2P Require Import Statements.
From S2P Require Import Errors.
From S2P Require Import RuleContract.
From S2P Require Import Observability.
From S2P Require Import Engine.
From S2P Require Import EngineState.
From S2P Require Import EngineProps.

(** ** mutation.go *)
Definition updateRequiresWhereRuleID : string := "update_requires_where".
Definition deleteRequiresWhereRuleID : string := "delete_requires_where".
Definition updateStatementKind : string := "UpdateStmt".
Definition deleteStatementKind : string := "DeleteStmt".
Definition whereClauseField : string := "where_clause".

(** [requireWhereClause]. *)
Definition requireWhereClause (statement : Statement) (targetKind : string) : RuleResult :=
  if decide (Statement_Kind statement <> targetKind) then Allow
  else
    let '(_, ok) := Child (Root statement) whereClauseField in
    if ok then Allow else Reject.

(** The [ID] and [Evaluate] methods of [updateRequiresWhere] and [deleteRequiresWhere]. *)
Definition updateRequiresWhere_ID : string := updateRequiresWhereRuleID.
Definition updateRequiresWhere_Evaluate (statement : Statement) : RuleResult :=
  requireWhereClause statement updateStatementKind.
Definition deleteRequiresWhere_ID : string := deleteRequiresWhereRuleID.
Definition deleteRequiresWhere_Evaluate (statement : Statement) : RuleResult :=
  requireWhereClause statement deleteStatementKind.

(** ** insert.go *)
Definition insertRequiresColumnsRuleID : string := "insert_requires_columns".
Definition insertStatementKind : string := "InsertStmt".
Definition insertColumnsField : string := "cols".

Definition insertRequiresColumns_ID : string := insertRequiresColumnsRuleID.
Definition insertRequiresColumns_Evaluate (statement : Statement) : RuleResult :=
  if decide (Statement_Kind statement <> insertStatementKind) then Allow
  else if 0 <? length (Children (Root statement) insertColumnsField) then Allow
  else Reject.

(** ** ddl.go *)
Definition denyTruncateRuleID : string := "deny_truncate".
Definition denyDropTableRuleID : string := "deny_drop_table".
Definition denyAlterTableRuleID : string := "deny_alter_table".
Definition truncateStatementKind : string := "TruncateStmt".
Definition dropStatementKind : string := "DropStmt".
Definition alterTableStatementKind : string := "AlterTableStmt".
Definition alterTableMoveAllKind : string := "AlterTableMoveAllStmt".
Definition dropObjectTypeField : string := "remove_type".
Definition alterObjectTypeField : string := "objtype".
Definition tableObjectType : string := "OBJECT_TABLE".

Definition denyTruncate_ID : string := denyTruncateRuleID.
Definition denyTruncate_Evaluate (statement : Statement) : RuleResult :=
  if decide (Statement_Kind statement = truncateStatementKind) then Reject else Allow.

Definition denyDropTable_ID : string := denyDropTableRuleID.
Definition denyDropTable_Evaluate (statement : Statement) : RuleResult :=
  if decide (Statement_Kind statement <> dropStatementKind) then Allow
  else
    let '(objectType, ok) := View_Enum (Root statement) dropObjectTypeField in
    if negb ok || bool_decide (objectType = tableObjectType) then Reject else Allow.

Definition denyAlterTable_ID : string := denyAlterTableRuleID.
Definition denyAlterTable_Evaluate (statement : Statement) : RuleResult :=
  if bool_decide (Statement_Kind statement = alterTableStatementKind)
     || bool_decide (Statement_Kind statement = alterTableMoveAllKind)
  then
    let '(objectType, ok) := View_Enum (Root statement) alterObjectTypeField in
    if negb ok || bool_decide (objectType = tableObjectType) then Reject else Allow
  else Allow.

(** ** The rule values *)
Section Constructors.
Context {U : Type}.

(** A value of a struct{} type with an [ID] and an [Evaluate] method. *)
Definition struct_rule (id : string) (evaluate : Statement -> RuleResult) : iface (Rule U) :=
  Some {| dyn_kind := RStruct; dyn_nil := false;
          dyn_impl := {| ID := fun u => (Ret id, u);
                         Evaluate := fun _ statement u => (Ret (evaluate statement), u) |} |}.

Definition NewUpdateRequiresWhere := struct_rule updateRequiresWhere_ID updateRequiresWhere_Evaluate.
Definition NewDeleteRequiresWhere := struct_rule deleteRequiresWhere_ID deleteRequiresWhere_Evaluate.
Definition NewInsertRequiresColumns := struct_rule insertRequiresColumns_ID insertRequiresColumns_Evaluate.
Definition NewDenyTruncate := struct_rule denyTruncate_ID denyTruncate_Evaluate.
Definition NewDenyDropTable := struct_rule denyDropTable_ID denyDropTable_Evaluate.
Definition NewDenyAlterTable := struct_rule denyAlterTable_ID denyAlterTable_Evaluate.
End Constructors.

(** ** Specification *)

(** The built-in policies. *)
Inductive builtin : Set :=
| UpdateRequiresWhere | DeleteRequiresWhere | InsertRequiresColumns
| DenyTruncate | DenyDropTable | DenyAlterTable.

Definition constructor {U} (b : builtin) : iface (Rule U) :=
  match b with
  | UpdateRequiresWhere => NewUpdateRequiresWhere
  | DeleteRequiresWhere => NewDeleteRequiresWhere
  | InsertRequiresColumns => NewInsertRequiresColumns
  | DenyTruncate => NewDenyTruncate
  | DenyDropTable => NewDenyDropTable
  | DenyAlterTable => NewDenyAlterTable
  end.

(** The node has a field of that name that holds a node. *)
Definition has_node (n : Node) (name : string) : Prop :=
  field_kind {| view_node := Some n |} name = ValueNode.

(** The node has a list field of that name with a node among its items. *)
Definition has_node_item (n : Node) (name : string) : Prop :=
  exists l v, Node_Field (Some n) name = (l, true) /\ kind_of l = ValueList /\
    v ∈ listValue l /\ kind_of v = ValueNode.

(** The node says what kind of object it is about, and it is not a table. *)
Definition other_object (n : Node) (name : string) : Prop :=
  exists v, Node_Field (Some n) name = (v, true) /\ kind_of v = ValueEnum /\ stringValue v <> "OBJECT_TABLE"%string.

(** The statements each rule looks for: what its documented policy forbids, except for
    [DenyAlterTable], which the code reads more narrowly than its documents. *)
Definition violates (b : builtin) (n : Node) : Prop :=
  match b with
  | UpdateRequiresWhere => node_kind n = "UpdateStmt"%string /\ ~ has_node n "where_clause"
  | DeleteRequiresWhere => node_kind n = "DeleteStmt"%string /\ ~ has_node n "where_clause"
  | InsertRequiresColumns => node_kind n = "InsertStmt"%string /\ ~ has_node_item n "cols"
  | DenyTruncate => node_kind n = "TruncateStmt"%string
  | DenyDropTable => node_kind n = "DropStmt"%string /\ ~ other_object n "remove_type"
  | DenyAlterTable =>
      (node_kind n = "AlterTableStmt"%string \/ node_kind n = "AlterTableMoveAllStmt"%string) /\ ~ other_object n "objtype"
  end.

(** The kinds under which PostgreSQL also keeps forms of ALTER TABLE (RENAME and SET
    SCHEMA, next to those of other objects), and which the rule does not know. *)
Definition unseen_alter (n : Node) : Prop :=
  node_kind n = "RenameStmt"%string \/ node_kind n = "AlterObjectSchemaStmt"%string.

(** Which statements are ALTER TABLE is a matter of PostgreSQL's grammar.  A reading of it
    counts what the rule looks for, a statement without an object type included, and
    otherwise only statements of those two kinds. *)
Record alter_table_reading (alters : Node -> Prop) : Prop := {
  reading_seen n : violates DenyAlterTable n -> alters n;
  reading_unseen n : alters n -> violates DenyAlterTable n \/ unseen_alter n
}.

(** The statements each documented policy forbids, under a reading of ALTER TABLE. *)
Definition documented (alters : Node -> Prop) (b : builtin) (n : Node) : Prop :=
  match b with DenyAlterTable => alters n | _ => violates b n end.

(** The input parses and no statement of it, at the top level or reachable through WITH
    clauses at any depth, is forbidden to a selection of rules. *)
Definition adheres `{PQ : PgQuery} (build : Build) (forbids : builtin -> Node -> Prop) (selection : list builtin)
    (sql : string) : Prop :=
  exists r, Parse build sql = (Some r, None) /\
    forall top n b, Some top ∈ result_statements r -> rtc cte_of top n -> b ∈ selection -> ~ forbids b n.

(** [DenyAlterTable] is not selected, or the input has no statement of the two kinds. *)
Definition settled `{PQ : PgQuery} (build : Build) (selection : list builtin) (sql : string) : Prop :=
  DenyAlterTable ∈ selection -> forall r top n,
    Parse build sql = (Some r, None) -> Some top ∈ result_statements r -> rtc cte_of top n -> ~ unseen_alter n.

Definition builtin_id (b : builtin) : string :=
  match b with
  | UpdateRequiresWhere => updateRequiresWhereRuleID
  | DeleteRequiresWhere => deleteRequiresWhereRuleID
  | InsertRequiresColumns => insertRequiresColumnsRuleID
  | DenyTruncate => denyTruncateRuleID
  | DenyDropTable => denyDropTableRuleID
  | DenyAlterTable => denyAlterTableRuleID
  end.

Definition builtin_evaluate (b : builtin) : Statement -> RuleResult :=
  match b with
  | UpdateRequiresWhere => updateRequiresWhere_Evaluate
  | DeleteRequiresWhere => deleteRequiresWhere_Evaluate
  | InsertRequiresColumns => insertRequiresColumns_Evaluate
  | DenyTruncate => denyTruncate_Evaluate
  | DenyDropTable => denyDropTable_Evaluate
  | DenyAlterTable => denyAlterTable_Evaluate
  end.

#[export] Instance builtin_eq_dec : EqDecision builtin.
Proof. solve_decision. Defined.

(** ** Lemmas on the look-ups *)
Lemma constructor_eq {U} b : @constructor U b = struct_rule (builtin_id b) (builtin_evaluate b).
Proof. by destruct b. Qed.

Lemma Child_ok n name : (Child {| view_node := Some n |} name).2 = true <-> has_node n name.
Proof.
  unfold has_node, field_kind, Child, View_value, Value_Node. cbn.
  destruct (Node_Field (Some n) name) as [v []]; cbn; [|by split].
  case_bool_decide; cbn; by split.
Qed.

Lemma View_Enum_other n name :
  (let '(objectType, ok) := View_Enum {| view_node := Some n |} name in
   negb ok || bool_decide (objectType = tableObjectType)) = true <-> ~ other_object n name.
Proof.
  unfold View_Enum, other_object, Value_Enum, View_value. cbn.
  destruct (Node_Field (Some n) name) as [v []]; cbn.
  - unfold tableObjectType. destruct (decide (kind_of v = ValueEnum)) as [Hk|Hk].
    + rewrite (bool_decide_true _ Hk). cbn. rewrite bool_decide_eq_true. split.
      * intros Hs (v' & [= <-] & _ & Hne). done.
      * intros Hn. destruct (decide (stringValue v = "OBJECT_TABLE"%string)); [done|].
        destruct Hn. by exists v.
    + rewrite (bool_decide_false _ Hk). cbn. split; [|done]. by intros _ (v' & [= <-] & ? & _).
  - split; [intros _ (? & [=] & _) | done].
Qed.

(** The loop of [Children] keeps the node items. *)
Lemma children_foldl (l : list Value) acc :
  foldl (fun children item =>
      let '(child, isNode) := Value_Node item in
      if isNode then children ++ [ {| view_node := child |} ] else children) acc l =
  acc ++ map (fun v => {| view_node := nodeValue v |}) (filter (fun v => kind_of v = ValueNode) l).
Proof.
  revert acc. induction l as [|v l IH]; intros acc; cbn [foldl]; [by rewrite app_nil_r|].
  rewrite filter_cons. change (Value_Node v) with (nodeValue v, bool_decide (kind_of v = ValueNode)).
  cbv beta iota. case_bool_decide as Hk.
  - rewrite decide_True by done. rewrite IH. cbn. by rewrite <- app_assoc.
  - rewrite decide_False by done. apply IH.
Qed.

Lemma Children_pos n name :
  (0 <? length (Children {| view_node := Some n |} name)) = true <-> has_node_item n name.
Proof.
  rewrite Nat.ltb_lt. unfold Children, has_node_item, View_value. cbn [view_node].
  destruct (Node_Field (Some n) name) as [l []]; cbn [negb]; [|split; [cbn; lia | by intros (? & ? & [=] & _)]].
  unfold Value_List. case_bool_decide as Hk; cbn [negb];
    [split; [cbn; lia | by intros (? & ? & [= <-] & ? & _)]|].
  rewrite children_foldl. cbn [app]. rewrite length_map. split.
  - destruct (filter _ _) as [|v vs] eqn:Hf; cbn; [lia|]. intros _.
    assert (v ∈ filter (fun v => kind_of v = ValueNode) (listValue l)) as Hin by (rewrite Hf; by left).
    apply list_elem_of_filter in Hin as [Hv Hin]. exists l, v. split; [done|]. split; [|done].
    destruct (decide (kind_of l = ValueList)); [done | contradiction].
  - intros (l' & v & [= <-] & _ & Hin & Hv).
    assert (v ∈ filter (fun v => kind_of v = ValueNode) (listValue l)) as Hf by (by apply list_elem_of_filter).
    destruct (filter _ _); cbn; [by apply not_elem_of_nil in Hf | lia].
Qed.

(** Each rule rejects exactly what it looks for. *)
Lemma builtin_evaluate_violates b n :
  Rejected (builtin_evaluate b (newStatement (Some n))) = true <-> violates b n.
Proof.
  destruct b; cbn [builtin_evaluate violates];
    unfold updateRequiresWhere_Evaluate, deleteRequiresWhere_Evaluate, requireWhereClause,
      insertRequiresColumns_Evaluate, denyTruncate_Evaluate, denyDropTable_Evaluate, denyAlterTable_Evaluate,
      Statement_Kind, View_Kind, Root, newStatement; cbn [statement_root view_node Node_Kind].
  1, 2: rewrite <- Child_ok; unfold updateStatementKind, deleteStatementKind, whereClauseField;
    case_decide; [cbn; intuition congruence|]; destruct (Child _ _) as [c []]; cbn; intuition congruence.
  - rewrite <- Children_pos. unfold insertStatementKind, insertColumnsField.
    case_decide; [cbn; intuition congruence|]. destruct (0 <? _); cbn; intuition congruence.
  - unfold truncateStatementKind. case_decide; cbn; intuition congruence.
  - rewrite <- View_Enum_other. unfold dropStatementKind, dropObjectTypeField.
    case_decide; [cbn; intuition congruence|]. destruct (View_Enum _ _) as [t ok].
    destruct (_ || _); cbn; intuition congruence.
  - rewrite <- View_Enum_other. unfold alterTableStatementKind, alterTableMoveAllKind, alterObjectTypeField.
    destruct (View_Enum _ _) as [t ok].
    repeat case_bool_decide; cbn [orb]; destruct (_ || _); cbn; intuition congruence.
Qed.

(** ** Lemmas on engines made of built-in rules *)
Section Selection.
Context {U : Type}.
Implicit Types (selection : list builtin).

Lemma constructor_identified selection :
  Forall2 identified (map (@constructor U) selection) (map builtin_id selection).
Proof.
  induction selection as [|b selection IH]; [constructor|]. constructor; [|exact IH].
  rewrite constructor_eq. intros d [= <-] _ u. by exists u.
Qed.

Lemma constructor_live selection : Forall live (map (@constructor U) selection).
Proof.
  induction selection as [|b selection IH]; [constructor|]. constructor; [|exact IH].
  rewrite constructor_eq. by eexists.
Qed.

Lemma builtin_id_valid b : rule_identifier (builtin_id b).
Proof. apply validRuleID_iff. by destruct b. Qed.

#[local] Instance builtin_id_inj : Inj (=) (=) builtin_id.
Proof. by intros [] []. Qed.

Lemma builtin_ids_acceptable selection :
  NoDup selection -> Forall rule_identifier (map builtin_id selection) /\ NoDup (map builtin_id selection).
Proof.
  intros Hnd. split.
  - apply Forall_forall. intros id (b & -> & _)%list_elem_of_fmap. apply builtin_id_valid.
  - by apply (NoDup_fmap_2 builtin_id).
Qed.

(** The decision of a registered rule, when it does not depend on the state. *)
Definition answer (ctx : Context U) (u : U) (r : registeredRule U) (s : Statement) : bool :=
  match reg_rule r with
  | Some d => match Evaluate (dyn_impl d) ctx s u with (Ret res, _) => negb (allowed res) | _ => false end
  | None => false
  end.

Lemma builtin_decides ctx u selection (rules : list (registeredRule U)) :
  map reg_rule rules = map constructor selection -> Forall (fun r => decides ctx r (answer ctx u r)) rules.
Proof.
  revert selection. induction rules as [|r rules IH]; intros [|b selection] [=]; constructor; [|by eapply IH].
  unfold decides, answer. rewrite H0, constructor_eq. eexists. split; [done|]. intros s v. exists v.
  cbn. by rewrite negb_involutive; destruct (builtin_evaluate b s).
Qed.

(** No pair of an engine of built-in rules is rejected. *)
Lemma builtin_no_rejection ctx u selection (e : Engine U) r :
  map reg_rule (engine_rules e) = map constructor selection ->
  find_first (rejection (answer ctx u)) (pairs e r) = None <->
  forall n b, Some n ∈ StatementSequence (Some r) -> b ∈ selection -> ~ violates b n.
Proof.
  intros Hsel. rewrite find_first_None, Forall_forall.
  assert (forall reg b root, reg_rule reg = constructor b ->
    rejection (answer ctx u) (newStatement root, reg) = None <-> Rejected (builtin_evaluate b (newStatement root)) <> true) as Hone.
  { intros reg b root Hreg. unfold rejection, answer. cbn [fst snd]. rewrite Hreg, constructor_eq. cbn.
    unfold Rejected. by destruct (negb _). }
  split.
  - intros Hall n b Hn Hb Hv. rewrite <- builtin_evaluate_violates in Hv. revert Hv.
    assert (@constructor U b ∈ map reg_rule (engine_rules e)) as Hin
      by (rewrite Hsel; apply list_elem_of_fmap; eauto).
    apply list_elem_of_fmap in Hin as (reg & Hreg & Hin).
    apply (Hone reg b (Some n)); [done|]. apply Hall, elem_of_flat_map.
    exists (Some n). split; [done|]. apply list_elem_of_fmap. by exists reg.
  - intros Hall [s reg] (root & Hroot & Hin)%elem_of_flat_map.
    apply list_elem_of_fmap in Hin as (reg' & [= -> ->] & Hin).
    assert (reg_rule reg' ∈ map (@constructor U) selection) as Hb
      by (rewrite <- Hsel; apply list_elem_of_fmap; eauto).
    apply list_elem_of_fmap in Hb as (b & Hb & Hbin). apply (Hone reg' b root Hb).
    rewrite StatementSequence_flat_map in Hroot. apply elem_of_flat_map in Hroot as (top & Htop & Hroot).
    destruct (appendStatement_preorder top) as (l & Hl & Heq).
    assert (exists n, root = Some n) as (n & ->).
    { rewrite Heq in Hroot. apply list_elem_of_fmap in Hroot as (n & -> & _). by exists n. }
    rewrite builtin_evaluate_violates. apply Hall; [|done].
    rewrite StatementSequence_flat_map. apply elem_of_flat_map. by exists top.
Qed.

(** A nil verdict of [ValidatePrepared] on an engine of built-in rules. *)
Lemma builtin_nil_verdict (e : Engine U) selection ctx p w w' :
  map reg_rule (engine_rules e) = map constructor selection ->
  ValidatePrepared e ctx p w = (Ret None, w') ->
  exists r, prepared_result p = Some r /\
    forall top n b, Some top ∈ result_statements r -> rtc cte_of top n -> b ∈ selection -> ~ violates b n.
Proof.
  intros Hsel (r & Hr & Hall)%ValidatePrepared_None. exists r. split; [done|].
  intros top n b Htop Hn Hb. rewrite <- builtin_evaluate_violates.
  assert (@constructor U b ∈ map reg_rule (engine_rules e)) as Hin by (rewrite Hsel; apply list_elem_of_fmap; eauto).
  apply list_elem_of_fmap in Hin as (reg & Hreg & Hin).
  destruct (Hall (Some n) reg) as (d & u1 & u2 & Hd & Hev); [apply StatementSequence_elem; eauto | done |].
  rewrite <- Hreg, constructor_eq in Hd. injection Hd as <-. cbn in Hev.
  unfold Rejected. by injection Hev as -> _.
Qed.
End Selection.

(** ** Properties *)

(** Every built-in rule rejects exactly the statements it looks for, and allows every
    other statement. *)
Theorem builtin_rules_exact b n :
  Rejected (builtin_evaluate b (newStatement (Some n))) = true <-> violates b n.
Proof. apply builtin_evaluate_violates. Qed.

(** Any selection of distinct built-in rules, in any order and with any sinks
    that are not typed nils, is accepted by [NewEngine]. *)
Theorem builtin_selection_accepted {U} (options : EngineOptions U) selection w :
  isTypedNil (opt_metrics options) = false -> isTypedNil (opt_logger options) = false -> NoDup selection ->
  exists e, (NewEngine options (map constructor selection) w).1 = Ret (Some e, None) /\
    map reg_rule (engine_rules e) = map constructor selection.
Proof.
  intros Hm Hl Hnd.
  destruct (NewEngine_decides options (map constructor selection) _ w (constructor_identified selection))
    as (e & err & Hrun & He & Hacc).
  pose proof (builtin_ids_acceptable selection Hnd). pose proof (@constructor_live U selection).
  assert (err = None) as -> by tauto. destruct e as [e|]; [|by destruct (proj1 He eq_refl)].
  exists e. split; [done|].
  destruct (NewEngine options (map constructor selection) w) as [o w'] eqn:Hne. cbn in Hrun. subst o.
  by apply NewEngine_ok in Hne as (_ & _ & ? & _).
Qed.

(** ** The documented policies *)
Section Documented.
Context (alters : Node -> Prop) (Halt : alter_table_reading alters).

Lemma documented_violates b n : violates b n -> documented alters b n.
Proof. destruct b; [done..|]. apply (reading_seen _ Halt). Qed.

Lemma documented_gap b n : ~ violates b n -> documented alters b n -> b = DenyAlterTable /\ unseen_alter n.
Proof. destruct b; cbn [documented]; [done..|]. intros Hv [?|?]%(reading_unseen _ Halt); by try split. Qed.

Lemma documented_adheres `{PQ : PgQuery} build selection sql :
  adheres build (documented alters) selection sql -> adheres build violates selection sql.
Proof.
  intros (r & HP & Hall). exists r. split; [done|]. intros top n b Htop Hn Hb Hv.
  eapply Hall; [exact Htop | done | exact Hb | by apply documented_violates].
Qed.
End Documented.

(** C10: whatever the context does, and whatever the sinks do, a nil verdict of
    an engine of built-in rules means that the input parsed and that no statement of
    it, at the top level or reachable through WITH clauses, violates a selected
    policy, as far as its rule looks for violations ([violates]). *)
Theorem builtin_policy_sound {U} `{PQ : PgQuery} build (options : EngineOptions U) selection w e err w' ctx sql w1 w2 :
  NewEngine options (map constructor selection) w = (Ret (Some e, err), w') ->
  Validate build e ctx sql w1 = (Ret None, w2) ->
  exists r, Parse build sql = (Some r, None) /\
    forall top n b, Some top ∈ result_statements r -> rtc cte_of top n -> b ∈ selection -> ~ violates b n.
Proof.
  intros (_ & _ & Hsel & _)%NewEngine_ok. unfold Validate. intros ([p [perr|]] & w3 & Hp & Hv)%M_bind_Ret; [done|].
  apply Prepare_None in Hp as [Hp _]. destruct (builtin_nil_verdict e selection ctx p _ _ Hsel Hv) as (r & Hr & Hall).
  exists r. by rewrite Hp, Hr.
Qed.

(** What an engine of built-in rules accepts. *)
Lemma builtin_accepts {U} `{PQ : PgQuery} build (e : Engine U) selection ctx sql w :
  map reg_rule (engine_rules e) = map constructor selection -> never_done ctx ->
  (Validate build e ctx sql w).1 = Ret None <->
  exists r, Parse build sql = (Some r, None) /\
    forall top n b, Some top ∈ result_statements r -> rtc cte_of top n -> b ∈ selection -> ~ violates b n.
Proof.
  intros Hsel Hctx.
  rewrite (Validate_first build e ctx (answer ctx (user w)) Hctx (builtin_decides _ _ _ _ Hsel)).
  destruct (Parse_shape build sql) as [(r & ->)| ->].
  - split.
    + intros [= H]. exists r. split; [done|]. intros top n b Htop Hn Hb.
      apply (proj1 (builtin_no_rejection ctx (user w) selection e r Hsel) H); [|done].
      apply StatementSequence_elem. eauto.
    + intros (r' & [= <-] & Hall). f_equal.
      apply (builtin_no_rejection ctx (user w) selection e r Hsel). intros n b Hn Hb.
      apply StatementSequence_elem in Hn as (top & Htop & Hn). by apply (Hall top).
  - split; [done | by intros (r & [=] & _)].
Qed.


(** ** The rules on parsed messages *)

(** A message of a grammar node, not a wrapper, whose fields have distinct
    names. *)
Definition root_message `{PR : ProtoReflect} (m : Message) : Prop :=
  IsValid m = true /\ FullName (Descriptor m) <> pgQueryNodeName /\ NoDup (map fd_Name (Fields (Descriptor m))).

(** The message declares a field of that name and type. *)
Definition declares `{PR : ProtoReflect} (m : Message) (name : string) (is_list : bool) (kind : ProtoKind)
    (fd : FieldDescriptor) : Prop :=
  fd ∈ Fields (Descriptor m) /\ fd_Name fd = name /\ fd_IsList fd = is_list /\ fd_Kind fd = kind.

Section OnMessages.
Context `{PRL : ProtoReflectLaws} (m : Message) (Hroot : root_message m).

Lemma message_node : exists n, convertMessage m = Some n /\ node_kind n = Name (Descriptor m).
Proof. destruct Hroot as (Hv & Hn & _). rewrite convertMessage_node by done. by eexists. Qed.

Lemma message_field n fd name is_list kind :
  convertMessage m = Some n -> declares m name is_list kind fd ->
  Node_Field (Some n) name =
    (if Has m fd then (convertValue convertMessage fd (Get m fd), true) else (zeroValue, false)).
Proof.
  intros <- (Hin & <- & _). destruct Hroot as (Hv & Hn & Hnd). by apply convertMessage_field.
Qed.

Lemma message_has_node n fd name :
  convertMessage m = Some n -> declares m name false MessageKind fd -> has_node n name <-> Has m fd = true.
Proof.
  intros Hc Hd. pose proof (message_field n fd _ _ _ Hc Hd) as Hf. destruct Hd as (_ & _ & Hl & Hk).
  unfold has_node, field_kind, View_value. cbn. rewrite Hf. destruct (Has m fd); [|done].
  unfold convertValue, convertSingularValue. by rewrite Hl, Hk.
Qed.

Lemma message_has_item n fd name :
  convertMessage m = Some n -> declares m name true MessageKind fd ->
  has_node_item n name <-> Has m fd = true /\ pv_List (Get m fd) <> [].
Proof.
  intros Hc Hd. pose proof (message_field n fd _ _ _ Hc Hd) as Hf. destruct Hd as (_ & _ & Hl & Hk).
  unfold has_node_item. rewrite Hf. destruct (Has m fd); [|by split; [intros (? & ? & [=] & _) | intros [[=] _]]].
  unfold convertValue. rewrite Hl. split.
  - intros (l & v & [= <-] & _ & Hin & _). split; [done|]. cbn in Hin.
    intros Hnil. rewrite Hnil in Hin. by apply not_elem_of_nil in Hin.
  - intros [_ Hne]. destruct (pv_List (Get m fd)) as [|v vs]; [done|].
    eexists _, (convertSingularValue convertMessage fd v). split; [done|]. split; [done|]. split; [by left|].
    unfold convertSingularValue. by rewrite Hk.
Qed.

Lemma message_other_object n fd name :
  convertMessage m = Some n -> declares m name false EnumKind fd ->
  other_object n name <-> Has m fd = true /\ fd_EnumName fd (pv_Enum (Get m fd)) <> Some tableObjectType.
Proof.
  intros Hc Hd. pose proof (message_field n fd _ _ _ Hc Hd) as Hf. destruct Hd as (_ & _ & Hl & Hk).
  unfold other_object. rewrite Hf. destruct (Has m fd); [|by split; [intros (? & [=] & _) | intros [[=] _]]].
  unfold convertValue, convertSingularValue. rewrite Hl, Hk.
  destruct (fd_EnumName fd _) as [t|]; split.
  - intros (v & [= <-] & _ & Hne). split; [done|]. by intros [= ->].
  - intros [_ Hne]. eexists. split; [done|]. split; [done|]. cbn. by intros ->.
  - by intros _.
  - intros _. by eexists.
Qed.
End OnMessages.

(** C24: on the parser's own messages: UPDATE and DELETE are rejected exactly when
    the statement message has no WHERE clause, INSERT when its column list is
    absent or empty, and DROP when its object type is a table or is not given.
    An object type outside the enumeration is not a table. *)
Theorem rules_on_messages `{PRL : ProtoReflectLaws} m :
  root_message m ->
  let statement := newStatement (convertMessage m) in
  (forall fd kind, declares m "where_clause" false MessageKind fd ->
     Rejected (requireWhereClause statement kind) = true <->
     Name (Descriptor m) = kind /\ Has m fd = false) /\
  (forall fd, declares m "cols" true MessageKind fd ->
     Rejected (insertRequiresColumns_Evaluate statement) = true <->
     Name (Descriptor m) = "InsertStmt"%string /\ (Has m fd = false \/ pv_List (Get m fd) = [])) /\
  (forall fd, declares m "remove_type" false EnumKind fd ->
     Rejected (denyDropTable_Evaluate statement) = true <->
     Name (Descriptor m) = "DropStmt"%string /\
     (Has m fd = false \/ fd_EnumName fd (pv_Enum (Get m fd)) = Some "OBJECT_TABLE"%string)).
Proof.
  intros Hm statement. subst statement. destruct (message_node m Hm) as (n & Hn & Hk). rewrite Hn, <- Hk.
  split; [|split].
  - intros fd kind Hd. pose proof (message_has_node m Hm n fd _ Hn Hd) as Hw. rewrite <- Child_ok in Hw.
    unfold requireWhereClause, Statement_Kind, View_Kind, Root, newStatement, whereClauseField.
    cbn [statement_root view_node Node_Kind]. case_decide; [cbn; intuition congruence|].
    destruct (Child _ _) as [c []], (Has m fd); cbn in *; intuition congruence.
  - intros fd Hd. pose proof (message_has_item m Hm n fd _ Hn Hd) as Hi.
    rewrite (builtin_evaluate_violates InsertRequiresColumns n). cbn [violates]. rewrite Hi.
    destruct (Has m fd), (pv_List (Get m fd)); intuition congruence.
  - intros fd Hd. pose proof (message_other_object m Hm n fd _ Hn Hd) as Ho.
    rewrite (builtin_evaluate_violates DenyDropTable n). cbn [violates]. rewrite Ho. unfold tableObjectType.
    destruct (decide (fd_EnumName fd (pv_Enum (Get m fd)) = Some "OBJECT_TABLE"%string));
      destruct (Has m fd); intuition congruence.
Qed.

(** ** Limits of the policies *)

(** A statement whose root has no WITH clause of its own hides what it
    contains: the sequence visits its root alone, so a data-modifying CTE under
    an EXPLAIN (or any other statement that wraps a query) is not evaluated, and
    an engine of built-in mutation rules accepts it, whatever the CTE does. *)
Theorem wrapped_statement_hidden {U} `{PQ : PgQuery} build (options : EngineOptions U) w e w' ctx sql w1 n :
  NewEngine options [NewUpdateRequiresWhere; NewDeleteRequiresWhere] w = (Ret (Some e, None), w') ->
  never_done ctx ->
  Parse build sql = (Some {| result_statements := [Some n] |}, None) ->
  node_kind n = "ExplainStmt"%string -> nodeField (Some n) "with_clause" = None ->
  StatementSequence (Some {| result_statements := [Some n] |}) = [Some n] /\
  (Validate build e ctx sql w1).1 = Ret None.
Proof.
  intros (_ & _ & Hsel & _)%NewEngine_ok Hctx HP Hk Hw.
  assert (StatementSequence (Some {| result_statements := [Some n] |}) = [Some n]) as Hseq.
  { rewrite StatementSequence_flat_map. cbn. rewrite appendStatement_root.
    unfold cte_statements, cte_values. by rewrite Hw. }
  split; [done|].
  assert (map reg_rule (engine_rules e) = map constructor [UpdateRequiresWhere; DeleteRequiresWhere]) as Hsel' by exact Hsel.
  rewrite (Validate_first build e ctx (answer ctx (user w1)) Hctx (builtin_decides _ _ _ _ Hsel')), HP.
  f_equal. apply (builtin_no_rejection ctx (user w1) _ e _ Hsel'). rewrite Hseq.
  intros m b Hm. apply list_elem_of_singleton in Hm as [= ->]. rewrite elem_of_cons, list_elem_of_singleton.
  by intros [-> | ->] [Hk' _]; rewrite Hk in Hk'.
Qed.

(** [denyAlterTable] looks only at the two statement kinds it names: a
    statement of any other kind is allowed, so ALTER TABLE forms that PostgreSQL
    represents as RenameStmt or AlterObjectSchemaStmt pass. *)
Theorem alter_table_other_kinds_allowed n :
  (node_kind n = "RenameStmt" \/ node_kind n = "AlterObjectSchemaStmt")%string ->
  Rejected (denyAlterTable_Evaluate (newStatement (Some n))) = false.
Proof.
  intros Hk. apply not_true_is_false. intros [[H|H] _]%(builtin_evaluate_violates DenyAlterTable n);
    rewrite H in Hk; by destruct Hk.
Qed.
