(* ===== verification/Prometheus.v ===== *)
(** * The Prometheus sink: pkg/observability/prometheus

    client_golang is code outside the repository: [PrometheusClient] holds the
    operations the package calls, [PrometheusLaws] the documented behaviour of a
    counter vector. *)
From stdpp Require Import base strings list.
From S2P Require Import Prelude.
From S2P Require Import GoRuntime.
From S2P Require Import Nodes.
From S2P Require Import Traversal.
From S2P Require Import PgQuery.
From S2P Require Import Statements.
From S2P Require Import Errors.
From S2P Require Import RuleContract.
From S2P Require Import Observability.
From S2P Require Import Engine.
From S2P Require Import EngineState.
Local Open Scope string_scope.

(** The operations of client_golang and of prometheus/common/model, over the
    state [U] of the application, which holds the registry.  [series] reads a
    counter as a scrape does. *)
Class PrometheusClient (U : Type) : Type := {
  CounterVec : Type;
  Counter : Type;
  NewCounterVec (name help : string) (labelNames : list string) : U -> CounterVec * U;
  WithLabelValues : CounterVec -> list string -> U -> outcome Counter * U;
  Inc : Counter -> U -> U;
  IsValidMetricName : string -> bool;
  labels_of : CounterVec -> list string;
  series : CounterVec -> list string -> U -> N
}.

(** As many label values as label names give the counter of that series, created
    at zero when it is new, and [Inc] adds one to it and to nothing else. *)
Class PrometheusLaws {U} (PC : PrometheusClient U) : Prop := {
  NewCounterVec_labels name help labelNames u : labels_of (NewCounterVec name help labelNames u).1 = labelNames;
  WithLabelValues_Inc vec lvs u :
    length lvs = length (labels_of vec) ->
    exists c u', WithLabelValues vec lvs u = (Ret c, u') /\
      series vec lvs (Inc c u') = (series vec lvs u + 1)%N /\
      forall vec' lvs', (vec', lvs') <> (vec, lvs) -> series vec' lvs' (Inc c u') = series vec' lvs' u
}.

Definition defaultMetricName : string := "sqlguard_validations_total".
Definition metricHelp : string := "Total number of postgres-sqlguard validation outcomes.".
Definition metricLabels : list string := ["service"; "mode"; "outcome"; "rule_id"].

Definition errNilRegisterer : goerror := ErrorString "errNilRegisterer" "sqlguard prometheus: registerer must not be nil".
Definition errEmptyService : goerror := ErrorString "errEmptyService" "sqlguard prometheus: service must not be empty".
Definition errInvalidMetricName : goerror := ErrorString "errInvalidMetricName" "sqlguard prometheus: metric name is invalid".

Section Prometheus.
Context {U : Type} `{PC : PrometheusClient U}.

(** [prometheusclient.Registerer], the part used. *)
Record Registerer : Type := { Register : CounterVec -> U -> outcome (option goerror) * U }.

(** [Config] and [Metrics]. *)
Record Config : Type := { cfg_Registerer : iface Registerer; cfg_Service : string; cfg_MetricName : string }.
Record PromMetrics : Type := { prom_service : string; prom_validations : CounterVec }.

(** [isNilRegisterer]. *)
Definition isNilRegisterer (registerer : iface Registerer) : bool :=
  match registerer with
  | None => true
  | Some value => if nillable (dyn_kind value) then dyn_nil value else false
  end.

(** [New]. *)
Definition New (config : Config) : M U (ptr PromMetrics * option goerror) :=
  if isNilRegisterer (cfg_Registerer config) then mret (None, Some errNilRegisterer)
  else if decide (cfg_Service config = "") then mret (None, Some errEmptyService)
  else
    let metricName := if decide (cfg_MetricName config = "") then defaultMetricName else cfg_MetricName config in
    if negb (IsValidMetricName metricName) then mret (None, Some errInvalidMetricName)
    else
      validations ← ((fun u => let '(v, u) := NewCounterVec metricName metricHelp metricLabels u in (Ret v, u)) : M U CounterVec);
      err ← invoke (cfg_Registerer config) (fun r => Register r validations);
      match err with
      | Some err =>
          mret (None, Some (WrapError ("sqlguard prometheus: register metric: " ++ error_text err) err))
      | None => mret (Some {| prom_service := cfg_Service config; prom_validations := validations |}, None)
      end.

(** [RecordValidation]; on a nil receiver it panics. *)
Definition PromMetrics_RecordValidation (m : ptr PromMetrics) (event : ValidationEvent) : M U (option goerror) :=
  match m with
  | None => panic "nil pointer dereference"
  | Some m =>
      counter ← (WithLabelValues (prom_validations m)
                   [prom_service m; Event_Mode event; Event_Outcome event; Event_RuleID event] : M U Counter);
      _ ← ((fun u => (Ret tt, Inc counter u)) : M U unit);
      mret None
  end.

(** The metrics pointer as a value of the engine's [Metrics] interface. *)
Definition PromMetrics_iface (m : ptr PromMetrics) : iface (Metrics U) :=
  Some {| dyn_kind := RPointer;
          dyn_nil := match m with None => true | Some _ => false end;
          dyn_impl := {| RecordValidation := PromMetrics_RecordValidation m |} |}.

(** ** Specification *)

(** The series of an event. *)
Definition event_labels (m : PromMetrics) (ev : ValidationEvent) : list string :=
  [prom_service m; event_mode ev; event_outcome ev; event_ruleID ev].

(** [u2] differs from [u1] by one more count of one series of the metrics, as far
    as the counters go. *)
Definition counted_once (m : PromMetrics) (ev : ValidationEvent) (u1 u2 : U) : Prop :=
  series (prom_validations m) (event_labels m ev) u2 = (series (prom_validations m) (event_labels m ev) u1 + 1)%N /\
  forall vec lvs, (vec, lvs) <> (prom_validations m, event_labels m ev) -> series vec lvs u2 = series vec lvs u1.

(** The counters are the same. *)
Definition same_counters (u1 u2 : U) : Prop := forall vec lvs, series vec lvs u2 = series vec lvs u1.

#[export] Instance same_counters_preorder : PreOrder same_counters.
Proof. split; [done|]. intros u1 u2 u3 H1 H2 vec lvs. by rewrite H2, H1. Qed.

#[export] Instance counted_once_proper m ev : Proper (flip same_counters ==> same_counters ==> impl) (counted_once m ev).
Proof.
  intros u1 u1' H1 u2 u2' H2 [Hc Ho]. split; [by rewrite H2, Hc, <- H1|].
  intros vec lvs Hne. by rewrite H2, Ho, <- H1.
Qed.

(** A configuration that [New] does not refuse before it registers. *)
Definition effective_name (config : Config) : string :=
  if decide (cfg_MetricName config = "") then defaultMetricName else cfg_MetricName config.

Definition configured (config : Config) : Prop :=
  live (cfg_Registerer config) /\ cfg_Service config <> "" /\ IsValidMetricName (effective_name config) = true.

(** ** Lemmas *)
Lemma isNilRegisterer_live (r : iface Registerer) : isNilRegisterer r = false <-> live r.
Proof. destruct r as [d|]; [apply reflect_nil_live | split; [done | intros []%not_live_nil]]. Qed.

Context `{!PrometheusLaws PC}.

Lemma RecordValidation_run m ev u :
  length (labels_of (prom_validations m)) = 4 ->
  exists u', PromMetrics_RecordValidation (Some m) ev u = (Ret None, u') /\ counted_once m ev u u'.
Proof.
  intros Hlen. destruct (WithLabelValues_Inc (prom_validations m) (event_labels m ev) u) as (c & u1 & Hw & Hs & Ho).
  { by rewrite Hlen. }
  unfold PromMetrics_RecordValidation. rewrite (bind_Ret _ _ _ _ _ Hw). by eexists.
Qed.

Lemma New_ok config u m err u' :
  New config u = (Ret (Some m, err), u') ->
  err = None /\ configured config /\ prom_service m = cfg_Service config /\ labels_of (prom_validations m) = metricLabels.
Proof.
  unfold New, configured. rewrite <- isNilRegisterer_live.
  destruct (isNilRegisterer (cfg_Registerer config)); [done|].
  destruct (decide (cfg_Service config = "")) as [Hs|Hs]; [done|]. fold (effective_name config).
  set (name := effective_name config).
  destruct (IsValidMetricName name) eqn:Hname; [|done]. cbn [negb].
  pose proof (NewCounterVec_labels name metricHelp metricLabels u) as Hl.
  unfold mbind, M_bind. destruct (NewCounterVec name metricHelp metricLabels u) as [v u1]; cbn in Hl.
  destruct (invoke _ _ u1) as [[[rerr|]|pv] u2]; cbn; [done| |done].
  intros [= <- <- <-]. repeat split; done.
Qed.

(** ** Properties *)

(** [New] refuses an invalid configuration with the error of its first defect
    and without touching the registry; for a valid one it registers one counter
    vector with the four bounded labels, returns the metrics exactly when that
    succeeds, and otherwise wraps the registry's error. *)
Theorem New_configuration config u :
  (~ configured config ->
     exists e, New config u = (Ret (None, Some e), u) /\
       (e = errNilRegisterer /\ ~ live (cfg_Registerer config) \/
        e = errEmptyService /\ live (cfg_Registerer config) /\ cfg_Service config = "" \/
        e = errInvalidMetricName /\ live (cfg_Registerer config) /\ cfg_Service config <> "")) /\
  (configured config ->
     exists d vec u1, cfg_Registerer config = Some d /\ labels_of vec = metricLabels /\
       New config u =
       match Register (dyn_impl d) vec u1 with
       | (Ret None, u2) => (Ret (Some {| prom_service := cfg_Service config; prom_validations := vec |}, None), u2)
       | (Ret (Some err), u2) =>
           (Ret (None, Some (WrapError ("sqlguard prometheus: register metric: " ++ error_text err) err)), u2)
       | (Panic v, u2) => (Panic v, u2)
       end).
Proof.
  unfold configured, New. pose proof (isNilRegisterer_live (cfg_Registerer config)) as Hlive.
  destruct (isNilRegisterer (cfg_Registerer config)) eqn:Hnil.
  { split; [|intros [? _]; by apply Hlive in H]. intros _. exists errNilRegisterer. split; [done|]. left.
    split; [done|]. by intros H%Hlive. }
  assert (live (cfg_Registerer config)) as Hl by (by apply Hlive).
  destruct (decide (cfg_Service config = "")) as [Hs|Hs].
  { split; [|by intros (_ & [] & _)]. intros _. exists errEmptyService. split; [done|]. auto. }
  fold (effective_name config). set (name := effective_name config).
  destruct (IsValidMetricName name) eqn:Hname; cbn [negb].
  - split; [intros []; auto|]. intros _.
    pose proof (NewCounterVec_labels name metricHelp metricLabels u) as Hlab.
    destruct Hl as (d & Hd & _). rewrite Hd. unfold mbind, M_bind.
    destruct (NewCounterVec name metricHelp metricLabels u) as [vec u1]. cbn in Hlab.
    exists d, vec, u1. split; [done|]. split; [done|]. cbn.
    by destruct (Register (dyn_impl d) vec u1) as [[[err|]|v] u2].
  - split; [|by intros (_ & _ & [=])]. intros _. exists errInvalidMetricName. split; [done|]. auto.
Qed.

(** With the metrics that [New] returned as the engine's only sink, and a
    context and rules that leave the counters alone, every validation that returns
    adds exactly one to exactly one series, the one of the verdict it returned,
    whose labels are the configured service and the event's bounded fields. *)
Theorem validation_counted_once `{PQ : PgQuery} build config u0 m u0' (e : Engine U) ctx sql w err w' :
  New config u0 = (Ret (Some m, None), u0') ->
  engine_wf e -> engine_metrics e = PromMetrics_iface (Some m) -> engine_logger e = None ->
  (forall u, same_counters u (Err ctx u).2) ->
  Forall (fun r => forall d, reg_rule r = Some d ->
    forall s u, same_counters u (Evaluate (dyn_impl d) ctx s u).2) (engine_rules e) ->
  Validate build e ctx sql w = (Ret err, w') ->
  exists v ev, verdict_result v = Ret err /\ verdict_event v = Some ev /\
    event_labels m ev = [cfg_Service config; event_mode ev; event_outcome ev; event_ruleID ev] /\
    counted_once m ev (user w) (user w').
Proof.
  intros (_ & _ & Hsvc & Hlab)%New_ok Hwf Hm Hl Hctx Hrules Hrun.
  destruct (Validate_final build e ctx same_counters Hctx Hrules sql w err w' (wf_live _ Hwf)) as (u & ev & v & HR & Hu & Hv & Hev);
    [left; by rewrite Hm | done |].
  exists v, ev. split; [done|]. split; [done|]. split; [unfold event_labels; by rewrite Hsvc|].
  rewrite Hu. unfold sinks_final. rewrite Hm, Hl.
  change (counted_once m ev (user w) (PromMetrics_RecordValidation (Some m) ev u).2).
  destruct (RecordValidation_run m ev u) as (u' & Hrec & Hc); [by rewrite Hlab|].
  rewrite Hrec. cbn. eapply counted_once_proper; [exact HR | done | exact Hc].
Qed.
End Prometheus.
