(* ===== verification/Slog.v ===== *)
(** * The log/slog sink: pkg/observability/slog

    The handler of the configured logger is code of the application, a record of
    functions over its state; the clock is a parameter.  The background context
    that the package passes to the handler carries nothing and is left out. *)
From stdpp Require Import base strings list.
From S2P Require Import Prelude.
From S2P Require Import GoRuntime.
From S2P Require Import Nodes.
From S2P Require Import Traversal.
From S2P Require Import PgQuery.
From S2P Require Import Statements.
From S2P Require Import Errors.
From S2P Require Import RuleContract.
From S2P Require Import Observability.
From S2P Require Import Engine.
From S2P Require Import EngineState.
Local Open Scope string_scope.

(** ** log/slog *)
Definition LevelDebug : Z := -4.
Definition LevelInfo : Z := 0.
Definition LevelError : Z := 8.

(** [slog.Record]: string attributes only. *)
Record LogRecord : Set := MkLogRecord {
  rec_time : Z; rec_level : Z; rec_message : string; rec_pc : Z; rec_attrs : list (string * string)
}.

Definition NewRecord (t level : Z) (msg : string) (pc : Z) : LogRecord :=
  {| rec_time := t; rec_level := level; rec_message := msg; rec_pc := pc; rec_attrs := [] |}.

Definition AddAttrs (r : LogRecord) (attrs : list (string * string)) : LogRecord :=
  {| rec_time := rec_time r; rec_level := rec_level r; rec_message := rec_message r; rec_pc := rec_pc r;
     rec_attrs := (rec_attrs r ++ attrs)%list |}.

Section Slog.
Context {U : Type} (Now : U -> Z * U).

(** [slog.Handler], the methods used, and [slog.Logger] with its handler. *)
Record Handler : Type := {
  Enabled : Z -> U -> outcome bool * U;
  Handle : LogRecord -> U -> outcome (option goerror) * U
}.
Record StdLogger : Type := { std_handler : iface Handler }.

(** [Logger] of the package. *)
Record SlogLogger : Type := { slog_handler : iface Handler }.

Definition slog_errNilLogger : goerror := ErrorString "errNilLogger" "sqlguard slog: logger must not be nil".

(** [New]. *)
Definition Slog_New (logger : ptr StdLogger) : ptr SlogLogger * option goerror :=
  match logger with
  | None => (None, Some slog_errNilLogger)
  | Some logger => (Some {| slog_handler := std_handler logger |}, None)
  end.

(** [validationLevel]. *)
Definition validationLevel (outcome : string) : Z :=
  if bool_decide (outcome = ValidationOutcomePolicyViolation)
     || bool_decide (outcome = ValidationOutcomeParserFailure)
     || bool_decide (outcome = ValidationOutcomeInvalidPrepared) then LevelError
  else if bool_decide (outcome = ValidationOutcomeCanceled) then LevelDebug
  else LevelInfo.

(** [LogValidation]. *)
Definition SlogLogger_LogValidation (l : ptr SlogLogger) (event : ValidationEvent) : M U (option goerror) :=
  match l with
  | None => panic "nil pointer dereference"
  | Some l =>
      let level := validationLevel (Event_Outcome event) in
      enabled ← invoke (slog_handler l) (fun h => Enabled h level : M U bool);
      if negb enabled then mret None
      else
        now ← ((fun u => let '(t, u) := Now u in (Ret t, u)) : M U Z);
        let record := NewRecord now level "sqlguard validation" 0 in
        let record := AddAttrs record [("mode", Event_Mode event); ("outcome", Event_Outcome event);
                                       ("rule_id", Event_RuleID event)] in
        invoke (slog_handler l) (fun h => Handle h record)
  end.

(** The logger pointer as a value of the engine's [Logger] interface. *)
Definition SlogLogger_iface (l : ptr SlogLogger) : iface (Logger U) :=
  Some {| dyn_kind := RPointer;
          dyn_nil := match l with None => true | Some _ => false end;
          dyn_impl := {| LogValidation := SlogLogger_LogValidation l |} |}.

(** ** Specification *)

(** The record of an event. *)
Definition event_record (t : Z) (ev : ValidationEvent) : LogRecord :=
  {| rec_time := t; rec_level := validationLevel (event_outcome ev); rec_message := "sqlguard validation";
     rec_pc := 0;
     rec_attrs := [("mode", event_mode ev); ("outcome", event_outcome ev); ("rule_id", event_ruleID ev)] |}.

(** A handler that keeps the records of its level and above: [records] reads what
    it has kept. *)
Record keeps_records (h : Handler) (min_level : Z) (records : U -> list LogRecord) : Prop := {
  kr_enabled level u : exists u', Enabled h level u = (Ret (bool_decide (min_level <= level)%Z), u') /\ records u' = records u;
  kr_now u : records (Now u).2 = records u;
  kr_handle r u : exists res u', Handle h r u = (res, u') /\ records u' = (records u ++ [r])%list
}.

Lemma LogValidation_keeps d min_level records ev u :
  keeps_records (dyn_impl d) min_level records ->
  exists t,
    records (SlogLogger_LogValidation (Some {| slog_handler := Some d |}) ev u).2 =
    (records u ++ if bool_decide (min_level <= validationLevel (event_outcome ev))%Z then [event_record t ev] else [])%list.
Proof.
  intros Hk. unfold SlogLogger_LogValidation. cbn [slog_handler invoke].
  destruct (kr_enabled _ _ _ Hk (validationLevel (event_outcome ev)) u) as (u1 & H1 & Hr1).
  rewrite (bind_Ret _ _ _ _ _ H1). case_bool_decide; cbn [negb].
  - unfold mbind, M_bind. pose proof (kr_now _ _ _ Hk u1) as Hn. destruct (Now u1) as [t u2]. cbn in Hn.
    destruct (kr_handle _ _ _ Hk (event_record t ev) u2) as (res & u3 & H3 & Hr3).
    exists t. unfold NewRecord, AddAttrs, Event_Mode, Event_Outcome, Event_RuleID. cbn in *. unfold event_record in *. rewrite H3. cbn. by rewrite Hr3, Hn, Hr1.
  - exists 0%Z. cbn. by rewrite app_nil_r.
Qed.

(** ** Properties *)

(** Severity follows the outcome: refusals of the input or of the prepared
    value are errors, cancellations are debug records and everything else is
    informational, so a handler that drops debug records still sees every refusal. *)
Theorem validationLevel_severity outcome :
  (validationLevel outcome = LevelError <->
     outcome ∈ [ValidationOutcomePolicyViolation; ValidationOutcomeParserFailure; ValidationOutcomeInvalidPrepared]) /\
  (validationLevel outcome = LevelDebug <-> outcome = ValidationOutcomeCanceled) /\
  (validationLevel ValidationOutcomeAllowed = LevelInfo).
Proof.
  unfold validationLevel. rewrite !elem_of_cons, elem_of_nil.
  split; [|split; [|done]]; repeat case_bool_decide; cbn; subst; split; try done; try tauto;
    intros H'; exfalso; intuition congruence.
Qed.

(** With the logger that [New] returned as the engine's only sink, over a
    handler that keeps records of its level and above, every validation that
    returns adds exactly the record of the event of the verdict it returned, when
    its level is kept, and nothing otherwise: constant message, three bounded
    string attributes in a fixed order. *)
Theorem validation_logged_once `{PQ : PgQuery} build d l min_level records (e : Engine U) ctx sql w err w' :
  Slog_New (Some {| std_handler := Some d |}) = (l, None) ->
  keeps_records (dyn_impl d) min_level records ->
  engine_wf e -> engine_metrics e = None -> engine_logger e = SlogLogger_iface l ->
  (forall u, records (Err ctx u).2 = records u) ->
  Forall (fun r => forall d, reg_rule r = Some d ->
    forall s u, records (Evaluate (dyn_impl d) ctx s u).2 = records u) (engine_rules e) ->
  Validate build e ctx sql w = (Ret err, w') ->
  exists v ev t, verdict_result v = Ret err /\ verdict_event v = Some ev /\
    records (user w') =
      (records (user w) ++
       if bool_decide (min_level <= validationLevel (event_outcome ev))%Z then [event_record t ev] else [])%list.
Proof.
  intros [= <-] Hk Hwf Hm Hl Hctx Hrules Hrun.
  assert (PreOrder (fun u1 u2 => records u2 = records u1))
    by (split; [done | intros u1 u2 u3 H1 H2; by rewrite H2]).
  destruct (Validate_final build e ctx (fun u1 u2 => records u2 = records u1)) with (sql := sql) (w := w) (err := err) (w' := w')
    as (u & ev & v & HR & Hu & Hv & Hev); try done.
  - apply Hwf.
  - right. by rewrite Hl.
  - destruct (LogValidation_keeps d min_level records ev u Hk) as (t & Ht).
    exists v, ev, t. split; [done|]. split; [done|]. rewrite Hu, <- HR, <- Ht. unfold sinks_final. by rewrite Hm, Hl.
Qed.
End Slog.
