(* ===== verification/Pgx.v ===== *)
(** * What the two pgx examples share: example/pgx and example/pgx-prepared

    Both packages guard the same three driver operations.  pgx is code outside
    the repository: its result types are parameters, and the driver is a record
    of functions over the application's state.  The calls that a guard makes to
    its validator and to the driver are kept in a trace. *)
From stdpp Require Import base strings list.
From S2P Require Import Prelude.
From S2P Require Import GoRuntime.
From S2P Require Import Nodes.
From S2P Require Import PgQuery.
From S2P Require Import Engine.

(** pgconn.CommandTag with its zero value, and the driver's rows and row. *)
Class Pgx : Type := {
  CommandTag : Type;
  CommandTag0 : CommandTag;
  DriverRows : Type;
  DriverRow : Type
}.

(** An argument of a query: any Go value; a type assertion asks whether its
    dynamic type implements pgx.QueryRewriter. *)
Record anyMethods : Set := { implements_QueryRewriter : bool }.
Abbreviation any := (iface anyMethods).

(** [pgx.Row]: the guard's [failedRow] or a row of the driver. *)
Inductive Row `{Pgx} : Type :=
| failedRow (err : goerror)
| driverRow (row : DriverRow).

(** The outcome of [Scan] on a row: a failed row returns its error, a row of the
    driver does what the driver does ([None] here). *)
Definition Scan `{Pgx} (row : Row) : option goerror :=
  match row with
  | failedRow err => Some err
  | driverRow _ => None
  end.

(** [Executor], over contexts [C] and the application's state [S]. *)
Record Executor `{Pgx} (C S : Type) : Type := {
  x_Exec : C -> string -> list any -> S -> outcome (CommandTag * option goerror) * S;
  x_Query : C -> string -> list any -> S -> outcome (option DriverRows * option goerror) * S;
  x_QueryRow : C -> string -> list any -> S -> outcome Row * S
}.
Arguments x_Exec {H C S} _ _ _ _ _.
Arguments x_Query {H C S} _ _ _ _ _.
Arguments x_QueryRow {H C S} _ _ _ _ _.

(** [containsQueryRewriter]: the loop returns at the first argument that
    implements the interface. *)
Fixpoint containsQueryRewriter (arguments : list any) : bool :=
  match arguments with
  | [] => false
  | argument :: arguments' =>
      match argument with
      | Some d => if implements_QueryRewriter (dyn_impl d) then true else containsQueryRewriter arguments'
      | None => containsQueryRewriter arguments'
      end
  end.

(** [isNil]. *)
Definition isNil {A} (value : iface A) : bool :=
  match value with
  | None => true
  | Some reflected => if nillable (dyn_kind reflected) then dyn_nil reflected else false
  end.

(** ** Traces *)
Inductive operation : Set := OpExec | OpQuery | OpQueryRow.

Inductive DBCall : Set :=
| DValidate (sql : string) (result : outcome (option goerror))
| DPrepare (sql : string) (result : outcome (Prepared * option goerror))
| DValidatePrepared (prepared : Prepared) (result : outcome (option goerror))
| DExecute (op : operation) (sql : string) (args : list any).

(** The application's state, the calls made so far and the guard's own memory. *)
Record DBWorld (S K : Type) : Type := MkDB { db_app : S; db_calls : list DBCall; db_cache : K }.
Arguments MkDB {S K} _ _ _.
Arguments db_app {S K} _.
Arguments db_calls {S K} _.
Arguments db_cache {S K} _.

Definition dcall {S K A} (record : outcome A -> DBCall) (f : S -> outcome A * S) : M (DBWorld S K) A :=
  fun w => let '(r, s) := f (db_app w) in
  (r, {| db_app := s; db_calls := db_calls w ++ [record r]; db_cache := db_cache w |}).

(** One operation of an application on a guard. *)
Record request (C : Type) : Type := Request { req_op : operation; req_ctx : C; req_sql : string; req_args : list any }.
Arguments Request {C} _ _ _ _.
Arguments req_op {C} _.
Arguments req_ctx {C} _.
Arguments req_sql {C} _.
Arguments req_args {C} _.

(** ** Lemmas *)
Lemma isNil_live {A} (v : iface A) : isNil v = false <-> live v.
Proof. destruct v as [d|]; [apply reflect_nil_live | split; [done | intros []%not_live_nil]]. Qed.

(** Which arguments are refused. *)
Definition rewriter (a : any) : Prop := exists d, a = Some d /\ implements_QueryRewriter (dyn_impl d) = true.

Lemma containsQueryRewriter_spec args : containsQueryRewriter args = true <-> Exists rewriter args.
Proof.
  induction args as [|[d|] args IH]; cbn.
  - by rewrite Exists_nil.
  - rewrite Exists_cons. unfold rewriter at 1. destruct (implements_QueryRewriter (dyn_impl d)) eqn:Hd.
    + split; [|done]. intros _. left. eauto.
    + rewrite IH. split; [by right|]. intros [(d' & [= <-] & H)|H]; [congruence | done].
  - rewrite Exists_cons, IH. split; [by right|]. by intros [(d' & [=] & _)|H].
Qed.

Lemma containsQueryRewriter_false args : containsQueryRewriter args = false <-> ~ Exists rewriter args.
Proof. rewrite <- containsQueryRewriter_spec. by destruct (containsQueryRewriter args). Qed.

Lemma bind_dcall {S K A B} (record : outcome A -> DBCall) (f : S -> outcome A * S) (k : A -> M (DBWorld S K) B) w :
  (dcall record f ≫= k) w =
  match f (db_app w) with
  | (Ret a, s) => k a {| db_app := s; db_calls := db_calls w ++ [record (Ret a)]; db_cache := db_cache w |}
  | (Panic v, s) => (Panic v, {| db_app := s; db_calls := db_calls w ++ [record (Panic v)]; db_cache := db_cache w |})
  end.
Proof. unfold mbind, M_bind, dcall. by destruct (f (db_app w)) as [[a|v] s]. Qed.

Lemma dcall_run {S K A} (record : outcome A -> DBCall) (f : S -> outcome A * S) (w : DBWorld S K) :
  dcall record f w =
  ((f (db_app w)).1,
   {| db_app := (f (db_app w)).2; db_calls := db_calls w ++ [record (f (db_app w)).1]; db_cache := db_cache w |}).
Proof. unfold dcall. by destruct (f (db_app w)). Qed.

Arguments dcall : simpl never.
