(* ===== verification/PgxGuard.v ===== *)
(** * The direct guard: example/pgx/guarded.go *)
From stdpp Require Import base strings list.
From S2P Require Import Prelude.
From S2P Require Import GoRuntime.
From S2P Require Import Nodes.
From S2P Require Import PgQuery.
From S2P Require Import Engine.
From S2P Require Import Pgx.

Definition errNilValidator : goerror := ErrorString "errNilValidator" "sqlguard pgx example: validator must not be nil".
Definition errNilExecutor : goerror := ErrorString "errNilExecutor" "sqlguard pgx example: executor must not be nil".
Definition ErrQueryRewriterUnsupported : goerror :=
  ErrorString "ErrQueryRewriterUnsupported" "sqlguard pgx example: query rewriting is unsupported".

Section PgxGuard.
Context `{PX : Pgx} {C S : Type}.
#[local] Abbreviation W := (DBWorld S unit).

(** validator.go: the [Validator] interface. *)
Record Validator : Type := { v_Validate : C -> string -> S -> outcome (option goerror) * S }.

(** [GuardedDB]. *)
Record GuardedDB : Type := { db_validator : iface Validator; db_executor : iface (Executor C S) }.

(** [NewGuardedDB]. *)
Definition NewGuardedDB (validator : iface Validator) (executor : iface (Executor C S)) :
    ptr GuardedDB * option goerror :=
  if isNil validator then (None, Some errNilValidator)
  else if isNil executor then (None, Some errNilExecutor)
  else (Some {| db_validator := validator; db_executor := executor |}, None).

(** [Exec]. *)
Definition Exec (db : GuardedDB) (ctx : C) (sql : string) (arguments : list any) :
    M W (CommandTag * option goerror) :=
  if containsQueryRewriter arguments then mret (CommandTag0, Some ErrQueryRewriterUnsupported)
  else
    err ← invoke (db_validator db) (fun v => dcall (DValidate sql) (v_Validate v ctx sql));
    match err with
    | Some err => mret (CommandTag0, Some err)
    | None => invoke (db_executor db) (fun x => dcall (fun _ => DExecute OpExec sql arguments) (x_Exec x ctx sql arguments))
    end.

(** [Query]. *)
Definition Query (db : GuardedDB) (ctx : C) (sql : string) (args : list any) :
    M W (option DriverRows * option goerror) :=
  if containsQueryRewriter args then mret (None, Some ErrQueryRewriterUnsupported)
  else
    err ← invoke (db_validator db) (fun v => dcall (DValidate sql) (v_Validate v ctx sql));
    match err with
    | Some err => mret (None, Some err)
    | None => invoke (db_executor db) (fun x => dcall (fun _ => DExecute OpQuery sql args) (x_Query x ctx sql args))
    end.

(** [QueryRow]. *)
Definition QueryRow (db : GuardedDB) (ctx : C) (sql : string) (args : list any) : M W Row :=
  if containsQueryRewriter args then mret (failedRow ErrQueryRewriterUnsupported)
  else
    err ← invoke (db_validator db) (fun v => dcall (DValidate sql) (v_Validate v ctx sql));
    match err with
    | Some err => mret (failedRow err)
    | None => invoke (db_executor db) (fun x => dcall (fun _ => DExecute OpQueryRow sql args) (x_QueryRow x ctx sql args))
    end.

(** ** Specification *)

(** One request: the world it leaves, panics included. *)
Definition serve (db : GuardedDB) (w : W) (r : request C) : W :=
  match req_op r with
  | OpExec => (Exec db (req_ctx r) (req_sql r) (req_args r) w).2
  | OpQuery => (Query db (req_ctx r) (req_sql r) (req_args r) w).2
  | OpQueryRow => (QueryRow db (req_ctx r) (req_sql r) (req_args r) w).2
  end.

Definition serve_all (db : GuardedDB) (w : W) (rs : list (request C)) : W := foldl (serve db) w rs.

(** What a request may call: nothing when an argument could rewrite the SQL, the
    validator alone when it does not accept, and the driver only right after the
    validator returned nil for the same SQL and the request's context. *)
Inductive guarded_request (v : Validator) (r : request C) : list DBCall -> Prop :=
| gr_rewriter : Exists rewriter (req_args r) -> guarded_request v r []
| gr_refused res s :
    ~ Exists rewriter (req_args r) -> (v_Validate v (req_ctx r) (req_sql r) s).1 = res -> res <> Ret None ->
    guarded_request v r [DValidate (req_sql r) res]
| gr_executed s :
    ~ Exists rewriter (req_args r) -> (v_Validate v (req_ctx r) (req_sql r) s).1 = Ret None ->
    guarded_request v r [DValidate (req_sql r) (Ret None); DExecute (req_op r) (req_sql r) (req_args r)].

(** ** Lemmas *)
Lemma NewGuardedDB_ok v x db err :
  NewGuardedDB v x = (Some db, err) ->
  err = None /\ db = {| db_validator := v; db_executor := x |} /\ live v /\ live x.
Proof.
  unfold NewGuardedDB. destruct (isNil v) eqn:Hv; [done|]. destruct (isNil x) eqn:Hx; [done|].
  apply isNil_live in Hv, Hx. by intros [= <- <-].
Qed.

Lemma serve_guarded db v r w :
  db_validator db = Some v -> live (db_executor db) ->
  exists t, db_calls (serve db w r) = db_calls w ++ t /\ guarded_request (dyn_impl v) r t.
Proof.
  intros Hv (x & Hx & _). unfold serve, Exec, Query, QueryRow.
  destruct (containsQueryRewriter (req_args r)) eqn:Hr.
  - apply containsQueryRewriter_spec in Hr. exists []. rewrite app_nil_r. split; [by destruct (req_op r) | by constructor].
  - apply containsQueryRewriter_false in Hr. rewrite Hv, Hx. cbn [invoke].
    destruct r as [op ctx sql args]; destruct op; cbn in *; rewrite bind_dcall;
      destruct (v_Validate _ _ _ _) as [[[err|]|pv] s] eqn:Hval; cbn;
      try (eexists; split; [reflexivity|]; apply (gr_refused _ (Request _ ctx sql args) _ (db_app w)); cbn; [done | by rewrite Hval | done]).
    all: rewrite dcall_run; cbn; rewrite <- app_assoc; eexists; (split; [reflexivity|]).
    all: apply (gr_executed _ (Request _ ctx sql args) (db_app w)); cbn; [done | by rewrite Hval].
Qed.

Lemma serve_all_guarded db v rs w :
  db_validator db = Some v -> live (db_executor db) ->
  exists ts, Forall2 (guarded_request (dyn_impl v)) rs ts /\ db_calls (serve_all db w rs) = db_calls w ++ concat ts.
Proof.
  intros Hv Hx. revert w. induction rs as [|r rs IH]; intros w.
  - exists []. split; [constructor|]. by rewrite app_nil_r.
  - destruct (serve_guarded db v r w Hv Hx) as (t & Ht & Hg). destruct (IH (serve db w r)) as (ts & Hts & Hcalls).
    exists (t :: ts). split; [by constructor|]. unfold serve_all in *. cbn. by rewrite Hcalls, Ht, <- app_assoc.
Qed.

(** ** Properties *)

(** Whatever requests an application makes, panics included, each of them
    makes only the calls of [guarded_request]: the driver never sees SQL for which
    the validator did not return nil immediately before, nor arguments that could
    rewrite it. *)
Theorem guarded_executor v x db rs w :
  NewGuardedDB (Some v) x = (Some db, None) ->
  exists ts, Forall2 (guarded_request (dyn_impl v)) rs ts /\ db_calls (serve_all db w rs) = db_calls w ++ concat ts.
Proof. intros (_ & -> & _ & Hx)%NewGuardedDB_ok. by apply serve_all_guarded. Qed.

(** A refusal reaches the caller unchanged through each operation and the
    driver is not called: the validator's error as it is, the zero command tag or
    nil rows beside it, and from [QueryRow] a row whose [Scan] returns it. *)
Theorem guarded_refusal db ctx sql args w e :
  (Exists rewriter args /\ e = ErrQueryRewriterUnsupported \/
   ~ Exists rewriter args /\ exists v s, db_validator db = Some v /\
     v_Validate (dyn_impl v) ctx sql (db_app w) = (Ret (Some e), s)) ->
  exists w', Exec db ctx sql args w = (Ret (CommandTag0, Some e), w') /\
    Query db ctx sql args w = (Ret (None, Some e), w') /\
    (exists row, QueryRow db ctx sql args w = (Ret row, w') /\ Scan row = Some e) /\
    Forall (fun c => forall op, c <> DExecute op sql args) (drop (length (db_calls w)) (db_calls w')).
Proof.
  unfold Exec, Query, QueryRow. intros [[Hr%containsQueryRewriter_spec ->]|[Hr%containsQueryRewriter_false (v & s & Hv & Hval)]].
  - rewrite Hr. exists w. split; [done|]. split; [done|]. split; [by eexists|]. by rewrite drop_all.
  - rewrite Hr, Hv. cbn [invoke]. rewrite !bind_dcall, Hval. cbn. eexists. split; [done|]. split; [done|].
    split; [by eexists|]. cbn. rewrite drop_app_length. by repeat constructor.
Qed.

(** [NewGuardedDB] accepts exactly non-nil collaborators, interfaces that hold
    a typed nil included among the refused. *)
Theorem NewGuardedDB_accepts v x :
  (exists db, NewGuardedDB v x = (Some db, None)) <-> live v /\ live x.
Proof.
  unfold NewGuardedDB. rewrite <- !isNil_live. split.
  - intros (db & H). destruct (isNil v); [done|]. by destruct (isNil x).
  - intros [-> ->]. by eexists.
Qed.
End PgxGuard.
