(* ===== verification/PgxPrepared.v ===== *)
(** * The caching guard: example/pgx-prepared/guarded.go

    The guard keeps prepared values in a fixed-capacity LRU cache of
    hashicorp/golang-lru, code outside the repository: [LRU] holds its operations
    and [LRULaws] their documented behaviour.  The cache lives in the world, as the
    Go value is shared by pointer. *)
From stdpp Require Import base strings list.
From S2P Require Import Prelude.
From S2P Require Import GoRuntime.
From S2P Require Import Nodes.
From S2P Require Import PgQuery.
From S2P Require Import Engine.
From S2P Require Import Pgx.

(** ** golang-lru *)

(** [lookup] reads an entry without touching its recency; it is not a method the
    code calls. *)
Class LRU (V : Type) : Type := {
  Cache : Type;
  lru_New : Z -> option Cache;                     (** None: an error *)
  lru_Get : Cache -> string -> option V * Cache;
  lru_Add : Cache -> string -> V -> Cache;
  lookup_entry : Cache -> string -> option V;
  lru_Len : Cache -> nat;
  lru_Cap : Cache -> nat
}.

(** Get returns what is stored and changes no entry; Add stores the entry, may
    evict others and keeps the length within the capacity. *)
Class LRULaws {V} (L : LRU V) : Prop := {
  lru_New_spec n c : lru_New n = Some c -> lru_Cap c = Z.to_nat n /\ lru_Len c = 0 /\ forall k, lookup_entry c k = None;
  lru_New_positive n : (0 < n)%Z -> lru_New n <> None;
  lru_Get_spec c k :
    (lru_Get c k).1 = lookup_entry c k /\ (forall k', lookup_entry (lru_Get c k).2 k' = lookup_entry c k') /\
    lru_Len (lru_Get c k).2 = lru_Len c /\ lru_Cap (lru_Get c k).2 = lru_Cap c;
  lru_Add_spec c k v :
    0 < lru_Cap c ->
    lookup_entry (lru_Add c k v) k = Some v /\
    (forall k' v', k' <> k -> lookup_entry (lru_Add c k v) k' = Some v' -> lookup_entry c k' = Some v') /\
    (lru_Len c <= lru_Cap c -> lru_Len (lru_Add c k v) <= lru_Cap c) /\ lru_Cap (lru_Add c k v) = lru_Cap c
}.

Definition errNilValidator : goerror := ErrorString "errNilValidator" "sqlguard pgx-prepared example: validator must not be nil".
Definition errNilExecutor : goerror := ErrorString "errNilExecutor" "sqlguard pgx-prepared example: executor must not be nil".
Definition errInvalidCapacity : goerror := ErrorString "errInvalidCapacity" "sqlguard pgx-prepared example: cache capacity must be positive".
Definition errInvalidMaxSQLBytes : goerror := ErrorString "errInvalidMaxSQLBytes" "sqlguard pgx-prepared example: maximum SQL bytes must be positive".
Definition ErrQueryRewriterUnsupported : goerror := ErrorString "ErrQueryRewriterUnsupported" "sqlguard pgx-prepared example: query rewriting is unsupported".

(** [isCacheableValidationOutcome]. *)
Definition isCacheableValidationOutcome (err : option goerror) : bool :=
  match err with
  | None => true
  | Some _ => match errors_As as_Violation err with Some _ => true | None => false end
  end.

(** [Scan] of a [failedRow], and what the driver does with its own rows ([None] here). *)
Definition Scan `{Pgx} (row : Row) : option goerror :=
  match row with
  | failedRow err => Some err
  | driverRow _ => None
  end.

(** [containsQueryRewriter] and [isNil]: this package's own copies. *)
Fixpoint containsQueryRewriter (arguments : list any) : bool :=
  match arguments with
  | [] => false
  | argument :: arguments' =>
      match argument with
      | Some d => if implements_QueryRewriter (dyn_impl d) then true else containsQueryRewriter arguments'
      | None => containsQueryRewriter arguments'
      end
  end.

Definition isNil {A} (value : iface A) : bool :=
  match value with
  | None => true
  | Some reflected => if nillable (dyn_kind reflected) then dyn_nil reflected else false
  end.

(** [PreparedValidator]: the interface that [Engine] implements. *)
Record PreparedValidator (C S : Type) : Type := {
  pv_Prepare : C -> string -> S -> outcome (Prepared * option goerror) * S;
  pv_ValidatePrepared : C -> Prepared -> S -> outcome (option goerror) * S
}.
Arguments pv_Prepare {C S} _ _ _ _.
Arguments pv_ValidatePrepared {C S} _ _ _ _.

(** The copies are those of example/pgx. *)
Lemma plain_arguments args : containsQueryRewriter args = false <-> ~ Exists rewriter args.
Proof. exact (containsQueryRewriter_false args). Qed.

Lemma rewriting_arguments args : containsQueryRewriter args = true <-> Exists rewriter args.
Proof. exact (containsQueryRewriter_spec args). Qed.

Lemma collaborator_live {A} (v : iface A) : isNil v = false <-> live v.
Proof. exact (isNil_live v). Qed.

Section PgxPrepared.
Context `{PX : Pgx} `{L : LRU Prepared} {C S : Type}.
#[local] Abbreviation W := (DBWorld S Cache).

(** [CacheOptions] and [GuardedDB]. *)
Record CacheOptions : Type := { Capacity : Z; MaxSQLBytes : Z }.
Record GuardedDB : Type := {
  db_validator : iface (PreparedValidator C S);
  db_executor : iface (Executor C S);
  db_maxSQLBytes : Z
}.

(** [NewGuardedDB], with the cache it allocates. *)
Definition NewGuardedDB (validator : iface (PreparedValidator C S)) (executor : iface (Executor C S))
    (options : CacheOptions) : ptr (GuardedDB * Cache) * option goerror :=
  if isNil validator then (None, Some errNilValidator)
  else if isNil executor then (None, Some errNilExecutor)
  else if bool_decide (Capacity options <= 0)%Z then (None, Some errInvalidCapacity)
  else if bool_decide (MaxSQLBytes options <= 0)%Z then (None, Some errInvalidMaxSQLBytes)
  else
    match lru_New (Capacity options) with
    | None => (None, Some errInvalidCapacity)
    | Some cache =>
        (Some ({| db_validator := validator; db_executor := executor; db_maxSQLBytes := MaxSQLBytes options |}, cache), None)
    end.

(** The cache's methods on the world. *)
Definition cache_Get (sql : string) : M W (option Prepared) := fun w =>
  let '(r, c) := lru_Get (db_cache w) sql in
  (Ret r, {| db_app := db_app w; db_calls := db_calls w; db_cache := c |}).

Definition cache_Add (sql : string) (prepared : Prepared) : M W unit := fun w =>
  (Ret tt, {| db_app := db_app w; db_calls := db_calls w; db_cache := lru_Add (db_cache w) sql prepared |}).

(** [validate]. *)
Definition validate (db : GuardedDB) (ctx : C) (sql : string) : M W (option goerror) :=
  cached ← cache_Get sql;
  match cached with
  | Some prepared =>
      invoke (db_validator db) (fun v => dcall (DValidatePrepared prepared) (pv_ValidatePrepared v ctx prepared))
  | None =>
      prepared ← invoke (db_validator db) (fun v => dcall (DPrepare sql) (pv_Prepare v ctx sql));
      let '(prepared, err) := prepared in
      match err with
      | Some err => mret (Some err)
      | None =>
          err ← invoke (db_validator db) (fun v => dcall (DValidatePrepared prepared) (pv_ValidatePrepared v ctx prepared));
          _ ← (if bool_decide (Z.of_nat (String.length sql) <= db_maxSQLBytes db)%Z && isCacheableValidationOutcome err
               then cache_Add sql prepared else mret tt);
          mret err
      end
  end.

(** [Exec], [Query] and [QueryRow]. *)
Definition Exec (db : GuardedDB) (ctx : C) (sql : string) (arguments : list any) :
    M W (CommandTag * option goerror) :=
  if containsQueryRewriter arguments then mret (CommandTag0, Some ErrQueryRewriterUnsupported)
  else
    err ← validate db ctx sql;
    match err with
    | Some err => mret (CommandTag0, Some err)
    | None => invoke (db_executor db) (fun x => dcall (fun _ => DExecute OpExec sql arguments) (x_Exec x ctx sql arguments))
    end.

Definition Query (db : GuardedDB) (ctx : C) (sql : string) (args : list any) :
    M W (option DriverRows * option goerror) :=
  if containsQueryRewriter args then mret (None, Some ErrQueryRewriterUnsupported)
  else
    err ← validate db ctx sql;
    match err with
    | Some err => mret (None, Some err)
    | None => invoke (db_executor db) (fun x => dcall (fun _ => DExecute OpQuery sql args) (x_Query x ctx sql args))
    end.

Definition QueryRow (db : GuardedDB) (ctx : C) (sql : string) (args : list any) : M W Row :=
  if containsQueryRewriter args then mret (failedRow ErrQueryRewriterUnsupported)
  else
    err ← validate db ctx sql;
    match err with
    | Some err => mret (failedRow err)
    | None => invoke (db_executor db) (fun x => dcall (fun _ => DExecute OpQueryRow sql args) (x_QueryRow x ctx sql args))
    end.

(** One request, and a sequence of them: the world they leave. *)
Definition serve (db : GuardedDB) (w : W) (r : request C) : W :=
  match req_op r with
  | OpExec => (Exec db (req_ctx r) (req_sql r) (req_args r) w).2
  | OpQuery => (Query db (req_ctx r) (req_sql r) (req_args r) w).2
  | OpQueryRow => (QueryRow db (req_ctx r) (req_sql r) (req_args r) w).2
  end.

Definition serve_all (db : GuardedDB) (w : W) (rs : list (request C)) : W := foldl (serve db) w rs.

(** ** Specification *)

(** The value was prepared from this SQL at some point of the trace. *)
Definition prepared_from (v : PreparedValidator C S) (t : list DBCall) (sql : string) (p : Prepared) : Prop :=
  DPrepare sql (Ret (p, None)) ∈ t /\ exists ctx s, (pv_Prepare v ctx sql s).1 = Ret (p, None).

(** The guard's invariant: an entry of the cache is a value prepared from its key,
    the key is no longer than allowed, and the cache within its capacity. *)
Record cache_inv (v : PreparedValidator C S) (db : GuardedDB) (w : W) : Prop := {
  inv_entries sql p : lookup_entry (db_cache w) sql = Some p ->
    prepared_from v (db_calls w) sql p /\ (Z.of_nat (String.length sql) <= db_maxSQLBytes db)%Z;
  inv_capacity : 0 < lru_Cap (db_cache w) /\ lru_Len (db_cache w) <= lru_Cap (db_cache w)
}.

(** The calls of a validation that succeeds, given the calls before it: it ends
    with a nil verdict, under this context, on a value prepared from the SQL. *)
Inductive validated (v : PreparedValidator C S) (before : list DBCall) (ctx : C) (sql : string) : list DBCall -> Prop :=
| validated_cached p s :
    prepared_from v before sql p -> (pv_ValidatePrepared v ctx p s).1 = Ret None ->
    validated v before ctx sql [DValidatePrepared p (Ret None)]
| validated_prepared p s s' :
    (pv_Prepare v ctx sql s).1 = Ret (p, None) -> (pv_ValidatePrepared v ctx p s').1 = Ret None ->
    validated v before ctx sql [DPrepare sql (Ret (p, None)); DValidatePrepared p (Ret None)].

(** The calls of one that does not: no call of the driver among them. *)
Definition no_execution (t : list DBCall) : Prop :=
  Forall (fun c => match c with DExecute _ _ _ => False | _ => True end) t.

(** The calls of a request. *)
Inductive served (v : PreparedValidator C S) (before : list DBCall) (r : request C) : list DBCall -> Prop :=
| served_rewriter : Exists rewriter (req_args r) -> served v before r []
| served_refused t : ~ Exists rewriter (req_args r) -> no_execution t -> served v before r t
| served_executed t :
    ~ Exists rewriter (req_args r) -> validated v before (req_ctx r) (req_sql r) t ->
    served v before r (t ++ [DExecute (req_op r) (req_sql r) (req_args r)]).
End PgxPrepared.

Section PgxPreparedFacts.
Context `{PX : Pgx} `{LL : LRULaws Prepared} {C S : Type}.
Implicit Types (db : GuardedDB (C:=C) (S:=S)) (w : DBWorld S Cache) (ctx : C).

(** ** Lemmas *)
Lemma NewGuardedDB_prepared_ok v x options db c err :
  NewGuardedDB (C:=C) (S:=S) v x options = (Some (db, c), err) ->
  err = None /\ live v /\ live x /\ db = {| db_validator := v; db_executor := x; db_maxSQLBytes := MaxSQLBytes options |} /\
  (0 < Capacity options)%Z /\ lru_New (Capacity options) = Some c.
Proof.
  unfold NewGuardedDB. destruct (isNil v) eqn:Hv; [done|]. destruct (isNil x) eqn:Hx; [done|].
  apply collaborator_live in Hv, Hx. case_bool_decide; [done|]. case_bool_decide; [done|].
  destruct (lru_New _) as [c'|]; [|done]. intros [= <- <- <-]. repeat split; try done; lia.
Qed.

Lemma new_cache_inv pv v x options db c s :
  NewGuardedDB v x options = (Some (db, c), None) ->
  cache_inv pv db {| db_app := s; db_calls := []; db_cache := c |}.
Proof.
  intros (_ & _ & _ & _ & Hpos & Hnew)%NewGuardedDB_prepared_ok.
  destruct (lru_New_spec _ _ Hnew) as (Hcap & Hlen & Hempty). split; cbn.
  - intros sql p. by rewrite Hempty.
  - lia.
Qed.

Lemma inv_extend pv db s s' t t' c :
  cache_inv pv db {| db_app := s; db_calls := t; db_cache := c |} ->
  cache_inv pv db {| db_app := s'; db_calls := t ++ t'; db_cache := c |}.
Proof.
  intros [He Hc]. split; cbn in *; [|done]. intros sql p ([Hp Hs] & Hl)%He. split; [|done].
  split; [|done]. apply elem_of_app. by left.
Qed.

Lemma inv_get pv db s t c sql :
  cache_inv pv db {| db_app := s; db_calls := t; db_cache := c |} ->
  cache_inv pv db {| db_app := s; db_calls := t; db_cache := (lru_Get c sql).2 |}.
Proof.
  intros [He Hc]. destruct (lru_Get_spec c sql) as (_ & Hl & Hlen & Hcap). split; cbn in *.
  - intros k p. rewrite Hl. apply He.
  - by rewrite Hlen, Hcap.
Qed.

Lemma inv_add pv db s t c sql p :
  cache_inv pv db {| db_app := s; db_calls := t; db_cache := c |} ->
  prepared_from pv t sql p -> (Z.of_nat (String.length sql) <= db_maxSQLBytes db)%Z ->
  cache_inv pv db {| db_app := s; db_calls := t; db_cache := lru_Add c sql p |}.
Proof.
  intros [He [Hpos Hlen]] Hp Hl. destruct (lru_Add_spec c sql p Hpos) as (Hnew & Hold & Hcap & Heq). split; cbn in *.
  - intros k q Hk. destruct (decide (k = sql)) as [->|Hne].
    + rewrite Hnew in Hk. by simplify_eq.
    + apply He. by apply Hold.
  - rewrite Heq. auto.
Qed.

Lemma bind_cache_Get {B} sql (k : option Prepared -> M (DBWorld S Cache) B) w :
  (cache_Get sql ≫= k) w =
  k (lru_Get (db_cache w) sql).1
    {| db_app := db_app w; db_calls := db_calls w; db_cache := (lru_Get (db_cache w) sql).2 |}.
Proof. unfold mbind, M_bind, cache_Get. by destruct (lru_Get (db_cache w) sql). Qed.

(** The conditional store at the end of [validate]. *)
Lemma store_run pv db sql p err w :
  cache_inv pv db w -> prepared_from pv (db_calls w) sql p ->
  exists c, ((_ ← (if bool_decide (Z.of_nat (String.length sql) <= db_maxSQLBytes db)%Z && isCacheableValidationOutcome err
                   then cache_Add sql p else mret tt); mret err) : M _ _) w =
      (Ret err, {| db_app := db_app w; db_calls := db_calls w; db_cache := c |}) /\
    cache_inv pv db {| db_app := db_app w; db_calls := db_calls w; db_cache := c |}.
Proof.
  intros Hinv Hp. destruct w as [s t c]. cbn in Hp.
  destruct (bool_decide (Z.of_nat (String.length sql) <= db_maxSQLBytes db)%Z && isCacheableValidationOutcome err) eqn:Hb.
  - apply andb_prop in Hb as [Hb%bool_decide_eq_true _]. eexists. split; [done|]. by apply inv_add.
  - by eexists.
Qed.

(** One validation: its calls, and the invariant. *)
Lemma validate_run db ctx sql w v :
  db_validator db = Some v -> cache_inv (dyn_impl v) db w ->
  exists t, db_calls (validate db ctx sql w).2 = db_calls w ++ t /\ cache_inv (dyn_impl v) db (validate db ctx sql w).2 /\
    no_execution t /\ ((validate db ctx sql w).1 = Ret None -> validated (dyn_impl v) (db_calls w) ctx sql t).
Proof.
  intros Hv Hinv. destruct w as [s calls c]. pose proof (inv_get _ _ _ _ _ sql Hinv) as Hget.
  destruct (lru_Get_spec c sql) as (Hl & _ & _). unfold validate. rewrite Hv.
  rewrite bind_cache_Get. cbn [db_app db_calls db_cache].
  destruct (lru_Get c sql) as [[p|] c']; cbn in Hl, Hget; cbn [fst snd]; cbv beta iota; cbn [invoke].
  - rewrite dcall_run. cbn. eexists. split; [done|]. split; [by eapply inv_extend|]. split; [by repeat constructor|].
    intros Hr. rewrite Hr. apply (validated_cached _ _ _ _ p s); [|done]. by eapply (inv_entries _ _ _ Hinv).
  - rewrite bind_dcall. cbn [db_app db_calls db_cache].
    destruct (pv_Prepare _ _ _ _) as [[[p [err|]]|pv] s1] eqn:Hprep; cbv beta iota.
    1, 3: eexists; split; [done|]; split; [by eapply inv_extend|]; split; [by repeat constructor | done].
    rewrite bind_dcall. cbn [db_app db_calls db_cache].
    destruct (pv_ValidatePrepared _ _ _ _) as [[err|pv] s2] eqn:Hval; cbv beta iota.
    + match goal with |- context [(_ ≫= _) ?w1] => set (w2 := w1) end.
      assert (cache_inv (dyn_impl v) db w2) as Hi by (apply (inv_extend _ _ s1); by eapply inv_extend).
      destruct (store_run (dyn_impl v) db sql p err w2 Hi) as (c2 & Hrun & Hi2).
      { split; [subst w2; cbn; rewrite !elem_of_app; left; right; by left|]. exists ctx, s. by rewrite Hprep. }
      rewrite Hrun. subst w2. cbn in *. rewrite <- app_assoc in *. eexists. split; [done|]. split; [done|].
      split; [by repeat constructor|]. intros [= ->].
      apply (validated_prepared _ _ _ _ p s s1); [by rewrite Hprep | by rewrite Hval].
    + eexists. cbn. rewrite <- app_assoc. split; [done|]. split; [|split; [by repeat constructor|done]].
      by eapply inv_extend.
Qed.

(** A request that validates is followed by the driver's call and nothing else. *)
Lemma serve_run db r w v :
  db_validator db = Some v -> live (db_executor db) -> cache_inv (dyn_impl v) db w ->
  exists t, db_calls (serve db w r) = db_calls w ++ t /\ cache_inv (dyn_impl v) db (serve db w r) /\
    served (dyn_impl v) (db_calls w) r t.
Proof.
  intros Hv (x & Hx & _) Hinv. unfold serve, Exec, Query, QueryRow. rewrite Hx.
  destruct (containsQueryRewriter (req_args r)) eqn:Hr.
  - apply rewriting_arguments in Hr. exists []. rewrite app_nil_r.
    split; [by destruct (req_op r)|]. split; [by destruct (req_op r) | by constructor].
  - apply plain_arguments in Hr.
    destruct (validate_run db (req_ctx r) (req_sql r) w v Hv Hinv) as (t & Ht & Hi & Hno & Hval).
    destruct (validate db (req_ctx r) (req_sql r) w) as [[[err|]|pv] w1] eqn:Hrun; cbn in Ht, Hi, Hval.
    1, 3: exists t; first [rewrite !(bind_Ret _ _ _ _ _ Hrun) | rewrite !(bind_Panic _ _ _ _ _ Hrun)];
      split; [by destruct (req_op r)|]; (split; [by destruct (req_op r) | by constructor]).
    rewrite !(bind_Ret _ _ _ _ _ Hrun). cbn [invoke]. rewrite !dcall_run.
    exists (t ++ [DExecute (req_op r) (req_sql r) (req_args r)]).
    assert (forall s', cache_inv (dyn_impl v) db {| db_app := s';
      db_calls := db_calls w1 ++ [DExecute (req_op r) (req_sql r) (req_args r)]; db_cache := db_cache w1 |}) as Hi2
      by (intros s'; destruct w1; by eapply inv_extend).
    rewrite app_assoc, <- Ht. destruct (req_op r) eqn:Hop; cbn; (split; [done|]; split; [apply Hi2|]);
      rewrite <- Hop; apply served_executed; auto.
Qed.

(** Sequences of requests, each in the world the previous one left. *)
Inductive served_all (v : PreparedValidator C S) : list DBCall -> list (request C) -> list DBCall -> Prop :=
| sa_nil before : served_all v before [] []
| sa_cons before r t rs ts :
    served v before r t -> served_all v (before ++ t) rs ts -> served_all v before (r :: rs) (t ++ ts).

Lemma serve_all_run db rs w v :
  db_validator db = Some v -> live (db_executor db) -> cache_inv (dyn_impl v) db w ->
  exists t, db_calls (serve_all db w rs) = db_calls w ++ t /\ cache_inv (dyn_impl v) db (serve_all db w rs) /\
    served_all (dyn_impl v) (db_calls w) rs t.
Proof.
  intros Hv Hx. revert w. induction rs as [|r rs IH]; intros w Hinv.
  - exists []. rewrite app_nil_r. split; [done|]. split; [done | constructor].
  - destruct (serve_run db r w v Hv Hx Hinv) as (t & Ht & Hi & Hs).
    destruct (IH _ Hi) as (ts & Hts & His & Hss). exists (t ++ ts). unfold serve_all in *. cbn.
    rewrite Hts, Ht, <- app_assoc. split; [done|]. split; [done|]. constructor; [done|]. by rewrite <- Ht.
Qed.

(** ** Properties *)

(** Whatever requests an application makes of a guard from [NewGuardedDB], the
    driver is called only right after [ValidatePrepared] returned nil, under the
    request's own context, on a value that was prepared from the request's SQL, in
    this request or, when cached, in an earlier one.  A request whose arguments
    could rewrite the SQL makes no call at all. *)
Theorem prepared_executor_guarded v x options db c s rs :
  NewGuardedDB (Some v) x options = (Some (db, c), None) ->
  served_all (dyn_impl v) [] rs (db_calls (serve_all db {| db_app := s; db_calls := []; db_cache := c |} rs)).
Proof.
  intros Hnew. pose proof (new_cache_inv (dyn_impl v) _ _ _ _ _ s Hnew) as Hinv.
  apply NewGuardedDB_prepared_ok in Hnew as (_ & _ & Hx & -> & _).
  by destruct (serve_all_run {| db_validator := Some v; db_executor := x; db_maxSQLBytes := MaxSQLBytes options |}
    rs _ v eq_refl Hx Hinv) as (t & -> & _ & Hs).
Qed.

(** The cache invariant: after any requests the cache is within its capacity,
    and every entry is a value that the validator prepared from exactly its key,
    which is no longer than the configured bound. *)
Theorem cache_invariant v x options db c s rs :
  NewGuardedDB (Some v) x options = (Some (db, c), None) ->
  let w := serve_all db {| db_app := s; db_calls := []; db_cache := c |} rs in
  lru_Len (db_cache w) <= lru_Cap (db_cache w) /\
  forall sql p, lookup_entry (db_cache w) sql = Some p ->
    (Z.of_nat (String.length sql) <= MaxSQLBytes options)%Z /\
    DPrepare sql (Ret (p, None)) ∈ db_calls w /\ exists ctx s, (pv_Prepare (dyn_impl v) ctx sql s).1 = Ret (p, None).
Proof.
  intros Hnew w. pose proof (new_cache_inv (dyn_impl v) _ _ _ _ _ s Hnew) as Hinv.
  apply NewGuardedDB_prepared_ok in Hnew as (_ & _ & Hx & -> & _).
  destruct (serve_all_run {| db_validator := Some v; db_executor := x; db_maxSQLBytes := MaxSQLBytes options |}
    rs _ v eq_refl Hx Hinv) as (t & _ & [He [_ Hc]] & _).
  split; [exact Hc|]. intros sql p Hp. by destruct (He sql p Hp) as ((H1 & H2) & H3).
Qed.

(** [NewGuardedDB] accepts exactly non-nil collaborators and positive limits,
    and starts with an empty cache of the requested capacity. *)
Theorem NewGuardedDB_prepared_accepts v x options :
  ((exists r, NewGuardedDB (C:=C) (S:=S) v x options = (Some r, None)) <->
     live v /\ live x /\ (0 < Capacity options)%Z /\ (0 < MaxSQLBytes options)%Z) /\
  forall db c, NewGuardedDB (C:=C) (S:=S) v x options = (Some (db, c), None) ->
    lru_Cap c = Z.to_nat (Capacity options) /\ forall sql, lookup_entry c sql = None.
Proof.
  split.
  - unfold NewGuardedDB. rewrite <- !collaborator_live. pose proof (lru_New_positive (Capacity options)) as Hn. split.
    + intros (r & H). destruct (isNil v); [done|]. destruct (isNil x); [done|].
      case_bool_decide; [done|]. case_bool_decide; [done|]. repeat split; lia.
    + intros (-> & -> & Hc & Hm). rewrite !bool_decide_false by lia.
      destruct (lru_New (Capacity options)); [by eexists | by destruct Hn].
  - intros db c (_ & _ & _ & _ & _ & Hnew)%NewGuardedDB_prepared_ok. by destruct (lru_New_spec _ _ Hnew) as (? & _ & ?).
Qed.
End PgxPreparedFacts.

(** ** The contract of a prepared validator

    What the guard's cache relies on: a value can only be prepared from its SQL,
    and under the contexts of interest both phases are functions of their
    arguments. *)
Class PreparedContract {C S : Type} (v : PreparedValidator C S)
    (prepares : string -> Prepared + goerror) (verdict_of : Prepared -> option goerror) (good : C -> Prop) : Prop := {
  pc_sound ctx sql s p s' : pv_Prepare v ctx sql s = (Ret (p, None), s') -> prepares sql = inl p;
  pc_prepare ctx sql s : good ctx -> exists s', pv_Prepare v ctx sql s =
    (Ret match prepares sql with inl p => (p, None) | inr err => ({| prepared_result := None |}, Some err) end, s');
  pc_validate ctx p s : good ctx -> exists s', pv_ValidatePrepared v ctx p s = (Ret (verdict_of p), s')
}.

(** The verdict without a cache: prepare, then validate. *)
Definition uncached (prepares : string -> Prepared + goerror) (verdict_of : Prepared -> option goerror)
    (sql : string) : option goerror :=
  match prepares sql with
  | inl p => verdict_of p
  | inr err => Some err
  end.

Section Transparency.
Context `{PX : Pgx} `{LL : LRULaws Prepared} {C S : Type}.
Context (v : dynamic (PreparedValidator C S)) (prepares : string -> Prepared + goerror).
Context (verdict_of : Prepared -> option goerror) (good : C -> Prop).
Context `{PC : !PreparedContract (dyn_impl v) prepares verdict_of good}.

Lemma validate_uncached (db : GuardedDB (C:=C) (S:=S)) ctx sql (w : DBWorld S Cache) :
  db_validator db = Some v -> cache_inv (dyn_impl v) db w -> good ctx ->
  (validate db ctx sql w).1 = Ret (uncached prepares verdict_of sql).
Proof.
  intros Hv Hinv Hgood. unfold validate, uncached. rewrite bind_cache_Get, Hv.
  destruct (lru_Get_spec (db_cache w) sql) as (Hl & _).
  destruct (lru_Get (db_cache w) sql) as [[p|] c']; cbn in Hl; cbn [fst snd invoke]; cbv beta iota.
  - destruct (inv_entries _ _ _ Hinv sql p) as ([_ (ctx' & s & Hp)] & _); [done|].
    destruct (pv_Prepare (dyn_impl v) ctx' sql s) as [o s'] eqn:Hprep. cbn in Hp. subst o.
    rewrite (pc_sound _ _ _ _ _ Hprep). rewrite dcall_run. cbn [fst snd db_app].
    by destruct (pc_validate ctx p (db_app w) Hgood) as (s2 & ->).
  - rewrite bind_dcall. cbn [db_app db_calls db_cache]. destruct (pc_prepare ctx sql (db_app w) Hgood) as (s1 & ->).
    destruct (prepares sql) as [p|err]; cbv beta iota; [|done].
    rewrite bind_dcall. cbn [db_app db_calls db_cache]. destruct (pc_validate ctx p s1 Hgood) as (s2 & ->).
    cbv beta iota. by destruct (_ && _).
Qed.
End Transparency.

(** The cache is transparent: after any requests, under any contexts, a
    validation under a good context gives the verdict that preparing and validating
    afresh would give, hit or miss, whatever was evicted. *)
Theorem cache_transparent `{PX : Pgx} `{LL : LRULaws Prepared} {C S : Type} (v : dynamic (PreparedValidator C S))
    prepares verdict_of good `{PC : !PreparedContract (dyn_impl v) prepares verdict_of good} x options db c s rs ctx sql :
  NewGuardedDB (Some v) x options = (Some (db, c), None) -> good ctx ->
  (validate db ctx sql (serve_all db {| db_app := s; db_calls := []; db_cache := c |} rs)).1 =
  Ret (uncached prepares verdict_of sql).
Proof.
  intros Hnew Hgood. pose proof (new_cache_inv (dyn_impl v) _ _ _ _ _ s Hnew) as Hinv.
  apply NewGuardedDB_prepared_ok in Hnew as (_ & _ & Hx & -> & _).
  destruct (serve_all_run {| db_validator := Some v; db_executor := x; db_maxSQLBytes := MaxSQLBytes options |}
    rs _ v eq_refl Hx Hinv) as (t & _ & Hi & _).
  by apply (validate_uncached v prepares verdict_of good).
Qed.
