(* ===== verification/PgxEngine.v ===== *)
(** * The engine behind the guards

    [Engine] implements the validator interfaces of the two pgx examples.  The
    guards' theorems, proved against those interfaces, and the engine's compose to
    what an application relies on: no SQL that violates a selected policy reaches
    the driver, with or without the cache, and the cache never changes a verdict. *)
From stdpp Require Import base strings list gmap relations.
From S2P Require Import Prelude.
From S2P Require Import GoRuntime.
From S2P Require Import Nodes.
From S2P Require Import Traversal.
From S2P Require Import PgQuery.
From S2P Require Import Statements.
From S2P Require Import Errors.
From S2P Require Import RuleContract.
From S2P Require Import Observability.
From S2P Require Import Engine.
From S2P Require Import EngineState.
From S2P Require Import EngineProps.
From S2P Require Import BuiltinRules.
From S2P Require Import Pgx.
From S2P Require Import PgxGuard.
From S2P Require Import PgxPrepared.

Section EngineValidators.
Context {U : Type} `{PQ : PgQuery} (build : Build).
Implicit Types (e : Engine U).

(** The engine pointer as a value of [sqlguard.Validator] and of the example's
    [PreparedValidator]. *)
Definition engine_validator e : dynamic (Validator (C:=Context U) (S:=World U)) :=
  {| dyn_kind := RPointer; dyn_nil := false;
     dyn_impl := {| v_Validate := fun ctx sql => Validate build e ctx sql |} |}.

Definition engine_prepared e : dynamic (PreparedValidator (Context U) (World U)) :=
  {| dyn_kind := RPointer; dyn_nil := false;
     dyn_impl := {| pv_Prepare := fun ctx sql => Prepare build e ctx sql;
                    pv_ValidatePrepared := fun ctx p => ValidatePrepared e ctx p |} |}.

(** What the engine prepares, and the verdict it gives, under a context that is
    never done and rules that decide. *)
Definition engine_prepares (sql : string) : Prepared + goerror :=
  match Parse build sql with
  | (Some r, None) => inl {| prepared_result := Some r |}
  | _ => inr (ParseErrorPtr (Some {| p_category := ParseErrorSyntax |}))
  end.

Definition engine_verdict e (rejects : registeredRule U -> Statement -> bool) (p : Prepared) : option goerror :=
  match prepared_result p with
  | None => Some ErrInvalidPrepared
  | Some r => find_first (rejection rejects) (pairs e r)
  end.

Definition good_context e rejects (ctx : Context U) : Prop :=
  never_done ctx /\ Forall (fun r => decides ctx r (rejects r)) (engine_rules e).

(** The engine honours the contract of the caching guard. *)
#[export] Instance engine_contract e rejects :
  PreparedContract (dyn_impl (engine_prepared e)) engine_prepares (engine_verdict e rejects) (good_context e rejects).
Proof.
  split; cbn.
  - intros ctx sql w p w' [HP Hne]%Prepare_None. unfold engine_prepares. rewrite HP.
    destruct p as [[r|]]; [done | by destruct Hne].
  - intros ctx sql w [Hctx _]. unfold Prepare, engine_prepares. rewrite bind_call.
    destruct (Hctx (user w)) as (u1 & ->). cbv beta iota. rewrite bind_call. cbn [user trace].
    destruct (Parse_shape build sql) as [(r & ->)| ->]; cbv beta iota; rewrite bind_call; cbn [user trace];
      destruct (Hctx u1) as (u2 & ->); cbv beta iota; [by eexists|].
    run_finish u3.
    by eexists.
  - intros ctx [[r|]] w [Hctx Hrules].
    + by apply ValidatePrepared_first.
    + unfold ValidatePrepared, engine_verdict. rewrite bind_call. destruct (Hctx (user w)) as (u1 & ->). cbv beta iota.
      cbn [prepared_result].
      run_finish u3. by eexists.
Qed.

(** The SQL parses, and no statement of it is one that a selected rule looks for. *)
Definition compliant (selection : list builtin) (sql : string) : Prop :=
  exists r, Parse build sql = (Some r, None) /\
    forall top n b, Some top ∈ result_statements r -> rtc cte_of top n -> b ∈ selection -> ~ violates b n.

Section Compliance.
Context (e : Engine U) (selection : list builtin).
Context (built : map reg_rule (engine_rules e) = map constructor selection).

Lemma Validate_compliant ctx sql w :
  (Validate build e ctx sql w).1 = Ret None -> compliant selection sql.
Proof.
  destruct (Validate build e ctx sql w) as [o w'] eqn:Hrun. cbn. intros ->.
  unfold Validate in Hrun. apply M_bind_Ret in Hrun as ([p [perr|]] & w3 & Hp & Hv); [done|].
  apply Prepare_None in Hp as [Hp _]. destruct (builtin_nil_verdict e selection ctx p _ _ built Hv) as (r & Hr & Hall).
  exists r. by rewrite Hp, Hr.
Qed.

Lemma ValidatePrepared_compliant ctx ctx' sql p w w' :
  (Prepare build e ctx sql w).1 = Ret (p, None) -> (ValidatePrepared e ctx' p w').1 = Ret None ->
  compliant selection sql.
Proof.
  destruct (Prepare build e ctx sql w) as [o1 w1] eqn:Hp, (ValidatePrepared e ctx' p w') as [o2 w2] eqn:Hv.
  cbn. intros -> ->. apply Prepare_None in Hp as [Hp _].
  destruct (builtin_nil_verdict e selection ctx' p _ _ built Hv) as (r & Hr & Hall). exists r. by rewrite Hp, Hr.
Qed.

Lemma guarded_request_compliant (r : request (Context U)) t op sql args :
  guarded_request (dyn_impl (engine_validator e)) r t -> DExecute op sql args ∈ t ->
  compliant selection sql /\ ~ Exists rewriter args.
Proof.
  destruct 1 as [|res s Hno _ _|s Hno Hval]; intros Hin.
  - by apply not_elem_of_nil in Hin.
  - by apply list_elem_of_singleton in Hin.
  - apply elem_of_cons in Hin as [[=]|[= -> -> ->]%list_elem_of_singleton].
    split; [exact (Validate_compliant _ _ _ Hval) | done].
Qed.

Lemma validated_compliant before ctx sql t :
  validated (dyn_impl (engine_prepared e)) before ctx sql t -> compliant selection sql.
Proof.
  destruct 1 as [p s [_ (ctx' & s' & Hp)] Hv|p s s' Hp Hv]; exact (ValidatePrepared_compliant _ _ _ _ _ _ Hp Hv).
Qed.

Lemma validated_no_execution before ctx sql t :
  validated (dyn_impl (engine_prepared e)) before ctx sql t -> no_execution t.
Proof. destruct 1; by repeat constructor. Qed.

Lemma served_all_compliant before rs t op sql args :
  served_all (dyn_impl (engine_prepared e)) before rs t -> DExecute op sql args ∈ t ->
  compliant selection sql /\ ~ Exists rewriter args.
Proof.
  assert (forall t', no_execution t' -> DExecute op sql args ∈ t' -> False) as Hno.
  { intros t' Ht' Hin. exact (proj1 (Forall_forall _ _) Ht' _ Hin). }
  induction 1 as [|before r t rs ts Hs _ IH]; intros Hin; [by apply not_elem_of_nil in Hin|].
  apply elem_of_app in Hin as [Hin|Hin]; [|auto].
  destruct Hs as [|t Hr Ht|t Hr Hv].
  - by apply not_elem_of_nil in Hin.
  - by destruct (Hno t).
  - apply elem_of_app in Hin as [Hin|[= -> -> ->]%list_elem_of_singleton].
    + destruct (Hno t); [by eapply validated_no_execution | done].
    + split; [by eapply validated_compliant | done].
Qed.
End Compliance.
End EngineValidators.

(** ** Properties *)

(** C19: end to end, without a cache: an application that sends its queries through
    a guard in front of an engine of built-in rules never makes the driver execute
    SQL that does not parse or that holds, at the top level or in a CTE, a statement
    that a selected rule looks for ([violates]), nor passes it arguments that could rewrite the SQL, whatever the
    contexts, the sinks, the driver and the sequence of requests are. *)
Theorem direct_guard_enforces {U} `{PQ : PgQuery} `{PX : Pgx} build (options : EngineOptions U) selection w e w' x db rs s
    op sql args :
  NewEngine options (map constructor selection) w = (Ret (Some e, None), w') ->
  PgxGuard.NewGuardedDB (Some (engine_validator build e)) x = (Some db, None) ->
  DExecute op sql args ∈ db_calls (PgxGuard.serve_all db {| db_app := s; db_calls := []; db_cache := tt |} rs) ->
  compliant build selection sql /\ ~ Exists rewriter args.
Proof.
  intros (_ & _ & Hsel & _)%NewEngine_ok (_ & -> & _ & Hx)%PgxGuard.NewGuardedDB_ok.
  destruct (serve_all_guarded {| PgxGuard.db_validator := Some (engine_validator build e); PgxGuard.db_executor := x |}
    (engine_validator build e) rs {| db_app := s; db_calls := []; db_cache := tt |} eq_refl Hx) as (ts & Hts & ->).
  cbn [db_calls app]. intros (t & Ht & Hin)%elem_of_concat.
  apply list_elem_of_lookup in Ht as (i & Ht).
  destruct (Forall2_lookup_r _ _ _ _ _ Hts Ht) as (r & _ & Hr). by eapply guarded_request_compliant.
Qed.

(** C1: end to end, with the cache: the same holds of the caching guard, for
    every cache that behaves as documented and every limit, also when the verdict
    came from a value prepared in an earlier request. *)
Theorem caching_guard_enforces {U} `{PQ : PgQuery} `{PX : Pgx} `{LL : LRULaws Prepared} build (options : EngineOptions U)
    selection w e w' x limits db c rs s op sql args :
  NewEngine options (map constructor selection) w = (Ret (Some e, None), w') ->
  PgxPrepared.NewGuardedDB (Some (engine_prepared build e)) x limits = (Some (db, c), None) ->
  DExecute op sql args ∈ db_calls (PgxPrepared.serve_all db {| db_app := s; db_calls := []; db_cache := c |} rs) ->
  compliant build selection sql /\ ~ Exists rewriter args.
Proof.
  intros (_ & _ & Hsel & _)%NewEngine_ok Hnew.
  pose proof (new_cache_inv (dyn_impl (engine_prepared build e)) _ _ _ _ _ s Hnew) as Hinv.
  apply PgxPrepared.NewGuardedDB_prepared_ok in Hnew as (_ & _ & Hx & -> & _).
  destruct (serve_all_run {| db_validator := Some (engine_prepared build e); db_executor := x;
    db_maxSQLBytes := MaxSQLBytes limits |} rs _ (engine_prepared build e) eq_refl Hx Hinv) as (t & -> & _ & Hs).
  intros Hin. eapply served_all_compliant; [exact Hsel | exact Hs | exact Hin].
Qed.

(** C12: with the engine behind it, the caching guard is indistinguishable from
    the engine: after any requests, under a context that is never done and rules that
    decide, its verdict is the one [Engine.Validate] gives. *)
Theorem engine_cache_transparent {U} `{PQ : PgQuery} `{PX : Pgx} `{LL : LRULaws Prepared} build (e : Engine U) rejects x limits
    db c s rs ctx sql w :
  PgxPrepared.NewGuardedDB (Some (engine_prepared build e)) x limits = (Some (db, c), None) ->
  never_done ctx -> Forall (fun r => decides ctx r (rejects r)) (engine_rules e) ->
  (validate db ctx sql (PgxPrepared.serve_all db {| db_app := s; db_calls := []; db_cache := c |} rs)).1 =
  (Validate build e ctx sql w).1.
Proof.
  intros Hnew Hctx Hrules. pose proof (new_cache_inv (dyn_impl (engine_prepared build e)) _ _ _ _ _ s Hnew) as Hinv.
  apply PgxPrepared.NewGuardedDB_prepared_ok in Hnew as (_ & _ & Hx & -> & _).
  destruct (serve_all_run {| db_validator := Some (engine_prepared build e); db_executor := x;
    db_maxSQLBytes := MaxSQLBytes limits |} rs _ (engine_prepared build e) eq_refl Hx Hinv) as (t & _ & Hi & _).
  rewrite (Validate_first build e ctx rejects Hctx Hrules).
  rewrite (validate_uncached (engine_prepared build e) (engine_prepares build) (engine_verdict e rejects) (good_context e rejects))
    by (done || by split).
  unfold uncached, engine_prepares. by destruct (Parse_shape build sql) as [(r & ->)| ->].
Qed.
