(* ===== verification/ListLRU.v ===== *)
(** * A list-based LRU cache

    One instance of the cache interface of PgxPrepared.v, for the examples: the
    entries in order of recency, the most recent first, truncated to the capacity. *)
From stdpp Require Import base strings list.
From S2P Require Import Prelude.
From S2P Require Import Pgx.
From S2P Require Import PgxPrepared.

Record lru (V : Type) : Type := MkLRU { lru_capacity : nat; lru_entries : list (string * V) }.
Arguments MkLRU {V} _ _.
Arguments lru_capacity {V} _.
Arguments lru_entries {V} _.

Section ListLRU.
Context {V : Type}.
Implicit Types (l : list (string * V)) (k : string).

Definition entry k l : option V := find_first (fun p => if decide (p.1 = k) then Some p.2 else None) l.

Fixpoint remove_key k l : list (string * V) :=
  match l with
  | [] => []
  | (k', v) :: l' => if decide (k' = k) then l' else (k', v) :: remove_key k l'
  end.

#[export] Instance list_lru : LRU V := {|
  Cache := lru V;
  lru_New n := if bool_decide (0 < n)%Z then Some (MkLRU (Z.to_nat n) []) else None;
  lru_Get c k :=
    match entry k (lru_entries c) with
    | Some v => (Some v, MkLRU (lru_capacity c) ((k, v) :: remove_key k (lru_entries c)))
    | None => (None, c)
    end;
  lru_Add c k v := MkLRU (lru_capacity c) (take (lru_capacity c) ((k, v) :: remove_key k (lru_entries c)));
  lookup_entry c k := entry k (lru_entries c);
  lru_Len c := length (lru_entries c);
  lru_Cap c := lru_capacity c
|}.

Lemma entry_cons k k' v l : entry k ((k', v) :: l) = if decide (k' = k) then Some v else entry k l.
Proof. unfold entry. cbn. by case_decide. Qed.

Lemma entry_remove k k' l : k' <> k -> entry k' (remove_key k l) = entry k' l.
Proof.
  intros Hne. induction l as [|[k1 v] l IH]; [done|]. cbn [remove_key]. rewrite entry_cons.
  destruct (decide (k1 = k)) as [->|Hk]; [by rewrite decide_False|]. rewrite entry_cons. by rewrite IH.
Qed.

Lemma remove_key_length k v l : entry k l = Some v -> S (length (remove_key k l)) = length l.
Proof.
  induction l as [|[k1 v1] l IH]; [done|]. rewrite entry_cons. cbn [remove_key].
  case_decide; [done|]. intros H'. cbn. by rewrite IH.
Qed.

Lemma entry_take n k v l : entry k (take n l) = Some v -> entry k l = Some v.
Proof.
  revert n. induction l as [|[k1 v1] l IH]; intros [|n]; try done. cbn [take]. rewrite !entry_cons.
  case_decide; [done|]. apply IH.
Qed.

#[local] Arguments entry : simpl never.

#[export] Instance list_lru_laws : LRULaws list_lru.
Proof.
  split; cbn.
  - intros n c. case_bool_decide; [|done]. by intros [= <-].
  - intros n Hn. by rewrite bool_decide_true.
  - intros c k. destruct (entry k (lru_entries c)) as [v|] eqn:He; cbn; [|done].
    split; [done|]. split; [|split; [by eapply remove_key_length | done]].
    intros k'. rewrite entry_cons. case_decide as Hk; [by subst|]. by apply entry_remove.
  - intros c k v Hcap. destruct c as [[|cap] l]; cbn [lru_capacity lru_entries take length] in *; [lia|]. split; [|split; [|split; [|done]]].
    + rewrite entry_cons. by rewrite decide_True.
    + intros k' v' Hne. rewrite entry_cons, decide_False by done. intros H%entry_take. by rewrite entry_remove in H.
    + intros _. rewrite length_take. lia.
Qed.
End ListLRU.
