(* ===== verification/Sizeprobe.v ===== *)
(** * The size probe (internal/testutil/cmd/sizeprobe/main.go)

    The smallest application of the library: an engine of two rules, three queries, a
    panic on any error. *)
From stdpp Require Import base strings list relations.
From S2P Require Import Prelude.
From S2P Require Import GoRuntime.
From S2P Require Import Nodes.
From S2P Require Import Traversal.
From S2P Require Import PgQuery.
From S2P Require Import Errors.
From S2P Require Import RuleContract.
From S2P Require Import Observability.
From S2P Require Import Engine.
From S2P Require Import EngineProps.
From S2P Require Import BuiltinRules.
From S2P Require Import PgxEngine.

Section Sizeprobe.
Context {U : Type} `{PQ : PgQuery} (build : Build).

(** [context.Background()]. *)
Definition Background : Context U := {| Err := fun u => (Ret None, u) |}.

Definition queries : list string := [
  "SELECT account_id FROM accounts WHERE active";
  "UPDATE accounts SET active = false WHERE account_id = 42";
  "DELETE FROM sessions WHERE expired"].

Definition probe_rules : list (iface (Rule U)) := [NewUpdateRequiresWhere; NewDeleteRequiresWhere].

(** The body of the loop; the panic carries the error. *)
Definition probe (engine : Engine U) (query : string) : M (World U) (option unit) :=
  err ← Validate build engine Background query;
  match err with
  | Some err => panic (error_text err)
  | None => mret None
  end.

Definition main : M (World U) unit :=
  created ← NewEngine {| opt_metrics := None; opt_logger := None |} probe_rules;
  match created with
  | (_, Some err) => panic (error_text err)
  | (Some engine, None) => _ ← for_range queries (probe engine); mret tt
  | (None, None) => panic "nil pointer dereference"
  end.

(** ** Properties *)

Lemma Background_never_done : never_done Background.
Proof. intros u. by eexists. Qed.

(** The loop goes through exactly when each query is accepted. *)
Lemma probe_loop (e : Engine U) selection (l : list string) w :
  map reg_rule (engine_rules e) = map constructor selection ->
  ((for_range l (probe e) w).1 = Ret None <-> Forall (compliant build selection) l) /\
  ((for_range l (probe e) w).1 = Ret None \/ exists v, (for_range l (probe e) w).1 = Panic v).
Proof.
  intros Hsel. revert w. induction l as [|query l IH]; intros w; cbn [for_range].
  - split; [split; [by constructor | done] | by left].
  - pose proof (builtin_accepts build e selection Background query w Hsel Background_never_done) as Hacc.
    pose proof (Validate_first build e Background _ Background_never_done
      (builtin_decides Background (user w) _ _ Hsel) query w) as Hres.
    rewrite Forall_cons. unfold compliant at 1. rewrite <- Hacc. clear Hacc.
    destruct (Validate build e Background query w) as [o w'] eqn:Hrun. cbn [fst] in Hres |- *.
    destruct o as [err|v]; [|done].
    assert (probe e query w = match err with Some err => (Panic (error_text err), w') | None => (Ret None, w') end) as Hp.
    { unfold probe. rewrite (bind_Ret _ _ _ _ _ Hrun). by destruct err. }
    destruct err as [err|].
    + rewrite (bind_Panic _ _ _ _ _ Hp). cbn. split; [split; [done | by intros [[=] _]] | right; by eexists].
    + rewrite (bind_Ret _ _ _ _ _ Hp). destruct (IH w') as [Hiff Hor]. split; [|done]. rewrite Hiff. naive_solver.
Qed.

(** The probe ends without a panic exactly when its three queries comply with its two
    rules; in every other case it panics. *)
Theorem probe_exact (w : World U) :
  ((main w).1 = Ret tt <->
   Forall (compliant build [UpdateRequiresWhere; DeleteRequiresWhere]) queries) /\
  ((main w).1 = Ret tt \/ exists v, (main w).1 = Panic v).
Proof.
  destruct (builtin_selection_accepted {| opt_metrics := None; opt_logger := None |}
    [UpdateRequiresWhere; DeleteRequiresWhere] w) as (e & Hrun & Hsel); [done|done|by apply (bool_decide_unpack _)|].
  change (map constructor [UpdateRequiresWhere; DeleteRequiresWhere]) with probe_rules in Hrun.
  unfold main. destruct (NewEngine {| opt_metrics := None; opt_logger := None |} probe_rules w)
    as [o w'] eqn:Hne. cbn in Hrun. subst o. rewrite (bind_Ret _ _ _ _ _ Hne).
  destruct (probe_loop e _ queries w' Hsel) as [Hiff Hor]. rewrite <- Hiff.
  destruct (for_range queries (probe e) w') as [[[[]|]|v] w''] eqn:Hloop; cbn in *.
  - destruct Hor as [|[v [=]]]; done.
  - rewrite (bind_Ret _ _ _ _ _ Hloop). cbn. split; [done | by left].
  - rewrite (bind_Panic _ _ _ _ _ Hloop). cbn. split; [done | right; by eexists].
Qed.
End Sizeprobe.
