(* ===== verification/Prog.v ===== *)
(** * Computations as trees of calls

    The monad [M] runs a whole operation at once.  Here the same operations are trees: a
    tree is finished, or it waits for the answer of one call of application code.  Trees
    can be interleaved on a shared state, call by call; [denote] runs a tree at once, and
    [sim] relates trees over different states that make the same calls. *)
From stdpp Require Import base strings list relations.
From S2P Require Import Prelude.
From S2P Require Import GoRuntime.
From S2P Require Import Observability.
From S2P Require Import RuleContract.
From S2P Require Import Statements.
From S2P Require Import Engine.

(** What a tree waits for: the call, what the application does with the shared state, and
    what follows each answer. *)
Inductive prog (U R : Type) : Type :=
| Finished (r : outcome R)
| Calling {A : Type} (record : outcome A -> Call) (f : U -> outcome A * U) (k : outcome A -> prog U R).
Arguments Finished {U R} _.
Arguments Calling {U R A} _ _ _.

Fixpoint prog_bind {U A B} (m : prog U A) (k : A -> prog U B) : prog U B :=
  match m with
  | Finished (Ret a) => k a
  | Finished (Panic v) => Finished (Panic v)
  | Calling record f c => Calling record f (fun o => prog_bind (c o) k)
  end.

#[export] Instance prog_ret {U} : MRet (prog U) := fun A a => Finished (Ret a).
#[export] Instance prog_mbind {U} : MBind (prog U) := fun A B k m => prog_bind m k.

Definition prog_panic {U A} (v : string) : prog U A := Finished (Panic v).

Definition prog_call {U A} (record : outcome A -> Call) (f : U -> outcome A * U) : prog U A :=
  Calling record f Finished.

Fixpoint prog_recover {U} (m : prog U unit) : prog U unit :=
  match m with
  | Finished _ => Finished (Ret tt)
  | Calling record f c => Calling record f (fun o => prog_recover (c o))
  end.

Fixpoint prog_for_range {U X R} (l : list X) (body : X -> prog U (option R)) : prog U (option R) :=
  match l with
  | [] => mret None
  | x :: l' =>
      r ← body x;
      match r with
      | Some v => mret (Some v)
      | None => prog_for_range l' body
      end
  end.

Definition prog_invoke {U A B} (v : iface A) (m : A -> prog U B) : prog U B :=
  match v with
  | None => prog_panic "nil pointer dereference"
  | Some d => m (dyn_impl d)
  end.

(** ** Running a tree at once *)
Fixpoint denote {U R} (p : prog U R) : M (World U) R :=
  match p with
  | Finished r => fun w => (r, w)
  | Calling record f k => fun w =>
      let '(o, u) := f (user w) in denote (k o) {| user := u; trace := trace w ++ [record o] |}
  end.

Lemma denote_bind {U A B} (m : prog U A) (k : A -> prog U B) :
  denote (m ≫= k) ≡ (denote m ≫= fun a => denote (k a)).
Proof.
  intros w. revert w. unfold mbind at 1, prog_mbind.
  induction m as [[a|v]|X record f c IH]; intros w; [done|done|]. cbn.
  unfold mbind, M_bind. cbn. destruct (f (user w)) as [o u]. by rewrite IH.
Qed.

Lemma denote_call {U A} (record : outcome A -> Call) (f : U -> outcome A * U) :
  denote (prog_call record f) ≡ call record f.
Proof. intros w. unfold call. cbn. by destruct (f (user w)). Qed.

Lemma denote_recover {U} (m : prog U unit) : denote (prog_recover m) ≡ recover (denote m).
Proof.
  intros w. revert w. induction m as [[[]|v]|X record f c IH]; intros w; [done|done|]. cbn.
  unfold recover. cbn. destruct (f (user w)) as [o u]. by rewrite IH.
Qed.

Lemma denote_for_range {U X R} (l : list X) (body : X -> prog U (option R)) :
  denote (prog_for_range l body) ≡ for_range l (fun x => denote (body x)).
Proof.
  induction l as [|x l IH]; [done|]. cbn [prog_for_range for_range]. rewrite denote_bind.
  apply M_bind_proper; [|done]. intros [v|]; [done | apply IH].
Qed.

Lemma denote_invoke {U A B} (v : iface A) (m : A -> prog U B) (m' : A -> M (World U) B) :
  (forall a, denote (m a) ≡ m' a) -> denote (prog_invoke v m) ≡ invoke v m'.
Proof. intros H. destruct v as [d|]; [apply H | done]. Qed.

(** ** Following a tree

    [follow p us] lets [p] make its calls on the states [us], one each, whatever happened
    to the state in between: what is left of the tree, and the calls made.  A finished
    tree makes none. *)
Fixpoint follow {U R} (p : prog U R) (us : list U) {struct us} : option (prog U R * list Call) :=
  match us with
  | [] => Some (p, [])
  | u :: us' =>
      match p with
      | Finished _ => None
      | Calling record f k =>
          let o := (f u).1 in
          match follow (k o) us' with
          | Some (q, t) => Some (q, record o :: t)
          | None => None
          end
      end
  end.

Lemma follow_app {U R} (p q r : prog U R) us us' t t' :
  follow p us = Some (q, t) -> follow q us' = Some (r, t') -> follow p (us ++ us') = Some (r, t ++ t').
Proof.
  revert p t. induction us as [|u us IH]; intros p t Hp Hq; cbn [follow app] in *.
  { injection Hp as -> <-. exact Hq. }
  destruct p as [|A record f k]; [done|]. cbv zeta in *.
  destruct (follow (k (f u).1) us) as [[q' t1]|] eqn:Hk; [|done]. simplify_eq. by rewrite (IH _ _ Hk Hq).
Qed.

Lemma follow_length {U R} (p q : prog U R) us t : follow p us = Some (q, t) -> length us = length t.
Proof.
  revert p t. induction us as [|u us IH]; intros p t Hp; cbn in *; [by simplify_eq|].
  destruct p as [|A record f k]; [done|].
  destruct (follow (k (f u).1) us) as [[q' t1]|] eqn:Hk; [|done]. simplify_eq. cbn. by rewrite (IH _ _ Hk).
Qed.

(** Every tree comes to an end when it is left alone. *)
Lemma follow_completes {U R} (p : prog U R) (u : U) : exists us t o, follow p us = Some (Finished o, t).
Proof.
  induction p as [o|A record f k IH]; [by exists [], [], o|].
  destruct (IH (f u).1) as (us & t & o & Hp). exists (u :: us), (record (f u).1 :: t), o. cbn. by rewrite Hp.
Qed.

(** ** Replaying a tree

    A call that takes the state it works on from a list, and leaves the rest; a call whose
    answer does not depend on the state takes none.  On the empty
    list a call finds the state [d]. *)
Definition replay {U A} (d : U) (f : U -> outcome A * U) (us : list U) : outcome A * list U :=
  match us with
  | u :: us' => ((f u).1, us')
  | [] => ((f d).1, [])
  end.

Section simulation.
Context {U : Type} (d : U).

Inductive sim {R} : prog U R -> prog (list U) R -> Prop :=
| sim_finished o : sim (Finished o) (Finished o)
| sim_calling A (record : outcome A -> Call) f g k k' :
    (forall us, g us = replay d f us) -> (forall o, sim (k o) (k' o)) ->
    sim (Calling record f k) (Calling record g k')
| sim_constant A (record : outcome A -> Call) f g k k' (o : outcome A) :
    (forall u, (f u).1 = o) -> (forall us, g us = (o, us)) -> sim (k o) (k' o) ->
    sim (Calling record f k) (Calling record g k').

Lemma sim_bind {A B} (m : prog U A) m' (k : A -> prog U B) k' :
  sim m m' -> (forall a, sim (k a) (k' a)) -> sim (m ≫= k) (m' ≫= k').
Proof.
  intros Hm Hk. unfold mbind, prog_mbind. induction Hm as [[a|v]|X record f g c c' Hg Hc IH|X record f g c c' o Hf Hg Hc IH]; cbn.
  - apply Hk.
  - constructor.
  - constructor; [done|]. intros o. apply IH.
  - by eapply sim_constant.
Qed.

Lemma sim_ret {A} (a : A) : sim (mret a) (mret a).
Proof. constructor. Qed.

Lemma sim_call {A} (record : outcome A -> Call) (f : U -> outcome A * U) g :
  (forall us, g us = replay d f us) -> sim (prog_call record f) (prog_call record g).
Proof. intros H. constructor; [done|]. intros o. constructor. Qed.

Lemma sim_recover (m : prog U unit) m' : sim m m' -> sim (prog_recover m) (prog_recover m').
Proof. induction 1; cbn; [constructor|by constructor|by eapply sim_constant]. Qed.

Lemma sim_constant_call {A} (record : outcome A -> Call) (f : U -> outcome A * U) g o :
  (forall u, (f u).1 = o) -> (forall us, g us = (o, us)) -> sim (prog_call record f) (prog_call record g).
Proof. intros Hf Hg. eapply sim_constant; [done..|constructor]. Qed.

Lemma sim_for_range {X R} (l : list X) (body : X -> prog U (option R)) body' :
  (forall x, sim (body x) (body' x)) -> sim (prog_for_range l body) (prog_for_range l body').
Proof.
  intros H. induction l as [|x l IH]; cbn; [apply sim_ret|]. apply sim_bind; [done|].
  intros [v|]; [apply sim_ret | apply IH].
Qed.

(** A tree that was followed to its end is a run on states that it found. *)
Lemma sim_replay {R} (p : prog U R) q us t o :
  sim p q -> follow p us = Some (Finished o, t) ->
  exists us', forall tr rest,
    denote q {| user := us' ++ rest; trace := tr |} = (o, {| user := rest; trace := tr ++ t |}).
Proof.
  intros Hs. revert us t.
  induction Hs as [o'|A record f g k k' Hg Hk IH|A record f g k k' o' Hf Hg Hk IH]; intros us t Hfollow.
  - destruct us; [|done]. cbn in *. simplify_eq. exists []. intros tr rest. by rewrite app_nil_r.
  - destruct us as [|u us]; [done|]. cbn in Hfollow |- *.
    destruct (follow (k (f u).1) us) as [[q t1]|] eqn:Hq; [|done]. simplify_eq.
    destruct (IH _ _ _ Hq) as (us' & Hrun). exists (u :: us'). intros tr rest. rewrite Hg. cbn.
    rewrite Hrun. by rewrite <- app_assoc.
  - destruct us as [|u us]; [done|]. cbn in Hfollow |- *. rewrite Hf in Hfollow.
    destruct (follow (k o') us) as [[q t1]|] eqn:Hq; [|done]. simplify_eq.
    destruct (IH _ _ Hq) as (us' & Hrun). exists us'. intros tr rest. rewrite Hg. cbn.
    rewrite Hrun. by rewrite <- app_assoc.
Qed.
End simulation.

(** ** Pools

    Trees that share a state.  A step is one call of one of them, on the state as it is;
    code that is not in the pool may change the state at any moment. *)
Record pool (U R : Type) : Type := { shared : U; threads : list (prog U R); calls : list (nat * Call) }.
Arguments shared {U R} _.
Arguments threads {U R} _.
Arguments calls {U R} _.

Inductive pool_step {U R} : pool U R -> pool U R -> Prop :=
| step_call s i A (record : outcome A -> Call) f k :
    threads s !! i = Some (Calling record f k) ->
    pool_step s {|
      shared := (f (shared s)).2;
      threads := <[i := k (f (shared s)).1]> (threads s);
      calls := calls s ++ [(i, record (f (shared s)).1)]
    |}
| step_interference s u : pool_step s {| shared := u; threads := threads s; calls := calls s |}.

Definition start {U R} (u : U) (ps : list (prog U R)) : pool U R :=
  {| shared := u; threads := ps; calls := [] |}.

(** The calls of one tree, in order. *)
Definition calls_of {L} (i : nat) (l : list (nat * L)) : list L :=
  flat_map (fun jc => if decide (jc.1 = i) then [jc.2] else []) l.

Lemma calls_of_app {L} i (l l' : list (nat * L)) : calls_of i (l ++ l') = calls_of i l ++ calls_of i l'.
Proof. apply flat_map_app. Qed.

(** Each tree of a pool has been followed, whatever the others did. *)
Lemma pool_follows {U R} (u : U) (ps : list (prog U R)) s :
  rtc pool_step (start u ps) s ->
  length (threads s) = length ps /\
  forall i p, ps !! i = Some p ->
    exists us q, threads s !! i = Some q /\ follow p us = Some (q, calls_of i (calls s)).
Proof.
  revert s. apply rtc_ind_r; [|intros s s' _ Hstep [Hlen IH]].
  - split; [done|]. intros i p Hp. by exists [], p.
  - destruct Hstep as [s j A record f k Hj|s u']; [|done]. cbn. rewrite length_insert. split; [done|].
    intros i p Hp. destruct (IH i p Hp) as (us & q & Hq & Hf).
    rewrite flat_map_app. fold (calls_of i (calls s)). cbn [flat_map fst snd app].
    destruct (decide (j = i)) as [->|Hne].
    + rewrite Hj in Hq. injection Hq as <-. exists (us ++ [shared s]), (k (f (shared s)).1).
      split; [by apply list_lookup_insert_eq, lookup_lt_is_Some; eauto|].
      by eapply follow_app.
    + exists us, q. rewrite app_nil_r. by rewrite list_lookup_insert_ne.
Qed.

(** Tree [i] makes a call: nothing else changes but the state that all share. *)
Definition own_step {U R} (i : nat) (s s' : pool U R) : Prop :=
  pool_step s s' /\ (exists c, calls s' = calls s ++ [(i, c)]) /\
  forall j, j <> i -> threads s' !! j = threads s !! j.

Lemma pool_own_step {U R} (s : pool U R) i A (record : outcome A -> Call) f k :
  threads s !! i = Some (Calling record f k) -> exists s', own_step i s s'.
Proof.
  intros Hi. eexists. split; [by eapply step_call|]. split; [by eexists|].
  intros j Hj. cbn. by rewrite list_lookup_insert_ne.
Qed.

(** Every call is a call of one of the trees: bounds on theirs bound the whole. *)
Lemma sum_calls_of {L} (n : nat) (l : list (nat * L)) :
  Forall (fun jc => jc.1 < n) l -> sum_list (map (fun i => length (calls_of i l)) (seq 0 n)) = length l.
Proof.
  induction 1 as [|[j c] l Hj _ IH]; cbn.
  - induction (seq 0 n) as [|i js IH]; [done|]. cbn. apply IH.
  - rewrite <- IH. clear IH. cbn in Hj.
    assert (forall js, NoDup js ->
      sum_list (map (fun i => length ((if decide (j = i) then [c] else []) ++ calls_of i l)) js) =
      (if decide (j ∈ js) then 1 else 0) + sum_list (map (fun i => length (calls_of i l)) js)) as H.
    { induction 1 as [|i js Hi _ IH]; [done|]. cbn. rewrite length_app, IH.
      destruct (decide (j = i)) as [->|Hne]; cbn.
      - rewrite decide_False by done. rewrite decide_True by left. lia.
      - destruct (decide (j ∈ js)); [rewrite decide_True by (by right)|rewrite decide_False by set_solver]; lia. }
    rewrite H by apply NoDup_seq. rewrite decide_True; [done|]. apply elem_of_seq. lia.
Qed.

Lemma pool_callers {U R} (u : U) (ps : list (prog U R)) s :
  rtc pool_step (start u ps) s -> Forall (fun jc => jc.1 < length ps) (calls s).
Proof.
  revert s.
  enough (forall s, rtc pool_step (start u ps) s ->
    length (threads s) = length ps /\ Forall (fun jc => jc.1 < length ps) (calls s)) as H
    by (intros s Hs; by apply H).
  apply rtc_ind_r; [split; [done|constructor]|]. intros s s' _ Hstep [Hlen IH].
  destruct Hstep as [s j A record f k Hj|s u']; [|done]. cbn. rewrite length_insert. split; [done|].
  apply Forall_app. split; [done|]. apply Forall_singleton. cbn. rewrite <- Hlen. by apply lookup_lt_is_Some; eauto.
Qed.

Lemma pool_calls_bound {U R} (u : U) (ps : list (prog U R)) s (bound : nat -> nat) :
  rtc pool_step (start u ps) s ->
  (forall i, i < length ps -> length (calls_of i (calls s)) <= bound i) ->
  length (calls s) <= sum_list (map bound (seq 0 (length ps))).
Proof.
  intros Hs Hb. rewrite <- (sum_calls_of (length ps) (calls s)) by by eapply pool_callers.
  assert (Forall (fun i => length (calls_of i (calls s)) <= bound i) (seq 0 (length ps))) as H.
  { apply Forall_forall. intros i Hi%elem_of_seq. apply Hb. lia. }
  induction H; cbn; lia.
Qed.
