(* ===== verification/ConcurrentEngine.v ===== *)
(** * Concurrent validations

    One engine is used by many goroutines.  Each of its operations is rewritten as a tree
    of calls ([ValidateP] and its parts, which denote the operations of Engine.v), and a
    pool of validations is interleaved call by call on the shared application state, which
    other code may change at any moment. *)
From stdpp Require Import base strings list relations.
From S2P Require Import Prelude.
From S2P Require Import GoRuntime.
From S2P Require Import Nodes.
From S2P Require Import Traversal.
From S2P Require Import PgQuery.
From S2P Require Import Statements.
From S2P Require Import Errors.
From S2P Require Import RuleContract.
From S2P Require Import Observability.
From S2P Require Import Engine.
From S2P Require Import EngineProps.
From S2P Require Import BuiltinRules.
From S2P Require Import PgxEngine.
From S2P Require Import Prog.

Section trees.
Context {U : Type} `{PQ : PgQuery} (build : Build).

(** ** The operations as trees *)
Definition isolateP (sink : prog U (option goerror)) : prog U unit :=
  prog_recover (_ ← sink; mret tt).

Definition finishP (e : Engine U) (outcome ruleID : string) (result : option goerror) :
    prog U (option goerror) :=
  let event := newValidationEvent ValidationModeEnforce outcome ruleID in
  _ ← match engine_metrics e with
      | None => mret tt
      | Some _ => isolateP
          (prog_invoke (engine_metrics e) (fun m => prog_call (fun _ => CRecord event) (RecordValidation m event)))
      end;
  _ ← match engine_logger e with
      | None => mret tt
      | Some _ => isolateP
          (prog_invoke (engine_logger e) (fun l => prog_call (fun _ => CLog event) (LogValidation l event)))
      end;
  mret result.

Definition PrepareP (e : Engine U) (ctx : Context U) (sql : string) :
    prog U (Prepared * option goerror) :=
  err ← prog_call CErr (Err ctx);
  match err with
  | Some err =>
      r ← finishP e ValidationOutcomeCanceled "" (Some err);
      mret ({| prepared_result := None |}, r)
  | None =>
      parsed ← prog_call (fun _ => CParse sql) (fun u => (Ret (Parse build sql), u));
      let '(result, parseErr) := parsed in
      err ← prog_call CErr (Err ctx);
      match err with
      | Some err =>
          r ← finishP e ValidationOutcomeCanceled "" (Some err);
          mret ({| prepared_result := None |}, r)
      | None =>
          match parseErr with
          | Some _ =>
              r ← finishP e ValidationOutcomeParserFailure "" (translateParserError parseErr);
              mret ({| prepared_result := None |}, r)
          | None => mret ({| prepared_result := result |}, None)
          end
      end
  end.

Definition evaluateP (e : Engine U) (ctx : Context U) (statement : Statement)
    (registration : registeredRule U) : prog U (option (option goerror)) :=
  err ← prog_call CErr (Err ctx);
  match err with
  | Some err =>
      r ← finishP e ValidationOutcomeCanceled "" (Some err);
      mret (Some r)
  | None =>
      result ← prog_invoke (reg_rule registration)
        (fun rule => prog_call (CEvaluate (reg_ruleID registration) statement) (Evaluate rule ctx statement));
      if Rejected result then
        r ← finishP e ValidationOutcomePolicyViolation (reg_ruleID registration)
              (Some (ViolationPtr (newViolation (reg_ruleID registration))));
        mret (Some r)
      else mret None
  end.

Definition ValidatePreparedP (e : Engine U) (ctx : Context U) (prepared : Prepared) :
    prog U (option goerror) :=
  err ← prog_call CErr (Err ctx);
  match err with
  | Some err => finishP e ValidationOutcomeCanceled "" (Some err)
  | None =>
      match prepared_result prepared with
      | None => finishP e ValidationOutcomeInvalidPrepared "" (Some ErrInvalidPrepared)
      | Some result =>
          returned ← prog_for_range (StatementSequence (Some result)) (fun root =>
            let statement := newStatement root in
            prog_for_range (engine_rules e) (evaluateP e ctx statement));
          match returned with
          | Some r => mret r
          | None => finishP e ValidationOutcomeAllowed "" None
          end
      end
  end.

Definition ValidateP (e : Engine U) (ctx : Context U) (sql : string) : prog U (option goerror) :=
  prepared ← PrepareP e ctx sql;
  let '(prepared, err) := prepared in
  match err with
  | Some err => mret (Some err)
  | None => ValidatePreparedP e ctx prepared
  end.

(** ** The trees denote the operations *)
Lemma denote_isolateP sink : denote (isolateP sink) ≡ isolateObservabilityFailure (denote sink).
Proof.
  unfold isolateP, isolateObservabilityFailure. rewrite denote_recover.
  intros w. unfold recover. rewrite (denote_bind _ _ w). reflexivity.
Qed.

Lemma isolate_proper (m m' : M (World U) (option goerror)) :
  m ≡ m' -> isolateObservabilityFailure m ≡ isolateObservabilityFailure m'.
Proof.
  intros H w. unfold isolateObservabilityFailure, recover, mbind, M_bind. by rewrite H.
Qed.

Lemma denote_finishP e outcome ruleID result :
  denote (finishP e outcome ruleID result) ≡ finishValidation e outcome ruleID result.
Proof.
  unfold finishP, finishValidation. rewrite denote_bind.
  apply M_bind_proper; [intros ?; rewrite denote_bind; apply M_bind_proper; [done|]|].
  - destruct (engine_logger e) as [l|]; [|done]. rewrite denote_isolateP.
    apply isolate_proper, denote_invoke. intros ?. apply denote_call.
  - destruct (engine_metrics e) as [m|]; [|done]. rewrite denote_isolateP.
    apply isolate_proper, denote_invoke. intros ?. apply denote_call.
Qed.

Ltac denoting :=
  repeat first
    [ rewrite denote_bind; apply M_bind_proper; [intros ?|]
    | apply denote_call
    | apply denote_finishP
    | apply denote_invoke; intros ?
    | match goal with |- denote (match ?x with _ => _ end) ≡ _ => destruct x end
    | done ].

Lemma denote_PrepareP e ctx sql : denote (PrepareP e ctx sql) ≡ Prepare build e ctx sql.
Proof. unfold PrepareP, Prepare. denoting. Qed.

Lemma denote_evaluateP e ctx s r : denote (evaluateP e ctx s r) ≡ evaluateRule e ctx s r.
Proof. unfold evaluateP, evaluateRule. denoting. Qed.

Lemma denote_loops e ctx (roots : list (ptr Node)) :
  denote (prog_for_range roots (fun root => prog_for_range (engine_rules e) (evaluateP e ctx (newStatement root)))) ≡
  for_range roots (fun root => for_range (engine_rules e) (evaluateRule e ctx (newStatement root))).
Proof.
  rewrite denote_for_range. apply for_range_ext. intros root _. rewrite denote_for_range.
  apply for_range_ext. intros r _. apply denote_evaluateP.
Qed.

Lemma denote_ValidatePreparedP e ctx p : denote (ValidatePreparedP e ctx p) ≡ ValidatePrepared e ctx p.
Proof. unfold ValidatePreparedP, ValidatePrepared. denoting. apply denote_loops. Qed.

Lemma denote_ValidateP e ctx sql : denote (ValidateP e ctx sql) ≡ Validate build e ctx sql.
Proof. unfold ValidateP, Validate. denoting; [apply denote_ValidatePreparedP | apply denote_PrepareP]. Qed.
End trees.

(** ** The same validation on a list of states

    An engine, and a context, whose calls take the shared state from a list: the list of
    the states that a validation finds while others interfere. *)
Definition replay_dynamic {A B} (h : A -> B) (v : iface A) : iface B :=
  match v with
  | None => None
  | Some d => Some {| dyn_kind := dyn_kind d; dyn_nil := dyn_nil d; dyn_impl := h (dyn_impl d) |}
  end.

Section replayed.
Context {U : Type} (d : U).

Definition replay_context (ctx : Context U) : Context (list U) := {| Err := replay d (Err ctx) |}.

(** The rules receive the context of the validation. *)
Definition replay_rule (ctx : Context U) (r : Rule U) : Rule (list U) :=
  {| ID := replay d (ID r); Evaluate _ s := replay d (Evaluate r ctx s) |}.

Definition replay_registered (ctx : Context U) (r : registeredRule U) : registeredRule (list U) :=
  {| reg_ruleID := reg_ruleID r; reg_rule := replay_dynamic (replay_rule ctx) (reg_rule r) |}.

Definition replay_engine (ctx : Context U) (e : Engine U) : Engine (list U) := {|
  engine_rules := map (replay_registered ctx) (engine_rules e);
  engine_metrics :=
    replay_dynamic (fun m => {| RecordValidation ev := replay d (RecordValidation m ev) |}) (engine_metrics e);
  engine_logger :=
    replay_dynamic (fun l => {| LogValidation ev := replay d (LogValidation l ev) |}) (engine_logger e)
|}.
End replayed.

Section replaying.
Context {U : Type} `{PQ : PgQuery} (build : Build) (d : U).
Implicit Types (e : Engine U) (ctx : Context U).

Lemma sim_invoke {A B C} (h : A -> B) (v : iface A) (m : A -> prog U C) m' :
  (forall a, sim d (m a) (m' (h a))) -> sim d (prog_invoke v m) (prog_invoke (replay_dynamic h v) m').
Proof. intros H. destruct v as [x|]; [apply H | constructor]. Qed.

Lemma sim_isolate (sink : prog U (option goerror)) sink' :
  sim d sink sink' -> sim d (isolateP sink) (isolateP sink').
Proof. intros H. apply sim_recover, sim_bind; [done|]. intros _. apply sim_ret. Qed.

Lemma sim_finishP e ctx outcome ruleID result :
  sim d (finishP e outcome ruleID result) (finishP (replay_engine d ctx e) outcome ruleID result).
Proof.
  unfold finishP. apply sim_bind; [|intros _; apply sim_bind; [|intros _; apply sim_ret]];
    cbn [replay_engine engine_metrics engine_logger].
  - destruct (engine_metrics e) as [m|]; [|apply sim_ret]. by apply sim_isolate, sim_call.
  - destruct (engine_logger e) as [l|]; [|apply sim_ret]. by apply sim_isolate, sim_call.
Qed.

(** Calls, ends and terminal emissions, under the matches of the code. *)
Ltac simulate :=
  repeat first
    [ apply sim_finishP
    | apply sim_bind; [|intros ?]
    | by apply sim_call
    | match goal with |- sim _ (prog_call _ (fun u => (?o, u))) _ => by apply (sim_constant_call d _ _ _ o) end
    | apply sim_ret
    | apply sim_invoke; intros ?
    | match goal with |- sim _ (match ?x with _ => _ end) _ => destruct x end ].

Lemma sim_PrepareP e ctx sql :
  sim d (PrepareP build e ctx sql) (PrepareP build (replay_engine d ctx e) (replay_context d ctx) sql).
Proof. unfold PrepareP. simulate. Qed.

Lemma sim_evaluateP e ctx s r :
  sim d (evaluateP e ctx s r) (evaluateP (replay_engine d ctx e) (replay_context d ctx) s (replay_registered d ctx r)).
Proof. unfold evaluateP. cbn [replay_registered reg_rule reg_ruleID]. simulate. Qed.

Lemma sim_for_range_map {X Y R} (h : X -> Y) (l : list X) (body : X -> prog U (option R)) body' :
  (forall x, sim d (body x) (body' (h x))) -> sim d (prog_for_range l body) (prog_for_range (map h l) body').
Proof.
  intros H. induction l as [|x l IH]; cbn; [apply sim_ret|]. apply sim_bind; [done|].
  intros [v|]; [apply sim_ret | apply IH].
Qed.

Lemma sim_ValidatePreparedP e ctx p :
  sim d (ValidatePreparedP e ctx p) (ValidatePreparedP (replay_engine d ctx e) (replay_context d ctx) p).
Proof.
  unfold ValidatePreparedP. simulate.
  apply sim_for_range. intros root. cbn [replay_engine engine_rules]. apply sim_for_range_map.
  intros ?. apply sim_evaluateP.
Qed.

Lemma sim_ValidateP e ctx sql :
  sim d (ValidateP build e ctx sql) (ValidateP build (replay_engine d ctx e) (replay_context d ctx) sql).
Proof.
  unfold ValidateP. apply sim_bind; [apply sim_PrepareP|].
  intros [p [err|]]; [apply sim_ret | apply sim_ValidatePreparedP].
Qed.

(** What others do to the state between the calls of a validation does not matter: its
    calls and its result are those of a run of [Validate] on the states it found. *)
Lemma followed_is_run e ctx sql us t o :
  follow (ValidateP build e ctx sql) us = Some (Finished o, t) ->
  exists us', forall tr rest,
    Validate build (replay_engine d ctx e) (replay_context d ctx) sql {| user := us' ++ rest; trace := tr |} =
    (o, {| user := rest; trace := tr ++ t |}).
Proof.
  intros Hf. destruct (sim_replay d _ _ _ _ _ (sim_ValidateP e ctx sql) Hf) as (us' & Hrun).
  exists us'. intros tr rest. rewrite <- (denote_ValidateP build _ _ _ _). apply Hrun.
Qed.

Lemma replay_live e ctx :
  Forall (fun r => live (reg_rule r)) (engine_rules e) ->
  Forall (fun r => live (reg_rule r)) (engine_rules (replay_engine d ctx e)).
Proof.
  cbn. rewrite Forall_map. intros Hlive. eapply Forall_impl; [exact Hlive|]. intros [id [x|]] (x' & Hd & Hn); [|done].
  cbn in Hd. simplify_eq. by eexists.
Qed.

Lemma replay_pairs e ctx r : map named (pairs (replay_engine d ctx e) r) = map named (pairs e r).
Proof.
  unfold pairs. cbn [replay_engine engine_rules].
  induction (StatementSequence (Some r)) as [|root roots IH]; [done|]. cbn [flat_map].
  rewrite !map_app, IH. f_equal. rewrite !map_map. by apply map_ext.
Qed.

Lemma replay_emits e ctx v : verdict_emits (replay_engine d ctx e) v = verdict_emits e v.
Proof.
  unfold verdict_emits, emits. destruct (verdict_event v); [|done]. cbn.
  by destruct (engine_metrics e), (engine_logger e).
Qed.

Lemma replay_protocol e ctx sql t v :
  validate_protocol build (replay_engine d ctx e) sql t v -> validate_protocol build e sql t v.
Proof.
  intros [t' v' H|r t' v' HP H]; [by apply vp_not_prepared|].
  apply (vp_prepared _ _ _ r); [done|]. fold (@named U).
  change (fun p => (p.1, reg_ruleID p.2)) with (@named (list U)) in H. 
  change (fun p => (p.1, reg_ruleID p.2)) with (@named U).
  by rewrite <- (replay_pairs e ctx).
Qed.

(** A validation followed to its end respects the protocol. *)
Lemma followed_protocol e ctx sql us t o :
  Forall (fun r => live (reg_rule r)) (engine_rules e) ->
  follow (ValidateP build e ctx sql) us = Some (Finished o, t) ->
  exists t' v, validate_protocol build e sql t' v /\ t = t' ++ verdict_emits e v /\ o = verdict_result v.
Proof.
  intros Hlive (us' & Hrun)%followed_is_run. specialize (Hrun [] []).
  destruct (Validate_run build (replay_engine d ctx e) (replay_context d ctx) sql
    {| user := us' ++ []; trace := [] |} (replay_live e ctx Hlive)) as (t' & v & u & Hp & Hv).
  rewrite Hrun in Hv. injection Hv as -> _ ->. exists t', v.
  rewrite replay_emits. split; [by eapply replay_protocol | done].
Qed.
End replaying.

(** ** The verdict and the length of a followed validation *)
Section verdicts.
Context {U : Type} `{PQ : PgQuery} (build : Build).
Implicit Types (e : Engine U) (ctx : Context U).

(** What the rules of an engine reject, by identifier. *)
Definition rejects_by_id {V} e (rejects : registeredRule U -> Statement -> bool) (r' : registeredRule V)
    (s : Statement) : bool :=
  match find_first (fun r => if decide (reg_ruleID r = reg_ruleID r') then Some r else None) (engine_rules e) with
  | Some r => rejects r s
  | None => false
  end.

Lemma rejects_by_id_spec {V} e rejects (r : registeredRule U) (r' : registeredRule V) :
  NoDup (map reg_ruleID (engine_rules e)) -> r ∈ engine_rules e -> reg_ruleID r' = reg_ruleID r ->
  rejects_by_id e rejects r' = rejects r.
Proof.
  intros Hnd Hr Hid. unfold rejects_by_id. rewrite Hid.
  assert (find_first (fun r0 => if decide (reg_ruleID r0 = reg_ruleID r) then Some r0 else None) (engine_rules e)
    = Some r) as ->; [|done].
  revert Hnd Hr. generalize (engine_rules e). induction l as [|r0 l IH]; cbn; [by intros _ ?%not_elem_of_nil|].
  intros [H0 Hnd]%NoDup_cons [->|Hr]%elem_of_cons; [by rewrite decide_True|].
  rewrite decide_False; [by apply IH|]. intros Heq. apply H0. rewrite Heq. by apply list_elem_of_fmap_2.
Qed.

Lemma replay_never_done d ctx : never_done ctx -> never_done (replay_context d ctx).
Proof.
  intros H us. unfold replay_context, replay. cbn.
  destruct us as [|u us]; [destruct (H d) as [u' ->] | destruct (H u) as [u' ->]]; by eexists.
Qed.

Lemma replay_decides d e ctx rejects :
  NoDup (map reg_ruleID (engine_rules e)) ->
  Forall (fun r => decides ctx r (rejects r)) (engine_rules e) ->
  Forall (fun r => decides (replay_context d ctx) r (rejects_by_id e rejects r)) (engine_rules (replay_engine d ctx e)).
Proof.
  intros Hnd Hdec. cbn. rewrite Forall_map, Forall_forall. intros r Hr.
  destruct (proj1 (Forall_forall _ _) Hdec r Hr) as (x & Hx & Hev).
  rewrite (rejects_by_id_spec e rejects r) by done.
  exists {| dyn_kind := dyn_kind x; dyn_nil := dyn_nil x; dyn_impl := replay_rule d ctx (dyn_impl x) |}.
  cbn. rewrite Hx. split; [done|]. intros s us. cbn. unfold replay.
  destruct us as [|u us]; [destruct (Hev s d) as [u' ->] | destruct (Hev s u) as [u' ->]]; by eexists.
Qed.

(** The first rejection of a replayed engine is that of the engine. *)
Lemma replay_first_rejection d e ctx rejects r :
  NoDup (map reg_ruleID (engine_rules e)) ->
  find_first (rejection (rejects_by_id e rejects)) (pairs (replay_engine d ctx e) r) =
  find_first (rejection rejects) (pairs e r).
Proof.
  intros Hnd. unfold pairs. cbn [replay_engine engine_rules].
  induction (StatementSequence (Some r)) as [|root roots IH]; [done|]. cbn [flat_map].
  rewrite !find_first_app, IH.
  assert (forall rs, (forall x, x ∈ rs -> x ∈ engine_rules e) ->
    find_first (rejection (rejects_by_id e rejects)) (map (pair (newStatement root)) (map (replay_registered d ctx) rs)) =
    find_first (rejection rejects) (map (pair (newStatement root)) rs)) as ->; [|done|done].
  induction rs as [|x rs IHrs]; intros Hin; [done|]. cbn. unfold rejection at 1 3. cbn.
  rewrite (rejects_by_id_spec e rejects x) by (done || apply Hin; left).
  destruct (rejects x _); [done|]. apply IHrs. intros y Hy. apply Hin. by right.
Qed.

(** What a followed validation returns is what [Validate] returns when it runs alone. *)
Lemma followed_verdict e ctx sql us t o rejects w :
  NoDup (map reg_ruleID (engine_rules e)) -> never_done ctx ->
  Forall (fun r => decides ctx r (rejects r)) (engine_rules e) ->
  follow (ValidateP build e ctx sql) us = Some (Finished o, t) ->
  o = (Validate build e ctx sql w).1.
Proof.
  intros Hnd Hctx Hdec Hf. destruct (followed_is_run build (user w) e ctx sql us t o Hf) as (us' & Hrun).
  specialize (Hrun [] []).
  pose proof (Validate_first build _ _ _ (replay_never_done (user w) ctx Hctx)
    (replay_decides (user w) e ctx rejects Hnd Hdec) sql {| user := us' ++ []; trace := [] |}) as Hv.
  rewrite Hrun in Hv. cbn [fst] in Hv. rewrite Hv, (Validate_first build e ctx rejects Hctx Hdec).
  f_equal. destruct (Parse build sql) as [[r|] [perr|]]; try done. by apply replay_first_rejection.
Qed.

(** No validation makes more calls than this. *)
Definition validate_bound e (sql : string) : nat :=
  6 + match Parse build sql with (Some r, None) => 2 * length (pairs e r) | _ => 0 end.

Lemma evaluation_length ps t v : evaluation ps t v -> length t <= 2 * length ps.
Proof. induction 1; cbn; lia. Qed.

Lemma emits_length e v : length (verdict_emits e v) <= 2.
Proof.
  unfold verdict_emits, emits. destruct (verdict_event v); cbn; [|lia].
  destruct (engine_metrics e), (engine_logger e); cbn; lia.
Qed.

Lemma protocol_length e sql t v :
  validate_protocol build e sql t v -> length (t ++ verdict_emits e v) <= validate_bound e sql.
Proof.
  intros H. rewrite length_app. pose proof (emits_length e v). unfold validate_bound.
  destruct H as [t v H|r t v HP H].
  - enough (length t <= 3) by lia. destruct H; cbn; lia.
  - rewrite HP, length_app. change (length (prepare_success sql)) with 3.
    pose proof (emits_length e v) as He.
    assert (length t <= S (2 * length (pairs e r))); [|lia].
    destruct H as [| | |l t v [= <-] H]; cbn [length]; [lia..|]. apply evaluation_length in H.
    rewrite length_map in H. lia.
Qed.
End verdicts.

(** ** Pools of validations *)
Section pools.
Context {U : Type} `{PQ : PgQuery} (build : Build).
Implicit Types (e : Engine U).

(** Requests to one engine: contexts and inputs. *)
Definition validations e (requests : list (Context U * string)) : list (prog U (option goerror)) :=
  map (fun r => ValidateP build e r.1 r.2) requests.

(** C5: One engine can be used concurrently: however the calls of any number of
    validations interleave, and whatever other code does to the shared state in between,
    each validation follows the protocol of a validation of its own input; when it ends it
    has made the calls of one verdict and returns that verdict. *)
Theorem concurrent_protocol e requests u s i ctx sql :
  engine_wf e -> rtc pool_step (start u (validations e requests)) s -> requests !! i = Some (ctx, sql) ->
  exists q t v rest,
    threads s !! i = Some q /\ validate_protocol build e sql t v /\
    calls_of i (calls s) ++ rest = t ++ verdict_emits e v /\
    (forall o, q = Finished o -> rest = [] /\ o = verdict_result v).
Proof.
  intros Hwf [_ Hfollow]%pool_follows Hreq.
  destruct (Hfollow i (ValidateP build e ctx sql)) as (us & q & Hq & Hus).
  { unfold validations. by rewrite list_lookup_fmap, Hreq. }
  destruct (follow_completes q u) as (us' & rest & o & Hrest).
  pose proof (follow_app _ _ _ _ _ _ _ Hus Hrest) as Hall.
  destruct (followed_protocol build u e ctx sql _ _ _ (wf_live _ Hwf) Hall) as (t & v & Hp & Ht & ->).
  exists q, t, v, rest. split_and!; [done..|]. intros o ->. destruct us'; [|done]. by injection Hrest as -> <-.
Qed.

(** C11: Interference changes no verdict: under a context that is never done and rules that
    answer by predicates on statements, a validation that ends in a pool returns exactly
    what [Validate] returns when it runs alone, in any state; with built-in rules it accepts
    exactly the inputs that are compliant as [violates] reads the policies. *)
Theorem concurrent_verdict e requests u s i ctx sql rejects o :
  engine_wf e -> never_done ctx -> Forall (fun r => decides ctx r (rejects r)) (engine_rules e) ->
  rtc pool_step (start u (validations e requests)) s -> requests !! i = Some (ctx, sql) ->
  threads s !! i = Some (Finished o) ->
  (forall w, o = (Validate build e ctx sql w).1) /\
  (forall selection, map reg_rule (engine_rules e) = map constructor selection ->
    o = Ret None <-> compliant build selection sql).
Proof.
  intros Hwf Hctx Hdec [_ Hfollow]%pool_follows Hreq Hi.
  destruct (Hfollow i (ValidateP build e ctx sql)) as (us & q & Hq & Hus).
  { unfold validations. by rewrite list_lookup_fmap, Hreq. }
  rewrite Hi in Hq. injection Hq as <-.
  assert (forall w, o = (Validate build e ctx sql w).1) as Ho.
  { intros w. by eapply (followed_verdict build e ctx sql us _ o rejects w (wf_distinct _ Hwf)). }
  split; [done|]. intros selection Hsel. rewrite (Ho {| user := u; trace := [] |}).
  by apply builtin_accepts.
Qed.

(** A sum over a list is a sum over its indices. *)
Lemma sum_list_seq {A} (f : A -> nat) (l : list A) :
  sum_list (map f l) =
  sum_list (map (fun i => match l !! i with Some x => f x | None => 0 end) (seq 0 (length l))).
Proof.
  enough (forall k : list A, sum_list (map f l) =
    sum_list (map (fun i => match (k ++ l) !! i with Some x => f x | None => 0 end) (seq (length k) (length l))))
    as H by apply (H []).
  induction l as [|x l IH]; intros k; [done|]. cbn [map length seq sum_list].
  rewrite (IH (k ++ [x])), lookup_app_r, Nat.sub_diag by lia. cbn.
  by rewrite length_app, Nat.add_1_r, <- app_assoc.
Qed.

(** A validation in a pool: how many calls it has made, and what it can do. *)
Lemma validation_bounded e requests u s i ctx sql :
  engine_wf e -> rtc pool_step (start u (validations e requests)) s -> requests !! i = Some (ctx, sql) ->
  length (calls_of i (calls s)) <= validate_bound build e sql /\
  ((exists o, threads s !! i = Some (Finished o)) \/
   length (calls_of i (calls s)) < validate_bound build e sql /\ exists s', own_step i s s').
Proof.
  intros Hwf [_ Hfollow]%pool_follows Hreq.
  destruct (Hfollow i (ValidateP build e ctx sql)) as (us & q & Hq & Hus).
  { unfold validations. by rewrite list_lookup_fmap, Hreq. }
  destruct (follow_completes q u) as (us' & rest & o & Hrest).
  pose proof (follow_app _ _ _ _ _ _ _ Hus Hrest) as Hall.
  destruct (followed_protocol build u e ctx sql _ _ _ (wf_live _ Hwf) Hall) as (t & v & Hp & Ht & _).
  pose proof (protocol_length build e sql t v Hp) as Hlen. rewrite <- Ht, length_app in Hlen.
  split; [lia|]. destruct q as [o'|A record f k]; [left; by exists o'|]. right.
  split; [|by eapply pool_own_step]. apply follow_length in Hrest as Hr.
  destruct us' as [|u' us']; [by cbn in Hrest|]. cbn in Hr. lia.
Qed.

(** C28: Concurrent validations end, each by its own calls: in every reachable state a
    validation has made at most a number of calls that depends on its input alone, and as
    long as it is not finished it has made fewer and can itself make its next one, which
    moves no other validation; so it ends after that many calls of its own, however it is
    scheduled.  All together make at most the sum of these bounds. *)
Theorem concurrent_terminates e requests u s :
  engine_wf e -> rtc pool_step (start u (validations e requests)) s ->
  (forall i ctx sql, requests !! i = Some (ctx, sql) ->
    length (calls_of i (calls s)) <= validate_bound build e sql /\
    ((exists o, threads s !! i = Some (Finished o)) \/
     length (calls_of i (calls s)) < validate_bound build e sql /\ exists s', own_step i s s')) /\
  length (calls s) <= sum_list (map (fun r => validate_bound build e r.2) requests).
Proof.
  intros Hwf Hs. split; [intros i ctx sql; by eapply validation_bounded|].
  rewrite sum_list_seq.
  replace (length requests) with (length (validations e requests)) by apply length_map.
  apply (pool_calls_bound u _ _ _ Hs). intros i Hi. unfold validations in Hi. rewrite length_map in Hi.
  destruct (lookup_lt_is_Some_2 _ _ Hi) as [[ctx sql] Hreq]. rewrite Hreq.
  by eapply validation_bounded.
Qed.
End pools.
