(* ===== verification/ConcurrentGuard.v ===== *)
(** * Concurrent requests to the caching guard

    Goroutines share a guard (example/pgx-prepared/guarded.go) and its cache.  The cache's
    methods are atomic, as golang-lru documents; between them, and between the calls of
    the validator and the driver, other requests run.  Each request is a state machine
    whose positions are the places of [validate] and of [Exec], [Query] and [QueryRow]
    between two such actions. *)
From stdpp Require Import base strings list relations.
From S2P Require Import Prelude.
From S2P Require Import GoRuntime.
From S2P Require Import PgQuery.
From S2P Require Import Engine.
From S2P Require Import Pgx.
From S2P Require Import PgxPrepared.
From S2P Require Import Prog.

(** What a validator may answer while other code runs: a relation, since its answer can
    depend on states that the caller does not see. *)
Record ConcurrentValidator (C : Type) : Type := {
  may_prepare : C -> string -> outcome (Prepared * option goerror) -> Prop;
  may_validate : C -> Prepared -> outcome (option goerror) -> Prop
}.
Arguments may_prepare {C} _ _ _ _.
Arguments may_validate {C} _ _ _ _.

(** What the caller of a request gets: the driver's answer, an error, or a panic. *)
Inductive reply : Set :=
| Executed
| Refused (err : goerror)
| Crashed (v : string).

(** Where a request is. *)
Inductive position : Set :=
| AtStart
| AtPrepare
| AtCached (prepared : Prepared)
| AtFresh (prepared : Prepared)
| AtStore (prepared : Prepared) (err : option goerror)
| AtExecute
| Replied (r : reply).

Section machine.
Context `{L : LRU Prepared} {C : Type} (v : ConcurrentValidator C) (maxSQLBytes : Z).

Record guard_state : Type := {
  g_cache : Cache;
  g_calls : list (nat * DBCall);
  g_at : list position
}.

(** After [ValidatePrepared] and the store: the error is returned, or the driver called. *)
Definition after_verdict (err : option goerror) : position :=
  match err with Some err => Replied (Refused err) | None => AtExecute end.

(** After [ValidatePrepared] on a value from the cache; nothing is stored. *)
Definition after_cached (o : outcome (option goerror)) : position :=
  match o with Ret err => after_verdict err | Panic v => Replied (Crashed v) end.

Definition after_prepare (o : outcome (Prepared * option goerror)) : position :=
  match o with
  | Ret (prepared, None) => AtFresh prepared
  | Ret (_, Some err) => Replied (Refused err)
  | Panic v => Replied (Crashed v)
  end.

Definition after_fresh (prepared : Prepared) (o : outcome (option goerror)) : position :=
  match o with Ret err => AtStore prepared err | Panic v => Replied (Crashed v) end.

(** The conditional [cache.Add]. *)
Definition store (cache : Cache) (sql : string) (prepared : Prepared) (err : option goerror) : Cache :=
  if bool_decide (Z.of_nat (String.length sql) <= maxSQLBytes)%Z && isCacheableValidationOutcome err
  then lru_Add cache sql prepared else cache.

(** One action of a request [r] that is at [pos]: the cache after it, the calls it makes,
    and where the request is next. *)
Inductive action (cache : Cache) (r : request C) : position -> Cache -> list DBCall -> position -> Prop :=
| act_rewriter :
    containsQueryRewriter (req_args r) = true ->
    action cache r AtStart cache [] (Replied (Refused ErrQueryRewriterUnsupported))
| act_hit prepared cache' :
    containsQueryRewriter (req_args r) = false -> lru_Get cache (req_sql r) = (Some prepared, cache') ->
    action cache r AtStart cache' [] (AtCached prepared)
| act_miss cache' :
    containsQueryRewriter (req_args r) = false -> lru_Get cache (req_sql r) = (None, cache') ->
    action cache r AtStart cache' [] AtPrepare
| act_cached prepared o :
    may_validate v (req_ctx r) prepared o ->
    action cache r (AtCached prepared) cache [DValidatePrepared prepared o] (after_cached o)
| act_prepare o :
    may_prepare v (req_ctx r) (req_sql r) o ->
    action cache r AtPrepare cache [DPrepare (req_sql r) o] (after_prepare o)
| act_fresh prepared o :
    may_validate v (req_ctx r) prepared o ->
    action cache r (AtFresh prepared) cache [DValidatePrepared prepared o] (after_fresh prepared o)
| act_store prepared err :
    action cache r (AtStore prepared err) (store cache (req_sql r) prepared err) [] (after_verdict err)
| act_execute :
    action cache r AtExecute cache [DExecute (req_op r) (req_sql r) (req_args r)] (Replied Executed).

(** Any request may act next. *)
Inductive guard_step (requests : list (request C)) (s : guard_state) : guard_state -> Prop :=
| guard_act i r pos cache' calls pos' :
    requests !! i = Some r -> g_at s !! i = Some pos ->
    action (g_cache s) r pos cache' calls pos' ->
    guard_step requests s {|
      g_cache := cache';
      g_calls := g_calls s ++ map (pair i) calls;
      g_at := <[i := pos']> (g_at s)
    |}.

(** An execution, with the request that acts at each of its steps. *)
Inductive execution (requests : list (request C)) : list nat -> guard_state -> guard_state -> Prop :=
| execution_nil s : execution requests [] s s
| execution_act i schedule s s' s'' r pos cache' calls pos' :
    requests !! i = Some r -> g_at s !! i = Some pos ->
    action (g_cache s) r pos cache' calls pos' ->
    s' = {| g_cache := cache'; g_calls := g_calls s ++ map (pair i) calls; g_at := <[i := pos']> (g_at s) |} ->
    execution requests schedule s' s'' -> execution requests (i :: schedule) s s''.

Definition guard_start (cache : Cache) (requests : list (request C)) : guard_state :=
  {| g_cache := cache; g_calls := []; g_at := map (fun _ => AtStart) requests |}.

(** The actions of one request in an execution. *)
Definition turns (i : nat) (schedule : list nat) : nat := length (filter (fun j => j = i) schedule).

(** ** Specification *)

(** The value may have been prepared from this text by some request. *)
Definition may_come_from (sql : string) (p : Prepared) : Prop :=
  exists ctx, may_prepare v ctx sql (Ret (p, None)).

(** The calls of a request before the driver's: it has a nil verdict, under its own
    context, on a value that comes from its text. *)
Inductive cleared (r : request C) : list DBCall -> Prop :=
| cleared_cached p :
    may_come_from (req_sql r) p -> may_validate v (req_ctx r) p (Ret None) ->
    cleared r [DValidatePrepared p (Ret None)]
| cleared_fresh p :
    may_prepare v (req_ctx r) (req_sql r) (Ret (p, None)) -> may_validate v (req_ctx r) p (Ret None) ->
    cleared r [DPrepare (req_sql r) (Ret (p, None)); DValidatePrepared p (Ret None)].

(** Why a request is refused or crashes. *)
Definition refusal (r : request C) (err : goerror) : Prop :=
  if containsQueryRewriter (req_args r) then err = ErrQueryRewriterUnsupported
  else
    (exists p, may_prepare v (req_ctx r) (req_sql r) (Ret (p, Some err))) \/
    (exists p, may_come_from (req_sql r) p /\ may_validate v (req_ctx r) p (Ret (Some err))).

Definition crash (r : request C) (pv : string) : Prop :=
  containsQueryRewriter (req_args r) = false /\
  (may_prepare v (req_ctx r) (req_sql r) (Panic pv) \/
   exists p, may_come_from (req_sql r) p /\ may_validate v (req_ctx r) p (Panic pv)).

(** What is known of a request at each position, given its calls. *)
Definition known (r : request C) (pos : position) (t : list DBCall) : Prop :=
  match pos with
  | AtStart => t = []
  | AtPrepare => t = [] /\ containsQueryRewriter (req_args r) = false
  | AtCached p => t = [] /\ containsQueryRewriter (req_args r) = false /\ may_come_from (req_sql r) p
  | AtFresh p => t = [DPrepare (req_sql r) (Ret (p, None))] /\ containsQueryRewriter (req_args r) = false /\
      may_prepare v (req_ctx r) (req_sql r) (Ret (p, None))
  | AtStore p err =>
      t = [DPrepare (req_sql r) (Ret (p, None)); DValidatePrepared p (Ret err)] /\
      containsQueryRewriter (req_args r) = false /\
      may_prepare v (req_ctx r) (req_sql r) (Ret (p, None)) /\ may_validate v (req_ctx r) p (Ret err)
  | AtExecute => containsQueryRewriter (req_args r) = false /\ cleared r t
  | Replied Executed => containsQueryRewriter (req_args r) = false /\
      exists t', t = t' ++ [DExecute (req_op r) (req_sql r) (req_args r)] /\ cleared r t'
  | Replied (Refused err) => no_execution t /\ refusal r err
  | Replied (Crashed pv) => no_execution t /\ crash r pv
  end.

(** The invariant: every entry of the cache comes from its key, the cache is within its
    capacity, and what is known of each request holds. *)
Record guard_inv (requests : list (request C)) (s : guard_state) : Prop := {
  gi_entries sql p : lookup_entry (g_cache s) sql = Some p ->
    may_come_from sql p /\ (Z.of_nat (String.length sql) <= maxSQLBytes)%Z;
  gi_capacity : 0 < lru_Cap (g_cache s) /\ lru_Len (g_cache s) <= lru_Cap (g_cache s);
  gi_length : length (g_at s) = length requests;
  gi_callers : Forall (fun jc => jc.1 < length requests) (g_calls s);
  gi_known i r pos : requests !! i = Some r -> g_at s !! i = Some pos -> known r pos (calls_of i (g_calls s))
}.
End machine.

Section facts.
Context `{LL : LRULaws Prepared} {C : Type} (v : ConcurrentValidator C) (maxSQLBytes : Z).
Implicit Types (r : request C) (requests : list (request C)) (cache : Cache).

Lemma calls_of_own i (t : list DBCall) : calls_of i (map (pair i) t) = t.
Proof.
  induction t as [|c t IH]; [done|]. cbn. fold (calls_of i (map (pair i) t)). rewrite decide_True by done.
  cbn. by rewrite IH.
Qed.

Lemma calls_of_other i j (t : list DBCall) : i <> j -> calls_of i (map (pair j) t) = [].
Proof.
  intros Hne. induction t as [|c t IH]; [done|]. cbn. fold (calls_of i (map (pair j) t)).
  by rewrite decide_False.
Qed.

(** An action keeps what the cache holds well-founded and its size. *)
Lemma action_cache cache r pos cache' t pos' before :
  action v maxSQLBytes cache r pos cache' t pos' -> known v r pos before ->
  (forall sql p, lookup_entry cache sql = Some p -> may_come_from v sql p /\ (Z.of_nat (String.length sql) <= maxSQLBytes)%Z) ->
  0 < lru_Cap cache /\ lru_Len cache <= lru_Cap cache ->
  (forall sql p, lookup_entry cache' sql = Some p -> may_come_from v sql p /\ (Z.of_nat (String.length sql) <= maxSQLBytes)%Z) /\
  0 < lru_Cap cache' /\ lru_Len cache' <= lru_Cap cache'.
Proof.
  intros Hact Hknown He Hc.
  destruct Hact as [Hrw|p c' Hrw Hget|c' Hrw Hget|p o Ho|o Ho|p o Ho|p err|]; try done.
  1, 2: destruct (lru_Get_spec cache (req_sql r)) as (_ & Hl & Hlen & Hcap); rewrite Hget in *; cbn in *;
    rewrite Hlen, Hcap; (split; [|done]); intros sql q; rewrite Hl; apply He.
  unfold store. destruct (bool_decide _ && _) eqn:Hb; [|done].
  apply andb_prop in Hb as [Hb%bool_decide_eq_true _].
  destruct (lru_Add_spec cache (req_sql r) p (proj1 Hc)) as (Hnew & Hold & Hle & Hcap).
  destruct Hknown as (_ & _ & Hp & _). rewrite Hcap. split; [|split; [apply Hc | apply Hle, Hc]].
  intros sql q Hq. destruct (decide (sql = req_sql r)) as [->|Hne]; [|by apply He, Hold].
  rewrite Hnew in Hq. injection Hq as <-. split; [by exists (req_ctx r) | done].
Qed.

(** An action leads from what is known to what is known. *)
Lemma action_known cache r pos cache' t pos' before :
  action v maxSQLBytes cache r pos cache' t pos' -> known v r pos before ->
  (forall sql p, lookup_entry cache sql = Some p -> may_come_from v sql p /\ (Z.of_nat (String.length sql) <= maxSQLBytes)%Z) ->
  known v r pos' (before ++ t).
Proof.
  intros Hact Hknown He.
  destruct Hact as [Hrw|p c' Hrw Hget|c' Hrw Hget|p o Ho|o Ho|p o Ho|p err|]; cbn [known] in *.
  - subst. split; [constructor|]. unfold refusal. by rewrite Hrw.
  - subst. split; [done|]. split; [done|].
    destruct (lru_Get_spec cache (req_sql r)) as (Hl & _). rewrite Hget in Hl. by apply He.
  - by subst.
  - destruct Hknown as (-> & Hrw & Hp). unfold after_cached, after_verdict.
    destruct o as [[err|]|pv]; cbn.
    + split; [by repeat constructor|]. unfold refusal. rewrite Hrw. right. by exists p.
    + split; [done|]. by constructor.
    + split; [by repeat constructor|]. split; [done|]. right. by exists p.
  - destruct Hknown as (-> & Hrw). unfold after_prepare.
    destruct o as [[p [err|]]|pv]; cbn.
    + split; [by repeat constructor|]. unfold refusal. rewrite Hrw. left. by exists p.
    + done.
    + split; [by repeat constructor|]. split; [done|]. by left.
  - destruct Hknown as (-> & Hrw & Hp). destruct o as [err|pv]; cbn; [done|].
    split; [by repeat constructor|]. split; [done|]. right. exists p. split; [by exists (req_ctx r) | done].
  - destruct Hknown as (-> & Hrw & Hp & Ho). unfold after_verdict. destruct err as [err|]; cbn.
    + split; [by repeat constructor|]. unfold refusal. rewrite Hrw. right. exists p. split; [by exists (req_ctx r) | done].
    + split; [done|]. by constructor.
  - destruct Hknown as (Hrw & Hcl). split; [done|]. by exists before.
Qed.

Lemma guard_step_inv requests s s' :
  guard_inv v maxSQLBytes requests s -> guard_step v maxSQLBytes requests s s' -> guard_inv v maxSQLBytes requests s'.
Proof.
  intros [He Hc Hlen Hcallers Hk] [i r pos cache' t pos' Hr Hpos Hact].
  destruct (action_cache _ _ _ _ _ _ _ Hact (Hk i r pos Hr Hpos) He Hc) as [He' Hc'].
  split; cbn [g_cache g_calls g_at]; [done | done | by rewrite length_insert | |].
  { apply Forall_app. split; [done|]. apply Forall_map, Forall_forall. intros c _. cbn.
    by apply lookup_lt_is_Some; eauto. }
  intros j r' q Hr' Hq. rewrite calls_of_app. destruct (decide (i = j)) as [->|Hne].
  - rewrite list_lookup_insert_eq in Hq by (by apply lookup_lt_is_Some; eauto).
    rewrite calls_of_own. simplify_eq. eapply action_known; eauto.
  - rewrite list_lookup_insert_ne in Hq by done. rewrite calls_of_other, app_nil_r by done. by apply Hk.
Qed.

Lemma guard_start_inv cache requests n :
  lru_New n = Some cache -> (0 < n)%Z -> guard_inv v maxSQLBytes requests (guard_start cache requests).
Proof.
  intros Hnew Hn. destruct (lru_New_spec _ _ Hnew) as (Hcap & Hlen & Hempty). split; cbn.
  - intros sql p. by rewrite Hempty.
  - lia.
  - by rewrite length_map.
  - constructor.
  - intros i r pos _ Hpos. apply list_lookup_fmap_Some in Hpos as (? & -> & _). done.
Qed.

Lemma guard_reachable_inv cache requests n s :
  lru_New n = Some cache -> (0 < n)%Z -> rtc (guard_step v maxSQLBytes requests) (guard_start cache requests) s ->
  guard_inv v maxSQLBytes requests s.
Proof.
  intros Hnew Hn. revert s. apply rtc_ind_r; [by eapply guard_start_inv|].
  intros s s' _ Hstep Hinv. by eapply guard_step_inv.
Qed.
Lemma calls_of_in {A} i (c : A) (l : list (nat * A)) : (i, c) ∈ l -> c ∈ calls_of i l.
Proof.
  intros H. apply elem_of_flat_map. exists (i, c). split; [done|]. cbn. rewrite decide_True by done. left.
Qed.

Lemma cleared_no_execution r t : cleared v r t -> no_execution t.
Proof. destruct 1; by repeat constructor. Qed.

Lemma no_execution_not_in (t : list DBCall) op sql args : no_execution t -> DExecute op sql args ∉ t.
Proof. intros Hno Hin. exact (proj1 (Forall_forall _ _) Hno _ Hin). Qed.

(** A request whose calls include the driver's is a request that was executed. *)
Lemma known_executed r pos t op sql args :
  known v r pos t -> DExecute op sql args ∈ t ->
  containsQueryRewriter (req_args r) = false /\ op = req_op r /\ sql = req_sql r /\ args = req_args r /\
  exists t', t = t' ++ [DExecute op sql args] /\ cleared v r t'.
Proof.
  intros Hk Hin.
  assert (no_execution t -> False) as Hno.
  { intros Hno. revert Hin. by apply no_execution_not_in. }
  destruct pos as [| |p|p|p err| |[|err|pv]]; cbn in Hk.
  - destruct Hno. subst. constructor.
  - destruct Hno, Hk as [-> _]. constructor.
  - destruct Hno, Hk as [-> _]. constructor.
  - destruct Hno, Hk as [-> _]. by repeat constructor.
  - destruct Hno, Hk as [-> _]. by repeat constructor.
  - destruct Hno, Hk as [_ Hcl]. by eapply cleared_no_execution.
  - destruct Hk as [Hrw (t' & -> & Hcl)]. clear Hno. apply elem_of_app in Hin as [Hin|Hin].
    { exfalso. revert Hin. apply no_execution_not_in. by eapply cleared_no_execution. }
    apply list_elem_of_singleton in Hin. injection Hin as -> -> ->. split_and!; [done..|]. by exists t'.
  - by destruct Hno, Hk.
  - by destruct Hno, Hk.
Qed.

(** What the driver's calls in an execution say. *)
Lemma guard_executed cache requests n s i op sql args :
  lru_New n = Some cache -> (0 < n)%Z ->
  rtc (guard_step v maxSQLBytes requests) (guard_start cache requests) s ->
  (i, DExecute op sql args) ∈ g_calls s ->
  exists r t, requests !! i = Some r /\ op = req_op r /\ sql = req_sql r /\ args = req_args r /\
    ~ Exists rewriter args /\ calls_of i (g_calls s) = t ++ [DExecute op sql args] /\ cleared v r t.
Proof.
  intros Hnew Hn Hs Hin. destruct (guard_reachable_inv _ _ _ _ Hnew Hn Hs) as [_ _ Hlen Hcallers Hk].
  pose proof (proj1 (Forall_forall _ _) Hcallers _ Hin) as Hi. cbn in Hi.
  destruct (lookup_lt_is_Some_2 _ _ Hi) as [r Hr].
  destruct (lookup_lt_is_Some_2 (g_at s) i) as [pos Hpos]; [by rewrite Hlen|].
  destruct (known_executed _ _ _ _ _ _ (Hk i r pos Hr Hpos) (calls_of_in _ _ _ Hin))
    as (Hrw & -> & -> & -> & t & Ht & Hcl).
  exists r, t. split_and!; try done. by apply plain_arguments.
Qed.

(** ** Progress *)

(** The actions that are left at most. *)
Definition remaining (pos : position) : nat :=
  match pos with
  | AtStart => 5 | AtPrepare => 4 | AtFresh _ => 3 | AtStore _ _ | AtCached _ => 2 | AtExecute => 1
  | Replied _ => 0
  end.

Lemma action_decreases cache r pos cache' t pos' :
  action v maxSQLBytes cache r pos cache' t pos' -> remaining pos' < remaining pos.
Proof.
  destruct 1 as [| | |p [[err|]|]|[[p [err|]]|]|p [err|]|p [err|]|]; cbn; lia.
Qed.

Definition total_remaining (s : guard_state) : nat := sum_list (map remaining (g_at s)).

Lemma sum_insert (l : list position) i pos pos' :
  l !! i = Some pos -> remaining pos' < remaining pos ->
  sum_list (map remaining (<[i := pos']> l)) < sum_list (map remaining l).
Proof.
  revert i. induction l as [|q l IH]; intros [|i] Hi Hlt; try done.
  - injection Hi as ->. cbn. lia.
  - specialize (IH i Hi Hlt). change (<[S i:=pos']> (q :: l)) with (q :: <[i:=pos']> l). cbn. lia.
Qed.

Lemma guard_step_decreases requests s s' :
  guard_step v maxSQLBytes requests s s' -> total_remaining s' < total_remaining s.
Proof.
  intros [i r pos cache' t pos' Hr Hpos Hact]. apply (sum_insert _ _ _ _ Hpos). by eapply action_decreases.
Qed.

Lemma guard_steps_bound requests n s s' :
  nsteps (guard_step v maxSQLBytes requests) n s s' -> n + total_remaining s' <= total_remaining s.
Proof.
  induction 1 as [|n s s1 s' Hstep _ IH]; [lia|]. apply guard_step_decreases in Hstep. lia.
Qed.

(** A request that has no reply yet can act. *)
Lemma action_possible cache r pos :
  (forall ctx sql, exists o, may_prepare v ctx sql o) -> (forall ctx p, exists o, may_validate v ctx p o) ->
  (exists rep, pos = Replied rep) \/ exists cache' t pos', action v maxSQLBytes cache r pos cache' t pos'.
Proof.
  intros Hp Hv. destruct pos as [| |p|p|p err| |rep]; [right..|left; by eexists].
  - destruct (containsQueryRewriter (req_args r)) eqn:Hrw; [repeat eexists; by constructor|].
    destruct (lru_Get cache (req_sql r)) as [[p|] c'] eqn:Hget; repeat eexists; by econstructor.
  - destruct (Hp (req_ctx r) (req_sql r)) as [o Ho]. repeat eexists. by constructor.
  - destruct (Hv (req_ctx r) p) as [o Ho]. repeat eexists. by constructor.
  - destruct (Hv (req_ctx r) p) as [o Ho]. repeat eexists. by constructor.
  - repeat eexists. constructor.
  - repeat eexists. constructor.
Qed.

(** Executions are the sequences of steps. *)
Lemma execution_steps requests schedule s s' :
  execution v maxSQLBytes requests schedule s s' -> nsteps (guard_step v maxSQLBytes requests) (length schedule) s s'.
Proof. induction 1 as [|i schedule s s' s'' r pos c t pos' Hr Hpos Hact -> _ IH]; econstructor; [by eapply guard_act | done]. Qed.

Lemma steps_execution requests k s s' :
  nsteps (guard_step v maxSQLBytes requests) k s s' ->
  exists schedule, length schedule = k /\ execution v maxSQLBytes requests schedule s s'.
Proof.
  induction 1 as [s|k s s' s'' [i r pos c t pos' Hr Hpos Hact] _ (schedule & <- & IH)]; [by exists []; split; [|constructor]|].
  exists (i :: schedule). split; [done|]. by econstructor.
Qed.

Lemma execution_reachable requests schedule s s' :
  execution v maxSQLBytes requests schedule s s' -> rtc (guard_step v maxSQLBytes requests) s s'.
Proof. intros H. apply rtc_nsteps. eexists. by apply execution_steps. Qed.

(** What a request can still do bounds its own actions, whatever the others do. *)
Lemma execution_turns requests schedule s s' i pos :
  execution v maxSQLBytes requests schedule s s' -> g_at s !! i = Some pos ->
  exists pos', g_at s' !! i = Some pos' /\ turns i schedule + remaining pos' <= remaining pos.
Proof.
  intros Hexec. revert pos.
  induction Hexec as [|j schedule s s' s'' r pj c t pj' Hr Hpj Hact -> _ IH]; intros pos Hpos; [by exists pos|].
  unfold turns in *. rewrite filter_cons. cbn [g_at] in IH. destruct (decide (j = i)) as [->|Hne].
  - destruct (IH pj') as (pos' & Hpos' & Hle); [by apply list_lookup_insert_eq, lookup_lt_is_Some; eauto|].
    exists pos'. split; [done|]. apply action_decreases in Hact. simplify_eq. cbn [length]. lia.
  - apply IH. by rewrite list_lookup_insert_ne.
Qed.

(** A request without a reply can act itself. *)
Lemma execution_possible requests s i r pos :
  (forall ctx sql, exists o, may_prepare v ctx sql o) -> (forall ctx p, exists o, may_validate v ctx p o) ->
  requests !! i = Some r -> g_at s !! i = Some pos ->
  (exists rep, pos = Replied rep) \/ exists s', execution v maxSQLBytes requests [i] s s'.
Proof.
  intros Hp Hv Hr Hpos. destruct (action_possible (g_cache s) r pos Hp Hv) as [?|(c & t & pos' & Hact)]; [by left|].
  right. eexists. econstructor; [done..|constructor].
Qed.

(** So a request has its reply, or has acted fewer than five times and can go on. *)
Lemma execution_answers cache requests schedule s i r :
  (forall ctx sql, exists o, may_prepare v ctx sql o) -> (forall ctx p, exists o, may_validate v ctx p o) ->
  execution v maxSQLBytes requests schedule (guard_start cache requests) s -> requests !! i = Some r ->
  turns i schedule <= 5 /\
  ((exists rep, g_at s !! i = Some (Replied rep)) \/
   turns i schedule < 5 /\ exists s', execution v maxSQLBytes requests [i] s s').
Proof.
  intros Hp Hv Hexec Hr.
  destruct (execution_turns _ _ _ _ i AtStart Hexec) as (pos & Hpos & Hle).
  { cbn. by rewrite list_lookup_fmap, Hr. }
  cbn [remaining] in Hle. split; [lia|].
  destruct (execution_possible requests s i r pos Hp Hv Hr Hpos) as [[rep ->]|Hnext]; [left; by exists rep|].
  destruct (decide (remaining pos = 0)) as [H0|H0].
  - left. destruct pos; try done. by eexists.
  - right. split; [lia | done].
Qed.

(** No execution is longer than five actions per request, or stuck before the end. *)
Lemma guard_live cache requests k s :
  (forall ctx sql, exists o, may_prepare v ctx sql o) -> (forall ctx p, exists o, may_validate v ctx p o) ->
  nsteps (guard_step v maxSQLBytes requests) k (guard_start cache requests) s ->
  k <= 5 * length requests /\
  (Forall (fun pos => exists rep, pos = Replied rep) (g_at s) \/
   exists s', guard_step v maxSQLBytes requests s s').
Proof.
  intros Hp Hv Hsteps.
  assert (length (g_at s) = length requests) as Hlen.
  { assert (rtc (guard_step v maxSQLBytes requests) (guard_start cache requests) s) as Hrtc
      by (apply rtc_nsteps; by eexists).
    clear Hsteps. revert s Hrtc. apply rtc_ind_r; [cbn; by rewrite length_map|].
    intros s s' _ [i r pos cache' t pos' Hr Hpos Hact] IH. cbn. by rewrite length_insert. }
  split.
  - apply guard_steps_bound in Hsteps.
    assert (total_remaining (guard_start cache requests) = 5 * length requests) as Htotal; [|lia].
    unfold total_remaining, guard_start. cbn. clear. induction requests as [|r rs IH]; cbn; [done|]. cbn in IH. lia.
  - destruct (decide (Forall (fun pos => remaining pos = 0) (g_at s))) as [Hall|Hnot].
    + left. eapply Forall_impl; [exact Hall|]. intros pos Hpos. destruct pos; try done. by eexists.
    + right. apply not_Forall_Exists in Hnot; [|intros x; apply _].
      apply Exists_exists in Hnot as (pos & Hin & Hne). apply list_elem_of_lookup in Hin as [i Hi].
      destruct (lookup_lt_is_Some_2 requests i) as [r Hr];
        [rewrite <- Hlen; by apply lookup_lt_is_Some; eauto|].
      destruct (action_possible (g_cache s) r pos Hp Hv) as [[rep ->]|(cache' & t & pos' & Hact)]; [by destruct Hne|].
      eexists. by eapply guard_act.
Qed.

(** The answers of an execution. *)
Lemma guard_answers cache requests n s i r rep
    (prepares : string -> Prepared + goerror) (verdict_of : Prepared -> option goerror) (good : C -> Prop) :
  (forall ctx sql p, may_prepare v ctx sql (Ret (p, None)) -> prepares sql = inl p) ->
  (forall ctx sql o, good ctx -> may_prepare v ctx sql o ->
     o = Ret match prepares sql with inl p => (p, None) | inr err => ({| prepared_result := None |}, Some err) end) ->
  (forall ctx p o, good ctx -> may_validate v ctx p o -> o = Ret (verdict_of p)) ->
  lru_New n = Some cache -> (0 < n)%Z ->
  rtc (guard_step v maxSQLBytes requests) (guard_start cache requests) s ->
  requests !! i = Some r -> good (req_ctx r) -> g_at s !! i = Some (Replied rep) ->
  rep = if containsQueryRewriter (req_args r) then Refused ErrQueryRewriterUnsupported
        else match uncached prepares verdict_of (req_sql r) with
             | None => Executed
             | Some err => Refused err
             end.
Proof.
  intros Hsound Hprep Hval Hnew Hn Hs Hr Hgood Hi.
  pose proof (gi_known _ _ _ _ (guard_reachable_inv _ _ _ _ Hnew Hn Hs) i r _ Hr Hi) as Hk.
  unfold uncached.
  assert (forall p o, may_come_from v (req_sql r) p -> may_validate v (req_ctx r) p o ->
    prepares (req_sql r) = inl p /\ o = Ret (verdict_of p)) as Hboth.
  { intros p o [ctx Hp] Ho. split; [by eapply Hsound | by eapply Hval]. }
  destruct rep as [|err|pv]; cbn in Hk.
  - destruct Hk as [-> (t & _ & Hcl)].
    assert (exists p, may_come_from v (req_sql r) p /\ may_validate v (req_ctx r) p (Ret None)) as (p & Hp & Ho)
      by (destruct Hcl as [p|p Hp]; exists p; [done | split; [by exists (req_ctx r) | done]]).
    destruct (Hboth _ _ Hp Ho) as [-> [= <-]]. done.
  - destruct Hk as [_ Href]. unfold refusal in Href. destruct (containsQueryRewriter _); [by subst|].
    destruct Href as [[p Hp]|(p & Hp & Ho)].
    + apply Hprep in Hp; [|done]. destruct (prepares _); [done|]. by injection Hp as _ ->.
    + by destruct (Hboth _ _ Hp Ho) as [-> [= <-]].
  - destruct Hk as [_ [-> [Hp|(p & Hp & Ho)]]].
    + by apply Hprep in Hp.
    + by destruct (Hboth _ _ Hp Ho) as [_ [=]].
Qed.

(** ** Properties *)

(** However any number of requests to one guard interleave, the driver is called for a
    request only as its last call, on its own text, operation and arguments, none of which
    rewrites the text, after the same request got a nil verdict under its own context on a
    value prepared from its own text. *)
Theorem concurrent_guard_safe cache requests n s i op sql args :
  lru_New n = Some cache -> (0 < n)%Z ->
  rtc (guard_step v maxSQLBytes requests) (guard_start cache requests) s ->
  (i, DExecute op sql args) ∈ g_calls s ->
  exists r t, requests !! i = Some r /\ op = req_op r /\ sql = req_sql r /\ args = req_args r /\
    ~ Exists rewriter args /\ calls_of i (g_calls s) = t ++ [DExecute op sql args] /\ cleared v r t.
Proof. apply guard_executed. Qed.

(** The cache stays well-founded under concurrency: at every moment each entry is a
    value that the validator may have prepared from exactly its key, which respects the
    length bound, and the cache respects its capacity. *)
Theorem concurrent_cache_invariant cache requests n s :
  lru_New n = Some cache -> (0 < n)%Z ->
  rtc (guard_step v maxSQLBytes requests) (guard_start cache requests) s ->
  lru_Len (g_cache s) <= lru_Cap (g_cache s) /\
  forall sql p, lookup_entry (g_cache s) sql = Some p ->
    may_come_from v sql p /\ (Z.of_nat (String.length sql) <= maxSQLBytes)%Z.
Proof.
  intros Hnew Hn Hs. destruct (guard_reachable_inv _ _ _ _ Hnew Hn Hs) as [He [_ Hc] _ _ _]. by split.
Qed.

(** Every request is answered, however the requests are scheduled: no execution has more
    than five actions per request, and as long as a request has no reply some action is
    possible, provided the validator's calls return. *)
Theorem concurrent_guard_live cache requests k s :
  (forall ctx sql, exists o, may_prepare v ctx sql o) -> (forall ctx p, exists o, may_validate v ctx p o) ->
  nsteps (guard_step v maxSQLBytes requests) k (guard_start cache requests) s ->
  k <= 5 * length requests /\
  (Forall (fun pos => exists rep, pos = Replied rep) (g_at s) \/
   exists s', guard_step v maxSQLBytes requests s s').
Proof. apply guard_live. Qed.
(** The cache changes no answer under concurrency: if preparing and validating are
    functions of their arguments under the contexts of interest, every request under such a
    context is answered as if it were alone and without a cache. *)
Theorem concurrent_cache_transparent cache requests n s i r rep
    (prepares : string -> Prepared + goerror) (verdict_of : Prepared -> option goerror) (good : C -> Prop) :
  (forall ctx sql p, may_prepare v ctx sql (Ret (p, None)) -> prepares sql = inl p) ->
  (forall ctx sql o, good ctx -> may_prepare v ctx sql o ->
     o = Ret match prepares sql with inl p => (p, None) | inr err => ({| prepared_result := None |}, Some err) end) ->
  (forall ctx p o, good ctx -> may_validate v ctx p o -> o = Ret (verdict_of p)) ->
  lru_New n = Some cache -> (0 < n)%Z ->
  rtc (guard_step v maxSQLBytes requests) (guard_start cache requests) s ->
  requests !! i = Some r -> good (req_ctx r) -> g_at s !! i = Some (Replied rep) ->
  rep = if containsQueryRewriter (req_args r) then Refused ErrQueryRewriterUnsupported
        else match uncached prepares verdict_of (req_sql r) with
             | None => Executed
             | Some err => Refused err
             end.
Proof. apply guard_answers. Qed.
End facts.

(** ** The code, run alone, is an execution of the machine *)
Definition atomic_validator {C S} (d : PreparedValidator C S) : ConcurrentValidator C := {|
  may_prepare ctx sql o := exists s, (pv_Prepare d ctx sql s).1 = o;
  may_validate ctx p o := exists s, (pv_ValidatePrepared d ctx p s).1 = o
|}.

Section alone.
Context `{PX : Pgx} `{L : LRU Prepared} {C S : Type}.
Context (db : GuardedDB (C:=C) (S:=S)) (d : dynamic (PreparedValidator C S)).
Context (Hdb : db_validator db = Some d) (Hx : live (db_executor db)) (r : request C).
Implicit Types (w : DBWorld S Cache).

#[local] Abbreviation steps := (rtc (guard_step (atomic_validator (dyn_impl d)) (db_maxSQLBytes db) [r])).

(** The machine with one request. *)
Definition one (cache : Cache) (t : list DBCall) (pos : position) : guard_state :=
  {| g_cache := cache; g_calls := map (pair 0) t; g_at := [pos] |}.

Lemma one_step cache t pos cache' t' pos' :
  action (atomic_validator (dyn_impl d)) (db_maxSQLBytes db) cache r pos cache' t' pos' ->
  steps (one cache t pos) (one cache' (t ++ t') pos').
Proof.
  intros Hact. apply rtc_once. unfold one. rewrite map_app.
  apply (guard_act _ _ _ (one cache t pos) 0 r pos cache' t' pos'); done.
Qed.

(** Where the request is after [validate] has returned. *)
Definition after_validate (o : outcome (option goerror)) : position := after_cached o.

Lemma validate_execution w :
  containsQueryRewriter (req_args r) = false ->
  exists t, db_calls (validate db (req_ctx r) (req_sql r) w).2 = db_calls w ++ t /\
    steps (one (db_cache w) [] AtStart)
      (one (db_cache (validate db (req_ctx r) (req_sql r) w).2) t
         (after_validate (validate db (req_ctx r) (req_sql r) w).1)).
Proof.
  intros Hrw. unfold validate. rewrite bind_cache_Get, Hdb.
  destruct (lru_Get (db_cache w) (req_sql r)) as [[p|] c] eqn:Hget; cbn [fst snd invoke]; cbv beta iota.
  - rewrite dcall_run. cbn [fst snd db_app db_calls db_cache]. eexists. split; [done|].
    etrans; [apply one_step; by apply act_hit|]. apply (one_step _ []). constructor. by eexists.
  - rewrite bind_dcall. cbn [db_app db_calls db_cache].
    destruct (pv_Prepare _ _ _ _) as [[[p [err|]]|pv] s1] eqn:Hp; cbv beta iota;
      (assert (may_prepare (atomic_validator (dyn_impl d)) (req_ctx r) (req_sql r)
        (pv_Prepare (dyn_impl d) (req_ctx r) (req_sql r) (db_app w)).1) as Hmay by by eexists);
      rewrite Hp in Hmay; cbn [fst] in Hmay.
    1, 3: eexists; split; [done|]; (etrans; [apply one_step; by apply act_miss|]);
      by apply (one_step _ [] _ _ _ _ (act_prepare _ _ _ _ _ Hmay)).
    rewrite bind_dcall. cbn [db_app db_calls db_cache].
    destruct (pv_ValidatePrepared _ _ _ _) as [[err|pv] s2] eqn:Hv; cbv beta iota;
      (assert (may_validate (atomic_validator (dyn_impl d)) (req_ctx r) p
        (pv_ValidatePrepared (dyn_impl d) (req_ctx r) p s1).1) as Hmay' by by eexists);
      rewrite Hv in Hmay'; cbn [fst] in Hmay'.
    + eexists. split.
      2: { etrans; [apply one_step; by apply act_miss|].
           etrans; [apply (one_step _ [] _ _ _ _ (act_prepare _ _ _ _ _ Hmay))|].
           etrans; [apply (one_step _ _ _ _ _ _ (act_fresh _ _ _ _ _ _ Hmay'))|].
           etrans; [apply (one_step _ _ _ _ _ _ (act_store _ _ _ _ _ _))|].
           unfold after_validate, after_cached, store.
           destruct (bool_decide _ && _); cbn; unfold mbind, M_bind, cache_Add; cbn; reflexivity. }
      destruct (bool_decide _ && _); unfold mbind, M_bind, cache_Add; cbn; by rewrite <- app_assoc.
    + eexists. split; [cbn; by rewrite <- app_assoc|].
      etrans; [apply one_step; by apply act_miss|].
      etrans; [apply (one_step _ [] _ _ _ _ (act_prepare _ _ _ _ _ Hmay))|].
      apply (one_step _ _ _ _ _ _ (act_fresh _ _ _ _ _ _ Hmay')).
Qed.

(** What the caller of a request gets in each case: what the driver answered, the error in
    the form of the operation, or the panic. *)
Definition gives w (rep : reply) : Prop :=
  let ctx := req_ctx r in let sql := req_sql r in let args := req_args r in
  match rep with
  | Executed => exists x s, db_executor db = Some x /\
      match req_op r with
      | OpExec => (Exec db ctx sql args w).1 = (x_Exec (dyn_impl x) ctx sql args s).1
      | OpQuery => (Query db ctx sql args w).1 = (x_Query (dyn_impl x) ctx sql args s).1
      | OpQueryRow => (QueryRow db ctx sql args w).1 = (x_QueryRow (dyn_impl x) ctx sql args s).1
      end
  | Refused err =>
      match req_op r with
      | OpExec => (Exec db ctx sql args w).1 = Ret (CommandTag0, Some err)
      | OpQuery => (Query db ctx sql args w).1 = Ret (None, Some err)
      | OpQueryRow => exists row, (QueryRow db ctx sql args w).1 = Ret row /\ Scan row = Some err
      end
  | Crashed pv =>
      match req_op r with
      | OpExec => (Exec db ctx sql args w).1 = Panic pv
      | OpQuery => (Query db ctx sql args w).1 = Panic pv
      | OpQueryRow => (QueryRow db ctx sql args w).1 = Panic pv
      end
  end.

(** C17: The state machine is the code: serving one request with [Exec], [Query] or
    [QueryRow] is an execution of the machine, with the same calls, the same cache after
    it, and the reply that the caller gets. *)
Theorem serve_is_execution w :
  exists t rep,
    db_calls (serve db w r) = db_calls w ++ t /\
    steps (one (db_cache w) [] AtStart) (one (db_cache (serve db w r)) t (Replied rep)) /\
    gives w rep.
Proof.
  destruct Hx as (x & Hxd & _). unfold gives, serve, Exec, Query, QueryRow. rewrite Hxd.
  destruct (containsQueryRewriter (req_args r)) eqn:Hrw.
  - exists [], (Refused ErrQueryRewriterUnsupported). rewrite app_nil_r.
    assert (steps (one (db_cache w) [] AtStart) (one (db_cache w) [] (Replied (Refused ErrQueryRewriterUnsupported))))
      as Hs by (apply (one_step _ []); by apply act_rewriter).
    destruct (req_op r); split_and!; eauto.
  - destruct (validate_execution w Hrw) as (t & Ht & Hs).
    destruct (validate db (req_ctx r) (req_sql r) w) as [[[err|]|pv] w1] eqn:Hrun; cbn in Ht, Hs.
    + exists t, (Refused err). rewrite !(bind_Ret _ _ _ _ _ Hrun). destruct (req_op r); split_and!; eauto.
    + exists (t ++ [DExecute (req_op r) (req_sql r) (req_args r)]), Executed.
      rewrite !(bind_Ret _ _ _ _ _ Hrun). cbn [invoke]. rewrite !dcall_run, app_assoc, <- Ht.
      assert (steps (one (db_cache w) [] AtStart)
        (one (db_cache w1) (t ++ [DExecute (req_op r) (req_sql r) (req_args r)]) (Replied Executed))) as Hs'
        by (etrans; [exact Hs|]; apply one_step; constructor).
      split_and!; [by destruct (req_op r) .. |].
      exists x, (db_app w1). by destruct (req_op r).
    + exists t, (Crashed pv). rewrite !(bind_Panic _ _ _ _ _ Hrun). by destruct (req_op r).
Qed.
End alone.
