(* ===== verification/ConcurrentSinks.v ===== *)
(** * The sinks under concurrent validations

    The Prometheus metrics and the slog logger are shared by every validation of an
    engine (pkg/observability/prometheus, pkg/observability/slog).  What a pool of
    validations leaves in them is what its verdicts say, in any interleaving: no
    validation is counted or logged twice, and none is lost. *)
From stdpp Require Import base strings list relations.
From S2P Require Import Prelude.
From S2P Require Import GoRuntime.
From S2P Require Import Nodes.
From S2P Require Import Traversal.
From S2P Require Import PgQuery.
From S2P Require Import Statements.
From S2P Require Import Errors.
From S2P Require Import RuleContract.
From S2P Require Import Observability.
From S2P Require Import Engine.
From S2P Require Import EngineProps.
From S2P Require Import Prometheus.
From S2P Require Import Slog.
From S2P Require Import Prog.
From S2P Require Import ConcurrentEngine.

(** ** What calls do to the shared state *)

(** Whatever answers it gets, every call of the tree changes the state as [E] says. *)
Fixpoint has_effects {U R} (E : Call -> U -> U -> Prop) (p : prog U R) : Prop :=
  match p with
  | Finished _ => True
  | Calling record f k => (forall u, E (record (f u).1) u (f u).2) /\ forall o, has_effects E (k o)
  end.

(** Code outside the pool changes the state only as [I] allows. *)
Definition quiet_step {U R} (I : U -> U -> Prop) (s s' : pool U R) : Prop :=
  pool_step s s' /\ (calls s' = calls s -> I (shared s) (shared s')).

(** From one state to another by these calls, with interference between them. *)
Inductive path {U} (E : Call -> U -> U -> Prop) (I : U -> U -> Prop) (u : U) : list Call -> U -> Prop :=
| path_start : path E I u [] u
| path_other l u1 u2 : path E I u l u1 -> I u1 u2 -> path E I u l u2
| path_call l c u1 u2 : path E I u l u1 -> E c u1 u2 -> path E I u (l ++ [c]) u2.

Section effects.
Context {U : Type} (E : Call -> U -> U -> Prop).

Lemma effects_bind {A B} (m : prog U A) (k : A -> prog U B) :
  has_effects E m -> (forall a, has_effects E (k a)) -> has_effects E (m ≫= k).
Proof.
  intros Hm Hk. unfold mbind, prog_mbind. induction m as [[a|v]|X record f c IH]; cbn; [done|done|].
  destruct Hm as [Hf Hc]. split; [done|]. intros o. apply IH, Hc.
Qed.

Lemma effects_recover (m : prog U unit) : has_effects E m -> has_effects E (prog_recover m).
Proof. induction m as [r|X record f c IH]; cbn; [done|]. intros [Hf Hc]. split; [done|]. intros o. apply IH, Hc. Qed.

Lemma effects_for_range {X R} (l : list X) (body : X -> prog U (option R)) :
  (forall x, x ∈ l -> has_effects E (body x)) -> has_effects E (prog_for_range l body).
Proof.
  induction l as [|x l IH]; intros H; [done|]. cbn. apply effects_bind; [apply H; left|].
  intros [r|]; [done|]. apply IH. intros y Hy. apply H. by right.
Qed.

Lemma effects_call {A} (record : outcome A -> Call) (f : U -> outcome A * U) :
  (forall u, E (record (f u).1) u (f u).2) -> has_effects E (prog_call record f).
Proof. by intros H. Qed.
End effects.

(** The effects of the calls of a validation are those of its context, rules and sinks. *)
Section validations.
Context {U : Type} `{PQ : PgQuery} (build : Build) (E : Call -> U -> U -> Prop) (e : Engine U) (ctx : Context U).
Context (Hparse : forall sql u, E (CParse sql) u u).
Context (Hctx : forall u, E (CErr (Err ctx u).1) u (Err ctx u).2).
Context (Hrules : Forall (fun r => forall d, reg_rule r = Some d ->
  forall s u, E (CEvaluate (reg_ruleID r) s (Evaluate (dyn_impl d) ctx s u).1) u (Evaluate (dyn_impl d) ctx s u).2)
  (engine_rules e)).
Context (Hmetrics : forall d, engine_metrics e = Some d ->
  forall ev u, E (CRecord ev) u (RecordValidation (dyn_impl d) ev u).2).
Context (Hlogger : forall d, engine_logger e = Some d ->
  forall ev u, E (CLog ev) u (LogValidation (dyn_impl d) ev u).2).

Lemma effects_finishP outcome ruleID result : has_effects E (finishP e outcome ruleID result).
Proof.
  unfold finishP. apply effects_bind; [|intros []; apply effects_bind; [|done]].
  - destruct (engine_metrics e) as [d|] eqn:Hm; [|done].
    apply effects_recover, effects_bind; [|done]. apply effects_call. by apply Hmetrics.
  - destruct (engine_logger e) as [d|] eqn:Hl; [|done].
    apply effects_recover, effects_bind; [|done]. apply effects_call. by apply Hlogger.
Qed.

Lemma effects_PrepareP sql : has_effects E (PrepareP build e ctx sql).
Proof.
  unfold PrepareP. apply effects_bind; [by apply effects_call|]. intros [err|].
  { apply effects_bind; [apply effects_finishP | done]. }
  apply effects_bind; [apply effects_call; intros u; apply Hparse|]. intros [result parseErr].
  apply effects_bind; [by apply effects_call|].
  intros [err|]; [apply effects_bind; [apply effects_finishP | done]|].
  destruct parseErr; [apply effects_bind; [apply effects_finishP | done] | done].
Qed.

Lemma effects_ValidateP sql : has_effects E (ValidateP build e ctx sql).
Proof.
  unfold ValidateP. apply effects_bind; [apply effects_PrepareP|]. intros [prepared [err|]]; [done|].
  unfold ValidatePreparedP. apply effects_bind; [by apply effects_call|].
  intros [err|]; [apply effects_finishP|]. destruct (prepared_result prepared) as [result|]; [|apply effects_finishP].
  apply effects_bind; [|intros [r|]; [done | apply effects_finishP]].
  apply effects_for_range. intros root _. apply effects_for_range. intros r Hr.
  rewrite Forall_forall in Hrules. specialize (Hrules r Hr). unfold evaluateP.
  apply effects_bind; [by apply effects_call|].
  intros [err|]; [apply effects_bind; [apply effects_finishP | done]|].
  apply effects_bind.
  - destruct (reg_rule r) as [d|]; [|done]. apply effects_call. intros u. by apply Hrules.
  - intros result'. destruct (Rejected result'); [|done]. apply effects_bind; [apply effects_finishP | done].
Qed.
End validations.

(** ** Pools with effects *)
Section pools.
Context {U : Type} (E : Call -> U -> U -> Prop) (I : U -> U -> Prop).

Lemma quiet_pool {R} (s s' : pool U R) : rtc (quiet_step I) s s' -> rtc pool_step s s'.
Proof. apply rtc_subrel. by intros ? ? []. Qed.

Lemma quiet_path {R} (u : U) (ps : list (prog U R)) s :
  Forall (has_effects E) ps -> rtc (quiet_step I) (start u ps) s ->
  Forall (has_effects E) (threads s) /\ path E I u (map snd (calls s)) (shared s).
Proof.
  intros Hps. revert s. apply rtc_ind_r; [split; [done | constructor]|].
  intros s s' _ [Hstep Hquiet] [Hall Hpath]. destruct Hstep as [s i A record f k Hi|s u']; cbn in *.
  - pose proof (proj1 (Forall_lookup _ _) Hall i _ Hi) as [Hf Hk]. split; [by apply Forall_insert|].
    rewrite map_app. eapply path_call; [exact Hpath | apply Hf].
  - split; [done|]. eapply path_other; [exact Hpath | by apply Hquiet].
Qed.
End pools.

(** The calls of a pool are those of its trees, in some order. *)
Lemma calls_permutation {L} n (l : list (nat * L)) :
  Forall (fun jc => jc.1 < n) l -> map snd l ≡ₚ flat_map (fun i => calls_of i l) (seq 0 n).
Proof.
  induction 1 as [|[j c] l Hj _ IH]; cbn [map snd].
  { induction (seq 0 n) as [|i js IH]; [done|]. exact IH. }
  rewrite IH. clear IH. cbn in Hj. assert (j ∈ seq 0 n) as Hin by (apply elem_of_seq; lia).
  pose proof (NoDup_seq 0 n) as Hnd. revert Hin Hnd. generalize (seq 0 n) as js.
  assert (forall js, j ∉ js -> flat_map (fun i => calls_of i ((j, c) :: l)) js = flat_map (fun i => calls_of i l) js) as Hne.
  { induction js as [|i js IH]; intros H; [done|]. apply not_elem_of_cons in H as [Hi H]. cbn [flat_map].
    rewrite (IH H). cbn. by rewrite decide_False. }
  induction js as [|i js IH]; intros Hin Hnd; [by apply elem_of_nil in Hin|].
  apply NoDup_cons in Hnd as [Hi Hnd]. cbn [flat_map]. destruct (decide (j = i)) as [->|Hji].
  - rewrite Hne by done. cbn. by rewrite decide_True.
  - apply elem_of_cons in Hin as [?|Hin]; [done|]. cbn. rewrite decide_False by done. cbn.
    rewrite <- (IH Hin Hnd). by rewrite Permutation_middle.
Qed.

#[export] Instance omap_perm {X Y} (f : X -> option Y) : Proper ((≡ₚ) ==> (≡ₚ)) (omap f).
Proof.
  induction 1 as [|x l l' _ IH|x y l|l1 l2 l3 _ IH1 _ IH2]; cbn.
  - done.
  - destruct (f x); [by rewrite IH | done].
  - destruct (f x), (f y); by try apply perm_swap.
  - by etrans.
Qed.

(** ** The events of finished validations *)
Definition recorded (c : Call) : option ValidationEvent := match c with CRecord ev => Some ev | _ => None end.
Definition logged (c : Call) : option ValidationEvent := match c with CLog ev => Some ev | _ => None end.

(** Every validation of the pool has returned or panicked. *)
Definition all_finished {U R} (s : pool U R) : Prop := Forall (fun q => exists o, q = Finished o) (threads s).

(** These are the verdicts of the validations, in the order of the requests. *)
Definition verdicts_of {U} `{PQ : PgQuery} (build : Build) (e : Engine U) (requests : list (Context U * string))
    (s : pool U (option goerror)) (vs : list verdict) : Prop :=
  length vs = length requests /\
  forall i r v, requests !! i = Some r -> vs !! i = Some v ->
    threads s !! i = Some (Finished (verdict_result v)) /\ exists t, validate_protocol build e r.2 t v.

Section finished.
Context {U : Type} `{PQ : PgQuery} (build : Build) (e : Engine U).

(** What a projection of the sinks' calls sees of the calls of a whole pool. *)
Lemma finished_events requests u s (see : Call -> option ValidationEvent) :
  engine_wf e -> rtc pool_step (start u (validations build e requests)) s -> all_finished s ->
  (forall c, is_sink c = false -> see c = None) ->
  (forall ev, omap see (emits e ev) = [ev]) ->
  exists vs, verdicts_of build e requests s vs /\ omap see (map snd (calls s)) ≡ₚ omap verdict_event vs.
Proof.
  intros Hwf Hs Hall Hnone Hone.
  assert (forall i, i < length requests -> exists v, forall r, requests !! i = Some r ->
    threads s !! i = Some (Finished (verdict_result v)) /\ (exists t, validate_protocol build e r.2 t v) /\
    omap see (calls_of i (calls s)) = option_list (verdict_event v)) as Hthread.
  { intros i Hi. destruct (lookup_lt_is_Some_2 _ _ Hi) as [[ctx sql] Hr].
    destruct (pool_follows _ _ _ Hs) as [_ Hfollow].
    destruct (Hfollow i (ValidateP build e ctx sql)) as (us & q & Hq & Hus).
    { unfold validations. by rewrite list_lookup_fmap, Hr. }
    destruct (proj1 (Forall_lookup _ _) Hall i q Hq) as [o ->].
    destruct (followed_protocol build u e ctx sql _ _ _ (wf_live _ Hwf) Hus) as (t & v & Hp & Ht & ->).
    exists v. intros r Hr'. rewrite Hr in Hr'. injection Hr' as <-. split; [done|]. split; [by exists t|].
    rewrite Ht, omap_app.
    assert (omap see t = []) as ->.
    { pose proof (validate_calls build e sql t v Hp) as Hns. clear -Hns Hnone.
      induction Hns as [|c t Hc _ IH]; [done|]. cbn. by rewrite Hnone. }
    unfold verdict_emits. destruct (verdict_event v); [apply Hone | done]. }
  destruct (pool_follows _ _ _ Hs) as [Hlen _].
  pose proof (calls_permutation _ _ (pool_callers _ _ _ Hs)) as Hperm.
  assert (length (validations build e requests) = length requests) as Hn by apply length_map. rewrite Hn in *.
  assert (forall n, n <= length requests -> exists vs, length vs = n /\
    (forall i r v, requests !! i = Some r -> vs !! i = Some v ->
      threads s !! i = Some (Finished (verdict_result v)) /\ exists t, validate_protocol build e r.2 t v) /\
    omap see (flat_map (fun i => calls_of i (calls s)) (seq 0 n)) = omap verdict_event vs) as Hpre.
  { induction n as [|n IH]; intros Hle; [exists []; split_and!; [done|done|done]|].
    destruct (IH ltac:(lia)) as (vs & Hvs & Hok & Hev). destruct (Hthread n ltac:(lia)) as (v & Hv).
    destruct (lookup_lt_is_Some_2 requests n ltac:(lia)) as [r Hr].
    destruct (Hv r Hr) as (Hfin & Hproto & Hone').
    exists (vs ++ [v]). split_and!.
    - rewrite length_app, Hvs. cbn. lia.
    - intros i r' v' Hr' Hv'. apply lookup_app_Some in Hv' as [Hv'|[Hi Hv']]; [by eapply Hok|].
      assert (i = n) as -> by (apply list_lookup_singleton_Some in Hv' as [Hi' _]; lia).
      rewrite Hvs, Nat.sub_diag in Hv'. injection Hv' as <-. rewrite Hr in Hr'. injection Hr' as <-. done.
    - rewrite seq_S, flat_map_app, omap_app, Hev, omap_app. f_equal. cbn.
      rewrite app_nil_r, Hone'. by destruct (verdict_event v). }
  destruct (Hpre (length requests) ltac:(lia)) as (vs & Hvs & Hok & Hev). exists vs. split; [by split|].
  rewrite Hperm, Hev. done.
Qed.
End finished.

(** ** Counters *)
Section counters.
Context {U : Type} `{PC : PrometheusClient U} `{!PrometheusLaws PC}.

(** Recording counts the event once; nothing else touches a counter. *)
Definition counting (m : PromMetrics) (c : Call) (u u' : U) : Prop :=
  match c with CRecord ev => counted_once m ev u u' | _ => same_counters u u' end.

(** How many of these events belong to a series. *)
Definition occurrences (m : PromMetrics) (lvs : list string) (evs : list ValidationEvent) : N :=
  N.of_nat (length (filter (fun ev => event_labels m ev = lvs) evs)).

Lemma occurrences_perm m lvs evs evs' : evs ≡ₚ evs' -> occurrences m lvs evs = occurrences m lvs evs'.
Proof. unfold occurrences. by intros ->. Qed.

Lemma path_counts m u l u' :
  path (counting m) same_counters u l u' ->
  (forall lvs, series (prom_validations m) lvs u' =
    (series (prom_validations m) lvs u + occurrences m lvs (omap recorded l))%N) /\
  (forall vec lvs, vec <> prom_validations m -> series vec lvs u' = series vec lvs u).
Proof.
  induction 1 as [|l u1 u2 _ [IH1 IH2] H|l c u1 u2 _ [IH1 IH2] H].
  - split; [|done]. intros lvs. unfold occurrences. cbn. by rewrite N.add_0_r.
  - split; [intros lvs|intros vec lvs Hvec]; rewrite H; auto.
  - split.
    + intros lvs. unfold occurrences in *. rewrite omap_app, filter_app, length_app.
      destruct c as [| | | |ev|]; cbn [counting recorded omap list_omap] in *;
        try (rewrite H, IH1; cbn; lia).
      destruct H as [Hsame Hother]. destruct (decide (event_labels m ev = lvs)) as [<-|Hne].
      * rewrite Hsame, IH1, filter_cons_True by done. cbn. lia.
      * rewrite Hother, IH1, filter_cons_False by (done || congruence). cbn. lia.
    + intros vec lvs Hvec. destruct c; cbn [counting] in H; try (rewrite H; by apply IH2).
      rewrite (proj2 H) by congruence. by apply IH2.
Qed.

(** C26: Concurrent validations are counted exactly once each: when every validation of a
    pool has returned or panicked, each series of the metrics that [New] returned has grown
    by the number of validations whose verdict has its labels, whatever the interleaving,
    and no other counter has changed. *)
Theorem concurrent_counts `{PQ : PgQuery} build config u0 m u0' (e : Engine U) requests u s :
  New config u0 = (Ret (Some m, None), u0') ->
  engine_wf e -> engine_metrics e = PromMetrics_iface (Some m) ->
  (forall d, engine_logger e = Some d -> forall ev u, same_counters u (LogValidation (dyn_impl d) ev u).2) ->
  Forall (fun r => forall u, same_counters u (Err r.1 u).2) requests ->
  Forall (fun r => Forall (fun reg => forall d, reg_rule reg = Some d ->
    forall st u, same_counters u (Evaluate (dyn_impl d) r.1 st u).2) (engine_rules e)) requests ->
  rtc (quiet_step same_counters) (start u (validations build e requests)) s -> all_finished s ->
  exists vs, verdicts_of build e requests s vs /\
    (forall lvs, series (prom_validations m) lvs (shared s) =
      (series (prom_validations m) lvs u + occurrences m lvs (omap verdict_event vs))%N) /\
    (forall vec lvs, vec <> prom_validations m -> series vec lvs (shared s) = series vec lvs u).
Proof.
  intros (_ & _ & _ & Hlab)%New_ok Hwf Hm Hlog Hctx Hrules Hs Hall.
  assert (Forall (has_effects (counting m)) (validations build e requests)) as Heff.
  { apply Forall_fmap. rewrite Forall_forall in Hctx, Hrules |- *. intros [ctx sql] Hr.
    apply effects_ValidateP; [done | by apply (Hctx _ Hr) | by apply (Hrules _ Hr) | | done].
    rewrite Hm. intros d [= <-] ev u'.
    destruct (RecordValidation_run m ev u') as (u'' & Hrec & Hc); [by rewrite Hlab|].
    cbn [dyn_impl RecordValidation counting]. by rewrite Hrec. }
  destruct (quiet_path (counting m) same_counters u _ s Heff Hs) as [_ Hpath].
  destruct (finished_events build e requests u s recorded Hwf (quiet_pool _ _ _ Hs) Hall) as (vs & Hvs & Hperm).
  - by intros [].
  - intros ev. unfold emits. rewrite Hm. by destruct (engine_logger e).
  - destruct (path_counts m u _ _ Hpath) as [Hcount Hother]. exists vs. split; [done|]. split; [|done].
    intros lvs. by rewrite Hcount, (occurrences_perm _ _ _ _ Hperm).
Qed.
End counters.

(** ** Log records *)
Section logs.
Context {U : Type} (Now : U -> Z * U).

(** Logging adds the record of its event when the handler keeps its level; nothing else
    adds records. *)
Definition logging (min_level : Z) (records : U -> list LogRecord) (c : Call) (u u' : U) : Prop :=
  match c with
  | CLog ev => exists t, records u' = (records u ++
      if bool_decide (min_level <= validationLevel (event_outcome ev))%Z then [event_record t ev] else [])%list
  | _ => records u' = records u
  end.

(** The events whose level the handler keeps. *)
Definition kept (min_level : Z) (evs : list ValidationEvent) : list ValidationEvent :=
  filter (fun ev => (min_level <= validationLevel (event_outcome ev))%Z) evs.

Lemma path_logs min_level records u l u' :
  path (logging min_level records) (fun u1 u2 => records u2 = records u1) u l u' ->
  exists new, records u' = (records u ++ new)%list /\
    Forall2 (fun r ev => exists t, r = event_record t ev) new (kept min_level (omap logged l)).
Proof.
  induction 1 as [|l u1 u2 _ (new & IH & Hnew) H|l c u1 u2 _ (new & IH & Hnew) H].
  - exists []. split; [by rewrite app_nil_r | constructor].
  - exists new. by rewrite H.
  - unfold kept in *. rewrite omap_app, filter_app.
    destruct c as [| | | | |ev]; cbn [logging logged omap list_omap] in *;
      try (exists new; rewrite H, app_nil_r; by split).
    destruct H as (t & Ht). case_bool_decide as Hlevel.
    + exists (new ++ [event_record t ev]). rewrite Ht, IH, <- app_assoc. split; [done|].
      apply Forall2_app; [done|]. rewrite filter_cons_True by done. constructor; [by exists t | constructor].
    + exists new. rewrite Ht, IH, <- app_assoc, app_nil_r, filter_cons_False by done.
      cbn. by rewrite app_nil_r.
Qed.

(** C27: Concurrent validations are logged exactly once each: when every validation of a
    pool has returned or panicked, the handler has received, in some order, exactly one
    record per validation whose verdict's level it keeps, with that verdict's event, and
    nothing else was logged. *)
Theorem concurrent_logs `{PQ : PgQuery} build d l min_level records (e : Engine U) requests u s :
  Slog_New (Some {| std_handler := Some d |}) = (l, None) ->
  keeps_records Now (dyn_impl d) min_level records ->
  engine_wf e -> engine_logger e = SlogLogger_iface Now l ->
  (forall d, engine_metrics e = Some d -> forall ev u, records (RecordValidation (dyn_impl d) ev u).2 = records u) ->
  Forall (fun r => forall u, records (Err r.1 u).2 = records u) requests ->
  Forall (fun r => Forall (fun reg => forall d, reg_rule reg = Some d ->
    forall st u, records (Evaluate (dyn_impl d) r.1 st u).2 = records u) (engine_rules e)) requests ->
  rtc (quiet_step (fun u1 u2 => records u2 = records u1)) (start u (validations build e requests)) s ->
  all_finished s ->
  exists vs new evs, verdicts_of build e requests s vs /\
    records (shared s) = (records u ++ new)%list /\
    evs ≡ₚ kept min_level (omap verdict_event vs) /\
    Forall2 (fun r ev => exists t, r = event_record t ev) new evs.
Proof.
  intros [= <-] Hk Hwf Hl Hmet Hctx Hrules Hs Hall.
  assert (Forall (has_effects (logging min_level records)) (validations build e requests)) as Heff.
  { apply Forall_fmap. rewrite Forall_forall in Hctx, Hrules |- *. intros [ctx sql] Hr.
    apply effects_ValidateP; [done | by apply (Hctx _ Hr) | by apply (Hrules _ Hr) | done |].
    rewrite Hl. intros d' [= <-] ev u'. by apply LogValidation_keeps. }
  destruct (quiet_path _ _ u _ s Heff Hs) as [_ Hpath].
  destruct (finished_events build e requests u s logged Hwf (quiet_pool _ _ _ Hs) Hall) as (vs & Hvs & Hperm).
  - by intros [].
  - intros ev. unfold emits. rewrite Hl. by destruct (engine_metrics e).
  - destruct (path_logs _ _ _ _ _ Hpath) as (new & Hnew & Hall2).
    exists vs, new, (kept min_level (omap logged (map snd (calls s)))). split_and!; [done|done| |done].
    unfold kept. by rewrite Hperm.
Qed.
End logs.
