(* ===== verification/ConcurrentSystem.v ===== *)
(** * The concurrent application

    Many goroutines use one caching guard over one engine of built-in rules.  The guard's
    state machine is composed with what the engine's operations, interleaved call by call,
    may answer. *)
From stdpp Require Import base strings list relations.
From S2P Require Import Prelude.
From S2P Require Import GoRuntime.
From S2P Require Import Nodes.
From S2P Require Import Traversal.
From S2P Require Import PgQuery.
From S2P Require Import Statements.
From S2P Require Import Errors.
From S2P Require Import RuleContract.
From S2P Require Import Observability.
From S2P Require Import Engine.
From S2P Require Import EngineState.
From S2P Require Import EngineProps.
From S2P Require Import BuiltinRules.
From S2P Require Import Pgx.
From S2P Require Import PgxPrepared.
From S2P Require Import PgxEngine.
From S2P Require Import Prog.
From S2P Require Import ConcurrentEngine.
From S2P Require Import ConcurrentGuard.

(** What the engine may answer when others change the application's state between its
    calls. *)
Definition interfered_engine {U} `{PQ : PgQuery} (build : Build) (e : Engine U) : ConcurrentValidator (Context U) := {|
  may_prepare ctx sql o := exists us t, follow (PrepareP build e ctx sql) us = Some (Finished o, t);
  may_validate ctx p o := exists us t, follow (ValidatePreparedP e ctx p) us = Some (Finished o, t)
|}.

Section answers.
Context {U : Type} `{PQ : PgQuery} (build : Build).
Implicit Types (e : Engine U) (ctx : Context U).

(** The answers are those of the replayed engine. *)
Lemma may_prepare_run e ctx sql o :
  may_prepare (interfered_engine build e) ctx sql o ->
  exists d w, o = (Prepare build (replay_engine d ctx e) (replay_context d ctx) sql w).1.
Proof.
  intros (us & t & Hf). destruct us as [|d us]; [done|]. exists d.
  destruct (sim_replay d _ _ _ _ _ (sim_PrepareP build d e ctx sql) Hf) as (us' & Hrun).
  exists {| user := us' ++ []; trace := [] |}. rewrite <- (denote_PrepareP build _ _ _ _), Hrun. done.
Qed.

Lemma may_validate_run e ctx p o :
  may_validate (interfered_engine build e) ctx p o ->
  exists d w, o = (ValidatePrepared (replay_engine d ctx e) (replay_context d ctx) p w).1.
Proof.
  intros (us & t & Hf). destruct us as [|d us]; [done|]. exists d.
  destruct (sim_replay d _ _ _ _ _ (sim_ValidatePreparedP d e ctx p) Hf) as (us' & Hrun).
  exists {| user := us' ++ []; trace := [] |}. rewrite <- (denote_ValidatePreparedP _ _ _ _), Hrun. done.
Qed.

(** A value that may be prepared from a text is what the parser makes of it. *)
Lemma may_prepare_sound e ctx sql p :
  may_prepare (interfered_engine build e) ctx sql (Ret (p, None)) ->
  Parse build sql = (prepared_result p, None) /\ engine_prepares build sql = inl p.
Proof.
  intros (d & w & Ho)%may_prepare_run.
  destruct (Prepare build (replay_engine d ctx e) (replay_context d ctx) sql w) as [o w'] eqn:Hrun.
  cbn in Ho. subst o. apply Prepare_None in Hrun as [Hp Hne]. split; [done|].
  unfold engine_prepares. rewrite Hp. destruct p as [[r|]]; [done | by destruct Hne].
Qed.

(** A nil verdict of an engine of built-in rules, whatever happened in between. *)
Lemma may_validate_compliant e selection ctx p :
  map reg_rule (engine_rules e) = map constructor selection ->
  may_validate (interfered_engine build e) ctx p (Ret None) ->
  exists r, prepared_result p = Some r /\
    forall top n b, Some top ∈ result_statements r -> rtc cte_of top n -> b ∈ selection -> ~ violates b n.
Proof.
  intros Hsel (d & w & Ho)%may_validate_run.
  destruct (ValidatePrepared (replay_engine d ctx e) (replay_context d ctx) p w) as [o w'] eqn:Hrun.
  cbn in Ho. subst o. apply ValidatePrepared_None in Hrun as (r & Hr & Hall). exists r. split; [done|].
  intros top n b Htop Hn Hb. rewrite <- builtin_evaluate_violates.
  assert (@constructor U b ∈ map reg_rule (engine_rules e)) as Hin by (rewrite Hsel; apply list_elem_of_fmap; eauto).
  apply list_elem_of_fmap in Hin as (reg & Hreg & Hin).
  destruct (Hall (Some n) (replay_registered d ctx reg)) as (x & u1 & u2 & Hx & Hev).
  { apply StatementSequence_elem; eauto. }
  { cbn. by apply list_elem_of_fmap_2. }
  cbn in Hx. rewrite <- Hreg, constructor_eq in Hx. injection Hx as <-. cbn in Hev.
  unfold Rejected. unfold replay in Hev. by destruct u1; injection Hev as -> _.
Qed.

Lemma cleared_compliant e selection (r : request (Context U)) t :
  map reg_rule (engine_rules e) = map constructor selection ->
  cleared (interfered_engine build e) r t -> compliant build selection (req_sql r).
Proof.
  intros Hsel Hcl.
  assert (exists p, may_come_from (interfered_engine build e) (req_sql r) p /\
    may_validate (interfered_engine build e) (req_ctx r) p (Ret None)) as (p & [ctx Hp] & Hv)
    by (destruct Hcl as [p|p Hp]; exists p; [done | split; [by exists (req_ctx r) | done]]).
  apply may_prepare_sound in Hp as [Hp _].
  destruct (may_validate_compliant _ _ _ _ Hsel Hv) as (res & Hres & Hall).
  exists res. by rewrite Hp, Hres.
Qed.

(** Under a good context both phases are functions of their arguments. *)
Lemma replay_good d e ctx rejects :
  NoDup (map reg_ruleID (engine_rules e)) -> good_context e rejects ctx ->
  good_context (replay_engine d ctx e) (rejects_by_id e rejects) (replay_context d ctx).
Proof. intros Hnd [Hctx Hdec]. split; [by apply replay_never_done | by apply replay_decides]. Qed.

Lemma may_prepare_function e rejects ctx sql o :
  NoDup (map reg_ruleID (engine_rules e)) -> good_context e rejects ctx ->
  may_prepare (interfered_engine build e) ctx sql o ->
  o = Ret match engine_prepares build sql with
          | inl p => (p, None)
          | inr err => ({| prepared_result := None |}, Some err)
          end.
Proof.
  intros Hnd Hgood (d & w & ->)%may_prepare_run.
  destruct (pc_prepare (PreparedContract:=engine_contract build (replay_engine d ctx e) (rejects_by_id e rejects))
    _ sql w (replay_good d e ctx rejects Hnd Hgood)) as [w' Hrun].
  cbn in Hrun. by rewrite Hrun.
Qed.

Lemma may_validate_function e rejects ctx p o :
  NoDup (map reg_ruleID (engine_rules e)) -> good_context e rejects ctx ->
  may_validate (interfered_engine build e) ctx p o -> o = Ret (engine_verdict e rejects p).
Proof.
  intros Hnd Hgood (d & w & ->)%may_validate_run.
  destruct (pc_validate (PreparedContract:=engine_contract build (replay_engine d ctx e) (rejects_by_id e rejects))
    _ p w (replay_good d e ctx rejects Hnd Hgood)) as [w' Hrun].
  cbn in Hrun. rewrite Hrun. cbn. f_equal. unfold engine_verdict.
  destruct (prepared_result p) as [r|]; [|done]. by apply replay_first_rejection.
Qed.

(** The engine's calls return. *)
Lemma interfered_total e (u : U) :
  (forall ctx sql, exists o, may_prepare (interfered_engine build e) ctx sql o) /\
  (forall ctx p, exists o, may_validate (interfered_engine build e) ctx p o).
Proof.
  split; intros ctx x; cbn.
  - destruct (follow_completes (PrepareP build e ctx x) u) as (us & t & o & Hf). by exists o, us, t.
  - destruct (follow_completes (ValidatePreparedP e ctx x) u) as (us & t & o & Hf). by exists o, us, t.
Qed.
End answers.

(** ** Properties *)
Section system.
Context {U : Type} `{PQ : PgQuery} (build : Build) `{LL : LRULaws Prepared} (maxSQLBytes : Z).

(** What a request gets from a guard without a cache when nothing else runs. *)
Definition lone_reply (e : Engine U) (r : request (Context U)) (w : World U) : reply :=
  if containsQueryRewriter (req_args r) then Refused ErrQueryRewriterUnsupported
  else match (Validate build e (req_ctx r) (req_sql r) w).1 with
       | Ret None => Executed
       | Ret (Some err) => Refused err
       | Panic v => Crashed v
       end.

Lemma lone_reply_executed (e : Engine U) selection r w :
  map reg_rule (engine_rules e) = map constructor selection -> never_done (req_ctx r) ->
  lone_reply e r w = Executed <-> compliant build selection (req_sql r) /\ containsQueryRewriter (req_args r) = false.
Proof.
  intros Hsel Hctx. unfold lone_reply. destruct (containsQueryRewriter _); [by split; [|intros [_ ?]]|].
  pose proof (builtin_accepts build e selection (req_ctx r) (req_sql r) w Hsel Hctx) as Hacc.
  fold (compliant build selection (req_sql r)) in Hacc. destruct (Validate _ _ _ _ _).1 as [[err|]|v]; split.
  all: (by intros) || (intros [Hc _]; by apply Hacc in Hc) || (by intros _; split; [apply Hacc|]).
Qed.

Lemma lone_reply_returns (e : Engine U) selection r w :
  map reg_rule (engine_rules e) = map constructor selection -> never_done (req_ctx r) ->
  lone_reply e r w = Executed \/ exists err, lone_reply e r w = Refused err.
Proof.
  intros Hsel Hctx. unfold lone_reply. destruct (containsQueryRewriter _); [right; by eexists|].
  rewrite (Validate_first build e (req_ctx r) _ Hctx (builtin_decides (req_ctx r) (user w) _ _ Hsel)).
  by destruct (Parse build (req_sql r)) as [[res|] [?|]]; [right; by eexists | destruct (find_first _ _) as [err|]; [right; by eexists | by left] | right; by eexists ..].
Qed.

(** Every reply is the one that the request gets alone, in any state. *)
Lemma lone_reply_given (e : Engine U) selection cache requests n schedule s i r rep w :
  engine_wf e -> map reg_rule (engine_rules e) = map constructor selection ->
  lru_New n = Some cache -> (0 < n)%Z ->
  execution (interfered_engine build e) maxSQLBytes requests schedule (guard_start cache requests) s ->
  requests !! i = Some r -> never_done (req_ctx r) -> g_at s !! i = Some (Replied rep) ->
  rep = lone_reply e r w.
Proof.
  intros Hwf Hsel Hnew Hn Hexec Hr Hctx Hi. pose (rejects := answer (req_ctx r) (user w)).
  assert (Forall (fun reg => decides (req_ctx r) reg (rejects reg)) (engine_rules e)) as Hdec
    by exact (builtin_decides _ _ _ _ Hsel).
  apply execution_reachable in Hexec.
  pose proof (guard_answers _ maxSQLBytes cache requests n s i r rep (engine_prepares build)
    (engine_verdict e rejects) (good_context e rejects)
    (fun ctx sql p H => proj2 (may_prepare_sound build e ctx sql p H))
    (fun ctx sql o H => may_prepare_function build e rejects ctx sql o (wf_distinct _ Hwf) H)
    (fun ctx p o H => may_validate_function build e rejects ctx p o (wf_distinct _ Hwf) H)
    Hnew Hn Hexec Hr (conj Hctx Hdec) Hi) as ->.
  unfold lone_reply. destruct (containsQueryRewriter _); [done|].
  rewrite (Validate_first build e (req_ctx r) rejects Hctx Hdec).
  unfold uncached, engine_prepares, engine_verdict.
  destruct (Parse_shape build (req_sql r)) as [(res & ->)| ->]; cbn [prepared_result]; [|done].
  by destruct (find_first _ _).
Qed.

(** C2: End to end, under concurrency: however the requests of an application interleave, at
    the guard, in its cache and inside the engine, and whatever contexts and sinks do, the
    driver executes only SQL that parses and holds in no visited statement what a selected
    rule looks for, with arguments that do not rewrite it. *)
Theorem concurrent_system_enforces (e : Engine U) selection cache requests n s i op sql args :
  map reg_rule (engine_rules e) = map constructor selection ->
  lru_New n = Some cache -> (0 < n)%Z ->
  rtc (guard_step (interfered_engine build e) maxSQLBytes requests) (guard_start cache requests) s ->
  (i, DExecute op sql args) ∈ g_calls s ->
  compliant build selection sql /\ ~ Exists rewriter args.
Proof.
  intros Hsel Hnew Hn Hs Hin.
  destruct (guard_executed _ _ _ _ _ _ _ _ _ _ Hnew Hn Hs Hin) as (r & t & _ & _ & -> & _ & Hrw & _ & Hcl).
  split; [by eapply cleared_compliant | done].
Qed.

End system.
