(* ===== verification/Benchcharts.v ===== *)
(** * The chart generator (internal/testutil/cmd/benchcharts/main.go)

    The command reads a benchmark dataset, validates it and writes four SVG bar charts.
    Reading JSON, the file system and the iteration order of maps are parameters; flags
    are taken as parsed. *)
From Stdlib Require Import Ascii String.
From stdpp Require Import base gmap sets strings list sorting.
From S2P Require Import Prelude.
From S2P Require Import GoRuntime.
From S2P Require Import GoFloat.
From S2P Require Import GoText.
From S2P Require Import GoSlices.
From S2P Require Import Errors.

Local Open Scope Z_scope.

Definition chartWidth : Z := 960.
Definition chartHeight : Z := 480.
Definition plotTop : Z := 92.
Definition plotBottom : Z := 390.
Definition plotLeft : Z := 92.
Definition plotRight : Z := 928.
Definition mebibyte : Z := 1024 * 1024.

(** ** Data *)
Record environment : Set := {
  Host : string; env_OS : string; Architecture : string;
  LogicalCPUs : Z; GoVersion : string; CGOCompiler : string
}.

Record backendStrings : Set := { bs_CGO : string; bs_NoCGO : string }.

Record methodology : Set := {
  m_RunCount : Z; Benchtime : string; Commands : backendStrings;
  m_RawResults : backendStrings; RSSCommands : backendStrings; SizeCommands : backendStrings
}.

Record units : Set := {
  u_Latency : string; u_AllocatedBytes : string; u_ColdRSS : string; u_BinarySize : string
}.

Record benchmarkMedian : Set := { Latency : float64; AllocatedBytes : float64 }.

Record complexityCase : Set := {
  ID : string; Label : string; Order : Z; c_CGO : benchmarkMedian; c_NoCGO : benchmarkMedian
}.

Record footprintMedian : Set := { ColdRSS : float64; BinarySize : float64 }.

Record footprint : Set := {
  Workload : string; f_RunCount : Z; f_RawResults : backendStrings;
  f_CGO : footprintMedian; f_NoCGO : footprintMedian
}.

Record dataset : Set := {
  SchemaVersion : Z; MeasurementDate : string; Environment : environment;
  Methodology : methodology; Units : units; Cases : list complexityCase; Footprint : footprint
}.

Record chartCase : Set := { label : string; cgo : float64; noCGO : float64 }.

(** ** Validation *)
Definition empty (s : string) : bool := String.eqb s "".

Definition complete (values : backendStrings) : bool :=
  negb (empty (bs_CGO values)) && negb (empty (bs_NoCGO values)).

Definition positiveFinite (value : float64) : bool :=
  flt (of_int 0) value && negb (IsInf value) && negb (IsNaN value).

Section validate.
Context `{!Unicode}.

(** The loop over the cases; the two maps hold the orders and identifiers seen so far. *)
Fixpoint validate_cases (orders : gset Z) (ids : gset string) (cases : list complexityCase) :
    option goerror :=
  match cases with
  | [] => None
  | benchmarkCase :: cases' =>
      if empty (ID benchmarkCase) || empty (Label benchmarkCase) || (Order benchmarkCase <? 1)
      then Some (FmtError "case id, label, and positive order are required")
      else if bool_decide (Order benchmarkCase ∈ orders)
      then Some (FmtError "case order values must be unique")
      else if bool_decide (ID benchmarkCase ∈ ids)
      then Some (FmtError "case ids must be unique")
      else if negb (positiveFinite (Latency (c_CGO benchmarkCase))) ||
              negb (positiveFinite (Latency (c_NoCGO benchmarkCase))) ||
              negb (positiveFinite (AllocatedBytes (c_CGO benchmarkCase))) ||
              negb (positiveFinite (AllocatedBytes (c_NoCGO benchmarkCase)))
      then Some (FmtError ("case " +:+ Quote (ID benchmarkCase) +:+
                           " measurements must be positive finite values"))
      else validate_cases ({[Order benchmarkCase]} ∪ orders) ({[ID benchmarkCase]} ∪ ids) cases'
  end.

Definition validate (input : dataset) : option goerror :=
  let env := Environment input in
  let method := Methodology input in
  let foot := Footprint input in
  if negb (SchemaVersion input =? 1)
  then Some (FmtError "schema version must be 1")
  else if empty (MeasurementDate input) || empty (Host env) || empty (env_OS env) ||
          empty (Architecture env) || (LogicalCPUs env <? 1) ||
          empty (GoVersion env) || empty (CGOCompiler env)
  then Some (FmtError "measurement date and environment metadata are required")
  else if (m_RunCount method <? 5) || (f_RunCount foot <? 5)
  then Some (FmtError "benchmark and footprint run counts must be at least 5")
  else if empty (Benchtime method) || negb (complete (Commands method)) ||
          negb (complete (RSSCommands method)) || negb (complete (SizeCommands method))
  then Some (FmtError "benchmark methodology commands are required for both backends")
  else if negb (complete (m_RawResults method)) || negb (complete (f_RawResults foot))
  then Some (FmtError "raw result locations are required for both backends")
  else if negb (String.eqb (u_Latency (Units input)) "ns/op")
  then Some (FmtError "latency unit must be ns/op")
  else if negb (String.eqb (u_AllocatedBytes (Units input)) "B/op")
  then Some (FmtError "allocated-bytes unit must be B/op")
  else if negb (String.eqb (u_ColdRSS (Units input)) "bytes") ||
          negb (String.eqb (u_BinarySize (Units input)) "bytes")
  then Some (FmtError "footprint units must be bytes")
  else match Cases input with
  | [] => Some (FmtError "at least one SQL-complexity case is required")
  | _ :: _ =>
      match validate_cases ∅ ∅ (Cases input) with
      | Some err => Some err
      | None =>
          if empty (Workload foot) ||
             negb (positiveFinite (ColdRSS (f_CGO foot))) ||
             negb (positiveFinite (ColdRSS (f_NoCGO foot))) ||
             negb (positiveFinite (BinarySize (f_CGO foot))) ||
             negb (positiveFinite (BinarySize (f_NoCGO foot)))
          then Some (FmtError "footprint workload and positive finite measurements are required")
          else None
      end
  end.
End validate.

(** ** Rendering

    Go's raw string literals are written with apostrophes for quotation marks. *)
Fixpoint raw (s : string) : string :=
  match s with
  | EmptyString => ""
  | String c s' => String (if Ascii.eqb c "'" then quotation else c) (raw s')
  end.

Definition escape (value : string) : string := EscapeText value.

Section rendering.
Local Open Scope string_scope.

Definition formatValue (value : float64) (unit_ : string) (precision : nat) : string :=
  if String.eqb unit_ "ns/op" || String.eqb unit_ "B/op" then FormatFixed 0 value
  else FormatFixed precision value.

(** The builder is the text written so far.  The multiplication of the height and the
    subtraction that gives [y] round separately; a compiler may fuse them. *)
Definition writeBar (output : string) (x width value maximum : float64) (color unit_ : string)
    (precision : nat) : string :=
  let height := fmul (fdiv value maximum) (of_int (plotBottom - plotTop)) in
  let y := fsub (of_int plotBottom) height in
  let output := output +:+
    raw "<rect x='" +:+ FormatFixed 1 x +:+ raw "' y='" +:+ FormatFixed 1 y +:+
    raw "' width='" +:+ FormatFixed 1 width +:+ raw "' height='" +:+ FormatFixed 1 height +:+
    raw "' rx='4' fill='" +:+ color +:+ raw "'/>" in
  output +:+
    raw "<text x='" +:+ FormatFixed 1 (fadd x (fdiv width (of_int 2))) +:+
    raw "' y='" +:+ FormatFixed 1 (fsub y (of_int 8)) +:+
    raw "' text-anchor='middle' fill='#f0f6fc' font-family='system-ui,sans-serif' font-size='12'>" +:+
    formatValue value unit_ precision +:+ "</text>".

(** The largest measurement. *)
Definition measured_maximum (cases : list chartCase) : float64 :=
  foldl (fun maximum benchmarkCase => fmax (fmax maximum (cgo benchmarkCase)) (noCGO benchmarkCase))
    (of_int 0) cases.

(** One iteration of the loop over the groups.  The multiplication and the addition that
    give [center] round separately; a compiler may fuse them. *)
Definition writeGroup (groupWidth barWidth maximum : float64) (unit_ : string) (precision : nat)
    (output : string) (index : Z) (benchmarkCase : chartCase) : string :=
  let center := fadd (of_int plotLeft) (fmul groupWidth (fadd (of_int index) (constant 1 2))) in
  let output := writeBar output (fsub (fsub center barWidth) (of_int 3)) barWidth
    (cgo benchmarkCase) maximum "#58a6ff" unit_ precision in
  let output := writeBar output (fadd center (of_int 3)) barWidth
    (noCGO benchmarkCase) maximum "#d29922" unit_ precision in
  output +:+
    raw "<text x='" +:+ FormatFixed 1 center +:+
    raw "' y='420' text-anchor='middle' fill='#c9d1d9' font-family='system-ui,sans-serif' font-size='13'>" +:+
    escape (label benchmarkCase) +:+ "</text>".

Fixpoint writeGroups (groupWidth barWidth maximum : float64) (unit_ : string) (precision : nat)
    (output : string) (index : Z) (cases : list chartCase) : string :=
  match cases with
  | [] => output
  | benchmarkCase :: cases' =>
      writeGroups groupWidth barWidth maximum unit_ precision
        (writeGroup groupWidth barWidth maximum unit_ precision output index benchmarkCase)
        (index + 1) cases'
  end.

Definition renderGroupedBars (title description unit_ metadata : string) (cases : list chartCase)
    (precision : nat) : string :=
  let maximum := fmul (measured_maximum cases) (constant 11 10) in
  let output := raw "<svg xmlns='http://www.w3.org/2000/svg' width='960' height='480' viewBox='0 0 960 480' role='img' aria-labelledby='title desc'>" in
  let output := output +:+ raw "<title id='title'>" +:+ escape title +:+ "</title>" in
  let output := output +:+ raw "<desc id='desc'>" +:+
    escape (description +:+ ". CGO is blue and no-CGO is amber. Values are in " +:+ unit_ +:+ ".") +:+ "</desc>" in
  let output := output +:+ raw "<rect width='960' height='480' rx='16' fill='#0d1117'/>" in
  let output := output +:+
    raw "<text x='40' y='42' fill='#f0f6fc' font-family='system-ui,sans-serif' font-size='24' font-weight='700'>" +:+
    escape title +:+ "</text>" in
  let output := output +:+
    raw "<text x='40' y='68' fill='#8b949e' font-family='system-ui,sans-serif' font-size='13'>" +:+
    escape (metadata +:+ " · " +:+ unit_) +:+ "</text>" in
  let output := output +:+ raw "<line x1='92' y1='390' x2='928' y2='390' stroke='#30363d'/>" in
  let output := output +:+ raw "<rect x='730' y='28' width='12' height='12' rx='2' fill='#58a6ff'/><text x='748' y='39' fill='#c9d1d9' font-family='system-ui,sans-serif' font-size='13'>CGO</text>" in
  let output := output +:+ raw "<rect x='805' y='28' width='12' height='12' rx='2' fill='#d29922'/><text x='823' y='39' fill='#c9d1d9' font-family='system-ui,sans-serif' font-size='13'>no-CGO</text>" in
  let groupWidth := fdiv (of_int (plotRight - plotLeft)) (of_int (Z.of_nat (length cases))) in
  let barWidth := math_Min (of_int 70) (fmul groupWidth (constant 28 100)) in
  writeGroups groupWidth barWidth maximum unit_ precision output 0 cases +:+ "</svg>".
End rendering.

(** The comparison by which the cases are sorted: a 64-bit difference. *)
Definition compare_orders (left_ right_ : complexityCase) : Z :=
  int_sub (Order left_) (Order right_).

Definition latency_chart (benchmarkCase : complexityCase) : chartCase := {|
  label := Label benchmarkCase;
  cgo := Latency (c_CGO benchmarkCase);
  noCGO := Latency (c_NoCGO benchmarkCase)
|}.

Definition allocations_chart (benchmarkCase : complexityCase) : chartCase := {|
  label := Label benchmarkCase;
  cgo := AllocatedBytes (c_CGO benchmarkCase);
  noCGO := AllocatedBytes (c_NoCGO benchmarkCase)
|}.

Definition hostLine (input : dataset) : string :=
  MeasurementDate input +:+ " · " +:+ Host (Environment input) +:+ " · " +:+
  GoVersion (Environment input).

(** The map literal, with the cases already sorted. *)
Definition chart_table (input : dataset) (cases : list complexityCase) : list (string * string) :=
  let latency := map latency_chart cases in
  let allocations := map allocations_chart cases in
  let foot := Footprint input in
  let per_mib value := fdiv value (of_int mebibyte) in [
  ("latency.svg"%string,
    renderGroupedBars "Direct validation latency" "Median execution time; lower is better"
      (u_Latency (Units input)) (hostLine input) latency 1);
  ("allocations.svg"%string,
    renderGroupedBars "Allocated memory" "Median heap bytes per validation; lower is better"
      (u_AllocatedBytes (Units input)) (hostLine input) allocations 1);
  ("cold-rss.svg"%string,
    renderGroupedBars "Cold-process maximum RSS"
      "Median of fixed size-probe executions; lower is better" "MiB" (hostLine input)
      [{| label := Workload foot; cgo := per_mib (ColdRSS (f_CGO foot));
          noCGO := per_mib (ColdRSS (f_NoCGO foot)) |}] 1);
  ("binary-size.svg"%string,
    renderGroupedBars "Stripped linked binary size"
      "Equivalent size-probe builds; lower is better" "MiB" (hostLine input)
      [{| label := Workload foot; cgo := per_mib (BinarySize (f_CGO foot));
          noCGO := per_mib (BinarySize (f_NoCGO foot)) |}] 2)].

Definition renderCharts `{!Unicode} (input : dataset) : gmap string string + goerror :=
  match validate input with
  | Some err => inr err
  | None => inl (list_to_map (chart_table input (SortFunc compare_orders (Cases input))))
  end.

(** ** The command

    The operating system and the JSON decoder are parameters; the system calls and their
    results are kept in a log. *)
Class OS (U : Type) : Type := {
  os_ReadFile : string -> U -> (string + goerror) * U;
  os_MkdirAll : string -> Z -> U -> option goerror * U;
  os_WriteFile : string -> string -> Z -> U -> option goerror * U
}.

(** [json.Decoder.Decode] into a zero dataset, unknown fields disallowed. *)
Class Json : Type := { decode_dataset : string -> dataset + goerror }.

(** The order in which [range] visits the keys of a map. *)
Class MapRange : Type := { map_keys : gmap string string -> list string }.

Class MapRangeLaws `{!MapRange} : Prop := {
  map_keys_perm m : map_keys m ≡ₚ elements (dom m)
}.

Inductive Syscall : Type :=
| CReadFile (path : string) (result : string + goerror)
| CMkdirAll (path : string) (perm : Z) (err : option goerror)
| CWriteFile (path contents : string) (perm : Z) (err : option goerror)
| CStderr (err : goerror).

Record Process (U : Type) : Type := { os : U; syscalls : list Syscall }.
Arguments os {U} _.
Arguments syscalls {U} _.

Section command.
Context {U : Type} `{!OS U, !Json, !MapRange, !Unicode}.

Definition ReadFile (path : string) : M (Process U) (string + goerror) := fun s =>
  let '(r, u) := os_ReadFile path (os s) in
  (Ret r, {| os := u; syscalls := syscalls s ++ [CReadFile path r] |}).

Definition MkdirAll (path : string) (perm : Z) : M (Process U) (option goerror) := fun s =>
  let '(r, u) := os_MkdirAll path perm (os s) in
  (Ret r, {| os := u; syscalls := syscalls s ++ [CMkdirAll path perm r] |}).

Definition WriteFile (path contents : string) (perm : Z) : M (Process U) (option goerror) := fun s =>
  let '(r, u) := os_WriteFile path contents perm (os s) in
  (Ret r, {| os := u; syscalls := syscalls s ++ [CWriteFile path contents perm r] |}).

(** [fatal] ends the process; its value is the exit status. *)
Definition fatal (err : goerror) : M (Process U) Z := fun s =>
  (Ret 1, {| os := os s; syscalls := syscalls s ++ [CStderr err] |}).

Definition wrap_error (context : string) (err : goerror) : goerror :=
  WrapError (context +:+ ": " +:+ error_text err)%string err.

Definition loadDataset (path : string) : M (Process U) (dataset + goerror) :=
  contents ← ReadFile path;
  match contents with
  | inr err => mret (inr (wrap_error "read dataset" err))
  | inl contents =>
      match decode_dataset contents with
      | inr err => mret (inr (wrap_error "decode dataset" err))
      | inl input =>
          match validate input with
          | Some err => mret (inr err)
          | None => mret (inl input)
          end
      end
  end.

(** The body of the loop over the names of the charts; a failed write ends the process. *)
Definition write_chart (outDir : string) (charts : gmap string string) (name : string) :
    M (Process U) (option Z) :=
  written ← WriteFile (filepath_Join outDir name) (default ""%string (charts !! name)) 420;
  match written with
  | Some err => status ← fatal (wrap_error ("write " +:+ name)%string err); mret (Some status)
  | None => mret None
  end.

(** The flags are given as parsed; the value is the exit status of the process. *)
Definition main (dataPath outDir : string) : M (Process U) Z :=
  if empty dataPath || empty outDir
  then fatal (ErrorString "" "both -data and -out are required")
  else
    loaded ← loadDataset dataPath;
    match loaded with
    | inr err => fatal err
    | inl input =>
        match renderCharts input with
        | inr err => fatal err
        | inl charts =>
            made ← MkdirAll outDir 493;
            match made with
            | Some err => fatal (wrap_error "create output directory" err)
            | None =>
                let names := Sort (map_keys charts) in
                status ← for_range names (write_chart outDir charts);
                mret (default 0 status)
            end
        end
    end.
End command.
