(* ===== verification/ChartDocument.v ===== *)
(** * The charts as documents

    What a reader of the generated SVG sees: markup and text, with the text unescaped.
    The specification is the list of pieces of a chart; the theorems say that the
    generator writes exactly that document, that its elements nest, and that the texts of
    the dataset cannot change its markup. *)
From Stdlib Require Import Ascii String.
From stdpp Require Import base gmap sets strings list.
From S2P Require Import Prelude.
From S2P Require Import GoRuntime.
From S2P Require Import GoFloat.
From S2P Require Import GoText.
From S2P Require Import Benchcharts.

Local Open Scope Z_scope.

(** ** Documents *)
Inductive piece : Type :=
| Markup (s : string)   (** between angle brackets *)
| Chars (s : string).   (** text *)

#[export] Instance piece_eq_dec : EqDecision piece.
Proof. solve_decision. Defined.

Definition text_before (t : string) (ps : list piece) : list piece :=
  if empty t then ps else Chars (unescape t) :: ps.

(** The piece that is being read, and the pieces after it. *)
Fixpoint scan (in_tag : bool) (s : string) : string * list piece :=
  match s with
  | EmptyString => (""%string, [])
  | String c s' =>
      if in_tag then
        if Ascii.eqb c ">" then let '(t, ps) := scan false s' in (""%string, text_before t ps)
        else let '(t, ps) := scan true s' in (String c t, ps)
      else if Ascii.eqb c "<" then let '(m, ps) := scan true s' in (""%string, Markup m :: ps)
      else let '(t, ps) := scan false s' in (String c t, ps)
  end.

Definition read_svg (s : string) : list piece :=
  let '(t, ps) := scan false s in text_before t ps.

Definition print_piece (p : piece) : string :=
  match p with
  | Markup m => "<" +:+ m +:+ ">"
  | Chars t => escape t
  end%string.

Fixpoint print (ps : list piece) : string :=
  match ps with [] => "" | p :: ps' => (print_piece p +:+ print ps')%string end.

(** What reading makes of a piece: text that XML does not admit is replaced, and empty
    text is not seen. *)
Definition seen (p : piece) : list piece :=
  match p with
  | Markup m => [Markup m]
  | Chars t => if empty t then [] else [Chars (sanitize t)]
  end.

(** Markup holds no closing bracket, and no two texts are adjacent. *)
Fixpoint printable (ps : list piece) : bool :=
  match ps with
  | [] => true
  | Markup m :: ps' => string_forallb (fun c => negb (Ascii.eqb c ">")) m && printable ps'
  | Chars _ :: ps' =>
      match ps' with Chars _ :: _ => false | _ => printable ps' end
  end.

(** ** Elements nest

    The name of a tag ends at a space; a tag that begins with a slash closes, one that
    ends with a slash is an element of its own. *)
Fixpoint tag_name (m : string) : string :=
  match m with
  | EmptyString => ""
  | String c m' => if Ascii.eqb c " " then "" else String c (tag_name m')
  end.

Fixpoint ends_with (c : ascii) (m : string) : bool :=
  match m with
  | EmptyString => false
  | String d EmptyString => Ascii.eqb d c
  | String _ m' => ends_with c m'
  end.

(** The open elements after each piece; [None] when a tag closes another element than
    the innermost. *)
Definition nest (open : option (list string)) (p : piece) : option (list string) :=
  match open, p with
  | Some names, Markup (String "/" m) =>
      match names with
      | name :: names' => if String.eqb name m then Some names' else None
      | [] => None
      end
  | Some names, Markup m => Some (if ends_with "/" m then names else tag_name m :: names)
  | _, _ => open
  end.

Definition nests (ps : list piece) : Prop := foldl nest (Some []) ps = Some [].

(** ** The document of a chart *)
Section document.
Local Open Scope string_scope.

Definition bar (x width value maximum : float64) (color unit_ : string) (precision : nat) : list piece :=
  let height := fmul (fdiv value maximum) (of_int 298) in
  let y := fsub (of_int 390) height in [
  Markup (raw "rect x='" +:+ FormatFixed 1 x +:+ raw "' y='" +:+ FormatFixed 1 y +:+
    raw "' width='" +:+ FormatFixed 1 width +:+ raw "' height='" +:+ FormatFixed 1 height +:+
    raw "' rx='4' fill='" +:+ color +:+ raw "'/");
  Markup (raw "text x='" +:+ FormatFixed 1 (fadd x (fdiv width (of_int 2))) +:+
    raw "' y='" +:+ FormatFixed 1 (fsub y (of_int 8)) +:+
    raw "' text-anchor='middle' fill='#f0f6fc' font-family='system-ui,sans-serif' font-size='12'");
  Chars (formatValue value unit_ precision);
  Markup "/text"].

Definition group (groupWidth barWidth maximum : float64) (unit_ : string) (precision : nat)
    (index : Z) (benchmarkCase : chartCase) : list piece :=
  let center := fadd (of_int 92) (fmul groupWidth (fadd (of_int index) (constant 1 2))) in
  bar (fsub (fsub center barWidth) (of_int 3)) barWidth (cgo benchmarkCase) maximum "#58a6ff" unit_ precision ++
  bar (fadd center (of_int 3)) barWidth (noCGO benchmarkCase) maximum "#d29922" unit_ precision ++
  [Markup (raw "text x='" +:+ FormatFixed 1 center +:+
     raw "' y='420' text-anchor='middle' fill='#c9d1d9' font-family='system-ui,sans-serif' font-size='13'");
   Chars (label benchmarkCase); Markup "/text"]%list.

Definition groups (unit_ : string) (precision : nat) (cases : list chartCase) : list piece :=
  let maximum := fmul (measured_maximum cases) (constant 11 10) in
  let groupWidth := fdiv (of_int 836) (of_int (Z.of_nat (length cases))) in
  let barWidth := math_Min (of_int 70) (fmul groupWidth (constant 28 100)) in
  concat (imap (fun i => group groupWidth barWidth maximum unit_ precision (Z.of_nat i)) cases).

Definition legend (x fill x' text : string) : list piece := [
  Markup (raw "rect x='" +:+ x +:+ raw "' y='28' width='12' height='12' rx='2' fill='" +:+ fill +:+ raw "'/");
  Markup (raw "text x='" +:+ x' +:+ raw "' y='39' fill='#c9d1d9' font-family='system-ui,sans-serif' font-size='13'");
  Chars text; Markup "/text"].

Definition document (title description unit_ metadata : string) (cases : list chartCase)
    (precision : nat) : list piece := ([
  Markup (raw "svg xmlns='http://www.w3.org/2000/svg' width='960' height='480' viewBox='0 0 960 480' role='img' aria-labelledby='title desc'");
  Markup (raw "title id='title'"); Chars title; Markup "/title";
  Markup (raw "desc id='desc'");
  Chars (description +:+ ". CGO is blue and no-CGO is amber. Values are in " +:+ unit_ +:+ ".");
  Markup "/desc";
  Markup (raw "rect width='960' height='480' rx='16' fill='#0d1117'/");
  Markup (raw "text x='40' y='42' fill='#f0f6fc' font-family='system-ui,sans-serif' font-size='24' font-weight='700'");
  Chars title; Markup "/text";
  Markup (raw "text x='40' y='68' fill='#8b949e' font-family='system-ui,sans-serif' font-size='13'");
  Chars (metadata +:+ " · " +:+ unit_); Markup "/text";
  Markup (raw "line x1='92' y1='390' x2='928' y2='390' stroke='#30363d'/")] ++
  legend "730" "#58a6ff" "748" "CGO" ++ legend "805" "#d29922" "823" "no-CGO" ++
  groups unit_ precision cases ++ [Markup "/svg"])%list.
End document.

(** ** Lemmas: reading what was printed *)
Lemma scan_markup m r :
  string_forallb (fun c => negb (Ascii.eqb c ">")) m = true ->
  scan true (m +:+ String ">" r)%string = (m, read_svg r).
Proof.
  unfold read_svg. induction m as [|c m IH].
  - intros _. rewrite append_nil_l. cbn. by destruct (scan false r).
  - cbn [string_forallb]. intros [Hc Hm]%andb_prop. rewrite append_cons. cbn [scan].
    apply negb_true_iff in Hc. by rewrite Hc, IH.
Qed.

Lemma read_markup m r :
  string_forallb (fun c => negb (Ascii.eqb c ">")) m = true ->
  read_svg ("<" +:+ m +:+ ">" +:+ r)%string = Markup m :: read_svg r.
Proof.
  intros Hm. unfold read_svg at 1. rewrite append_cons, append_nil_l. cbn [scan Ascii.eqb Bool.eqb].
  change (">" +:+ r)%string with (String ">" r). by rewrite scan_markup.
Qed.

Lemma scan_text t r :
  string_forallb inert t = true ->
  scan false (t +:+ r)%string = ((t +:+ fst (scan false r))%string, snd (scan false r)).
Proof.
  induction t as [|c t IH]; cbn [string_forallb].
  - intros _. rewrite !append_nil_l. by destruct (scan false r).
  - intros [Hc Ht]%andb_prop. rewrite append_cons. cbn [scan].
    destruct (Ascii.eqb_spec c "<") as [->|]; [done|]. by rewrite IH.
Qed.

Lemma EscapeText_empty t : empty (EscapeText t) = empty t.
Proof.
  destruct t as [|c t]; [done|]. cbn [empty String.eqb]. pose proof (unescape_EscapeText (String c t)) as H.
  destruct (empty (EscapeText (String c t))) eqn:He; [|done].
  apply String.eqb_eq in He. rewrite He in H. cbn in H.
  destruct (DecodeRune c t) as [r w]. by destruct (keeps c t).
Qed.

(** Reading a printed document gives its pieces back. *)
Lemma read_print ps : printable ps = true -> read_svg (print ps) = flat_map seen ps.
Proof.
  induction ps as [|[m|t] ps IH]; intros Hps; [done| |].
  - cbn [printable] in Hps. apply andb_prop in Hps as [Hm Hps].
    cbn [print print_piece flat_map seen app]. rewrite !append_assoc.
    by rewrite read_markup, IH.
  - assert (printable ps = true /\ fst (scan false (print ps)) = ""%string) as [Hps' Hstart].
    { cbn [printable] in Hps. destruct ps as [|[m|t'] ps]; [done| |done]. split; [done|].
      cbn [print print_piece]. rewrite !append_cons. cbn [scan Ascii.eqb Bool.eqb].
      by destruct (scan true _). }
    cbn [print print_piece flat_map seen]. rewrite <- IH by done. unfold read_svg, escape.
    rewrite scan_text by apply EscapeText_inert.
    destruct (scan false (print ps)) as [t' ps']. cbn in Hstart. subst t'. cbn [fst snd].
    rewrite append_nil_r. unfold text_before. rewrite EscapeText_empty, unescape_EscapeText.
    by destruct (empty t).
Qed.

Lemma print_app ps qs : print (ps ++ qs) = (print ps +:+ print qs)%string.
Proof.
  induction ps as [|p ps IH]; [done|]. cbn [print app]. by rewrite IH, append_assoc.
Qed.

(** ** Lemmas: the generator prints the document *)

(** The text of a number needs no escape. *)
Lemma escape_numeric s : string_forallb numeric s = true -> EscapeText s = s.
Proof.
  unfold EscapeText. induction s as [|c s IH]; [done|]. cbn [string_forallb escape_from].
  intros [Hc Hs]%andb_prop.
  assert (escape_rune c s = (String c "", 1%nat)) as ->; [|cbn [Nat.sub]; by rewrite append_cons, append_nil_l, IH].
  assert (implb (numeric c) ((byte_of c <? 128) && isInCharacterRange (byte_of c) &&
    match entity_of (of_byte (byte_of c)) with None => true | _ => false end) = true) as H.
  { clear IH Hs Hc. revert c. apply all_bytes. by vm_compute. }
  rewrite Hc in H. cbn [implb] in H. apply andb_prop in H as [[Hlt Hin]%andb_prop He].
  unfold escape_rune, DecodeRune. rewrite Hlt, Hlt, Hin.
  destruct (entity_of _); [done|]. cbn [negb orb].
  assert ((byte_of c =? RuneError) = false) as -> by (unfold RuneError; lia). done.
Qed.

Lemma formatValue_numeric value unit_ precision :
  string_forallb numeric (formatValue value unit_ precision) = true.
Proof. unfold formatValue. by destruct (_ || _); apply FormatFixed_numeric. Qed.

Lemma writeBar_print output x width value maximum color unit_ precision :
  writeBar output x width value maximum color unit_ precision =
  (output +:+ print (bar x width value maximum color unit_ precision))%string.
Proof.
  unfold writeBar, bar. change (plotBottom - plotTop) with 298. change plotBottom with 390.
  cbn [print print_piece]. unfold escape. rewrite escape_numeric by apply formatValue_numeric.
  generalize (formatValue value unit_ precision) as text.
  generalize (fsub (of_int 390) (fmul (fdiv value maximum) (of_int 298))) as y. intros y text.
  generalize (FormatFixed 1 x), (FormatFixed 1 y), (FormatFixed 1 width),
    (FormatFixed 1 (fmul (fdiv value maximum) (of_int 298))),
    (FormatFixed 1 (fadd x (fdiv width (of_int 2)))), (FormatFixed 1 (fsub y (of_int 8))).
  intros s1 s2 s3 s4 s5 s6. rewrite !append_assoc. reflexivity.
Qed.

Lemma writeGroup_print groupWidth barWidth maximum unit_ precision output index c :
  writeGroup groupWidth barWidth maximum unit_ precision output index c =
  (output +:+ print (group groupWidth barWidth maximum unit_ precision index c))%string.
Proof.
  unfold writeGroup, group. rewrite !writeBar_print, !print_app, !append_assoc.
  change plotLeft with 92. repeat f_equal. cbn [print print_piece].
  generalize (FormatFixed 1 (fadd (of_int 92) (fmul groupWidth (fadd (of_int index) (constant 1 2))))).
  intros s. by rewrite !append_assoc.
Qed.

Lemma writeGroups_print groupWidth barWidth maximum unit_ precision cases output n :
  writeGroups groupWidth barWidth maximum unit_ precision output (Z.of_nat n) cases =
  (output +:+ print (concat (imap (fun i =>
     group groupWidth barWidth maximum unit_ precision (Z.of_nat (n + i))) cases)))%string.
Proof.
  revert output n. induction cases as [|c cases IH]; intros output n; cbn [writeGroups].
  - cbn. by rewrite append_nil_r.
  - rewrite writeGroup_print. replace (Z.of_nat n + 1) with (Z.of_nat (S n)) by lia.
    rewrite IH. cbn [imap concat]. rewrite print_app, append_assoc, Nat.add_0_r.
    f_equal. f_equal. f_equal. f_equal. apply imap_ext. intros i x _. cbn. 
    by rewrite Nat.add_succ_r.
Qed.

(** The generator writes exactly the document. *)
Lemma renderGroupedBars_print title description unit_ metadata cases precision :
  renderGroupedBars title description unit_ metadata cases precision =
  print (document title description unit_ metadata cases precision).
Proof.
  unfold renderGroupedBars, document. rewrite !print_app.
  change 0 with (Z.of_nat 0). rewrite writeGroups_print.
  change (plotRight - plotLeft) with 836. unfold groups. cbn [Nat.add].
  generalize (print (concat (imap (fun i => group (fdiv (of_int 836) (of_int (Z.of_nat (length cases))))
    (math_Min (of_int 70) (fmul (fdiv (of_int 836) (of_int (Z.of_nat (length cases)))) (constant 28 100)))
    (fmul (measured_maximum cases) (constant 11 10)) unit_ precision (Z.of_nat i)) cases))) as body.
  intros body. cbn [print print_piece legend]. unfold escape.
  change (EscapeText "CGO") with "CGO"%string. change (EscapeText "no-CGO") with "no-CGO"%string.
  generalize (EscapeText title), (EscapeText (metadata +:+ " · " +:+ unit_)),
    (EscapeText (description +:+ ". CGO is blue and no-CGO is amber. Values are in " +:+ unit_ +:+ ".")).
  intros t1 t2 t3. by rewrite !append_assoc.
Qed.

(** ** Lemmas: the shape of the document *)
Definition not_gt (c : ascii) : bool := negb (Ascii.eqb c ">").

Lemma FormatFixed_not_gt p x : string_forallb not_gt (FormatFixed p x) = true.
Proof.
  eapply string_forallb_impl; [|apply FormatFixed_numeric]. intros c Hc. unfold not_gt.
  destruct (Ascii.eqb_spec c ">") as [->|]; [by vm_compute in Hc | done].
Qed.

(** Markup made of literals and formatted numbers holds no closing bracket. *)
Ltac no_gt :=
  fold not_gt; repeat rewrite string_forallb_app; rewrite ?FormatFixed_not_gt; by vm_compute.

Lemma printable_app ps qs :
  printable ps = true -> printable qs = true ->
  match qs with Chars _ :: _ => False | _ => True end -> printable (ps ++ qs) = true.
Proof.
  intros Hps Hqs Hhd. induction ps as [|[m|t] ps IH]; [done| |]; cbn [app printable] in *.
  - apply andb_prop in Hps as [-> Hps]. by rewrite IH.
  - destruct ps as [|[m|t'] ps]; [|by apply IH|done]. cbn. by destruct qs as [|[]].
Qed.

Lemma printable_bar x width value maximum color unit_ precision :
  string_forallb not_gt color = true ->
  printable (bar x width value maximum color unit_ precision) = true.
Proof.
  intros Hcolor. unfold bar. cbn [printable]. fold not_gt.
  repeat rewrite string_forallb_app. rewrite !FormatFixed_not_gt, Hcolor. by vm_compute.
Qed.

Lemma printable_group groupWidth barWidth maximum unit_ precision index c :
  printable (group groupWidth barWidth maximum unit_ precision index c) = true.
Proof.
  unfold group. apply printable_app; [by apply printable_bar| |done].
  apply printable_app; [by apply printable_bar| |done]. cbn [printable]. fold not_gt.
  repeat rewrite string_forallb_app. rewrite FormatFixed_not_gt. by vm_compute.
Qed.

(** A list of parts each of which is printable and begins with markup. *)
Lemma printable_concat (pss : list (list piece)) :
  Forall (fun ps => printable ps = true /\ match ps with Markup _ :: _ => True | _ => False end) pss ->
  printable (concat pss) = true /\ match concat pss with Chars _ :: _ => False | _ => True end.
Proof.
  induction 1 as [|ps pss [Hps Hhd] _ [IH IHhd]]; [done|]. cbn [concat]. split.
  - by apply printable_app.
  - by destruct ps as [|[]].
Qed.

Lemma Forall_imap {A B} (f : nat -> A -> B) (P : B -> Prop) l :
  (forall i x, P (f i x)) -> Forall P (imap f l).
Proof.
  revert f. induction l as [|x l IH]; intros f H; cbn; constructor; [done|]. apply IH. intros; apply H.
Qed.

Lemma printable_document title description unit_ metadata cases precision :
  printable (document title description unit_ metadata cases precision) = true.
Proof.
  assert (printable (groups unit_ precision cases) = true /\
          match groups unit_ precision cases with Chars _ :: _ => False | _ => True end) as [Hg Hhd].
  { apply printable_concat, Forall_imap. intros i x. split; [apply printable_group | done]. }
  unfold document. apply printable_app; [by vm_compute| |done].
  apply printable_app; [by vm_compute| |done].
  apply printable_app; [by vm_compute| |by destruct (groups unit_ precision cases) as [|[]]].
  by apply printable_app.
Qed.

(** ** Lemmas: nesting *)
Lemma nest_element c m names :
  Ascii.eqb c "/" = false ->
  nest (Some names) (Markup (String c m)) =
  Some (if ends_with "/" (String c m) then names else tag_name (String c m) :: names).
Proof. intros Hc. destruct c as [[] [] [] [] [] [] [] []]; done. Qed.

Lemma ends_with_append c s d t :
  ends_with c (s +:+ String d t)%string = ends_with c (String d t).
Proof.
  induction s as [|e s IH]; [done|]. rewrite append_cons. rewrite <- IH.
  cbn [ends_with]. by destruct s.
Qed.

(** An element without content, and the start of one with content: literals at both ends
    of the markup decide. *)
Lemma nest_empty c s d t names :
  Ascii.eqb c "/" = false -> ends_with "/" (String d t) = true ->
  nest (Some names) (Markup (String c s +:+ String d t)%string) = Some names.
Proof.
  intros Hc Hd. rewrite append_cons, nest_element by done. rewrite <- append_cons.
  by rewrite ends_with_append, Hd.
Qed.

Lemma nest_start c s d t names :
  Ascii.eqb c "/" = false -> ends_with "/" (String d t) = false ->
  nest (Some names) (Markup (String c s +:+ String d t)%string) =
  Some (tag_name (String c s +:+ String d t)%string :: names).
Proof.
  intros Hc Hd. rewrite append_cons, nest_element by done. rewrite <- append_cons.
  by rewrite ends_with_append, Hd.
Qed.

Lemma nest_step open open' p ps r :
  nest open p = open' -> foldl nest open' ps = r -> foldl nest open (p :: ps) = r.
Proof. by intros <-. Qed.

Lemma nest_bar x width value maximum color unit_ precision names :
  foldl nest (Some names) (bar x width value maximum color unit_ precision) = Some names.
Proof.
  unfold bar. rewrite <- !append_assoc.
  eapply nest_step; [by apply (nest_empty "r" _ quotation "/")|].
  eapply nest_step; [by apply (nest_start "t" _ quotation _)|].
  done.
Qed.

Lemma nest_group groupWidth barWidth maximum unit_ precision index c names :
  foldl nest (Some names) (group groupWidth barWidth maximum unit_ precision index c) = Some names.
Proof.
  unfold group. rewrite !foldl_app, !nest_bar. rewrite <- !append_assoc.
  eapply nest_step; [by apply (nest_start "t" _ quotation _)|]. done.
Qed.

Lemma nest_concat (pss : list (list piece)) names :
  Forall (fun ps => foldl nest (Some names) ps = Some names) pss ->
  foldl nest (Some names) (concat pss) = Some names.
Proof. induction 1 as [|ps pss Hps _ IH]; [done|]. cbn [concat]. by rewrite foldl_app, Hps. Qed.

Lemma nests_document title description unit_ metadata cases precision :
  nests (document title description unit_ metadata cases precision).
Proof.
  unfold nests, document. rewrite !foldl_app.
  match goal with |- foldl _ (foldl _ ?o _) _ = _ =>
    assert (o = Some ["svg"%string]) as -> by (by vm_compute) end.
  unfold groups. rewrite nest_concat; [by vm_compute|].
  apply Forall_imap. intros i x. apply nest_group.
Qed.

(** Nesting does not depend on the texts. *)
Lemma nest_seen ps open : foldl nest open (flat_map seen ps) = foldl nest open ps.
Proof.
  revert open. induction ps as [|[m|t] ps IH]; intros open; [done|apply IH|].
  cbn [flat_map seen foldl]. assert (nest open (Chars t) = open) as -> by (by destruct open).
  destruct (empty t); [apply IH|]. cbn [app foldl].
  assert (forall t', nest open (Chars t') = open) as -> by (by destruct open). apply IH.
Qed.

Definition markups (ps : list piece) : list string :=
  flat_map (fun p => match p with Markup m => [m] | Chars _ => [] end) ps.

Lemma markups_app ps qs : markups (ps ++ qs) = markups ps ++ markups qs.
Proof. apply flat_map_app. Qed.

Lemma markups_seen ps : markups (flat_map seen ps) = markups ps.
Proof.
  induction ps as [|[m|t] ps IH]; [done| |]; cbn [flat_map seen]; rewrite markups_app, IH; [done|].
  by destruct (empty t).
Qed.

Definition measurements (c : chartCase) : float64 * float64 := (cgo c, noCGO c).

Lemma measured_maximum_measurements cases cases' :
  map measurements cases = map measurements cases' -> measured_maximum cases = measured_maximum cases'.
Proof.
  unfold measured_maximum. generalize (of_int 0) as m. revert cases'.
  induction cases as [|c cases IH]; intros [|c' cases'] m H; try done.
  cbn in H. injection H as H1 H2 H. cbn [foldl]. rewrite H1, H2. by apply IH.
Qed.

Lemma markups_concat_imap (f f' : nat -> chartCase -> list piece) cases cases' :
  (forall i c c', measurements c = measurements c' -> markups (f i c) = markups (f' i c')) ->
  map measurements cases = map measurements cases' ->
  markups (concat (imap f cases)) = markups (concat (imap f' cases')).
Proof.
  revert f f' cases'. induction cases as [|c cases IH]; intros f f' [|c' cases'] Hf H; try done.
  cbn in H. injection H as H1 H2 H. cbn [imap concat]. rewrite !markups_app.
  f_equal; [apply Hf; unfold measurements; congruence|].
  apply IH; [|done]. intros i. apply (Hf (S i)).
Qed.

Lemma markups_groups unit_ unit_' precision cases cases' :
  map measurements cases = map measurements cases' ->
  markups (groups unit_ precision cases) = markups (groups unit_' precision cases').
Proof.
  intros H. unfold groups. rewrite (measured_maximum_measurements _ _ H).
  assert (length cases = length cases') as -> by (by rewrite <- (length_map measurements), H, length_map).
  apply markups_concat_imap; [|done]. intros i c c' [= Hc Hn]. unfold group, bar.
  by rewrite !markups_app, Hc, Hn.
Qed.

(** ** Properties *)

(** C33: A reader of a generated chart sees exactly the document of the chart: its markup,
    and its texts unescaped, with the characters that XML does not admit replaced. *)
Theorem chart_reads_back title description unit_ metadata cases precision :
  read_svg (renderGroupedBars title description unit_ metadata cases precision) =
  flat_map seen (document title description unit_ metadata cases precision).
Proof. rewrite renderGroupedBars_print. apply read_print, printable_document. Qed.

(** C34: Whatever the texts of the dataset are, they stay text: the elements of a chart nest
    properly, and its markup is a function of the measurements alone. *)
Theorem chart_markup_safe title description unit_ metadata cases precision :
  nests (read_svg (renderGroupedBars title description unit_ metadata cases precision)) /\
  forall title' description' unit_' metadata' cases',
    map measurements cases = map measurements cases' ->
    markups (read_svg (renderGroupedBars title description unit_ metadata cases precision)) =
    markups (read_svg (renderGroupedBars title' description' unit_' metadata' cases' precision)).
Proof.
  rewrite renderGroupedBars_print, read_print by apply printable_document. split.
  - unfold nests. rewrite nest_seen. apply nests_document.
  - intros title' description' unit_' metadata' cases' H.
    rewrite renderGroupedBars_print, read_print by apply printable_document.
    rewrite !markups_seen. unfold document. rewrite !markups_app.
    by rewrite (markups_groups unit_ unit_' precision cases cases' H).
Qed.
