(* ===== verification/ChartBars.v ===== *)
(** * The bars of a chart

    A reader of the attributes of the generated SVG, and the geometry of a chart: with the
    rounding of every float64 operation and of the printed coordinates, the bars stand on the
    axis of the plot area, and up to 61 cases they lie side by side between its sides. *)
From Stdlib Require Import SpecFloat Ascii String QArith Lqa.
From stdpp Require Import base strings list.
From S2P Require Import Prelude.
From S2P Require Import GoRuntime.
From S2P Require Import GoFloat.
From S2P Require Import GoText.
From S2P Require Import Benchcharts.
From S2P Require Import ChartDocument.
From S2P Require Import FloatRounding.

Local Open Scope Z_scope.

(** ** Attributes

    The quotation marks of a tag delimit the values; the name of an attribute is what
    stands before its value, from the last space on, without the equals sign. *)
Fixpoint split_quotes (m : string) : string * list string :=
  match m with
  | EmptyString => (""%string, [])
  | String c m' =>
      let '(s, ss) := split_quotes m' in
      if Ascii.eqb c quotation then (""%string, s :: ss) else (String c s, ss)
  end.

Fixpoint last_word (acc s : string) : string :=
  match s with
  | EmptyString => acc
  | String c s' => if Ascii.eqb c " " then last_word "" s' else last_word (acc +:+ String c "")%string s'
  end.

Fixpoint attributes_of (ss : list string) : list (string * string) :=
  match ss with
  | label :: value :: ss' => (last_word "" label, value) :: attributes_of ss'
  | _ => []
  end.

Definition attributes (m : string) : list (string * string) :=
  let '(s, ss) := split_quotes m in attributes_of (s :: ss).

Definition attribute (name m : string) : option string :=
  find_first (fun a => if String.eqb (fst a) (name +:+ "=") then Some (snd a) else None)%string (attributes m).

(** The number of tenths that a coordinate says. *)
Definition tenths (name m : string) : option Z :=
  match attribute name m ≫= read_fixed with
  | Some (false, (n, 1%nat)) => Some n
  | _ => None
  end.

(** Only the bars have corners of radius 4, and only their labels a font of size 12. *)
Definition is_bar (m : string) : Prop := tag_name m = "rect"%string /\ attribute "rx" m = Some "4"%string.
Definition is_label (m : string) : Prop := tag_name m = "text"%string /\ attribute "font-size" m = Some "12"%string.

#[export] Instance is_bar_dec m : Decision (is_bar m).
Proof. unfold is_bar. apply _. Defined.

(** Only the labels of the groups, below the axis, are centred and have a font of size 13. *)
Definition is_axis_label (m : string) : Prop :=
  tag_name m = "text"%string /\ attribute "text-anchor" m = Some "middle"%string /\
  attribute "font-size" m = Some "13"%string.

#[export] Instance is_axis_label_dec m : Decision (is_axis_label m).
Proof. unfold is_axis_label. apply _. Defined.

(** The labels below the axis, in the order in which they are drawn: the texts that follow
    such a tag at once. *)
Definition label_step (st : bool * list string) (p : piece) : bool * list string :=
  match p with
  | Markup m => (bool_decide (is_axis_label m), st.2)
  | Chars t => (false, if st.1 then st.2 ++ [t] else st.2)
  end.

Definition axis_labels (ps : list piece) : list string := (foldl label_step (false, []) ps).2.

(** The tags of the bars, in the order in which they are drawn. *)
Definition bar_tags (ps : list piece) : list string :=
  omap (fun p => match p with Markup m => if decide (is_bar m) then Some m else None | Chars _ => None end) ps.

Definition bars (ps : list piece) : nat := length (bar_tags ps).

(** The tenths at which a bar begins and ends. *)
Definition span (m : string) : option (Z * Z) :=
  match tenths "x" m, tenths "width" m with
  | Some x, Some width => Some (x, x + width)
  | _, _ => None
  end.

(** Spans that follow each other without overlap between two bounds. *)
Fixpoint in_order (from to : Z) (spans : list (option (Z * Z))) : bool :=
  match spans with
  | [] => from <=? to
  | Some (a, b) :: spans' => (from <=? a) && (a <? b) && in_order b to spans'
  | None :: _ => false
  end.

(** ** Specification: the geometry *)

(** A bar stands on the axis: its printed top and height are those of a bar in the plot area,
    and its printed bottom is the axis, up to one tenth, since the top and the height are
    rounded to tenths apart from each other. *)
Definition upright (m : string) : Prop :=
  exists y h, tenths "y" m = Some y /\ tenths "height" m = Some h /\
    10 * plotTop <= y <= 10 * plotBottom /\ 0 <= h <= 10 * (plotBottom - plotTop) /\
    10 * plotBottom - 1 <= y + h <= 10 * plotBottom + 1.

(** A bar has a positive printed width and lies between the sides of the plot area. *)
Definition between_sides (m : string) : Prop :=
  exists x w, tenths "x" m = Some x /\ tenths "width" m = Some w /\
    10 * plotLeft <= x /\ 0 < w /\ x + w <= 10 * plotRight.

(** The label of a bar is printed 8 above a place in the plot area. *)
Definition label_above (m : string) : Prop :=
  exists y, tenths "y" m = Some y /\ 10 * (plotTop - 8) <= y <= 10 * (plotBottom - 8).

(** What a tag says vertically. *)
Definition placed (m : string) : Prop := (is_bar m -> upright m) /\ (is_label m -> label_above m).

(** A positive finite float64. *)
Definition measurement (x : float64) : Prop := positiveFinite x = true /\ valid_binary prec emax x = true.

(** ** Lemmas: the values of the coordinates *)
Lemma measurement_denotes x : measurement x -> exists v, denotes x v /\ (0 < v)%Q.
Proof.
  intros [Hp Hv]. destruct x as [s|[]| |[] m e]; try done. exists (val (Z.pos m) e).
  split; [|by apply val_pos]. cbn [denotes]. unfold valid_binary, bounded, canonical_mantissa in Hv.
  apply andb_prop in Hv as [Hc Hb]. apply Z.eqb_eq in Hc. apply Z.leb_le in Hb.
  change (fexp prec emax (Zdigits2 (Z.pos m) + e) = e) in Hc. rewrite fexp_eq in Hc.
  pose proof (Zdigits2_bounds (Z.pos m) eq_refl) as Hd. unfold emax, prec in Hb.
  split_and!; [|lia|done]. split; [split; [lia|]|split; [lia|]].
  - eapply Z.lt_le_trans; [apply Hd|]. apply Z.pow_le_mono_r; lia.
  - destruct (Z.eq_dec e emin); [by right | left]. replace 52 with (Zdigits2 (Z.pos m) - 1) by lia. apply Hd.
Qed.

Ltac denotes_constant :=
  match goal with |- denotes ?x _ => let y := eval vm_compute in x in change x with y end;
  cbn [denotes]; unfold normal, emin; split_and!; (lia || (by left) || (by vm_compute)).

Lemma denotes_298 : denotes (of_int 298) 298.
Proof. denotes_constant. Qed.
Lemma denotes_390 : denotes (of_int 390) 390.
Proof. denotes_constant. Qed.
Lemma denotes_8 : denotes (of_int 8) 8.
Proof. denotes_constant. Qed.

Lemma denotes_scale : exists c, denotes (constant 11 10) c /\ (1 <= c)%Q.
Proof.
  let y := eval vm_compute in (constant 11 10) in
  match y with S754_finite false ?m ?e => exists (val (Z.pos m) e) end.
  split; [denotes_constant | by vm_compute].
Qed.

Lemma fmax_from acc vacc cases :
  denotes acc vacc -> Forall (fun c => measurement (cgo c) /\ measurement (noCGO c)) cases ->
  exists v, denotes (foldl (fun maximum c => fmax (fmax maximum (cgo c)) (noCGO c)) acc cases) v /\ (vacc <= v)%Q /\
    forall c x vx, c ∈ cases -> x = cgo c \/ x = noCGO c -> denotes x vx -> (vx <= v)%Q.
Proof.
  intros Hacc Hall. revert acc vacc Hacc. induction Hall as [|c cases [Hc Hn] _ IH]; intros acc vacc Hacc; cbn [foldl].
  - exists vacc. split_and!; [done | lra |]. intros c x vx Hin. by apply elem_of_nil in Hin.
  - apply measurement_denotes in Hc as (v1 & Hc & _). apply measurement_denotes in Hn as (v2 & Hn & _).
    destruct (fmax_spec _ _ _ _ Hacc Hc) as (w1 & Hw1 & ? & ?).
    destruct (fmax_spec _ _ _ _ Hw1 Hn) as (w2 & Hw2 & ? & ?).
    destruct (IH _ _ Hw2) as (v & Hv & ? & Hin). exists v. split_and!; [done | lra |].
    intros c' x vx Hc' Hx Hvx. apply elem_of_cons in Hc' as [->|Hc']; [|by eapply Hin].
    destruct Hx as [-> | ->]; [rewrite (denotes_unique _ _ _ Hvx Hc) | rewrite (denotes_unique _ _ _ Hvx Hn)]; lra.
Qed.

(** The measurement as a part of the scale is at most 1, whether or not the scale
    overflows. *)
Lemma quotient_bounded value v top vtop :
  denotes value v -> (0 < v)%Q -> denotes top vtop -> (v <= vtop)%Q ->
  exists r, denotes (fdiv value (fmul top (constant 11 10))) r /\ (r <= 1)%Q.
Proof.
  intros Hv Hpos Htop Hle. destruct denotes_scale as (c & Hc & Hc1).
  destruct (fmul_rounded _ _ _ _ Htop Hc) as [[-> _]|(m & Hm & _ & Hlow)].
  - exists 0%Q. split; [|lra]. by destruct value as [[]|[]| |[] ? ?]; try lra.
  - assert (vtop <= m)%Q. { apply Hlow; [by eapply denotes_representable | nra]. }
    assert (0 < m)%Q by lra. apply (rounded_le (v / m)).
    + by apply fdiv_rounded.
    + by apply (integer_representable 1).
    + apply Qle_shift_div_r; [done|]. lra.
Qed.

Lemma bar_geometry value v top vtop :
  denotes value v -> (0 < v)%Q -> denotes top vtop -> (v <= vtop)%Q ->
  let height := fmul (fdiv value (fmul top (constant 11 10))) (of_int 298) in
  let y := fsub (of_int 390) height in
  exists vh vy vl, (denotes height vh /\ 0 <= vh /\ vh <= 298)%Q /\ (denotes y vy /\ 92 <= vy /\ vy <= 390)%Q /\
    (denotes (fsub y (of_int 8)) vl /\ 84 <= vl /\ vl <= 382)%Q /\
    (390 - (1 # 16) <= vy + vh /\ vy + vh <= 390 + (1 # 16))%Q.
Proof.
  intros Hv Hpos Htop Hle height y. destruct (quotient_bounded _ _ _ _ Hv Hpos Htop Hle) as (r & Hr & Hr1).
  pose proof (denotes_nonneg _ _ Hr).
  assert (forall z, 0 <= z < 2 ^ 53 -> representable (inject_Z z)) as Hint by apply integer_representable.
  destruct (rounded_le _ _ 298 (fmul_rounded _ _ _ _ Hr denotes_298)) as (vh & Hh & Hh1); [by apply (Hint 298) | lra |].
  pose proof (denotes_nonneg _ _ Hh).
  pose proof (fsub_rounded _ _ _ _ denotes_390 Hh ltac:(lra)) as Hy.
  destruct (rounded_le _ _ 390 Hy) as (vy & Hvy & Hy1); [by apply (Hint 390) | lra |].
  pose proof (rounded_ge _ _ 92 _ Hy Hvy ltac:(by apply (Hint 92)) ltac:(lra)).
  pose proof (fsub_rounded _ _ _ _ Hvy denotes_8 ltac:(lra)) as Hl.
  destruct (rounded_le _ _ 382 Hl) as (vl & Hvl & Hl1); [by apply (Hint 382) | lra |].
  pose proof (rounded_ge _ _ 84 _ Hl Hvl ltac:(by apply (Hint 84)) ltac:(lra)).
  destruct (rounded_near _ _ Hy) as (vy' & Hvy' & Hnear); [lra | |].
  { change (inject_Z (2 ^ 48)) with (281474976710656 # 1)%Q. lra. }
  pose proof (denotes_unique _ _ _ Hvy Hvy'). exists vh, vy, vl. split_and!; (done || lra).
Qed.

(** A top and a height that reach the axis do so when printed, up to one tenth. *)
Lemma bottom_tenths ny nh vy vh :
  (inject_Z (2 * ny - 1) <= 20 * vy <= inject_Z (2 * ny + 1))%Q ->
  (inject_Z (2 * nh - 1) <= 20 * vh <= inject_Z (2 * nh + 1))%Q ->
  (390 - (1 # 16) <= vy + vh /\ vy + vh <= 390 + (1 # 16))%Q -> 3899 <= ny + nh <= 3901.
Proof.
  assert (forall n k, inject_Z (2 * n + k) == 2 * inject_Z n + inject_Z k)%Q as Hlin
    by (intros n k; by rewrite inject_Z_plus, inject_Z_mult).
  unfold Z.sub. rewrite !Hlin. change (inject_Z (- (1))) with (- (1))%Q. change (inject_Z 1) with 1%Q.
  intros [Hy1 Hy2] [Hh1 Hh2] [H1 H2].
  assert (inject_Z 3898 < inject_Z (ny + nh) /\ inject_Z (ny + nh) < inject_Z 3902)%Q as [Hlo Hhi].
  { rewrite inject_Z_plus. change (inject_Z 3898) with 3898%Q. change (inject_Z 3902) with 3902%Q. split; lra. }
  rewrite <- Zlt_Qlt in Hlo, Hhi. lia.
Qed.

(** ** Lemmas: reading attributes *)
Definition no_quote (c : ascii) : bool := negb (Ascii.eqb c quotation).

Definition attribute_text (label value rest : string) : string :=
  (label +:+ String quotation (value +:+ String quotation rest))%string.

Lemma split_quotes_app s r :
  string_forallb no_quote s = true ->
  split_quotes (s +:+ String quotation r)%string = (s, let '(t, ts) := split_quotes r in t :: ts).
Proof.
  induction s as [|c s IH]; cbn [string_forallb].
  - intros _. rewrite append_nil_l. cbn [split_quotes]. by destruct (split_quotes r).
  - intros [Hc Hs]%andb_prop. rewrite append_cons. cbn [split_quotes]. rewrite IH by done.
    unfold no_quote in Hc. by destruct (Ascii.eqb c quotation).
Qed.

Lemma attributes_cons label value rest :
  string_forallb no_quote label = true -> string_forallb no_quote value = true ->
  attributes (attribute_text label value rest) = (last_word "" label, value) :: attributes rest.
Proof.
  intros Hl Hv. unfold attributes, attribute_text. rewrite !split_quotes_app by done.
  by destruct (split_quotes rest).
Qed.

Lemma FormatFixed_no_quote p x : string_forallb no_quote (FormatFixed p x) = true.
Proof.
  eapply string_forallb_impl; [|apply FormatFixed_numeric]. intros c Hc. unfold no_quote.
  destruct (Ascii.eqb_spec c quotation) as [->|]; [by vm_compute in Hc | done].
Qed.

(** The attributes of markup with formatted numbers, read one after the other. *)
Ltac read_attributes :=
  unfold attribute; repeat rewrite attributes_cons by (apply FormatFixed_no_quote || done); reflexivity.

Lemma tenths_between name m x v a b :
  attribute name m = Some (FormatFixed 1 x) -> denotes x v -> (inject_Z a <= v)%Q -> (v <= inject_Z b)%Q ->
  exists n, tenths name m = Some n /\ 10 * a <= n <= 10 * b /\
    (inject_Z (2 * n - 1) <= 20 * v <= inject_Z (2 * n + 1))%Q.
Proof.
  intros Ha Hx Hva Hvb. destruct (FormatFixed_between 1 x v a b Hx Hva Hvb) as (n & Hr & Hn).
  destruct (FormatFixed_nearest 1 x v Hx) as (n' & Hr' & Hlo & Hhi). rewrite Hr in Hr'. injection Hr' as <-.
  change (inject_Z (10 ^ Z.of_nat 1)) with 10%Q in Hlo, Hhi.
  exists n. unfold tenths. rewrite Ha. cbn [mbind option_bind]. rewrite Hr. split; [done|]. split; [lia | split; lra].
Qed.

(** The tag of a bar. *)
Definition bar_text (x y width height color : string) : string :=
  attribute_text "rect x=" x (attribute_text " y=" y (attribute_text " width=" width
    (attribute_text " height=" height (attribute_text " rx=" "4" (attribute_text " fill=" color "/"))))).

Lemma bar_attributes x y width height color :
  (raw "rect x='" +:+ x +:+ raw "' y='" +:+ y +:+ raw "' width='" +:+ width +:+ raw "' height='" +:+ height +:+
   raw "' rx='4' fill='" +:+ color +:+ raw "'/")%string = bar_text x y width height color.
Proof. reflexivity. Qed.

(** Markup that is neither a bar nor a label. *)
Lemma placed_other m :
  tag_name m <> "rect"%string \/ attribute "rx" m <> Some "4"%string ->
  tag_name m <> "text"%string \/ attribute "font-size" m <> Some "12"%string -> placed m.
Proof. intros H1 H2. split; intros [Ht Ha]; [by destruct H1 | by destruct H2]. Qed.

Definition placed_piece (p : piece) : Prop := match p with Markup m => placed m | Chars _ => True end.

Lemma placed_bar x width value top color unit_ precision v vtop :
  string_forallb no_quote color = true -> denotes value v -> (0 < v)%Q -> denotes top vtop -> (v <= vtop)%Q ->
  Forall placed_piece (bar x width value (fmul top (constant 11 10)) color unit_ precision).
Proof.
  intros Hcolor Hv Hpos Htop Hle.
  destruct (bar_geometry value v top vtop Hv Hpos Htop Hle) as (vh & vy & vl & (Hh & Hh0 & Hh1) & (Hy & Hy0 & Hy1) & (Hl & Hl0 & Hl1) & Hbottom).
  unfold bar. set (height := fmul (fdiv value (fmul top (constant 11 10))) (of_int 298)) in *.
  set (y := fsub (of_int 390) height) in *. cbv zeta. repeat apply Forall_cons_2; [| |done| |done].
  - rewrite bar_attributes. split; [intros _ | intros [Ht _]; discriminate Ht].
    destruct (tenths_between "y" (bar_text (FormatFixed 1 x) (FormatFixed 1 y) (FormatFixed 1 width)
      (FormatFixed 1 height) color) y vy 92 390) as (ny & Hny & ? & Hvy); [unfold bar_text; read_attributes | done..|].
    destruct (tenths_between "height" (bar_text (FormatFixed 1 x) (FormatFixed 1 y) (FormatFixed 1 width)
      (FormatFixed 1 height) color) height vh 0 298) as (nh & Hnh & ? & Hvh); [unfold bar_text; read_attributes | done..|].
    pose proof (bottom_tenths ny nh vy vh Hvy Hvh Hbottom). exists ny, nh. unfold plotTop, plotBottom.
    split; [exact Hny|]. split; [exact Hnh|]. lia.
  - set (x' := fadd x _). set (y' := fsub y _) in *. set (m := (raw "text x='" +:+ _)%string).
    assert (m = attribute_text "text x=" (FormatFixed 1 x') (attribute_text " y=" (FormatFixed 1 y')
      (raw " text-anchor='middle' fill='#f0f6fc' font-family='system-ui,sans-serif' font-size='12'"))) as ->.
    { unfold m. generalize (FormatFixed 1 x'), (FormatFixed 1 y'). reflexivity. }
    split; [intros [Ht _]; discriminate Ht | intros _].
    destruct (tenths_between "y" (attribute_text "text x=" (FormatFixed 1 x') (attribute_text " y=" (FormatFixed 1 y')
      (raw " text-anchor='middle' fill='#f0f6fc' font-family='system-ui,sans-serif' font-size='12'"))) y' vl 84 382)
      as (nl & Hnl & ? & _); [read_attributes | done..|]. by exists nl.
  - apply placed_other; left; discriminate.
Qed.

Lemma placed_group groupWidth barWidth top unit_ precision index c vtop :
  measurement (cgo c) -> measurement (noCGO c) -> denotes top vtop ->
  (forall x vx, x = cgo c \/ x = noCGO c -> denotes x vx -> (vx <= vtop)%Q) ->
  Forall placed_piece (group groupWidth barWidth (fmul top (constant 11 10)) unit_ precision index c).
Proof.
  intros (v1 & Hv1 & Hp1)%measurement_denotes (v2 & Hv2 & Hp2)%measurement_denotes Htop Hle.
  unfold group. apply Forall_app_2; [|apply Forall_app_2].
  - eapply placed_bar; [done | exact Hv1 | done | exact Htop | by eapply Hle; [left|]].
  - eapply placed_bar; [done | exact Hv2 | done | exact Htop | by eapply Hle; [right|]].
  - set (center := fadd _ _). repeat apply Forall_cons_2; [|done| |done].
    + apply placed_other; [left; discriminate | right].
      change (attribute "font-size" (attribute_text "text x=" (FormatFixed 1 center)
        (raw " y='420' text-anchor='middle' fill='#c9d1d9' font-family='system-ui,sans-serif' font-size='13'")) <> Some "12"%string).
      unfold attribute. rewrite attributes_cons by (apply FormatFixed_no_quote || done). discriminate.
    + apply placed_other; left; discriminate.
Qed.

Ltac placed_constants :=
  repeat apply Forall_cons_2; try exact I; try apply Forall_nil_2;
  apply placed_other; (left; discriminate) || (right; discriminate).

Lemma placed_document title description unit_ metadata cases precision :
  Forall (fun c => measurement (cgo c) /\ measurement (noCGO c)) cases ->
  Forall placed_piece (document title description unit_ metadata cases precision).
Proof.
  intros Hall. unfold document. apply Forall_app_2; [placed_constants|].
  apply Forall_app_2; [placed_constants|]. apply Forall_app_2; [placed_constants|].
  apply Forall_app_2; [|placed_constants].
  destruct (fmax_from (of_int 0) 0 cases) as (vtop & Htop & _ & Hle); [done | done |].
  unfold groups. apply Forall_concat, Forall_lookup_2. intros i ps Hi.
  rewrite list_lookup_imap in Hi. apply fmap_Some in Hi as (c & Hc & ->).
  apply list_elem_of_lookup_2 in Hc. rewrite Forall_forall in Hall. destruct (Hall c Hc).
  eapply placed_group; [done | done | exact Htop |]. intros x vx. by apply Hle.
Qed.

(** ** Lemmas: the bars of the document *)
Lemma bar_tags_app ps qs : bar_tags (ps ++ qs) = bar_tags ps ++ bar_tags qs.
Proof. apply omap_app. Qed.

Lemma bar_tags_concat pss : bar_tags (concat pss) = concat (map bar_tags pss).
Proof. induction pss as [|ps pss IH]; [done|]. cbn [concat map]. by rewrite bar_tags_app, IH. Qed.

Lemma bar_tags_seen ps : bar_tags (flat_map seen ps) = bar_tags ps.
Proof.
  induction ps as [|[m|t] ps IH]; [done| |]; cbn [flat_map]; rewrite bar_tags_app, IH.
  - change (Markup m :: ps) with ([Markup m] ++ ps). by rewrite bar_tags_app.
  - cbn [seen]. by destruct (empty t).
Qed.

Lemma bar_tags_bar x width value maximum color unit_ precision :
  string_forallb no_quote color = true ->
  exists y height, bar_tags (bar x width value maximum color unit_ precision) =
    [bar_text (FormatFixed 1 x) y (FormatFixed 1 width) height color] /\ string_forallb no_quote y = true /\ string_forallb no_quote height = true.
Proof.
  intros Hcolor. unfold bar. rewrite bar_attributes. eexists _, _. split; [|split; apply FormatFixed_no_quote].
  unfold bar_tags. cbn [omap list_omap].
  rewrite decide_True by (split; [reflexivity | unfold bar_text; read_attributes]).
  rewrite !decide_False by (intros [Ht _]; discriminate Ht). reflexivity.
Qed.

(** The printed span of a bar. *)
Definition printed_span (x width : float64) : option (Z * Z) :=
  span (attribute_text "rect x=" (FormatFixed 1 x) (attribute_text " width=" (FormatFixed 1 width) "/")).

Lemma span_bar x width value maximum color unit_ precision :
  string_forallb no_quote color = true ->
  map span (bar_tags (bar x width value maximum color unit_ precision)) = [printed_span x width].
Proof.
  intros Hcolor. destruct (bar_tags_bar x width value maximum color unit_ precision Hcolor) as (y & height & -> & Hy & Hh).
  cbn [map]. f_equal. unfold printed_span, span, tenths, bar_text, attribute.
  rewrite !attributes_cons by (apply FormatFixed_no_quote || done). reflexivity.
Qed.

(** The spans of a group depend on its place only. *)
Definition group_spans (groupWidth barWidth : float64) (index : Z) : list (option (Z * Z)) :=
  let center := fadd (of_int 92) (fmul groupWidth (fadd (of_int index) (constant 1 2))) in
  [printed_span (fsub (fsub center barWidth) (of_int 3)) barWidth; printed_span (fadd center (of_int 3)) barWidth].

Lemma spans_group groupWidth barWidth maximum unit_ precision index c :
  map span (bar_tags (group groupWidth barWidth maximum unit_ precision index c)) = group_spans groupWidth barWidth index.
Proof.
  unfold group. rewrite !bar_tags_app, !map_app, !span_bar by done. unfold group_spans.
  unfold bar_tags at 1. cbn [omap list_omap]. rewrite !decide_False by (intros [Ht _]; discriminate Ht). reflexivity.
Qed.

Definition chart_spans (n : nat) : list (option (Z * Z)) :=
  let groupWidth := fdiv (of_int 836) (of_int (Z.of_nat n)) in
  let barWidth := math_Min (of_int 70) (fmul groupWidth (constant 28 100)) in
  concat (map (fun i => group_spans groupWidth barWidth (Z.of_nat i)) (seq 0 n)).

Lemma map_imap_seq {A B C} (f : nat -> A -> B) (g : B -> C) (h : nat -> C) l k :
  (forall i x, g (f i x) = h i) -> map g (imap (fun i => f (k + i)%nat) l) = map h (seq k (length l)).
Proof.
  intros Hf. revert k. induction l as [|x l IH]; intros k; [done|]. cbn [imap map length seq].
  rewrite Hf, Nat.add_0_r. f_equal. rewrite <- IH. f_equal. apply imap_ext. intros i y _. cbn. f_equal. lia.
Qed.

Lemma spans_document title description unit_ metadata cases precision :
  map span (bar_tags (document title description unit_ metadata cases precision)) = chart_spans (length cases).
Proof.
  unfold document. rewrite !bar_tags_app, !map_app.
  match goal with |- map span (bar_tags ?a) ++ map span (bar_tags ?b) ++ map span (bar_tags ?c) ++ _ ++ map span (bar_tags ?d) = _ =>
    change (bar_tags a) with (@nil string); change (bar_tags b) with (@nil string);
    change (bar_tags c) with (@nil string); change (bar_tags d) with (@nil string) end.
  cbn [map app]. rewrite app_nil_r. unfold groups, chart_spans.
  rewrite bar_tags_concat, concat_map, map_map. f_equal.
  apply (map_imap_seq (fun i => group _ _ _ unit_ precision (Z.of_nat i)) _ _ cases 0).
  intros i x. apply spans_group.
Qed.

Lemma chart_spans_length n : length (chart_spans n) = (2 * n)%nat.
Proof.
  unfold chart_spans. set (f := fun i : nat => group_spans _ _ _).
  enough (forall l, length (concat (map f l)) = 2 * length l)%nat as -> by by rewrite length_seq.
  induction l as [|i l IH]; [done|]. cbn [map concat]. rewrite length_app, IH. cbn. lia.
Qed.

Lemma bars_document title description unit_ metadata cases precision :
  bars (document title description unit_ metadata cases precision) = (2 * length cases)%nat.
Proof.
  unfold bars. rewrite <- (length_map span), spans_document. apply chart_spans_length.
Qed.

(** ** Lemmas: the labels below the axis *)
Lemma label_markup st m : ~ is_axis_label m -> foldl label_step st (seen (Markup m)) = (false, st.2).
Proof. intros H. cbn. unfold label_step. by rewrite bool_decide_false. Qed.

Lemma label_text acc t : foldl label_step (false, acc) (seen (Chars t)) = (false, acc).
Proof. unfold seen. by destruct (empty t). Qed.

Lemma labels_bar x width value maximum color unit_ precision st :
  foldl label_step st (flat_map seen (bar x width value maximum color unit_ precision)) = (false, st.2).
Proof.
  unfold bar. cbv zeta. cbn [flat_map]. rewrite app_nil_r, !foldl_app.
  rewrite (label_markup st) by (intros [Ht _]; discriminate Ht).
  set (x' := fadd x _). set (y' := fsub (fsub _ _) _). set (m := (raw "text x='" +:+ _)%string).
  assert (m = attribute_text "text x=" (FormatFixed 1 x') (attribute_text " y=" (FormatFixed 1 y')
    (raw " text-anchor='middle' fill='#f0f6fc' font-family='system-ui,sans-serif' font-size='12'"))) as ->.
  { unfold m. generalize (FormatFixed 1 x'), (FormatFixed 1 y'). reflexivity. }
  rewrite (label_markup _ (attribute_text _ _ _)).
  - rewrite label_text, label_markup by (intros [Ht _]; discriminate Ht). reflexivity.
  - intros (_ & _ & Hf). revert Hf. unfold attribute.
    rewrite !attributes_cons by (apply FormatFixed_no_quote || done). discriminate.
Qed.

Lemma labels_group groupWidth barWidth maximum unit_ precision index c st :
  empty (label c) = false ->
  foldl label_step st (flat_map seen (group groupWidth barWidth maximum unit_ precision index c)) =
  (false, st.2 ++ [sanitize (label c)]).
Proof.
  intros Hl. unfold group. rewrite !flat_map_app, !foldl_app, !labels_bar. cbn [fst snd].
  set (center := fadd _ _). cbn [flat_map seen app]. rewrite Hl. cbn [app foldl].
  set (m := (raw "text x='" +:+ _)%string).
  assert (is_axis_label m) as Hm.
  { assert (m = attribute_text "text x=" (FormatFixed 1 center)
      (raw " y='420' text-anchor='middle' fill='#c9d1d9' font-family='system-ui,sans-serif' font-size='13'")) as ->
      by (unfold m; generalize (FormatFixed 1 center); reflexivity).
    split; [reflexivity | split; read_attributes]. }
  unfold label_step. by rewrite (bool_decide_true _ Hm), bool_decide_false by (intros [Ht _]; discriminate Ht).
Qed.

Lemma labels_groups (f : nat -> chartCase -> list piece) cases st :
  (forall i c st, c ∈ cases -> foldl label_step st (flat_map seen (f i c)) = (false, st.2 ++ [sanitize (label c)])) ->
  (foldl label_step st (flat_map seen (concat (imap f cases)))).2 = st.2 ++ map (fun c => sanitize (label c)) cases.
Proof.
  revert f st. induction cases as [|c cases IH]; intros f st Hf; cbn [imap concat map]; [by rewrite app_nil_r|].
  rewrite flat_map_app, foldl_app, Hf by by left. rewrite (IH (f ∘ S)); [cbn [snd]; by rewrite <- app_assoc|].
  intros i c' st' Hc'. apply Hf. by right.
Qed.

Lemma labels_all groupWidth barWidth maximum unit_ precision cases st :
  Forall (fun c => empty (label c) = false) cases ->
  (foldl label_step st (flat_map seen (concat (imap (fun i =>
     group groupWidth barWidth maximum unit_ precision (Z.of_nat i)) cases)))).2 =
  st.2 ++ map (fun c => sanitize (label c)) cases.
Proof.
  intros Hall. apply labels_groups. intros i c st' Hc. rewrite Forall_forall in Hall.
  apply labels_group. by apply Hall.
Qed.

Definition no_axis_label (p : piece) : Prop := match p with Markup m => ~ is_axis_label m | Chars _ => True end.

Lemma labels_none ps acc :
  Forall no_axis_label ps -> foldl label_step (false, acc) (flat_map seen ps) = (false, acc).
Proof.
  induction 1 as [|[m|t] ps Hm _ IH]; [done| |]; cbn [flat_map]; rewrite foldl_app;
    [by rewrite label_markup | by rewrite label_text].
Qed.

Ltac no_axis_labels :=
  repeat apply Forall_cons_2; try exact I; try apply Forall_nil_2;
  intros (Ht & Ha & _); (discriminate Ht || (vm_compute in Ha; discriminate Ha)).

(** A reader of a chart finds the labels of the cases below the axis, in the order of the
    cases. *)
Lemma labels_chart title description unit_ metadata cases precision :
  Forall (fun c => empty (label c) = false) cases ->
  axis_labels (read_svg (renderGroupedBars title description unit_ metadata cases precision)) =
  map (fun c => sanitize (label c)) cases.
Proof.
  intros Hall. rewrite renderGroupedBars_print, read_print by apply printable_document.
  unfold axis_labels, document. rewrite !flat_map_app, !foldl_app.
  rewrite labels_none by no_axis_labels. rewrite labels_none by no_axis_labels.
  rewrite labels_none by no_axis_labels.
  cbn [flat_map]. rewrite app_nil_r. unfold label_step at 1. cbn [seen foldl snd].
  unfold groups. cbv zeta. rewrite labels_all by done. reflexivity.
Qed.

Lemma chart_spans_in_order n :
  (n <= 61)%nat -> in_order (10 * plotLeft) (10 * plotRight) (chart_spans n) = true.
Proof.
  intros Hn.
  assert (forallb (fun n => in_order (10 * plotLeft) (10 * plotRight) (chart_spans n)) (seq 0 62) = true) as Hall by (by vm_compute).
  rewrite forallb_forall in Hall. apply Hall, in_seq. lia.
Qed.

Lemma in_order_within from to spans sp :
  in_order from to spans = true -> sp ∈ spans ->
  exists a b, sp = Some (a, b) /\ from <= a /\ a < b /\ b <= to.
Proof.
  assert (forall spans from, in_order from to spans = true -> from <= to) as Hle.
  { clear spans from. intros spans. induction spans as [|[[a b]|] spans IH]; intros from; cbn [in_order]; [lia| |done].
    intros [[H1 H2]%andb_prop H3%IH]%andb_prop. lia. }
  revert from. induction spans as [|[[a b]|] spans IH]; intros from; cbn [in_order]; [by intros _ ?%elem_of_nil| |done].
  intros [[H1 H2]%andb_prop H3]%andb_prop [->|Hin]%elem_of_cons.
  - exists a, b. apply Hle in H3. split; [done | lia].
  - destruct (IH _ H3 Hin) as (a' & b' & -> & ? & ? & ?). exists a', b'. split; [done | lia].
Qed.

Lemma markup_seen m ps : Markup m ∈ flat_map seen ps -> Markup m ∈ ps.
Proof.
  intros ([m'|t] & Hp & Hm)%list_elem_of_In%in_flat_map; apply list_elem_of_In.
  - by destruct Hm as [[= ->]|[]].
  - unfold seen in Hm. by destruct (empty t); [|destruct Hm].
Qed.

(** A bar of a document has one of its spans. *)
Lemma bar_between title description unit_ metadata cases precision m :
  (length cases <= 61)%nat -> Markup m ∈ document title description unit_ metadata cases precision -> is_bar m ->
  between_sides m.
Proof.
  intros Hn%chart_spans_in_order Hin Hb.
  assert (m ∈ bar_tags (document title description unit_ metadata cases precision)) as Hm.
  { apply list_elem_of_omap. exists (Markup m). split; [done|]. by rewrite decide_True. }
  apply (list_elem_of_fmap_2 span) in Hm. change (fmap span) with (map span) in Hm. rewrite spans_document in Hm.
  destruct (in_order_within _ _ _ _ Hn Hm) as (a & b & Hspan & ? & ? & ?). unfold span in Hspan.
  destruct (tenths "x" m) as [x|] eqn:Hx; [|done]. destruct (tenths "width" m) as [w|] eqn:Hw; [|done].
  injection Hspan as -> <-. exists a, w. split_and!; (done || lia).
Qed.

(** ** Properties *)

(** C36: Whatever the measurements are, and however the divisions round, the bars of a chart
    stay in the plot area: for cases whose measurements are positive finite float64 numbers,
    a reader of the chart sees two bars for each case; every bar has a printed top between
    92 and 390 and a printed height between 0 and 298 that together reach the axis at 390,
    give or take the tenth that printing them apart costs; labels are printed between 84 and
    382; and up to 61 cases every bar has a positive printed width and lies between the sides
    at 92 and 928.  With 62 cases the last bar ends a tenth beyond. *)
Theorem bars_in_plot title description unit_ metadata cases precision :
  Forall (fun c => measurement (cgo c) /\ measurement (noCGO c)) cases ->
  let chart := read_svg (renderGroupedBars title description unit_ metadata cases precision) in
  bars chart = (2 * length cases)%nat /\
  forall m, Markup m ∈ chart ->
    (is_bar m -> upright m /\ ((length cases <= 61)%nat -> between_sides m)) /\
    (is_label m -> label_above m).
Proof.
  intros Hall chart. unfold chart. rewrite renderGroupedBars_print, read_print by apply printable_document.
  unfold bars. rewrite bar_tags_seen. fold (bars (document title description unit_ metadata cases precision)).
  rewrite bars_document. split; [done|]. intros m Hm.
  apply (placed_document title description unit_ metadata cases precision) in Hall as Hplaced.
  assert (Markup m ∈ document title description unit_ metadata cases precision) as Hin by by apply markup_seen.
  pose proof (proj1 (Forall_forall _ _) Hplaced _ Hin) as [Hbar Hlabel]. split; [|done].
  intros Hb. split; [by apply Hbar|]. intros Hn. by apply (bar_between title description unit_ metadata cases precision).
Qed.

(** C37: Up to 61 cases the bars stand side by side: whatever the measurements are, a reader of
    the chart sees bars of positive width that follow each other from left to right without
    overlap, the first not before 92 and the last not after 928. *)
Theorem bars_apart title description unit_ metadata cases precision :
  (length cases <= 61)%nat ->
  in_order (10 * plotLeft) (10 * plotRight)
    (map span (bar_tags (read_svg (renderGroupedBars title description unit_ metadata cases precision)))) = true.
Proof.
  intros Hn. rewrite renderGroupedBars_print, read_print, bar_tags_seen, spans_document by apply printable_document.
  by apply chart_spans_in_order.
Qed.
