(* ===== verification/BenchchartsProps.v ===== *)
(** * What the chart generator guarantees

    The datasets it accepts, the order of the cases in a chart, and the protocol of the
    command: which system calls it makes, in which order, with which exit status. *)
From Stdlib Require Import SpecFloat Ascii String.
From stdpp Require Import base gmap sets strings list sorting.
From S2P Require Import Prelude.
From S2P Require Import GoRuntime.
From S2P Require Import GoFloat.
From S2P Require Import GoText.
From S2P Require Import GoSlices.
From S2P Require Import Errors.
From S2P Require Import Benchcharts.
From S2P Require Import ChartDocument.
From S2P Require Import ChartBars.

Local Open Scope Z_scope.

(** ** Specification: the datasets that may be published *)
Definition positive (x : float64) : Prop := exists m e, x = S754_finite false m e.

Definition both_present (b : backendStrings) : Prop := bs_CGO b <> ""%string /\ bs_NoCGO b <> ""%string.

Definition measured_median (m : benchmarkMedian) : Prop :=
  positive (Latency m) /\ positive (AllocatedBytes m).

Definition publishable_case (c : complexityCase) : Prop :=
  ID c <> ""%string /\ Label c <> ""%string /\ 1 <= Order c /\
  measured_median (c_CGO c) /\ measured_median (c_NoCGO c).

Record publishable (d : dataset) : Prop := {
  pub_schema : SchemaVersion d = 1;
  pub_date : MeasurementDate d <> ""%string;
  pub_environment : Host (Environment d) <> ""%string /\ env_OS (Environment d) <> ""%string /\
    Architecture (Environment d) <> ""%string /\ 1 <= LogicalCPUs (Environment d) /\
    GoVersion (Environment d) <> ""%string /\ CGOCompiler (Environment d) <> ""%string;
  pub_runs : 5 <= m_RunCount (Methodology d) /\ 5 <= f_RunCount (Footprint d);
  pub_commands : Benchtime (Methodology d) <> ""%string /\ both_present (Commands (Methodology d)) /\
    both_present (RSSCommands (Methodology d)) /\ both_present (SizeCommands (Methodology d));
  pub_raw : both_present (m_RawResults (Methodology d)) /\ both_present (f_RawResults (Footprint d));
  pub_units : Units d = {| u_Latency := "ns/op"; u_AllocatedBytes := "B/op"; u_ColdRSS := "bytes";
    u_BinarySize := "bytes" |};
  pub_cases : Cases d <> [] /\ Forall publishable_case (Cases d);
  pub_orders : NoDup (Order <$> Cases d);
  pub_ids : NoDup (ID <$> Cases d);
  pub_footprint : Workload (Footprint d) <> ""%string /\
    positive (ColdRSS (f_CGO (Footprint d))) /\ positive (ColdRSS (f_NoCGO (Footprint d))) /\
    positive (BinarySize (f_CGO (Footprint d))) /\ positive (BinarySize (f_NoCGO (Footprint d)))
}.

(** ** Specification: the protocol of the command *)

(** The files of a dataset, in the order in which they are written. *)
Definition chart_names : list string :=
  ["allocations.svg"; "binary-size.svg"; "cold-rss.svg"; "latency.svg"]%string.

Section protocol.
Context `{!Json, !Unicode}.

(** What becomes of the contents of the dataset file. *)
Definition load_result (contents : string + goerror) : dataset + goerror :=
  match contents with
  | inr err => inr (wrap_error "read dataset" err)
  | inl contents =>
      match decode_dataset contents with
      | inr err => inr (wrap_error "decode dataset" err)
      | inl input => match validate input with Some err => inr err | None => inl input end
      end
  end.

Definition written (outDir : string) (charts : gmap string string) (name : string)
    (err : option goerror) : Syscall :=
  CWriteFile (filepath_Join outDir name) (default ""%string (charts !! name)) 420 err.

(** The system calls of a run and its exit status. *)
Inductive run_of (dataPath outDir : string) : list Syscall -> Z -> Prop :=
| run_flags :
    dataPath = ""%string \/ outDir = ""%string ->
    run_of dataPath outDir [CStderr (ErrorString "" "both -data and -out are required")] 1
| run_rejected contents err :
    dataPath <> ""%string -> outDir <> ""%string -> load_result contents = inr err ->
    run_of dataPath outDir [CReadFile dataPath contents; CStderr err] 1
| run_no_directory contents input err :
    dataPath <> ""%string -> outDir <> ""%string -> load_result contents = inl input ->
    run_of dataPath outDir
      [CReadFile dataPath contents; CMkdirAll outDir 493 (Some err);
       CStderr (wrap_error "create output directory" err)] 1
| run_write_failed contents input charts before name after err :
    dataPath <> ""%string -> outDir <> ""%string -> load_result contents = inl input ->
    renderCharts input = inl charts -> chart_names = before ++ name :: after ->
    run_of dataPath outDir
      ([CReadFile dataPath contents; CMkdirAll outDir 493 None] ++
       map (fun name => written outDir charts name None) before ++
       [written outDir charts name (Some err); CStderr (wrap_error ("write " +:+ name)%string err)]) 1
| run_complete contents input charts :
    dataPath <> ""%string -> outDir <> ""%string -> load_result contents = inl input ->
    renderCharts input = inl charts ->
    run_of dataPath outDir
      ([CReadFile dataPath contents; CMkdirAll outDir 493 None] ++
       map (fun name => written outDir charts name None) chart_names) 0.
End protocol.

(** ** Lemmas: validation *)
Lemma positiveFinite_spec x : positiveFinite x = true <-> positive x.
Proof.
  unfold positive. split.
  - destruct x as [s|[]| |[] m e]; try done. by eauto.
  - intros (m & e & ->). unfold positiveFinite, flt, IsNaN, feq, SFeqb. cbn.
    by rewrite Z.compare_refl, Pos.compare_cont_refl.
Qed.

Lemma empty_false s : empty s = false <-> s <> ""%string.
Proof. apply String.eqb_neq. Qed.

Lemma guard_None {E} (b : bool) (e : E) (k : option E) :
  (if b then Some e else k) = None <-> b = false /\ k = None.
Proof. destruct b; naive_solver. Qed.

Lemma complete_spec b : complete b = true <-> both_present b.
Proof. unfold complete, both_present. by rewrite andb_true_iff, !negb_true_iff, !empty_false. Qed.

Section validation.
Context `{!Unicode}.

Lemma validate_cases_spec orders ids cases :
  validate_cases orders ids cases = None <->
  Forall publishable_case cases /\
  NoDup (Order <$> cases) /\ NoDup (ID <$> cases) /\
  Forall (fun c => (Order c ∉ orders) /\ (ID c ∉ ids)) cases.
Proof.
  revert orders ids. induction cases as [|c cases IH]; intros orders ids; cbn [validate_cases fmap list_fmap].
  - split; [intros _; repeat split; constructor | done].
  - rewrite !guard_None, !orb_false_iff, !negb_false_iff, !bool_decide_eq_false, !empty_false,
      !positiveFinite_spec, Z.ltb_ge, IH, !Forall_cons, !NoDup_cons, !list_elem_of_fmap, !Forall_forall.
    unfold publishable_case, measured_median. split.
    + intros (((? & ?) & ?) & Ho & Hi & (((? & ?) & ?) & ?) & Hall & Hno & Hni & Hnew). set_solver.
    + intros ((Hc & Hall) & (Ho & Hno) & (Hi & Hni) & (Hnew & Hnews)). set_solver.
Qed.

Lemma validate_spec input : validate input = None <-> publishable input.
Proof.
  unfold validate. rewrite !guard_None, !orb_false_iff, !negb_false_iff, !empty_false, !complete_spec,
    !Z.ltb_ge, Z.eqb_eq, !String.eqb_eq.
  destruct (Units input) as [ul ua ur ub] eqn:Hu; cbn [u_Latency u_AllocatedBytes u_ColdRSS u_BinarySize].
  assert (match Cases input with [] => Some (FmtError "at least one SQL-complexity case is required") | _ :: _ =>
      match validate_cases ∅ ∅ (Cases input) with Some err => Some err | None =>
      if empty (Workload (Footprint input)) ||
         negb (positiveFinite (ColdRSS (f_CGO (Footprint input)))) ||
         negb (positiveFinite (ColdRSS (f_NoCGO (Footprint input)))) ||
         negb (positiveFinite (BinarySize (f_CGO (Footprint input)))) ||
         negb (positiveFinite (BinarySize (f_NoCGO (Footprint input))))
      then Some (FmtError "footprint workload and positive finite measurements are required")
      else None end end = None <->
    Cases input <> [] /\ Forall publishable_case (Cases input) /\
    NoDup (Order <$> Cases input) /\ NoDup (ID <$> Cases input) /\
    Workload (Footprint input) <> ""%string /\
    positive (ColdRSS (f_CGO (Footprint input))) /\ positive (ColdRSS (f_NoCGO (Footprint input))) /\
    positive (BinarySize (f_CGO (Footprint input))) /\ positive (BinarySize (f_NoCGO (Footprint input)))) as Hcases.
  { destruct (Cases input) as [|c cases]; [naive_solver|]. rewrite <- !positiveFinite_spec, <- empty_false.
    destruct (validate_cases _ _ _) eqn:Hv.
    - split; [done|]. intros (_ & H1 & H2 & H3 & _).
      enough (validate_cases ∅ ∅ (c :: cases) = None) by congruence.
      apply validate_cases_spec. split_and!; [done..|]. apply Forall_true. set_solver.
    - apply validate_cases_spec in Hv as (H1 & H2 & H3 & _).
      rewrite guard_None, !orb_false_iff, !negb_false_iff. naive_solver. }
  rewrite Hcases. split.
  - intros Hall. destruct_and? Hall. split; rewrite ?Hu; split_and?; congruence || done.
  - intros [? ? ? ? ? ? Hun ? ? ? ?]. rewrite Hu in Hun. injection Hun as -> -> -> ->.
    destruct_and?. split_and!; done.
Qed.
End validation.

(** ** Lemmas: the order of the cases *)
Lemma int_sub_exact x y : 1 <= x <= int_max -> 1 <= y <= int_max -> int_sub x y = x - y.
Proof.
  unfold int_sub, wrap, int_max, int_min. intros Hx Hy. rewrite Z.mod_small; lia.
Qed.

(** The values that an [Order] of a validated case can have. *)
Definition order_in_range (c : complexityCase) : Prop := 1 <= Order c <= int_max.

Lemma compare_orders_below x y :
  order_in_range x -> order_in_range y ->
  if compare_orders x y <? 0 then Order x <= Order y else Order y <= Order x.
Proof.
  unfold compare_orders. intros Hx Hy. rewrite int_sub_exact by done.
  destruct (Z.ltb_spec (Order x - Order y) 0); lia.
Qed.

Lemma publishable_in_range (cases : list complexityCase) :
  Forall publishable_case cases -> Forall (fun c => is_int (Order c)) cases ->
  Forall order_in_range cases.
Proof.
  rewrite !Forall_forall. intros Hp Hi c Hc. destruct (Hp _ Hc) as (_ & _ & H & _).
  destruct (Hi _ Hc). split; lia.
Qed.

#[export] Instance order_le_transitive : Transitive (fun x y : complexityCase => Order x <= Order y).
Proof. intros x y z. lia. Qed.

(** ** Lemmas: the largest measurement *)
Lemma fmax_positive x y :
  positive x \/ x = of_int 0 -> positive y ->
  positive (fmax x y) /\ (fmax x y = x \/ fmax x y = y) /\
  flt (fmax x y) x = false /\ flt (fmax x y) y = false.
Proof.
  assert (forall m e, IsNaN (S754_finite false m e) = false) as Hnan.
  { intros n f. unfold IsNaN, feq, SFeqb. cbn. by rewrite Z.compare_refl, Pos.compare_cont_refl. }
  assert (forall m e, flt (S754_finite false m e) (S754_finite false m e) = false) as Hirr.
  { intros n f. unfold flt, SFltb. cbn. by rewrite Z.compare_refl, Pos.compare_cont_refl. }
  intros [(m & e & ->)| ->] (m' & e' & ->); unfold fmax; rewrite !Hnan; cbn [signbit];
    [|change (of_int 0) with (S754_zero false); cbn; split_and!; [by unfold positive; eauto | by right | done | apply Hirr]].
  destruct (feq _ _) eqn:Heq; [|destruct (flt _ _) eqn:Hlt].
  - split_and!; [by unfold positive; eauto | by left | apply Hirr |].
    revert Heq. unfold feq, flt, SFeqb, SFltb. by destruct (SFcompare _ _) as [[]|].
  - split_and!; [by unfold positive; eauto | by right | | apply Hirr].
    revert Hlt. unfold flt, SFltb. cbn. rewrite (Z.compare_antisym e e').
    destruct (e ?= e'); cbn; try done. rewrite !Pos.compare_cont_spec, (Pos.compare_antisym m m').
    by destruct (m ?= m')%positive.
  - split_and!; [by unfold positive; eauto | by left | apply Hirr | done].
Qed.

Lemma flt_positive x m e : 
  flt (S754_finite false m e) x = false ->
  match x with S754_finite false m' e' => e' < e \/ (e' = e /\ (m' <= m)%positive) | _ => True end.
Proof.
  destruct x as [| | |[] m' e']; try done. unfold flt, SFltb. cbn.
  destruct (Z.compare_spec e e') as [->|H|H]; [|done|by left].
  rewrite Pos.compare_cont_spec. cbn. destruct (Pos.compare_spec m m'); try done; lia.
Qed.

(** [x] does not exceed [y]. *)
Definition at_most (x y : float64) : Prop := flt y x = false.

Lemma at_most_trans x y z : positive x -> positive y -> positive z -> at_most x y -> at_most y z -> at_most x z.
Proof.
  intros (m & e & ->) (m' & e' & ->) (m'' & e'' & ->) H1%flt_positive H2%flt_positive.
  unfold at_most, flt, SFltb. cbn. destruct (Z.compare_spec e'' e); [|lia|done].
  rewrite Pos.compare_cont_spec. cbn. destruct (Pos.compare_spec m'' m); [done|lia|done].
Qed.

Lemma measured_maximum_from acc cases :
  positive acc ->
  Forall (fun c => positive (cgo c) /\ positive (noCGO c)) cases ->
  let top := foldl (fun maximum c => fmax (fmax maximum (cgo c)) (noCGO c)) acc cases in
  positive top /\ at_most acc top /\
  Forall (fun c => at_most (cgo c) top /\ at_most (noCGO c) top) cases /\
  (top = acc \/ exists c, c ∈ cases /\ (top = cgo c \/ top = noCGO c)).
Proof.
  intros Hacc Hpos. revert acc Hacc. induction Hpos as [|c cases [Hc Hn] Hpos IH]; intros acc Hacc; cbn.
  - split_and!; [done | | by constructor | by left]. 
    by destruct (fmax_positive acc acc) as (_ & [-> | ->] & H & _); [left| | |].
  - destruct (fmax_positive acc (cgo c)) as (H1 & E1 & L1 & L1'); [by left|done|].
    destruct (fmax_positive (fmax acc (cgo c)) (noCGO c)) as (H2 & E2 & L2 & L2'); [by left|done|].
    destruct (IH _ H2) as (Htop & Hacc' & Hall & Hin).
    assert (forall v, positive v -> at_most v (fmax (fmax acc (cgo c)) (noCGO c)) ->
      at_most v (foldl (fun maximum c => fmax (fmax maximum (cgo c)) (noCGO c))
        (fmax (fmax acc (cgo c)) (noCGO c)) cases)) as Hup.
    { intros v Hv Hle. by eapply at_most_trans; [| | | exact Hle | exact Hacc']. }
    split_and!; [done | | | ].
    + apply Hup; [done|]. by eapply at_most_trans; [| | | exact L1 | exact L2].
    + constructor; [|done]. split; apply Hup; [done| |done|done].
      by eapply at_most_trans; [| | | exact L1' | exact L2].
    + destruct Hin as [->|(c' & Hc' & Heq)]; [|right; exists c'; split; [by right | done]].
      destruct E2 as [->| ->]; [|right; exists c; split; [left | by right]].
      destruct E1 as [->| ->]; [by left | right; exists c; split; [left | by left]].
Qed.

(** ** Lemmas: the command *)
Lemma chart_table_names input cases :
  (chart_table input cases).*1 =
  ["latency.svg"; "allocations.svg"; "cold-rss.svg"; "binary-size.svg"]%string.
Proof. reflexivity. Qed.

Lemma chart_names_perm :
  chart_names ≡ₚ ["latency.svg"; "allocations.svg"; "cold-rss.svg"; "binary-size.svg"]%string.
Proof. by apply (bool_decide_unpack _); vm_compute. Qed.

Lemma range_chart_names `{!MapRange, !MapRangeLaws, !Unicode} input charts :
  renderCharts input = inl charts -> Sort (map_keys charts) = chart_names.
Proof.
  unfold renderCharts. destruct (validate input); [done|].
  generalize (SortFunc compare_orders (Cases input)) as cases. intros cases Heq.
  assert (charts = list_to_map (chart_table input cases)) as -> by congruence.
  rewrite (Sort_perm _ (reverse chart_names)); [by vm_compute|].
  rewrite map_keys_perm, dom_list_to_map_L, chart_table_names.
  rewrite elements_list_to_set; [|by apply (bool_decide_unpack _); vm_compute].
  by rewrite <- chart_names_perm, reverse_Permutation.
Qed.

Section command.
Context {U : Type} `{!OS U, !Json, !MapRange, !MapRangeLaws, !Unicode}.

(** What the loop that writes the files adds to the log. *)
Definition loop_calls (outDir : string) (charts : gmap string string) (names : list string)
    (status : option Z) (calls : list Syscall) : Prop :=
  (status = None /\ calls = map (fun name => written outDir charts name None) names) \/
  exists before name after err,
    names = before ++ name :: after /\ status = Some 1 /\
    calls = map (fun name => written outDir charts name None) before ++
      [written outDir charts name (Some err); CStderr (wrap_error ("write " +:+ name)%string err)].

(** The process after some more system calls. *)
Definition after (s : Process U) (u : U) (calls : list Syscall) : Process U :=
  {| os := u; syscalls := syscalls s ++ calls |}.

Lemma after_after s u u' calls calls' : after (after s u calls) u' calls' = after s u' (calls ++ calls').
Proof. unfold after. cbn. by rewrite app_assoc. Qed.

Lemma write_loop outDir charts names (s : Process U) :
  exists status calls u,
    for_range names (write_chart outDir charts) s = (Ret status, after s u calls) /\
    loop_calls outDir charts names status calls.
Proof.
  revert s. induction names as [|name names IH]; intros s; cbn [for_range].
  - exists None, [], (os s). unfold after. rewrite app_nil_r. destruct s. split; [done | by left].
  - destruct (os_WriteFile (filepath_Join outDir name) (default ""%string (charts !! name)) 420 (os s))
      as [[err|] u] eqn:Hw.
    + assert (write_chart outDir charts name s = (Ret (Some 1), after s u
        ([written outDir charts name (Some err)] ++ [CStderr (wrap_error ("write " +:+ name)%string err)]))) as Hrun.
      { unfold write_chart, WriteFile, mbind, M_bind. rewrite Hw, <- (after_after s u). done. }
      rewrite (bind_Ret _ _ _ _ _ Hrun). eexists _, _, _. split; [done|]. right.
      by exists [], name, names, err.
    + assert (write_chart outDir charts name s =
        (Ret None, after s u [written outDir charts name None])) as Hrun.
      { unfold write_chart, WriteFile, mbind, M_bind. by rewrite Hw. }
      rewrite (bind_Ret _ _ _ _ _ Hrun).
      destruct (IH (after s u [written outDir charts name None])) as (status & calls & u' & -> & Hcalls).
      eexists _, _, _. rewrite after_after. split; [done|].
      destruct Hcalls as [[-> ->]|(before & name' & rest & err & -> & -> & ->)]; [by left|].
      right. by exists (name :: before), name', rest, err.
Qed.

Lemma loadDataset_run path (s : Process U) :
  exists contents u,
    loadDataset path s = (Ret (load_result contents), after s u [CReadFile path contents]).
Proof.
  unfold loadDataset, ReadFile, mbind, M_bind.
  destruct (os_ReadFile path (os s)) as [contents u]. exists contents, u. unfold load_result.
  destruct contents as [text|]; [|done]. destruct (decode_dataset text) as [d|]; [|done].
  by destruct (validate d).
Qed.

Lemma MkdirAll_run path perm (s : Process U) :
  exists err u, MkdirAll path perm s = (Ret err, after s u [CMkdirAll path perm err]).
Proof. unfold MkdirAll. destruct (os_MkdirAll path perm (os s)) as [err u]. by exists err, u. Qed.

Lemma load_result_valid contents input : load_result contents = inl input -> validate input = None.
Proof.
  unfold load_result. destruct contents as [text|]; [|done]. destruct (decode_dataset text) as [d|]; [|done].
  by destruct (validate d) eqn:?; intros; simplify_eq.
Qed.

(** The calls that leave something behind. *)
Definition lasting (call : Syscall) : Prop :=
  match call with CMkdirAll _ _ _ | CWriteFile _ _ _ _ => True | _ => False end.

Lemma chart_present input charts name :
  renderCharts input = inl charts -> name ∈ chart_names -> exists contents, charts !! name = Some contents.
Proof.
  unfold renderCharts. destruct (validate input); [done|].
  generalize (SortFunc compare_orders (Cases input)) as cases. intros cases Heq Hname.
  assert (charts = list_to_map (chart_table input cases)) as -> by congruence.
  apply elem_of_dom. rewrite dom_list_to_map_L, chart_table_names, elem_of_list_to_set.
  rewrite <- chart_names_perm. exact Hname.
Qed.

(** After a dataset was loaded and rendered, only its charts are written. *)
Definition writes_charts (outDir : string) (charts : gmap string string) (call : Syscall) : Prop :=
  lasting call -> forall path contents perm err, call = CWriteFile path contents perm err ->
    exists name, name ∈ chart_names /\ call = written outDir charts name err.

Lemma writes_charts_written outDir charts names err :
  Forall (fun name => name ∈ chart_names) names ->
  Forall (writes_charts outDir charts) (map (fun name => written outDir charts name err) names).
Proof.
  induction 1 as [|name names Hname _ IH]; cbn [map]; constructor; [|done].
  intros _ path contents perm err'. unfold written at 1. intros [= _ _ _ ->]. by exists name.
Qed.

Lemma run_of_shape dataPath outDir calls status :
  run_of dataPath outDir calls status ->
  Forall (fun call => ~ lasting call) calls \/
  exists contents input charts rest,
    calls = CReadFile dataPath contents :: rest /\ load_result contents = inl input /\
    renderCharts input = inl charts /\ Forall (writes_charts outDir charts) rest.
Proof.
  intros [Hf|contents err Hd Ho Hl|contents input err Hd Ho Hl|contents input charts before name rest err Hd Ho Hl Hc Hn
    |contents input charts Hd Ho Hl Hc].
  - left. by repeat constructor; intros [].
  - left. by repeat constructor; intros [].
  - pose proof (load_result_valid _ _ Hl) as Hval. right.
    destruct (renderCharts input) as [charts|] eqn:Hc; [|by unfold renderCharts in Hc; rewrite Hval in Hc].
    exists contents, input, charts. eexists. split_and!; [done..|]. by repeat constructor.
  - right. exists contents, input, charts. eexists. split_and!; [done..|].
    assert (Forall (fun name => name ∈ chart_names) (before ++ name :: rest)) as [Hb [Hname _]%Forall_cons]%Forall_app
      by (rewrite <- Hn; by apply Forall_forall).
    constructor; [done|]. apply Forall_app. split; [by apply writes_charts_written|].
    constructor; [|by repeat constructor].
    assert (Forall (writes_charts outDir charts) [written outDir charts name (Some err)]) as [? _]%Forall_cons
      by (apply (writes_charts_written outDir charts [name] (Some err)); by apply Forall_singleton). done.
  - right. exists contents, input, charts. eexists. split_and!; [done..|].
    constructor; [done|]. apply writes_charts_written. by apply Forall_forall.
Qed.

(** A run makes the system calls of the protocol, whatever the system answers. *)
Lemma main_run dataPath outDir (s : Process U) :
  exists calls status u,
    main dataPath outDir s = (Ret status, after s u calls) /\ run_of dataPath outDir calls status.
Proof.
  unfold main. destruct (empty dataPath || empty outDir) eqn:Hflags.
  { eexists _, _, _. split; [done|]. apply run_flags.
    apply orb_prop in Hflags as [Hf|Hf]; apply String.eqb_eq in Hf; auto. }
  apply orb_false_iff in Hflags as [Hdata%empty_false Hout%empty_false].
  destruct (loadDataset_run dataPath s) as (contents & u & Hrun).
  rewrite (bind_Ret _ _ _ _ _ Hrun). destruct (load_result contents) as [input|err] eqn:Hload.
  - pose proof (load_result_valid _ _ Hload) as Hval.
    destruct (renderCharts input) as [charts|err] eqn:Hcharts;
      [|by unfold renderCharts in Hcharts; rewrite Hval in Hcharts].
    destruct (MkdirAll_run outDir 493 (after s u [CReadFile dataPath contents])) as (made & u' & Hmade).
    rewrite (bind_Ret _ _ _ _ _ Hmade), after_after. destruct made as [err|].
    + exists ([CReadFile dataPath contents; CMkdirAll outDir 493 (Some err)] ++
        [CStderr (wrap_error "create output directory" err)]), 1, u'.
      split; [by unfold fatal, after; cbn; rewrite <- app_assoc|]. by eapply run_no_directory.
    + cbn [app]. rewrite (range_chart_names _ _ Hcharts).
      destruct (write_loop outDir charts chart_names
        (after s u' [CReadFile dataPath contents; CMkdirAll outDir 493 None]))
        as (status & calls & u'' & Hloop & Hcalls).
      rewrite (bind_Ret _ _ _ _ _ Hloop), after_after. eexists _, _, _. split; [done|].
      destruct Hcalls as [[-> ->]|(before & name & rest & err & Hnames & -> & ->)].
      * by eapply run_complete.
      * by eapply (run_write_failed _ _ _ _ _ before name rest).
  - exists ([CReadFile dataPath contents] ++ [CStderr err]), 1, u.
    split; [by unfold fatal, after; cbn; rewrite <- app_assoc|]. by eapply run_rejected.
Qed.
End command.

(** ** Lemmas: the charts of the cases *)

(** The sorted cases of a dataset that passes validation. *)
Lemma sorted_cases `{!Unicode} input :
  publishable input -> Forall (fun c => is_int (Order c)) (Cases input) ->
  let sorted := SortFunc compare_orders (Cases input) in
  sorted ≡ₚ Cases input /\
  StronglySorted (fun x y => Order x < Order y) sorted /\
  (forall x y, x ∈ Cases input -> y ∈ Cases input -> compare_orders x y = Order x - Order y) /\
  (forall l, l ≡ₚ Cases input -> StronglySorted (fun x y => compare_orders x y <= 0) l -> l = sorted).
Proof.
  intros Hpub Hint sorted.
  pose proof (publishable_in_range _ (proj2 (pub_cases _ Hpub)) Hint) as Hrange.
  pose proof (pub_orders _ Hpub) as Hnd.
  assert (forall x y, x ∈ Cases input -> y ∈ Cases input -> compare_orders x y = Order x - Order y) as Hcmp.
  { rewrite Forall_forall in Hrange. intros x y Hx Hy. by apply int_sub_exact; apply Hrange. }
  pose proof (SortFunc_sorted compare_orders order_in_range _ compare_orders_below _ Hrange) as Hsorted.
  pose proof (SortFunc_perm compare_orders (Cases input)) as Hperm.
  split_and!; [done | | done |].
  - assert (NoDup (Order <$> sorted)) as Hnd' by (unfold sorted; by rewrite Hperm).
    fold sorted in Hsorted. clear -Hsorted Hnd'. induction Hsorted as [|x l Hs IH Hx]; [constructor|].
    cbn in Hnd'. apply NoDup_cons in Hnd' as [Hxl Hnd]. constructor; [by apply IH|].
    rewrite Forall_forall in Hx |- *. intros y Hy. specialize (Hx y Hy). cbn in Hx.
    enough (Order x <> Order y) by lia. intros Heq. apply Hxl. rewrite Heq. by apply list_elem_of_fmap_2.
  - intros l Hl Hs. apply (SortFunc_unique compare_orders order_in_range _ compare_orders_below).
    + done.
    + intros x y Hx Hy H1 H2. eapply (NoDup_fmap_inj_on Order); [done..|]. lia.
    + done.
    + assert (Forall (fun x => x ∈ Cases input) l) as Hin by (apply Forall_forall; intros x; by rewrite Hl).
      clear -Hs Hin Hcmp. induction Hs as [|x l Hs IH Hx]; [constructor|].
      apply Forall_cons in Hin as [Hx' Hin]. constructor; [by apply IH|].
      rewrite Forall_forall in Hx, Hin |- *. intros y Hy. specialize (Hx y Hy). cbn in Hx.
      rewrite Hcmp in Hx by auto. lia.
Qed.

(** The two charts with a group for each case. *)
Lemma rendered_cases `{!Unicode} input charts :
  renderCharts input = inl charts ->
  let cases := SortFunc compare_orders (Cases input) in
  charts !! "latency.svg"%string =
    Some (renderGroupedBars "Direct validation latency" "Median execution time; lower is better"
      (u_Latency (Units input)) (hostLine input) (map latency_chart cases) 1) /\
  charts !! "allocations.svg"%string =
    Some (renderGroupedBars "Allocated memory" "Median heap bytes per validation; lower is better"
      (u_AllocatedBytes (Units input)) (hostLine input) (map allocations_chart cases) 1).
Proof.
  unfold renderCharts. destruct (validate input); [done|].
  generalize (SortFunc compare_orders (Cases input)) as cases. intros cases Heq.
  assert (charts = list_to_map (chart_table input cases)) as -> by congruence.
  unfold chart_table. cbv zeta. cbn [list_to_map foldr uncurry fst snd]. split; [apply lookup_insert_eq|].
  rewrite lookup_insert_ne by done. apply lookup_insert_eq.
Qed.

(** ** Properties *)

(** C35: A dataset passes validation exactly when it is publishable: complete metadata, at
    least five runs, the documented units, at least one case, positive orders and
    identifiers without repetition, and positive finite measurements throughout. *)
Theorem validate_exact `{!Unicode} input : validate input = None <-> publishable input.
Proof. apply validate_spec. Qed.

(** C40: The latency and the allocations chart that are written for a dataset list its cases
    in strictly ascending order, each once, with their own measurements, and a reader finds
    their labels below the axis in that order.  The comparison by a 64-bit difference never
    overflows on the orders of a dataset that passes validation, and any sorting method that
    respects it gives the same charts. *)
Theorem cases_sorted `{!Unicode} input charts :
  renderCharts input = inl charts -> Forall (fun c => is_int (Order c)) (Cases input) ->
  (forall x y, x ∈ Cases input -> y ∈ Cases input -> compare_orders x y = Order x - Order y) /\
  exists cases latency allocations,
    cases ≡ₚ Cases input /\ StronglySorted (fun x y => Order x < Order y) cases /\
    (forall l, l ≡ₚ Cases input -> StronglySorted (fun x y => compare_orders x y <= 0) l -> l = cases) /\
    charts !! "latency.svg"%string = Some latency /\ charts !! "allocations.svg"%string = Some allocations /\
    latency = renderGroupedBars "Direct validation latency" "Median execution time; lower is better"
      (u_Latency (Units input)) (hostLine input) (map latency_chart cases) 1 /\
    allocations = renderGroupedBars "Allocated memory" "Median heap bytes per validation; lower is better"
      (u_AllocatedBytes (Units input)) (hostLine input) (map allocations_chart cases) 1 /\
    axis_labels (read_svg latency) = map (fun c => sanitize (Label c)) cases /\
    axis_labels (read_svg allocations) = map (fun c => sanitize (Label c)) cases.
Proof.
  intros Hcharts Hint.
  assert (publishable input) as Hpub.
  { apply validate_spec. unfold renderCharts in Hcharts. by destruct (validate input). }
  destruct (sorted_cases input Hpub Hint) as (Hperm & Hsorted & Hcmp & Huniq). split; [done|].
  destruct (rendered_cases input charts Hcharts) as [Hl Ha]. revert Hl Ha.
  generalize dependent (SortFunc compare_orders (Cases input)). intros cases Hperm Hsorted Huniq Hl Ha.
  assert (Forall (fun c => empty (Label c) = false) cases) as Hlabels.
  { rewrite Hperm. eapply Forall_impl; [apply (proj2 (pub_cases _ Hpub))|].
    intros c (_ & Hne & _). destruct (empty (Label c)) eqn:He; [|done]. by apply String.eqb_eq in He. }
  eexists cases, _, _. split; [done|]. split; [done|]. split; [done|]. split; [exact Hl|]. split; [exact Ha|].
  split; [done|]. split; [done|]. by rewrite !labels_chart, !map_map by by apply Forall_map.
Qed.

(** The scale of a chart is its largest measurement: over positive measurements the
    computed maximum is one of them and none exceeds it. *)
Theorem measured_maximum_spec c cases :
  Forall (fun c => positive (cgo c) /\ positive (noCGO c)) (c :: cases) ->
  let top := measured_maximum (c :: cases) in
  positive top /\
  (exists c', c' ∈ c :: cases /\ (top = cgo c' \/ top = noCGO c')) /\
  Forall (fun c' => at_most (cgo c') top /\ at_most (noCGO c') top) (c :: cases).
Proof.
  intros [[Hc Hn] Hpos]%Forall_cons. unfold measured_maximum. cbn [foldl].
  assert (fmax (of_int 0) (cgo c) = cgo c) as ->.
  { destruct (fmax_positive (of_int 0) (cgo c)) as ([m [e Hm]] & [E|E] & _); [by right|done| |done].
    rewrite E in Hm. by vm_compute in Hm. }
  destruct (fmax_positive (cgo c) (noCGO c)) as (H1 & E1 & L1 & L1'); [by left|done|].
  destruct (measured_maximum_from _ _ H1 Hpos) as (Htop & Hle & Hall & Hin).
  split_and!; [done | |].
  - destruct Hin as [->|(c' & Hc' & Heq)]; [exists c; split; [left | done]|].
    exists c'. split; [by right | done].
  - constructor; [|done]. split; (eapply at_most_trans; [| | |..|exact Hle]; done).
Qed.

(** The number printed over a bar is the measurement rounded to the printed precision:
    reading it back gives the integer number of units nearest to the exact binary value,
    ties to even. *)
Theorem formatValue_reads_back m e unit_ precision :
  let places := if String.eqb unit_ "ns/op" || String.eqb unit_ "B/op" then 0%nat else precision in
  exists n,
    read_fixed (formatValue (S754_finite false m e) unit_ precision) = Some (false, (n, places)) /\
    2 * Z.abs (n * scaled_den e - scaled_num m e places) <= scaled_den e /\
    (2 * Z.abs (n * scaled_den e - scaled_num m e places) = scaled_den e -> Z.even n = true).
Proof.
  intros places. exists (scaled (S754_finite false m e) places).
  unfold formatValue. fold places.
  pose proof (FormatFixed_reads_back places false m e) as H. unfold places in *.
  by destruct (_ || _).
Qed.

(** C38: The command follows its protocol whatever the operating system answers: it always
    ends with an exit status and the system calls of one of the runs of [run_of]. *)
Theorem main_refines_protocol `{!OS U, !Json, !MapRange, !MapRangeLaws, !Unicode}
    dataPath outDir (s : Process U) :
  exists calls status u,
    main dataPath outDir s = (Ret status, {| os := u; syscalls := syscalls s ++ calls |}) /\
    run_of dataPath outDir calls status.
Proof. apply main_run. Qed.

(** C39: Nothing but a publishable dataset reaches the disk: a run that makes a directory or
    writes a file has read and decoded a publishable dataset, every file it writes is one
    of the four charts of that dataset under its own name, and exit status 0 means that all
    four were written. *)
Theorem main_publishes_only `{!OS U, !Json, !MapRange, !MapRangeLaws, !Unicode}
    dataPath outDir (s : Process U) status u calls :
  main dataPath outDir s = (Ret status, {| os := u; syscalls := syscalls s ++ calls |}) ->
  (forall call, call ∈ calls -> lasting call ->
    exists text input charts,
      CReadFile dataPath (inl text) ∈ calls /\ decode_dataset text = inl input /\ publishable input /\
      renderCharts input = inl charts /\
      forall path contents perm err, call = CWriteFile path contents perm err ->
        exists name, name ∈ chart_names /\ path = filepath_Join outDir name /\ charts !! name = Some contents) /\
  (status = 0 -> forall name, name ∈ chart_names ->
    exists contents, CWriteFile (filepath_Join outDir name) contents 420 None ∈ calls).
Proof.
  intros Hmain. destruct (main_run dataPath outDir s) as (calls' & status' & u' & Hrun & Hof).
  rewrite Hrun in Hmain. unfold after in Hmain. injection Hmain as <- <- Hcalls. apply app_inv_head in Hcalls as <-.
  split.
  - intros call Hin Hcall. destruct (run_of_shape _ _ _ _ Hof)
      as [Hno|(contents & input & charts & rest & -> & Hl & Hc & Hw)].
    { by destruct (proj1 (Forall_forall _ _) Hno _ Hin). }
    pose proof (load_result_valid _ _ Hl) as Hpub%validate_spec.
    assert (exists text, contents = inl text /\ decode_dataset text = inl input) as (text & -> & Hdec).
    { unfold load_result in Hl. destruct contents as [text|]; [|done]. exists text. split; [done|].
      destruct (decode_dataset text) as [d|]; [|done]. destruct (validate d); congruence. }
    exists text, input, charts. split_and!; [by left | done.. |].
    intros path contents perm err ->. apply elem_of_cons in Hin as [|Hin]; [done|].
    destruct (proj1 (Forall_forall _ _) Hw _ Hin Hcall _ _ _ _ eq_refl) as (name & Hname & Heq).
    exists name. unfold written in Heq. destruct (chart_present _ _ _ Hc Hname) as [text' Hl'].
    rewrite Hl' in Heq |- *. cbn in Heq. split_and!; congruence.
  - intros ->. inversion_clear Hof as [| | | |contents input charts Hd Ho Hl Hc]. intros name Hname.
    exists (default ""%string (charts !! name)). apply elem_of_app. right.
    by apply (list_elem_of_fmap_2 (fun name => written outDir charts name None)).
Qed.
