(* ===== verification/BenchchartsExamples.v ===== *)
(** * The chart generator, evaluated

    On the committed dataset (docs/benchmarks/2026-09-14/dataset.json) the model writes
    the committed charts (docs/assets/benchmarks), byte for byte.  The theorems with
    hypotheses are applied to that dataset and to a small file system. *)
From Stdlib Require Import SpecFloat Ascii String.
From stdpp Require Import base gmap sets strings list sorting.
From S2P Require Import Prelude.
From S2P Require Import GoRuntime.
From S2P Require Import GoFloat.
From S2P Require Import GoText.
From S2P Require Import GoSlices.
From S2P Require Import Benchcharts.
From S2P Require Import BenchchartsProps.
From S2P Require Import ChartDocument.
From S2P Require Import FloatRounding.
From S2P Require Import ChartBars.

Local Open Scope Z_scope.

(** No rune beyond Latin-1 counts as printable. *)
#[export] Instance latin_unicode : Unicode := {| isPrint_table := fun _ => false |}.

Definition both (c n : string) : backendStrings := {| bs_CGO := c; bs_NoCGO := n |}.

Definition measured (id label_ : string) (order l a l' a' : Z) : complexityCase := {|
  ID := id; Label := label_; Order := order;
  c_CGO := {| Latency := of_int l; AllocatedBytes := of_int a |};
  c_NoCGO := {| Latency := of_int l'; AllocatedBytes := of_int a' |}
|}.

Definition committed_cases : list complexityCase := [
  measured "simple" "Simple" 1 5821 5544 13742 87568;
  measured "medium" "Medium" 2 75779 41441 164908 123472;
  measured "multi_statement" "Multi-statement" 3 34075 25032 68819 107048;
  measured "nested_cte" "Nested CTE" 4 48213 29048 99737 209368].

(** The commands and file names, which the charts do not show, are abridged. *)
Definition committed : dataset := {|
  SchemaVersion := 1;
  MeasurementDate := "2026-09-14";
  Environment := {| Host := "Apple M4 Pro"; env_OS := "Darwin 24.6.0"; Architecture := "arm64";
    LogicalCPUs := 14; GoVersion := "go1.26.0 darwin/arm64"; CGOCompiler := "Apple Clang 17.0.0" |};
  Methodology := {| m_RunCount := 5; Benchtime := "1s"; Commands := both "go test" "go test";
    m_RawResults := both "raw/cgo.txt" "raw/no-cgo.txt"; RSSCommands := both "time" "time";
    SizeCommands := both "stat" "stat" |};
  Units := {| u_Latency := "ns/op"; u_AllocatedBytes := "B/op"; u_ColdRSS := "bytes";
    u_BinarySize := "bytes" |};
  Cases := committed_cases;
  Footprint := {| Workload := "Fixed validation workload"; f_RunCount := 5;
    f_RawResults := both "raw/cgo-footprint.txt" "raw/no-cgo-footprint.txt";
    f_CGO := {| ColdRSS := of_int 11403264; BinarySize := of_int 7307938 |};
    f_NoCGO := {| ColdRSS := of_int 313917440; BinarySize := of_int 10478434 |} |}
|}.

Definition chart (name : string) : option string :=
  match renderCharts committed with inl charts => charts !! name | inr _ => None end.

(** ** The committed charts *)
Definition latency_svg : string := raw
  "<svg xmlns='http://www.w3.org/2000/svg' width='960' height='480' viewBox='0 0 960 480' role='img' aria-labelledby='title desc'><title id='title'>Direct validation latency</title><desc id='desc'>Median execution time; lower is better. CGO is blue and no-CGO is amber. Values are in ns/op.</desc><rect width='960' height='480' rx='16' fill='#0d1117'/><text x='40' y='42' fill='#f0f6fc' font-family='system-ui,sans-serif' font-size='24' font-weight='700'>Direct validation latency</text><text x='40' y='68' fill='#8b949e' font-family='system-ui,sans-serif' font-size='13'>2026-09-14 · Apple M4 Pro · go1.26.0 darwin/arm64 · ns/op</text><line x1='92' y1='390' x2='928' y2='390' stroke='#30363d'/><rect x='730' y='28' width='12' height='12' rx='2' fill='#58a6ff'/><text x='748' y='39' fill='#c9d1d9' font-family='system-ui,sans-serif' font-size='13'>CGO</text><rect x='805' y='28' width='12' height='12' rx='2' fill='#d29922'/><text x='823' y='39' fill='#c9d1d9' font-family='system-ui,sans-serif' font-size='13'>no-CGO</text><rect x='135.0' y='380.4' width='58.5' height='9.6' rx='4' fill='#58a6ff'/><text x='164.2' y='372.4' text-anchor='middle' fill='#f0f6fc' font-family='system-ui,sans-serif' font-size='12'>5821</text><rect x='199.5' y='367.4' width='58.5' height='22.6' rx='4' fill='#d29922'/><text x='228.8' y='359.4' text-anchor='middle' fill='#f0f6fc' font-family='system-ui,sans-serif' font-size='12'>13742</text><text x='196.5' y='420' text-anchor='middle' fill='#c9d1d9' font-family='system-ui,sans-serif' font-size='13'>Simple</text><rect x='344.0' y='265.5' width='58.5' height='124.5' rx='4' fill='#58a6ff'/><text x='373.2' y='257.5' text-anchor='middle' fill='#f0f6fc' font-family='system-ui,sans-serif' font-size='12'>75779</text><rect x='408.5' y='119.1' width='58.5' height='270.9' rx='4' fill='#d29922'/><text x='437.8' y='111.1' text-anchor='middle' fill='#f0f6fc' font-family='system-ui,sans-serif' font-size='12'>164908</text><text x='405.5' y='420' text-anchor='middle' fill='#c9d1d9' font-family='system-ui,sans-serif' font-size='13'>Medium</text><rect x='553.0' y='334.0' width='58.5' height='56.0' rx='4' fill='#58a6ff'/><text x='582.2' y='326.0' text-anchor='middle' fill='#f0f6fc' font-family='system-ui,sans-serif' font-size='12'>34075</text><rect x='617.5' y='276.9' width='58.5' height='113.1' rx='4' fill='#d29922'/><text x='646.8' y='268.9' text-anchor='middle' fill='#f0f6fc' font-family='system-ui,sans-serif' font-size='12'>68819</text><text x='614.5' y='420' text-anchor='middle' fill='#c9d1d9' font-family='system-ui,sans-serif' font-size='13'>Multi-statement</text><rect x='762.0' y='310.8' width='58.5' height='79.2' rx='4' fill='#58a6ff'/><text x='791.2' y='302.8' text-anchor='middle' fill='#f0f6fc' font-family='system-ui,sans-serif' font-size='12'>48213</text><rect x='826.5' y='226.2' width='58.5' height='163.8' rx='4' fill='#d29922'/><text x='855.8' y='218.2' text-anchor='middle' fill='#f0f6fc' font-family='system-ui,sans-serif' font-size='12'>99737</text><text x='823.5' y='420' text-anchor='middle' fill='#c9d1d9' font-family='system-ui,sans-serif' font-size='13'>Nested CTE</text></svg>".

Definition binary_size_svg : string := raw
  "<svg xmlns='http://www.w3.org/2000/svg' width='960' height='480' viewBox='0 0 960 480' role='img' aria-labelledby='title desc'><title id='title'>Stripped linked binary size</title><desc id='desc'>Equivalent size-probe builds; lower is better. CGO is blue and no-CGO is amber. Values are in MiB.</desc><rect width='960' height='480' rx='16' fill='#0d1117'/><text x='40' y='42' fill='#f0f6fc' font-family='system-ui,sans-serif' font-size='24' font-weight='700'>Stripped linked binary size</text><text x='40' y='68' fill='#8b949e' font-family='system-ui,sans-serif' font-size='13'>2026-09-14 · Apple M4 Pro · go1.26.0 darwin/arm64 · MiB</text><line x1='92' y1='390' x2='928' y2='390' stroke='#30363d'/><rect x='730' y='28' width='12' height='12' rx='2' fill='#58a6ff'/><text x='748' y='39' fill='#c9d1d9' font-family='system-ui,sans-serif' font-size='13'>CGO</text><rect x='805' y='28' width='12' height='12' rx='2' fill='#d29922'/><text x='823' y='39' fill='#c9d1d9' font-family='system-ui,sans-serif' font-size='13'>no-CGO</text><rect x='437.0' y='201.1' width='70.0' height='188.9' rx='4' fill='#58a6ff'/><text x='472.0' y='193.1' text-anchor='middle' fill='#f0f6fc' font-family='system-ui,sans-serif' font-size='12'>6.97</text><rect x='513.0' y='119.1' width='70.0' height='270.9' rx='4' fill='#d29922'/><text x='548.0' y='111.1' text-anchor='middle' fill='#f0f6fc' font-family='system-ui,sans-serif' font-size='12'>9.99</text><text x='510.0' y='420' text-anchor='middle' fill='#c9d1d9' font-family='system-ui,sans-serif' font-size='13'>Fixed validation workload</text></svg>".

Example latency_is_committed : chart "latency.svg" = Some latency_svg.
Proof. by vm_compute. Qed.

Example binary_size_is_committed : chart "binary-size.svg" = Some binary_size_svg.
Proof. by vm_compute. Qed.

(** Text that looks like markup stays text, and a byte that is not UTF-8 is replaced. *)
Example hostile_label :
  escape "</text><script a='1'>&" = "&lt;/text&gt;&lt;script a=&#39;1&#39;&gt;&amp;"%string /\
  escape (String "255" "x") = (escFFFD +:+ "x")%string /\
  valid_text "Größe · 漢 🐘" = true /\ escape "Größe · 漢 🐘" = "Größe · 漢 🐘"%string.
Proof. by vm_compute. Qed.

Example quoted : Quote (String quotation (String "010" "é漢")) =
  (String quotation (String backslash (String quotation (String backslash "né"))) +:+
   String backslash ("u6f22" +:+ String quotation ""))%string.
Proof. by vm_compute. Qed.

(** Measurements that are almost too large pass validation, but the scale overflows and
    the bars have no height. *)
Example scale_overflows :
  let huge := S754_finite false 9007199254740991 971 in
  positiveFinite huge = true /\
  fmul (measured_maximum [{| label := ""; cgo := huge; noCGO := huge |}]) (constant 11 10) = S754_infinity false /\
  fmul (fdiv huge (S754_infinity false)) (of_int (plotBottom - plotTop)) = S754_zero false.
Proof. by vm_compute. Qed.

(** A footprint far below one byte passes validation too, but is zero mebibytes, and the
    height of its bar is not a number: the geometry is that of charts of positive
    numbers. *)
Example footprint_underflows :
  let tiny := S754_finite false 1 (-1074) in
  let shown := fdiv tiny (of_int mebibyte) in
  positiveFinite tiny = true /\ shown = S754_zero false /\
  fdiv shown (fmul (measured_maximum [{| label := ""; cgo := shown; noCGO := shown |}]) (constant 11 10)) = S754_nan.
Proof. by vm_compute. Qed.

(** ** An operating system: the files as a list, no overwriting *)
Definition files : Type := list (string * string).

#[export] Instance list_files : OS files := {|
  os_ReadFile path fs :=
    match find_first (fun '(p, c) => if String.eqb p path then Some c else None) fs with
    | Some c => (inl c, fs)
    | None => (inr (ForeignError "no such file"), fs)
    end;
  os_MkdirAll _ _ fs := (None, fs);
  os_WriteFile path contents _ fs :=
    if existsb (fun '(p, _) => String.eqb p path) fs then (Some (ForeignError "exists"), fs)
    else (None, fs ++ [(path, contents)])
|}.

#[export] Instance named_datasets : Json := {|
  decode_dataset text := if String.eqb text "committed" then inl committed else inr (ForeignError "syntax")
|}.

#[export] Instance reverse_range : MapRange := {| map_keys m := reverse (elements (dom m)) |}.

#[export] Instance reverse_range_laws : MapRangeLaws.
Proof. constructor. intros m. apply reverse_Permutation. Qed.

Definition disk : Process files := {| os := [("data.json", "committed")]%string; syscalls := [] |}.
Definition used_disk : Process files :=
  {| os := [("data.json", "committed"); ("out/cold-rss.svg", "")]%string; syscalls := [] |}.

Definition exit_status {A} (r : outcome Z * A) : option Z :=
  match fst r with Ret z => Some z | Panic _ => None end.

Example runs :
  let written p := map fst (os (snd p)) in
  let r1 := main "data.json" "out/." disk in
  let r2 := main "data.json" "out" used_disk in
  let r3 := main "missing.json" "out" disk in
  (exit_status r1, written r1) = (Some 0, ["data.json"; "out/allocations.svg"; "out/binary-size.svg";
     "out/cold-rss.svg"; "out/latency.svg"]%string) /\
  (exit_status r2, written r2) = (Some 1, ["data.json"; "out/cold-rss.svg"; "out/allocations.svg";
     "out/binary-size.svg"]%string) /\
  (exit_status r3, written r3) = (Some 1, ["data.json"]%string) /\
  exit_status (main "" "out" disk) = Some 1.
Proof. by vm_compute. Qed.

(** ** Witnesses *)
Lemma committed_publishable : publishable committed.
Proof. apply validate_spec. by vm_compute. Qed.

(** The cases of the file in another order. *)
Definition shuffled : dataset := {|
  SchemaVersion := SchemaVersion committed; MeasurementDate := MeasurementDate committed;
  Environment := Environment committed; Methodology := Methodology committed;
  Units := Units committed; Cases := reverse committed_cases; Footprint := Footprint committed
|}.

(** Its charts list the cases in ascending order all the same. *)
Lemma cases_sorted_witness :
  match renderCharts shuffled with
  | inl charts => exists latency, charts !! "latency.svg"%string = Some latency /\
      axis_labels (read_svg latency) = ["Simple"; "Medium"; "Multi-statement"; "Nested CTE"]%string
  | inr _ => False
  end.
Proof.
  destruct (renderCharts shuffled) as [charts|err] eqn:Hcharts.
  - destruct (cases_sorted shuffled charts Hcharts)
      as (_ & cases & latency & allocations & _ & _ & Huniq & Hl & _ & _ & _ & Hlabels & _).
    { apply (bool_decide_unpack _). by vm_compute. }
    exists latency. split; [exact Hl|]. rewrite Hlabels, <- (Huniq committed_cases).
    + by vm_compute.
    + symmetry. apply reverse_Permutation.
    + apply (bool_decide_unpack _). by vm_compute.
  - unfold renderCharts in Hcharts. by vm_compute in Hcharts.
Defined.

Definition small (n : Z) : chartCase := {| label := "x"; cgo := of_int n; noCGO := of_int (2 * n) |}.

Lemma measured_maximum_spec_witness : positive (measured_maximum [small 3; small 9; small 5]).
Proof.
  apply (measured_maximum_spec (small 3) [small 9; small 5]).
  repeat constructor; apply positiveFinite_spec; by vm_compute.
Defined.

(** The charts of the committed measurements, and one whose scale overflows. *)
Lemma bars_in_plot_witness :
  bars (read_svg latency_svg) = 8%nat /\
  (let m := raw "rect x='135.0' y='380.4' width='58.5' height='9.6' rx='4' fill='#58a6ff'/" in
   upright m /\ between_sides m) /\
  bars (read_svg (renderGroupedBars "a" "b" "MiB" "c"
    [{| label := "x"; cgo := S754_finite false 9007199254740991 971; noCGO := of_int 1 |}] 1)) = 2%nat.
Proof.
  assert (latency_svg = renderGroupedBars "Direct validation latency" "Median execution time; lower is better"
    "ns/op" (hostLine committed) (map latency_chart committed_cases) 1) as -> by (by vm_compute).
  destruct (bars_in_plot "Direct validation latency" "Median execution time; lower is better"
    "ns/op" (hostLine committed) (map latency_chart committed_cases) 1) as [Hb Hm].
  { repeat constructor; by vm_compute. }
  split_and!; [exact Hb | |].
  - intros m. destruct (Hm m) as [Hbar _]; [apply (bool_decide_unpack _); by vm_compute|].
    destruct Hbar as [Hup Hside]; [apply (bool_decide_unpack _); by vm_compute|].
    split; [exact Hup | apply Hside; cbn; lia].
  - apply bars_in_plot. repeat constructor; by vm_compute.
Defined.

(** A top and a height printed apart can miss the axis by a tenth: 382.6 and 7.5 end at
    390.1. *)
Example bottom_off_by_a_tenth :
  let svg := renderGroupedBars "a" "b" "MiB" "c" [{| label := "x"; cgo := of_int 275; noCGO := of_int 10000 |}] 1 in
  option_map (fun m => (tenths "y" m, tenths "height" m)) (head (bar_tags (read_svg svg))) =
  Some (Some 3826, Some 75).
Proof. by vm_compute. Qed.

Lemma bars_apart_witness :
  in_order 920 9280 (map span (bar_tags (read_svg latency_svg))) = true.
Proof.
  assert (latency_svg = renderGroupedBars "Direct validation latency" "Median execution time; lower is better"
    "ns/op" (hostLine committed) (map latency_chart committed_cases) 1) as -> by (by vm_compute).
  apply bars_apart. cbn. lia.
Defined.

(** With 62 cases the last bar ends after the plot area. *)
Example sixty_two_cases :
  in_order 920 9280 (chart_spans 62) = false /\ last (chart_spans 62) = Some (Some (9243, 9281)).
Proof. by vm_compute. Qed.

Lemma chart_markup_safe_witness :
  markups (read_svg (renderGroupedBars "a" "b" "MiB" "c" [small 3] 1)) =
  markups (read_svg (renderGroupedBars "<script>" "b" "B/op" "--><rect/>"
    [{| label := "</text></svg>"; cgo := of_int 3; noCGO := of_int 6 |}] 1)).
Proof. apply (chart_markup_safe "a" "b" "MiB" "c" [small 3] 1). by vm_compute. Defined.

Lemma main_publishes_only_witness :
  exists calls, syscalls (snd (main "data.json" "out" disk)) = calls /\
    exists contents, CWriteFile "out/latency.svg" contents 420 None ∈ calls.
Proof.
  eexists. split; [reflexivity|].
  pose (u := os (snd (main "data.json" "out" disk))).
  destruct (main_publishes_only "data.json" "out" disk 0 u (syscalls (snd (main "data.json" "out" disk))))
    as [_ H]; [by vm_compute|].
  apply (H eq_refl "latency.svg"%string). apply (bool_decide_unpack _). by vm_compute.
Defined.

Lemma main_refines_protocol_witness :
  exists calls status u,
    main "data.json" "out" disk = (Ret status, {| os := u; syscalls := syscalls disk ++ calls |}) /\
    run_of "data.json" "out" calls status.
Proof. apply (main_refines_protocol "data.json" "out" disk). Defined.
