(* ===== verification/Examples.v ===== *)
(** * The development on concrete inputs

    One application: a state with a clock, the counters of a registry and the
    records of a log handler; contexts that are live, done, or done after the
    parse; sinks that panic or fail; engines of built-in rules on the example
    parser of TreeProto.v.  The theorems of the other files are applied to it. *)
From stdpp Require Import base strings list gmap relations.
From S2P Require Import Prelude.
From S2P Require Import GoRuntime.
From S2P Require Import Nodes.
From S2P Require Import Traversal.
From S2P Require Import PgQuery.
From S2P Require Import TreeProto.
From S2P Require Import Statements.
From S2P Require Import Errors.
From S2P Require Import RuleContract.
From S2P Require Import Observability.
From S2P Require Import Engine.
From S2P Require Import EngineState.
From S2P Require Import EngineProps.
From S2P Require Import BuiltinRules.
From S2P Require Import Prometheus.
From S2P Require Import Slog.
From S2P Require Import Pgx.
From S2P Require Import PgxGuard.
From S2P Require Import PgxPrepared.
From S2P Require Import PgxEngine.
From S2P Require Import ListLRU.
From S2P Require Import Sizeprobe.

(** ** The application *)
Record App : Type := MkApp {
  app_clock : nat;
  app_vectors : nat;
  app_counts : list (nat * list string * list string);
  app_records : list LogRecord
}.

Definition app0 : App := {| app_clock := 0; app_vectors := 0; app_counts := []; app_records := [] |}.
Definition world0 : World App := {| user := app0; trace := [] |}.

Definition tick (u : App) : App :=
  {| app_clock := S (app_clock u); app_vectors := app_vectors u; app_counts := app_counts u; app_records := app_records u |}.

(** Contexts: never done, done from the start, done from the second question on. *)
Definition background : Context App := {| Err := fun u => (Ret None, tick u) |}.
Definition done_error : goerror := ForeignError "context.Canceled".
Definition done_context : Context App := {| Err := fun u => (Ret (Some done_error), tick u) |}.
Definition expiring : Context App :=
  {| Err := fun u => (Ret (if app_clock u =? 0 then None else Some done_error), tick u) |}.

(** Sinks: one panics after changing the state, one fails. *)
Definition panicking_metrics : iface (Metrics App) :=
  Some {| dyn_kind := RPointer; dyn_nil := false;
          dyn_impl := {| RecordValidation := fun _ u => (Panic "metrics", tick u) |} |}.
Definition failing_logger : iface (Logger App) :=
  Some {| dyn_kind := RStruct; dyn_nil := false;
          dyn_impl := {| LogValidation := fun _ u => (Ret (Some (ForeignError "disk full")), tick u) |} |}.
Definition noisy : EngineOptions App := {| opt_metrics := panicking_metrics; opt_logger := failing_logger |}.
Definition silent : EngineOptions App := {| opt_metrics := None; opt_logger := None |}.

(** An engine of built-in rules. *)
Definition engine_of (options : EngineOptions App) (selection : list builtin) : Engine App :=
  {| engine_rules := map (fun b => {| reg_ruleID := builtin_id b; reg_rule := constructor b |}) selection;
     engine_metrics := opt_metrics options; engine_logger := opt_logger options |}.

Definition mutation_rules : list builtin := [UpdateRequiresWhere; DeleteRequiresWhere].
Definition guard_engine : Engine App := engine_of noisy mutation_rules.
Definition quiet_engine : Engine App := engine_of silent mutation_rules.
Definition ddl_engine : Engine App := engine_of silent [DenyDropTable; DenyAlterTable].

Definition q_select : string := "SELECT a FROM t".
Definition q_update : string := "UPDATE t SET a = 1".
Definition q_cte : string := "WITH x AS (UPDATE t SET a = 1 RETURNING a) SELECT a FROM x".
Definition q_nested : string := "WITH x AS (WITH y AS (DELETE FROM t RETURNING a) SELECT a FROM y) SELECT a FROM x".
Definition q_explain : string := "EXPLAIN ANALYZE WITH x AS (UPDATE t SET a = 1 RETURNING a) SELECT a FROM x".
Definition q_rename : string := "ALTER TABLE a RENAME TO b".
Definition q_distinct : string := "SELECT DISTINCT a FROM t".

(** What the engine that [NewEngine] returns has done to the world. *)
Definition after_new (selection : list builtin) : World App :=
  {| user := app0; trace := map (fun b => CID (Ret (builtin_id b))) selection |}.

Lemma guard_engine_new :
  NewEngine noisy (map constructor mutation_rules) world0 = (Ret (Some guard_engine, None), after_new mutation_rules).
Proof. vm_compute. reflexivity. Qed.

Lemma quiet_engine_new :
  NewEngine silent (map constructor mutation_rules) world0 = (Ret (Some quiet_engine, None), after_new mutation_rules).
Proof. vm_compute. reflexivity. Qed.

Lemma guard_engine_wf : engine_wf guard_engine.
Proof. exact (proj1 (proj2 (NewEngine_ok _ _ _ _ _ _ guard_engine_new))). Qed.

Lemma background_never_done : never_done background.
Proof. intros u. by eexists. Qed.

(** What each rule of the engines answers. *)
Definition ex_rejects (r : registeredRule App) (s : Statement) : bool := answer background app0 r s.

Lemma guard_engine_decides : Forall (fun r => decides background r (ex_rejects r)) (engine_rules guard_engine).
Proof. by apply (builtin_decides background app0 mutation_rules). Qed.

(** Runs on the example inputs. *)
Example select_accepted : (Validate cgo guard_engine background q_select world0).1 = Ret None.
Proof. vm_compute. reflexivity. Qed.

Example update_rejected :
  (Validate cgo guard_engine background q_update world0).1 =
  Ret (Some (ViolationPtr (Some {| v_ruleID := "update_requires_where" |}))).
Proof. vm_compute. reflexivity. Qed.

Example nested_delete_rejected :
  (Validate nocgo guard_engine background q_nested world0).1 =
  Ret (Some (ViolationPtr (Some {| v_ruleID := "delete_requires_where" |}))).
Proof. vm_compute. reflexivity. Qed.

Example expired_context :
  Validate cgo quiet_engine expiring "not SQL" world0 =
  (Ret (Some done_error),
   {| user := tick (tick app0); trace := [CErr (Ret None); CParse "not SQL"; CErr (Ret (Some done_error))] |}).
Proof. vm_compute. reflexivity. Qed.

Example explain_accepted : (Validate cgo quiet_engine background q_explain world0).1 = Ret None.
Proof. vm_compute. reflexivity. Qed.

Example rename_accepted : (Validate cgo ddl_engine background q_rename world0).1 = Ret None.
Proof. vm_compute. reflexivity. Qed.

Example drop_table_rejected :
  (Validate cgo ddl_engine background "DROP TABLE t" world0).1 =
  Ret (Some (ViolationPtr (Some {| v_ruleID := "deny_drop_table" |}))) /\
  (Validate cgo ddl_engine background "DROP VIEW t" world0).1 = Ret None.
Proof. vm_compute. by split. Qed.

(** The size probe ends, with either backend. *)
Example probe_ends : (main cgo world0).1 = Ret tt /\ (main nocgo world0).1 = Ret tt.
Proof. vm_compute. by split. Qed.
