(* ===== verification/Witnesses.v ===== *)
(** * Witnesses: the engine and its parts

    Each property of the parser boundary, the statement view, the engine and the
    rules that has hypotheses, applied to the example application, where they hold. *)
From stdpp Require Import base strings list gmap relations.
From S2P Require Import Prelude.
From S2P Require Import GoRuntime.
From S2P Require Import Nodes.
From S2P Require Import Traversal.
From S2P Require Import PgQuery.
From S2P Require Import TreeProto.
From S2P Require Import Statements.
From S2P Require Import ConvertedTree.
From S2P Require Import Errors.
From S2P Require Import RuleContract.
From S2P Require Import Observability.
From S2P Require Import Engine.
From S2P Require Import EngineState.
From S2P Require Import EngineProps.
From S2P Require Import BuiltinRules.
From S2P Require Import Examples.

(** ** The parser boundary and the statement view *)
Definition update_message : tmsg := tmessage (TSub (TMsg updateDesc [("target_list"%string, TList [TSub (target "a")])])).
Definition update_node : Node := MkNode "UpdateStmt" [MkField "target_list" (litList [litNode (Some
  (MkNode "ResTarget" [MkField "name" (litString "a")]))])].

Lemma convertMessage_terminates_witness :
  unroll convertMessageF (fun _ => None) 9 update_all = Some update_node /\ convertMessage update_all = Some update_node.
Proof.
  destruct (convertMessage_terminates (PR:=tree_proto) 9 update_all) as [H _]; [vm_compute; lia|].
  split; [vm_compute; reflexivity|]. rewrite <- H. vm_compute. reflexivity.
Defined.

Lemma convertMessage_lookup_witness :
  Node_Field (convertMessage update_message) "where_clause" = (zeroValue, false) /\
  (Node_Field (convertMessage update_message) "target_list").2 = true.
Proof.
  split.
  - destruct (convertMessage_lookup (PR:=tree_proto) update_message (msg_field "where_clause")) as [_ H];
      [reflexivity | by vm_compute | apply (bool_decide_unpack _); vm_compute; reflexivity | right; by left | exact H].
  - destruct (convertMessage_lookup (PR:=tree_proto) update_message (list_field "target_list")) as [_ H];
      [reflexivity | by vm_compute | apply (bool_decide_unpack _); vm_compute; reflexivity | by left |].
    change "target_list"%string with (fd_Name (list_field "target_list")). by rewrite H.
Defined.

Lemma Parse_well_formed_witness :
  exists r, Parse cgo q_cte = (Some r, None) /\
    Forall (fun s => exists n, s = Some n /\ wf_node n) (result_statements r).
Proof.
  destruct (Parse cgo q_cte) as [[r|] err] eqn:HP; [|vm_compute in HP; discriminate].
  exists r. split; [|by eapply (Parse_well_formed cgo q_cte)]. vm_compute in HP. by injection HP as <- <-.
Defined.

(** The statement that [Parse] returns is the node of a concrete message. *)
Lemma Parse_tree_exact_witness :
  exists r n tree raw source m m',
    Parse cgo q_cte = (Some r, None) /\ Some n ∈ result_statements r /\
    parseBackend cgo q_cte = inl tree /\ raw ∈ GetStmts tree /\ GetStmt raw = Some source /\
    unwraps (ProtoReflectOf source) m /\ rtc message_child m m' /\ ~ wrapper m' /\
    node_kind n = Name (Descriptor m').
Proof.
  destruct (Parse cgo q_cte) as [[r|] err] eqn:HP; [|vm_compute in HP; discriminate].
  assert (err = None) as -> by (vm_compute in HP; congruence).
  assert (exists n, Some n ∈ result_statements r) as [n Hn].
  { vm_compute in HP. injection HP as <-. eexists. by left. }
  destruct (Parse_tree_exact cgo q_cte r None n HP) as (tree & Ht & [Hfwd _]).
  destruct Hfwd as (raw & source & m & m' & Hraw & Hs & Hm & Hm' & _ & Hw & Heq); [by exists n|].
  exists r, n, tree, raw, source, m, m'. split_and!; [done..|by rewrite Heq].
Defined.

Lemma appendStatement_terminates_witness :
  unroll appendStatementF fst 2 ([], Some (MkNode "SelectStmt" [])) = [Some (MkNode "SelectStmt" [])].
Proof.
  destruct (appendStatement_terminates 2 [] (Some (MkNode "SelectStmt" []))) as [-> _]; [vm_compute; lia|].
  vm_compute. reflexivity.
Defined.

Lemma Walk_complete_witness :
  exists log : list View,
    View_Walk {| view_node := Some update_node |} (Some (recorder (fun _ => true))) [] = (Ret tt, log) /\
    (MkView (Some (MkNode "ResTarget" [MkField "name" (litString "a")])) ∈ log <->
     rtc node_child update_node (MkNode "ResTarget" [MkField "name" (litString "a")])).
Proof.
  apply (Walk_complete update_node). vm_compute. intros H.
  by repeat (apply elem_of_cons in H as [[=]|H] || apply not_elem_of_nil in H).
Defined.

(** SELECT DISTINCT a: the empty item of the distinct list ends the walk before the
    target list. *)
Definition distinct_node : Node := MkNode "SelectStmt" [
  MkField "distinct_clause" (litList [litNode None]);
  MkField "target_list" (litList [litNode (Some (MkNode "ResTarget" [MkField "name" (litString "a")]))])].

Lemma Walk_stops_at_nil_witness :
  Parse cgo q_distinct = (Some {| result_statements := [Some distinct_node] |}, None) /\
  View_Walk {| view_node := Some distinct_node |} (Some (recorder (fun _ => true))) [] =
    (Ret tt, [{| view_node := Some distinct_node |}]).
Proof.
  split; [vm_compute; reflexivity|].
  apply (Walk_stops_at_nil distinct_node [distinct_node] [Some (MkNode "ResTarget" [MkField "name" (litString "a")])]).
  vm_compute. reflexivity.
Defined.

Lemma accessors_exclusive_witness :
  View_String {| view_node := Some (MkNode "ResTarget" [MkField "name" (litString "a")]) |} "name" = ("a"%string, true) /\
  Child {| view_node := Some (MkNode "ResTarget" [MkField "name" (litString "a")]) |} "name" =
    ({| view_node := None |}, false).
Proof.
  assert (wf_node (MkNode "ResTarget" [MkField "name" (litString "a")])) as Hwf.
  { constructor. repeat constructor; cbn; try done; lia. }
  destruct (accessors_exclusive (MkNode "ResTarget" [MkField "name" (litString "a")]) "name" Hwf)
    as (_ & _ & _ & _ & _ & _ & _ & Hc & _).
  split; [reflexivity|]. rewrite Hc. reflexivity.
Defined.

(** ** The engine *)
Lemma Validate_refines_protocol_witness :
  exists t v u,
    validate_protocol cgo guard_engine q_cte t v /\
    Validate cgo guard_engine background q_cte world0 =
      (verdict_result v, {| user := u; trace := trace world0 ++ t ++ verdict_emits guard_engine v |}).
Proof. exact (Validate_refines_protocol cgo guard_engine background q_cte world0 guard_engine_wf). Defined.

Lemma ValidatePrepared_refines_protocol_witness :
  exists t v u,
    prepared_protocol None t v /\ Forall (fun c => is_parse c = false) t /\
    ValidatePrepared guard_engine background {| prepared_result := None |} world0 =
      (verdict_result v, {| user := u; trace := trace world0 ++ t ++ verdict_emits guard_engine v |}).
Proof.
  exact (ValidatePrepared_refines_protocol guard_engine background {| prepared_result := None |} world0 guard_engine_wf).
Defined.

Lemma Validate_allowed_complete_witness :
  exists r t, Parse cgo q_select = (Some r, None) /\
    trace (Validate cgo guard_engine background q_select world0).2 = t /\
    evaluations t = all_allowed (map named (pairs guard_engine r)).
Proof.
  destruct (Validate cgo guard_engine background q_select world0) as [o w'] eqn:Hrun.
  assert (o = Ret None) as -> by (change o with (o, w').1; rewrite <- Hrun; exact select_accepted).
  destruct (Validate_allowed_complete cgo guard_engine background q_select world0 w' guard_engine_wf Hrun)
    as (r & t & HP & Ht & He).
  exists r, t. split; [exact HP|]. split; [exact Ht | exact He].
Defined.

Lemma Validate_emits_once_witness :
  let '(r, w') := Validate cgo guard_engine background q_cte world0 in
  exists t, trace w' = trace world0 ++ t /\
    match r with
    | Ret err => exists v ev, reports v err ev /\ terminal_event guard_engine ev /\ sink_calls t = emits guard_engine ev
    | Panic _ => sink_calls t = []
    end.
Proof. exact (Validate_emits_once cgo guard_engine background q_cte world0 guard_engine_wf). Defined.

Lemma sinks_isolated_witness :
  (Validate cgo guard_engine background q_cte world0).1 = (Validate cgo quiet_engine background q_cte world0).1.
Proof.
  destruct (sinks_isolated cgo guard_engine quiet_engine background q_cte {| prepared_result := None |} world0 eq_refl)
    as [[H _] _]. exact H.
Defined.

Lemma Validate_first_rejection_witness :
  Ret match Parse cgo q_cte with
      | (Some r, None) => find_first (rejection ex_rejects) (pairs guard_engine r)
      | _ => Some (ParseErrorPtr (Some {| p_category := ParseErrorSyntax |}))
      end = Ret (Some (ViolationPtr (Some {| v_ruleID := "update_requires_where" |}))).
Proof.
  rewrite <- (Validate_first_rejection cgo guard_engine background ex_rejects q_cte world0
    background_never_done guard_engine_decides). vm_compute. reflexivity.
Defined.

Lemma cancellation_wins_witness :
  let event := {| event_mode := "enforce"; event_outcome := "canceled"; event_ruleID := "" |} in
  (exists u', Validate cgo guard_engine done_context q_update world0 =
     (Ret (Some done_error), {| user := u'; trace := [CErr (Ret (Some done_error))] ++ emits guard_engine event |})) /\
  (exists u', Validate cgo guard_engine expiring "not SQL" world0 =
     (Ret (Some done_error), {| user := u';
        trace := [CErr (Ret None); CParse "not SQL"; CErr (Ret (Some done_error))] ++ emits guard_engine event |})).
Proof.
  split.
  - destruct (cancellation_wins cgo guard_engine done_context q_update {| prepared_result := None |} world0 done_error
      (tick app0) app0) as [H _]. destruct (H eq_refl) as (u' & H1 & _). exists u'. exact H1.
  - destruct (cancellation_wins cgo guard_engine expiring "not SQL" {| prepared_result := None |} world0 done_error
      (tick app0) (tick (tick app0))) as [_ H]. destruct (H eq_refl eq_refl) as (u' & H1). exists u'. exact H1.
Defined.

Lemma NewEngine_well_formed_witness :
  engine_wf guard_engine /\ map reg_rule (engine_rules guard_engine) = map constructor mutation_rules.
Proof.
  destruct (NewEngine_well_formed _ _ _ _ _ _ guard_engine_new) as (_ & H1 & (H2 & _) & _). split; [exact H1 | exact H2].
Defined.

(** A rule registered twice is refused. *)
Lemma NewEngine_accepts_witness :
  exists err, (NewEngine silent [NewDenyTruncate; NewDenyTruncate] world0).1 = Ret (None, Some err).
Proof.
  destruct (NewEngine_accepts silent [NewDenyTruncate; NewDenyTruncate] [denyTruncateRuleID; denyTruncateRuleID] world0)
    as (e & err & Hrun & He & Hacc).
  { exact (constructor_identified [DenyTruncate; DenyTruncate]). }
  destruct err as [err|].
  - exists err. rewrite Hrun. destruct e as [e|]; [|reflexivity]. destruct He as [_ He]. discriminate He. discriminate.
  - exfalso. destruct (proj1 Hacc eq_refl) as (_ & _ & _ & _ & Hnd). apply NoDup_cons in Hnd as [Hnin _].
    apply Hnin. left.
Defined.

(** ** The rules *)
Lemma rules_on_messages_witness :
  Rejected (updateRequiresWhere_Evaluate (newStatement (convertMessage update_message))) = true.
Proof.
  destruct (rules_on_messages (PR:=tree_proto) update_message) as (Hw & _ & _).
  { split; [reflexivity|]. split; [by vm_compute|]. apply (bool_decide_unpack _). vm_compute. reflexivity. }
  apply (Hw (msg_field "where_clause") "UpdateStmt"%string); [|by split].
  split; [right; by left|]. by split.
Defined.

Lemma builtin_selection_accepted_witness :
  exists e, (NewEngine noisy (map constructor [DenyAlterTable; UpdateRequiresWhere]) world0).1 = Ret (Some e, None).
Proof.
  destruct (builtin_selection_accepted noisy [DenyAlterTable; UpdateRequiresWhere] world0 eq_refl eq_refl) as (e & He & _).
  { apply (bool_decide_unpack _). vm_compute. reflexivity. }
  exists e. exact He.
Defined.

(** A reading of ALTER TABLE: besides what the rule looks for, the two other kinds where
    one of their fields says that the object is a table. *)
Definition about_table (n : Node) (name : string) : Prop :=
  exists v, Node_Field (Some n) name = (v, true) /\ kind_of v = ValueEnum /\ stringValue v = "OBJECT_TABLE"%string.

Definition alters_table (n : Node) : Prop :=
  violates DenyAlterTable n \/
  node_kind n = "RenameStmt"%string /\ (about_table n "rename_type" \/ about_table n "relation_type") \/
  node_kind n = "AlterObjectSchemaStmt"%string /\ about_table n "object_type".

Lemma alters_table_reading : alter_table_reading alters_table.
Proof.
  split; intros n; [by left|]. intros [Hv|[[Hk _]|[Hk _]]]; [by left | right; by left | right; by right].
Qed.

Definition ddl_rules : list builtin := [DenyDropTable; DenyAlterTable].

Lemma ddl_engine_new :
  NewEngine silent (map constructor ddl_rules) world0 = (Ret (Some ddl_engine, None), after_new ddl_rules).
Proof. vm_compute. reflexivity. Qed.

(** The statement of the example is an ALTER TABLE that the rule does not look for. *)
Example rename_alters_table :
  exists r n, Parse cgo q_rename = (Some r, None) /\ result_statements r = [Some n] /\
    documented alters_table DenyAlterTable n /\ ~ violates DenyAlterTable n /\ unseen_alter n.
Proof.
  eexists _, _. split; [vm_compute; reflexivity|]. split; [reflexivity|]. split; [|split; [|by left]].
  - right. left. split; [reflexivity|]. left. eexists. split; [vm_compute; reflexivity|]. by split.
  - by intros [[?|?] _].
Qed.


Lemma builtin_policy_sound_witness :
  exists r, Parse cgo q_select = (Some r, None) /\
    forall top n b, Some top ∈ result_statements r -> rtc cte_of top n -> b ∈ mutation_rules -> ~ violates b n.
Proof.
  destruct (Validate cgo guard_engine background q_select world0) as [o w'] eqn:Hrun.
  assert (o = Ret None) as -> by (change o with (o, w').1; rewrite <- Hrun; exact select_accepted).
  exact (builtin_policy_sound cgo noisy mutation_rules world0 guard_engine None _ background q_select world0 w'
    guard_engine_new Hrun).
Defined.

Definition explain_node : Node := MkNode "ExplainStmt" [MkField "query" (litNode (Some
  (MkNode "SelectStmt" [
    MkField "target_list" (litList [litNode (Some (MkNode "ResTarget" [MkField "name" (litString "a")]))]);
    MkField "with_clause" (litNode (Some (MkNode "WithClause" [MkField "ctes" (litList [litNode (Some
      (MkNode "CommonTableExpr" [MkField "ctename" (litString "x"); MkField "ctequery" (litNode (Some update_node))]))])])))])))].

Lemma wrapped_statement_hidden_witness :
  Parse cgo q_explain = (Some {| result_statements := [Some explain_node] |}, None) /\
  violates UpdateRequiresWhere update_node /\
  (Validate cgo quiet_engine background q_explain world0).1 = Ret None.
Proof.
  split; [vm_compute; reflexivity|]. split; [split; [reflexivity | vm_compute; discriminate]|].
  apply (wrapped_statement_hidden cgo silent world0 quiet_engine _ background q_explain world0 explain_node
    quiet_engine_new background_never_done); vm_compute; reflexivity.
Defined.

Lemma alter_table_other_kinds_allowed_witness :
  exists n, Parse cgo q_rename = (Some {| result_statements := [Some n] |}, None) /\
    Rejected (denyAlterTable_Evaluate (newStatement (Some n))) = false.
Proof.
  eexists. split; [vm_compute; reflexivity|]. apply alter_table_other_kinds_allowed. by left.
Defined.
