(* ===== verification/BoundaryWitnesses.v ===== *)
(** * Witnesses: the sinks and the guards

    A registry and a log handler over the example application's state, a driver, and
    the properties of Prometheus.v, Slog.v, PgxGuard.v, PgxPrepared.v and PgxEngine.v
    applied to them. *)
From stdpp Require Import base strings list gmap relations.
From S2P Require Import Prelude.
From S2P Require Import GoRuntime.
From S2P Require Import Nodes.
From S2P Require Import Traversal.
From S2P Require Import PgQuery.
From S2P Require Import TreeProto.
From S2P Require Import Statements.
From S2P Require Import Errors.
From S2P Require Import RuleContract.
From S2P Require Import Observability.
From S2P Require Import Engine.
From S2P Require Import EngineState.
From S2P Require Import EngineProps.
From S2P Require Import BuiltinRules.
From S2P Require Import Prometheus.
From S2P Require Import Slog.
From S2P Require Import Pgx.
From S2P Require Import PgxGuard.
From S2P Require Import PgxPrepared.
From S2P Require Import PgxEngine.
From S2P Require Import ListLRU.
From S2P Require Import Examples.

(** ** Prometheus *)
Definition count_of (vec : nat * list string) (lvs : list string) (u : App) : N :=
  N.of_nat (length (filter (fun c => c = (vec, lvs)) (app_counts u))).

Definition add_count (c : nat * list string * list string) (u : App) : App :=
  {| app_clock := app_clock u; app_vectors := app_vectors u; app_counts := c :: app_counts u; app_records := app_records u |}.

#[export] Instance app_prometheus : PrometheusClient App := {|
  CounterVec := nat * list string;
  Counter := nat * list string * list string;
  NewCounterVec name help labels u :=
    ((app_vectors u, labels),
     {| app_clock := app_clock u; app_vectors := S (app_vectors u); app_counts := app_counts u; app_records := app_records u |});
  WithLabelValues vec lvs u :=
    (if length lvs =? length vec.2 then Ret (vec, lvs) else Panic "inconsistent label cardinality", u);
  Inc := add_count;
  IsValidMetricName name := negb (String.length name =? 0);
  labels_of vec := vec.2;
  series := count_of
|}.

#[export] Instance app_prometheus_laws : PrometheusLaws app_prometheus.
Proof.
  split; [done|]. intros vec lvs u Hlen. cbn in *. rewrite (proj2 (Nat.eqb_eq _ _) Hlen).
  eexists _, u. split; [done|]. unfold count_of, add_count. cbn [app_counts]. split.
  - rewrite filter_cons_True by done. cbn. lia.
  - intros vec' lvs' Hne. rewrite filter_cons_False by congruence. done.
Qed.

Definition registry : iface (Registerer (U:=App)) :=
  Some {| dyn_kind := RPointer; dyn_nil := false; dyn_impl := {| Register := fun _ u => (Ret None, u) |} |}.
Definition prom_config : Config (U:=App) := {| cfg_Registerer := registry; cfg_Service := "billing"; cfg_MetricName := "" |}.
Definition prom_metrics : PromMetrics (U:=App) := {| prom_service := "billing"; prom_validations := (0, metricLabels) |}.

Definition counting_engine : Engine App :=
  engine_of {| opt_metrics := PromMetrics_iface (Some prom_metrics); opt_logger := None |} mutation_rules.

Lemma counting_engine_wf : engine_wf counting_engine.
Proof.
  apply (NewEngine_ok {| opt_metrics := PromMetrics_iface (Some prom_metrics); opt_logger := None |}
    (map constructor mutation_rules) world0 counting_engine None (after_new mutation_rules)).
  vm_compute. reflexivity.
Qed.

(** The rules of the example engines leave every reading of the state alone. *)
Lemma builtin_leave_alone (options : EngineOptions App) selection (R : App -> App -> Prop) ctx :
  (forall u, R u u) ->
  Forall (fun r => forall d, reg_rule r = Some d -> forall s u, R u (Evaluate (dyn_impl d) ctx s u).2)
    (engine_rules (engine_of options selection)).
Proof.
  intros HR. apply Forall_forall. intros r (b & -> & _)%list_elem_of_fmap d. cbn.
  rewrite constructor_eq. intros [= <-] s u. apply HR.
Qed.

Lemma validation_counted_once_witness :
  exists v ev, verdict_result v = Ret (Some (ViolationPtr (Some {| v_ruleID := "update_requires_where" |}))) /\
    verdict_event v = Some ev /\ counted_once prom_metrics ev app0 (user (Validate cgo counting_engine background q_update world0).2).
Proof.
  destruct (Validate cgo counting_engine background q_update world0) as [o w'] eqn:Hrun.
  assert (o = Ret (Some (ViolationPtr (Some {| v_ruleID := "update_requires_where" |})))) as ->
    by (change o with (o, w').1; rewrite <- Hrun; vm_compute; reflexivity).
  destruct (validation_counted_once cgo prom_config app0 prom_metrics _ counting_engine background q_update world0
    (Some (ViolationPtr (Some {| v_ruleID := "update_requires_where" |}))) w' eq_refl counting_engine_wf eq_refl eq_refl) as (v & ev & Hv & Hev & _ & Hc).
  - intros u vec lvs. reflexivity.
  - apply builtin_leave_alone. intros u vec lvs. reflexivity.
  - exact Hrun.
  - exists v, ev. split; [exact Hv|]. split; [exact Hev | exact Hc].
Defined.

Lemma New_configuration_witness :
  exists e, New {| cfg_Registerer := registry; cfg_Service := ""; cfg_MetricName := "" |} app0 = (Ret (None, Some e), app0).
Proof.
  destruct (New_configuration {| cfg_Registerer := registry; cfg_Service := ""; cfg_MetricName := "" |} app0) as [H _].
  destruct H as (e & He & _); [|exists e; exact He]. intros (_ & Hs & _). by apply Hs.
Defined.

(** ** log/slog *)
Definition app_now (u : App) : Z * App := (Z.of_nat (app_clock u), tick u).

Definition record_handler : dynamic (Handler (U:=App)) :=
  {| dyn_kind := RPointer; dyn_nil := false;
     dyn_impl := {|
       Enabled := fun level u => (Ret (bool_decide (LevelInfo <= level)%Z), u);
       Handle := fun r u => (Ret (Some (ForeignError "queue full")),
         {| app_clock := app_clock u; app_vectors := app_vectors u; app_counts := app_counts u;
            app_records := app_records u ++ [r] |}) |} |}.

Lemma record_handler_keeps : keeps_records app_now (dyn_impl record_handler) LevelInfo app_records.
Proof. split; cbn; eauto. Qed.

Definition slog_logger : ptr SlogLogger := Some {| slog_handler := Some record_handler |}.
Definition logging_engine : Engine App :=
  engine_of {| opt_metrics := None; opt_logger := SlogLogger_iface app_now slog_logger |} mutation_rules.

Lemma logging_engine_wf : engine_wf logging_engine.
Proof.
  apply (NewEngine_ok {| opt_metrics := None; opt_logger := SlogLogger_iface app_now slog_logger |}
    (map constructor mutation_rules) world0 logging_engine None (after_new mutation_rules)).
  vm_compute. reflexivity.
Qed.

Lemma validation_logged_once_witness :
  exists v ev t, verdict_result v = Ret None /\ verdict_event v = Some ev /\
    app_records (user (Validate cgo logging_engine background q_select world0).2) =
      [] ++ if bool_decide (LevelInfo <= validationLevel (event_outcome ev))%Z then [event_record t ev] else [].
Proof.
  destruct (Validate cgo logging_engine background q_select world0) as [o w'] eqn:Hrun.
  assert (o = Ret None) as -> by (change o with (o, w').1; rewrite <- Hrun; vm_compute; reflexivity).
  apply (validation_logged_once app_now cgo record_handler slog_logger LevelInfo app_records logging_engine background
    q_select world0 None w' eq_refl record_handler_keeps logging_engine_wf eq_refl eq_refl).
  - intros u. reflexivity.
  - apply (builtin_leave_alone _ mutation_rules (fun u1 u2 => app_records u2 = app_records u1)). reflexivity.
  - exact Hrun.
Defined.

(** ** The guards *)
#[export] Instance unit_pgx : Pgx := {| CommandTag := string; CommandTag0 := ""; DriverRows := unit; DriverRow := unit |}.

Definition driver : iface (Executor (Context App) (World App)) :=
  Some {| dyn_kind := RPointer; dyn_nil := false;
          dyn_impl := {|
            x_Exec := fun _ _ _ s => (Ret ("OK"%string, None), s);
            x_Query := fun _ _ _ s => (Ret (Some tt, None), s);
            x_QueryRow := fun _ _ _ s => (Ret (driverRow tt), s) |} |}.

Definition rewriting : any := Some {| dyn_kind := RStruct; dyn_nil := false; dyn_impl := {| implements_QueryRewriter := true |} |}.

Definition requests : list (request (Context App)) := [
  Request OpExec background q_update [];
  Request OpQuery background q_select [];
  Request OpQueryRow background q_select [];
  Request OpExec done_context q_select [];
  Request OpExec background q_select [rewriting]].

Definition direct_db : PgxGuard.GuardedDB :=
  {| PgxGuard.db_validator := Some (engine_validator cgo guard_engine); PgxGuard.db_executor := driver |}.
Definition direct_world : DBWorld (World App) unit := {| db_app := world0; db_calls := []; db_cache := tt |}.

Definition limits : CacheOptions := {| Capacity := 2; MaxSQLBytes := 20 |}.
Definition caching_db : PgxPrepared.GuardedDB :=
  {| PgxPrepared.db_validator := Some (engine_prepared cgo guard_engine); PgxPrepared.db_executor := driver;
     db_maxSQLBytes := 20 |}.
Definition empty_cache : lru Prepared := MkLRU 2 [].
Definition caching_world : DBWorld (World App) (Cache (V:=Prepared)) :=
  {| db_app := world0; db_calls := []; db_cache := empty_cache |}.

(** The SQL the driver saw. *)
Definition executed (t : list DBCall) : list string :=
  omap (fun c => match c with DExecute _ sql _ => Some sql | _ => None end) t.

Example direct_requests :
  executed (db_calls (PgxGuard.serve_all direct_db direct_world requests)) = [q_select; q_select].
Proof. vm_compute. reflexivity. Qed.

Example caching_requests :
  executed (db_calls (PgxPrepared.serve_all caching_db caching_world requests)) = [q_select; q_select] /\
  map fst (lru_entries (db_cache (PgxPrepared.serve_all caching_db caching_world requests))) = [q_select; q_update].
Proof. vm_compute. by split. Qed.

Lemma guarded_executor_witness :
  exists ts, Forall2 (guarded_request (dyn_impl (engine_validator cgo guard_engine))) requests ts /\
    db_calls (PgxGuard.serve_all direct_db direct_world requests) = [] ++ concat ts.
Proof. exact (guarded_executor (engine_validator cgo guard_engine) driver direct_db requests direct_world eq_refl). Defined.

Lemma guarded_refusal_witness :
  exists w', PgxGuard.Exec direct_db background q_select [rewriting] direct_world =
    (Ret (""%string, Some PgxGuard.ErrQueryRewriterUnsupported), w').
Proof.
  destruct (guarded_refusal direct_db background q_select [rewriting] direct_world PgxGuard.ErrQueryRewriterUnsupported)
    as (w' & H & _).
  - left. split; [|reflexivity]. left. eexists. split; reflexivity.
  - exists w'. exact H.
Defined.

Lemma direct_guard_enforces_witness : compliant cgo mutation_rules q_select /\ ~ Exists rewriter [].
Proof.
  apply (direct_guard_enforces cgo noisy mutation_rules world0 guard_engine _ driver direct_db requests world0 OpQuery
    q_select [] guard_engine_new eq_refl).
  vm_compute. right. right. left.
Defined.

Lemma caching_guard_enforces_witness : compliant cgo mutation_rules q_select /\ ~ Exists rewriter [].
Proof.
  apply (caching_guard_enforces (L:=list_lru) cgo noisy mutation_rules world0 guard_engine _ driver limits caching_db empty_cache requests
    world0 OpQueryRow q_select [] guard_engine_new eq_refl).
  vm_compute. do 6 right. left.
Defined.

Lemma prepared_executor_guarded_witness :
  served_all (dyn_impl (engine_prepared cgo guard_engine)) [] requests
    (db_calls (PgxPrepared.serve_all caching_db caching_world requests)).
Proof.
  exact (prepared_executor_guarded (L:=list_lru) (engine_prepared cgo guard_engine) driver limits caching_db empty_cache world0 requests
    eq_refl).
Defined.

Lemma cache_invariant_witness :
  let w := PgxPrepared.serve_all caching_db caching_world requests in
  lru_Len (db_cache w) <= 2 /\ forall sql p, lookup_entry (db_cache w) sql = Some p -> DPrepare sql (Ret (p, None)) ∈ db_calls w.
Proof.
  destruct (cache_invariant (L:=list_lru) (engine_prepared cgo guard_engine) driver limits caching_db empty_cache world0 requests eq_refl)
    as [Hlen Hall].
  split; [vm_compute; lia|]. intros sql p Hp. destruct (Hall sql p Hp) as (_ & H & _). exact H.
Defined.

Lemma NewGuardedDB_prepared_accepts_witness :
  exists r, PgxPrepared.NewGuardedDB (Some (engine_prepared cgo guard_engine)) driver limits = (Some r, None).
Proof.
  apply (proj1 (NewGuardedDB_prepared_accepts (L:=list_lru) (Some (engine_prepared cgo guard_engine)) driver limits)).
  split; [by eexists|]. split; [by eexists|]. by split.
Defined.

Lemma cache_transparent_witness :
  (validate caching_db background q_update (PgxPrepared.serve_all caching_db caching_world requests)).1 =
  Ret (uncached (engine_prepares cgo) (engine_verdict guard_engine ex_rejects) q_update).
Proof.
  apply (cache_transparent (L:=list_lru) (engine_prepared cgo guard_engine) (engine_prepares cgo) (engine_verdict guard_engine ex_rejects)
    (good_context guard_engine ex_rejects) driver limits caching_db empty_cache world0 requests background q_update eq_refl).
  split; [exact background_never_done | exact guard_engine_decides].
Defined.

Lemma engine_cache_transparent_witness :
  (validate caching_db background q_update (PgxPrepared.serve_all caching_db caching_world requests)).1 =
  Ret (Some (ViolationPtr (Some {| v_ruleID := "update_requires_where" |}))).
Proof.
  etransitivity; [|vm_compute; reflexivity].
  exact (engine_cache_transparent (L:=list_lru) cgo guard_engine ex_rejects driver limits caching_db empty_cache world0 requests
    background q_update world0 eq_refl background_never_done guard_engine_decides).
Defined.
