(* ===== verification/ConcurrentExamples.v ===== *)
(** * Schedules

    Executable schedulers for pools of validations and for the guard's state machine, and
    the theorems on concurrency applied to runs of the example application. *)
From stdpp Require Import base strings list gmap relations.
From S2P Require Import Prelude.
From S2P Require Import GoRuntime.
From S2P Require Import Nodes.
From S2P Require Import Traversal.
From S2P Require Import PgQuery.
From S2P Require Import TreeProto.
From S2P Require Import Statements.
From S2P Require Import Errors.
From S2P Require Import RuleContract.
From S2P Require Import Observability.
From S2P Require Import Engine.
From S2P Require Import EngineState.
From S2P Require Import EngineProps.
From S2P Require Import BuiltinRules.
From S2P Require Import Pgx.
From S2P Require Import PgxPrepared.
From S2P Require Import PgxEngine.
From S2P Require Import ListLRU.
From S2P Require Import Prog.
From S2P Require Import ConcurrentEngine.
From S2P Require Import Prometheus.
From S2P Require Import Slog.
From S2P Require Import ConcurrentSinks.
From S2P Require Import ConcurrentGuard.
From S2P Require Import ConcurrentSystem.
From S2P Require Import Examples.
From S2P Require Import Witnesses.
From S2P Require Import BoundaryWitnesses.

(** ** A scheduler of pools *)
Definition pool_next {U R} (s : pool U R) (i : nat) : pool U R :=
  match threads s !! i with
  | Some (Calling record f k) => {|
      shared := (f (shared s)).2;
      threads := <[i := k (f (shared s)).1]> (threads s);
      calls := calls s ++ [(i, record (f (shared s)).1)]
    |}
  | _ => s
  end.

Lemma pool_run_reachable {U R} (schedule : list nat) (s : pool U R) :
  rtc pool_step s (foldl pool_next s schedule).
Proof.
  revert s. induction schedule as [|i schedule IH]; intros s; [done|]. cbn. etrans; [|apply IH].
  unfold pool_next. destruct (threads s !! i) as [[o|A record f k]|] eqn:Hi; [done| |done].
  apply rtc_once. by apply step_call.
Qed.

(** Two validations on one engine, in turns; the context of the second expires when the
    first has asked its own. *)
Definition two_requests : list (Context App * string) := [(background, q_nested); (expiring, q_select)].
Definition turns : list nat := concat (repeat [0; 1] 20).
Definition two_done : pool App (option goerror) :=
  foldl pool_next (start app0 (validations cgo guard_engine two_requests)) turns.

Example two_results :
  map (fun p => match p with Finished o => Some o | _ => None end) (threads two_done) =
  [Some (Ret (Some (ViolationPtr (Some {| v_ruleID := "delete_requires_where" |})))); Some (Ret (Some done_error))].
Proof. vm_compute. reflexivity. Qed.

Lemma two_done_reachable :
  rtc pool_step (start app0 (validations cgo guard_engine two_requests)) two_done.
Proof. apply pool_run_reachable. Qed.

Lemma concurrent_protocol_witness :
  exists t v, validate_protocol cgo guard_engine q_nested t v /\
    calls_of 0 (calls two_done) = t ++ verdict_emits guard_engine v /\ verdict_result v <> Ret None.
Proof.
  destruct (concurrent_protocol cgo guard_engine two_requests app0 two_done 0 background q_nested
    guard_engine_wf two_done_reachable eq_refl) as (q & t & v & rest & Hq & Hp & Hc & Hfin).
  vm_compute in Hq. injection Hq as <-. destruct (Hfin _ eq_refl) as [-> Hv].
  exists t, v. split; [done|]. split; [by rewrite <- Hc, app_nil_r | by rewrite <- Hv].
Defined.

Lemma concurrent_verdict_witness :
  Ret (Some (ViolationPtr (Some {| v_ruleID := "delete_requires_where" |}))) =
  (Validate cgo guard_engine background q_nested world0).1.
Proof.
  apply (concurrent_verdict cgo guard_engine two_requests app0 two_done 0 background q_nested ex_rejects).
  - apply guard_engine_wf.
  - apply background_never_done.
  - apply guard_engine_decides.
  - apply two_done_reachable.
  - reflexivity.
  - vm_compute. reflexivity.
Defined.

(** After three calls of the first validation and none of the second. *)
Definition two_begun : pool App (option goerror) :=
  foldl pool_next (start app0 (validations cgo guard_engine two_requests)) [0; 0; 0].

Lemma two_begun_reachable :
  rtc pool_step (start app0 (validations cgo guard_engine two_requests)) two_begun.
Proof. apply pool_run_reachable. Qed.

Lemma concurrent_terminates_witness :
  length (calls two_done) <= validate_bound cgo guard_engine q_nested + validate_bound cgo guard_engine q_select /\
  (exists s', own_step 0 two_begun s') /\ (exists s', own_step 1 two_begun s').
Proof.
  destruct (concurrent_terminates cgo guard_engine two_requests app0 two_done guard_engine_wf two_done_reachable)
    as [_ H]. cbn [two_requests map sum_list snd] in H. rewrite Nat.add_0_r in H. split; [exact H|].
  destruct (concurrent_terminates cgo guard_engine two_requests app0 two_begun guard_engine_wf two_begun_reachable)
    as [Hown _].
  split.
  - destruct (Hown 0 background q_nested eq_refl) as [_ [[o Ho]|[_ Hs]]]; [vm_compute in Ho; discriminate Ho | exact Hs].
  - destruct (Hown 1 _ q_select eq_refl) as [_ [[o Ho]|[_ Hs]]]; [vm_compute in Ho; discriminate Ho | exact Hs].
Defined.

(** ** The sinks

    Three validations in turns on an engine that counts, and on one that logs. *)
Lemma pool_run_quiet {U R} (I : U -> U -> Prop) (schedule : list nat) (s : pool U R) :
  rtc (quiet_step I) s (foldl pool_next s schedule).
Proof.
  revert s. induction schedule as [|i schedule IH]; intros s; [done|]. cbn. etrans; [|apply IH].
  unfold pool_next. destruct (threads s !! i) as [[o|A record f k]|] eqn:Hi; [done| |done].
  apply rtc_once. split; [by apply step_call|]. cbn. intros Heq. apply (f_equal length) in Heq.
  rewrite length_app in Heq. cbn in Heq. lia.
Qed.

Definition three_requests : list (Context App * string) :=
  [(background, q_update); (background, q_select); (background, q_update)].
Definition three_turns : list nat := concat (repeat [2; 0; 1] 20).
Definition counted : pool App (option goerror) :=
  foldl pool_next (start app0 (validations cgo counting_engine three_requests)) three_turns.
Definition logged_all : pool App (option goerror) :=
  foldl pool_next (start app0 (validations cgo logging_engine three_requests)) three_turns.

Definition finished {U R} (q : prog U R) : bool := match q with Finished _ => true | _ => false end.

Lemma all_finished_decide {U R} (s : pool U R) : forallb finished (threads s) = true -> all_finished s.
Proof.
  rewrite forallb_forall. intros H. apply Forall_forall. intros q Hq%list_elem_of_In.
  destruct q; [by eexists | by specialize (H _ Hq)].
Qed.

Example two_violations_counted :
  count_of (0, metricLabels) ["billing"; "enforce"; "policy_violation"; "update_requires_where"] (shared counted) = 2%N.
Proof. vm_compute. reflexivity. Qed.

Definition updates_refused : list string := ["billing"; "enforce"; "policy_violation"; "update_requires_where"].

Lemma concurrent_counts_witness :
  exists vs, verdicts_of cgo counting_engine three_requests counted vs /\
    series (prom_validations prom_metrics) updates_refused (shared counted) =
    (series (prom_validations prom_metrics) updates_refused app0 +
     occurrences prom_metrics updates_refused (omap verdict_event vs))%N.
Proof.
  destruct (concurrent_counts cgo prom_config app0 prom_metrics _ counting_engine three_requests app0 counted
    eq_refl counting_engine_wf eq_refl) as (vs & Hvs & Hc & _).
  - by intros d [=].
  - repeat constructor.
  - apply Forall_forall. intros r _. by apply builtin_leave_alone.
  - apply pool_run_quiet.
  - apply all_finished_decide. by vm_compute.
  - exists vs. split; [exact Hvs | exact (Hc updates_refused)].
Defined.

Lemma concurrent_logs_witness :
  exists vs new evs, verdicts_of cgo logging_engine three_requests logged_all vs /\
    app_records (shared logged_all) = new /\ length new = length evs /\
    evs ≡ₚ kept LevelInfo (omap verdict_event vs).
Proof.
  destruct (concurrent_logs app_now cgo record_handler slog_logger LevelInfo app_records logging_engine three_requests
    app0 logged_all eq_refl record_handler_keeps logging_engine_wf eq_refl) as (vs & new & evs & Hvs & Hnew & Hevs & Hall).
  - by intros d [=].
  - repeat constructor.
  - apply Forall_forall. intros r _. by apply (builtin_leave_alone _ mutation_rules (fun u1 u2 => app_records u2 = app_records u1)).
  - apply pool_run_quiet.
  - apply all_finished_decide. by vm_compute.
  - exists vs, new, evs. split; [exact Hvs|]. split; [exact Hnew|]. split; [by eapply Forall2_length | exact Hevs].
Defined.

(** ** A scheduler of the guard

    The validator answers as it would if the state stayed as it is. *)
Fixpoint settle {U R} (p : prog U R) (u : U) : outcome R :=
  match p with
  | Finished o => o
  | Calling record f k => settle (k (f u).1) u
  end.

Lemma settle_follows {U R} (p : prog U R) (u : U) : exists us t, follow p us = Some (Finished (settle p u), t).
Proof.
  induction p as [o|A record f k IH]; [by exists [], []|]. destruct (IH (f u).1) as (us & t & Hf).
  exists (u :: us), (record (f u).1 :: t). cbn. by rewrite Hf.
Qed.

Section scheduler.
Context {U : Type} (e : Engine U) (u : U) (maxSQLBytes : Z) (requests : list (request (Context U))).

Definition act_next (cache : lru Prepared) (r : request (Context U)) (pos : position) :
    option (lru Prepared * list DBCall * position) :=
  match pos with
  | AtStart =>
      if containsQueryRewriter (req_args r)
      then Some (cache, [], Replied (Refused ErrQueryRewriterUnsupported))
      else match lru_Get cache (req_sql r) with
           | (Some p, cache') => Some (cache', [], AtCached p)
           | (None, cache') => Some (cache', [], AtPrepare)
           end
  | AtPrepare =>
      let o := settle (PrepareP cgo e (req_ctx r) (req_sql r)) u in
      Some (cache, [DPrepare (req_sql r) o], after_prepare o)
  | AtCached p =>
      let o := settle (ValidatePreparedP e (req_ctx r) p) u in
      Some (cache, [DValidatePrepared p o], after_cached o)
  | AtFresh p =>
      let o := settle (ValidatePreparedP e (req_ctx r) p) u in
      Some (cache, [DValidatePrepared p o], after_fresh p o)
  | AtStore p err => Some (store (L:=list_lru) maxSQLBytes cache (req_sql r) p err, [], after_verdict err)
  | AtExecute => Some (cache, [DExecute (req_op r) (req_sql r) (req_args r)], Replied Executed)
  | Replied _ => None
  end.

Definition guard_next (s : guard_state (L:=list_lru)) (i : nat) : guard_state :=
  match requests !! i, g_at s !! i with
  | Some r, Some pos =>
      match act_next (g_cache s) r pos with
      | Some (cache', t, pos') =>
          {| g_cache := cache'; g_calls := g_calls s ++ map (pair i) t; g_at := <[i := pos']> (g_at s) |}
      | None => s
      end
  | _, _ => s
  end.

Lemma act_next_sound cache r pos cache' t pos' :
  act_next cache r pos = Some (cache', t, pos') ->
  action (L:=list_lru) (interfered_engine cgo e) maxSQLBytes cache r pos cache' t pos'.
Proof.
  destruct pos; cbn [act_next].
  - destruct (containsQueryRewriter (req_args r)) eqn:Hr; [intros [= <- <- <-]; by constructor|].
    destruct (lru_Get (LRU:=list_lru) cache (req_sql r)) as [[p|] c] eqn:Hg; intros Heq; injection Heq as <- <- <-; by constructor.
  - generalize (settle (PrepareP cgo e (req_ctx r) (req_sql r)) u), (settle_follows (PrepareP cgo e (req_ctx r) (req_sql r)) u).
    intros o Ho [= <- <- <-]. by constructor.
  - generalize (settle (ValidatePreparedP e (req_ctx r) prepared) u), (settle_follows (ValidatePreparedP e (req_ctx r) prepared) u).
    intros o Ho [= <- <- <-]. by constructor.
  - generalize (settle (ValidatePreparedP e (req_ctx r) prepared) u), (settle_follows (ValidatePreparedP e (req_ctx r) prepared) u).
    intros o Ho [= <- <- <-]. by constructor.
  - intros [= <- <- <-]. constructor.
  - intros [= <- <- <-]. constructor.
  - done.
Qed.

Lemma guard_next_step s i :
  s = guard_next s i \/ guard_step (interfered_engine cgo e) maxSQLBytes requests s (guard_next s i).
Proof.
  unfold guard_next. destruct (requests !! i) as [r|] eqn:Hr; [|by left].
  destruct (g_at s !! i) as [pos|] eqn:Hpos; [|by left].
  destruct (act_next (g_cache s) r pos) as [[[cache' t] pos']|] eqn:Ha; [|by left].
  right. eapply guard_act; [done..|]. by apply act_next_sound.
Qed.

Lemma guard_run_reachable schedule s :
  exists k, nsteps (guard_step (interfered_engine cgo e) maxSQLBytes requests) k s (foldl guard_next s schedule).
Proof.
  revert s. induction schedule as [|i schedule IH]; intros s; [exists 0; constructor|]. cbn.
  destruct (IH (guard_next s i)) as [k Hk]. destruct (guard_next_step s i) as [Heq|Hstep].
  - rewrite <- Heq in *. by exists k.
  - exists (S k). by econstructor.
Qed.
End scheduler.

(** Two requests with one text miss the cache together; a third violates; a fourth comes
    when the entry is there. *)
Definition four_requests : list (request (Context App)) := [
  Request OpExec background q_select []; Request OpQuery background q_select [];
  Request OpExec background q_update []; Request OpQueryRow background q_select []].

Definition four_turns : list nat := concat (repeat [0; 1; 2] 6) ++ [3; 3; 3; 3].

Definition guard0 : guard_state (L:=list_lru) := guard_start empty_cache four_requests.
Definition four_done : guard_state (L:=list_lru) := foldl (guard_next guard_engine app0 100 four_requests) guard0 four_turns.

Example four_replies :
  g_at four_done =
    [Replied Executed; Replied Executed;
     Replied (Refused (ViolationPtr (Some {| v_ruleID := "update_requires_where" |}))); Replied Executed] /\
  length (calls_of 3 (g_calls four_done)) = 2 /\ length (calls_of 0 (g_calls four_done)) = 3.
Proof. vm_compute. by repeat split. Qed.

Lemma four_done_steps : exists k,
  nsteps (guard_step (interfered_engine cgo guard_engine) 100 four_requests) k guard0 four_done.
Proof. apply guard_run_reachable. Qed.

Lemma four_done_reachable :
  rtc (guard_step (interfered_engine cgo guard_engine) 100 four_requests) guard0 four_done.
Proof. destruct four_done_steps as [k Hk]. apply rtc_nsteps. by exists k. Qed.

Lemma empty_cache_new : lru_New (LRU:=list_lru) 2 = Some empty_cache.
Proof. reflexivity. Qed.

(** The driver's call of the last request. *)
Lemma last_executed : (3, DExecute OpQueryRow q_select []) ∈ g_calls four_done.
Proof.
  assert (last (g_calls four_done) = Some (3, DExecute OpQueryRow q_select [])) as H by (vm_compute; reflexivity).
  apply last_Some in H as [l ->]. apply elem_of_app. right. left.
Qed.

(** ** Witnesses *)
Lemma concurrent_guard_safe_witness :
  exists t, calls_of 3 (g_calls four_done) = t ++ [DExecute OpQueryRow q_select []].
Proof.
  destruct (concurrent_guard_safe (L:=list_lru) (interfered_engine cgo guard_engine) 100 empty_cache four_requests 2 four_done
    3 OpQueryRow q_select [] empty_cache_new eq_refl four_done_reachable last_executed)
    as (r & t & _ & _ & _ & _ & _ & Ht & _).
  by exists t.
Defined.

Lemma concurrent_cache_invariant_witness :
  exists p, lookup_entry (g_cache four_done) q_select = Some p /\
    may_come_from (interfered_engine cgo guard_engine) q_select p.
Proof.
  destruct (lookup_entry (g_cache four_done) q_select) as [p|] eqn:Hp; [|vm_compute in Hp; done].
  exists p. split; [done|].
  exact (proj1 (proj2 (concurrent_cache_invariant (L:=list_lru) (interfered_engine cgo guard_engine) 100 empty_cache four_requests
    2 four_done empty_cache_new eq_refl four_done_reachable) _ _ Hp)).
Defined.

Lemma concurrent_guard_live_witness :
  exists k, nsteps (guard_step (interfered_engine cgo guard_engine) 100 four_requests) k guard0 four_done /\ k <= 20.
Proof.
  destruct four_done_steps as [k Hk]. exists k. split; [done|].
  destruct (interfered_total cgo guard_engine app0) as [Hp Hv].
  exact (proj1 (concurrent_guard_live (L:=list_lru) (interfered_engine cgo guard_engine) 100 empty_cache four_requests k four_done
    Hp Hv Hk)).
Defined.

Lemma concurrent_system_enforces_witness : compliant cgo mutation_rules q_select /\ ~ Exists rewriter [].
Proof.
  exact (concurrent_system_enforces (L:=list_lru) cgo 100 guard_engine mutation_rules empty_cache four_requests 2 four_done
    3 OpQueryRow q_select [] eq_refl empty_cache_new eq_refl four_done_reachable last_executed).
Defined.

(** Where the requests are after seven actions. *)
Definition four_begun : guard_state (L:=list_lru) :=
  foldl (guard_next guard_engine app0 100 four_requests) guard0 [0; 1; 0; 1; 2; 0; 0].

Lemma guard_run_execution turns : exists schedule,
  execution (interfered_engine cgo guard_engine) 100 four_requests schedule guard0
    (foldl (guard_next guard_engine app0 100 four_requests) guard0 turns).
Proof.
  destruct (guard_run_reachable guard_engine app0 100 four_requests turns guard0) as [k Hk].
  apply steps_execution in Hk as (schedule & _ & Hk). by exists schedule.
Qed.


Lemma serve_is_execution_witness :
  exists t rep, db_calls (serve caching_db caching_world (Request OpExec background q_select [])) = [] ++ t /\
    rtc (guard_step (atomic_validator (dyn_impl (engine_prepared cgo guard_engine))) (db_maxSQLBytes caching_db)
      [Request OpExec background q_select []])
      (one (db_cache caching_world) [] AtStart)
      (one (db_cache (serve caching_db caching_world (Request OpExec background q_select []))) t (Replied rep)) /\
    gives caching_db (Request OpExec background q_select []) caching_world rep.
Proof.
  apply (serve_is_execution caching_db (engine_prepared cgo guard_engine) eq_refl).
  by eexists.
Defined.

(** The engine's rules decide, so its answers are functions under [background]. *)
Lemma concurrent_cache_transparent_witness :
  Refused (ViolationPtr (Some {| v_ruleID := "update_requires_where" |})) =
  match uncached (engine_prepares cgo) (engine_verdict guard_engine ex_rejects) q_update with
  | None => Executed
  | Some err => Refused err
  end.
Proof.
  apply (concurrent_cache_transparent (L:=list_lru) (interfered_engine cgo guard_engine) 100 empty_cache four_requests 2
    four_done 2 (Request OpExec background q_update []) _ (engine_prepares cgo) (engine_verdict guard_engine ex_rejects)
    (good_context guard_engine ex_rejects)).
  - intros ctx sql p H. exact (proj2 (may_prepare_sound cgo guard_engine ctx sql p H)).
  - intros ctx sql o H. exact (may_prepare_function cgo guard_engine ex_rejects ctx sql o (wf_distinct _ guard_engine_wf) H).
  - intros ctx p o H. exact (may_validate_function cgo guard_engine ex_rejects ctx p o (wf_distinct _ guard_engine_wf) H).
  - exact empty_cache_new.
  - done.
  - apply four_done_reachable.
  - reflexivity.
  - exact (conj background_never_done guard_engine_decides).
  - vm_compute. reflexivity.
Defined.
