(* ===== verification/SnapshotExamples.v ===== *)
(** * A tree in a store

    A result with one node, whose two fields hold bytes and a list; a client that takes
    the fields and overwrites what it was given. *)
From stdpp Require Import base gmap sets strings list relations.
From S2P Require Import Prelude.
From S2P Require Import GoFloat.
From S2P Require Import Nodes.
From S2P Require Import Snapshots.

(** Arrays of one or two elements get room for four. *)
Definition four (n : nat) : nat := Nat.max n 4.

Definition h_literal (k : ValueKind) (bs : option slice) (l : option slice) : hvalue :=
  HValue k false 0 0 (SpecFloat.S754_zero false) "" bs None l.

Definition bytes_value : hvalue := h_literal ValueBytes (Some {| s_array := 2; s_len := 1 |}) None.
Definition list_value : hvalue := h_literal ValueList None (Some {| s_array := 3; s_len := 1 |}).

Definition tree_store : store := list_to_map [
  (0, CNode "Root" (Some {| s_array := 1; s_len := 2 |}));
  (1, CFields [{| hf_name := "data"; hf_value := bytes_value |}; {| hf_name := "items"; hf_value := list_value |}]);
  (2, CBytes [Byte.x41; Byte.x42]);
  (3, CValues [bytes_value]);
  (4, CNodes [Some 0]);
  (5, CResult (Some {| s_array := 4; s_len := 1 |}))].

Definition tree_root : Node :=
  MkNode "Root" [MkField "data" (litBytes [Byte.x41]); MkField "items" (litList [litBytes [Byte.x41]])].

Ltac held l := exists l; split; [reflexivity | split; [cbn; lia | reflexivity]].

Lemma bytes_value_at : value_at tree_store bytes_value (litBytes [Byte.x41]).
Proof.
  apply (ValueAt _ _ _ _ _ _ _ _ _ _ _ _ []); [|constructor|done|constructor].
  held [Byte.x41; Byte.x42].
Qed.

Lemma list_value_at : value_at tree_store list_value (litList [litBytes [Byte.x41]]).
Proof.
  apply (ValueAt _ _ _ _ _ _ _ _ _ _ _ _ [bytes_value]); [done|constructor| |].
  - held [bytes_value].
  - constructor; [apply bytes_value_at | constructor].
Qed.

Lemma tree_root_at : node_at tree_store 0 tree_root.
Proof.
  eapply NodeAt; [reflexivity| |].
  - held [{| hf_name := "data"; hf_value := bytes_value |}; {| hf_name := "items"; hf_value := list_value |}].
  - repeat constructor; [apply bytes_value_at | apply list_value_at].
Qed.

Lemma tree_result_at : result_at tree_store 5 {| result_statements := [Some tree_root] |}.
Proof.
  eexists _, [Some 0]. split; [reflexivity|]. split; [held [Some 0]|].
  constructor; [constructor; apply tree_root_at | constructor].
Qed.

Definition client0 : client := {| c_store := tree_store; c_owned := ∅ |}.

Lemma client0_protected : protected tree_store client0.
Proof. split; [done|]. cbn. set_solver. Qed.

(** The fields are copied to array 6, and overwritten there. *)
Definition client1 : client := {|
  c_store := (hFields four (Some 0) tree_store).2;
  c_owned := own (hFields four (Some 0) tree_store).1 ∅
|}.
Definition client2 : client := {| c_store := <[6 := CFields []]> (c_store client1); c_owned := c_owned client1 |}.

Lemma client2_reachable : rtc (client_step four) client0 client2.
Proof.
  eapply rtc_l; [apply (client_Fields four client0 (Some 0)); apply surjective_pairing|].
  apply rtc_once. apply (client_write four client1 6). apply (bool_decide_unpack _). by vm_compute.
Qed.

Example overwritten : c_store client2 !! 6 = Some (CFields []) /\ c_store client2 !! 1 = tree_store !! 1.
Proof. by vm_compute. Qed.

(** ** Witnesses *)
Lemma clients_cannot_mutate_witness : node_at (c_store client2) 0 tree_root.
Proof.
  apply (clients_cannot_mutate four tree_store client0 client2 client0_protected client2_reachable).
  apply tree_root_at.
Defined.

Lemma accessors_refine_witness : read (T:=hfield) (hFields four (Some 0) tree_store).2 (hFields four (Some 0) tree_store).1 =
  [{| hf_name := "data"; hf_value := bytes_value |}; {| hf_name := "items"; hf_value := list_value |}] /\
  exists s, (hBytes four bytes_value tree_store).1 = (s, true).
Proof.
  split; [vm_compute; reflexivity|].
  destruct (accessors_refine four tree_store 0 tree_root bytes_value (litBytes [Byte.x41])
    {| result_statements := [Some tree_root] |} 5 "data" tree_root_at bytes_value_at tree_result_at)
    as (_ & Hb & _).
  destruct (hBytes four bytes_value tree_store) as [[s b] h']. destruct Hb as [_ ->]. by exists s.
Defined.
