(* ===== verification/ParseMemoryExamples.v ===== *)
(** * The conversion in the store, evaluated

    The example parser's trees are converted in a store that already holds a cell of the
    backend; a client then overwrites that cell and everything it was given. *)
From stdpp Require Import base gmap sets strings list relations.
From S2P Require Import Prelude.
From S2P Require Import GoRuntime.
From S2P Require Import Nodes.
From S2P Require Import Snapshots.
From S2P Require Import HeapBuild.
From S2P Require Import PgQuery.
From S2P Require Import TreeProto.
From S2P Require Import Statements.
From S2P Require Import ConvertedTree.
From S2P Require Import ParseMemory.
From S2P Require Import ViewMemory.
From S2P Require Import Examples.
From S2P Require Import SnapshotExamples.

(** The backend keeps byte strings in cell 0. *)
#[export] Instance tree_memory : ProtoMemory (PR:=tree_proto) := {|
  pv_BytesSlice v := match v with TBytes (b :: bs) => Some {| s_array := 0; s_len := S (length bs) |} | _ => None end
|}.

(** Messages without fields of bytes. *)
Definition plain_desc (d : tdesc) : bool :=
  forallb (fun fd => match tf_kind fd with BytesKind => false | _ => true end) (td_fields d).

Fixpoint plain (m : tmsg) : bool :=
  match m with
  | TNil => true
  | TMsg d vals => plain_desc d && forallb (fun p => plain_val p.2) vals
  end
with plain_val (v : tval) : bool :=
  match v with
  | TSub m => plain m
  | TList l => forallb plain_val l
  | _ => true
  end.

Lemma plain_tget m fd v : plain m = true -> tget m fd = Some v -> plain_val v = true.
Proof.
  destruct m as [|d vals]; [done|]. cbn [plain tget]. unfold tlookup. rewrite andb_true_iff, forallb_forall.
  intros [_ Hall] (l1 & [n w] & l2 & -> & _ & H)%find_first_Some. cbn in H. case_decide; [|done].
  injection H as ->. apply (Hall (n, v)). apply in_app_iff. right. by left.
Qed.

Lemma plain_message v : plain_val v = true -> plain (tmessage v) = true.
Proof. by destruct v. Qed.

Lemma plain_part m m' : plain m = true -> part_of (PR:=tree_proto) m m' -> plain m' = true.
Proof.
  intros Hm [[fd _ Hh _ _ ->|fd v _ Hh _ _ Hv ->]|fd _ _ ->]; cbn in *.
  - apply thas_get in Hh as (w & Hw). rewrite Hw. by eapply plain_message, plain_tget.
  - apply thas_get in Hh as (w & Hw). rewrite Hw in Hv. pose proof (plain_tget _ _ _ Hm Hw) as Hp.
    destruct w; try (by apply elem_of_nil in Hv). cbn in Hp. rewrite forallb_forall in Hp.
    apply plain_message, Hp. by apply list_elem_of_In.
  - destruct (tget m fd) as [v|] eqn:Hv; [|done]. by eapply plain_message, plain_tget.
Qed.

Lemma plain_backed h m : plain m = true -> backed (PR:=tree_proto) h m.
Proof.
  intros Hm m' v Hparts. assert (plain m' = true) as Hm'
    by (induction Hparts as [|m m1 m' Hp _ IH]; [done | apply IH; by eapply plain_part]).
  assert (forall fd, fd ∈ Fields (ProtoReflect:=tree_proto) (Descriptor (ProtoReflect:=tree_proto) m') ->
    fd_Kind (ProtoReflect:=tree_proto) fd = BytesKind -> False) as Hno.
  { destruct m' as [|d vals]; cbn in *; [by intros fd ?%elem_of_nil|].
    apply andb_prop in Hm' as [Hd _]. unfold plain_desc in Hd. rewrite forallb_forall in Hd.
    intros fd Hin%list_elem_of_In Hk. specialize (Hd fd Hin). by rewrite Hk in Hd. }
  intros [fd Hin _ Hk _ _|fd Hin _ Hk _ _]; by destruct (Hno fd Hin Hk).
Qed.

(** ** A parse, and a client that overwrites what it can *)
Definition backend_store : store := {[0 := CBytes [Byte.x41]]}.
Definition parsed : outcome (option loc * option goerror) * store := hParse four cgo q_cte backend_store.
Definition parsed_store : store := parsed.2.

Lemma q_cte_backed : tree_backed cgo backend_store q_cte.
Proof.
  intros tree raw source Htree Hraw Hs. apply plain_backed. vm_compute in Htree. injection Htree as <-.
  apply list_elem_of_singleton in Hraw as ->. vm_compute in Hs. injection Hs as <-. by vm_compute.
Qed.

Definition result_loc : loc := match parsed.1 with Ret (Some l, _) => l | _ => 0 end.

Lemma parsed_result : parsed = (Ret (Some result_loc, None), parsed_store).
Proof. vm_compute. reflexivity. Qed.

Definition writer : client := {| c_store := parsed_store; c_owned := {[0]} |}.
Definition overwriter : client := {| c_store := <[0 := CBytes []]> parsed_store; c_owned := {[0]} |}.

Lemma overwriter_reachable : rtc (client_step four) writer overwriter.
Proof. apply rtc_once. apply (client_write four writer 0). cbn. set_solver. Qed.

Lemma parse_detached_witness :
  exists l, (hParse four cgo q_cte backend_store).1 = Ret (Some l, (Parse cgo q_cte).2).
Proof.
  destruct (parse_detached four cgo q_cte backend_store q_cte_backed) as (p & h' & Hrun & _ & Hp).
  rewrite Hrun. destruct p as [l|]; [by exists l|].
  destruct (Parse cgo q_cte).1 as [r|] eqn:HP; [destruct Hp | vm_compute in HP; discriminate].
Defined.

Lemma parsed_tree_immutable_witness :
  exists r, Parse cgo q_cte = (Some r, None) /\ result_at (c_store overwriter) result_loc r.
Proof.
  apply (parsed_tree_immutable four cgo q_cte backend_store result_loc None parsed_store writer overwriter).
  - exact q_cte_backed.
  - exact parsed_result.
  - reflexivity.
  - unfold backend_store. rewrite dom_singleton_L. done.
  - exact overwriter_reachable.
Defined.

Lemma views_refine_witness :
  exists s h', hView_Bytes four (Some 0) "data" tree_store = (Ret (s, true), h').
Proof.
  destruct (views_refine four tree_store (Some 0) (Some tree_root) "data") as (_ & _ & (x & h' & Hrun & _ & _ & Hok)).
  - constructor. apply tree_root_at.
  - exists x.1, h'. rewrite Hrun. destruct x as [s b]. cbn in Hok |- *. by rewrite Hok.
Defined.

(** A field of bytes is copied out of the backend's cell. *)
Definition bytesDesc : tdesc := TDesc "pg_query.Datum" "Datum" [TField "data" false BytesKind (fun _ => None)].

Example bytes_copied :
  let h := (hconvertMessage (PR:=tree_proto) four (TMsg bytesDesc [("data"%string, TBytes [Byte.x41])]) backend_store).2 in
  h !! 0 = Some (CBytes [Byte.x41]) /\ h !! 2 = Some (CBytes [Byte.x41; Byte.x00; Byte.x00; Byte.x00]).
Proof. split; vm_compute; reflexivity. Qed.
