(* ===== verification/MemoryExamples.v ===== *)
(** * Validation and walks in memory, evaluated

    A visitor and a rule that take the fields of every node they are shown and overwrite
    them; a walk and a validation in their presence. *)
From stdpp Require Import base gmap sets strings list relations.
From S2P Require Import Prelude.
From S2P Require Import GoRuntime.
From S2P Require Import Nodes.
From S2P Require Import Snapshots.
From S2P Require Import HeapBuild.
From S2P Require Import Traversal.
From S2P Require Import PgQuery.
From S2P Require Import TreeProto.
From S2P Require Import Statements.
From S2P Require Import ParseMemory.
From S2P Require Import TraversalMemory.
From S2P Require Import WalkMemory.
From S2P Require Import Errors.
From S2P Require Import RuleContract.
From S2P Require Import Observability.
From S2P Require Import Engine.
From S2P Require Import EngineMemory.
From S2P Require Import Examples.
From S2P Require Import SnapshotExamples.
From S2P Require Import ParseMemoryExamples.

(** The nodes that were shown, in order. *)
Abbreviation shown := (list (option loc)).

(** Takes the fields of the node and wipes the array. *)
Definition wipe (p : option loc) (w : world shown) : world shown :=
  let '(s, h) := hFields four p (memory w) in
  {| w_client := {|
       c_store := match s with Some sl => <[s_array sl := CFields []]> h | None => h end;
       c_owned := own s (owned w) |};
     w_vars := w_vars w ++ [p] |}.

Lemma wipe_is_client p w : rtc (client_step four) (w_client w) (w_client (wipe p w)).
Proof.
  unfold wipe. destruct (hFields four p (memory w)) as [[sl|] h] eqn:Hf; cbn [w_client].
  - eapply rtc_l; [by eapply client_Fields|]. apply rtc_once.
    apply (client_write four {| c_store := h; c_owned := own (Some sl) (owned w) |} (s_array sl)). cbn. set_solver.
  - apply rtc_once. by eapply (client_Fields four (w_client w) p None).
Qed.

Definition wiper (p : option loc) : M (world shown) bool := fun w => (Ret true, wipe p w).

Lemma wiper_client : is_client four wiper.
Proof. intros p w o w' [= <- <-]. apply wipe_is_client. Qed.

(** ** A walk over a tree with a child *)
Definition child_value : hvalue := HValue ValueNode false 0 0 (SpecFloat.S754_zero false) "" None (Some 2) None.
Definition family : store := list_to_map [
  (0, CNode "Parent" (Some {| s_array := 1; s_len := 2 |}));
  (1, CFields [{| hf_name := "first"; hf_value := child_value |}; {| hf_name := "second"; hf_value := child_value |}]);
  (2, CNode "Child" None)].

Definition child_node : Node := MkNode "Child" [].
Definition parent_node : Node := MkNode "Parent" [MkField "first" (litNode (Some child_node)); MkField "second" (litNode (Some child_node))].

Lemma parent_at : ptr_at family (Some 0) (Some parent_node).
Proof.
  assert (value_at family child_value (litNode (Some child_node))) as Hv.
  { apply (ValueAt _ _ _ _ _ _ _ _ _ _ _ _ []); [done | | done | constructor].
    constructor. by eapply NodeAt; [reflexivity | reflexivity | constructor]. }
  constructor. eapply NodeAt; [reflexivity | |].
  - held [{| hf_name := "first"; hf_value := child_value |}; {| hf_name := "second"; hf_value := child_value |}].
  - repeat constructor; exact Hv.
Qed.

Definition quiet_world (h : store) : world shown := {| w_client := {| c_store := h; c_owned := ∅ |}; w_vars := [] |}.

Example wiped_walk :
  w_vars (hView_Walk four 8 (Some 0) (Some wiper) (quiet_world family)).2 = [Some 0; Some 2; Some 2].
Proof. vm_compute. reflexivity. Qed.

Lemma walk_unperturbed_witness :
  exists o w', walked family wiper (node_slots parent_node) (quiet_world family) o w' /\ family ⊆ memory w'.
Proof.
  destruct (walk_unperturbed four 8 wiper (Some 0) parent_node (quiet_world family) family)
    as (o & w' & Hw & Hm & _); [exact wiper_client | exact parent_at | vm_compute; lia | | |].
  - split; [done|]. cbn. set_solver.
  - cbn. set_solver.
  - exists o, w'. exact (conj Hw Hm).
Defined.

(** ** A validation with a rule that wipes *)
Definition never : Context (world shown) := {| Err := fun w => (Ret None, w) |}.

(** Reads the kind of the root where it is. *)
Definition refuse_kind (kind : string) (p : option loc) (w : world shown) : RuleResult :=
  match p ≫= fun l => memory w !! l with
  | Some (CNode k _) => if decide (k = kind) then Reject else Allow
  | _ => Allow
  end.

Definition wiping_rule (id kind : string) : hregisteredRule shown := {|
  hreg_ruleID := id;
  hreg_rule := Some {| dyn_kind := RStruct; dyn_nil := false; dyn_impl := {|
    hID := fun w => (Ret id, w);
    hEvaluate := fun _ p w => (Ret (refuse_kind kind p w), wipe p w) |} |}
|}.

Definition wiping_engine : hEngine shown := {|
  hengine_rules := [wiping_rule "first" "TruncateStmt"; wiping_rule "second" "UpdateStmt"];
  hengine_metrics := None;
  hengine_logger := None
|}.

Lemma wiping_engine_clients : client_engine four wiping_engine never.
Proof.
  split; [by intros w o w' [= <- <-] | | done | done].
  repeat constructor; cbn; try (by eexists); intros d [= <-] p w o w' [= <- <-]; apply wipe_is_client.
Qed.

Definition memory_world : World (world shown) := {| user := quiet_world backend_store; trace := [] |}.
Definition cte_run : outcome (option goerror) * World (world shown) :=
  hValidate four 20 cgo wiping_engine never q_cte memory_world.

(** The UPDATE of the CTE is refused by the second rule, after the first has wiped. *)
Example wiped_validation :
  cte_run.1 = Ret (Some (ViolationPtr (Some {| v_ruleID := "second" |}))) /\ length (w_vars (user cte_run.2)) = 4.
Proof. vm_compute. by split. Qed.

Lemma Validate_memory_refines_witness :
  exists t v w', validate_protocol cgo (abstract wiping_engine) q_cte t v /\ cte_run = (verdict_result v, w') /\
    backend_store ⊆ memory (user w').
Proof.
  destruct (Validate_memory_refines four 20 cgo wiping_engine never q_cte backend_store memory_world)
    as (t & v & w' & Ht & Hrun & _ & Hm).
  - exact wiping_engine_clients.
  - exact q_cte_backed.
  - intros r Hr. vm_compute in Hr. injection Hr as <-. repeat constructor; vm_compute; lia.
  - split; [done|]. cbn. set_solver.
  - cbn. set_solver.
  - exists t, v, w'. exact (conj Ht (conj Hrun Hm)).
Defined.

(** The example result of SnapshotExamples.v, validated by the wiping rules. *)
Lemma prepared_reusable_witness :
  exists v w', hValidatePrepared four 20 wiping_engine never (Some 5)
      {| user := quiet_world tree_store; trace := [] |} = (verdict_result v, w') /\
    result_at (memory (user w')) 5 {| result_statements := [Some tree_root] |}.
Proof.
  destruct (prepared_reusable four 20 wiping_engine never tree_store 5 {| result_statements := [Some tree_root] |}
    {| user := quiet_world tree_store; trace := [] |}) as (t & v & w' & _ & Hrun & _ & Hr & _).
  - exact wiping_engine_clients.
  - exact tree_result_at.
  - repeat constructor.
  - split; [done|]. cbn. set_solver.
  - cbn. set_solver.
  - exists v, w'. exact (conj Hrun Hr).
Defined.

Lemma sequence_detached_witness :
  exists s h' ps, hStatementSequence four 20 (Some 5) tree_store = (Ret s, h') /\ holds (h' ∖ tree_store) s ps.
Proof.
  destruct (sequence_detached four 20 tree_store 5 {| result_statements := [Some tree_root] |} tree_result_at)
    as (s & h' & ps & Hrun & _ & Hs & _).
  - repeat constructor.
  - exists s, h', ps. exact (conj Hrun Hs).
Defined.
